(* ===== verification/_CoqProject ===== *)
-Q . S2P
Prelude.v
Float64.v
FloatRound.v
Runtime.v
Clock.v
Wire.v
Replay.v
Arbitrator.v
ArbitratorProofs.v
ArbitratorSessions.v
OrderBook.v
OrderBookProofs.v
OrderBookTheory.v
OrderBookProps.v
BookBuilder.v
BookBuilderProofs.v
BookBuilderProps.v
Validator.v
ValidatorTable.v
ValidatorProps.v
ValidatorChecks.v
PriceTolerance.v
PriceBand.v
SpscRing.v
SpscRingProofs.v
WeakMemory.v
SpscWeak.v
SpscWeakProofs.v
SpscProgram.v
Timestamp.v
TimestampProofs.v
Util.v
UtilProofs.v
Harness.v
HarnessProofs.v
Pipeline.v
ReplayMain.v
MtRun.v
MtWeak.v
SpscBench.v
Ingest.v
ParserProofs.v
LiveIngest.v
LiveIngestProofs.v
LiveIngestProps.v
ValidatorTyped.v
Client.v
IngestMain.v
IngestMainProofs.v
Publisher.v
PublisherProofs.v
FeedMain.v
FeedMainProofs.v
GenDataset.v
GenDatasetProofs.v
GenSequencing.v
GenRecon.v
GenPrices.v
GenDetection.v
GenBand.v
PyReplay.v
PyReplayProps.v
ReplayMainProofs.v
GenReport.v
GenMain.v
MtRunProofs.v
MtWeakProofs.v
SpscBenchProofs.v
