(* ===== verification/Prelude.v ===== *)
(** * A verification of ohlcv-validator

    ohlcv-validator checks the integrity of market data (trades, quotes and OHLCV
    bars) in C++.  Three paths share one validator and one record layout:

    - the feed path: [bin/feed_publisher.cpp] sends synthetic trades as numbered
      packets on two lossy multicast lines ([feed/udp_multicast.h]);
      [bin/feed_handler.cpp] drains both lines into [feed/arbitrator.h], which
      rebuilds one ordered stream and hands it to [validate/validator.cpp];
    - the live path: [ingest/alpaca_client.cpp] keeps a websocket session alive,
      [ingest/parser.cpp] turns its frames into records (times by
      [model/timestamp.h]), and [bin/alpaca_ingest.cpp] stamps sequence numbers,
      validates, reports, logs, and captures the stream to a replay file
      ([replay/capture_writer.h]);
    - the replay path: a replay file, captured or written by
      [bin/gen_dataset.cpp], is mapped ([replay/mapped_file.h]), checked by
      [view_replay] ([replay/binary_format.h]) and run through the validator by the
      benchmarks: sequential, sharded over threads, with per-record cycle counts, or
      through the SPSC ring [concurrent/spsc_ring.h].  The Python layer reads and writes
      the same files ([ml/replay_reader.py], [ml/replay_writer.py]).

    Beside them stands the order book [book/order_book.h] with its recovery state
    machine [book/book_builder.h].  All paths above are below [src/src/], those of the
    Python layer below [src/].

    ** Files

    - [Prelude]: machine integers with their wrap-around, little-endian bytes, the
      shared list lemmas, hint databases ([u64], [len]) and tactics.
    - [Float64]: [double] as executable IEEE-754 binary64.  [FloatRound]: the value of a
      double as an integer multiple of [2^-1074]; the operations stay on the right side of
      every representable number and have a bounded relative error.
    - [Runtime]: command-line numbers, the log of prints, how a program ends.
    - [Clock]: [util/timing.h], [util/tsc_timer.h] and the overhead binary [main.cpp].
    - [Wire]: the structs of [model/wire.h], [feed_protocol.h] and the replay header
      with their byte images, through the class [WireStruct]; [view_replay].
    - [Replay]: [CaptureWriter] over a failing stream; [MappedFile].
    - [Arbitrator], [ArbitratorProofs], [ArbitratorSessions]: [FeedArbitrator] with
      its ring, cursor and counters; a specification machine over the set of
      accepted messages; the refinement between them; properties of sessions.
    - [OrderBook], [OrderBookProofs], [OrderBookTheory], [OrderBookProps]: the two
      level arrays and every loop over them; a sorted-list specification; its theory;
      the properties of the book.
    - [BookBuilder], [BookBuilderProofs], [BookBuilderProps]: the state machine over
      the interface [BookOps] / [BookLaws]; its proofs against the interface; the
      instance at the real book.
    - [Validator], [ValidatorTable], [ValidatorProps], [ValidatorChecks]: checks and
      symbol table; the table as a map; streams of records; what each flag means.
      [ValidatorTyped]: ranges of the state and flags per kind of record.
      [PriceTolerance]: the tolerance and band tests against exact arithmetic;
      [PriceBand]: the reference of the band in a market of small steps.
    - [SpscRing], [SpscRingProofs]: the ring's atomic pieces and the step relation of
      the two threads; its invariant.  [WeakMemory]: views, acquire and release accesses
      and data races of the C++ memory model; [SpscWeak], [SpscWeakProofs]: the ring on it,
      access by access, and the simulation into the step relation of [SpscRing].
      [SpscProgram]: producer and consumer loops over it.
    - [Timestamp], [TimestampProofs]: [parse_timestamp_ns] and its inverse.
    - [Util], [UtilProofs]: reconnect backoff and latency histogram.
    - [Harness], [HarnessProofs]: feed handler, [replay_bench], [replay_bench_mt]:
      dispatch, counters, partition.
    - [Pipeline]: the loop bodies of [replay_bench_rdtsc] and [replay_bench_spsc].
    - [ReplayMain], [ReplayMainProofs]: [replay_bench] and [replay_bench_rdtsc] as
      programs.  [MtRun], [MtRunProofs]: threads, start gate and sweep of
      [replay_bench_mt]; [MtWeak], [MtWeakProofs]: the same threads on the memory model.
      [SpscBench], [SpscBenchProofs]: both regimes and the report of
      [replay_bench_spsc].
    - [Ingest], [ParserProofs]: the live record types, [to_wire.h], [live_report.h],
      [violation_log.h], the frame parser.
    - [LiveIngest], [LiveIngestProofs], [LiveIngestProps]: the loop of [alpaca_ingest].
    - [Client]: [AlpacaClient].
    - [IngestMain], [IngestMainProofs]: [alpaca_ingest] as a program: environment,
      start-up dialogue, reads with outages, exit paths, summary.
    - [Publisher], [PublisherProofs]: [feed_publisher] and the multicast framing.
    - [FeedMain], [FeedMainProofs]: [feed_publisher] and [feed_handler] as programs, the
      handler on raw datagrams with its timeouts.
    - [GenDataset], [GenDatasetProofs]: the data set generator.  [GenSequencing],
      [GenRecon]: its sequencing and its bar defects seen by the validator.  [GenPrices]:
      bounds of its prices and aggregates; [GenDetection], [GenBand]: the verdict on each
      record predicted from the defects drawn, the price spikes.  [GenReport]: what
      [replay_bench] prints for a generated file.  [GenMain]: the program around the
      generator, its vectors and the file it leaves.
    - [PyReplay], [PyReplayProps]: the NumPy dtypes, [read_replay], [make_bars] and
      [write_replay] of the Python layer, against the C++ reader and the validator.

    A C++ class is a record of its members under the source's names; a member
    function is a function from the old state to the new one and the result; a call
    back to a sink is an entry of a log, in call order; an exception is the left side
    of a sum, a failed check [None].  Unsigned arithmetic wraps through [u64] and
    [u32].

    ** What is proved

    - Feed: the arbitrator implements its specification, releases in sequence order
      and each number once, never substitutes one message for another, loses nothing
      that arrives before its place is given up, and delivers the complete stream when
      each message is on one of the lines and the skew stays within the window.  Its
      counters add up.  From the publisher's command line to the handler's printed report:
      all messages delivered, no gap, exactly the violations of the published stream.
      Whatever datagrams arrive, the handler ends once the lines are silent.
    - Validator: on at most 4096 symbols the hash table behaves as a map, symbols do
      not influence each other, and beyond that the stateful checks alone are skipped.
      Gap counts add up to the missing numbers; a bar of a clean window passes, and
      its volume and count flags are exact; the price band ignores an outlier and
      follows a lasting move; in a market of small steps it raises no alarm and its reference
      stays within 4.1 steps of the last trade ([steady_market_never_breaches]).  The tolerance test on prices decides the exact
      inequality it stands for up to a relative [2^-49] ([approx_equal_tolerance]).  Its state stays within the machine types and every result
      carries only flags of its record's kind.
    - Book: [apply] refines the sorted-list update, sets the size of one price and of
      no other, and on a full side drops the worst; a rebuild does not depend on the
      order of the levels; [operator==] is equality of sizes at every price.  A live
      builder shows the venue's book at its own number whatever is lost or repeated,
      refuses snapshots older than its state, and recovers.
    - Ring: on the C++ memory model, with the orders of the source, no execution has a
      data race or leaves the buffer, and each is one of the interleaving model; relaxing
      any of the four orders gives a race.  In every interleaving, with stale loads of the
      far cursor and wrapping counters, the items popped are a prefix of those pushed;
      [size_approx] stays between 0 and the capacity; one thread alone sees a bounded
      queue.  The two loops over it, on the memory model, never deadlock and process every
      item once, in order.
    - Files: every read of a file [view_replay] accepts is inside the mapping; a
      capture reads back as written; a capture that fails part way is never accepted
      with a record it does not hold.  The capture of a live session replays to the
      same results.  A data set file cut anywhere is refused, in C++ and in Python.  The Python reader agrees with
      the C++ one on every file, field by field, takes all of a failed capture or nothing,
      and sound bars written in Python pass every rule.
    - Live: tallies, violation lines and log agree with the validator over the stamped
      stream; a frame whose timestamps are readable is partitioned by message type; timestamps invert the printer;
      the client survives any finite run of outages and resubscribes; the start-up
      dialogue ends authenticated and subscribed when the connect and its two writes succeed,
      and otherwise the program returns 1; a run of the program prints, counts and
      logs exactly what the validator finds, with the exit code of the way it ends.
    - Harnesses: sharding by symbol (of at most 4096 symbols) and the SPSC pipeline change
      no result; on the C++
      memory model the threads of [replay_bench_mt] have no data race, none validates before
      the clock is read, and every run can be completed with the sequential checksums; the
      benchmarks agree on the checksum, report what the validator finds and divide by zero
      exactly on an empty file; the medians and percentiles of clock samples are order
      statistics; the generator terminates with exactly the records asked for, or in the exception of a
      vector it cannot have, and unless
      a bar defect or a price spike is drawn its bars reconcile with their trades.  Over a
      data set the validator's flags are those the drawn defects predict
      ([gen_detection_exact]), the price band reports the injected spikes
      ([gen_spikes_exact]), and the counters of [replay_bench] on the file follow from the
      defects drawn ([generated_dataset_report]).  The threads of [replay_bench_spsc] never
      reach a dead end, and the figures of its report are the medians of the rates measured
      ([spsc_main_outcomes]).

    ** Loops, fuel and bounds

    The loops of the arbitrator take fuel and answer [None] without it; the fuel is
    [Window + 1] iterations ([release_fuel]) and, for the loop that forces the
    frontier forward, the distance it has to go; [arbitrator_refines_spec] states that
    a session always returns.  The generator's outer loop takes as fuel the number of
    records wanted, since every window adds one at least; [gen_dataset_complete]
    states that this is enough.  The handler's loop takes fuel and answers [None] while it
    runs; [feed_handler_terminates] gives the fuel for every run whose lines fall silent.
    Threads are step relations, so their schedules are not bounded.  The validator's
    probe makes at most [kCapacity] = 4096 steps as in the source.  All other loops are structural, over the array, the
    byte string or the list of events.  [Window] and [Capacity] range over the powers
    of two the [static_assert]s admit, up to 2^63; [MaxLevels] and [RecoverBuf] are
    arbitrary.  Theorems about sequence numbers assume that they do not reach 2^64.  The
    theorems about generated data take any random engine within the ranges of the
    program's distributions, at most 4096 symbols and at most 10^6 records, the program's
    default.  They leave out one flag, [kBarVwapOutOfRange]: that test has no tolerance and
    depends on how the quotient rounds ([single_trade_vwap_out_of_range]).

    ** Parameters

    Code outside the repository is an argument of the definitions that use it:
    simdjson's queries ([simdjson], with its documented behaviour in [simdjson_ok]);
    the random draws of publisher, generator and jitter; the outcome of each system
    call, disk write, send, connection attempt and read; the datagrams that arrive; the
    environment; cycle counts and clock readings; the limits and the success of the
    generator's allocations ([Heap], with [heap_ok]); the number forms of [atof] other than
    decimal; the calendar value the standard leaves unspecified ([days_unspecified])
    and the value of a cast that is undefined ([cast_undefined]).

    ** Not modelled

    The inside of libraries: TCP, TLS and the websocket protocol (Boost), JSON
    serialisation, log formatting (spdlog), the text [printf] makes of its arguments
    (prints are kept as format and arguments).  Pacing sleeps and thread pinning, which
    change no value.  The info messages of the client.  The delivery of a signal, which
    enters as the end of the list of reads.  The Python scripts below [ml/] other than the
    reader and the writer of replay files: training, evaluation and plotting, where the
    computation is that of NumPy, scikit-learn and PyTorch. *)

From stdpp Require Import base numbers list list_numbers gmap.
From Stdlib Require Import ZArith Lia Znumtheory.
From Stdlib Require Strings.Byte.

Local Open Scope Z_scope.

(** ** Machine integers

    An unsigned [w]-bit integer is a [Z] in [0, 2^w); every arithmetic
    operation of the source on such a type is followed by the wrap-around that
    the C++ standard prescribes. *)

Definition u64 (z : Z) : Z := z mod 2 ^ 64.
Definition u32 (z : Z) : Z := z mod 2 ^ 32.
Definition is_u64 (z : Z) : Prop := 0 <= z < 2 ^ 64.
Definition is_u32 (z : Z) : Prop := 0 <= z < 2 ^ 32.
Definition UINT64_MAX : Z := 2 ^ 64 - 1.

Definition u64_add (a b : Z) : Z := u64 (a + b).
Definition u64_sub (a b : Z) : Z := u64 (a - b).
Definition u64_mul (a b : Z) : Z := u64 (a * b).

Declare Scope u64_scope.
Delimit Scope u64_scope with u64.
Infix "+u" := u64_add (at level 50, left associativity) : u64_scope.
Infix "-u" := u64_sub (at level 50, left associativity) : u64_scope.
Infix "*u" := u64_mul (at level 40, left associativity) : u64_scope.
Open Scope u64_scope.

Global Instance is_u64_dec z : Decision (is_u64 z).
Proof. unfold is_u64. apply _. Defined.

Lemma u64_is z : is_u64 (u64 z).
Proof. unfold is_u64, u64. apply Z.mod_pos_bound. lia. Qed.

Lemma u64_small z : is_u64 z → u64 z = z.
Proof. intros. by apply Z.mod_small. Qed.

Lemma u64_add_is a b : is_u64 (a +u b).
Proof. apply u64_is. Qed.

Lemma u64_sub_is a b : is_u64 (a -u b).
Proof. apply u64_is. Qed.

Lemma u64_add_small a b : 0 <= a + b < 2 ^ 64 → a +u b = a + b.
Proof. intros. by apply u64_small. Qed.

Lemma u64_sub_small a b : 0 <= a - b < 2 ^ 64 → a -u b = a - b.
Proof. intros. by apply u64_small. Qed.

Create HintDb u64.
#[export] Hint Resolve u64_is u64_add_is u64_sub_is : u64.

(** [u64_norm] removes the wrap-around of every addition and subtraction in the
    goal and the hypotheses whose result provably stays in range. *)
Ltac u64_norm :=
  repeat match goal with
    | |- context [u64_add ?a ?b] => rewrite (u64_add_small a b) by (unfold is_u64 in *; lia)
    | |- context [u64_sub ?a ?b] => rewrite (u64_sub_small a b) by (unfold is_u64 in *; lia)
    | H : context [u64_add ?a ?b] |- _ =>
        rewrite (u64_add_small a b) in H by (unfold is_u64 in *; lia)
    | H : context [u64_sub ?a ?b] |- _ =>
        rewrite (u64_sub_small a b) in H by (unfold is_u64 in *; lia)
    end.

Lemma bool_iff (a b : bool) : (a = true ↔ b = true) → a = b.
Proof. destruct a, b; naive_solver. Qed.

(** Case analysis on the boolean integer tests of the source. *)
Ltac zbool :=
  repeat match goal with
    | H : context [Z.ltb ?a ?b] |- _ => destruct (Z.ltb_spec a b)
    | H : context [Z.leb ?a ?b] |- _ => destruct (Z.leb_spec a b)
    | H : context [Z.eqb ?a ?b] |- _ => destruct (Z.eqb_spec a b)
    | |- context [Z.ltb ?a ?b] => destruct (Z.ltb_spec a b)
    | |- context [Z.leb ?a ?b] => destruct (Z.leb_spec a b)
    | |- context [Z.eqb ?a ?b] => destruct (Z.eqb_spec a b)
    end.

(** ** Powers of two and masks

    The rings of the source are indexed by [x & (N - 1)] for a capacity [N]
    that a [static_assert] requires to be a power of two. *)

Definition pow2_assert (n : Z) : bool := (2 <=? n) && (Z.land n (n - 1) =? 0).

Lemma land_pred_pow2 n : 0 < n → Z.land n (n - 1) = 0 → n = 2 ^ Z.log2 n.
Proof.
  intros Hn Hland. destruct (Z.log2_spec n Hn) as [Hlo Hhi].
  destruct (Z.eq_dec n (2 ^ Z.log2 n)) as [|Hne]; [done|exfalso].
  assert (Hk : Z.log2 (n - 1) = Z.log2 n).
  { apply Z.log2_unique; [apply Z.log2_nonneg|]. lia. }
  assert (Z.testbit (Z.land n (n - 1)) (Z.log2 n) = true) as Hb.
  { rewrite Z.land_spec, Z.bit_log2 by done. rewrite <- Hk, Z.bit_log2; [done|].
    pose proof (Z.pow_pos_nonneg 2 (Z.log2 n)). pose proof (Z.log2_nonneg n). lia. }
  rewrite Hland, Z.bits_0 in Hb. done.
Qed.

Lemma pow2_assert_spec n : pow2_assert n = true → 2 <= n ∧ n = 2 ^ Z.log2 n.
Proof.
  unfold pow2_assert. intros [H1 H2]%andb_prop.
  apply Z.leb_le in H1. apply Z.eqb_eq in H2. split; [done|]. apply land_pred_pow2; lia.
Qed.

Lemma land_mask n x : pow2_assert n = true → Z.land x (n - 1) = x mod n.
Proof.
  intros [_ ->]%pow2_assert_spec. rewrite <- Z.land_ones by apply Z.log2_nonneg.
  f_equal. rewrite Z.ones_equiv. lia.
Qed.

(** Two integers less than [n] apart with the same residue are equal: the
    reason a ring slot is never aliased inside its window. *)
Lemma mod_window_inj n a b :
  0 < n → a mod n = b mod n → - n < a - b < n → a = b.
Proof.
  intros Hn Heq Hd. rewrite (Z.div_mod a n), (Z.div_mod b n) in Hd |- * by lia.
  rewrite Heq in *. assert (a `div` n = b `div` n) by nia. lia.
Qed.

(** [n] divides [2^64] for every capacity the code can be instantiated at, so
    wrapping a counter does not change its slot. *)
Lemma pow2_divides_u64 n : pow2_assert n = true → n <= 2 ^ 64 → (n | 2 ^ 64).
Proof.
  intros [Hge Hn]%pow2_assert_spec Hle. rewrite Hn in *.
  exists (2 ^ (64 - Z.log2 n)). rewrite <- Z.pow_add_r; [f_equal; lia| |apply Z.log2_nonneg].
  assert (Z.log2 n <= 64); [|lia]. apply (Z.pow_le_mono_r_iff 2); try lia.
Qed.

Lemma u64_mod_pow2 n x : pow2_assert n = true → n <= 2 ^ 64 → u64 x mod n = x mod n.
Proof.
  intros Hp Hle. unfold u64. symmetry. apply Znumtheory.Zmod_div_mod; [|lia|].
  - apply pow2_assert_spec in Hp. lia.
  - by apply pow2_divides_u64.
Qed.

(** ** Bytes and little-endian words

    The wire structs are copied to and from memory verbatim on a little-endian
    host; a [char] or [uint8_t] is a [byte], an array of them a list. *)

Notation byte := Init.Byte.byte.

Definition byte_of_Z (z : Z) : byte :=
  match Strings.Byte.of_N (Z.to_N (z mod 256)) with
  | Some b => b
  | None => Init.Byte.x00
  end.
Definition Z_of_byte (b : byte) : Z := Z.of_N (Strings.Byte.to_N b).

(** [static_cast<int>(c)] of a plain [char], which is signed on both of the
    targets of the code (x86-64 and Apple arm64). *)
Definition schar_of_byte (b : byte) : Z :=
  if Z_of_byte b <? 128 then Z_of_byte b else Z_of_byte b - 256.

Global Instance byte_eq_dec : EqDecision byte := Strings.Byte.byte_eq_dec.

Lemma Z_of_byte_range b : 0 <= Z_of_byte b < 256.
Proof. unfold Z_of_byte. pose proof (Strings.Byte.to_N_bounded b). lia. Qed.

Lemma Z_of_byte_of_Z z : Z_of_byte (byte_of_Z z) = z mod 256.
Proof.
  unfold Z_of_byte, byte_of_Z. pose proof (Z.mod_pos_bound z 256 ltac:(lia)).
  destruct (Strings.Byte.of_N _) eqn:E.
  - apply Strings.Byte.to_of_N in E. rewrite E, Z2N.id; lia.
  - apply Strings.Byte.of_N_None_iff in E. lia.
Qed.

Lemma byte_of_Z_of_byte b : byte_of_Z (Z_of_byte b) = b.
Proof.
  unfold byte_of_Z. rewrite Z.mod_small by apply Z_of_byte_range.
  unfold Z_of_byte. rewrite N2Z.id, Strings.Byte.of_to_N. done.
Qed.

(** [le_bytes n z] is the [n]-byte little-endian image of [z], [le_val] reads it
    back. *)
Fixpoint le_bytes (n : nat) (z : Z) : list byte :=
  match n with
  | O => []
  | S n' => byte_of_Z z :: le_bytes n' (z / 256)
  end.

Fixpoint le_val (bs : list byte) : Z :=
  match bs with
  | [] => 0
  | b :: bs' => Z_of_byte b + 256 * le_val bs'
  end.

Lemma length_le_bytes n z : length (le_bytes n z) = n.
Proof. revert z; induction n; intros; simpl; auto. Qed.

Lemma le_val_bytes n z : le_val (le_bytes n z) = z mod 256 ^ Z.of_nat n.
Proof.
  revert z; induction n as [|n IH]; intros z; [by rewrite Z.mod_1_r|].
  cbn [le_bytes le_val]. rewrite IH, Z_of_byte_of_Z, Nat2Z.inj_succ, Z.pow_succ_r by lia.
  rewrite Z.rem_mul_r by lia. done.
Qed.

Lemma le_val_range bs : 0 <= le_val bs < 256 ^ Z.of_nat (length bs).
Proof.
  induction bs as [|b bs IH]; [done|].
  cbn [le_val length]. rewrite Nat2Z.inj_succ, Z.pow_succ_r by lia.
  pose proof (Z_of_byte_range b). lia.
Qed.

Lemma le_bytes_val bs : le_bytes (length bs) (le_val bs) = bs.
Proof.
  induction bs as [|b bs IH]; [done|]. cbn [length le_bytes le_val].
  pose proof (Z_of_byte_range b).
  replace ((Z_of_byte b + 256 * le_val bs) / 256) with (le_val bs)
    by (rewrite Z.mul_comm, Z.div_add, Z.div_small; lia).
  rewrite IH. f_equal. rewrite <- (byte_of_Z_of_byte b) at 2. unfold byte_of_Z. do 3 f_equal.
  rewrite Z.mul_comm, Z.mod_add by lia. done.
Qed.

Lemma le_val_inj bs1 bs2 :
  length bs1 = length bs2 → le_val bs1 = le_val bs2 → bs1 = bs2.
Proof.
  intros Hl Hv. rewrite <- (le_bytes_val bs1), <- (le_bytes_val bs2). by rewrite Hl, Hv.
Qed.

Lemma le_val_app a b :
  le_val (a ++ b) = le_val a + 256 ^ Z.of_nat (length a) * le_val b.
Proof.
  induction a as [|x a IH]; [simpl; lia|]. cbn [app le_val length].
  rewrite IH, Nat2Z.inj_succ, Z.pow_succ_r by lia. lia.
Qed.

Lemma le_val_drop_zero n j : le_val (drop j (le_bytes n 0)) = 0.
Proof.
  revert j. induction n as [|n IH]; intros [|j]; try done; cbn [le_bytes];
    rewrite Z.div_0_l by lia.
  - cbn [drop le_val]. rewrite Z_of_byte_of_Z. specialize (IH 0%nat). rewrite drop_0 in IH.
    by rewrite IH.
  - apply IH.
Qed.

(** [field off n bs]: the [n] bytes of a struct image at offset [off]. *)
Definition field (off n : nat) (bs : list byte) : list byte := take n (drop off bs).

Lemma field_here n (a b : list byte) : length a = n → field 0 n (a ++ b) = a.
Proof. intros <-. unfold field. rewrite drop_0. apply take_app_length. Qed.

Lemma field_skip off n (a b : list byte) :
  (length a <= off)%nat → field off n (a ++ b) = field (off - length a) n b.
Proof. intros. unfold field. rewrite drop_app_ge; [done|lia]. Qed.

Lemma length_field off n bs :
  (off + n <= length bs)%nat → length (field off n bs) = n.
Proof. intros. unfold field. rewrite length_take, length_drop. lia. Qed.

Create HintDb len.
#[export] Hint Rewrite length_le_bytes @length_app @length_replicate @length_insert : len.

(** Solve the length side conditions of [field_here] and [field_skip]. *)
Ltac len := autorewrite with len; cbn [length]; lia.

(** Read a field of a struct image written as a concatenation of its fields. *)
Ltac field_simp :=
  repeat (rewrite field_here by len || (rewrite field_skip by len; autorewrite with len;
                                        cbn [Nat.sub length])).

(** ** Counting the elements of an array that satisfy a test *)

Definition countb {A} (p : A → bool) (l : list A) : Z :=
  Z.of_nat (length (List.filter p l)).

Lemma countb_app {A} (p : A → bool) l1 l2 : countb p (l1 ++ l2) = countb p l1 + countb p l2.
Proof. unfold countb. rewrite List.filter_app, length_app. lia. Qed.

Lemma countb_cons {A} (p : A → bool) x l :
  countb p (x :: l) = (if p x then 1 else 0) + countb p l.
Proof. unfold countb. simpl. destruct (p x); simpl length; lia. Qed.

Lemma countb_insert {A} (p : A → bool) (l : list A) i x y :
  l !! i = Some x →
  countb p (<[i := y]> l) =
    countb p l - (if p x then 1 else 0) + (if p y then 1 else 0).
Proof.
  intros Hi. pose proof (lookup_lt_Some _ _ _ Hi).
  rewrite insert_take_drop by done. rewrite <- (take_drop_middle l i x Hi) at 3.
  rewrite !countb_app, !countb_cons. lia.
Qed.

Lemma countb_pos {A} (p : A → bool) l i x : l !! i = Some x → p x = true → 0 < countb p l.
Proof.
  intros Hi Hp. rewrite <- (take_drop_middle l i x Hi), countb_app, countb_cons, Hp.
  unfold countb. lia.
Qed.

Lemma countb_none {A} (p : A → bool) l :
  countb p l = 0 ↔ ∀ i x, l !! i = Some x → p x = false.
Proof.
  split.
  - intros H0 i x Hi. destruct (p x) eqn:E; [|done].
    pose proof (countb_pos p l i x Hi E). lia.
  - induction l as [|x l IH]; intros H; [done|]. rewrite countb_cons, (H 0%nat x) by done.
    rewrite IH; [done|]. intros i y Hi. by apply (H (S i)).
Qed.

Lemma countb_exists {A} (p : A → bool) l :
  0 < countb p l → ∃ i x, l !! i = Some x ∧ p x = true.
Proof.
  induction l as [|x l IH]; [done|]. rewrite countb_cons. destruct (p x) eqn:E.
  - intros _. by exists 0%nat, x.
  - intros (i&y&?&?)%IH. by exists (S i), y.
Qed.

Lemma countb_le {A} (p : A → bool) l : 0 <= countb p l <= Z.of_nat (length l).
Proof. unfold countb. pose proof (List.filter_length_le p l). lia. Qed.

Lemma countb_lt_length {A} (p : A → bool) l :
  countb p l < Z.of_nat (length l) → ∃ i x, l !! i = Some x ∧ p x = false.
Proof.
  induction l as [|x l IH]; [done|]. rewrite countb_cons. cbn [length]. destruct (p x) eqn:E.
  - intros H. destruct IH as (i&y&?&?); [lia|]. by exists (S i), y.
  - intros _. by exists 0%nat, x.
Qed.

Lemma countb_full {A} (p : A → bool) l i x :
  countb p l = Z.of_nat (length l) → l !! i = Some x → p x = true.
Proof.
  intros Hc Hi. destruct (p x) eqn:E; [done|]. exfalso.
  rewrite <- (take_drop_middle l i x Hi), countb_app, countb_cons, E in Hc.
  rewrite length_app in Hc. cbn [length] in Hc.
  pose proof (countb_le p (take i l)). pose proof (countb_le p (drop (S i) l)). lia.
Qed.

Lemma countb_replicate {A} (p : A → bool) n x : p x = false → countb p (replicate n x) = 0.
Proof. intros Hp. induction n; [done|]. simpl. by rewrite countb_cons, Hp. Qed.

(** The first failure of a boolean test. *)
Lemma first_false (f : nat → bool) j :
  f j = false → ∃ j0, (j0 <= j)%nat ∧ f j0 = false ∧ ∀ j', (j' < j0)%nat → f j' = true.
Proof.
  revert f. induction j as [|j IH]; intros f Hj.
  { exists 0%nat. split; [lia|]. split; [done|]. intros; lia. }
  destruct (f 0%nat) eqn:E0.
  - destruct (IH (λ i, f (S i)) Hj) as (j0&Hle&Hf&Hb). exists (S j0). split; [lia|].
    split; [done|]. intros [|j'] Hj'; [done|]. apply Hb. lia.
  - exists 0%nat. split; [lia|]. split; [done|]. intros; lia.
Qed.

(** ** Induction on an integer interval, from its upper end down *)
Lemma interval_ind (P : Z → Prop) (g : Z) :
  P g → (∀ f, f < g → P (f + 1) → P f) → ∀ f, f <= g → P f.
Proof.
  intros Hg Hs f Hf. remember (Z.to_nat (g - f)) as n eqn:Hn.
  revert f Hf Hn. induction n as [|n IH]; intros f Hf Hn.
  - by replace f with g by lia.
  - apply Hs; [lia|]. apply IH; lia.
Qed.
