(* ===== verification/Float64.v ===== *)
(** * IEEE-754 binary64: the [double] of the source

    Every price of the program is a C++ [double].  It is modelled by the
    Standard Library's executable specification of IEEE-754 arithmetic
    ([SpecFloat]) at precision 53 and maximal exponent 1024, round to nearest
    even: NaN, the infinities, signed zeros, subnormals and rounding are all
    the ones the hardware has, and no axiom about primitive floats is used.
    (The source's expressions are evaluated without fused multiply-add
    contraction, the reading the C++ abstract machine gives them.)

    The file holds the operations the code uses, the order theory of the
    comparisons, the few exactness facts that the reconstruction check relies
    on, and the 64-bit memory image of a [double]. *)

From stdpp Require Import base numbers list.
From Stdlib Require Import ZArith Lia SpecFloat.
From S2P Require Import Prelude.

Local Open Scope Z_scope.

Notation double := spec_float.

(** ** Operations *)

Definition fadd : double → double → double := SFadd 53 1024.
Definition fsub : double → double → double := SFsub 53 1024.
Definition fmul : double → double → double := SFmul 53 1024.
Definition fdiv : double → double → double := SFdiv 53 1024.
Definition fabs : double → double := SFabs.

Definition flt (a b : double) : bool := SFltb a b.
Definition fle (a b : double) : bool := SFleb a b.
Definition feq (a b : double) : bool := SFeqb a b.
Definition fgt (a b : double) : bool := SFltb b a.
Definition fge (a b : double) : bool := SFleb b a.

Definition is_nan (a : double) : bool :=
  match a with S754_nan => true | _ => false end.
Definition is_finite (a : double) : bool :=
  match a with S754_zero _ | S754_finite _ _ _ => true | _ => false end.

(** [std::fmax]: a NaN argument is ignored. *)
Definition fmax (a b : double) : double :=
  if is_nan a then b else if is_nan b then a else if flt a b then b else a.

(** [static_cast<double>(n)] of an unsigned integer. *)
Definition double_of_Z (n : Z) : double := binary_normalize 53 1024 n 0 false.

(** A decimal literal [n / 10^k]: numerator and denominator are exact, so the
    correctly rounded quotient is the value the compiler gives the literal. *)
Definition lit (n d : Z) : double := fdiv (double_of_Z n) (double_of_Z d).

Definition fzero : double := S754_zero false.
Definition fone : double := double_of_Z 1.

Definition valid (a : double) : Prop := valid_binary 53 1024 a = true.

Global Instance double_eq_dec : EqDecision double.
Proof. solve_decision. Defined.

(** ** The order of the comparisons

    [key] places a non-NaN value on a line: sign class, then exponent, then
    mantissa. The comparisons are the lexicographic order of the keys, which
    makes them a strict total order up to the equality of the two zeros. *)

Definition fcmp (a b : double) : option comparison := SFcompare a b.

Definition sgn_class (a : double) : Z :=
  match a with
  | S754_infinity true => -2
  | S754_finite true _ _ => -1
  | S754_zero _ => 0
  | S754_finite false _ _ => 1
  | S754_infinity false => 2
  | S754_nan => 3
  end.

Definition exp_key (a : double) : Z :=
  match a with S754_finite s _ e => if s then - e else e | _ => 0 end.

Definition mant_key (a : double) : Z :=
  match a with S754_finite s m _ => if s then Z.neg m else Z.pos m | _ => 0 end.

Definition key_lt (a b : double) : Prop :=
  sgn_class a < sgn_class b ∨
  (sgn_class a = sgn_class b ∧
    (exp_key a < exp_key b ∨ (exp_key a = exp_key b ∧ mant_key a < mant_key b))).

Definition key_eq (a b : double) : Prop :=
  sgn_class a = sgn_class b ∧ exp_key a = exp_key b ∧ mant_key a = mant_key b.

Lemma fcmp_spec a b :
  match fcmp a b with
  | Some Lt => is_nan a = false ∧ is_nan b = false ∧ key_lt a b
  | Some Gt => is_nan a = false ∧ is_nan b = false ∧ key_lt b a
  | Some Eq => is_nan a = false ∧ is_nan b = false ∧ key_eq a b
  | None => is_nan a = true ∨ is_nan b = true
  end.
Proof.
  unfold fcmp, SFcompare, key_lt, key_eq.
  destruct a as [sa|sa| |sa ma ea], b as [sb|sb| |sb mb eb];
    repeat (match goal with s : bool |- _ => destruct s end);
    cbn [sgn_class exp_key mant_key is_nan]; try (repeat split; auto; lia).
  all: destruct (Z.compare_spec ea eb); subst; try (repeat split; auto; lia).
  all: change (Pos.compare_cont Eq ma mb) with (Pos.compare ma mb);
       destruct (Pos.compare_spec ma mb); subst; cbn [CompOpp]; repeat split; auto; lia.
Qed.

Lemma flt_iff a b : flt a b = true ↔ is_nan a = false ∧ is_nan b = false ∧ key_lt a b.
Proof.
  unfold flt, SFltb. pose proof (fcmp_spec a b) as H. unfold fcmp in H.
  destruct (SFcompare a b) as [[]|]; split; intros; unfold key_lt, key_eq in *;
    try discriminate; try tauto; exfalso.
  1, 2: lia.
  destruct H as [H|H], H0 as (?&?&_); congruence.
Qed.

Lemma feq_iff a b : feq a b = true ↔ is_nan a = false ∧ is_nan b = false ∧ key_eq a b.
Proof.
  unfold feq, SFeqb. pose proof (fcmp_spec a b) as H. unfold fcmp in H.
  destruct (SFcompare a b) as [[]|]; split; intros; unfold key_lt, key_eq in *;
    try discriminate; try tauto; exfalso.
  1, 2: lia.
  destruct H as [H|H], H0 as (?&?&_); congruence.
Qed.

Lemma fle_iff a b : fle a b = true ↔ flt a b = true ∨ feq a b = true.
Proof.
  unfold fle, SFleb, flt, SFltb, feq, SFeqb.
  destruct (SFcompare a b) as [[]|]; naive_solver.
Qed.

Lemma flt_trans a b c : flt a b = true → flt b c = true → flt a c = true.
Proof. rewrite !flt_iff. unfold key_lt. intros (?&?&?) (?&?&?). repeat split; auto; lia. Qed.

Lemma flt_irrefl a : flt a a = false.
Proof. apply not_true_is_false. rewrite flt_iff. unfold key_lt. lia. Qed.

Lemma flt_asym a b : flt a b = true → flt b a = false.
Proof.
  intros H. apply not_true_is_false. intros H'.
  pose proof (flt_trans _ _ _ H H') as Hc. by rewrite flt_irrefl in Hc.
Qed.

Lemma flt_not_eq a b : flt a b = true → feq a b = false.
Proof.
  rewrite flt_iff. intros (_&_&H). apply not_true_is_false. rewrite feq_iff.
  unfold key_lt, key_eq in *. lia.
Qed.

Lemma feq_sym a b : feq a b = feq b a.
Proof. apply bool_iff. rewrite !feq_iff. unfold key_eq. naive_solver. Qed.

Lemma feq_trans a b c : feq a b = true → feq b c = true → feq a c = true.
Proof. rewrite !feq_iff. unfold key_eq. intros (?&?&?) (?&?&?). repeat split; auto; lia. Qed.

Lemma feq_refl a : is_nan a = false → feq a a = true.
Proof. rewrite feq_iff. unfold key_eq. auto. Qed.

Lemma feq_flt_l a b c : feq a b = true → flt a c = flt b c.
Proof.
  rewrite feq_iff. unfold key_eq. intros (?&?&?).
  apply bool_iff. rewrite !flt_iff. unfold key_lt. split; intros (?&?&?); repeat split; auto; lia.
Qed.

Lemma feq_flt_r a b c : feq a b = true → flt c a = flt c b.
Proof.
  rewrite feq_iff. unfold key_eq. intros (?&?&?).
  apply bool_iff. rewrite !flt_iff. unfold key_lt. split; intros (?&?&?); repeat split; auto; lia.
Qed.

Lemma feq_cong_l a b c : feq a b = true → feq a c = feq b c.
Proof.
  intros H. apply bool_iff. split; intros; [|by eapply feq_trans].
  eapply feq_trans; [|done]. by rewrite feq_sym.
Qed.

(** Trichotomy: two numbers are ordered one way, the other, or equal. *)
Lemma flt_trichotomy a b :
  is_nan a = false → is_nan b = false →
  flt a b = true ∨ feq a b = true ∨ flt b a = true.
Proof.
  rewrite !flt_iff, feq_iff. intros -> ->.
  enough (key_lt a b ∨ key_eq a b ∨ key_lt b a) by tauto. unfold key_lt, key_eq. lia.
Qed.

Lemma flt_nan_l a b : flt a b = true → is_nan a = false.
Proof. rewrite flt_iff. tauto. Qed.

Lemma flt_nan_r a b : flt a b = true → is_nan b = false.
Proof. rewrite flt_iff. tauto. Qed.

(** Every comparison with a NaN is false. *)
Lemma nan_cmp_l b : flt S754_nan b = false ∧ feq S754_nan b = false ∧ fle S754_nan b = false.
Proof. by destruct b. Qed.

Lemma nan_cmp_r a : flt a S754_nan = false ∧ feq a S754_nan = false ∧ fle a S754_nan = false.
Proof. by destruct a. Qed.

(** ** Exactness facts *)

(** A finite value minus itself is exactly [+0]. *)
Lemma fsub_diag a : is_finite a = true → fsub a a = fzero.
Proof.
  destruct a as [[]| | |s m e]; try done. intros _.
  unfold fsub, SFsub. rewrite Z.sub_diag. done.
Qed.

(** Rounding a non-negative number never yields a NaN, and keeps the sign. *)
Definition has_sign (s : bool) (a : double) : Prop :=
  match a with
  | S754_zero s' | S754_infinity s' | S754_finite s' _ _ => s' = s
  | S754_nan => False
  end.

Lemma shr_1_nonneg mrs : 0 <= shr_m mrs → 0 <= shr_m (shr_1 mrs).
Proof. destruct mrs as [[|[]|] ? ?]; simpl; lia. Qed.

Lemma iter_shr_nonneg p mrs : 0 <= shr_m mrs → 0 <= shr_m (iter_pos shr_1 p mrs).
Proof.
  revert mrs. induction p as [p IH|p IH|]; intros mrs H; cbn [iter_pos].
  - by apply IH, IH, shr_1_nonneg.
  - by apply IH, IH.
  - by apply shr_1_nonneg.
Qed.

Lemma shr_fexp_nonneg m e l : 0 <= m → 0 <= shr_m (fst (shr_fexp 53 1024 m e l)).
Proof.
  intros Hm. unfold shr_fexp, shr.
  assert (0 <= shr_m (shr_record_of_loc m l)) by (destruct l as [|[]]; done).
  destruct (_ - e); try done. by apply iter_shr_nonneg.
Qed.

Lemma round_nearest_even_nonneg m l : 0 <= m → 0 <= round_nearest_even m l.
Proof. intros. destruct l as [|[]]; simpl; try lia. destruct (Z.even m); lia. Qed.

Lemma binary_round_aux_sign s m e l :
  0 <= m → has_sign s (binary_round_aux 53 1024 s m e l).
Proof.
  intros Hm. unfold binary_round_aux.
  pose proof (shr_fexp_nonneg m e l Hm) as H1.
  destruct (shr_fexp 53 1024 m e l) as [mrs' e']; simpl in H1.
  set (m2 := round_nearest_even _ _).
  pose proof (shr_fexp_nonneg m2 e' loc_Exact
                (round_nearest_even_nonneg _ (loc_of_shr_record mrs') H1)) as H2.
  destruct (shr_fexp 53 1024 m2 e' loc_Exact) as [mrs'' e'']; simpl in H2.
  destruct (shr_m mrs''); simpl; try done; try lia. by destruct (_ <=? _).
Qed.

(** The product of two non-negative values, not a zero times an infinity, is a
    non-negative value. *)
Lemma fmul_nonneg a b :
  has_sign false a → has_sign false b → is_finite a = true → is_finite b = true →
  has_sign false (fmul a b).
Proof.
  destruct a as [[]|[]| |[] ? ?], b as [[]|[]| |[] ? ?]; simpl; try done.
  intros. by apply binary_round_aux_sign.
Qed.

Lemma fle_zero_nonneg a : has_sign false a → fle fzero a = true.
Proof. by destruct a as [[]|[]| |[] ? ?]. Qed.

Lemma fabs_sign a : is_nan a = false → has_sign false (fabs a).
Proof. by destruct a. Qed.

Lemma is_finite_not_nan a : is_finite a = true → is_nan a = false.
Proof. by destruct a. Qed.

(** ** The 64-bit memory image of a [double]

    One sign bit, eleven exponent bits (bias 1023), 52 mantissa bits.  A NaN is
    written with the canonical quiet pattern; every NaN pattern reads as NaN. *)

Definition sign_bit (s : bool) : Z := if s then 2 ^ 63 else 0.

Definition bits_of_double (a : double) : Z :=
  match a with
  | S754_zero s => sign_bit s
  | S754_infinity s => sign_bit s + 2047 * 2 ^ 52
  | S754_nan => 4095 * 2 ^ 51
  | S754_finite s m e =>
      if Z.pos m <? 2 ^ 52 then sign_bit s + Z.pos m
      else sign_bit s + (e + 1075) * 2 ^ 52 + (Z.pos m - 2 ^ 52)
  end.

Definition double_of_bits (z : Z) : double :=
  let s := Z.testbit z 63 in
  let e := (z / 2 ^ 52) mod 2 ^ 11 in
  let m := z mod 2 ^ 52 in
  if e =? 0 then
    match m with Z.pos p => S754_finite s p (-1074) | _ => S754_zero s end
  else if e =? 2047 then
    if m =? 0 then S754_infinity s else S754_nan
  else
    match m + 2 ^ 52 with Z.pos p => S754_finite s p (e - 1075) | _ => S754_nan end.

Lemma testbit_sign s r : 0 <= r < 2 ^ 63 → Z.testbit (sign_bit s + r) 63 = s.
Proof.
  intros Hr. rewrite Z.testbit_eqb by lia. unfold sign_bit. destruct s.
  - replace ((2 ^ 63 + r) / 2 ^ 63) with 1; [done|].
    apply (Z.div_unique_pos _ _ _ r); lia.
  - rewrite Z.add_0_l, Z.div_small by lia. done.
Qed.

Lemma digits2_pos_log2 p : Z.pos (digits2_pos p) = Z.log2 (Z.pos p) + 1.
Proof.
  induction p as [p IH|p IH|]; [| |done]; cbn [digits2_pos].
  - rewrite Pos2Z.inj_succ, IH, Pos2Z.inj_xI, Z.log2_succ_double by lia. lia.
  - rewrite Pos2Z.inj_succ, IH, Pos2Z.inj_xO, Z.log2_double by lia. lia.
Qed.

(** A finite value of the format is normal or subnormal. *)
Lemma valid_finite s m e :
  valid (S754_finite s m e) ↔
    (2 ^ 52 <= Z.pos m < 2 ^ 53 ∧ -1074 <= e <= 971) ∨
    (Z.pos m < 2 ^ 52 ∧ e = -1074).
Proof.
  unfold valid, valid_binary, bounded, canonical_mantissa, fexp, emin.
  rewrite andb_true_iff, Z.eqb_eq, Z.leb_le, digits2_pos_log2.
  pose proof (Z.log2_nonneg (Z.pos m)).
  pose proof (Z.log2_lt_pow2 (Z.pos m) 52 ltac:(lia)).
  pose proof (Z.log2_lt_pow2 (Z.pos m) 53 ltac:(lia)).
  lia.
Qed.

Lemma double_of_bits_split s e m :
  0 <= e < 2 ^ 11 → 0 <= m < 2 ^ 52 →
  let z := sign_bit s + e * 2 ^ 52 + m in
  Z.testbit z 63 = s ∧ (z / 2 ^ 52) mod 2 ^ 11 = e ∧ z mod 2 ^ 52 = m.
Proof.
  intros He Hm z. subst z. repeat split.
  - rewrite <- Z.add_assoc. apply testbit_sign. lia.
  - replace ((sign_bit s + e * 2 ^ 52 + m) / 2 ^ 52) with ((if s then 2 ^ 11 else 0) + e).
    + destruct s; [|by rewrite Z.add_0_l, Z.mod_small].
      rewrite Z.add_comm, <- (Z.mul_1_l (2 ^ 11)), Z.mod_add, Z.mod_small; lia.
    + apply (Z.div_unique_pos _ _ _ m); [lia|]. unfold sign_bit. destruct s; lia.
  - symmetry. apply (Z.mod_unique_pos _ _ ((if s then 2 ^ 11 else 0) + e)); [lia|].
    unfold sign_bit. destruct s; lia.
Qed.

Lemma bits_of_double_range a : valid a → is_u64 (bits_of_double a).
Proof.
  unfold is_u64. destruct a as [[]|[]| |s m e]; try (cbn; lia).
  rewrite valid_finite. intros Hv. unfold bits_of_double.
  assert (0 <= sign_bit s <= 2 ^ 63) by (destruct s; cbn; lia).
  zbool; lia.
Qed.

Lemma double_of_bits_of a : valid a → double_of_bits (bits_of_double a) = a.
Proof.
  destruct a as [[]|[]| |s m e]; try reflexivity.
  rewrite valid_finite. intros Hv. unfold bits_of_double. zbool.
  - destruct (double_of_bits_split s 0 (Z.pos m)) as (H1&H2&H3); try lia.
    rewrite Z.mul_0_l, Z.add_0_r in *. unfold double_of_bits. rewrite H1, H2, H3. simpl.
    f_equal. lia.
  - destruct (double_of_bits_split s (e + 1075) (Z.pos m - 2 ^ 52)) as (H1&H2&H3); try lia.
    unfold double_of_bits. rewrite H1, H2, H3.
    destruct (Z.eqb_spec (e + 1075) 0); [lia|]. destruct (Z.eqb_spec (e + 1075) 2047); [lia|].
    replace (Z.pos m - 2 ^ 52 + 2 ^ 52) with (Z.pos m) by lia. f_equal. lia.
Qed.

Lemma double_of_bits_valid z : valid (double_of_bits z).
Proof.
  unfold double_of_bits.
  pose proof (Z.mod_pos_bound (z / 2 ^ 52) (2 ^ 11) ltac:(lia)) as He.
  pose proof (Z.mod_pos_bound z (2 ^ 52) ltac:(lia)) as Hm.
  set (e := (z / 2 ^ 52) mod 2 ^ 11) in *. set (m := z mod 2 ^ 52) in *.
  zbool; try reflexivity; destruct m eqn:?; try reflexivity; try lia.
  all: try (rewrite valid_finite; lia).
  - apply valid_finite. lia.
  - destruct (Z.pos p + 2 ^ 52) eqn:E; try reflexivity. apply valid_finite. lia.
Qed.

(** ** Products of values not below one *)

Lemma shr_1_div mrs : 0 <= shr_m mrs → shr_m (shr_1 mrs) = shr_m mrs / 2.
Proof.
  rewrite <- Z.div2_div. destruct mrs as [[|[m|m|]|m] r s]; cbn; intros; (done || lia).
Qed.

Lemma iter_shr_div p mrs : 0 <= shr_m mrs → shr_m (iter_pos shr_1 p mrs) = shr_m mrs / 2 ^ Z.pos p.
Proof.
  revert mrs. induction p as [p IH|p IH|]; intros mrs H; cbn [iter_pos].
  - pose proof (shr_1_nonneg mrs H). pose proof (iter_shr_nonneg p (shr_1 mrs) ltac:(lia)).
    rewrite IH, IH, shr_1_div by lia.
    replace (2 ^ Z.pos p~1) with (2 * (2 ^ Z.pos p * 2 ^ Z.pos p))
      by (rewrite <- Z.pow_add_r, <- Z.pow_succ_r by lia; f_equal; lia).
    rewrite !Z.div_div by lia. by rewrite Z.mul_assoc.
  - pose proof (iter_shr_nonneg p mrs H). rewrite !IH by lia.
    replace (2 ^ Z.pos p~0) with (2 ^ Z.pos p * 2 ^ Z.pos p) by (rewrite <- Z.pow_add_r by lia; f_equal; lia).
    by rewrite Z.div_div by lia.
  - by rewrite shr_1_div.
Qed.

Lemma Zdigits2_bounds m : 0 < m → 2 ^ (Zdigits2 m - 1) <= m.
Proof.
  destruct m as [|p|p]; try lia. intros _. cbn [Zdigits2]. rewrite digits2_pos_log2.
  replace (Z.log2 (Z.pos p) + 1 - 1) with (Z.log2 (Z.pos p)) by lia. by apply Z.log2_spec.
Qed.

(** Far above the smallest exponent, rounding keeps a positive mantissa positive. *)
Lemma shr_fexp_pos m e l :
  0 < m → -1000 <= e → 0 < shr_m (fst (shr_fexp 53 1024 m e l)) ∧ e <= snd (shr_fexp 53 1024 m e l).
Proof.
  intros Hm He. unfold shr_fexp, shr. assert (Hr : shr_m (shr_record_of_loc m l) = m) by (by destruct l as [|[]]).
  destruct (fexp 53 1024 (Zdigits2 m + e) - e) as [|p|p] eqn:E; cbn [fst snd]; [rewrite Hr; lia| |rewrite Hr; lia].
  split; [|lia]. rewrite iter_shr_div, Hr by lia. unfold fexp, emin in E.
  pose proof (Zdigits2_bounds m Hm). assert (Hp : Z.pos p = Zdigits2 m - 53) by lia.
  apply Z.div_str_pos. split; [lia|]. etrans; [|done]. apply Z.pow_le_mono_r; lia.
Qed.

Lemma binary_round_aux_pos m e l :
  0 < m → -1000 <= e → flt fzero (binary_round_aux 53 1024 false m e l) = true.
Proof.
  intros Hm He. unfold binary_round_aux. pose proof (shr_fexp_pos m e l Hm He) as [H1 He1].
  destruct (shr_fexp 53 1024 m e l) as [mrs' e']; cbn [fst snd] in *.
  assert (H2 : 0 < round_nearest_even (shr_m mrs') (loc_of_shr_record mrs')).
  { destruct (loc_of_shr_record mrs') as [|[]]; simpl; try lia. destruct (Z.even _); lia. }
  set (m2 := round_nearest_even _ _) in *. pose proof (shr_fexp_pos m2 e' loc_Exact H2 ltac:(lia)) as [H3 _].
  destruct (shr_fexp 53 1024 m2 e' loc_Exact) as [mrs'' e'']; cbn [fst snd] in *.
  destruct (shr_m mrs''); try lia. by destruct (_ <=? _).
Qed.

(** The product of two values not below one is positive. *)
Lemma fmul_pos a b :
  flt a fone = false → is_finite a = true → flt b fone = false → is_finite b = true → flt fzero (fmul a b) = true.
Proof.
  assert (Hge : ∀ c, flt c fone = false → is_finite c = true → ∃ m e, c = S754_finite false m e ∧ -52 <= e).
  { change fone with (S754_finite false 4503599627370496 (-52)).
    intros c Hc Hf. destruct (flt_trichotomy c (S754_finite false 4503599627370496 (-52))) as [?|[He|Hl]];
      [by apply is_finite_not_nan|done|congruence|..].
    - clear Hc. apply feq_iff in He as (_&_&Hk1&Hk2&_). destruct c as [[]|[]| |[] m e]; try done.
      cbn [exp_key] in Hk2. exists m, e. split; [done|lia].
    - clear Hc. apply flt_iff in Hl as (_&_&Hk). unfold key_lt in Hk.
      destruct c as [[]|[]| |[] m e]; try done; cbn [sgn_class exp_key mant_key] in Hk; try lia.
      exists m, e. split; [done|lia]. }
  intros Ha Fa Hb Fb. destruct (Hge a Ha Fa) as (m1&e1&->&H1), (Hge b Hb Fb) as (m2&e2&->&H2).
  apply binary_round_aux_pos; lia.
Qed.

Lemma pos_iter_xO m d : Z.pos (Pos.iter xO m d) = Z.pos m * 2 ^ Z.pos d.
Proof.
  induction d as [|d IH] using Pos.peano_ind; [simpl; lia|].
  rewrite Pos.iter_succ, Pos2Z.inj_succ, Z.pow_succ_r by lia. lia.
Qed.
