(* ===== verification/FloatRound.v ===== *)
(** * Rounding: what the arithmetic of a [double] guarantees

    Every finite [double] is an integer multiple of [2^-1074]; [fz] is that integer, so
    the numbers are compared and bounded in [Z].  A result is said to round an exact
    quotient when it stays on the right side of every number the format can represent:
    the part of "correctly rounded" that bounds need.  Sums, differences, products and
    quotients of finite numbers all round their exact result. *)

From stdpp Require Import base numbers list.
From Stdlib Require Import ZArith Lia SpecFloat.
From S2P Require Import Prelude Float64.

Local Open Scope Z_scope.

(** ** The value of a finite double, in units of [2^-1074] *)

Definition fz (a : double) : Z :=
  match a with
  | S754_finite s m e => (if s then Z.neg m else Z.pos m) * 2 ^ (e + 1074)
  | _ => 0
  end.

(** One, in those units. *)
Definition unit : Z := 2 ^ 1074.

Definition number (a : double) : Prop := valid a ∧ is_finite a = true.

(** [x] units is a number of the format. *)
Definition rep (x : Z) : Prop := ∃ c, number c ∧ fz c = x.

Lemma pow2_pos k : 0 <= k → 0 < 2 ^ k.
Proof. intros. by apply Z.pow_pos_nonneg. Qed.

Lemma pow2_split a b : 0 <= a <= b → 2 ^ b = 2 ^ (b - a) * 2 ^ a.
Proof. intros. rewrite <- Z.pow_add_r by lia. f_equal. lia. Qed.

Lemma unit_pos : 0 < unit.
Proof. by apply pow2_pos. Qed.

Lemma fopp_fopp a : SFopp (SFopp a) = a.
Proof. by destruct a as [[]|[]| |[] ? ?]. Qed.

Lemma fz_fopp a : fz (SFopp a) = - fz a.
Proof. destruct a as [| | |[] m e]; cbn [fz SFopp negb]; lia. Qed.

Lemma valid_fopp a : valid (SFopp a) ↔ valid a.
Proof. by destruct a. Qed.

Lemma number_fopp a : number (SFopp a) ↔ number a.
Proof. by destruct a. Qed.

Lemma fz_fabs a : fz (fabs a) = Z.abs (fz a).
Proof.
  destruct a as [| | |[] m e]; cbn [fz fabs SFabs]; try done.
  all: rewrite Z.abs_mul, (Z.abs_eq (2 ^ _)) by (apply Z.pow_nonneg; lia); done.
Qed.

Lemma number_fabs a : number a → number (fabs a).
Proof. by destruct a. Qed.

(** A larger exponent is a larger magnitude. *)
Lemma exp_mono s1 m1 e1 s2 m2 e2 :
  valid (S754_finite s1 m1 e1) → valid (S754_finite s2 m2 e2) → e1 < e2 →
  Z.pos m1 * 2 ^ (e1 + 1074) < Z.pos m2 * 2 ^ (e2 + 1074).
Proof.
  rewrite !valid_finite. intros H1 H2 He.
  rewrite (pow2_split (e1 + 1074) (e2 + 1074)) by lia.
  pose proof (pow2_pos (e1 + 1074) ltac:(lia)).
  assert (2 <= 2 ^ (e2 + 1074 - (e1 + 1074))).
  { change 2 with (2 ^ 1) at 1. apply Z.pow_le_mono_r; lia. }
  rewrite Z.mul_assoc. apply Z.mul_lt_mono_pos_r; [done|]. nia.
Qed.

Lemma key_lt_fz a b : number a → number b → (key_lt a b ↔ fz a < fz b).
Proof.
  assert (Hlt : ∀ a b, number a → number b → key_lt a b → fz a < fz b).
  { clear. intros a b [Va Fa] [Vb Fb] Hk. unfold key_lt in Hk.
    destruct a as [?|?| |[] m1 e1], b as [?|?| |[] m2 e2]; try done;
      cbn [sgn_class exp_key mant_key fz] in *; try lia.
    all: pose proof Va as Va'; pose proof Vb as Vb'; try rewrite valid_finite in Va';
      try rewrite valid_finite in Vb'.
    all: try (pose proof (pow2_pos (e1 + 1074) ltac:(lia))); try (pose proof (pow2_pos (e2 + 1074) ltac:(lia))).
    all: try lia.
    - destruct (Z.lt_trichotomy e2 e1) as [He|[->|He]]; [|nia|lia].
      pose proof (exp_mono _ _ _ _ _ _ Vb Va He). lia.
    - destruct (Z.lt_trichotomy e1 e2) as [He|[->|He]]; [|nia|lia].
      by pose proof (exp_mono _ _ _ _ _ _ Va Vb He). }
  intros Ha Hb. split; [by apply Hlt|]. intros Hz.
  assert (Ht : key_lt a b ∨ key_eq a b ∨ key_lt b a) by (unfold key_lt, key_eq; lia).
  destruct Ht as [?|[Ht|Ht]]; [done| |apply Hlt in Ht; [lia|done..]].
  exfalso. destruct Ha as [_ Fa], Hb as [_ Fb], Ht as (H1&H2&H3).
  destruct a as [?|?| |[] m1 e1], b as [?|?| |[] m2 e2]; try done; cbn in *;
    repeat match goal with H : - _ = - _ |- _ => apply Z.opp_inj in H end; subst; simplify_eq; lia.
Qed.

Lemma flt_fz a b : number a → number b → flt a b = (fz a <? fz b).
Proof.
  intros Ha Hb. apply bool_iff. rewrite flt_iff, Z.ltb_lt, <- key_lt_fz by done.
  destruct Ha as [_ Ha%is_finite_not_nan], Hb as [_ Hb%is_finite_not_nan]. tauto.
Qed.

Lemma feq_fz a b : number a → number b → feq a b = (fz a =? fz b).
Proof.
  intros Ha Hb. pose proof (flt_fz a b Ha Hb) as H1. pose proof (flt_fz b a Hb Ha) as H2.
  destruct (flt_trichotomy a b) as [H|[H|H]]; [by apply is_finite_not_nan, Ha|by apply is_finite_not_nan, Hb|..].
  - rewrite (flt_not_eq _ _ H). rewrite H in H1. lia.
  - rewrite H. rewrite (feq_flt_l _ _ _ H), flt_irrefl in H1. rewrite (feq_flt_r _ _ _ H), flt_irrefl in H2. lia.
  - rewrite feq_sym, (flt_not_eq _ _ H). rewrite H in H2. lia.
Qed.

Lemma fle_fz a b : number a → number b → fle a b = (fz a <=? fz b).
Proof.
  intros Ha Hb. apply bool_iff. rewrite fle_iff, flt_fz, feq_fz by done. lia.
Qed.

(** ** Representable numbers *)

Lemma rep_opp x : rep x → rep (- x).
Proof. intros (c&Hc&<-). exists (SFopp c). by rewrite number_fopp, fz_fopp. Qed.

Lemma rep_zero : rep 0.
Proof. by exists fzero. Qed.

Lemma rep_pos k j : 0 < k < 2 ^ 53 → 0 <= j <= 2045 → rep (k * 2 ^ j).
Proof.
  intros Hk Hj. pose proof (Z.log2_spec k ltac:(lia)) as Hl.
  assert (Hd : 0 <= Z.log2 k < 53) by (split; [apply Z.log2_nonneg|apply Z.log2_lt_pow2; lia]).
  set (s := Z.min j (52 - Z.log2 k)). pose proof (pow2_pos s ltac:(lia)).
  assert (Hm : 0 < k * 2 ^ s) by nia. destruct (k * 2 ^ s) as [|m|m] eqn:Em; [lia| |lia].
  assert (Hv : valid (S754_finite false m (j - s - 1074))).
  { apply valid_finite. rewrite <- Em. destruct (Z.le_gt_cases j (52 - Z.log2 k)).
    - replace (j - s - 1074) with (-1074) by lia.
      assert (k * 2 ^ s < 2 ^ 53); [|lia].
      rewrite (pow2_split (s) 53) by lia. apply Z.mul_lt_mono_pos_r; [done|].
      eapply Z.lt_le_trans; [apply Hl|]. apply Z.pow_le_mono_r; lia.
    - left. split; [|lia]. rewrite (pow2_split s 52), (pow2_split s 53) by lia.
      replace (52 - s) with (Z.log2 k) by lia. replace (53 - s) with (Z.succ (Z.log2 k)) by lia. nia. }
  exists (S754_finite false m (j - s - 1074)). split; [done|]. cbn [fz].
  rewrite <- Em, <- Z.mul_assoc, <- Z.pow_add_r by lia. do 2 f_equal. lia.
Qed.

(** Every integer of at most 53 bits, scaled by a power of two. *)
Lemma rep_intro k j : Z.abs k <= 2 ^ 53 → 0 <= j <= 2044 → rep (k * 2 ^ j).
Proof.
  intros Hk Hj. assert (Hpos : ∀ p, 0 < p <= 2 ^ 53 → rep (p * 2 ^ j)).
  { intros p Hp. destruct (decide (p = 2 ^ 53)) as [->|]; [|apply rep_pos; lia].
    replace (2 ^ 53 * 2 ^ j) with (2 ^ 52 * 2 ^ (j + 1)) by (rewrite Z.pow_add_r by lia; lia). apply rep_pos; lia. }
  destruct (Z.lt_trichotomy k 0) as [?|[->|?]].
  - replace (k * 2 ^ j) with (- (- k * 2 ^ j)) by lia. apply rep_opp, Hpos. lia.
  - apply rep_zero.
  - apply Hpos. lia.
Qed.

(** [k] and [k / 2^j], as numbers. *)
Lemma rep_unit k : Z.abs k <= 2 ^ 53 → rep (k * unit).
Proof. intros. by apply rep_intro. Qed.

Lemma rep_frac k j : Z.abs k <= 2 ^ 53 → 0 <= j <= 1074 → ∃ x, rep x ∧ x * 2 ^ j = k * unit.
Proof.
  intros Hk Hj. exists (k * 2 ^ (1074 - j)). split; [apply rep_intro; lia|].
  unfold unit. rewrite (pow2_split j 1074) by lia. lia.
Qed.

(** A number is a multiple of the step [2^j], or below the smallest 53-bit multiple. *)
Lemma number_step c j :
  number c → 0 <= j → (∃ k, fz c = k * 2 ^ j) ∨ Z.abs (fz c) < 2 ^ 52 * 2 ^ j.
Proof.
  intros [Hv Hf] Hj. destruct c as [?|?| |s m e]; try done; [left; by exists 0|]. cbn [fz].
  apply valid_finite in Hv. destruct (Z.le_gt_cases j (e + 1074)).
  - left. exists ((if s then Z.neg m else Z.pos m) * 2 ^ (e + 1074 - j)).
    rewrite (pow2_split j (e + 1074)) by lia. lia.
  - right. rewrite Z.abs_mul, (Z.abs_eq (2 ^ _)) by (apply Z.pow_nonneg; lia).
    rewrite (pow2_split (e + 1074) j) by lia. pose proof (pow2_pos (e + 1074) ltac:(lia)).
    assert (2 <= 2 ^ (j - (e + 1074))) by (change 2 with (2 ^ 1) at 1; apply Z.pow_le_mono_r; lia).
    rewrite Z.mul_assoc. apply Z.mul_lt_mono_pos_r; [done|]. destruct s; lia.
Qed.

(** ** Rounding *)

(** [r] rounds [num / den] units: it is on the same side as that quotient of every number
    of the format. *)
Definition rounds (num den : Z) (r : double) : Prop :=
  valid r ∧ is_nan r = false ∧
  ∀ c, number c → (fz c * den <= num → fle c r = true) ∧ (num <= fz c * den → fle r c = true).

Lemma rounds_scale n d n' d' r : 0 < d → 0 < d' → n * d' = n' * d → rounds n d r → rounds n' d' r.
Proof.
  intros Hd Hd' He (Hv&Hn&Hr). split; [done|]. split; [done|]. intros c Hc. destruct (Hr c Hc) as [H1 H2].
  split; intros Hle; [apply H1|apply H2]; nia.
Qed.

Lemma rounds_fopp n d r : rounds n d r → rounds (- n) d (SFopp r).
Proof.
  intros (Hv&Hn&Hr). split; [by apply valid_fopp|]. split; [by destruct r|]. intros c Hc.
  destruct (Hr (SFopp c)) as [H1 H2]; [by apply number_fopp|]. rewrite fz_fopp in H1, H2.
  assert (Hopp : ∀ a b, fle (SFopp a) b = fle (SFopp b) a).
  { clear. intros [[]|[]| |[] m e] [[]|[]| |[] m' e']; try done; unfold fle, SFleb; cbn [SFopp negb SFcompare];
      rewrite (Z.compare_antisym e e'); destruct (Z.compare_spec e e'); try done; subst; cbn [CompOpp];
      change (Pos.compare_cont Eq m m') with (Pos.compare m m');
      change (Pos.compare_cont Eq m' m) with (Pos.compare m' m);
      rewrite (Pos.compare_antisym m m'); by destruct (m ?= m')%positive. }
  split; intros Hle.
  - rewrite <- (fopp_fopp c), Hopp, fopp_fopp. apply H2. lia.
  - rewrite Hopp. apply H1. lia.
Qed.

(** Between two numbers of the format the result is finite and stays between them. *)
Lemma rounds_bounds n d r lo hi :
  rounds n d r → rep lo → rep hi → lo * d <= n <= hi * d → number r ∧ lo <= fz r <= hi.
Proof.
  intros (Hv&Hn&Hr) (a&Ha&<-) (b&Hb&<-) Hd.
  destruct (Hr a Ha) as [H1 _], (Hr b Hb) as [_ H2]. specialize (H1 ltac:(lia)). specialize (H2 ltac:(lia)).
  assert (Hf : number r).
  { split; [done|]. destruct Ha as [_ Ha], Hb as [_ Hb].
    destruct r as [?|[]| |? ? ?]; try done; destruct a as [?|?| |? ? ?], b as [?|?| |? ? ?]; done. }
  rewrite fle_fz in H1, H2 by done. split; [done|lia].
Qed.

(** ** The rounding routine *)

(** [mrs] locates [num] in steps of [D]: its mantissa is the floor, and the two sticky
    bits are clear exactly when nothing was lost. *)
Definition held (num D : Z) (mrs : shr_record) : Prop :=
  0 <= shr_m mrs ∧ shr_m mrs * D <= num < (shr_m mrs + 1) * D ∧
  (shr_r mrs || shr_s mrs = false ↔ num = shr_m mrs * D).

Lemma held_shr_1 num D mrs : 0 < D → held num D mrs → held num (2 * D) (shr_1 mrs).
Proof.
  intros HD (H0&H1&H2). destruct mrs as [m r s]. cbn [shr_m shr_r shr_s] in *.
  assert (Hc : shr_1 (Build_shr_record m r s) = Build_shr_record (m / 2) (Z.odd m) (r || s)).
  { rewrite <- Z.div2_div. destruct m as [|[m|m|]|m]; try lia; done. }
  rewrite Hc. unfold held. cbn [shr_m shr_r shr_s]. clear Hc.
  pose proof (Z.div2_odd m) as Hm. rewrite Z.div2_div in Hm. set (h := m / 2) in *. clearbody h.
  destruct (Z.odd m); cbn [Z.b2z orb] in *; subst m; (split; [lia|]); (split; [lia|]).
  - split; [done|lia].
  - rewrite H2. lia.
Qed.

Lemma held_iter num p : ∀ D mrs, 0 < D → held num D mrs → held num (2 ^ Z.pos p * D) (iter_pos shr_1 p mrs).
Proof.
  induction p as [p IH|p IH|]; intros D mrs HD H; cbn [iter_pos].
  - pose proof (pow2_pos (Z.pos p) ltac:(lia)).
    replace (2 ^ Z.pos p~1 * D) with (2 ^ Z.pos p * (2 ^ Z.pos p * (2 * D))).
    + apply IH; [nia|]. apply IH; [lia|]. by apply held_shr_1.
    + rewrite !Z.mul_assoc, <- Z.pow_add_r by lia.
      replace (Z.pos p~1) with (Z.pos p + Z.pos p + 1) by lia. rewrite (Z.pow_add_r 2 _ 1) by lia. lia.
  - pose proof (pow2_pos (Z.pos p) ltac:(lia)).
    replace (2 ^ Z.pos p~0 * D) with (2 ^ Z.pos p * (2 ^ Z.pos p * D)).
    + apply IH; [nia|]. by apply IH.
    + rewrite !Z.mul_assoc, <- Z.pow_add_r by lia. do 2 f_equal. lia.
  - by apply held_shr_1.
Qed.

Lemma Zdigits2_log2 m : 0 < m → Zdigits2 m = Z.log2 m + 1.
Proof. destruct m; try lia. intros _. cbn [Zdigits2]. apply digits2_pos_log2. Qed.

Lemma Zdigits2_range m : 0 <= m → m < 2 ^ Zdigits2 m ∧ (0 < m → 2 ^ (Zdigits2 m - 1) <= m) ∧ 0 <= Zdigits2 m.
Proof.
  intros Hm. destruct (decide (m = 0)) as [->|]; [done|]. pose proof (Z.log2_nonneg m).
  pose proof (Z.log2_spec m ltac:(lia)) as Hl. rewrite Zdigits2_log2 by lia.
  replace (Z.log2 m + 1 - 1) with (Z.log2 m) by lia. rewrite Z.add_1_r. lia.
Qed.

Lemma Zdigits2_unique m d : 0 < d → 2 ^ (d - 1) <= m < 2 ^ d → Zdigits2 m = d.
Proof.
  intros Hd Hm. pose proof (pow2_pos (d - 1) ltac:(lia)). rewrite Zdigits2_log2 by lia.
  rewrite (Z.log2_unique m (d - 1)); [lia|lia|]. replace (Z.succ (d - 1)) with d by lia. lia.
Qed.

(** The mantissa and exponent after the first shift. *)
Lemma shr_fexp_held num D m e l :
  0 < D → held num D (shr_record_of_loc m l) → e <= fexp 53 1024 (Zdigits2 m + e) →
  let '(mrs, e') := shr_fexp 53 1024 m e l in
  e' = fexp 53 1024 (Zdigits2 m + e) ∧ held num (2 ^ (e' - e) * D) mrs ∧
  0 <= shr_m mrs < 2 ^ 53 ∧ (e' = -1074 ∨ -1074 < e' ∧ 2 ^ 52 <= shr_m mrs).
Proof.
  intros HD Hh He. unfold shr_fexp, shr.
  assert (Hm : shr_m (shr_record_of_loc m l) = m) by by destruct l as [|[]].
  assert (H0 : 0 <= m) by (rewrite <- Hm; apply Hh).
  destruct (Zdigits2_range m H0) as (Hd1&Hd2&Hd3).
  assert (Hsize : 0 <= m / 2 ^ (fexp 53 1024 (Zdigits2 m + e) - e) < 2 ^ 53 ∧
    (fexp 53 1024 (Zdigits2 m + e) = -1074 ∨
     -1074 < fexp 53 1024 (Zdigits2 m + e) ∧ 2 ^ 52 <= m / 2 ^ (fexp 53 1024 (Zdigits2 m + e) - e))).
  { set (f := fexp _ _ _) in *. unfold fexp, emin in *. pose proof (pow2_pos (f - e) ltac:(lia)). split.
    - split; [by apply Z.div_pos|]. apply Z.div_lt_upper_bound; [done|]. rewrite <- Z.pow_add_r by lia.
      eapply Z.lt_le_trans; [exact Hd1|]. apply Z.pow_le_mono_r; lia.
    - destruct (decide (f = -1074)); [by left|right]. split; [lia|].
      apply Z.div_le_lower_bound; [done|]. rewrite <- Z.pow_add_r by lia.
      destruct (decide (m = 0)) as [->|]; [cbn [Zdigits2] in *; lia|].
      etrans; [|apply Hd2; lia]. apply Z.pow_le_mono_r; lia. }
  destruct (fexp 53 1024 (Zdigits2 m + e) - e) as [|p|p] eqn:E; [| |lia].
  - rewrite Z.sub_diag. cbn [Z.pow] in *. rewrite Z.div_1_r in Hsize.
    replace (fexp 53 1024 (Zdigits2 m + e)) with e in * by lia. rewrite Z.mul_1_l, Hm. done.
  - replace (fexp 53 1024 (Zdigits2 m + e)) with (e + Z.pos p) in * by lia.
    replace (e + Z.pos p - e) with (Z.pos p) by lia.
    split; [done|]. rewrite iter_shr_div, Hm by lia. split; [|done]. by apply held_iter.
Qed.

Lemma number_below c : number c → Z.abs (fz c) < 2 ^ 2098.
Proof.
  intros [Hv Hf]. destruct c as [?|?| |s m e]; try done. cbn [fz]. apply valid_finite in Hv.
  rewrite Z.abs_mul, (Z.abs_eq (2 ^ _)) by (apply Z.pow_nonneg; lia).
  replace 2098 with (53 + 2045) by lia. rewrite (Z.pow_add_r 2 53) by lia.
  assert (2 ^ (e + 1074) <= 2 ^ 2045) by (apply Z.pow_le_mono_r; lia).
  pose proof (pow2_pos (e + 1074) ltac:(lia)). pose proof (pow2_pos 2045 ltac:(lia)).
  generalize dependent (2 ^ 2045). generalize dependent (2 ^ (e + 1074)). intros x Hx y Hxy Hy.
  destruct s; cbn [Z.abs]; nia.
Qed.

(** The nearest mantissa is the floor, or the next one when something was lost. *)
Lemma round_nearest_cases num D mrs :
  held num D mrs →
  let m2 := round_nearest_even (shr_m mrs) (loc_of_shr_record mrs) in
  m2 = shr_m mrs ∨ (m2 = shr_m mrs + 1 ∧ shr_m mrs * D < num).
Proof.
  intros (_&H1&H2). destruct mrs as [m [] []]; cbn [shr_m shr_r shr_s loc_of_shr_record round_nearest_even orb] in *;
    try case_match; auto; right; (split; [done|]); assert (num ≠ m * D) by (intros Hx; by apply H2 in Hx); lia.
Qed.

(** No number of the format lies between [num] and the mantissa chosen. *)
Lemma candidate_best num D j mrs c :
  0 < D → 0 <= j → held num (D * 2 ^ j) mrs → j = 0 ∨ 2 ^ 52 <= shr_m mrs → number c →
  let m2 := round_nearest_even (shr_m mrs) (loc_of_shr_record mrs) in
  (fz c * D <= num → fz c <= m2 * 2 ^ j) ∧ (num <= fz c * D → m2 * 2 ^ j <= fz c).
Proof.
  intros HD Hj Hh Hbig Hc m2. pose proof (round_nearest_cases _ _ _ Hh) as Hm2. cbn zeta in Hm2. fold m2 in Hm2.
  destruct Hh as (H0&H1&_). set (m := shr_m mrs) in *. clearbody m2 m.
  pose proof (pow2_pos j Hj) as Hp.
  assert (Hstep : (∃ k, fz c = k * 2 ^ j) ∨ fz c < m * 2 ^ j).
  { destruct Hbig as [->|Hb]; [left; exists (fz c); lia|].
    destruct (number_step c j Hc Hj) as [?|Hs]; [by left|right]. nia. }
  generalize dependent (2 ^ j). intros J H1 Hm2 HJ Hstep.
  assert (HJD : 0 < J * D) by nia. destruct Hstep as [[k Hk]|Hlt]; [rewrite Hk|].
  - split; intros Hle; apply Z.mul_le_mono_nonneg_r; try lia.
    + assert (k * (J * D) < (m + 1) * (J * D)) by lia.
      assert (k < m + 1) by (by apply (Z.mul_lt_mono_pos_r (J * D))). lia.
    + destruct Hm2 as [->|[-> Hst]].
      * apply (Z.mul_le_mono_pos_r _ _ (J * D)); lia.
      * assert (m < k) by (apply (Z.mul_lt_mono_pos_r (J * D)); lia). lia.
  - split; intros Hle; [nia|]. assert (fz c * D < m * J * D) by (apply Z.mul_lt_mono_pos_r; lia). lia.
Qed.

(** The last step: the mantissa is renormalised, or the exponent overflows. *)
Definition finish_round (m : Z) (e : Z) : double :=
  let '(mrs, e') := shr_fexp 53 1024 m e loc_Exact in
  match shr_m mrs with
  | Z0 => S754_zero false
  | Zpos m => if e' <=? 1024 - 53 then S754_finite false m e' else S754_infinity false
  | _ => S754_nan
  end.

Lemma finish_round_spec m e :
  0 <= m <= 2 ^ 53 → -1074 <= e → e = -1074 ∨ 2 ^ 52 <= m →
  (number (finish_round m e) ∧ fz (finish_round m e) = m * 2 ^ (e + 1074)) ∨
  (finish_round m e = S754_infinity false ∧ 2 ^ 2098 <= m * 2 ^ (e + 1074)).
Proof.
  intros Hm He Hbig. assert (Hfin : ∃ m' e', finish_round m e =
      match m' with Z0 => S754_zero false
      | Zpos m => if e' <=? 1024 - 53 then S754_finite false m e' else S754_infinity false
      | _ => S754_nan end ∧ m' * 2 ^ (e' + 1074) = m * 2 ^ (e + 1074) ∧ -1074 <= e' ∧
      (2 ^ 52 <= m' < 2 ^ 53 ∨ (0 <= m' < 2 ^ 52 ∧ e' = -1074))).
  { unfold finish_round, shr_fexp, shr. destruct (decide (m = 2 ^ 53)) as [->|Hne].
    - replace (fexp 53 1024 (Zdigits2 (2 ^ 53) + e) - e) with 1
        by (change (Zdigits2 (2 ^ 53)) with 54; unfold fexp, emin; lia).
      cbn [iter_pos shr_record_of_loc]. change (2 ^ 53) with (Zpos (2 ^ 52)~0) at 1. cbn [shr_1 shr_m].
      exists (2 ^ 52), (e + 1). split; [done|]. split; [|lia].
      replace (e + 1 + 1074) with (e + 1074 + 1) by lia. rewrite Z.pow_add_r by lia. lia.
    - assert (fexp 53 1024 (Zdigits2 m + e) - e = 0) as ->.
      { unfold fexp, emin. destruct (Z.le_gt_cases (2 ^ 52) m).
        - rewrite (Zdigits2_unique m 53) by lia. lia.
        - destruct Hbig as [->|]; [|lia]. destruct (Zdigits2_range m) as (_&Hd&_); [lia|].
          assert (Zdigits2 m <= 53); [|lia]. destruct (decide (m = 0)) as [->|]; [done|].
          apply Z.le_ngt. intros Hgt. specialize (Hd ltac:(lia)).
          assert (2 ^ 53 <= 2 ^ (Zdigits2 m - 1)) by (apply Z.pow_le_mono_r; lia). lia. }
      cbn [shr_record_of_loc shr_m]. exists m, e. split; [done|]. split; [done|lia]. }
  destruct Hfin as (m'&e'&->&<-&He'&Hrange). destruct m' as [|m'|m']; [left; done| |lia].
  destruct (Z.leb_spec e' (1024 - 53)).
  - left. split; [|done]. split; [|done]. apply valid_finite. lia.
  - right. split; [done|]. replace 2098 with (52 + 2046) by lia. rewrite (Z.pow_add_r 2 52) by lia.
    assert (2 ^ 2046 <= 2 ^ (e' + 1074)) by (apply Z.pow_le_mono_r; lia).
    apply Z.mul_le_mono_nonneg; [lia|lia|by apply Z.pow_nonneg|done].
Qed.

(** The routine rounds any number it is given with enough digits. *)
Lemma binary_round_aux_rounds num den U m e l :
  0 < den → 1074 <= U → - U <= e → e <= fexp 53 1024 (Zdigits2 m + e) →
  held num (den * 2 ^ (e + U)) (shr_record_of_loc m l) →
  rounds num (den * 2 ^ (U - 1074)) (binary_round_aux 53 1024 false m e l).
Proof.
  intros Hden HU HeU He Hh. pose proof (pow2_pos (e + U) ltac:(lia)). pose proof (pow2_pos (U - 1074) ltac:(lia)).
  pose proof (shr_fexp_held num _ m e l (Z.mul_pos_pos _ _ Hden H) Hh He) as Hs. unfold binary_round_aux.
  destruct (shr_fexp 53 1024 m e l) as [mrs e']. destruct Hs as (He'&Hh'&Hm&Hbig).
  assert (HeD : -1074 <= e') by (rewrite He'; unfold fexp, emin; lia).
  replace (2 ^ (e' - e) * (den * 2 ^ (e + U))) with (den * 2 ^ (U - 1074) * 2 ^ (e' + 1074)) in Hh'.
  2:{ transitivity (den * (2 ^ (U - 1074) * 2 ^ (e' + 1074))); [lia|].
      transitivity (den * (2 ^ (e' - e) * 2 ^ (e + U))); [|lia]. f_equal. rewrite <- !Z.pow_add_r by lia. f_equal. lia. }
  set (D := den * 2 ^ (U - 1074)) in *. assert (HD : 0 < D) by (unfold D; nia).
  pose proof (round_nearest_cases _ _ _ Hh') as Hc. cbn zeta in Hc. set (m2 := round_nearest_even _ _) in *.
  fold (finish_round m2 e').
  destruct (finish_round_spec m2 e') as [[Hn Hz]|[-> Hinf]]; [lia|lia|lia|..].
  - split; [apply Hn|]. split; [by apply is_finite_not_nan, Hn|]. intros c Hcn.
    destruct (candidate_best num D (e' + 1074) mrs c HD ltac:(lia) Hh' ltac:(lia) Hcn) as [B1 B2].
    fold m2 in B1, B2. rewrite !fle_fz, Hz, !Z.leb_le by done. done.
  - split; [done|]. split; [done|]. intros c Hcn.
    destruct (candidate_best num D (e' + 1074) mrs c HD ltac:(lia) Hh' ltac:(lia) Hcn) as [_ B2].
    fold m2 in B2. pose proof (number_below c Hcn) as Hb. split; intros Hle.
    + destruct Hcn as [_ Hf]. by destruct c as [?|?| |[] ? ?].
    + specialize (B2 Hle). lia.
Qed.

(** ** The operations *)

Lemma binary_round_aux_opp m e l :
  0 <= m → binary_round_aux 53 1024 true m e l = SFopp (binary_round_aux 53 1024 false m e l).
Proof.
  intros Hm. unfold binary_round_aux. destruct (shr_fexp 53 1024 m e l) as [mrs' e'].
  destruct (shr_fexp _ _ _ _ _) as [mrs'' e'']. destruct (shr_m mrs''); try done. by destruct (_ <=? _).
Qed.

Definition signed (s : bool) (x : Z) : Z := if s then - x else x.

(** The same for a signed mantissa. *)
Lemma round_signed s num den U m e l :
  0 < den → 1074 <= U → - U <= e → e <= fexp 53 1024 (Zdigits2 m + e) →
  held num (den * 2 ^ (e + U)) (shr_record_of_loc m l) →
  rounds (signed s num) (den * 2 ^ (U - 1074)) (binary_round_aux 53 1024 s m e l).
Proof.
  intros. assert (0 <= m) by (replace m with (shr_m (shr_record_of_loc m l)) by (by destruct l as [|[]]); apply H3).
  destruct s; cbn [signed]; [rewrite binary_round_aux_opp by done; apply rounds_fopp|]; by apply binary_round_aux_rounds.
Qed.

Lemma held_exact m D : 0 <= m → 0 < D → held (m * D) D (shr_record_of_loc m loc_Exact).
Proof. intros. unfold held. cbn. split; [done|]. split; [lia|done]. Qed.

Lemma shl_align_spec m e e' :
  let '(m2, e2) := shl_align m e e' in e2 = Z.min e e' ∧ Z.pos m2 = Z.pos m * 2 ^ (e - e2).
Proof.
  unfold shl_align. destruct (e' - e) as [|d|d] eqn:E.
  1, 2: rewrite Z.sub_diag; split; lia.
  split; [lia|]. rewrite pos_iter_xO. do 2 f_equal. lia.
Qed.

Lemma shl_align_fst m e e' : e' <= e → Z.pos (shl_align m e e').1 = Z.pos m * 2 ^ (e - e').
Proof.
  intros He. pose proof (shl_align_spec m e e') as H. destruct (shl_align m e e') as [m2 e2].
  destruct H as [-> H]. cbn [fst]. rewrite H. do 2 f_equal. lia.
Qed.

Lemma Zdigits2_scale m k : 0 < m → 0 <= k → Zdigits2 (m * 2 ^ k) = Zdigits2 m + k.
Proof.
  intros Hm Hk. pose proof (pow2_pos k Hk). rewrite !Zdigits2_log2 by nia. rewrite Z.log2_mul_pow2 by lia. lia.
Qed.

Lemma binary_round_rounds s m e :
  -1074 <= e → rounds (signed s (Z.pos m * 2 ^ (e + 1074))) 1 (binary_round 53 1024 s m e).
Proof.
  intros He. unfold binary_round. change (Z.pos (digits2_pos m)) with (Zdigits2 (Z.pos m)).
  pose proof (shl_align_spec m e (fexp 53 1024 (Zdigits2 (Z.pos m) + e))) as H.
  destruct (shl_align _ _ _) as [m2 e2]. destruct H as [He2 Hm2].
  assert (-1074 <= e2) by (rewrite He2; unfold fexp, emin; lia).
  replace (Z.pos m * 2 ^ (e + 1074)) with (Z.pos m2 * (1 * 2 ^ (e2 + 1074)))
    by (rewrite Hm2, Z.mul_1_l, <- Z.mul_assoc, <- Z.pow_add_r by lia; do 2 f_equal; lia).
  apply (round_signed s _ 1 1074); [lia|lia|lia| |].
  - rewrite Hm2, Zdigits2_scale by lia. replace (Zdigits2 (Z.pos m) + (e - e2) + e2) with (Zdigits2 (Z.pos m) + e) by lia. lia.
  - apply held_exact; [lia|]. rewrite Z.mul_1_l. apply pow2_pos. lia.
Qed.

Lemma rounds_self a : number a → rounds (fz a) 1 a.
Proof.
  intros Ha. split; [apply Ha|]. split; [by apply is_finite_not_nan, Ha|]. intros c Hc.
  rewrite !fle_fz, !Z.leb_le by done. lia.
Qed.

Lemma rounds_zero s : rounds 0 1 (S754_zero s).
Proof. by apply (rounds_self (S754_zero s)). Qed.

Lemma binary_normalize_rounds m e s :
  -1074 <= e → rounds (m * 2 ^ (e + 1074)) 1 (binary_normalize 53 1024 m e s).
Proof.
  intros He. destruct m as [|m|m]; cbn [binary_normalize].
  - apply rounds_zero.
  - by apply (binary_round_rounds false).
  - rewrite <- Pos2Z.opp_pos, Z.mul_opp_l. by apply (binary_round_rounds true).
Qed.

Lemma fz_finite s m e : fz (S754_finite s m e) = signed s (Z.pos m * 2 ^ (e + 1074)).
Proof. destruct s; cbn [fz signed]; lia. Qed.

Lemma valid_exp s m e : valid (S754_finite s m e) → -1074 <= e <= 971.
Proof. rewrite valid_finite. lia. Qed.

Lemma fadd_rounds a b : number a → number b → rounds (fz a + fz b) 1 (fadd a b).
Proof.
  intros Ha Hb. destruct a as [[]|?| |s1 m1 e1], b as [[]|?| |s2 m2 e2]; try (by destruct Ha); try (by destruct Hb).
  all: try (cbn [fz]; rewrite Z.add_0_l; by apply rounds_self).
  all: try (cbn [fz]; rewrite Z.add_0_r; by apply rounds_self).
  all: try apply rounds_zero.
  destruct Ha as [Va _], Hb as [Vb _]. apply valid_exp in Va, Vb. unfold fadd, SFadd.
  rewrite !shl_align_fst by lia. set (e := Z.min e1 e2).
  replace (fz _ + fz _) with ((cond_Zopp s1 (Z.pos m1 * 2 ^ (e1 - e)) + cond_Zopp s2 (Z.pos m2 * 2 ^ (e2 - e))) * 2 ^ (e + 1074)).
  { apply binary_normalize_rounds. lia. }
  cbn [fz]. replace (e1 + 1074) with (e1 - e + (e + 1074)) by lia. replace (e2 + 1074) with (e2 - e + (e + 1074)) by lia.
  rewrite !(Z.pow_add_r 2 _ (e + 1074)) by lia. destruct s1, s2; cbn [cond_Zopp]; lia.
Qed.

Lemma fsub_fadd a b : fsub a b = fadd a (SFopp b).
Proof.
  destruct a as [[]|[]| |s1 m1 e1], b as [[]|[]| |s2 m2 e2]; try done.
  unfold fsub, fadd, SFsub, SFadd. cbn [SFopp]. f_equal. destruct s2; cbn [negb cond_Zopp]; lia.
Qed.

Lemma fsub_rounds a b : number a → number b → rounds (fz a - fz b) 1 (fsub a b).
Proof.
  intros Ha Hb. rewrite fsub_fadd, <- Z.add_opp_r, <- fz_fopp. by apply fadd_rounds; [|apply number_fopp].
Qed.

Lemma digits_mul m1 m2 : 0 < m1 → 0 < m2 → Zdigits2 m1 + Zdigits2 m2 - 1 <= Zdigits2 (m1 * m2).
Proof.
  intros H1 H2. rewrite !Zdigits2_log2 by nia. pose proof (Z.log2_mul_below m1 m2 H1 H2). lia.
Qed.

(** A finite number has 53 digits or the smallest exponent. *)
Lemma valid_digits s m e : valid (S754_finite s m e) → Zdigits2 (Z.pos m) = 53 ∨ e = -1074.
Proof.
  rewrite valid_finite. intros [[Hm _]|[_ ->]]; [left|by right]. apply Zdigits2_unique; lia.
Qed.

Lemma signed_xorb s1 s2 x y : signed (xorb s1 s2) (x * y) = signed s1 x * signed s2 y.
Proof. destruct s1, s2; cbn [signed xorb]; lia. Qed.

Lemma fmul_rounds a b : number a → number b → rounds (fz a * fz b) unit (fmul a b).
Proof.
  pose proof unit_pos as Hu.
  intros Ha Hb. destruct a as [sa|?| |s1 m1 e1], b as [sb|?| |s2 m2 e2]; try (by destruct Ha); try (by destruct Hb).
  1-3: cbn [fz]; rewrite ?Z.mul_0_l, ?Z.mul_0_r; apply (rounds_scale 0 1); [lia|done|lia|apply rounds_zero].
  destruct Ha as [Va _], Hb as [Vb _]. pose proof (valid_exp _ _ _ Va). pose proof (valid_exp _ _ _ Vb).
  rewrite !fz_finite, <- signed_xorb. unfold fmul, SFmul.
  replace (Z.pos m1 * 2 ^ (e1 + 1074) * (Z.pos m2 * 2 ^ (e2 + 1074)))
    with (Z.pos (m1 * m2) * (1 * 2 ^ (e1 + e2 + 2148))).
  2:{ replace (e1 + e2 + 2148) with (e1 + 1074 + (e2 + 1074)) by lia.
      rewrite (Z.pow_add_r 2 (e1 + 1074)) by lia. lia. }
  replace unit with (1 * 2 ^ (2148 - 1074)) by done.
  apply round_signed; [lia|lia|lia| |apply held_exact; [lia|rewrite Z.mul_1_l; apply pow2_pos; lia]].
  pose proof (digits_mul (Z.pos m1) (Z.pos m2) ltac:(lia) ltac:(lia)). rewrite <- Pos2Z.inj_mul in *.
  destruct (Zdigits2_range (Z.pos m1)) as (_&_&D1); [lia|]. destruct (Zdigits2_range (Z.pos m2)) as (_&_&D2); [lia|].
  rewrite !Zdigits2_log2 in * by lia. pose proof (Z.log2_nonneg (Z.pos m1)). pose proof (Z.log2_nonneg (Z.pos m2)).
  pose proof (valid_digits _ _ _ Va) as Da. pose proof (valid_digits _ _ _ Vb) as Db.
  rewrite !Zdigits2_log2 in Da, Db by lia. unfold fexp, emin. lia.
Qed.

Lemma new_location_exact n r : new_location n r = loc_Exact ↔ r = 0.
Proof.
  unfold new_location, new_location_even, new_location_odd.
  destruct (Z.even n), (Z.eqb_spec r 0); split; try done; by repeat case_match.
Qed.

Lemma held_div num D m r n :
  0 < D → 0 < n → 0 <= m → 0 <= r < n → num = (m * n + r) * D →
  held num (n * D) (shr_record_of_loc m (new_location n r)).
Proof.
  intros HD Hn Hm Hr ->. assert (Hl : ∀ l, shr_m (shr_record_of_loc m l) = m ∧
    (shr_r (shr_record_of_loc m l) || shr_s (shr_record_of_loc m l) = false ↔ l = loc_Exact)).
  { intros [|[]]; by cbn. }
  destruct (Hl (new_location n r)) as [H1 H2]. unfold held. rewrite H1, H2, new_location_exact.
  split; [done|]. split; [nia|]. split; [intros ->; lia|nia].
Qed.

(** The quotient has enough digits for its exponent. *)
Lemma div_digits m1 m2 s :
  0 < m1 → 0 < m2 → 0 <= s →
  Zdigits2 m1 + s - Zdigits2 m2 <= Zdigits2 (m1 * 2 ^ s / m2).
Proof.
  intros H1 H2 Hs. pose proof (pow2_pos s Hs). set (q := m1 * 2 ^ s / m2).
  assert (Hq : 0 <= q) by (apply Z.div_pos; nia). apply Z.le_ngt. intros Hlt.
  destruct (Zdigits2_range q Hq) as (Q1&_&Q2). destruct (Zdigits2_range m1) as (_&A1&A2); [lia|].
  destruct (Zdigits2_range m2) as (B1&_&B2); [lia|]. specialize (A1 H1).
  pose proof (Z.mul_succ_div_gt (m1 * 2 ^ s) m2 H2) as Hgt. fold q in Hgt.
  assert (Hup : m2 * Z.succ q <= 2 ^ Zdigits2 m2 * 2 ^ Zdigits2 q) by (apply Z.mul_le_mono_nonneg; lia).
  assert (Hlo : 2 ^ (Zdigits2 m1 - 1) * 2 ^ s <= m1 * 2 ^ s) by (apply Z.mul_le_mono_nonneg_r; lia).
  rewrite <- Z.pow_add_r in Hup by lia. rewrite (Zdigits2_log2 m1) in Hlo, Hlt, A2 by done.
  pose proof (Z.log2_nonneg m1). rewrite <- Z.pow_add_r in Hlo by lia.
  assert (2 ^ (Zdigits2 m2 + Zdigits2 q) <= 2 ^ (Z.log2 m1 + 1 - 1 + s)) by (apply Z.pow_le_mono_r; lia). lia.
Qed.

Lemma fexp_mono a b : a <= b → fexp 53 1024 a <= fexp 53 1024 b.
Proof. unfold fexp, emin. lia. Qed.

Lemma signed_div s1 s2 x y : signed (xorb s1 s2) x * y = signed s1 x * signed s2 y.
Proof. destruct s1, s2; cbn [signed xorb]; lia. Qed.

Lemma div_core_rounds s m1 e1 m2 e2 :
  -1074 <= e1 <= 971 → -1074 <= e2 <= 971 →
  let '(q, e', l) := SFdiv_core_binary 53 1024 (Z.pos m1) e1 (Z.pos m2) e2 in
  rounds (signed s (Z.pos m1 * 2 ^ (e1 + 1074) * unit)) (Z.pos m2 * 2 ^ (e2 + 1074))
    (binary_round_aux 53 1024 s q e' l).
Proof.
  intros H1 H2. unfold SFdiv_core_binary. set (d := Zdigits2 (Z.pos m1) + e1 - (Zdigits2 (Z.pos m2) + e2)).
  set (e' := Z.min (fexp 53 1024 d) (e1 - e2)). set (k := e1 - e2 - e').
  assert (Hk : 0 <= k) by lia.
  replace (match k with Z0 => Z.pos m1 | Zpos _ => Z.shiftl (Z.pos m1) k | Zneg _ => 0 end)
    with (Z.pos m1 * 2 ^ k).
  2:{ destruct k as [|k'|k'] eqn:Ek; [lia| |lia]. by rewrite Z.shiftl_mul_pow2 by lia. }
  pose proof (div_digits (Z.pos m1) (Z.pos m2) k ltac:(lia) ltac:(lia) Hk) as Hdig.
  pose proof (Z.div_mod (Z.pos m1 * 2 ^ k) (Z.pos m2) ltac:(lia)) as Hdm.
  pose proof (Z.mod_pos_bound (Z.pos m1 * 2 ^ k) (Z.pos m2) ltac:(lia)) as Hr.
  unfold Z.div in *. unfold Z.modulo in *. destruct (Z.div_eucl _ _) as [q r].
  assert (Hq : 0 <= q) by (pose proof (pow2_pos k Hk); nia).
  assert (HeU : - 4000 <= e') by (unfold e', fexp, emin; lia).
  pose proof (pow2_pos (e' + 4000) ltac:(lia)) as HpU. pose proof (pow2_pos (e2 + 1074) ltac:(lia)) as Hp2.
  apply (rounds_scale (signed s (Z.pos m1 * 2 ^ k * 2 ^ (e' + 4000))) (Z.pos m2 * 2 ^ (4000 - 1074))).
  - lia.
  - lia.
  - assert (Hpow : 2 ^ k * 2 ^ (e' + 4000) * 2 ^ (e2 + 1074) = 2 ^ (e1 + 1074) * unit * 2 ^ (4000 - 1074)).
    { unfold unit. rewrite <- !Z.pow_add_r by lia. f_equal. lia. }
    assert (Hprod : Z.pos m1 * 2 ^ k * 2 ^ (e' + 4000) * (Z.pos m2 * 2 ^ (e2 + 1074)) =
      Z.pos m1 * 2 ^ (e1 + 1074) * unit * (Z.pos m2 * 2 ^ (4000 - 1074))).
    { transitivity (Z.pos m1 * Z.pos m2 * (2 ^ k * 2 ^ (e' + 4000) * 2 ^ (e2 + 1074))); [ring|].
      rewrite Hpow. ring. }
    destruct s; cbn [signed]; rewrite ?Z.mul_opp_l; by rewrite Hprod.
  - apply round_signed; [lia|lia|lia| |].
    + etrans; [|apply fexp_mono; instantiate (1 := d); lia]. lia.
    + apply held_div; [done|lia|done|done|]. rewrite Hdm. lia.
Qed.

Lemma fdiv_rounds a b : number a → number b → 0 < fz b → rounds (fz a * unit) (fz b) (fdiv a b).
Proof.
  intros Ha Hb Hpos. destruct b as [?|?| |[] m2 e2]; try (by destruct Hb); try (cbn [fz] in Hpos; lia).
  destruct a as [s1|?| |s1 m1 e1]; try (by destruct Ha).
  { apply (rounds_scale 0 1); [lia|done|done|apply rounds_zero]. }
  destruct Ha as [Va%valid_exp _], Hb as [Vb%valid_exp _]. unfold fdiv, SFdiv.
  pose proof (div_core_rounds (xorb s1 false) m1 e1 m2 e2 Va Vb) as H.
  destruct (SFdiv_core_binary _ _ _ _ _ _) as [[q e'] l]. rewrite xorb_false_r in *.
  rewrite !fz_finite. cbn [signed]. replace (signed s1 _ * unit) with (signed s1 (Z.pos m1 * 2 ^ (e1 + 1074) * unit)); [done|].
  destruct s1; cbn [signed]; lia.
Qed.

Lemma double_of_Z_rounds n : rounds (n * unit) 1 (double_of_Z n).
Proof. by apply (binary_normalize_rounds n 0 false). Qed.

(** Integers of at most 53 bits convert exactly. *)
Lemma double_of_Z_exact n : Z.abs n <= 2 ^ 53 → number (double_of_Z n) ∧ fz (double_of_Z n) = n * unit.
Proof.
  intros Hn. pose proof (rep_unit n Hn) as Hr.
  destruct (rounds_bounds _ _ _ (n * unit) (n * unit) (double_of_Z_rounds n) Hr Hr) as [? ?]; [lia|]. split; [done|lia].
Qed.

(** ** Bounds of the operations

    Between two representable bounds the exact result may be replaced by the rounded one. *)

Lemma fadd_between a b lo hi :
  number a → number b → rep lo → rep hi → lo <= fz a + fz b <= hi →
  number (fadd a b) ∧ lo <= fz (fadd a b) <= hi.
Proof. intros Ha Hb Hl Hh H. apply (rounds_bounds _ _ _ _ _ (fadd_rounds a b Ha Hb) Hl Hh). lia. Qed.

Lemma fsub_between a b lo hi :
  number a → number b → rep lo → rep hi → lo <= fz a - fz b <= hi →
  number (fsub a b) ∧ lo <= fz (fsub a b) <= hi.
Proof. intros Ha Hb Hl Hh H. apply (rounds_bounds _ _ _ _ _ (fsub_rounds a b Ha Hb) Hl Hh). lia. Qed.

Lemma fmul_between a b lo hi :
  number a → number b → rep lo → rep hi → lo * unit <= fz a * fz b <= hi * unit →
  number (fmul a b) ∧ lo <= fz (fmul a b) <= hi.
Proof. intros Ha Hb Hl Hh H. apply (rounds_bounds _ _ _ _ _ (fmul_rounds a b Ha Hb) Hl Hh). lia. Qed.

Lemma fdiv_between a b lo hi :
  number a → number b → 0 < fz b → rep lo → rep hi → lo * fz b <= fz a * unit <= hi * fz b →
  number (fdiv a b) ∧ lo <= fz (fdiv a b) <= hi.
Proof. intros Ha Hb Hp Hl Hh H. apply (rounds_bounds _ _ _ _ _ (fdiv_rounds a b Ha Hb Hp) Hl Hh). lia. Qed.

(** ** Relative error *)

(** [2^1022], in units: below it nothing overflows. *)
Definition top : Z := 2 ^ 2096.

Lemma rep_fz a : number a → rep (fz a).
Proof. intros Ha. by exists a. Qed.

(** Around any magnitude there are numbers of the format within a part in [2^52]. *)
Lemma rep_around x :
  2 ^ 52 <= x < top → ∃ lo step, rep lo ∧ rep (lo + step) ∧ lo <= x < lo + step ∧ step * 2 ^ 52 <= x.
Proof.
  intros Hx. pose proof (Z.log2_spec x ltac:(lia)) as Hl. set (L := Z.log2 x) in *.
  assert (HL : 52 <= L < 2096) by (split; [apply Z.log2_le_pow2; lia|apply Z.log2_lt_pow2; [lia|apply Hx]]).
  set (j := L - 52). pose proof (pow2_pos j ltac:(lia)) as Hj.
  replace (2 ^ L) with (2 ^ 52 * 2 ^ j) in Hl by (rewrite <- Z.pow_add_r by lia; f_equal; lia).
  replace (2 ^ Z.succ L) with (2 ^ 53 * 2 ^ j) in Hl by (rewrite <- Z.pow_add_r by lia; f_equal; lia).
  assert (Hk : 2 ^ 52 <= x / 2 ^ j < 2 ^ 53).
  { split; [apply Z.div_le_lower_bound; lia|apply Z.div_lt_upper_bound; lia]. }
  pose proof (Z.div_mod x (2 ^ j) ltac:(lia)) as Hdm. pose proof (Z.mod_pos_bound x (2 ^ j) Hj) as Hm.
  set (k := x / 2 ^ j) in *. clearbody k. exists (k * 2 ^ j), (2 ^ j). split; [apply rep_intro; lia|].
  split; [replace (k * 2 ^ j + 2 ^ j) with ((k + 1) * 2 ^ j) by lia; apply rep_intro; lia|].
  clearbody j. clear HL. generalize dependent (2 ^ j). intros. lia.
Qed.

(** [r] is within a part in [2^52] of [n / d] units. *)
Definition near (n d : Z) (r : double) : Prop := number r ∧ Z.abs (fz r * d - n) * 2 ^ 52 <= Z.abs n.

Lemma near_fopp n d r : near (- n) d (SFopp r) → near n d r.
Proof. intros [H1 H2]. rewrite number_fopp in H1. rewrite fz_fopp in H2. split; [done|]. lia. Qed.

Lemma rounds_near_pos n d r : 0 < d → 2 ^ 52 * d <= n < top * d → rounds n d r → near n d r.
Proof.
  intros Hd Hn Hr.
  destruct (rep_around (n / d)) as (lo&st&R1&R2&Hx&Hs).
  { split; [apply Z.div_le_lower_bound; lia|apply Z.div_lt_upper_bound; lia]. }
  pose proof (Z.div_mod n d ltac:(lia)) as Hdm. pose proof (Z.mod_pos_bound n d Hd) as Hm.
  set (x := n / d) in *. clearbody x. clear Hn.
  assert (H1 : lo * d <= x * d) by (apply Z.mul_le_mono_nonneg_r; lia).
  assert (H2 : (x + 1) * d <= (lo + st) * d) by (apply Z.mul_le_mono_nonneg_r; lia).
  assert (H3 : st * 2 ^ 52 * d <= x * d) by (apply Z.mul_le_mono_nonneg_r; lia).
  destruct (rounds_bounds _ _ _ lo (lo + st) Hr R1 R2) as [Hf Hb]; [lia|].
  assert (H4 : lo * d <= fz r * d) by (apply Z.mul_le_mono_nonneg_r; lia).
  assert (H5 : fz r * d <= (lo + st) * d) by (apply Z.mul_le_mono_nonneg_r; lia).
  split; [done|]. lia.
Qed.

Lemma rounds_near n d r :
  0 < d → 2 ^ 52 * d <= Z.abs n < top * d → rounds n d r → near n d r.
Proof.
  intros Hd Hn Hr. destruct (Z.le_gt_cases 0 n).
  - apply rounds_near_pos; [done|lia|done].
  - apply near_fopp, rounds_near_pos; [done|lia|]. by apply rounds_fopp.
Qed.

(** Sums and differences have no underflow. *)
Lemma rounds_near_unit n r : Z.abs n < top → rounds n 1 r → near n 1 r.
Proof.
  intros Hn Hr. destruct (Z.le_gt_cases (2 ^ 52) (Z.abs n)); [apply rounds_near; [done|lia|done]|].
  assert (Hx : rep n) by (rewrite <- (Z.mul_1_r n); apply (rep_intro n 0); lia).
  destruct (rounds_bounds _ _ _ n n Hr Hx Hx) as [? ?]; [lia|]. split; [done|lia].
Qed.
