(* ===== verification/Runtime.v ===== *)
(** * The C runtime as the programs use it

    Command-line numbers ([strtoull] and [atoi] in base 10), the log of [printf]
    calls, and the ways a program ends.  A [printf] call is kept as its format string,
    quoted as in the source, and its arguments; turning it into text is the
    library's work.  Clocks are streams of readings that the programs consume. *)

From stdpp Require Import base numbers list strings.
From Stdlib Require Import ZArith Lia.
From S2P Require Import Prelude Float64.

Local Open Scope Z_scope.

(** A string literal as bytes. *)
Definition bs (s : string) : list byte := String.list_byte_of_string s.

(** ** Numbers on the command line *)

(** [isspace] in the "C" locale. *)
Definition c_isspace (b : byte) : bool :=
  let c := Z_of_byte b in (c =? 32) || ((9 <=? c) && (c <=? 13)).

Fixpoint skip_spaces (s : list byte) : list byte :=
  match s with b :: s' => if c_isspace b then skip_spaces s' else s | [] => [] end.

Definition digit_val (b : byte) : option Z :=
  let c := Z_of_byte b in if (48 <=? c) && (c <=? 57) then Some (c - 48) else None.

(** The value of the longest prefix of digits, after [acc]. *)
Fixpoint digits_val (s : list byte) (acc : Z) : Z :=
  match s with
  | b :: s' => match digit_val b with Some d => digits_val s' (acc * 10 + d) | None => acc end
  | [] => acc
  end.

(** The sign and the rest of the subject sequence. *)
Definition split_sign (s : list byte) : bool * list byte :=
  match s with
  | b :: s' => if Z_of_byte b =? 45 then (true, s')
               else if Z_of_byte b =? 43 then (false, s') else (false, s)
  | [] => (false, [])
  end.

(** [std::strtoull(s, nullptr, 10)]: 0 without digits, [ULLONG_MAX] when the value
    does not fit, and a minus sign negates as unsigned. *)
Definition strtoull (s : list byte) : Z :=
  let '(neg, ds) := split_sign (skip_spaces s) in
  let v := digits_val ds 0 in
  if UINT64_MAX <? v then UINT64_MAX else if neg then u64 (- v) else v.

(** [std::atoi(s)]: [None] where the value does not fit an [int], which is undefined. *)
Definition atoi (s : list byte) : option Z :=
  let '(neg, ds) := split_sign (skip_spaces s) in
  let v := if neg then - digits_val ds 0 else digits_val ds 0 in
  if (- 2 ^ 31 <=? v) && (v <? 2 ^ 31) then Some v else None.

(** [argc > i ? f(argv[i]) : d] *)
Definition arg {A} (argv : list (list byte)) (i : nat) (f : list byte → A) (d : A) : A :=
  match argv !! i with Some s => f s | None => d end.

(** ** Output and exit *)

Inductive PrintArg := AU (n : Z) | AI (n : Z) | AS (s : list byte) | AF (x : double).

(** [Spdlog] is the log of the spdlog library, with its level. *)
Inductive Channel := Stdout | Stderr | Spdlog (level : string).

Record Print := mkPrint { p_channel : Channel; p_format : string; p_args : list PrintArg }.

Definition printf (fmt : string) (args : list PrintArg) : Print := mkPrint Stdout fmt args.
Definition eprintf (fmt : string) (args : list PrintArg) : Print := mkPrint Stderr fmt args.
Definition spdlog (level fmt : string) (args : list PrintArg) : Print := mkPrint (Spdlog level) fmt args.

(** How a program ends: it returns from [main], an exception leaves [main], or its
    behaviour is undefined. *)
Inductive ProgResult := Returns (code : Z) (out : list Print) | Terminates (what : string) | Undefined.

(** ** Properties of the number parser *)

Lemma digits_val_app ds s acc :
  Forall (λ b, is_Some (digit_val b)) ds →
  digits_val (ds ++ s) acc = digits_val s (digits_val ds acc).
Proof.
  intros H. revert acc. induction H as [|b ds [d Hd] _ IH]; intros acc; [done|].
  cbn [app digits_val]. rewrite Hd. apply IH.
Qed.

Lemma strtoull_is s : is_u64 (strtoull s).
Proof.
  unfold strtoull. destruct (split_sign _) as [neg ds]. destruct (Z.ltb_spec UINT64_MAX (digits_val ds 0)) as [|Hle].
  { by unfold UINT64_MAX. }
  destruct neg; [apply u64_is|]. split; [|unfold UINT64_MAX in Hle; lia].
  clear Hle. assert (0 <= 0) as H by lia. revert H. generalize 0 at 2 4. induction ds as [|b ds IH]; intros acc Ha; [done|].
  cbn [digits_val]. unfold digit_val. destruct (_ && _) eqn:E; [|done].
  apply andb_true_iff in E as [E1 E2]. apply Z.leb_le in E1. apply IH. lia.
Qed.
