(* ===== verification/Clock.v ===== *)
(** * Clocks and the clock-overhead binary

    Models [src/src/util/timing.h], [src/src/util/tsc_timer.h] (the x86 build and the
    fallback) and [src/src/main.cpp].  What the hardware and the system clocks read is
    an input; the arithmetic on the readings is the code's.  The file also holds the
    theory of order statistics that the medians and percentiles of the benchmarks
    use: the element of rank [k] of the sorted samples. *)

From stdpp Require Import base numbers list sorting strings.
From Stdlib Require Import ZArith Lia Floats.SpecFloat.
From S2P Require Import Prelude Float64 Runtime.

Local Open Scope Z_scope.

(** ** timing.h *)

(** [static_cast<std::uint64_t>(duration_cast<nanoseconds>(...).count())] *)
Definition now_ns (steady : Z) : Z := u64 steady.

(** ** tsc_timer.h *)

Record timespec := mkTimespec { tv_sec : Z; tv_nsec : Z }.

Definition timespec_ns (ts : timespec) : Z :=
  (u64 (tv_sec ts) *u 1000000000) +u u64 (tv_nsec ts).

(** [have_rdtsc] is [OHLCV_HAVE_RDTSC]; the readings are those of the counter and of
    the fallback clock. *)
Definition cycle_start (have_rdtsc : bool) (tsc : Z) (utc : timespec) : Z :=
  if have_rdtsc then tsc else timespec_ns utc.

Definition cycle_end (have_rdtsc : bool) (tsc : Z) (utc : timespec) : Z :=
  if have_rdtsc then tsc else timespec_ns utc.

(** [c0], [c1] are the cycle counts around the nap, [t0], [t1] the monotonic times. *)
Definition calibrate_ticks_per_ns (have_rdtsc : bool) (t0 t1 : timespec) (c0 c1 : Z) : double :=
  if have_rdtsc then
    let ns := fadd (fmul (double_of_Z (tv_sec t1 - tv_sec t0)) (double_of_Z 1000000000))
                   (double_of_Z (tv_nsec t1 - tv_nsec t0)) in
    if fgt ns fzero then fdiv (double_of_Z (c1 -u c0)) ns else fone
  else fone.

Definition tsc_available (have_rdtsc : bool) : bool := have_rdtsc.

(** ** main.cpp *)

Definition kSamples : nat := Z.to_nat 10000.

(** [std::sort] of unsigned values. *)
Definition sort_u64 (l : list Z) : list Z := merge_sort Z.le l.

(** The warm-up makes 1024 reads; sample [i] is the difference of the next two. *)
Definition deltas (steady : nat → Z) : list Z :=
  (λ i, now_ns (steady (1024 + 2 * i + 1)%nat) -u now_ns (steady (1024 + 2 * i)%nat)) <$>
    seq 0 kSamples.

Record Overhead := mkOverhead { oh_min : Z; oh_median : Z; oh_p99 : Z; oh_max : Z }.

(** [front()], [[kSamples / 2]], [[(kSamples * 99) / 100]] and [back()] of the sorted
    array; [None] is an access out of range. *)
Definition overhead (ds : list Z) : option Overhead :=
  let d := sort_u64 ds in
  mn ← d !! 0%nat; md ← d !! (kSamples / 2)%nat; p ← d !! (kSamples * 99 / 100)%nat;
  mx ← d !! (kSamples - 1)%nat;
  Some (mkOverhead mn md p mx).

Definition overhead_main (steady : nat → Z) : ProgResult :=
  match overhead (deltas steady) with
  | None => Undefined
  | Some o =>
      Returns 0
        [mkPrint Stdout "<<"
          [AS (bs "now_ns() self-overhead over "); AU (Z.of_nat kSamples); AS (bs " samples (ns):\n");
           AS (bs "  min:    "); AU (oh_min o); AS (bs "\n");
           AS (bs "  median: "); AU (oh_median o); AS (bs "\n");
           AS (bs "  p99:    "); AU (oh_p99 o); AS (bs "\n");
           AS (bs "  max:    "); AU (oh_max o); AS (bs "\n")]]
  end.

(** ** Order statistics *)

Lemma countb_permutation {A} (p : A → bool) l1 l2 : l1 ≡ₚ l2 → countb p l1 = countb p l2.
Proof.
  induction 1 as [|x l1 l2 _ IH|x y l|l1 l2 l3 _ IH1 _ IH2]; rewrite ?countb_cons; lia.
Qed.

Lemma countb_all {A} (p : A → bool) l : Forall (λ x, p x = true) l → countb p l = Z.of_nat (length l).
Proof.
  induction 1 as [|x l Hx _ IH]; [done|]. rewrite countb_cons, Hx, IH. cbn [length]. lia.
Qed.

Section OrderStatistics.
Context {A : Type} (R : relation A) `{!RelDecision R, !Transitive R, !Total R}.

(** The element of rank [k]: at least [k + 1] samples are not above it and at least
    [length - k] are not below it. *)
Lemma order_statistic l k v :
  merge_sort R l !! k = Some v →
  v ∈ l ∧ Z.of_nat k + 1 <= countb (λ x, bool_decide (R x v)) l ∧
  Z.of_nat (length l) - Z.of_nat k <= countb (λ x, bool_decide (R v x)) l.
Proof using All.
  intros Hk. pose proof (merge_sort_Permutation R l) as Hp.
  pose proof (StronglySorted_merge_sort R l) as Hs. set (d := merge_sort R l) in *.
  assert (Hv : R v v) by (by destruct (total R v v)).
  rewrite <- !(countb_permutation _ d l Hp), <- (Permutation_length Hp).
  split; [rewrite <- Hp; by eapply list_elem_of_lookup_2|].
  pose proof (lookup_lt_Some _ _ _ Hk) as Hlt.
  rewrite <- (take_drop_middle d k v Hk) in Hs |- *.
  apply StronglySorted_app in Hs as (Hlr&_&Hr). rewrite StronglySorted_cons in Hr. destruct Hr as [Hr _].
  rewrite !countb_app, !countb_cons, !bool_decide_true by done.
  rewrite (countb_all (λ x, bool_decide (R x v)) (take k d)).
  rewrite (countb_all (λ x, bool_decide (R v x)) (drop (S k) d)).
  - rewrite length_app, length_take, length_drop. cbn [length]. rewrite length_drop.
    pose proof (countb_le (λ x, bool_decide (R x v)) (drop (S k) d)).
    pose proof (countb_le (λ x, bool_decide (R v x)) (take k d)). split; lia.
  - eapply Forall_impl; [exact Hr|]. intros x Hx. by apply bool_decide_eq_true.
  - apply Forall_forall. intros x Hx. apply bool_decide_eq_true. apply Hlr; [done|apply list_elem_of_here].
Qed.

End OrderStatistics.

Lemma sort_u64_length l : length (sort_u64 l) = length l.
Proof. apply Permutation_length, merge_sort_Permutation. Qed.

(** What [overhead] reports of a full set of samples. *)
Lemma overhead_spec ds :
  length ds = kSamples →
  ∃ o, overhead ds = Some o ∧
    (oh_min o ∈ ds ∧ Forall (λ d, oh_min o <= d) ds) ∧
    (oh_max o ∈ ds ∧ Forall (λ d, d <= oh_max o) ds) ∧
    (5001 <= countb (λ d, d <=? oh_median o) ds ∧ 5000 <= countb (λ d, oh_median o <=? d) ds) ∧
    (9901 <= countb (λ d, d <=? oh_p99 o) ds ∧ 100 <= countb (λ d, oh_p99 o <=? d) ds).
Proof.
  intros Hlen. pose proof (sort_u64_length ds) as Hsl. rewrite Hlen in Hsl.
  assert (Hget : ∀ k, (k < kSamples)%nat → is_Some (sort_u64 ds !! k)).
  { intros k Hk. apply lookup_lt_is_Some_2. lia. }
  assert (HkS : Z.of_nat kSamples = 10000) by (unfold kSamples; lia).
  assert (Hle : ∀ v, countb (λ x, bool_decide (x <= v)) ds = countb (λ x, x <=? v) ds ∧
                     countb (λ x, bool_decide (v <= x)) ds = countb (λ x, v <=? x) ds).
  { intros v. unfold countb. split; f_equal; f_equal; apply List.filter_ext; intros x;
      apply bool_iff; rewrite bool_decide_eq_true; lia. }
  assert (H2 : Z.of_nat (kSamples / 2) = 5000) by (rewrite Nat2Z.inj_div, HkS; reflexivity).
  assert (H99 : Z.of_nat (kSamples * 99 / 100) = 9900)
    by (rewrite Nat2Z.inj_div, Nat2Z.inj_mul, HkS; reflexivity).
  destruct (Hget 0%nat) as [mn Hmn]; [lia|]. destruct (Hget (kSamples / 2)%nat) as [md Hmd]; [lia|].
  destruct (Hget (kSamples * 99 / 100)%nat) as [p Hp]; [lia|].
  destruct (Hget (kSamples - 1)%nat) as [mx Hmx]; [lia|].
  exists (mkOverhead mn md p mx). unfold overhead. cbn zeta. rewrite Hmn, Hmd, Hp, Hmx. split; [done|].
  destruct (order_statistic Z.le _ _ _ Hmn) as (I1&_&C1).
  destruct (order_statistic Z.le _ _ _ Hmx) as (I2&C2&_).
  destruct (order_statistic Z.le _ _ _ Hmd) as (_&C3&C4).
  destruct (order_statistic Z.le _ _ _ Hp) as (_&C5&C6).
  destruct (Hle mn) as [_ E1], (Hle mx) as [E2 _], (Hle md) as [E3 E4], (Hle p) as [E5 E6].
  rewrite E1 in C1. rewrite E2 in C2. rewrite E3 in C3. rewrite E4 in C4. rewrite E5 in C5.
  rewrite E6 in C6. cbn [oh_min oh_max oh_median oh_p99].
  split; [split; [done|]|split; [split; [done|]|split; lia]]; apply Forall_lookup; intros i d Hd.
  - pose proof (countb_le (λ x, mn <=? x) ds).
    apply (countb_full (λ x, mn <=? x) ds i d) in Hd; [lia|]. lia.
  - pose proof (countb_le (λ x, x <=? mx) ds).
    apply (countb_full (λ x, x <=? mx) ds i d) in Hd; [lia|]. lia.
Qed.

Lemma deltas_length steady : length (deltas steady) = kSamples.
Proof. unfold deltas. by rewrite length_fmap, length_seq. Qed.

(** A clock that never goes back yields the true differences. *)
Lemma deltas_monotone steady i :
  (∀ j, 0 <= steady j <= steady (S j)) → (∀ j, steady j < 2 ^ 63) → (i < kSamples)%nat →
  deltas steady !! i = Some (steady (1024 + 2 * i + 1)%nat - steady (1024 + 2 * i)%nat).
Proof.
  intros Hm Hb Hi. unfold deltas. rewrite list_lookup_fmap, lookup_seq_lt by done.
  cbn [fmap option_fmap option_map]. f_equal. rewrite Nat.add_0_l.
  replace (1024 + 2 * i + 1)%nat with (S (1024 + 2 * i)) by lia.
  generalize (1024 + 2 * i)%nat. intros j. unfold now_ns.
  pose proof (Hm j). pose proof (Hm (S j)). pose proof (Hb j). pose proof (Hb (S j)).
  rewrite !u64_small by (unfold is_u64; lia). apply u64_sub_small. lia.
Qed.

(** ** The tick rate *)

Lemma double_of_Z_sign n : 0 <= n → has_sign false (double_of_Z n).
Proof.
  intros Hn. destruct n as [|p|p]; [done| |lia]. unfold double_of_Z, binary_normalize, binary_round.
  destruct (shl_align _ _ _) as [mz ez]. by apply binary_round_aux_sign.
Qed.

Lemma iter_shr_le p mrs : 0 <= shr_m mrs → shr_m (iter_pos shr_1 p mrs) <= shr_m mrs.
Proof.
  assert (H1 : ∀ m, 0 <= shr_m m → shr_m (shr_1 m) <= shr_m m) by (intros [[|[]|] ? ?]; simpl; lia).
  revert mrs. induction p as [p IH|p IH|]; intros mrs H; cbn [iter_pos].
  - pose proof (shr_1_nonneg mrs H). pose proof (iter_shr_nonneg p (shr_1 mrs) ltac:(lia)).
    pose proof (IH (iter_pos shr_1 p (shr_1 mrs)) ltac:(lia)).
    pose proof (IH (shr_1 mrs) ltac:(lia)). pose proof (H1 mrs H). lia.
  - pose proof (iter_shr_nonneg p mrs H). pose proof (IH (iter_pos shr_1 p mrs) ltac:(lia)).
    pose proof (IH mrs H). lia.
  - by apply H1.
Qed.

(** Aligning to the format's exponent moves the exponent up to it and shrinks the
    mantissa. *)
Lemma shr_fexp_bounds m e l :
  0 <= m →
  shr_m (fst (shr_fexp 53 1024 m e l)) <= m ∧
  snd (shr_fexp 53 1024 m e l) <= Z.max e (fexp 53 1024 (Zdigits2 m + e)).
Proof.
  intros Hm. unfold shr_fexp, shr. assert (Hr : shr_m (shr_record_of_loc m l) = m) by (by destruct l as [|[]]).
  destruct (fexp 53 1024 (Zdigits2 m + e) - e) eqn:E; cbn [fst snd]; [rewrite Hr; lia| |rewrite Hr; lia].
  split; [|lia]. pose proof (iter_shr_le p (shr_record_of_loc m l)). lia.
Qed.

Lemma Zdigits2_le m k : 0 <= m < 2 ^ k → 0 <= k → Zdigits2 m <= k.
Proof.
  intros Hm Hk. destruct m as [|p|p]; [done| |lia]. cbn [Zdigits2]. rewrite digits2_pos_log2.
  assert (Z.log2 (Z.pos p) < k) by (apply Z.log2_lt_pow2; lia). lia.
Qed.

Lemma binary_round_aux_finite s m e k l :
  0 <= m < 2 ^ k → 0 <= k <= 200 → -200 <= e <= 200 →
  is_finite (binary_round_aux 53 1024 s m e l) = true.
Proof.
  intros Hm Hk He. unfold binary_round_aux.
  pose proof (shr_fexp_nonneg m e l ltac:(lia)) as H1.
  pose proof (shr_fexp_bounds m e l ltac:(lia)) as [B1 B2].
  pose proof (Zdigits2_le m k Hm ltac:(lia)) as Hd.
  destruct (shr_fexp 53 1024 m e l) as [mrs' e']; cbn [fst snd] in *.
  pose proof (round_nearest_even_nonneg _ (loc_of_shr_record mrs') H1) as H2.
  assert (H3 : round_nearest_even (shr_m mrs') (loc_of_shr_record mrs') <= shr_m mrs' + 1).
  { destruct (loc_of_shr_record mrs') as [|[]]; simpl; try lia. destruct (Z.even _); lia. }
  set (m2 := round_nearest_even _ _) in *.
  pose proof (shr_fexp_nonneg m2 e' loc_Exact H2) as H4.
  pose proof (shr_fexp_bounds m2 e' loc_Exact H2) as [_ B4].
  assert (Hd2 : Zdigits2 m2 <= k + 1) by (apply Zdigits2_le; [rewrite Z.pow_add_r|]; lia).
  destruct (shr_fexp 53 1024 m2 e' loc_Exact) as [mrs'' e'']; cbn [fst snd] in *.
  unfold fexp, emin in *.
  destruct (shr_m mrs''); [done| |lia]. destruct (Z.leb_spec e'' (1024 - 53)); [done|lia].
Qed.

Lemma double_of_Z_finite n : is_u64 n → is_finite (double_of_Z n) = true.
Proof.
  unfold is_u64. intros Hn. destruct n as [|p|p]; [done| |lia].
  unfold double_of_Z, binary_normalize, binary_round.
  pose proof (Zdigits2_le (Z.pos p) 64 ltac:(lia) ltac:(lia)) as Hd. cbn [Zdigits2] in Hd.
  destruct (shl_align _ _ _) as [mz ez] eqn:E. unfold shl_align, fexp, emin in E.
  destruct (_ - 0) eqn:E0; injection E as <- <-.
  - apply (binary_round_aux_finite _ _ _ 64); lia.
  - apply (binary_round_aux_finite _ _ _ 64); lia.
  - assert (Z.pos p0 <= 53) by lia. apply (binary_round_aux_finite _ _ _ 117); [|lia|lia].
    rewrite pos_iter_xO. split; [lia|]. replace 117 with (64 + 53) by lia. rewrite Z.pow_add_r by lia.
    apply Z.lt_le_trans with (2 ^ 64 * 2 ^ Z.pos p0).
    + apply Z.mul_lt_mono_pos_r; lia.
    + apply Z.mul_le_mono_nonneg_l; [lia|]. apply Z.pow_le_mono_r; lia.
Qed.

Lemma fdiv_sign a b :
  has_sign false a → is_finite a = true → fgt b fzero = true → has_sign false (fdiv a b).
Proof.
  unfold fgt. intros Ha Hf Hb. destruct a as [[]|[]| |[] ma ea]; try done;
    destruct b as [[]|[]| |[] mb eb]; try done.
  unfold fdiv, SFdiv. destruct (SFdiv_core_binary _ _ _ _ _ _) as [[mz ez] lz] eqn:E.
  apply binary_round_aux_sign. unfold SFdiv_core_binary in E.
  set (s := _ : Z) in E. assert (Hs : 0 <= s).
  { subst s. destruct (_ - Z.min _ _); try lia. apply Z.shiftl_nonneg. lia. }
  cbn zeta in E. destruct (Z.div_eucl s (Z.pos mb)) as [q r] eqn:Eq. injection E as <- _ _.
  pose proof (Z.div_pos s (Z.pos mb) Hs ltac:(lia)) as Hq. unfold Z.div in Hq. by rewrite Eq in Hq.
Qed.

(** A quotient of a count by a positive time is a rate: not negative and not NaN. *)
Lemma rate_sign n secs : is_u64 n → fgt secs fzero = true → has_sign false (fdiv (double_of_Z n) secs).
Proof.
  intros Hn Hs. apply fdiv_sign; [|by apply double_of_Z_finite|done].
  apply double_of_Z_sign. unfold is_u64 in Hn. lia.
Qed.

Lemma calibrate_sign b t0 t1 c0 c1 : has_sign false (calibrate_ticks_per_ns b t0 t1 c0 c1).
Proof.
  unfold calibrate_ticks_per_ns. destruct b; [|done]. cbn zeta.
  destruct (fgt _ _) eqn:E; [|done]. apply rate_sign; [|done]. auto with u64.
Qed.

(** ** The properties *)

(** The reported figures are order statistics of the clock's own cost: whatever the
    clock reads, the program returns 0, min and max are the extremes of the ten
    thousand samples, at least half of the samples lie on either side of the median,
    and 99 per cent of them are not above p99; and on a clock that never goes back
    each sample is the time between its two reads. *)
Theorem overhead_order_statistics steady :
  ∃ o, overhead (deltas steady) = Some o ∧
    (∃ out, overhead_main steady = Returns 0 out) ∧
    (oh_min o ∈ deltas steady ∧ Forall (λ d, oh_min o <= d) (deltas steady)) ∧
    (oh_max o ∈ deltas steady ∧ Forall (λ d, d <= oh_max o) (deltas steady)) ∧
    (5001 <= countb (λ d, d <=? oh_median o) (deltas steady) ∧
     5000 <= countb (λ d, oh_median o <=? d) (deltas steady)) ∧
    (9901 <= countb (λ d, d <=? oh_p99 o) (deltas steady) ∧
     100 <= countb (λ d, oh_p99 o <=? d) (deltas steady)) ∧
    ((∀ j, 0 <= steady j <= steady (S j) ∧ steady j < 2 ^ 63) → ∀ i, (i < kSamples)%nat →
     deltas steady !! i = Some (steady (1024 + 2 * i + 1)%nat - steady (1024 + 2 * i)%nat)).
Proof.
  destruct (overhead_spec (deltas steady) (deltas_length steady)) as (o&Ho&H1&H2&H3&H4).
  exists o. split; [exact Ho|]. split.
  { unfold overhead_main. rewrite Ho. by eexists. }
  split; [exact H1|]. split; [exact H2|]. split; [exact H3|]. split; [exact H4|].
  intros Hc i Hi. apply deltas_monotone; [intros j; apply Hc..|exact Hi].
Qed.
