(* ===== verification/Wire.v ===== *)
(** * Wire records and the replay file format

    Models [src/src/model/wire.h], [src/src/feed/feed_protocol.h] and
    [src/src/replay/binary_format.h]: the fixed-layout structs, their memory
    images (byte for byte, padding included), the tagged union [WireRecord] as
    the raw storage it is, the 16-byte file header, and [view_replay], the
    bounds check that guards every reader of a mapped replay file. *)

From stdpp Require Import base numbers list strings.
From Stdlib Require Import ZArith Lia.
From S2P Require Import Prelude Float64.

Local Open Scope Z_scope.

(** ** The structs of wire.h *)

Definition kSymbolLen : nat := 8.

Record WireTrade := mkWireTrade {
  wt_symbol : list byte;
  wt_ts_ns : Z;
  wt_seq : Z;
  wt_trade_id : Z;
  wt_price : double;
  wt_size : Z;
  wt_exchange : byte;
  wt_tape : byte;
  wt_pad : list byte
}.

Record WireBar := mkWireBar {
  wb_symbol : list byte;
  wb_start_ns : Z;
  wb_seq : Z;
  wb_open : double;
  wb_high : double;
  wb_low : double;
  wb_close : double;
  wb_vwap : double;
  wb_volume : Z;
  wb_trade_count : Z
}.

Record WireQuote := mkWireQuote {
  wq_symbol : list byte;
  wq_ts_ns : Z;
  wq_seq : Z;
  wq_bid_price : double;
  wq_ask_price : double;
  wq_bid_size : Z;
  wq_ask_size : Z;
  wq_bid_exchange : byte;
  wq_ask_exchange : byte;
  wq_tape : byte;
  wq_pad : list byte
}.

(** ** Memory images

    A trivially copyable struct promises: a fixed size, an image of that size,
    and that reading an image gives the value back.  Everything that moves
    records through memory, files or datagrams is proved against this
    interface. *)

Class WireStruct (A : Type) := {
  sizeof : nat;
  encode : A → list byte;
  decode : list byte → A;
  wf : A → Prop
}.
Arguments sizeof A {_}.

Class WireStructOk (A : Type) `{WireStruct A} := {
  length_encode : ∀ a : A, wf a → length (encode a) = sizeof A;
  decode_encode_app : ∀ (a : A) rest, wf a → decode (encode a ++ rest) = a;
  decode_wf : ∀ bs, (sizeof A <= length bs)%nat → wf (decode bs : A)
}.

Definition enc64 (z : Z) : list byte := le_bytes 8 z.
Definition encf (a : double) : list byte := le_bytes 8 (bits_of_double a).
Definition get64 (off : nat) (bs : list byte) : Z := le_val (field off 8 bs).
Definition getf (off : nat) (bs : list byte) : double := double_of_bits (get64 off bs).
Definition get8 (off : nat) (bs : list byte) : byte := nth off bs Init.Byte.x00.

Lemma length_enc64 z : length (enc64 z) = 8%nat.
Proof. apply length_le_bytes. Qed.

Lemma length_encf a : length (encf a) = 8%nat.
Proof. apply length_le_bytes. Qed.

#[export] Hint Rewrite length_enc64 length_encf : len.

Lemma le_val_enc64 z : is_u64 z → le_val (enc64 z) = z.
Proof. intros. unfold enc64. rewrite le_val_bytes. by apply Z.mod_small. Qed.

Lemma double_of_encf a : valid a → double_of_bits (le_val (encf a)) = a.
Proof.
  intros Hv. unfold encf. rewrite le_val_bytes, Z.mod_small; [by apply double_of_bits_of|].
  by apply bits_of_double_range.
Qed.

Lemma get64_is off bs : (off + 8 <= length bs)%nat → is_u64 (get64 off bs).
Proof.
  intros Hl. unfold get64, is_u64. pose proof (le_val_range (field off 8 bs)) as Hr.
  rewrite length_field in Hr by lia. done.
Qed.

Lemma getf_valid off bs : valid (getf off bs).
Proof. apply double_of_bits_valid. Qed.

Lemma get8_here b bs : get8 0 ([b] ++ bs) = b.
Proof. done. Qed.

Lemma get8_skip off (a b : list byte) :
  (length a <= off)%nat → get8 off (a ++ b) = get8 (off - length a) b.
Proof. intros. unfold get8. by rewrite app_nth2 by lia. Qed.

Create HintDb wire.
#[export] Hint Resolve getf_valid double_of_bits_valid : wire.

(** Evaluate the lengths of encoded fields and of known-length arrays. *)
Ltac rewrite_len :=
  autorewrite with len;
  repeat match goal with H : length ?x = _ |- context [length ?x] => rewrite H end;
  cbn [Nat.sub Nat.add length].

(** Compute the fields of an encoded struct. *)
Ltac wire_simp :=
  unfold getf, get64;
  repeat first
    [ rewrite field_here by len
    | rewrite field_skip by len; rewrite_len
    | rewrite get8_skip by len; rewrite_len ];
  rewrite ?le_val_enc64, ?double_of_encf, ?get8_here by done.

(** Reduce the projections of a destructed struct, and nothing else. *)
Ltac struct_proj :=
  cbn [wt_symbol wt_ts_ns wt_seq wt_trade_id wt_price wt_size wt_exchange wt_tape wt_pad
       wb_symbol wb_start_ns wb_seq wb_open wb_high wb_low wb_close wb_vwap wb_volume
       wb_trade_count wq_symbol wq_ts_ns wq_seq wq_bid_price wq_ask_price wq_bid_size
       wq_ask_size wq_bid_exchange wq_ask_exchange wq_tape wq_pad] in *.

(** [WireTrade]: 64 bytes, the last 14 of them padding. *)
Definition encode_trade (t : WireTrade) : list byte :=
  wt_symbol t ++ enc64 (wt_ts_ns t) ++ enc64 (wt_seq t) ++ enc64 (wt_trade_id t) ++
  encf (wt_price t) ++ enc64 (wt_size t) ++ [wt_exchange t] ++ [wt_tape t] ++ wt_pad t.

Definition decode_trade (bs : list byte) : WireTrade :=
  {| wt_symbol := field 0 8 bs; wt_ts_ns := get64 8 bs; wt_seq := get64 16 bs;
     wt_trade_id := get64 24 bs; wt_price := getf 32 bs; wt_size := get64 40 bs;
     wt_exchange := get8 48 bs; wt_tape := get8 49 bs; wt_pad := field 50 14 bs |}.

Record wf_trade (t : WireTrade) : Prop := {
  wft_symbol : length (wt_symbol t) = kSymbolLen;
  wft_ts : is_u64 (wt_ts_ns t);
  wft_seq : is_u64 (wt_seq t);
  wft_id : is_u64 (wt_trade_id t);
  wft_price : valid (wt_price t);
  wft_size : is_u64 (wt_size t);
  wft_pad : length (wt_pad t) = 14%nat
}.

#[export] Instance WireTrade_struct : WireStruct WireTrade :=
  {| sizeof := 64; encode := encode_trade; decode := decode_trade; wf := wf_trade |}.

#[export] Instance WireTrade_ok : WireStructOk WireTrade.
Proof.
  split; cbn [sizeof encode decode wf WireTrade_struct].
  - intros a []. unfold encode_trade, kSymbolLen in *. len.
  - intros [] rest []. unfold encode_trade, decode_trade, kSymbolLen in *; struct_proj.
    rewrite <- !app_assoc. f_equal; wire_simp; done.
  - intros bs Hl. split; cbn; auto using getf_valid; rewrite ?length_field by lia; try done;
      apply get64_is; lia.
Qed.

(** [WireBar]: ten 8-byte fields, 80 bytes. *)
Definition encode_bar (b : WireBar) : list byte :=
  wb_symbol b ++ enc64 (wb_start_ns b) ++ enc64 (wb_seq b) ++ encf (wb_open b) ++
  encf (wb_high b) ++ encf (wb_low b) ++ encf (wb_close b) ++ encf (wb_vwap b) ++
  enc64 (wb_volume b) ++ enc64 (wb_trade_count b).

Definition decode_bar (bs : list byte) : WireBar :=
  {| wb_symbol := field 0 8 bs; wb_start_ns := get64 8 bs; wb_seq := get64 16 bs;
     wb_open := getf 24 bs; wb_high := getf 32 bs; wb_low := getf 40 bs;
     wb_close := getf 48 bs; wb_vwap := getf 56 bs; wb_volume := get64 64 bs;
     wb_trade_count := get64 72 bs |}.

Record wf_bar (b : WireBar) : Prop := {
  wfb_symbol : length (wb_symbol b) = kSymbolLen;
  wfb_start : is_u64 (wb_start_ns b);
  wfb_seq : is_u64 (wb_seq b);
  wfb_open : valid (wb_open b);
  wfb_high : valid (wb_high b);
  wfb_low : valid (wb_low b);
  wfb_close : valid (wb_close b);
  wfb_vwap : valid (wb_vwap b);
  wfb_volume : is_u64 (wb_volume b);
  wfb_count : is_u64 (wb_trade_count b)
}.

#[export] Instance WireBar_struct : WireStruct WireBar :=
  {| sizeof := 80; encode := encode_bar; decode := decode_bar; wf := wf_bar |}.

#[export] Instance WireBar_ok : WireStructOk WireBar.
Proof.
  split; cbn [sizeof encode decode wf WireBar_struct].
  - intros a []. unfold encode_bar, kSymbolLen in *. len.
  - intros [] rest []. unfold encode_bar, decode_bar, kSymbolLen in *; struct_proj.
    rewrite <- !app_assoc. f_equal; wire_simp; done.
  - intros bs Hl. split; cbn; auto using getf_valid; rewrite ?length_field by lia; try done;
      apply get64_is; lia.
Qed.

(** [WireQuote]: 64 bytes, the last 5 of them padding. *)
Definition encode_quote (q : WireQuote) : list byte :=
  wq_symbol q ++ enc64 (wq_ts_ns q) ++ enc64 (wq_seq q) ++ encf (wq_bid_price q) ++
  encf (wq_ask_price q) ++ enc64 (wq_bid_size q) ++ enc64 (wq_ask_size q) ++
  [wq_bid_exchange q] ++ [wq_ask_exchange q] ++ [wq_tape q] ++ wq_pad q.

Definition decode_quote (bs : list byte) : WireQuote :=
  {| wq_symbol := field 0 8 bs; wq_ts_ns := get64 8 bs; wq_seq := get64 16 bs;
     wq_bid_price := getf 24 bs; wq_ask_price := getf 32 bs; wq_bid_size := get64 40 bs;
     wq_ask_size := get64 48 bs; wq_bid_exchange := get8 56 bs;
     wq_ask_exchange := get8 57 bs; wq_tape := get8 58 bs; wq_pad := field 59 5 bs |}.

Record wf_quote (q : WireQuote) : Prop := {
  wfq_symbol : length (wq_symbol q) = kSymbolLen;
  wfq_ts : is_u64 (wq_ts_ns q);
  wfq_seq : is_u64 (wq_seq q);
  wfq_bid : valid (wq_bid_price q);
  wfq_ask : valid (wq_ask_price q);
  wfq_bsize : is_u64 (wq_bid_size q);
  wfq_asize : is_u64 (wq_ask_size q);
  wfq_pad : length (wq_pad q) = 5%nat
}.

#[export] Instance WireQuote_struct : WireStruct WireQuote :=
  {| sizeof := 64; encode := encode_quote; decode := decode_quote; wf := wf_quote |}.

#[export] Instance WireQuote_ok : WireStructOk WireQuote.
Proof.
  split; cbn [sizeof encode decode wf WireQuote_struct].
  - intros a []. unfold encode_quote, kSymbolLen in *. len.
  - intros [] rest []. unfold encode_quote, decode_quote, kSymbolLen in *; struct_proj.
    rewrite <- !app_assoc. f_equal; wire_simp; done.
  - intros bs Hl. split; cbn; auto using getf_valid; rewrite ?length_field by lia; try done;
      apply get64_is; lia.
Qed.

(** ** binary_format.h: header, tagged union, bounds-checked view *)

Definition kMagic : Z := 0x564C484F.
Definition kVersion : Z := 2.

Record FileHeader := mkFileHeader {
  fh_magic : Z;
  fh_version : Z;
  fh_record_count : Z
}.

Inductive RecordType := Trade | Bar | Quote.

Definition RecordType_u8 (t : RecordType) : Z :=
  match t with Trade => 0 | Bar => 1 | Quote => 2 end.

(** The union [Body] is 80 bytes of storage, the size of its largest member;
    reading a member decodes the leading bytes whatever member was written. *)
Record WireRecord := mkWireRecord {
  wr_type : Z;
  wr_pad : list byte;
  wr_body : list byte
}.

(** [WireRecord{}]: all bytes zero. *)
Definition zero_record : WireRecord :=
  mkWireRecord 0 (replicate 7 Init.Byte.x00) (replicate 80 Init.Byte.x00).

Definition body_trade (r : WireRecord) : WireTrade := decode (wr_body r).
Definition body_bar (r : WireRecord) : WireBar := decode (wr_body r).
Definition body_quote (r : WireRecord) : WireQuote := decode (wr_body r).

Definition encode_header (h : FileHeader) : list byte :=
  le_bytes 4 (fh_magic h) ++ le_bytes 4 (fh_version h) ++ enc64 (fh_record_count h).

Definition decode_header (bs : list byte) : FileHeader :=
  {| fh_magic := le_val (field 0 4 bs); fh_version := le_val (field 4 4 bs);
     fh_record_count := get64 8 bs |}.

Record wf_header (h : FileHeader) : Prop := {
  wfh_magic : is_u32 (fh_magic h);
  wfh_version : is_u32 (fh_version h);
  wfh_count : is_u64 (fh_record_count h)
}.

#[export] Instance FileHeader_struct : WireStruct FileHeader :=
  {| sizeof := 16; encode := encode_header; decode := decode_header; wf := wf_header |}.

Lemma le_val_u32 z : is_u32 z → le_val (le_bytes 4 z) = z.
Proof. intros. rewrite le_val_bytes. by apply Z.mod_small. Qed.

Lemma le_val_field4_is off bs : (off + 4 <= length bs)%nat → is_u32 (le_val (field off 4 bs)).
Proof.
  intros Hl. pose proof (le_val_range (field off 4 bs)) as Hr.
  rewrite length_field in Hr by lia. done.
Qed.

#[export] Instance FileHeader_ok : WireStructOk FileHeader.
Proof.
  split; cbn [sizeof encode decode wf FileHeader_struct].
  - intros a _. unfold encode_header. len.
  - intros [m v c] rest []. unfold encode_header, decode_header.
    cbn [fh_magic fh_version fh_record_count] in *. rewrite <- !app_assoc.
    f_equal; wire_simp; rewrite ?le_val_u32 by done; done.
  - intros bs Hl. split; [apply le_val_field4_is; lia..|apply get64_is; lia].
Qed.

Definition encode_record (r : WireRecord) : list byte :=
  [byte_of_Z (wr_type r)] ++ wr_pad r ++ wr_body r.

Definition decode_record (bs : list byte) : WireRecord :=
  {| wr_type := Z_of_byte (get8 0 bs); wr_pad := field 1 7 bs; wr_body := field 8 80 bs |}.

Record wf_record (r : WireRecord) : Prop := {
  wfr_type : 0 <= wr_type r < 256;
  wfr_pad : length (wr_pad r) = 7%nat;
  wfr_body : length (wr_body r) = 80%nat
}.

#[export] Instance WireRecord_struct : WireStruct WireRecord :=
  {| sizeof := 88; encode := encode_record; decode := decode_record; wf := wf_record |}.

#[export] Instance WireRecord_ok : WireStructOk WireRecord.
Proof.
  split; cbn [sizeof encode decode wf WireRecord_struct].
  - intros a []. unfold encode_record. len.
  - intros [t p b] rest []. unfold encode_record, decode_record.
    cbn [wr_type wr_pad wr_body] in *. rewrite <- !app_assoc. f_equal; wire_simp; try done.
    rewrite Z_of_byte_of_Z. by apply Z.mod_small.
  - intros bs Hl. split; cbn; [apply Z_of_byte_range|rewrite length_field; lia..].
Qed.

(** [ReplayView]: the record pointer is an offset into the mapping, [None] for
    the null pointer, and [error] the message or null. *)
Record ReplayView := mkReplayView {
  rv_records : option nat;
  rv_count : Z;
  rv_error : option string
}.

Definition err_header : string := "truncated header (file smaller than 16 bytes)".
Definition err_magic : string := "bad magic: not a replay file".
Definition err_version : string := "unsupported format version (reader supports v2)".
Definition err_count : string := "record_count exceeds file size (truncated or corrupt)".

Definition replay_error (e : string) : ReplayView :=
  {| rv_records := None; rv_count := 0; rv_error := Some e |}.

(** [base] is [None] for [nullptr], otherwise the mapped bytes; [size] is the
    [size_t] the caller passes with it. *)
Definition view_replay (base : option (list byte)) (size : Z) : ReplayView :=
  match base with
  | None => replay_error err_header
  | Some mem =>
      if size <? Z.of_nat (sizeof FileHeader) then replay_error err_header
      else
        let hdr : FileHeader := decode mem in
        if negb (fh_magic hdr =? kMagic) then replay_error err_magic
        else if negb (fh_version hdr =? kVersion) then replay_error err_version
        else if (size -u Z.of_nat (sizeof FileHeader)) / Z.of_nat (sizeof WireRecord)
                  <? fh_record_count hdr
        then replay_error err_count
        else {| rv_records := Some (sizeof FileHeader);
                rv_count := fh_record_count hdr; rv_error := None |}
  end.

(** [records[i]]: the load a reader performs through the view; [None] is a load
    outside the mapping. *)
Definition load_record (mem : list byte) (base : nat) (i : Z) : option WireRecord :=
  let off := (base + sizeof WireRecord * Z.to_nat i)%nat in
  if (off + sizeof WireRecord <=? length mem)%nat
  then Some (decode (field off (sizeof WireRecord) mem)) else None.

(** ** feed_protocol.h *)

Inductive Line := LineA | LineB.

Definition Line_u8 (l : Line) : Z := match l with LineA => 0 | LineB => 1 end.

Record FeedPacket := mkFeedPacket {
  fp_seq : Z;
  fp_line : Z;
  fp_pad : list byte;
  fp_record : WireRecord
}.

Definition encode_packet (p : FeedPacket) : list byte :=
  enc64 (fp_seq p) ++ [byte_of_Z (fp_line p)] ++ fp_pad p ++ encode (fp_record p).

Definition decode_packet (bs : list byte) : FeedPacket :=
  {| fp_seq := get64 0 bs; fp_line := Z_of_byte (get8 8 bs); fp_pad := field 9 7 bs;
     fp_record := decode (field 16 88 bs) |}.

Record wf_packet (p : FeedPacket) : Prop := {
  wfp_seq : is_u64 (fp_seq p);
  wfp_line : 0 <= fp_line p < 256;
  wfp_pad : length (fp_pad p) = 7%nat;
  wfp_record : wf (fp_record p)
}.

#[export] Instance FeedPacket_struct : WireStruct FeedPacket :=
  {| sizeof := 104; encode := encode_packet; decode := decode_packet; wf := wf_packet |}.

#[export] Instance FeedPacket_ok : WireStructOk FeedPacket.
Proof.
  split; cbn [sizeof encode decode wf FeedPacket_struct].
  - intros a [? ? ? Hr]. unfold encode_packet. pose proof (length_encode _ Hr) as Hl.
    cbn [sizeof WireRecord_struct] in Hl. autorewrite with len. rewrite Hl. simpl. lia.
  - intros [s l p r] rest [? ? ? Hr]. unfold encode_packet, decode_packet.
    cbn [fp_seq fp_line fp_pad fp_record] in *. rewrite <- !app_assoc.
    pose proof (length_encode _ Hr) as Hl. cbn [sizeof WireRecord_struct] in Hl.
    f_equal; wire_simp; try done.
    + rewrite Z_of_byte_of_Z. by apply Z.mod_small.
    + rewrite <- (app_nil_r (encode r)). by apply decode_encode_app.
  - intros bs Hl. split; cbn [decode_packet fp_seq fp_line fp_pad fp_record].
    + apply get64_is. lia.
    + apply Z_of_byte_range.
    + rewrite length_field; lia.
    + apply (decode_wf (A := WireRecord)). rewrite length_field; cbn; lia.
Qed.
