(* ===== verification/Replay.v ===== *)
(** * Replay files: writing a capture and mapping it back

    Models [src/src/replay/capture_writer.h] (the [CaptureWriter] class over a
    file stream that may fail at any write) and [src/src/replay/mapped_file.h]
    (the RAII mapping), and proves what [view_replay] of
    [src/src/replay/binary_format.h] guarantees to the readers of such a file. *)

From stdpp Require Import base numbers list strings.
From Stdlib Require Import ZArith Lia.
From S2P Require Import Prelude Float64 Wire.

Local Open Scope Z_scope.

(** ** The file stream

    [std::ofstream] as the program uses it: a state bit, the file's bytes and
    the put position.  The outcome of each write is the environment's: [None]
    writes everything, [Some k] writes only [k] bytes and sets the error bit. *)

Definition io := option nat.

Record ofstream := mkOfstream {
  os_good : bool;
  os_data : list byte;
  os_pos : nat
}.

Definition write_at (pos : nat) (bs data : list byte) : list byte :=
  take pos data ++ bs ++ drop (pos + length bs) data.

Definition os_write (o : io) (bs : list byte) (f : ofstream) : ofstream :=
  if os_good f then
    let bs' := match o with None => bs | Some k => take k bs end in
    {| os_good := match o with None => true | Some _ => false end;
       os_data := write_at (os_pos f) bs' (os_data f);
       os_pos := os_pos f + length bs' |}
  else f.

Definition os_seekp (pos : nat) (f : ofstream) : ofstream :=
  if os_good f then {| os_good := true; os_data := os_data f; os_pos := pos |} else f.

(** ** CaptureWriter *)

Record CaptureWriter := mkCaptureWriter {
  cw_out : ofstream;
  cw_count : Z;
  cw_finalized : bool
}.

Definition header_with (count : Z) : FileHeader := mkFileHeader kMagic kVersion count.

(** The constructor: [opened] tells whether the file could be opened. *)
Definition CaptureWriter_ctor (opened : bool) (o : io) : CaptureWriter :=
  let out := {| os_good := opened; os_data := []; os_pos := 0 |} in
  {| cw_out := if os_good out then os_write o (encode (header_with 0)) out else out;
     cw_count := 0; cw_finalized := false |}.

Definition cw_ok (w : CaptureWriter) : bool := os_good (cw_out w).

Definition cw_write (o : io) (rec : WireRecord) (w : CaptureWriter) : CaptureWriter :=
  if negb (os_good (cw_out w)) then w
  else {| cw_out := os_write o (encode rec) (cw_out w);
          cw_count := cw_count w +u 1; cw_finalized := cw_finalized w |}.

Definition cw_finalize (o : io) (w : CaptureWriter) : CaptureWriter :=
  if negb (os_good (cw_out w)) || cw_finalized w then w
  else {| cw_out := os_write o (encode (header_with (cw_count w))) (os_seekp 0 (cw_out w));
          cw_count := cw_count w; cw_finalized := true |}.

(** A capture session: construct, write the records with the outcomes the
    environment chose, then finalize; the destructor finalizes again. *)
Fixpoint cw_writes (ws : list (io * WireRecord)) (w : CaptureWriter) : CaptureWriter :=
  match ws with
  | [] => w
  | (o, r) :: ws' => cw_writes ws' (cw_write o r w)
  end.

Definition capture_session (opened : bool) (o1 : io) (ws : list (io * WireRecord))
    (o2 o3 : io) : list byte :=
  os_data (cw_out (cw_finalize o3 (cw_finalize o2
    (cw_writes ws (CaptureWriter_ctor opened o1))))).

(** Every write of the session succeeds. *)
Definition all_ok (rs : list WireRecord) : list (io * WireRecord) := (λ r, (None, r)) <$> rs.

(** ** MappedFile *)

(** The system calls of the constructor and destructor, and the table of open
    descriptors they act on. *)
Record Sys := mkSys {
  sys_open : string → Z;                         (* the descriptor, or negative *)
  sys_fstat : Z → option Z;                      (* st_size *)
  sys_mmap : Z → Z → option (list byte)          (* size, fd *)
}.

Record OS := mkOS { open_fds : list Z; mapped : Z }.

Record MappedFile := mkMappedFile {
  mf_base : option (list byte);
  mf_size : Z;
  mf_fd : Z
}.

Definition sys_close (fd : Z) (w : OS) : OS :=
  {| open_fds := List.remove Z.eq_dec fd (open_fds w); mapped := mapped w |}.

Definition MappedFile_ctor (sys : Sys) (path : string) (w : OS) : MappedFile * OS :=
  let fd := sys_open sys path in
  if fd <? 0 then (mkMappedFile None 0 fd, w)
  else
    let w1 := {| open_fds := fd :: open_fds w; mapped := mapped w |} in
    match sys_fstat sys fd with
    | None => (mkMappedFile None 0 (-1), sys_close fd w1)
    | Some st_size =>
        let size := u64 st_size in
        match sys_mmap sys size fd with
        | None => (mkMappedFile None size (-1), sys_close fd w1)
        | Some mem =>
            (mkMappedFile (Some mem) size fd,
             {| open_fds := open_fds w1; mapped := mapped w1 + 1 |})
        end
    end.

Definition MappedFile_dtor (m : MappedFile) (w : OS) : OS :=
  let w1 := match mf_base m with
            | Some _ => {| open_fds := open_fds w; mapped := mapped w - 1 |}
            | None => w
            end in
  if 0 <=? mf_fd m then sys_close (mf_fd m) w1 else w1.

(** ** What [view_replay] promises its readers *)

Lemma wf_header_with n : is_u64 n → wf (header_with n).
Proof. intros. split; cbn; try done; unfold is_u32, kMagic, kVersion; lia. Qed.

Lemma count_division size n :
  16 <= size < 2 ^ 64 → ((size -u 16) / 88 <? n) = false ↔ 88 * n + 16 <= size.
Proof.
  intros. u64_norm. rewrite Z.ltb_ge. split; intros.
  - pose proof (Z.mul_div_le (size - 16) 88). lia.
  - apply Z.div_le_lower_bound; lia.
Qed.

(** The view is usable exactly when the header is sound and every record it
    announces lies inside the mapping. *)
Lemma view_replay_usable mem size :
  0 <= size < 2 ^ 64 →
  let h : FileHeader := decode mem in
  rv_error (view_replay (Some mem) size) = None ↔
  16 <= size ∧ fh_magic h = kMagic ∧ fh_version h = kVersion ∧
  88 * fh_record_count h + 16 <= size.
Proof.
  intros Hs h. unfold view_replay. fold h. cbn [sizeof FileHeader_struct WireRecord_struct].
  change (Z.of_nat 16) with 16. change (Z.of_nat 88) with 88.
  destruct (Z.ltb_spec size 16); [cbn; split; [done|lia]|].
  destruct (Z.eqb_spec (fh_magic h) kMagic); cbn [negb]; [|cbn; split; [done|tauto]].
  destruct (Z.eqb_spec (fh_version h) kVersion); cbn [negb]; [|cbn; split; [done|tauto]].
  destruct ((size -u 16) / 88 <? fh_record_count h) eqn:E.
  - split; [done|]. intros (_&_&_&Hc). apply count_division in Hc; [congruence|lia].
  - split; [|done]. intros _. apply count_division in E; [tauto|lia].
Qed.

Lemma view_replay_records mem size :
  let v := view_replay (Some mem) size in
  rv_error v = None →
  rv_records v = Some 16%nat ∧ rv_count v = fh_record_count (decode mem : FileHeader).
Proof. cbn zeta. unfold view_replay. by repeat case_match. Qed.

Lemma view_replay_null base size :
  let v := view_replay base size in
  rv_error v = None ∨ (rv_records v = None ∧ rv_count v = 0).
Proof. cbn zeta. unfold view_replay. repeat case_match; auto. Qed.

Lemma load_record_inside mem base i :
  0 <= i → Z.of_nat base + 88 * (i + 1) <= Z.of_nat (length mem) →
  load_record mem base i =
    Some (decode (field (base + 88 * Z.to_nat i) 88 mem)).
Proof.
  intros. unfold load_record. cbn [sizeof WireRecord_struct].
  destruct (Nat.leb_spec (base + 88 * Z.to_nat i + 88) (length mem)); [done|lia].
Qed.

(** The image of a header followed by complete records. *)
Definition records_image (rs : list WireRecord) : list byte := concat (encode <$> rs).

Lemma length_records_image rs :
  Forall wf rs → length (records_image rs) = (88 * length rs)%nat.
Proof.
  induction 1 as [|r rs Hr _ IH]; [done|]. unfold records_image in *. cbn [fmap list_fmap concat].
  rewrite length_app, IH, (length_encode r Hr). cbn [length sizeof WireRecord_struct]. lia.
Qed.

Lemma records_image_field rs i r rest :
  Forall wf rs → rs !! i = Some r →
  field (88 * i) 88 (records_image rs ++ rest) = encode r.
Proof.
  intros Hwf. revert i. induction Hwf as [|r' rs Hr Hrs IH]; intros i Hi; [done|].
  pose proof (length_encode r' Hr) as Hl. cbn [sizeof WireRecord_struct] in Hl.
  unfold records_image in *. cbn [fmap list_fmap concat]. rewrite <- app_assoc.
  destruct i as [|i]; [injection Hi as ->|change (rs !! i = Some r) in Hi].
  - by apply field_here.
  - rewrite field_skip by lia. rewrite Hl. replace (_ - 88)%nat with (88 * i)%nat by lia.
    by apply IH.
Qed.

Lemma load_record_image h rs i rest :
  length h = 16%nat → Forall wf rs → 0 <= i < Z.of_nat (length rs) →
  load_record (h ++ records_image rs ++ rest) 16 i = rs !! Z.to_nat i.
Proof.
  intros Hh Hwf Hi. destruct (lookup_lt_is_Some_2 rs (Z.to_nat i)) as [r Hr]; [lia|].
  pose proof (length_records_image rs Hwf) as Hl.
  rewrite load_record_inside; [|lia|rewrite !length_app; lia].
  rewrite Hr, field_skip by lia. rewrite Hh.
  replace (16 + 88 * Z.to_nat i - 16)%nat with (88 * Z.to_nat i)%nat by lia.
  rewrite (records_image_field rs _ r) by done.
  f_equal. rewrite <- (app_nil_r (encode r)). apply decode_encode_app.
  by apply (Forall_lookup_1 _ _ _ _ Hwf Hr).
Qed.

(** The view of a header that announces [n] records over a body long enough. *)
Lemma view_replay_image n body :
  is_u64 n → 88 * n <= Z.of_nat (length body) →
  Z.of_nat (length body) + 16 < 2 ^ 64 →
  view_replay (Some (encode (header_with n) ++ body))
    (Z.of_nat (length (encode (header_with n) ++ body))) =
  mkReplayView (Some 16%nat) n None.
Proof.
  intros Hn Hb Hlt. pose proof (wf_header_with n Hn) as Hwf.
  pose proof (length_encode _ Hwf) as Hl. cbn [sizeof FileHeader_struct] in Hl.
  set (mem := _ ++ body).
  assert (Hd : (decode mem : FileHeader) = header_with n) by by apply decode_encode_app.
  assert (Hs : Z.of_nat (length mem) = 16 + Z.of_nat (length body))
    by (unfold mem; rewrite length_app; lia).
  destruct (view_replay_usable mem (Z.of_nat (length mem)) ltac:(lia)) as [_ Hok].
  rewrite Hd in Hok. cbn [header_with fh_magic fh_version fh_record_count] in Hok.
  specialize (Hok ltac:(repeat split; try lia)).
  destruct (view_replay_records mem (Z.of_nat (length mem)) Hok) as [Hr Hc].
  rewrite Hd in Hc. destruct (view_replay _ _); simpl in *. by subst.
Qed.

(** ** What a capture leaves on disk *)

(** A header that was only partly overwritten announces at most the count that
    was being written: its bytes go out low end first, over zeros. *)
Lemma torn_header n k :
  is_u64 n →
  ∃ n', 0 <= n' <= n ∧
    take k (encode (header_with n)) ++ drop k (encode (header_with 0)) =
    encode (header_with n').
Proof.
  intros Hn. cbn [encode FileHeader_struct]. unfold encode_header.
  cbn [header_with fh_magic fh_version fh_record_count]. rewrite !app_assoc.
  set (mv := le_bytes 4 kMagic ++ le_bytes 4 kVersion).
  assert (Hmv : length mv = 8%nat) by (unfold mv; len).
  destruct (decide (k <= 8)%nat).
  - exists 0. split; [unfold is_u64 in Hn; lia|].
    rewrite take_app_le, drop_app_le, app_assoc, take_drop by lia. done.
  - set (j := (k - 8)%nat). set (bs := take j (enc64 n) ++ drop j (enc64 0)).
    assert (Hbs : enc64 (le_val bs) = bs).
    { unfold enc64 at 1. replace 8%nat with (length bs); [apply le_bytes_val|].
      unfold bs. rewrite length_app, length_take, length_drop, !length_enc64. lia. }
    exists (le_val bs). rewrite take_app_ge, drop_app_ge, Hmv by lia. fold j. split.
    + unfold bs. rewrite le_val_app. change (enc64 0) with (le_bytes 8 0).
      rewrite le_val_drop_zero.
      pose proof (le_val_app (take j (enc64 n)) (drop j (enc64 n))) as Happ.
      rewrite take_drop, (le_val_enc64 n Hn) in Happ.
      pose proof (le_val_range (take j (enc64 n))).
      pose proof (le_val_range (drop j (enc64 n))). nia.
    + rewrite Hbs. unfold bs. by rewrite <- app_assoc.
Qed.

Definition header0 : list byte := encode (header_with 0).

Lemma length_header n : length (encode (header_with n)) = 16%nat.
Proof. cbn [encode FileHeader_struct]. unfold encode_header. len. Qed.

(** The writer's invariant before [finalize]: while the stream is good the file
    is the placeholder header and exactly the records written so far; once it
    has failed the header on disk still announces no record. *)
Definition cw_inv (done : list WireRecord) (w : CaptureWriter) : Prop :=
  cw_finalized w = false ∧
  let f := cw_out w in
  if os_good f
  then os_data f = header0 ++ records_image done ∧ os_pos f = length (os_data f) ∧
       cw_count w = Z.of_nat (length done)
  else (length (os_data f) < 16)%nat ∨ ∃ tail, os_data f = header0 ++ tail.

Lemma write_at_end bs data : write_at (length data) bs data = data ++ bs.
Proof. unfold write_at. rewrite firstn_all, drop_ge by lia. by rewrite app_nil_r. Qed.

Lemma ctor_inv opened o : cw_inv [] (CaptureWriter_ctor opened o).
Proof.
  split; [done|]. destruct opened; [|left; simpl; lia].
  unfold CaptureWriter_ctor, os_write. cbn [os_good os_data os_pos cw_out].
  change (encode (header_with 0)) with header0. change 0%nat with (length (@nil byte)).
  rewrite write_at_end. pose proof (length_header 0) as Hl. fold header0 in Hl.
  destruct o as [k|]; cbn [os_good].
  - destruct (decide (k < 16)%nat).
    + left. cbn [app os_data]. rewrite length_take. lia.
    + right. exists []. cbn [app os_data]. rewrite take_ge by lia. by rewrite app_nil_r.
  - unfold records_image. cbn [os_data os_pos app fmap list_fmap concat]. by rewrite app_nil_r.
Qed.

Lemma records_image_snoc rs r : records_image (rs ++ [r]) = records_image rs ++ encode r.
Proof.
  unfold records_image. rewrite fmap_app, concat_app. cbn [fmap list_fmap concat].
  by rewrite app_nil_r.
Qed.

Lemma cw_write_inv o r done w :
  Z.of_nat (length done) + 1 < 2 ^ 64 → cw_inv done w →
  cw_inv (if os_good (cw_out w) then done ++ [r] else done) (cw_write o r w).
Proof.
  intros Hn [Hf H]. cbn zeta in H. unfold cw_write.
  destruct (os_good (cw_out w)) eqn:Hg; cbn [negb].
  2: { split; [done|]. cbn zeta. by rewrite Hg. }
  split; [done|]. cbn [cw_out cw_count]. unfold os_write. rewrite Hg.
  destruct H as (Hd&Hp&Hc). rewrite Hp, write_at_end, Hd.
  destruct o as [k|]; cbn [os_good os_data os_pos].
  - right. eexists. rewrite <- app_assoc. done.
  - rewrite records_image_snoc, Hc. split; [by rewrite <- app_assoc|]. split.
    + rewrite !length_app. lia.
    + rewrite length_app. cbn [length]. u64_norm. lia.
Qed.

Lemma cw_write_good o r w : os_good (cw_out (cw_write o r w)) = true → os_good (cw_out w) = true.
Proof. unfold cw_write. destruct (os_good (cw_out w)) eqn:E; cbn [negb]; congruence. Qed.

Lemma cw_writes_good ws w :
  os_good (cw_out (cw_writes ws w)) = true → os_good (cw_out w) = true.
Proof.
  revert w. induction ws as [|[o r] ws IH]; intros w; [done|].
  cbn [cw_writes]. intros H%IH. by eapply cw_write_good.
Qed.

Lemma cw_writes_inv ws done w :
  Z.of_nat (length done + length ws) < 2 ^ 64 → cw_inv done w →
  ∃ done', cw_inv done' (cw_writes ws w) ∧
    (os_good (cw_out (cw_writes ws w)) = true → done' = done ++ ws.*2).
Proof.
  revert done w. induction ws as [|[o r] ws IH]; intros done w Hn Hi.
  { exists done. split; [done|]. by rewrite app_nil_r. }
  cbn [cw_writes length] in *.
  pose proof (cw_write_inv o r done w ltac:(lia) Hi) as Hw. apply IH in Hw as (d&Hd&Heq).
  2: { destruct (os_good (cw_out w)); rewrite ?length_app; cbn [length]; lia. }
  exists d. split; [done|]. intros Hg. rewrite (Heq Hg).
  apply cw_writes_good, cw_write_good in Hg. rewrite Hg, <- app_assoc. done.
Qed.

Lemma finalize_twice o o' w : cw_finalize o' (cw_finalize o w) = cw_finalize o w.
Proof.
  unfold cw_finalize at 2 3. destruct (os_good (cw_out w)) eqn:Hg, (cw_finalized w) eqn:Hf;
    cbn [negb orb]; unfold cw_finalize; rewrite ?Hg, ?Hf; cbn [negb orb cw_finalized];
    try done. by rewrite orb_true_r.
Qed.

(** The file a session leaves: nothing readable, or a header announcing at most
    the records that are all completely on disk. *)
Lemma capture_session_image opened o1 ws o2 o3 :
  Z.of_nat (length ws) < 2 ^ 64 →
  let data := capture_session opened o1 ws o2 o3 in
  (length data < 16)%nat ∨ (∃ tail, data = header0 ++ tail) ∨
  ∃ n, 0 <= n <= Z.of_nat (length ws) ∧
       data = encode (header_with n) ++ records_image ws.*2.
Proof.
  intros Hn data. subst data. unfold capture_session. rewrite finalize_twice.
  destruct (cw_writes_inv ws [] _ Hn (ctor_inv opened o1)) as (done&[Hf Hi]&Hd).
  set (w := cw_writes ws _) in *. unfold cw_finalize. rewrite Hf, orb_false_r.
  cbn zeta in Hi. destruct (os_good (cw_out w)) eqn:Hg; cbn [negb]; [|tauto].
  rewrite (Hd eq_refl) in *. destruct Hi as (Hdata&_&Hc). right; right.
  cbn [cw_out app] in *. unfold os_write, os_seekp. rewrite Hg. cbn [os_good os_data os_pos].
  rewrite Hc, length_fmap in *. unfold write_at. rewrite Hdata, take_0. cbn [app Nat.add].
  set (n := Z.of_nat (length ws)) in *. assert (is_u64 n) by (unfold is_u64; lia).
  assert (Hsplit : ∀ k, (k <= 16)%nat →
    drop k (header0 ++ records_image ws.*2) = drop k header0 ++ records_image ws.*2).
  { intros k Hk. apply drop_app_le. unfold header0. rewrite length_header. lia. }
  destruct o2 as [k|].
  - destruct (torn_header n k) as (n'&Hn'&Heq); [done|]. exists n'. split; [done|].
    rewrite length_take, length_header, Hsplit, app_assoc by lia. f_equal.
    rewrite <- Heq. change (encode (header_with 0)) with header0.
    destruct (decide (k <= 16)%nat); [by rewrite Nat.min_l|]. rewrite Nat.min_r by lia.
    rewrite !(drop_ge header0); [done|unfold header0; rewrite length_header; lia..].
  - exists n. split; [lia|]. rewrite length_header, Hsplit by lia.
    rewrite (drop_ge header0) by (unfold header0; rewrite length_header; lia). done.
Qed.

Lemma cw_writes_all_good rs w :
  os_good (cw_out w) = true → os_good (cw_out (cw_writes (all_ok rs) w)) = true.
Proof.
  revert w. induction rs as [|r rs IH]; intros w Hg; [done|]. cbn [fmap list_fmap cw_writes].
  apply IH. unfold cw_write. rewrite Hg. cbn [negb cw_out]. unfold os_write. by rewrite Hg.
Qed.

(** With no failed write the session leaves the complete image. *)
Lemma capture_success rs :
  Z.of_nat (length rs) < 2 ^ 64 →
  capture_session true None (all_ok rs) None None =
    encode (header_with (Z.of_nat (length rs))) ++ records_image rs.
Proof.
  intros Hn. set (ws := all_ok rs).
  assert (Hl : length ws = length rs) by apply length_fmap.
  assert (Hws : ws.*2 = rs) by (unfold ws, all_ok; rewrite <- list_fmap_compose; apply list_fmap_id).
  destruct (cw_writes_inv ws [] (CaptureWriter_ctor true None) ltac:(cbn [length]; lia)
              (ctor_inv true None))
    as (done&[Hf Hi]&Hd).
  pose proof (cw_writes_all_good rs (CaptureWriter_ctor true None) eq_refl) as Hg. fold ws in Hg.
  rewrite (Hd Hg), Hws in *. cbn zeta in Hi. rewrite Hg in Hi. destruct Hi as (Hdata&_&Hc).
  unfold capture_session. rewrite finalize_twice. unfold cw_finalize. rewrite Hf, Hg.
  cbn [negb orb cw_out app] in *. unfold os_write, os_seekp. rewrite Hg.
  cbn [os_good os_data os_pos]. unfold write_at. rewrite Hdata, Hc, take_0. cbn [app Nat.add].
  rewrite drop_app_ge; unfold header0; rewrite !length_header; [|lia].
  by rewrite Nat.sub_diag, drop_0.
Qed.

(** ** Properties *)

(** C39: every load a reader can make through an accepted view is inside the
    mapping, whatever bytes the file holds (a hostile or truncated
    [record_count] included); a rejected view exposes no record at all. *)
Theorem view_replay_in_bounds (mem : list byte) (i : Z) :
  Z.of_nat (length mem) < 2 ^ 64 →
  let v := view_replay (Some mem) (Z.of_nat (length mem)) in
  0 <= i < rv_count v →
  ∃ base, rv_records v = Some base ∧ rv_error v = None ∧ is_Some (load_record mem base i).
Proof.
  intros Hlt v Hi. destruct (view_replay_null (Some mem) (Z.of_nat (length mem)))
    as [Hok|[_ H0]]; [|unfold v in Hi; lia].
  destruct (view_replay_records mem _ Hok) as [Hr Hc]. fold v in Hr, Hc.
  exists 16%nat. split; [done|]. split; [done|].
  apply view_replay_usable in Hok as (_&_&_&Hbound); [|lia].
  rewrite load_record_inside; [eauto|lia|]. rewrite Hc in Hi. lia.
Qed.

(** A one-record file used by the witnesses. *)
Definition one_record_file : list byte := encode (header_with 1) ++ encode zero_record.

Lemma view_replay_in_bounds_witness :
  ∃ base, rv_records (view_replay (Some one_record_file) (Z.of_nat (length one_record_file)))
            = Some base ∧
    rv_error (view_replay (Some one_record_file) (Z.of_nat (length one_record_file))) = None ∧
    is_Some (load_record one_record_file base 0).
Proof. apply (view_replay_in_bounds one_record_file 0); vm_compute; [done|split; done]. Defined.

Lemma capture_reads_back (rs : list WireRecord) :
  Forall wf rs → 88 * Z.of_nat (length rs) + 16 < 2 ^ 64 →
  let data := capture_session true None (all_ok rs) None None in
  view_replay (Some data) (Z.of_nat (length data)) =
    mkReplayView (Some 16%nat) (Z.of_nat (length rs)) None ∧
  ∀ i, 0 <= i < Z.of_nat (length rs) → load_record data 16 i = rs !! Z.to_nat i.
Proof.
  intros Hwf Hlt data.
  assert (Hdata : data = encode (header_with (Z.of_nat (length rs))) ++ records_image rs).
  { apply capture_success. lia. }
  rewrite Hdata. pose proof (length_records_image rs Hwf). split.
  - apply view_replay_image; unfold is_u64; lia.
  - intros i Hi. rewrite <- (app_nil_r (records_image rs)).
    apply load_record_image; [apply length_header|done|done].
Qed.

(** when no write fails, the records read back through [view_replay] from a
    finalized capture are exactly the records written, in order, and their
    number is the header's [record_count]. *)
Theorem capture_roundtrip (rs : list WireRecord) :
  Forall wf rs → 88 * Z.of_nat (length rs) + 16 < 2 ^ 64 →
  let data := capture_session true None (all_ok rs) None None in
  view_replay (Some data) (Z.of_nat (length data)) =
    mkReplayView (Some 16%nat) (Z.of_nat (length rs)) None ∧
  ∀ i, 0 <= i < Z.of_nat (length rs) → load_record data 16 i = rs !! Z.to_nat i.
Proof. apply capture_reads_back. Qed.

Lemma capture_roundtrip_witness :
  let data := capture_session true None (all_ok [zero_record]) None None in
  view_replay (Some data) (Z.of_nat (length data)) = mkReplayView (Some 16%nat) 1 None ∧
  ∀ i, 0 <= i < 1 → load_record data 16 i = [zero_record] !! Z.to_nat i.
Proof.
  apply (capture_roundtrip [zero_record]); [|vm_compute; done].
  repeat constructor; vm_compute; done.
Defined.

(** C29: whatever write fails (the constructor's, a record's, or the header patch
    of [finalize], which may be torn at any byte), a reader of the file left
    behind never sees a record that was not completely written: each record the
    view exposes is the one the session wrote at that index. *)
Theorem capture_never_exposes_partial (opened : bool) (o1 : io) (ws : list (io * WireRecord))
    (o2 o3 : io) (i : Z) :
  Forall wf ws.*2 →
  let data := capture_session opened o1 ws o2 o3 in
  Z.of_nat (length data) < 2 ^ 64 → Z.of_nat (length ws) < 2 ^ 64 →
  0 <= i < rv_count (view_replay (Some data) (Z.of_nat (length data))) →
  load_record data 16 i = ws.*2 !! Z.to_nat i.
Proof.
  intros Hwf data Hsize Hlen Hi.
  destruct (capture_session_image opened o1 ws o2 o3 Hlen) as [Hs|[[tail Ht]|(n&Hn&Heq)]];
    fold data in Hs || fold data in Ht || fold data in Heq.
  - destruct (view_replay_null (Some data) (Z.of_nat (length data))) as [Hok|[_ H0]]; [|lia].
    apply view_replay_usable in Hok; lia.
  - rewrite Ht in Hi, Hsize. unfold header0 in Hi, Hsize. rewrite length_app, length_header in Hsize.
    rewrite view_replay_image in Hi; unfold is_u64; cbn [rv_count] in *; lia.
  - pose proof (length_records_image _ Hwf) as Hl. rewrite length_fmap in Hl.
    rewrite Heq in Hi, Hsize. rewrite length_app, length_header in Hsize.
    rewrite view_replay_image in Hi by (unfold is_u64; lia). cbn [rv_count] in Hi.
    rewrite Heq, <- (app_nil_r (records_image _)).
    apply load_record_image; [apply length_header|done|rewrite length_fmap; lia].
Qed.

(** The header patch is torn after nine bytes: one of the two records shows. *)
Lemma capture_never_exposes_partial_witness :
  load_record (capture_session true None [(None, zero_record); (None, zero_record)] (Some 9%nat) None)
    16 0 = Some zero_record.
Proof.
  apply (capture_never_exposes_partial true None
           [(None, zero_record); (None, zero_record)] (Some 9%nat) None 0).
  - repeat constructor; vm_compute; done.
  - vm_compute; done.
  - vm_compute; done.
  - vm_compute; split; done.
Defined.

(** on every path through the constructor (open, fstat or mmap failing, or
    all succeeding), destroying the [MappedFile] leaves the table of open
    descriptors and the number of mappings as they were: no descriptor leaks and
    none is closed twice. *)
Theorem mapped_file_no_leak (sys : Sys) (path : string) (w : OS) :
  ~ In (sys_open sys path) (open_fds w) →
  let '(m, w') := MappedFile_ctor sys path w in
  MappedFile_dtor m w' = w ∧
  (mf_base m = None → open_fds w' = open_fds w ∧ mapped w' = mapped w).
Proof.
  intros Hfresh. unfold MappedFile_ctor, MappedFile_dtor, sys_close. destruct w as [fds n].
  cbn [open_fds mapped] in *. set (fd := sys_open sys path) in *.
  assert (Hrem : List.remove Z.eq_dec fd (fd :: fds) = fds).
  { cbn. destruct (Z.eq_dec fd fd) as [_|]; [|done]. by apply notin_remove. }
  destruct (Z.ltb_spec fd 0).
  { cbn [mf_base mf_fd]. zbool; [lia|]. done. }
  destruct (sys_fstat sys fd) as [sz|].
  2: { cbn [mf_base mf_fd open_fds mapped]. cbn [Z.leb]. rewrite Hrem. done. }
  destruct (sys_mmap sys (u64 sz) fd) as [mem|]; cbn [mf_base mf_fd open_fds mapped].
  - zbool; [|lia]. rewrite Hrem, Z.add_simpl_r. done.
  - rewrite Hrem. done.
Qed.

Lemma mapped_file_no_leak_witness :
  let sys := mkSys (λ _, 7) (λ _, Some 16) (λ _ _, Some header0) in
  MappedFile_dtor (MappedFile_ctor sys "data/replay.bin" (mkOS [3] 0)).1
    (MappedFile_ctor sys "data/replay.bin" (mkOS [3] 0)).2 = mkOS [3] 0.
Proof.
  apply (mapped_file_no_leak (mkSys (λ _, 7) (λ _, Some 16) (λ _ _, Some header0))
           "data/replay.bin" (mkOS [3] 0)).
  vm_compute. intros [H|[]]; discriminate H.
Defined.
