(* ===== verification/Arbitrator.v ===== *)
(** * FeedArbitrator: A/B line arbitration

    Models [src/src/feed/arbitrator.h]: the seq-indexed reorder ring, [offer],
    [flush], [release_prefix] and [advance_frontier], with the calls to the sink
    recorded as the list of [(seq, record)] pairs in call order.  The template
    parameter [Window] is a section variable constrained by the source's
    [static_assert].

    The specification is a machine whose state is the set of accepted messages
    and the frontier; the refinement relation ties the ring to it. *)

From stdpp Require Import base numbers list list_numbers gmap.
From Stdlib Require Import ZArith Lia.
From S2P Require Import Prelude Wire.

Local Open Scope Z_scope.

(** ** Data *)

Definition kMaxGap : Z := Z.shiftl 1 20.

Record ArbStats := mkArbStats {
  st_delivered : Z;
  st_duplicates : Z * Z;
  st_gaps : Z;
  st_max_reorder : Z;
  st_rejected : Z
}.

Record ArbSlot := mkArbSlot {
  slot_occupied : bool;
  slot_seq : Z;
  slot_record : WireRecord
}.

Record FeedArbitrator := mkFeedArbitrator {
  buf_ : list ArbSlot;
  frontier_ : Z;
  occupied_ : Z;
  started_ : bool;
  stats_ : ArbStats
}.

(** The calls made to the sink, in order. *)
Definition sink_log := list (Z * WireRecord).

Definition empty_slot : ArbSlot := mkArbSlot false 0 zero_record.
Definition zero_stats : ArbStats := mkArbStats 0 (0, 0) 0 0 0.

Definition incr_delivered (s : ArbStats) : ArbStats :=
  mkArbStats (st_delivered s +u 1) (st_duplicates s) (st_gaps s) (st_max_reorder s) (st_rejected s).
Definition incr_duplicates (ln : bool) (s : ArbStats) : ArbStats :=
  mkArbStats (st_delivered s)
    (if ln then ((st_duplicates s).1, (st_duplicates s).2 +u 1)
     else ((st_duplicates s).1 +u 1, (st_duplicates s).2))
    (st_gaps s) (st_max_reorder s) (st_rejected s).
Definition incr_gaps (s : ArbStats) : ArbStats :=
  mkArbStats (st_delivered s) (st_duplicates s) (st_gaps s +u 1) (st_max_reorder s) (st_rejected s).
Definition set_max_reorder (d : Z) (s : ArbStats) : ArbStats :=
  mkArbStats (st_delivered s) (st_duplicates s) (st_gaps s) d (st_rejected s).
Definition incr_rejected (s : ArbStats) : ArbStats :=
  mkArbStats (st_delivered s) (st_duplicates s) (st_gaps s) (st_max_reorder s) (st_rejected s +u 1).

Definition with_stats (f : ArbStats → ArbStats) (s : FeedArbitrator) : FeedArbitrator :=
  mkFeedArbitrator (buf_ s) (frontier_ s) (occupied_ s) (started_ s) (f (stats_ s)).
Definition with_frontier (f : Z) (s : FeedArbitrator) : FeedArbitrator :=
  mkFeedArbitrator (buf_ s) f (occupied_ s) (started_ s) (stats_ s).

Section FeedArbitrator.
Context (Window : Z).

(** ** Operations *)

Definition arb_init : FeedArbitrator :=
  mkFeedArbitrator (replicate (Z.to_nat Window) empty_slot) 0 0 false zero_stats.

Definition slot_index (seq : Z) : nat := Z.to_nat (Z.land seq (Window - 1)).

Definition slot_at (s : FeedArbitrator) (seq : Z) : ArbSlot :=
  default empty_slot (buf_ s !! slot_index seq).

(** [f.occupied && f.seq == frontier_] for the frontier's slot. *)
Definition front_ready (s : FeedArbitrator) : bool :=
  slot_occupied (slot_at s (frontier_ s)) && (slot_seq (slot_at s (frontier_ s)) =? frontier_ s).

(** [sink(frontier_, f.record); ++delivered; f.occupied = false; --occupied_]. *)
Definition take_front (s : FeedArbitrator) : FeedArbitrator :=
  let f := slot_at s (frontier_ s) in
  mkFeedArbitrator
    (<[slot_index (frontier_ s) := mkArbSlot false (slot_seq f) (slot_record f)]> (buf_ s))
    (frontier_ s) (occupied_ s -u 1) (started_ s) (incr_delivered (stats_ s)).

(** Each loop takes fuel and answers [None] when it runs out; the fuel given by
    the callers is proved to be enough. *)
Fixpoint release_prefix (fuel : nat) (s : FeedArbitrator) : option (FeedArbitrator * sink_log) :=
  match fuel with
  | O => None
  | S fuel' =>
      if negb (front_ready s) then Some (s, [])
      else
        let call := (frontier_ s, slot_record (slot_at s (frontier_ s))) in
        '(s', log) ← release_prefix fuel' (with_frontier (frontier_ s +u 1) (take_front s));
        Some (s', call :: log)
  end.

Definition release_fuel : nat := S (Z.to_nat Window).

Definition advance_frontier (s : FeedArbitrator) : option (FeedArbitrator * sink_log) :=
  let '(s1, log1) :=
    if front_ready s
    then (take_front s, [(frontier_ s, slot_record (slot_at s (frontier_ s)))])
    else (with_stats incr_gaps s, []) in
  '(s2, log2) ← release_prefix release_fuel (with_frontier (frontier_ s1 +u 1) s1);
  Some (s2, log1 ++ log2).

(** [while (seq - frontier_ >= Window) advance_frontier(sink);] *)
Fixpoint force_frontier (fuel : nat) (seq : Z) (s : FeedArbitrator)
    : option (FeedArbitrator * sink_log) :=
  match fuel with
  | O => None
  | S fuel' =>
      if Window <=? seq -u frontier_ s then
        '(s1, log1) ← advance_frontier s;
        '(s2, log2) ← force_frontier fuel' seq s1;
        Some (s2, log1 ++ log2)
      else Some (s, [])
  end.

Definition store_packet (pkt : FeedPacket) (s : FeedArbitrator) : FeedArbitrator :=
  mkFeedArbitrator
    (<[slot_index (fp_seq pkt) := mkArbSlot true (fp_seq pkt) (fp_record pkt)]> (buf_ s))
    (frontier_ s) (occupied_ s +u 1) (started_ s) (stats_ s).

Definition offer (pkt : FeedPacket) (s : FeedArbitrator) : option (FeedArbitrator * sink_log) :=
  let seq := fp_seq pkt in
  let ln := fp_line pkt =? Line_u8 LineB in
  let s0 := if started_ s then s
            else mkFeedArbitrator (buf_ s) seq (occupied_ s) true (stats_ s) in
  if seq <? frontier_ s0 then Some (with_stats (incr_duplicates ln) s0, [])
  else if kMaxGap <? seq -u frontier_ s0 then Some (with_stats incr_rejected s0, [])
  else
    '(s1, log1) ← force_frontier (S (Z.to_nat (seq -u frontier_ s0))) seq s0;
    let depth := seq -u frontier_ s1 in
    let s2 := if st_max_reorder (stats_ s1) <? depth
              then with_stats (set_max_reorder depth) s1 else s1 in
    let sl := slot_at s2 seq in
    if slot_occupied sl then
      Some (if slot_seq sl =? seq then with_stats (incr_duplicates ln) s2 else s2, log1)
    else
      '(s3, log2) ← release_prefix release_fuel (store_packet pkt s2);
      Some (s3, log1 ++ log2).

(** [while (occupied_ > 0) advance_frontier(sink);] *)
Fixpoint flush_loop (fuel : nat) (s : FeedArbitrator) : option (FeedArbitrator * sink_log) :=
  match fuel with
  | O => None
  | S fuel' =>
      if 0 <? occupied_ s then
        '(s1, log1) ← advance_frontier s;
        '(s2, log2) ← flush_loop fuel' s1;
        Some (s2, log1 ++ log2)
      else Some (s, [])
  end.

Definition flush (s : FeedArbitrator) : option (FeedArbitrator * sink_log) :=
  flush_loop release_fuel s.

(** A session of the handler: a sequence of received packets and flushes. *)
Inductive arb_op := Offer (pkt : FeedPacket) | Flush.

Definition arb_step (o : arb_op) (s : FeedArbitrator) : option (FeedArbitrator * sink_log) :=
  match o with Offer pkt => offer pkt s | Flush => flush s end.

Fixpoint arb_run (ops : list arb_op) (s : FeedArbitrator) : option (FeedArbitrator * sink_log) :=
  match ops with
  | [] => Some (s, [])
  | o :: ops' =>
      '(s1, log1) ← arb_step o s;
      '(s2, log2) ← arb_run ops' s1;
      Some (s2, log1 ++ log2)
  end.

End FeedArbitrator.

(** ** Specification

    The state is the set of accepted messages with their payloads and the
    frontier; [deliver A f g] is the output of moving the frontier from [f] to
    [g]: the accepted messages of [f, g) in sequence order. *)

Definition deliver (A : gmap Z WireRecord) (f g : Z) : sink_log :=
  omap (λ k, (λ r, (k, r)) <$> A !! k) (seqZ f (g - f)).

(** [g] is the first sequence from [f] on that is not accepted. *)
Definition hole (A : gmap Z WireRecord) (f g : Z) : Prop :=
  f <= g ∧ A !! g = None ∧ ∀ k, f <= k < g → is_Some (A !! k).

Record spec_state := mkSpec {
  sp_started : bool;
  sp_frontier : Z;
  sp_accepted : gmap Z WireRecord
}.

Definition spec_init : spec_state := mkSpec false 0 ∅.

(** Anchoring: the first sequence seen starts the session. *)
Definition spec_anchor (seq : Z) (sp : spec_state) : spec_state :=
  if sp_started sp then sp else mkSpec true seq (sp_accepted sp).

Inductive spec_step (Window : Z) : arb_op → spec_state → spec_state → Prop :=
  | spec_late pkt sp sp0 :
      sp0 = spec_anchor (fp_seq pkt) sp →
      fp_seq pkt < sp_frontier sp0 →
      spec_step Window (Offer pkt) sp sp0
  | spec_reject pkt sp sp0 :
      sp0 = spec_anchor (fp_seq pkt) sp →
      kMaxGap < fp_seq pkt - sp_frontier sp0 →
      spec_step Window (Offer pkt) sp sp0
  | spec_duplicate pkt sp sp0 :
      sp0 = spec_anchor (fp_seq pkt) sp →
      sp_frontier sp0 <= fp_seq pkt → is_Some (sp_accepted sp0 !! fp_seq pkt) →
      spec_step Window (Offer pkt) sp sp0
  | spec_accept pkt sp sp0 A' g :
      sp0 = spec_anchor (fp_seq pkt) sp →
      sp_frontier sp0 <= fp_seq pkt → fp_seq pkt - sp_frontier sp0 <= kMaxGap →
      sp_accepted sp0 !! fp_seq pkt = None →
      A' = <[fp_seq pkt := fp_record pkt]> (sp_accepted sp0) →
      hole A' (Z.max (sp_frontier sp0) (fp_seq pkt - Window + 1)) g →
      spec_step Window (Offer pkt) sp (mkSpec true g A')
  | spec_flush sp g :
      sp_frontier sp <= g →
      (∀ k, is_Some (sp_accepted sp !! k) → k < g) →
      (g = sp_frontier sp ∨ is_Some (sp_accepted sp !! (g - 1))) →
      spec_step Window Flush sp (mkSpec (sp_started sp) g (sp_accepted sp)).
