(* ===== verification/ArbitratorProofs.v ===== *)
(** * FeedArbitrator: the ring refines the specification

    The invariant that ties the reorder ring of [Arbitrator.v] to the
    specification state, its preservation by every loop of the code (with the
    fuel proved sufficient), and the properties of whole sessions. *)

From stdpp Require Import base numbers list list_numbers gmap sorting.
From Stdlib Require Import ZArith Lia.
From S2P Require Import Prelude Wire Arbitrator.

Local Open Scope Z_scope.

(** ** The specification's output *)

Lemma u64_add_u64 a b : u64 (u64 a + b) = u64 (a + b).
Proof. unfold u64. apply Zplus_mod_idemp_l. Qed.

Lemma deliver_nil A f : deliver A f f = [].
Proof. unfold deliver. by rewrite Z.sub_diag. Qed.

Lemma deliver_app A f m g :
  f <= m <= g → deliver A f g = deliver A f m ++ deliver A m g.
Proof.
  intros H. unfold deliver. replace (g - f) with ((m - f) + (g - m)) by lia.
  rewrite seqZ_app by lia. rewrite omap_app. by replace (f + (m - f)) with m by lia.
Qed.

Lemma deliver_one A f :
  deliver A f (f + 1) = match A !! f with Some r => [(f, r)] | None => [] end.
Proof.
  unfold deliver. replace (f + 1 - f) with 1 by lia. rewrite seqZ_cons by lia.
  simpl. by destruct (A !! f).
Qed.

Lemma deliver_cons A f g r :
  f < g → A !! f = Some r → deliver A f g = (f, r) :: deliver A (f + 1) g.
Proof. intros. rewrite (deliver_app A f (f + 1) g), deliver_one by lia. by simplify_map_eq. Qed.

Lemma deliver_skip A f g :
  f < g → A !! f = None → deliver A f g = deliver A (f + 1) g.
Proof. intros. rewrite (deliver_app A f (f + 1) g), deliver_one by lia. by simplify_map_eq. Qed.

Lemma elem_of_deliver A f g k r :
  (k, r) ∈ deliver A f g ↔ f <= k < g ∧ A !! k = Some r.
Proof.
  unfold deliver. rewrite list_elem_of_omap. setoid_rewrite elem_of_seqZ. split.
  - intros (k'&Hk&Hr). apply fmap_Some in Hr as (r'&?&?). simplify_eq. split; [lia|done].
  - intros [Hk Hr]. exists k. rewrite Hr. split; [lia|done].
Qed.

Lemma deliver_length A f g : f <= g → Z.of_nat (length (deliver A f g)) <= g - f.
Proof.
  revert f. apply interval_ind; [by rewrite deliver_nil; simpl; lia|].
  intros f Hf IH. rewrite (deliver_app A f (f + 1) g), deliver_one, length_app by lia.
  destruct (A !! f); cbn [length]; lia.
Qed.

(** Every accepted message of the interval is there: no gap means full length. *)
Lemma deliver_full A f g :
  f <= g → (∀ k, f <= k < g → is_Some (A !! k)) →
  Z.of_nat (length (deliver A f g)) = g - f ∧ (deliver A f g).*1 = seqZ f (g - f).
Proof.
  revert f. apply (interval_ind (λ f, (∀ k, f <= k < g → is_Some (A !! k)) →
    Z.of_nat (length (deliver A f g)) = g - f ∧ (deliver A f g).*1 = seqZ f (g - f))).
  { rewrite deliver_nil, Z.sub_diag. done. }
  intros f Hf IH Hall. destruct (Hall f) as [r Hr]; [lia|].
  destruct IH as [IH1 IH2]; [intros; apply Hall; lia|].
  rewrite (deliver_cons A f g r) by done. rewrite (seqZ_cons f) by lia.
  cbn [length fmap list_fmap fst]. change (list_fmap _ _ fst ?l) with (l.*1).
  rewrite IH2. split; [lia|]. do 2 f_equal; lia.
Qed.

(** Messages outside the interval do not matter. *)
Lemma deliver_insert_out A f g k r :
  f <= g → ¬ (f <= k < g) → deliver (<[k := r]> A) f g = deliver A f g.
Proof.
  revert f. apply (interval_ind (λ f, ¬ (f <= k < g) →
    deliver (<[k := r]> A) f g = deliver A f g)); [by rewrite !deliver_nil|].
  intros f Hf IH Hk.
  rewrite !(deliver_app _ f (f + 1) g), !deliver_one, lookup_insert_ne by lia.
  rewrite IH by lia. done.
Qed.

(** The output is strictly increasing in the sequence number. *)
Lemma deliver_sorted A f g : f <= g → StronglySorted Z.lt (deliver A f g).*1.
Proof.
  revert f. apply interval_ind; [rewrite deliver_nil; constructor|].
  intros f Hf IH. destruct (A !! f) as [r|] eqn:Hr.
  - rewrite (deliver_cons A f g r) by done. cbn [fmap list_fmap fst]. constructor; [done|].
    apply Forall_forall. intros k Hk. apply list_elem_of_fmap in Hk as ([k' r']&->&Hin).
    apply elem_of_deliver in Hin. simpl. lia.
  - by rewrite deliver_skip.
Qed.

Lemma hole_exists A f n :
  0 <= n → A !! (f + n) = None → ∃ g, hole A f g ∧ g <= f + n.
Proof.
  intros Hn Hnone. cut (∀ k, k <= f + n → ∃ g, hole A k g ∧ g <= f + n).
  { intros H. apply H. lia. }
  apply interval_ind.
  - exists (f + n). split; [|lia]. split; [lia|]. split; [done|]. intros; lia.
  - intros k Hk (g&(Hg&HA&Hall)&Hle). destruct (A !! k) eqn:Hk'.
    + exists g. split; [|done]. split; [lia|]. split; [done|]. intros j Hj.
      destruct (decide (j = k)) as [->|]; [by rewrite Hk'|]. apply Hall. lia.
    + exists k. split; [|lia]. split; [lia|]. split; [done|]. intros; lia.
Qed.

Lemma hole_unique A f g g' : hole A f g → hole A f g' → g = g'.
Proof.
  intros (?&H1&H2) (?&H3&H4). destruct (Z.lt_trichotomy g g') as [?|[?|?]]; [|done|].
  - destruct (H4 g); [lia|congruence].
  - destruct (H2 g'); [lia|congruence].
Qed.

Lemma hole_weaken A f m g : f <= m → (∀ k, f <= k < m → is_Some (A !! k)) → hole A m g → hole A f g.
Proof.
  intros Hfm Hall (Hg&HA&H). split; [lia|]. split; [done|]. intros k Hk.
  destruct (Z.lt_ge_cases k m); [apply Hall; lia|apply H; lia].
Qed.

(** ** The refinement relation *)

Section Refinement.
Context (W : Z) (HW : pow2_assert W = true) (HWmax : W <= 2 ^ 63).

Record arb_rel (s : FeedArbitrator) (sp : spec_state) : Prop := {
  ar_len : length (buf_ s) = Z.to_nat W;
  ar_front : frontier_ s = sp_frontier sp;
  ar_started : started_ s = sp_started sp;
  ar_range : 0 <= frontier_ s <= 2 ^ 64 - 1;
  ar_keys : ∀ k, is_Some (sp_accepted sp !! k) → 0 <= k < 2 ^ 64 - 1 ∧ k < frontier_ s + W;
  ar_slot : ∀ k r, frontier_ s <= k → sp_accepted sp !! k = Some r →
    buf_ s !! slot_index W k = Some (mkArbSlot true k r);
  ar_live : ∀ i sl, buf_ s !! i = Some sl → slot_occupied sl = true →
    frontier_ s <= slot_seq sl ∧ sp_accepted sp !! slot_seq sl = Some (slot_record sl) ∧
    i = slot_index W (slot_seq sl);
  ar_count : occupied_ s = countb slot_occupied (buf_ s);
  ar_stats : is_u64 (st_delivered (stats_ s)) ∧ is_u64 (st_gaps (stats_ s));
  ar_fresh : sp_started sp = false → sp_accepted sp = ∅
}.

(** Between two operations the frontier is always a hole. *)
Definition settled (sp : spec_state) : Prop := sp_accepted sp !! sp_frontier sp = None.

Lemma W_pos : 2 <= W.
Proof using HW. apply pow2_assert_spec in HW as [? _]. done. Qed.

Lemma slot_index_mod k : slot_index W k = Z.to_nat (k mod W).
Proof using HW. unfold slot_index. by rewrite land_mask. Qed.

Lemma slot_index_lt k : (slot_index W k < Z.to_nat W)%nat.
Proof using HW.
  rewrite slot_index_mod. pose proof W_pos. pose proof (Z.mod_pos_bound k W). lia.
Qed.

Lemma slot_index_inj a b : - W < a - b < W → slot_index W a = slot_index W b → a = b.
Proof using HW.
  rewrite !slot_index_mod. pose proof W_pos. intros Hd Heq. apply (mod_window_inj W); [lia| |done].
  pose proof (Z.mod_pos_bound a W). pose proof (Z.mod_pos_bound b W). lia.
Qed.

Lemma slot_at_lookup s k : length (buf_ s) = Z.to_nat W → buf_ s !! slot_index W k = Some (slot_at W s k).
Proof using HW.
  intros Hl. unfold slot_at. destruct (lookup_lt_is_Some_2 (buf_ s) (slot_index W k)) as [x Hx].
  - rewrite Hl. apply slot_index_lt.
  - by rewrite Hx.
Qed.

(** The frontier's slot holds the frontier's message exactly when it was
    accepted. *)
Lemma front_ready_spec s sp :
  arb_rel s sp →
  match sp_accepted sp !! frontier_ s with
  | Some r => front_ready W s = true ∧ slot_at W s (frontier_ s) = mkArbSlot true (frontier_ s) r
  | None => front_ready W s = false
  end.
Proof using HW.
  intros R. unfold front_ready. pose proof (slot_at_lookup s (frontier_ s) (ar_len _ _ R)) as Hs.
  destruct (sp_accepted sp !! frontier_ s) as [r|] eqn:HA.
  - rewrite (ar_slot _ _ R (frontier_ s) r ltac:(lia) HA) in Hs. injection Hs as <-. cbn.
    by rewrite Z.eqb_refl.
  - destruct (slot_occupied _) eqn:Ho; [|done].
    destruct (ar_live _ _ R _ _ Hs Ho) as (_&HA'&_). cbn [andb].
    apply Z.eqb_neq. intros Heq. rewrite Heq in HA'. congruence.
Qed.

(** ** One step of the frontier *)

(** [s'] is [s] with the frontier moved to [g]: the output is the accepted
    messages in between, and each missing sequence counted as one gap. *)
Record moved (A : gmap Z WireRecord) (s : FeedArbitrator) (g : Z) (s' : FeedArbitrator)
    (log : sink_log) : Prop := {
  mv_rel : arb_rel s' (mkSpec (started_ s) g A);
  mv_log : log = deliver A (frontier_ s) g;
  mv_le : frontier_ s <= g;
  mv_delivered : st_delivered (stats_ s') =
    u64 (st_delivered (stats_ s) + Z.of_nat (length log));
  mv_gaps : st_gaps (stats_ s') =
    u64 (st_gaps (stats_ s) + (g - frontier_ s - Z.of_nat (length log)));
  mv_rest : st_duplicates (stats_ s') = st_duplicates (stats_ s) ∧
    st_max_reorder (stats_ s') = st_max_reorder (stats_ s) ∧
    st_rejected (stats_ s') = st_rejected (stats_ s)
}.

Lemma mv_front A s g s' log : moved A s g s' log → frontier_ s' = g.
Proof. intros M. apply (ar_front _ _ (mv_rel _ _ _ _ _ M)). Qed.

Lemma mv_started A s g s' log : moved A s g s' log → started_ s' = started_ s.
Proof. intros M. apply (ar_started _ _ (mv_rel _ _ _ _ _ M)). Qed.

Lemma moved_refl A s : arb_rel s (mkSpec (started_ s) (frontier_ s) A) → moved A s (frontier_ s) s [].
Proof.
  intros R. destruct (ar_stats _ _ R). split; auto; try lia.
  - by rewrite deliver_nil.
  - cbn. by rewrite Z.add_0_r, u64_small.
  - cbn. by rewrite Z.sub_diag, Z.add_0_r, u64_small.
Qed.

Lemma moved_trans A s g s1 log1 h s2 log2 :
  moved A s g s1 log1 → moved A s1 h s2 log2 → moved A s h s2 (log1 ++ log2).
Proof.
  intros M1 M2. pose proof (mv_front _ _ _ _ _ M1) as Hg. pose proof (mv_started _ _ _ _ _ M1) as Hs.
  destruct M1 as [R1 L1 LE1 D1 G1 (P1&P2&P3)], M2 as [R2 L2 LE2 D2 G2 (Q1&Q2&Q3)].
  rewrite Hs in R2. rewrite Hg in L2, LE2, G2. split; try done.
  - subst log1 log2. symmetry. apply deliver_app. lia.
  - lia.
  - rewrite D2, D1, u64_add_u64, length_app. f_equal. lia.
  - rewrite G2, G1, u64_add_u64, length_app. f_equal. lia.
  - repeat split; congruence.
Qed.

(** Moving past an accepted frontier hands its message to the sink. *)
Lemma take_front_moved A s r :
  arb_rel s (mkSpec (started_ s) (frontier_ s) A) → A !! frontier_ s = Some r →
  moved A s (frontier_ s + 1) (with_frontier (frontier_ s +u 1) (take_front W s)) [(frontier_ s, r)].
Proof using HW HWmax.
  intros R HA. pose proof (front_ready_spec _ _ R) as Hf. cbn in Hf. rewrite HA in Hf.
  destruct Hf as [_ Hslot]. pose proof (ar_range _ _ R) as Hr.
  pose proof (slot_at_lookup s (frontier_ s) (ar_len _ _ R)) as Hs. rewrite Hslot in Hs.
  destruct (ar_keys _ _ R (frontier_ s)) as [Hk _]; [by exists r|].
  pose proof (countb_pos slot_occupied _ _ _ Hs eq_refl).
  pose proof (countb_le slot_occupied (buf_ s)) as Hc. rewrite (ar_len _ _ R) in Hc.
  pose proof W_pos. destruct (ar_stats _ _ R).
  split; unfold take_front, with_frontier; cbn [frontier_ started_ stats_ buf_ occupied_];
    try (cbn; u64_norm; lia || done).
  - split; cbn [frontier_ started_ stats_ buf_ occupied_ sp_frontier sp_started sp_accepted];
      u64_norm; try done; try lia.
    + rewrite length_insert. apply (ar_len _ _ R).
    + intros k Hk'. destruct (ar_keys _ _ R k Hk'). lia.
    + intros k r' Hle Hk'. destruct (ar_keys _ _ R k) as [_ Hw]; [by exists r'|].
      rewrite list_lookup_insert_ne; [apply (ar_slot _ _ R); [lia|done]|].
      intros Heq. apply slot_index_inj in Heq; lia.
    + intros i sl Hi Ho. destruct (decide (i = slot_index W (frontier_ s))) as [->|Hne].
      * rewrite list_lookup_insert_eq in Hi by (by eapply lookup_lt_Some). by simplify_eq.
      * rewrite list_lookup_insert_ne in Hi by done.
        destruct (ar_live _ _ R _ _ Hi Ho) as (Hs1&Hs2&Hs3). split; [|done].
        assert (slot_seq sl ≠ frontier_ s) by (intros E; rewrite E in Hs3; done). lia.
    + rewrite (countb_insert _ _ _ _ _ Hs), (ar_count _ _ R). cbn. u64_norm. lia.
    + split; [apply u64_add_is|done].
    + apply (ar_fresh _ _ R).
  - by rewrite deliver_one, HA.
  - cbn. symmetry. rewrite u64_small; [lia|]. unfold is_u64 in *. lia.
Qed.

(** Moving past a hole declares one gap. *)
Lemma gap_moved A s :
  arb_rel s (mkSpec (started_ s) (frontier_ s) A) → A !! frontier_ s = None →
  frontier_ s < 2 ^ 64 - 1 →
  moved A s (frontier_ s + 1) (with_frontier (frontier_ s +u 1) (with_stats incr_gaps s)) [].
Proof using HW HWmax.
  intros R HA Hlt. pose proof (ar_range _ _ R) as Hr. destruct (ar_stats _ _ R).
  split; unfold with_frontier, with_stats; cbn [frontier_ started_ stats_ buf_ occupied_];
    try (cbn; u64_norm; lia || done).
  - split; cbn [frontier_ started_ stats_ buf_ occupied_ sp_frontier sp_started sp_accepted];
      u64_norm; try done; try lia.
    + apply (ar_len _ _ R).
    + intros k Hk'. destruct (ar_keys _ _ R k Hk'). lia.
    + intros k r' Hle Hk'. apply (ar_slot _ _ R); [lia|done].
    + intros i sl Hi Ho. destruct (ar_live _ _ R _ _ Hi Ho) as (Hs1&Hs2&Hs3). split; [|done].
      cbn in Hs2. assert (slot_seq sl ≠ frontier_ s) by congruence. lia.
    + apply (ar_count _ _ R).
    + split; [done|apply u64_add_is].
    + apply (ar_fresh _ _ R).
  - by rewrite deliver_one, HA.
  - cbn. by rewrite Z.add_0_r, u64_small.
  - cbn. unfold u64_add. do 2 f_equal. lia.
Qed.

(** ** The loops *)

Lemma rel_self s sp : arb_rel s sp → arb_rel s (mkSpec (started_ s) (frontier_ s) (sp_accepted sp)).
Proof. intros R. rewrite (ar_front _ _ R), (ar_started _ _ R). by destruct sp. Qed.

(** No key beyond the window: there is a hole within one window. *)
Lemma rel_hole A s b f0 f :
  arb_rel s (mkSpec b f0 A) → frontier_ s <= f <= frontier_ s + W →
  ∃ g, hole A f g ∧ g <= frontier_ s + W.
Proof using.
  intros R Hf. replace (frontier_ s + W) with (f + (frontier_ s + W - f)) by lia.
  apply hole_exists; [lia|]. apply eq_None_not_Some. intros Hk.
  destruct (ar_keys _ _ R _ Hk). lia.
Qed.

Lemma release_prefix_moved A fuel s g :
  arb_rel s (mkSpec (started_ s) (frontier_ s) A) →
  hole A (frontier_ s) g → g - frontier_ s < Z.of_nat fuel →
  ∃ s', release_prefix W fuel s = Some (s', deliver A (frontier_ s) g) ∧
        moved A s g s' (deliver A (frontier_ s) g).
Proof using HW HWmax.
  revert s. induction fuel as [|fuel IH]; intros s R (Hg&Hnone&Hall) Hfuel; [lia|].
  pose proof (front_ready_spec _ _ R) as Hf. cbn [sp_accepted] in Hf. cbn [release_prefix].
  destruct (A !! frontier_ s) as [r|] eqn:HA.
  - destruct Hf as [-> ->]. cbn [negb slot_record].
    assert (frontier_ s ≠ g) by congruence.
    pose proof (take_front_moved A s r R HA) as M1.
    set (s1 := with_frontier _ _) in *. pose proof (mv_front _ _ _ _ _ M1) as Hf1.
    destruct (IH s1) as (s'&He&M2).
    + pose proof (mv_rel _ _ _ _ _ M1) as R1. by rewrite <- Hf1 in R1.
    + rewrite Hf1. split; [lia|]. split; [done|]. intros k Hk. apply Hall. lia.
    + lia.
    + exists s'. rewrite He. cbn [mbind option_bind]. rewrite Hf1 in *.
      rewrite (deliver_cons A (frontier_ s) g r) by (lia || done).
      split; [done|]. apply (moved_trans _ _ _ _ _ _ _ _ M1 M2).
  - rewrite Hf. cbn [negb].
    assert (g = frontier_ s) as ->.
    { destruct (Z.eq_dec g (frontier_ s)); [done|]. destruct (Hall (frontier_ s)); [lia|congruence]. }
    exists s. rewrite deliver_nil. split; [done|]. by apply moved_refl.
Qed.

Lemma release_fuel_enough A s g :
  arb_rel s (mkSpec (started_ s) (frontier_ s) A) → hole A (frontier_ s) g →
  g - frontier_ s < Z.of_nat (release_fuel W).
Proof using HW.
  intros R Hg. destruct (rel_hole A s _ _ (frontier_ s) R) as (g'&Hg'&Hle).
  { pose proof W_pos. lia. }
  rewrite (hole_unique _ _ _ _ Hg Hg'). unfold release_fuel. pose proof W_pos. lia.
Qed.

(** Advancing from a hole: one gap, then the run that has become contiguous. *)
Lemma advance_frontier_moved A s :
  arb_rel s (mkSpec (started_ s) (frontier_ s) A) → A !! frontier_ s = None →
  frontier_ s < 2 ^ 64 - 1 →
  ∃ g s', hole A (frontier_ s + 1) g ∧ g <= frontier_ s + 1 + W ∧
    advance_frontier W s = Some (s', deliver A (frontier_ s) g) ∧
    moved A s g s' (deliver A (frontier_ s) g).
Proof using HW HWmax.
  intros R HA Hlt. pose proof (front_ready_spec _ _ R) as Hf. cbn [sp_accepted] in Hf.
  rewrite HA in Hf. pose proof (gap_moved A s R HA Hlt) as M1.
  unfold advance_frontier. rewrite Hf. cbn [frontier_ with_stats].
  set (s1 := with_frontier _ _) in *. pose proof (mv_front _ _ _ _ _ M1) as Hf1.
  pose proof (mv_rel _ _ _ _ _ M1) as R1. rewrite <- Hf1 in R1.
  change (started_ s) with (started_ s1) in R1.
  destruct (rel_hole A s1 _ _ (frontier_ s1) R1) as (g&Hg&Hle); [pose proof W_pos; lia|].
  destruct (release_prefix_moved A (release_fuel W) s1 g R1 Hg) as (s'&He&M2).
  { by apply (release_fuel_enough A). }
  exists g, s'. rewrite Hf1 in *. split; [done|]. split; [done|]. rewrite He.
  cbn [mbind option_bind app]. rewrite (deliver_skip A (frontier_ s)) by (destruct Hg; lia || done).
  split; [done|]. apply (moved_trans _ _ _ _ _ _ _ _ M1 M2).
Qed.

Lemma force_frontier_moved A fuel seq s :
  arb_rel s (mkSpec (started_ s) (frontier_ s) A) → A !! frontier_ s = None →
  frontier_ s <= seq < 2 ^ 64 - 1 → seq - frontier_ s < Z.of_nat fuel →
  ∃ g s', hole A (Z.max (frontier_ s) (seq - W + 1)) g ∧ g <= seq ∧
    force_frontier W fuel seq s = Some (s', deliver A (frontier_ s) g) ∧
    moved A s g s' (deliver A (frontier_ s) g).
Proof using HW HWmax.
  revert s. induction fuel as [|fuel IH]; intros s R HA Hseq Hfuel; [lia|].
  pose proof (ar_range _ _ R). pose proof W_pos. cbn [force_frontier]. u64_norm.
  destruct (Z.leb_spec W (seq - frontier_ s)).
  - destruct (advance_frontier_moved A s R HA) as (g1&s1&Hg1&Hle1&He1&M1); [lia|].
    pose proof (mv_front _ _ _ _ _ M1) as Hf1. pose proof (mv_rel _ _ _ _ _ M1) as R1.
    destruct (rel_hole A s _ _ (frontier_ s + 1) R) as (g1'&Hg1'&Hle1'); [lia|].
    rewrite (hole_unique _ _ _ _ Hg1' Hg1) in Hle1'. clear g1' Hg1'.
    destruct (IH s1) as (g&s'&Hg&Hle&He&M2); rewrite ?Hf1.
    + rewrite <- Hf1 in R1. rewrite (mv_started _ _ _ _ _ M1) in *. by rewrite Hf1 in *.
    + by destruct Hg1 as (_&?&_).
    + lia.
    + destruct Hg1. lia.
    + rewrite Hf1 in *. exists g, s'. destruct Hg1 as (Hge&Hnone&Hall). split.
      { rewrite Z.max_r by lia. destruct (Z.le_ge_cases g1 (seq - W + 1)).
        - by rewrite Z.max_r in Hg by lia.
        - rewrite Z.max_l in Hg by lia. apply (hole_weaken A _ g1); [lia| |done].
          intros k Hk. apply Hall. lia. }
      split; [done|]. rewrite He1. cbn [mbind option_bind]. rewrite He. cbn [mbind option_bind].
      assert (g1 <= g) by (destruct Hg; lia).
      rewrite (deliver_app A (frontier_ s) g1 g) by lia.
      split; [done|]. apply (moved_trans _ _ _ _ _ _ _ _ M1 M2).
  - exists (frontier_ s), s. rewrite Z.max_l, deliver_nil by lia. split.
    { split; [lia|]. split; [done|]. intros; lia. }
    split; [lia|]. split; [done|]. by apply moved_refl.
Qed.

(** Something is buffered exactly when a message at or past the frontier is
    accepted. *)
Lemma occupied_iff A s :
  arb_rel s (mkSpec (started_ s) (frontier_ s) A) →
  0 < occupied_ s ↔ ∃ k, frontier_ s <= k ∧ is_Some (A !! k).
Proof using HW.
  intros R. rewrite (ar_count _ _ R). split.
  - intros (i&sl&Hi&Ho)%countb_exists. destruct (ar_live _ _ R _ _ Hi Ho) as (H1&H2&_).
    eexists. split; [done|]. by eexists.
  - intros (k&Hk&[r Hr]). eapply countb_pos; [by apply (ar_slot _ _ R)|done].
Qed.

Lemma flush_loop_moved A fuel s :
  arb_rel s (mkSpec (started_ s) (frontier_ s) A) → A !! frontier_ s = None →
  (0 < fuel)%nat → (∀ k, is_Some (A !! k) → k - frontier_ s < Z.of_nat fuel) →
  ∃ g s', flush_loop W fuel s = Some (s', deliver A (frontier_ s) g) ∧
    moved A s g s' (deliver A (frontier_ s) g) ∧
    (∀ k, is_Some (A !! k) → k < g) ∧ (g = frontier_ s ∨ is_Some (A !! (g - 1))) ∧
    A !! g = None.
Proof using HW HWmax.
  revert s. induction fuel as [|fuel IH]; intros s R HA Hpos Hfuel; [lia|].
  pose proof (occupied_iff A s R) as Hocc. cbn [flush_loop].
  destruct (Z.ltb_spec 0 (occupied_ s)) as [Hlt|Hge].
  - apply Hocc in Hlt as (k&Hk&Hsome). destruct (ar_keys _ _ R k Hsome) as [Hkr _].
    assert (k ≠ frontier_ s) by (intros ->; destruct Hsome; congruence).
    destruct (advance_frontier_moved A s R HA) as (g1&s1&Hg1&Hle1&He1&M1); [lia|].
    pose proof (mv_front _ _ _ _ _ M1) as Hf1. pose proof (mv_rel _ _ _ _ _ M1) as R1.
    rewrite <- Hf1, <- (mv_started _ _ _ _ _ M1) in R1. destruct Hg1 as (Hge1&Hnone1&Hall1).
    pose proof (Hfuel k Hsome).
    destruct (IH s1 R1) as (g&s'&He&M2&Hlast&Hprev&Hnone); rewrite ?Hf1; [done|lia| |].
    { intros j Hj. pose proof (Hfuel j Hj). lia. }
    rewrite Hf1 in *. exists g, s'. rewrite He1. cbn [mbind option_bind]. rewrite He.
    cbn [mbind option_bind]. pose proof (mv_le _ _ _ _ _ M2) as Hle2. rewrite Hf1 in Hle2.
    rewrite (deliver_app A (frontier_ s) g1 g) by lia. split; [done|].
    split; [apply (moved_trans _ _ _ _ _ _ _ _ M1 M2)|]. split; [done|]. split; [|done].
    right. destruct Hprev as [->|]; [|done]. apply Hall1. pose proof (Hlast k Hsome). lia.
  - exists (frontier_ s), s. rewrite deliver_nil. split; [done|].
    split; [by apply moved_refl|]. split; [|auto].
    intros k Hk. destruct (Z.lt_ge_cases k (frontier_ s)); [done|].
    exfalso. assert (0 < occupied_ s); [apply Hocc; eauto|lia].
Qed.

(** ** Storing a packet *)

Lemma rel_with_stats f s sp :
  (∀ st, st_delivered (f st) = st_delivered st ∧ st_gaps (f st) = st_gaps st) →
  arb_rel s sp → arb_rel (with_stats f s) sp.
Proof using. intros Hf []. destruct (Hf (stats_ s)) as [H1 H2]. split; cbn; auto. by rewrite H1, H2. Qed.

(** Inside the window, a slot is occupied only by the very sequence that maps to
    it: no aliasing. *)
Lemma slot_at_window s b f A seq :
  arb_rel s (mkSpec b f A) → frontier_ s <= seq < frontier_ s + W →
  match A !! seq with
  | Some r => slot_at W s seq = mkArbSlot true seq r
  | None => slot_occupied (slot_at W s seq) = false
  end.
Proof using HW.
  intros R Hseq. pose proof (slot_at_lookup s seq (ar_len _ _ R)) as Hs.
  destruct (A !! seq) as [r|] eqn:HA.
  - rewrite (ar_slot _ _ R seq r) in Hs by (lia || done). congruence.
  - destruct (slot_occupied _) eqn:Ho; [|done].
    destruct (ar_live _ _ R _ _ Hs Ho) as (H1&H2&H3).
    destruct (ar_keys _ _ R (slot_seq (slot_at W s seq))) as [_ Hw]; [by eexists|].
    apply slot_index_inj in H3; [|lia]. rewrite <- H3 in H2. cbn in H2. congruence.
Qed.

Lemma store_packet_rel pkt s f A :
  arb_rel s (mkSpec true f A) → A !! fp_seq pkt = None →
  frontier_ s <= fp_seq pkt < frontier_ s + W → fp_seq pkt < 2 ^ 64 - 1 →
  arb_rel (store_packet W pkt s) (mkSpec true f (<[fp_seq pkt := fp_record pkt]> A)).
Proof using HW HWmax.
  intros R HA Hseq Hmax. pose proof (slot_at_window _ _ _ _ _ R Hseq) as Hfree.
  rewrite HA in Hfree. pose proof (slot_at_lookup s (fp_seq pkt) (ar_len _ _ R)) as Hs.
  pose proof (ar_range _ _ R). pose proof W_pos.
  pose proof (countb_le slot_occupied (buf_ s)) as Hc. rewrite (ar_len _ _ R) in Hc.
  split; unfold store_packet; cbn [frontier_ started_ stats_ buf_ occupied_ sp_frontier sp_started
    sp_accepted]; try apply R; try done.
  - rewrite length_insert. apply R.
  - intros k Hk. destruct (decide (k = fp_seq pkt)) as [->|Hne]; [lia|].
    rewrite lookup_insert_ne in Hk by done. by apply (ar_keys _ _ R).
  - intros k r Hle Hk. destruct (decide (k = fp_seq pkt)) as [->|Hne].
    + rewrite lookup_insert_eq in Hk. simplify_eq.
      apply list_lookup_insert_eq. by eapply lookup_lt_Some.
    + rewrite lookup_insert_ne in Hk by done.
      destruct (ar_keys _ _ R k) as [_ Hw]; [by exists r|].
      rewrite list_lookup_insert_ne; [apply (ar_slot _ _ R); [lia|done]|].
      intros Heq. apply slot_index_inj in Heq; lia.
  - intros i sl Hi Ho. destruct (decide (i = slot_index W (fp_seq pkt))) as [->|Hne].
    + rewrite list_lookup_insert_eq in Hi by (by eapply lookup_lt_Some). simplify_eq. cbn.
      rewrite lookup_insert_eq. split; [lia|done].
    + rewrite list_lookup_insert_ne in Hi by done.
      destruct (ar_live _ _ R _ _ Hi Ho) as (Hs1&Hs2&Hs3). split; [done|]. split; [|done].
      rewrite lookup_insert_ne; [done|]. intros Heq. by rewrite <- Heq in Hs3.
  - rewrite (countb_insert _ _ _ _ _ Hs), Hfree, (ar_count _ _ R). cbn. u64_norm. lia.
Qed.

(** ** Simulation *)

(** The state an operation starts from: offering anchors an unstarted session. *)
Definition op_anchor (o : arb_op) (sp : spec_state) : spec_state :=
  match o with Offer pkt => spec_anchor (fp_seq pkt) sp | Flush => sp end.

Definition op_ok (o : arb_op) : Prop :=
  match o with Offer pkt => 0 <= fp_seq pkt < 2 ^ 64 - 1 | Flush => True end.

(** What an operation that takes the specification from [sp0] to [sp'] does to
    the sink and to the two counters. *)
Record op_effect (sp0 sp' : spec_state) (s s' : FeedArbitrator) (log : sink_log) : Prop := {
  oe_log : log = deliver (sp_accepted sp') (sp_frontier sp0) (sp_frontier sp');
  oe_le : sp_frontier sp0 <= sp_frontier sp';
  oe_delivered : st_delivered (stats_ s') =
    u64 (st_delivered (stats_ s) + Z.of_nat (length log));
  oe_gaps : st_gaps (stats_ s') =
    u64 (st_gaps (stats_ s) +
         (sp_frontier sp' - sp_frontier sp0 - Z.of_nat (length log)))
}.

Definition anchored (seq : Z) (s : FeedArbitrator) : FeedArbitrator :=
  if started_ s then s else mkFeedArbitrator (buf_ s) seq (occupied_ s) true (stats_ s).

Lemma anchor_rel seq s sp :
  0 <= seq < 2 ^ 64 - 1 → arb_rel s sp → settled sp →
  arb_rel (anchored seq s) (spec_anchor seq sp) ∧ settled (spec_anchor seq sp) ∧
  stats_ (anchored seq s) = stats_ s ∧ sp_started (spec_anchor seq sp) = true.
Proof using.
  intros Hseq R Hset. unfold anchored, spec_anchor. rewrite (ar_started _ _ R).
  destruct (sp_started sp) eqn:Hst; [done|]. pose proof (ar_fresh _ _ R Hst) as HA.
  unfold settled in *. rewrite HA in *. split; [|done].
  assert (Hdead : ∀ i sl, buf_ s !! i = Some sl → slot_occupied sl = true → False).
  { intros i sl Hi Ho. destruct (ar_live _ _ R _ _ Hi Ho) as (_&Hk&_). by rewrite HA in Hk. }
  split; cbn; try apply R; try done; try lia.
  - intros k [r Hk]. by rewrite lookup_empty in Hk.
  - intros i sl Hi Ho. by destruct (Hdead i sl).
Qed.

(** A counter step that only touches the other statistics. *)
Lemma stutter_effect sp0 s s0 f :
  arb_rel s0 sp0 → stats_ s0 = stats_ s →
  (∀ st, st_delivered (f st) = st_delivered st ∧ st_gaps (f st) = st_gaps st) →
  op_effect sp0 sp0 s (with_stats f s0) [].
Proof using.
  intros R Hst Hf. destruct (Hf (stats_ s0)) as [H1 H2]. destruct (ar_stats _ _ R).
  split; cbn [with_stats stats_ length Z.of_nat].
  - by rewrite deliver_nil.
  - lia.
  - by rewrite H1, <- Hst, Z.add_0_r, u64_small.
  - by rewrite H2, <- Hst, Z.sub_diag, Z.add_0_r, u64_small.
Qed.

(** The packet is inside the plausible range: force the frontier, then store or
    drop as a duplicate. *)
Lemma offer_accept_sim pkt s s0 sp0 :
  arb_rel s0 sp0 → settled sp0 → sp_started sp0 = true → stats_ s0 = stats_ s →
  frontier_ s0 <= fp_seq pkt < 2 ^ 64 - 1 → fp_seq pkt - frontier_ s0 <= kMaxGap →
  ∃ s1 g, force_frontier W (S (Z.to_nat (fp_seq pkt - frontier_ s0))) (fp_seq pkt) s0 =
      Some (s1, deliver (sp_accepted sp0) (sp_frontier sp0) g) ∧
    moved (sp_accepted sp0) s0 g s1 (deliver (sp_accepted sp0) (sp_frontier sp0) g) ∧
    hole (sp_accepted sp0) (Z.max (sp_frontier sp0) (fp_seq pkt - W + 1)) g ∧
    g <= fp_seq pkt < g + W.
Proof using HW HWmax.
  intros R0 Hset Hst Hstats Hseq Hgap. pose proof (ar_front _ _ R0) as Hf0.
  destruct (force_frontier_moved (sp_accepted sp0) (S (Z.to_nat (fp_seq pkt - frontier_ s0)))
              (fp_seq pkt) s0) as (g&s1&Hg&Hle&He&M); [by apply rel_self| | |lia|].
  { unfold settled in Hset. congruence. }
  { lia. }
  rewrite Hf0 in *. exists s1, g. split; [done|]. split; [done|]. split; [done|].
  destruct Hg. lia.
Qed.

Lemma effect_of_moved A s s0 g s1 s' log sp0 sp' :
  moved A s0 g s1 log → stats_ s0 = stats_ s → frontier_ s0 = sp_frontier sp0 →
  st_delivered (stats_ s') = st_delivered (stats_ s1) →
  st_gaps (stats_ s') = st_gaps (stats_ s1) →
  sp_accepted sp' = A → sp_frontier sp' = g → op_effect sp0 sp' s s' log.
Proof using.
  intros [_ L LE D G _] Hst Hf Hd Hg HA Hg'. rewrite Hf in L, LE, G. rewrite Hst in D, G.
  split; rewrite ?HA, ?Hg'; [done|done|by rewrite Hd|by rewrite Hg].
Qed.

(** The redundant copy of a buffered sequence: nothing moves. *)
Lemma duplicate_tail pkt s s0 sp sp0 s1 s2 g ln :
  arb_rel s0 sp0 → settled sp0 → sp0 = spec_anchor (fp_seq pkt) sp →
  stats_ s0 = stats_ s → frontier_ s0 <= fp_seq pkt →
  moved (sp_accepted sp0) s0 g s1 (deliver (sp_accepted sp0) (sp_frontier sp0) g) →
  hole (sp_accepted sp0) (Z.max (sp_frontier sp0) (fp_seq pkt - W + 1)) g →
  arb_rel s2 (mkSpec (sp_started sp0) g (sp_accepted sp0)) →
  st_delivered (stats_ s2) = st_delivered (stats_ s1) ∧ st_gaps (stats_ s2) = st_gaps (stats_ s1) →
  is_Some (sp_accepted sp0 !! fp_seq pkt) →
  spec_step W (Offer pkt) sp sp0 ∧ arb_rel (with_stats (incr_duplicates ln) s2) sp0 ∧
  op_effect sp0 sp0 s (with_stats (incr_duplicates ln) s2)
    (deliver (sp_accepted sp0) (sp_frontier sp0) g).
Proof using.
  intros R0 Hset Hsp Hst Hge M Hg R2 [Hd Hgp] HA.
  pose proof (ar_front _ _ R0) as Hf0. destruct (ar_keys _ _ R0 _ HA) as [_ Hw].
  assert (g = sp_frontier sp0) as ->.
  { rewrite Z.max_l in Hg by lia. apply (hole_unique _ _ _ _ Hg).
    split; [lia|]. split; [done|]. intros; lia. }
  split; [apply spec_duplicate; auto; lia|].
  split; [apply rel_with_stats; [done|]; by destruct sp0|].
  by eapply effect_of_moved.
Qed.

(** A new sequence: store it and release what has become contiguous. *)
Lemma store_tail pkt s s0 sp sp0 s1 s2 g :
  arb_rel s0 sp0 → sp0 = spec_anchor (fp_seq pkt) sp → sp_started sp0 = true →
  stats_ s0 = stats_ s → frontier_ s0 <= fp_seq pkt < 2 ^ 64 - 1 →
  fp_seq pkt - frontier_ s0 <= kMaxGap →
  moved (sp_accepted sp0) s0 g s1 (deliver (sp_accepted sp0) (sp_frontier sp0) g) →
  hole (sp_accepted sp0) (Z.max (sp_frontier sp0) (fp_seq pkt - W + 1)) g →
  g <= fp_seq pkt < g + W →
  arb_rel s2 (mkSpec true g (sp_accepted sp0)) →
  st_delivered (stats_ s2) = st_delivered (stats_ s1) ∧ st_gaps (stats_ s2) = st_gaps (stats_ s1) →
  sp_accepted sp0 !! fp_seq pkt = None →
  ∃ s' log sp', release_prefix W (release_fuel W) (store_packet W pkt s2) = Some (s', log) ∧
    spec_step W (Offer pkt) sp sp' ∧ arb_rel s' sp' ∧ settled sp' ∧
    op_effect sp0 sp' s s' (deliver (sp_accepted sp0) (sp_frontier sp0) g ++ log).
Proof using HW HWmax.
  intros R0 Hsp Hstart Hst Hseq Hgap M Hg Hgseq R2 [Hd Hgp] HA.
  pose proof (ar_front _ _ R0) as Hf0. pose proof (ar_front _ _ R2) as Hf2. cbn in Hf2.
  pose proof (ar_started _ _ R2) as Hst2. cbn in Hst2.
  set (A' := <[fp_seq pkt := fp_record pkt]> (sp_accepted sp0)).
  pose proof (store_packet_rel pkt s2 g (sp_accepted sp0) R2 HA) as R3. fold A' in R3.
  specialize (R3 ltac:(lia) ltac:(lia)). set (s3 := store_packet W pkt s2) in *.
  assert (Hs3 : started_ s3 = true ∧ frontier_ s3 = g) by done. destruct Hs3 as [Hst3 Hf3].
  rewrite <- Hst3, <- Hf3 in R3. pose proof W_pos.
  destruct (rel_hole A' s3 _ _ (frontier_ s3) R3) as (h&Hh&_); [lia|].
  destruct (release_prefix_moved A' (release_fuel W) s3 h R3 Hh) as (s'&He&M3).
  { by apply (release_fuel_enough A'). }
  rewrite Hf3 in *. destruct Hg as (Hg1&Hg2&Hg3).
  assert (Hle : sp_frontier sp0 <= g <= h) by (destruct Hh; lia).
  assert (Hlog : deliver (sp_accepted sp0) (sp_frontier sp0) g ++ deliver A' g h =
                 deliver A' (sp_frontier sp0) h).
  { rewrite (deliver_app A' (sp_frontier sp0) g h) by lia. f_equal. symmetry.
    apply deliver_insert_out; lia. }
  exists s', (deliver A' g h), (mkSpec true h A'). split; [done|].
  split.
  { eapply spec_accept; try done; [lia|lia|]. fold A'. apply (hole_weaken A' _ g); [lia| |done].
    intros k Hk. unfold A'. rewrite lookup_insert_ne by lia. apply Hg3. lia. }
  split; [pose proof (mv_rel _ _ _ _ _ M3) as Hr; by rewrite Hst3 in Hr|].
  split; [by destruct Hh as (_&?&_)|]. rewrite Hlog.
  assert (Hs3 : stats_ s3 = stats_ s2) by done.
  split; cbn [sp_accepted sp_frontier]; [done|lia| |].
  - rewrite (mv_delivered _ _ _ _ _ M3), Hs3, Hd, (mv_delivered _ _ _ _ _ M), u64_add_u64, Hst.
    rewrite <- Hlog, length_app. f_equal. lia.
  - rewrite (mv_gaps _ _ _ _ _ M3), Hs3, Hgp, (mv_gaps _ _ _ _ _ M), u64_add_u64, Hst, Hf3.
    rewrite <- Hlog, length_app, Hf0. f_equal. lia.
Qed.

Lemma offer_sim pkt s sp :
  arb_rel s sp → settled sp → 0 <= fp_seq pkt < 2 ^ 64 - 1 →
  ∃ s' sp' log, offer W pkt s = Some (s', log) ∧ spec_step W (Offer pkt) sp sp' ∧
    arb_rel s' sp' ∧ settled sp' ∧ op_effect (op_anchor (Offer pkt) sp) sp' s s' log.
Proof using HW HWmax.
  intros R Hset Hseq. destruct (anchor_rel _ _ _ Hseq R Hset) as (R0&Hset0&Hst0&Hstart).
  unfold offer. fold (anchored (fp_seq pkt) s). cbn [op_anchor].
  set (seq := fp_seq pkt) in *. set (s0 := anchored seq s) in *.
  set (sp0 := spec_anchor seq sp) in *. pose proof (ar_front _ _ R0) as Hf0.
  pose proof (ar_range _ _ R0) as Hr0.
  destruct (Z.ltb_spec seq (frontier_ s0)) as [Hlt|Hge].
  { exists (with_stats (incr_duplicates (fp_line pkt =? Line_u8 LineB)) s0), sp0, [].
    split; [done|]. split; [eapply spec_late; [done|]; fold seq sp0; lia|].
    split; [by apply rel_with_stats|]. split; [done|]. by apply stutter_effect. }
  u64_norm. destruct (Z.ltb_spec kMaxGap (seq - frontier_ s0)) as [Hrej|Hok].
  { exists (with_stats incr_rejected s0), sp0, [].
    split; [done|]. split; [eapply spec_reject; [done|]; fold seq sp0; lia|].
    split; [by apply rel_with_stats|]. split; [done|]. by apply stutter_effect. }
  destruct (offer_accept_sim pkt s s0 sp0) as (s1&g&He&M&Hg&Hgseq); try done; [fold seq; lia|].
  fold seq in He, Hg, Hgseq. rewrite He. cbn [mbind option_bind]. clear He.
  pose proof (mv_front _ _ _ _ _ M) as Hf1. pose proof (mv_rel _ _ _ _ _ M) as R1.
  set (s2 := if _ <? _ then _ else _).
  assert (R2 : arb_rel s2 (mkSpec true g (sp_accepted sp0))).
  { rewrite (ar_started _ _ R0), Hstart in R1. unfold s2.
    destruct (_ <? _); [by apply rel_with_stats|done]. }
  assert (Hs2 : st_delivered (stats_ s2) = st_delivered (stats_ s1) ∧
                st_gaps (stats_ s2) = st_gaps (stats_ s1)) by (unfold s2; by destruct (_ <? _)).
  pose proof (slot_at_window s2 _ _ _ seq R2) as Hslot.
  rewrite (ar_front _ _ R2 : frontier_ s2 = g) in Hslot. specialize (Hslot Hgseq).
  destruct (sp_accepted sp0 !! seq) as [r|] eqn:HA.
  - rewrite Hslot. cbn [slot_occupied slot_seq]. rewrite Z.eqb_refl.
    destruct (duplicate_tail pkt s s0 sp sp0 s1 s2 g (fp_line pkt =? Line_u8 LineB))
      as (?&?&?); try done; [by rewrite Hstart|]. eauto 10.
  - rewrite Hslot.
    destruct (store_tail pkt s s0 sp sp0 s1 s2 g) as (s'&log&sp'&He&?&?&?&?); try done; [lia|].
    rewrite He. cbn [mbind option_bind]. eauto 10.
Qed.

Lemma flush_sim s sp :
  arb_rel s sp → settled sp →
  ∃ s' sp' log, flush W s = Some (s', log) ∧ spec_step W Flush sp sp' ∧
    arb_rel s' sp' ∧ settled sp' ∧ op_effect sp sp' s s' log.
Proof using HW HWmax.
  intros R Hset. pose proof W_pos. pose proof (ar_front _ _ R) as Hf.
  destruct (flush_loop_moved (sp_accepted sp) (release_fuel W) s) as (g&s'&He&M&Hl&Hp&Hn).
  { by apply rel_self. }
  { unfold settled in Hset. congruence. }
  { unfold release_fuel. lia. }
  { intros k Hk. destruct (ar_keys _ _ R k Hk). unfold release_fuel. lia. }
  rewrite Hf in *.
  exists s', (mkSpec (sp_started sp) g (sp_accepted sp)), (deliver (sp_accepted sp) (sp_frontier sp) g).
  split; [done|]. pose proof (mv_le _ _ _ _ _ M). pose proof (mv_rel _ _ _ _ _ M) as R'.
  rewrite (ar_started _ _ R) in R'. split; [apply spec_flush; auto; lia|].
  split; [done|]. split; [done|]. by eapply effect_of_moved.
Qed.

Lemma step_sim o s sp :
  arb_rel s sp → settled sp → op_ok o →
  ∃ s' sp' log, arb_step W o s = Some (s', log) ∧ spec_step W o sp sp' ∧
    arb_rel s' sp' ∧ settled sp' ∧ op_effect (op_anchor o sp) sp' s s' log.
Proof using HW HWmax.
  intros R Hset Hok. destruct o; [by apply offer_sim|by apply flush_sim].
Qed.

Lemma init_rel : arb_rel (arb_init W) spec_init ∧ settled spec_init.
Proof using HW HWmax.
  split; [|done]. split; cbn; try done; try lia.
  - apply length_replicate.
  - intros k [r Hk]. by rewrite lookup_empty in Hk.
  - intros i sl [-> _]%lookup_replicate. done.
  - by rewrite countb_replicate.
Qed.

End Refinement.

(** ** Sessions *)

Inductive spec_run (W : Z) : list arb_op → spec_state → spec_state → Prop :=
  | spec_run_nil sp : spec_run W [] sp sp
  | spec_run_cons o ops sp sp1 sp2 :
      spec_step W o sp sp1 → spec_run W ops sp1 sp2 → spec_run W (o :: ops) sp sp2.

(** The sequence a session is anchored at: that of its first packet. *)
Fixpoint first_seq (ops : list arb_op) : option Z :=
  match ops with
  | [] => None
  | Offer pkt :: _ => Some (fp_seq pkt)
  | Flush :: ops' => first_seq ops'
  end.

Definition run_anchor (ops : list arb_op) (sp : spec_state) : spec_state :=
  if sp_started sp then sp
  else match first_seq ops with
       | Some seq => mkSpec true seq (sp_accepted sp)
       | None => sp
       end.

Lemma deliver_ext A B f g :
  f <= g → (∀ k, f <= k < g → A !! k = B !! k) → deliver A f g = deliver B f g.
Proof.
  revert f. apply (interval_ind (λ f, (∀ k, f <= k < g → A !! k = B !! k) →
    deliver A f g = deliver B f g)); [by rewrite !deliver_nil|].
  intros f Hf IH Hk. rewrite !(deliver_app _ f (f + 1) g), !deliver_one, IH, (Hk f); auto; try lia.
  intros; apply Hk; lia.
Qed.

Lemma spec_step_mono W o sp sp' :
  spec_step W o sp sp' → sp_frontier (op_anchor o sp) <= sp_frontier sp' ∧
  (∀ k r, sp_accepted sp !! k = Some r → sp_accepted sp' !! k = Some r) ∧
  (∀ k, k < sp_frontier (op_anchor o sp) → sp_accepted sp' !! k = sp_accepted sp !! k) ∧
  (∀ k r, sp_accepted sp' !! k = Some r → sp_accepted sp !! k = Some r ∨
     ∃ pkt, o = Offer pkt ∧ fp_seq pkt = k ∧ fp_record pkt = r).
Proof.
  assert (Hanchor : ∀ seq sp, sp_accepted (spec_anchor seq sp) = sp_accepted sp)
    by (intros; unfold spec_anchor; by destruct (sp_started _)).
  destruct 1 as [pkt sp ? ->|pkt sp ? ->|pkt sp ? ->|pkt sp ? A' g -> Hge Hle HA -> (Hg&_)|sp g];
    cbn [op_anchor]; rewrite ?Hanchor; cbn [sp_accepted sp_frontier]; try (by eauto with lia).
  rewrite Hanchor in *. split; [lia|]. split; [|split].
  - intros k r Hk. rewrite lookup_insert_ne; [done|]. intros <-. congruence.
  - intros k Hk. rewrite lookup_insert_ne; [done|]. lia.
  - intros k r Hk. destruct (decide (k = fp_seq pkt)) as [->|].
    + rewrite lookup_insert_eq in Hk. simplify_eq. eauto.
    + rewrite lookup_insert_ne in Hk by done. auto.
Qed.

Lemma spec_step_started W o ops sp sp' :
  spec_step W o sp sp' →
  (sp_started sp' = true ∧ op_anchor o sp = run_anchor (o :: ops) sp) ∨
  (o = Flush ∧ sp_started sp = false ∧ sp_started sp' = false).
Proof.
  unfold run_anchor.
  destruct 1 as [pkt sp ? ->|pkt sp ? ->|pkt sp ? ->|pkt sp|sp g]; cbn [op_anchor];
    unfold spec_anchor; destruct (sp_started sp) eqn:E; cbn; auto.
Qed.

Lemma op_effect_trans sp0 sp1 sp2 s s1 s2 log1 log2 :
  op_effect sp0 sp1 s s1 log1 → op_effect sp1 sp2 s1 s2 log2 →
  (∀ k, k < sp_frontier sp1 → sp_accepted sp2 !! k = sp_accepted sp1 !! k) →
  op_effect sp0 sp2 s s2 (log1 ++ log2).
Proof.
  intros [L1 LE1 D1 G1] [L2 LE2 D2 G2] Hold. split.
  - rewrite (deliver_app _ (sp_frontier sp0) (sp_frontier sp1)) by lia. rewrite L1, L2. f_equal.
    apply deliver_ext; [done|]. intros k Hk. symmetry. apply Hold. lia.
  - lia.
  - rewrite D2, D1, u64_add_u64, length_app. f_equal. lia.
  - rewrite G2, G1, u64_add_u64, length_app. f_equal. lia.
Qed.

Lemma spec_run_mono W ops sp sp' :
  spec_run W ops sp sp' →
  (∀ k r, sp_accepted sp !! k = Some r → sp_accepted sp' !! k = Some r) ∧
  (sp_started sp = true → sp_started sp' = true ∧ sp_frontier sp <= sp_frontier sp' ∧
     ∀ k, k < sp_frontier sp → sp_accepted sp' !! k = sp_accepted sp !! k) ∧
  (∀ k r, sp_accepted sp' !! k = Some r → sp_accepted sp !! k = Some r ∨
     ∃ pkt, Offer pkt ∈ ops ∧ fp_seq pkt = k ∧ fp_record pkt = r).
Proof.
  induction 1 as [sp|o ops sp sp1 sp2 Hs _ (IH1&IH2&IH3)]; [auto with lia|].
  destruct (spec_step_mono _ _ _ _ Hs) as (M1&M2&M3&M4).
  split; [auto|]. split.
  - intros Hst. assert (Ho : op_anchor o sp = sp).
    { destruct o; cbn; unfold spec_anchor; by rewrite ?Hst. }
    rewrite Ho in *. destruct (spec_step_started _ _ ops _ _ Hs) as [[Hst1 _]|(_&?&_)]; [|congruence].
    destruct (IH2 Hst1) as (H1&H2&H3). split; [done|]. split; [lia|]. intros k Hk.
    rewrite H3 by lia. by apply M3.
  - intros k r Hk. destruct (IH3 k r Hk) as [Hk'|(pkt&?&?&?)].
    + destruct (M4 k r Hk') as [|(pkt&->&?&?)]; [auto|]. right. exists pkt. set_solver.
    + right. exists pkt. set_solver.
Qed.

(** A flush before the first packet changes nothing. *)
Lemma idle_flush W s sp sp' s' log :
  arb_rel W s sp → sp_started sp = false → spec_step W Flush sp sp' →
  op_effect sp sp' s s' log →
  sp' = sp ∧ log = [] ∧ st_delivered (stats_ s') = st_delivered (stats_ s) ∧
  st_gaps (stats_ s') = st_gaps (stats_ s).
Proof.
  intros R Hst Hs [L LE D G]. pose proof (ar_fresh _ _ _ R Hst) as HA.
  destruct (ar_stats _ _ _ R) as [HD HG].
  inversion Hs as [| | | |? g Hle _ [->|[r Hr]] Heq]; subst.
  2:{ by rewrite HA in Hr. }
  cbn in *. rewrite deliver_nil in *. cbn [length] in *. rewrite Z.sub_diag, Z.add_0_r in *.
  rewrite !u64_small in * by done. split; [|done]. by destruct sp.
Qed.

(** Every session runs to the end, and its effect is one delivery of the accepted
    messages between the anchor and the final frontier. *)
Lemma run_sim W ops s sp :
  pow2_assert W = true → W <= 2 ^ 63 →
  arb_rel W s sp → settled sp → Forall op_ok ops →
  ∃ s' sp' log, arb_run W ops s = Some (s', log) ∧ spec_run W ops sp sp' ∧
    arb_rel W s' sp' ∧ settled sp' ∧ op_effect (run_anchor ops sp) sp' s s' log.
Proof.
  intros HW HWmax. revert s sp. induction ops as [|o ops IH]; intros s sp R Hset Hok.
  { exists s, sp, []. split; [done|]. split; [constructor|]. do 2 (split; [done|]).
    replace (run_anchor [] sp) with sp by (unfold run_anchor; by destruct (sp_started sp)).
    destruct s. by apply (stutter_effect W sp _ _ (λ x, x) R). }
  apply Forall_cons in Hok as [Ho Hok].
  destruct (step_sim W HW HWmax o s sp R Hset Ho) as (s1&sp1&log1&He&Hs&R1&Hset1&E1).
  destruct (IH s1 sp1 R1 Hset1 Hok) as (s2&sp2&log2&He2&Hs2&R2&Hset2&E2).
  exists s2, sp2, (log1 ++ log2). cbn [arb_run]. rewrite He. cbn [mbind option_bind].
  rewrite He2. cbn [mbind option_bind]. split; [done|]. split; [by econstructor|].
  do 2 (split; [done|]).
  destruct (spec_step_started _ _ ops _ _ Hs) as [[Hst1 Ha]|(->&Hst&Hst1)].
  - rewrite <- Ha. destruct (spec_run_mono _ _ _ _ Hs2) as (_&M&_).
    unfold run_anchor in E2. rewrite Hst1 in E2.
    eapply op_effect_trans; [exact E1|exact E2|]. by apply M.
  - destruct (idle_flush _ _ _ _ _ _ R Hst Hs E1) as (->&->&HD&HG).
    destruct E2 as [L LE D G]. rewrite HD in D. rewrite HG in G.
    replace (run_anchor (Flush :: ops) sp) with (run_anchor ops sp) by done.
    by split.
Qed.

Lemma spec_run_app W ops1 ops2 sp sp' :
  spec_run W (ops1 ++ ops2) sp sp' ↔
  ∃ spm, spec_run W ops1 sp spm ∧ spec_run W ops2 spm sp'.
Proof.
  revert sp. induction ops1 as [|o ops1 IH]; intros sp; cbn [app].
  { split; [intros; eexists; by split; [constructor|]|]. intros (?&H&?). by inversion H; subst. }
  split.
  - inversion 1; subst. apply IH in H5 as (spm&?&?). exists spm. split; [by econstructor|done].
  - intros (spm&H&?). inversion H; subst. econstructor; [done|]. apply IH. eauto.
Qed.

Lemma arb_run_app W ops1 ops2 s :
  arb_run W (ops1 ++ ops2) s =
  '(s1, log1) ← arb_run W ops1 s; '(s2, log2) ← arb_run W ops2 s1; Some (s2, log1 ++ log2).
Proof.
  revert s. induction ops1 as [|o ops1 IH]; intros s; cbn [app arb_run mbind option_bind].
  { by destruct (arb_run W ops2 s) as [[]|]. }
  destruct (arb_step W o s) as [[s1 l1]|]; [|done]. cbn [mbind option_bind]. rewrite IH.
  destruct (arb_run W ops1 s1) as [[s2 l2]|]; [|done]. cbn [mbind option_bind].
  destruct (arb_run W ops2 s2) as [[s3 l3]|]; [|done]. cbn [mbind option_bind].
  by rewrite (assoc_L (++)).
Qed.

(** A session from the initial state, with everything the proofs below need. *)
Lemma session_sim W ops s' log :
  pow2_assert W = true → W <= 2 ^ 63 → Forall op_ok ops →
  arb_run W ops (arb_init W) = Some (s', log) →
  ∃ sp', spec_run W ops spec_init sp' ∧ arb_rel W s' sp' ∧ settled sp' ∧
    op_effect (run_anchor ops spec_init) sp' (arb_init W) s' log.
Proof.
  intros HW HWmax Hok Hrun. destruct (init_rel W HW HWmax) as [R Hset].
  destruct (run_sim W ops _ _ HW HWmax R Hset Hok) as (s1&sp1&log1&He&?&?&?&?).
  rewrite He in Hrun. simplify_eq. eauto.
Qed.

(** Once a packet is not late and not rejected, its sequence is accepted. *)
Lemma spec_step_accepts W pkt sp sp' :
  spec_step W (Offer pkt) sp sp' →
  sp_frontier (spec_anchor (fp_seq pkt) sp) <= fp_seq pkt
    <= sp_frontier (spec_anchor (fp_seq pkt) sp) + kMaxGap →
  is_Some (sp_accepted sp' !! fp_seq pkt).
Proof.
  inversion 1; subst; try lia; [done|]. intros _. cbn. by rewrite lookup_insert_eq.
Qed.

Lemma spec_flush_covers W sp sp' k :
  spec_step W Flush sp sp' → is_Some (sp_accepted sp !! k) →
  k < sp_frontier sp' ∧ sp_accepted sp' = sp_accepted sp.
Proof. inversion 1; subst. intros Hk. split; [cbn; auto|done]. Qed.

(** The anchor never moves above what follows it. *)
Lemma run_anchor_le W ops sp sp' :
  spec_run W ops sp sp' → (∀ k, sp_started sp = false → sp_accepted sp !! k = None) →
  sp_started sp = false → first_seq ops ≠ None →
  sp_frontier (run_anchor ops sp) <= sp_frontier sp' ∧ sp_started sp' = true.
Proof.
  induction 1 as [|o ops sp sp1 sp2 Hs Hrun IH]; [done|]. intros Hno Hst Hfirst.
  destruct (spec_step_started _ _ ops _ _ Hs) as [[Hst1 Ha]|(->&_&Hst1)].
  - rewrite <- Ha. destruct (spec_run_mono _ _ _ _ Hrun) as (_&M&_).
    destruct (M Hst1) as (?&?&_). destruct (spec_step_mono _ _ _ _ Hs). split; [lia|done].
  - inversion Hs as [| | | |? g Hle _ [->|[r Hr]] Heq]; subst.
    2:{ by rewrite Hno in Hr. }
    replace (run_anchor (Flush :: ops) sp) with (run_anchor ops sp) by done.
    assert (Hsp : run_anchor ops (mkSpec (sp_started sp) (sp_frontier sp) (sp_accepted sp))
                  = run_anchor ops sp) by (by destruct sp).
    rewrite <- Hsp. apply IH; auto.
Qed.
