(* ===== verification/ArbitratorSessions.v ===== *)
(** * FeedArbitrator: what a session guarantees

    Theorems about whole sessions of [FeedArbitrator<Window>]: a list of received
    packets and flushes run from a freshly constructed arbitrator.  They follow
    from the refinement of [ArbitratorProofs.v]. *)

From stdpp Require Import base numbers list list_numbers gmap sorting.
From Stdlib Require Import ZArith Lia.
From S2P Require Import Prelude Wire Arbitrator ArbitratorProofs.

Local Open Scope Z_scope.

Section Skew.
Context (W a : Z).

(** Every packet arrives after all packets that are a full window older; [seen]
    lists the sequences that arrived before. *)
Fixpoint bounded_skew (seen : list Z) (pkts : list FeedPacket) : Prop :=
  match pkts with
  | [] => True
  | pkt :: pkts' =>
      a <= fp_seq pkt ∧ (∀ k, a <= k <= fp_seq pkt - W → k ∈ seen) ∧
      bounded_skew (fp_seq pkt :: seen) pkts'
  end.

Definition complete_prefix (seen : list Z) (sp : spec_state) : Prop :=
  sp_started sp = true ∧ hole (sp_accepted sp) a (sp_frontier sp) ∧
  ∀ k, k ∈ seen → is_Some (sp_accepted sp !! k).

Lemma accept_complete seen sp pkt g A' :
  complete_prefix seen sp → sp_frontier sp <= fp_seq pkt →
  (∀ k, a <= k <= fp_seq pkt - W → k ∈ seen) →
  A' = <[fp_seq pkt := fp_record pkt]> (sp_accepted sp) →
  hole A' (Z.max (sp_frontier sp) (fp_seq pkt - W + 1)) g →
  complete_prefix (fp_seq pkt :: seen) (mkSpec true g A').
Proof.
  intros (Hst&(Hle&HN&Hall)&Hseen) Hge Hsk -> Hg.
  assert (Hkeep : ∀ k, is_Some (sp_accepted sp !! k) →
            is_Some (<[fp_seq pkt := fp_record pkt]> (sp_accepted sp) !! k)).
  { intros k Hk. destruct (decide (k = fp_seq pkt)) as [->|].
    - by rewrite lookup_insert_eq.
    - by rewrite lookup_insert_ne. }
  assert (Hw : fp_seq pkt - W + 1 <= sp_frontier sp).
  { destruct (Z.le_gt_cases (fp_seq pkt - W + 1) (sp_frontier sp)); [done|].
    destruct (Hseen (sp_frontier sp)) as [r Hr]; [apply Hsk; lia|congruence]. }
  rewrite Z.max_l in Hg by lia. split; [done|]. split; cbn.
  - apply (hole_weaken _ a (sp_frontier sp)); auto.
  - intros k [->|Hk]%elem_of_cons; [by rewrite lookup_insert_eq|auto].
Qed.

Lemma skew_step seen pkt sp sp' :
  W <= kMaxGap → complete_prefix seen sp → a <= fp_seq pkt →
  (∀ k, a <= k <= fp_seq pkt - W → k ∈ seen) →
  spec_step W (Offer pkt) sp sp' → complete_prefix (fp_seq pkt :: seen) sp'.
Proof.
  intros HWg C Ha Hsk Hs. pose proof C as (Hst&(Hle&HN&Hall)&Hseen).
  assert (Hanch : spec_anchor (fp_seq pkt) sp = sp) by (unfold spec_anchor; by rewrite Hst).
  inversion Hs; subst; rewrite Hanch in *; try (by eapply accept_complete).
  - split; [done|]. split; [done|]. intros k [->|Hk]%elem_of_cons; [apply Hall; lia|auto].
  - destruct (Hseen (sp_frontier sp)) as [r Hr]; [apply Hsk; lia|congruence].
  - split; [done|]. split; [done|]. intros k [->|Hk]%elem_of_cons; auto.
Qed.

Lemma skew_run pkts seen sp sp' :
  W <= kMaxGap → complete_prefix seen sp → bounded_skew seen pkts →
  spec_run W (Offer <$> pkts) sp sp' →
  ∃ seen', complete_prefix seen' sp' ∧ ∀ k, k ∈ seen ∨ k ∈ (fp_seq <$> pkts) → k ∈ seen'.
Proof.
  intros HWg. revert seen sp. induction pkts as [|pkt pkts IH]; intros seen sp C Hsk Hrun.
  { inversion Hrun; subst. exists seen. split; [done|]. set_solver. }
  destruct Hsk as (Ha&Hwin&Hsk). cbn [fmap list_fmap] in Hrun. inversion Hrun; subst.
  destruct (IH (fp_seq pkt :: seen) sp1) as (seen'&C'&Hin); [by eapply skew_step|done|done|].
  exists seen'. split; [done|]. set_solver.
Qed.

(** Anchoring first does not change what a packet does. *)
Lemma spec_step_anchor pkt sp sp' :
  spec_step W (Offer pkt) sp sp' → spec_step W (Offer pkt) (spec_anchor (fp_seq pkt) sp) sp'.
Proof.
  assert (Hidem : spec_anchor (fp_seq pkt) (spec_anchor (fp_seq pkt) sp) = spec_anchor (fp_seq pkt) sp).
  { unfold spec_anchor. destruct (sp_started sp) eqn:E; [by rewrite E|done]. }
  inversion 1; subst.
  - apply spec_late; rewrite ?Hidem; auto.
  - apply spec_reject; rewrite ?Hidem; auto.
  - apply spec_duplicate; rewrite ?Hidem; auto.
  - eapply spec_accept; [reflexivity|..]; rewrite ?Hidem; eauto.
Qed.

(** A session of packets that all lie in [a, b) and cover it ends with the
    frontier at [b] and everything in between accepted. *)
Lemma skew_session b pkts sp' :
  W <= kMaxGap → fp_seq <$> head pkts = Some a → bounded_skew [] pkts →
  (∀ k, a <= k < b → k ∈ (fp_seq <$> pkts)) → Forall (λ p, fp_seq p < b) pkts →
  spec_run W ((Offer <$> pkts) ++ [Flush]) spec_init sp' →
  sp_frontier sp' = b ∧ a < b ∧ ∀ k, a <= k < b → is_Some (sp_accepted sp' !! k).
Proof.
  intros HWg Hhd Hskew Hall Hb Hs.
  apply spec_run_app in Hs as (spm&Hs&Hfl). destruct (spec_run_mono _ _ _ _ Hs) as (_&_&Hback).
  assert (Hkeys : ∀ k, is_Some (sp_accepted spm !! k) → k < b).
  { intros k [r Hk]. destruct (Hback k r Hk) as [H|(pkt&Hin&<-&_)].
    { by cbn in H; rewrite lookup_empty in H. }
    apply list_elem_of_fmap in Hin as (pkt'&Heq&Hin). simplify_eq.
    rewrite Forall_forall in Hb. by apply Hb. }
  destruct pkts as [|p0 pkts]; [done|]. cbn in Hhd. injection Hhd as Hp0.
  assert (Hab : a < b) by (apply Forall_cons in Hb as [? _]; lia).
  assert (Hs' : spec_run W (Offer <$> p0 :: pkts) (mkSpec true a ∅) spm).
  { cbn [fmap list_fmap] in *. inversion Hs; subst. econstructor; [|done].
    rewrite <- Hp0. by apply (spec_step_anchor p0 spec_init). }
  assert (C0 : complete_prefix [] (mkSpec true a ∅)).
  { split; [done|]. split; [|set_solver]. split; [cbn; lia|]. split; [done|]. cbn; intros; lia. }
  destruct (skew_run _ _ _ _ HWg C0 Hskew Hs') as (seen&(_&(Hle&HN&Hfill)&Hseen)&Hin).
  assert (Hf : sp_frontier spm = b).
  { destruct (Z.lt_trichotomy (sp_frontier spm) b) as [?|[?|?]]; [|done|].
    - destruct (Hseen (sp_frontier spm)); [apply Hin; right; apply Hall; lia|congruence].
    - assert (sp_frontier spm - 1 < b) by (apply Hkeys, Hfill; lia). lia. }
  inversion Hfl as [|? ? ? ? ? Hfl1 Hnil]; subst sp. inversion Hnil; subst.
  inversion Hfl1 as [| | | |? g ? ? Hg]; subst. cbn. split; [|split; [done|]].
  - destruct Hg as [?|Hg]; [done|]. apply Hkeys in Hg. lia.
  - intros k Hk. apply Hfill. lia.
Qed.

End Skew.

Lemma offers_flush_ok pkts :
  Forall (λ p, 0 <= fp_seq p < 2 ^ 64 - 1) pkts → Forall op_ok ((Offer <$> pkts) ++ [Flush]).
Proof. intros H. apply Forall_app. split; [by apply Forall_fmap|by repeat constructor]. Qed.

(** A whole session under bounded skew: it runs to the end, the sequences come out
    as one contiguous range and every payload is that of a received packet. *)
Lemma skew_delivers W pkts a b :
  pow2_assert W = true → W <= kMaxGap → Forall (λ p, 0 <= fp_seq p < 2 ^ 64 - 1) pkts →
  fp_seq <$> head pkts = Some a → bounded_skew W a [] pkts →
  (∀ k, a <= k < b → k ∈ (fp_seq <$> pkts)) → Forall (λ p, fp_seq p < b) pkts →
  ∃ s' log, arb_run W ((Offer <$> pkts) ++ [Flush]) (arb_init W) = Some (s', log) ∧
    log.*1 = seqZ a (b - a) ∧ st_gaps (stats_ s') = 0 ∧ frontier_ s' = b ∧
    ∀ k r, (k, r) ∈ log → ∃ pkt, pkt ∈ pkts ∧ fp_seq pkt = k ∧ fp_record pkt = r.
Proof.
  intros HW HWg Hok Hhd Hskew Hall Hb.
  assert (HWmax : W <= 2 ^ 63) by (change kMaxGap with 1048576 in HWg; lia).
  pose proof (offers_flush_ok _ Hok) as Hok'.
  destruct (init_rel W HW HWmax) as [R0 Hset0].
  destruct (run_sim W _ _ _ HW HWmax R0 Hset0 Hok') as (s'&sp'&log&Hrun&Hs&R&_&[Hlog _ _ HG]).
  exists s', log. split; [done|].
  destruct (skew_session _ _ _ _ _ HWg Hhd Hskew Hall Hb Hs) as (Hf&Hab&Hfill).
  replace (run_anchor _ _) with (mkSpec true a ∅) in *
    by (destruct pkts; cbn in *; by simplify_eq).
  rewrite (ar_front _ _ _ R), Hf in *. cbn [sp_frontier] in *.
  destruct (deliver_full (sp_accepted sp') a b) as [Hlen Hseq]; [lia|done|].
  subst log. split; [done|]. split.
  { rewrite HG, Hlen. cbn [arb_init stats_ zero_stats st_gaps]. by rewrite Z.sub_diag. }
  split; [done|]. intros k r [_ Hk]%elem_of_deliver.
  destruct (spec_run_mono _ _ _ _ Hs) as (_&_&Hback).
  destruct (Hback k r Hk) as [H|(pkt&Hin&?&?)]; [by cbn in H; rewrite lookup_empty in H|].
  exists pkt. split; [|done]. apply elem_of_app in Hin as [Hin|Hin]; [|set_solver].
  apply list_elem_of_fmap in Hin as (pkt'&?&?). by simplify_eq.
Qed.

(** ** The properties *)

(** A stream used by the witnesses: window 4, line A loses 11 and line B is one
    packet late. *)
Definition stream_packet (seq : Z) (ln : Line) : FeedPacket :=
  mkFeedPacket seq (Line_u8 ln) [] zero_record.
Definition stream : list FeedPacket :=
  [stream_packet 10 LineA; stream_packet 12 LineA; stream_packet 10 LineB;
   stream_packet 13 LineA; stream_packet 11 LineB; stream_packet 12 LineB].
Definition stream_ops : list arb_op := (Offer <$> stream) ++ [Flush].

(** C1: Every session of packets below the last 64-bit sequence number runs to
    the end (no loop of [offer], [release_prefix], [advance_frontier] or [flush]
    runs out of fuel) and refines the specification machine: the sink calls are
    exactly the accepted messages between the first sequence seen and the final
    frontier, in sequence order, and the frontier is never left on an accepted
    message. *)
Theorem arbitrator_refines_spec W ops :
  pow2_assert W = true → W <= 2 ^ 63 → Forall op_ok ops →
  ∃ s' sp' log, arb_run W ops (arb_init W) = Some (s', log) ∧
    spec_run W ops spec_init sp' ∧ frontier_ s' = sp_frontier sp' ∧
    sp_accepted sp' !! frontier_ s' = None ∧
    log = deliver (sp_accepted sp') (sp_frontier (run_anchor ops spec_init)) (frontier_ s').
Proof.
  intros HW HWmax Hok. destruct (init_rel W HW HWmax) as [R Hset].
  destruct (run_sim W ops _ _ HW HWmax R Hset Hok) as (s'&sp'&log&?&?&R'&Hset'&E).
  exists s', sp', log. rewrite (ar_front _ _ _ R'). destruct E. auto 10.
Qed.

Lemma arbitrator_refines_spec_witness :
  ∃ s' sp' log, arb_run 4 stream_ops (arb_init 4) = Some (s', log) ∧
    spec_run 4 stream_ops spec_init sp' ∧ frontier_ s' = sp_frontier sp' ∧
    sp_accepted sp' !! frontier_ s' = None ∧
    log = deliver (sp_accepted sp') (sp_frontier (run_anchor stream_ops spec_init)) (frontier_ s').
Proof.
  apply (arbitrator_refines_spec 4 stream_ops); [reflexivity|lia|].
  repeat constructor; vm_compute; done.
Defined.

(** The sink sees strictly increasing sequence numbers (so no message twice
    and none out of order), and every call carries the payload of a packet that
    was offered with that very sequence number: a slot shared by two sequences
    modulo the window never leaks one message under the other's number. *)
Theorem arbitrator_in_order_no_alias W ops :
  pow2_assert W = true → W <= 2 ^ 63 → Forall op_ok ops →
  ∃ s' log, arb_run W ops (arb_init W) = Some (s', log) ∧
    StronglySorted Z.lt log.*1 ∧
    ∀ k r, (k, r) ∈ log → ∃ pkt, Offer pkt ∈ ops ∧ fp_seq pkt = k ∧ fp_record pkt = r.
Proof.
  intros HW HWmax Hok. destruct (init_rel W HW HWmax) as [R Hset].
  destruct (run_sim W ops _ _ HW HWmax R Hset Hok) as (s'&sp'&log&Hrun&Hs&_&_&[-> Hle _ _]).
  eexists _, _. split; [exact Hrun|]. split; [by apply deliver_sorted|]. intros k r [_ Hk]%elem_of_deliver.
  destruct (spec_run_mono _ _ _ _ Hs) as (_&_&Hback).
  destruct (Hback k r Hk) as [H|?]; [by cbn in H; rewrite lookup_empty in H|done].
Qed.

Lemma arbitrator_in_order_no_alias_witness :
  ∃ s' log, arb_run 4 stream_ops (arb_init 4) = Some (s', log) ∧
    StronglySorted Z.lt log.*1 ∧
    ∀ k r, (k, r) ∈ log → ∃ pkt, Offer pkt ∈ stream_ops ∧ fp_seq pkt = k ∧ fp_record pkt = r.
Proof.
  apply (arbitrator_in_order_no_alias 4 stream_ops); [reflexivity|lia|].
  repeat constructor; vm_compute; done.
Defined.

(** The counters account for every sequence number the frontier has passed:
    [delivered] is the number of sink calls and [delivered + gaps] is the distance
    from the first sequence to the frontier, as 64-bit counters. *)
Theorem arbitrator_accounting W ops a :
  pow2_assert W = true → W <= 2 ^ 63 → Forall op_ok ops → first_seq ops = Some a →
  ∃ s' log, arb_run W ops (arb_init W) = Some (s', log) ∧
    st_delivered (stats_ s') = u64 (Z.of_nat (length log)) ∧
    st_gaps (stats_ s') = u64 (frontier_ s' - a - Z.of_nat (length log)) ∧
    a <= frontier_ s' ∧ Z.of_nat (length log) <= frontier_ s' - a.
Proof.
  intros HW HWmax Hok Ha. destruct (init_rel W HW HWmax) as [R0 Hset].
  destruct (run_sim W ops _ _ HW HWmax R0 Hset Hok) as (s'&sp'&log&Hrun&Hs&R&_&[Hlog Hle HD HG]).
  exists s', log. split; [done|]. unfold run_anchor in *. rewrite Ha in *. cbn in *. rewrite (ar_front _ _ _ R).
  split; [done|]. split; [done|]. split; [done|]. subst log. by apply deliver_length.
Qed.

Lemma arbitrator_accounting_witness :
  ∃ s' log, arb_run 4 [Offer (stream_packet 10 LineA); Offer (stream_packet 17 LineA); Flush]
              (arb_init 4) = Some (s', log) ∧
    st_delivered (stats_ s') = u64 (Z.of_nat (length log)) ∧
    st_gaps (stats_ s') = u64 (frontier_ s' - 10 - Z.of_nat (length log)) ∧
    10 <= frontier_ s' ∧ Z.of_nat (length log) <= frontier_ s' - 10.
Proof.
  apply (arbitrator_accounting 4
    [Offer (stream_packet 10 LineA); Offer (stream_packet 17 LineA); Flush] 10);
    [reflexivity|lia| |reflexivity].
  repeat constructor; vm_compute; done.
Defined.

(** C22: Nothing recoverable is lost: a packet that arrives while its sequence is
    at or above the frontier, and not further than [kMaxGap] ahead, is delivered
    by the end of the session (which always returns, after the final flush),
    whatever else arrives on the two lines before and after it. *)
Theorem arbitrator_no_loss W ops1 pkt ops2 s1 log1 :
  pow2_assert W = true → W <= 2 ^ 63 → Forall op_ok (ops1 ++ Offer pkt :: ops2) →
  arb_run W ops1 (arb_init W) = Some (s1, log1) →
  (started_ s1 = true → frontier_ s1 <= fp_seq pkt <= frontier_ s1 + kMaxGap) →
  ∃ s' log r, arb_run W (ops1 ++ Offer pkt :: ops2 ++ [Flush]) (arb_init W) = Some (s', log) ∧
    (fp_seq pkt, r) ∈ log.
Proof.
  intros HW HWmax Hok Hrun1 Hwin.
  apply Forall_app in Hok as [Hok1 [Hokp Hok2]%Forall_cons].
  assert (Hok' : Forall op_ok (Offer pkt :: ops2 ++ [Flush])).
  { constructor; [done|]. apply Forall_app. by repeat constructor. }
  destruct (session_sim _ _ _ _ HW HWmax Hok1 Hrun1) as (sp1&_&R1&Hset1&_).
  destruct (run_sim W _ _ _ HW HWmax R1 Hset1 Hok') as (s2&sp'&log2&Hrun2&Hs&R'&_&[Hlog _ _ _]).
  rewrite arb_run_app, Hrun1. cbn [mbind option_bind].
  rewrite Hrun2. cbn [mbind option_bind]. subst log2.
  inversion Hs as [|? ? ? spm ? Hs1 Hs2]; subst.
  destruct (spec_step_accepts _ _ _ _ Hs1) as [r Hr].
  { unfold spec_anchor. rewrite <- (ar_started _ _ _ R1).
    destruct (started_ s1) eqn:Hst; [rewrite <- (ar_front _ _ _ R1); by apply Hwin|].
    change kMaxGap with 1048576. cbn [sp_frontier]. lia. }
  assert (Hfr : sp_frontier (run_anchor (Offer pkt :: ops2 ++ [Flush]) sp1) <= fp_seq pkt).
  { unfold run_anchor. rewrite <- (ar_started _ _ _ R1). cbn [first_seq].
    destruct (started_ s1) eqn:Hst; [|cbn; lia]. rewrite <- (ar_front _ _ _ R1). by apply Hwin. }
  destruct (spec_run_mono _ _ _ _ Hs2) as (Hkeep&_&_).
  apply spec_run_app in Hs2 as (spf&Hsf&Hfl). destruct (spec_run_mono _ _ _ _ Hsf) as (Hkf&_&_).
  inversion Hfl as [|? ? ? ? ? Hfl1 Hnil]; subst. inversion Hnil; subst.
  destruct (spec_flush_covers _ _ _ (fp_seq pkt) Hfl1) as [Hlt _]; [by rewrite (Hkf _ r)|].
  eexists _, _, r. split; [reflexivity|]. apply elem_of_app. right. apply elem_of_deliver. split; [lia|auto].
Qed.

Lemma arbitrator_no_loss_witness :
  ∃ s' log r, arb_run 4 ([Offer (stream_packet 10 LineA)] ++
              Offer (stream_packet 30 LineB) :: [Offer (stream_packet 20 LineA)] ++ [Flush])
              (arb_init 4) = Some (s', log) ∧
    (fp_seq (stream_packet 30 LineB), r) ∈ log.
Proof.
  eapply (arbitrator_no_loss 4 [Offer (stream_packet 10 LineA)] (stream_packet 30 LineB)
           [Offer (stream_packet 20 LineA)]);
    [reflexivity|lia| |vm_compute; reflexivity|].
  - repeat constructor; vm_compute; done.
  - intros _. vm_compute. split; discriminate.
Defined.


