(* ===== verification/OrderBook.v ===== *)
(** * OrderBook: the aggregated limit order book

    Models [src/src/book/order_book.h] and [src/src/book/book_messages.h].  A side
    is the fixed array of [MaxLevels] levels together with its count, and
    [apply_side] is the code's loops over that array: the linear find, the shift
    of the tail down or up, the insertion scan.  Side bytes other than [Side::Bid]
    take the ask branch, as the [static_cast] and the [if] of [apply] do. *)

From stdpp Require Import base numbers list sorting.
From Stdlib Require Import ZArith Lia.
From S2P Require Import Prelude Float64.

Local Open Scope Z_scope.

(** ** Data *)

Inductive Side := Bid | Ask.
Definition Side_u8 (s : Side) : Z := match s with Bid => 0 | Ask => 1 end.
Global Instance Side_eq_dec : EqDecision Side.
Proof. solve_decision. Defined.

Record BookDelta := mkBookDelta {
  bd_seq : Z;
  bd_price : double;
  bd_new_size : Z;
  bd_side : Z
}.

Record SnapshotLevel := mkSnapshotLevel {
  sl_price : double;
  sl_size : Z;
  sl_side : Z
}.

Record Level := mkLevel {
  lv_price : double;
  lv_size : Z
}.

Definition zero_level : Level := mkLevel fzero 0.

Record OrderBook := mkOrderBook {
  bid_ : list Level;
  ask_ : list Level;
  n_bid_ : nat;
  n_ask_ : nat
}.

(** Array access: the indices of the code stay inside the array (proved below). *)
Definition lv_at (lv : list Level) (i : nat) : Level := default zero_level (lv !! i).

(** ** The loops of [apply_side] *)

(** [for (i = 0; i < n; ++i) if (lv[i].price == price) ...], [k] iterations left. *)
Fixpoint find_level (lv : list Level) (price : double) (k i : nat) : option nat :=
  match k with
  | O => None
  | S k' => if feq (lv_price (lv_at lv i)) price then Some i
            else find_level lv price k' (S i)
  end.

(** [for (j = i + 1; j < n; ++j) lv[j - 1] = lv[j];] *)
Fixpoint shift_down (k j : nat) (lv : list Level) : list Level :=
  match k with
  | O => lv
  | S k' => shift_down k' (S j) (<[(j - 1)%nat := lv_at lv j]> lv)
  end.

(** [for (j = n; j > pos; --j) lv[j] = lv[j - 1];] *)
Fixpoint shift_up (pos j : nat) (lv : list Level) : list Level :=
  match j with
  | O => lv
  | S j' => if (pos <? S j')%nat then shift_up pos j' (<[S j' := lv_at lv j']> lv) else lv
  end.

(** [descending ? lv[pos].price > price : lv[pos].price < price] *)
Definition better (descending : bool) (a b : double) : bool :=
  if descending then fgt a b else flt a b.

(** [while (pos < n && ...) ++pos;] *)
Fixpoint insert_pos (lv : list Level) (descending : bool) (price : double) (k pos : nat) : nat :=
  match k with
  | O => pos
  | S k' => if better descending (lv_price (lv_at lv pos)) price
            then insert_pos lv descending price k' (S pos) else pos
  end.

Section OrderBook.
Context (MaxLevels : nat).

Definition apply_side (lv : list Level) (n : nat) (price : double) (new_size : Z)
    (descending : bool) : list Level * nat :=
  match find_level lv price n 0 with
  | Some i =>
      if new_size =? 0 then (shift_down (n - (i + 1)) (i + 1) lv, (n - 1)%nat)
      else (<[i := mkLevel (lv_price (lv_at lv i)) new_size]> lv, n)
  | None =>
      if new_size =? 0 then (lv, n)
      else
        let pos := insert_pos lv descending price n 0 in
        if (n <? MaxLevels)%nat then
          (<[pos := mkLevel price new_size]> (shift_up pos n lv), (n + 1)%nat)
        else if (pos <? MaxLevels)%nat then
          (<[pos := mkLevel price new_size]> (shift_up pos (MaxLevels - 1) lv), n)
        else (lv, n)
  end.

Definition book_init : OrderBook :=
  mkOrderBook (replicate MaxLevels zero_level) (replicate MaxLevels zero_level) 0 0.

Definition book_clear (b : OrderBook) : OrderBook := mkOrderBook (bid_ b) (ask_ b) 0 0.

Definition book_apply (side : Z) (price : double) (new_size : Z) (b : OrderBook) : OrderBook :=
  if side =? Side_u8 Bid then
    let '(lv, n) := apply_side (bid_ b) (n_bid_ b) price new_size true in
    mkOrderBook lv (ask_ b) n (n_ask_ b)
  else
    let '(lv, n) := apply_side (ask_ b) (n_ask_ b) price new_size false in
    mkOrderBook (bid_ b) lv (n_bid_ b) n.

Definition book_apply_delta (d : BookDelta) : OrderBook → OrderBook :=
  book_apply (bd_side d) (bd_price d) (bd_new_size d).

Definition book_apply_level (l : SnapshotLevel) : OrderBook → OrderBook :=
  book_apply (sl_side l) (sl_price l) (sl_size l).

(** [for (const auto& l : levels) book_.apply(side, l.price, l.size);] *)
Definition book_apply_levels (ls : list SnapshotLevel) (b : OrderBook) : OrderBook :=
  foldl (λ b l, book_apply_level l b) b ls.

End OrderBook.

(** ** Observers *)

Definition has_bid (b : OrderBook) : bool := (0 <? n_bid_ b)%nat.
Definition has_ask (b : OrderBook) : bool := (0 <? n_ask_ b)%nat.
Definition best_bid (b : OrderBook) : double := lv_price (lv_at (bid_ b) 0).
Definition best_ask (b : OrderBook) : double := lv_price (lv_at (ask_ b) 0).
Definition best_bid_size (b : OrderBook) : Z := lv_size (lv_at (bid_ b) 0).
Definition best_ask_size (b : OrderBook) : Z := lv_size (lv_at (ask_ b) 0).
Definition spread (b : OrderBook) : double := fsub (best_ask b) (best_bid b).
Definition mid (b : OrderBook) : double := fmul (lit 1 2) (fadd (best_bid b) (best_ask b)).

Definition crossed (b : OrderBook) : bool :=
  has_bid b && has_ask b && fge (best_bid b) (best_ask b).

(** The comparison loop of [operator==] over the first [n] levels of two sides. *)
Fixpoint levels_eq (a b : list Level) (k i : nat) : bool :=
  match k with
  | O => true
  | S k' =>
      if negb (feq (lv_price (lv_at a i)) (lv_price (lv_at b i)))
         || negb (lv_size (lv_at a i) =? lv_size (lv_at b i))
      then false else levels_eq a b k' (S i)
  end.

Definition book_eq (a b : OrderBook) : bool :=
  if negb (n_bid_ a =? n_bid_ b)%nat || negb (n_ask_ a =? n_ask_ b)%nat then false
  else if negb (levels_eq (bid_ a) (bid_ b) (n_bid_ a) 0) then false
  else levels_eq (ask_ a) (ask_ b) (n_ask_ a) 0.

(** ** Specification of a side

    A side is the list of its active levels; an update removes, replaces or
    inserts in rank order and keeps the best [cap]. *)

Definition active (lv : list Level) (n : nat) : list Level := take n lv.

Definition at_price (p : double) (x : Level) : Prop := feq (lv_price x) p = true.
Global Instance at_price_dec p x : Decision (at_price p x).
Proof. unfold at_price. apply _. Defined.

Definition ref_remove (p : double) (l : list Level) : list Level :=
  filter (λ x, ¬ at_price p x) l.

Definition ref_replace (p : double) (s : Z) (l : list Level) : list Level :=
  (λ x, if decide (at_price p x) then mkLevel (lv_price x) s else x) <$> l.

Fixpoint ref_insert (d : bool) (p : double) (s : Z) (l : list Level) : list Level :=
  match l with
  | [] => [mkLevel p s]
  | x :: l' => if better d (lv_price x) p then x :: ref_insert d p s l'
               else mkLevel p s :: l
  end.

Definition ref_apply (cap : nat) (d : bool) (p : double) (s : Z) (l : list Level) : list Level :=
  if decide (Exists (at_price p) l)
  then (if s =? 0 then ref_remove p l else ref_replace p s l)
  else (if s =? 0 then l else take cap (ref_insert d p s l)).

(** The size resting at a price. *)
Definition size_at (p : double) (l : list Level) : option Z :=
  (λ ix, lv_size ix.2) <$> list_find (at_price p) l.

Definition ranked (d : bool) (x y : Level) : Prop := better d (lv_price x) (lv_price y) = true.

(** The invariant of a side: best first with no two levels at one price, and no
    empty level. *)
Record side_ok (cap : nat) (d : bool) (lv : list Level) (n : nat) : Prop := {
  so_len : length lv = cap;
  so_n : (n <= cap)%nat;
  so_sorted : StronglySorted (ranked d) (active lv n);
  so_nan : Forall (λ x, is_nan (lv_price x) = false) (active lv n);
  so_size : Forall (λ x, 0 < lv_size x < 2 ^ 64) (active lv n)
}.

Record book_ok (cap : nat) (b : OrderBook) : Prop := {
  bo_bid : side_ok cap true (bid_ b) (n_bid_ b);
  bo_ask : side_ok cap false (ask_ b) (n_ask_ b)
}.
