(* ===== verification/OrderBookProofs.v ===== *)
(** * OrderBook: the array loops implement the side specification

    Each loop of [apply_side] is characterised on the array, the whole routine is
    shown to be [ref_apply] on the list of active levels, and the specification's
    own theory (sortedness, lookups, order independence) is developed on lists. *)

From stdpp Require Import base numbers list sorting.
From Stdlib Require Import ZArith Lia.
From S2P Require Import Prelude Float64 OrderBook.

Local Open Scope Z_scope.

(** ** Ranking *)

Lemma better_trans d a b c : better d a b = true → better d b c = true → better d a c = true.
Proof. destruct d; unfold better, fgt; intros; eapply flt_trans; eauto. Qed.

Lemma better_irrefl d a : better d a a = false.
Proof. destruct d; apply flt_irrefl. Qed.

Lemma better_not_eq d a b : better d a b = true → feq a b = false.
Proof. destruct d; [rewrite feq_sym|]; apply flt_not_eq. Qed.

Lemma better_eq_l d a b c : feq a b = true → better d a c = better d b c.
Proof. destruct d; [apply feq_flt_r|apply feq_flt_l]. Qed.

Lemma better_eq_r d a b c : feq a b = true → better d c a = better d c b.
Proof. destruct d; [apply feq_flt_l|apply feq_flt_r]. Qed.

Lemma better_asym d a b : better d a b = true → better d b a = false.
Proof. destruct d; apply flt_asym. Qed.

Lemma better_total d a b :
  is_nan a = false → is_nan b = false →
  better d a b = true ∨ feq a b = true ∨ better d b a = true.
Proof. intros Ha Hb. destruct d; destruct (flt_trichotomy a b Ha Hb) as [?|[?|?]]; auto. Qed.

Global Instance ranked_trans d : Transitive (ranked d).
Proof. intros x y z. unfold ranked. apply better_trans. Qed.

(** ** The loops *)

Lemma lv_at_lookup lv i x : lv !! i = Some x → lv_at lv i = x.
Proof. unfold lv_at. by intros ->. Qed.

Lemma lv_at_lt lv i : (i < length lv)%nat → lv !! i = Some (lv_at lv i).
Proof. intros H. unfold lv_at. destruct (lookup_lt_is_Some_2 lv i H) as [x ->]. done. Qed.

Lemma drop_lv_at lv i k :
  (i + S k <= length lv)%nat → take (S k) (drop i lv) = lv_at lv i :: take k (drop (S i) lv).
Proof. intros H. rewrite (drop_S lv (lv_at lv i) i); [done|]. apply lv_at_lt. lia. Qed.

Lemma find_level_spec lv p k i :
  (i + k <= length lv)%nat →
  find_level lv p k i = (λ jx, (i + jx.1)%nat) <$> list_find (at_price p) (take k (drop i lv)).
Proof.
  revert i. induction k as [|k IH]; intros i Hk; [by rewrite take_0|].
  rewrite drop_lv_at by done. cbn [find_level list_find].
  destruct (decide (at_price p (lv_at lv i))) as [E|E]; unfold at_price in E.
  - rewrite E. cbn. by rewrite Nat.add_0_r.
  - apply not_true_is_false in E. rewrite E, IH by lia.
    destruct (list_find _ _) as [[j x]|]; cbn; [|done]. f_equal. lia.
Qed.

(** The insertion point is the number of leading levels that rank above. *)
Fixpoint above (d : bool) (p : double) (l : list Level) : nat :=
  match l with
  | [] => O
  | x :: l' => if better d (lv_price x) p then S (above d p l') else O
  end.

Lemma above_le d p l : (above d p l <= length l)%nat.
Proof. induction l as [|x l IH]; cbn; [done|]. destruct (better _ _ _); lia. Qed.

Lemma insert_pos_spec lv d p k i :
  (i + k <= length lv)%nat → insert_pos lv d p k i = (i + above d p (take k (drop i lv)))%nat.
Proof.
  revert i. induction k as [|k IH]; intros i Hk; [rewrite take_0; cbn; lia|].
  rewrite drop_lv_at by done. cbn [insert_pos above].
  destruct (better _ _ _); [rewrite IH by lia|]; lia.
Qed.

Lemma ref_insert_split d p s l :
  ref_insert d p s l = take (above d p l) l ++ mkLevel p s :: drop (above d p l) l.
Proof.
  induction l as [|x l IH]; [done|]. cbn. destruct (better _ _ _); [|done].
  cbn. by rewrite IH.
Qed.

Lemma shift_down_lookup k j lv i :
  (0 < j)%nat → (j + k <= length lv)%nat →
  shift_down k j lv !! i =
    if decide (j - 1 <= i < j - 1 + k)%nat then lv !! S i else lv !! i.
Proof.
  revert j lv. induction k as [|k IH]; intros j lv Hj Hk; cbn [shift_down].
  { rewrite decide_False by lia. done. }
  rewrite IH by (rewrite ?length_insert; lia).
  destruct (decide (i = j - 1)%nat) as [->|Hne].
  - repeat case_decide; try lia. rewrite list_lookup_insert_eq by lia.
    rewrite <- lv_at_lt by lia. f_equal. lia.
  - repeat case_decide; try lia; by rewrite list_lookup_insert_ne by lia.
Qed.

Lemma shift_down_length k j lv : length (shift_down k j lv) = length lv.
Proof.
  revert j lv. induction k as [|k IH]; intros j lv; cbn; [done|]. by rewrite IH, length_insert.
Qed.

Lemma shift_up_lookup pos j lv i :
  (j < length lv)%nat →
  shift_up pos j lv !! i = if decide (pos < i <= j)%nat then lv !! (i - 1)%nat else lv !! i.
Proof.
  revert lv. induction j as [|j IH]; intros lv Hj; cbn [shift_up].
  { rewrite decide_False by lia. done. }
  destruct (Nat.ltb_spec pos (S j)).
  2:{ rewrite decide_False by lia. done. }
  rewrite IH by (rewrite length_insert; lia).
  destruct (decide (i = S j)) as [->|Hne].
  - repeat case_decide; try lia. rewrite list_lookup_insert_eq by lia.
    rewrite <- lv_at_lt by lia. f_equal. lia.
  - repeat case_decide; try lia; by rewrite list_lookup_insert_ne by lia.
Qed.

Lemma shift_up_length pos j lv : length (shift_up pos j lv) = length lv.
Proof.
  revert lv. induction j as [|j IH]; intros lv; cbn [shift_up]; [done|].
  destruct (pos <? S j)%nat; [by rewrite IH, length_insert|done].
Qed.

(** ** The routine on the active levels *)

Lemma active_remove lv n i :
  (i < n <= length lv)%nat →
  active (shift_down (n - (i + 1)) (i + 1) lv) (n - 1) = delete i (active lv n).
Proof.
  intros H. unfold active. apply list_eq. intros k.
  destruct (decide (k < n - 1)%nat) as [Hk|Hk].
  - rewrite lookup_take_lt, shift_down_lookup by lia.
    case_decide.
    + rewrite list_lookup_delete_ge, lookup_take_lt by lia. done.
    + rewrite list_lookup_delete_lt, lookup_take_lt by lia. done.
  - rewrite lookup_take_ge, list_lookup_delete_ge, lookup_take_ge by lia. done.
Qed.

(** Shifting up from [j] and writing the new level at [pos]. *)
Lemma active_insert lv n pos j x m :
  (pos <= n <= length lv)%nat → (pos <= j < length lv)%nat → m = S j → (m <= S n)%nat →
  active (<[pos := x]> (shift_up pos j lv)) m =
  take m (take pos (active lv n) ++ x :: drop pos (active lv n)).
Proof.
  intros Hp Hj -> Hm. unfold active. apply list_eq. intros k.
  destruct (decide (k < S j)%nat) as [Hk|Hk].
  2:{ by rewrite !lookup_take_ge by lia. }
  rewrite !lookup_take_lt by lia. destruct (decide (k = pos)) as [->|Hne].
  { rewrite list_lookup_insert_eq by (rewrite shift_up_length; lia).
    rewrite lookup_app_r; rewrite length_take, length_take; [|lia].
    by replace (_ - _)%nat with 0%nat by lia. }
  rewrite list_lookup_insert_ne, shift_up_lookup by lia.
  destruct (decide (k < pos)%nat).
  - rewrite decide_False by lia. rewrite lookup_app_l by (rewrite length_take, length_take; lia).
    rewrite !lookup_take_lt by lia. done.
  - rewrite decide_True by lia. rewrite lookup_app_r; rewrite length_take, length_take; [|lia].
    replace (k - _ `min` _)%nat with (S (k - pos - 1)) by lia.
    change ((x :: ?l) !! S ?i) with (l !! i). rewrite lookup_drop, lookup_take_lt by lia. f_equal. lia.
Qed.

Lemma find_active lv p n :
  (n <= length lv)%nat →
  find_level lv p n 0 = fst <$> list_find (at_price p) (active lv n).
Proof. intros H. rewrite find_level_spec by lia. unfold active. by rewrite drop_0. Qed.

Lemma insert_pos_active lv d p n :
  (n <= length lv)%nat → insert_pos lv d p n 0 = above d p (active lv n).
Proof. intros H. rewrite insert_pos_spec by lia. unfold active. by rewrite drop_0. Qed.

Lemma length_active lv n : (n <= length lv)%nat → length (active lv n) = n.
Proof. intros. unfold active. rewrite length_take. lia. Qed.

(** In a ranked list at most one level is at a price. *)
Lemma ranked_at_price d p x y : ranked d x y → at_price p x → ¬ at_price p y.
Proof.
  unfold ranked, at_price. intros Hr Hx Hy. rewrite feq_sym in Hy.
  pose proof (feq_trans _ _ _ Hx Hy) as Heq. rewrite (better_not_eq _ _ _ Hr) in Heq. done.
Qed.

Lemma ranked_tail_not_at d p x l :
  Forall (ranked d x) l → at_price p x → Forall (λ y, ¬ at_price p y) l.
Proof. intros Hf Hx. eapply Forall_impl; [exact Hf|]. intros y Hy. by eapply ranked_at_price. Qed.

Lemma filter_none_at p l :
  Forall (λ y, ¬ at_price p y) l → ref_remove p l = l ∧ ∀ s, ref_replace p s l = l.
Proof.
  intros Hf. split.
  - unfold ref_remove. induction Hf; [done|]. rewrite filter_cons_True by done. by f_equal.
  - intros s. unfold ref_replace. induction Hf; [done|]. cbn. rewrite decide_False by done.
    by f_equal.
Qed.

Lemma found_remove d p l i x :
  StronglySorted (ranked d) l → list_find (at_price p) l = Some (i, x) →
  delete i l = ref_remove p l ∧ ∀ s, <[i := mkLevel (lv_price x) s]> l = ref_replace p s l.
Proof.
  intros Hs. revert i. induction Hs as [|y l Hs IH Hf]; intros i; [done|].
  cbn [list_find]. destruct (decide (at_price p y)) as [Hy|Hy].
  - intros [= <- ->]. destruct (filter_none_at p l) as [H1 H2]; [by eapply ranked_tail_not_at|].
    split; [|intros s; unfold ref_replace; cbn; rewrite decide_True by done; f_equal; exact (eq_sym (H2 s))].
    unfold ref_remove. rewrite filter_cons_False by (by intros ?). exact (eq_sym H1).
  - destruct (list_find _ l) as [[j z]|] eqn:E; [|done]. intros [= <- ->].
    destruct (IH j eq_refl) as [H1 H2]. split.
    + unfold ref_remove. rewrite filter_cons_True by done. exact (f_equal (cons y) H1).
    + intros s. unfold ref_replace. cbn. rewrite decide_False by done. exact (f_equal (cons y) (H2 s)).
Qed.

Lemma find_exists p l :
  match list_find (at_price p) l with
  | Some _ => Exists (at_price p) l
  | None => ¬ Exists (at_price p) l
  end.
Proof.
  destruct (list_find _ l) as [[i x]|] eqn:E.
  - apply list_find_Some in E as (Hi&Hx&_). apply Exists_exists. exists x.
    split; [by eapply list_elem_of_lookup_2|done].
  - apply list_find_None in E. by apply Forall_not_Exists.
Qed.

(** [apply_side] is [ref_apply] on the active levels, for every price, NaN
    included. *)
Lemma apply_side_ref cap lv n p s d lv' n' :
  length lv = cap → (n <= cap)%nat → StronglySorted (ranked d) (active lv n) →
  apply_side cap lv n p s d = (lv', n') →
  length lv' = cap ∧ (n' <= cap)%nat ∧ active lv' n' = ref_apply cap d p s (active lv n).
Proof.
  intros Hlen Hn Hs. unfold apply_side, ref_apply.
  rewrite find_active, insert_pos_active by lia.
  pose proof (find_exists p (active lv n)) as Hex. pose proof (above_le d p (active lv n)) as Hab.
  rewrite length_active in Hab by lia. set (pos := above d p (active lv n)) in *.
  destruct (list_find _ (active lv n)) as [[i x]|] eqn:Hfind; cbn [fmap option_fmap option_map fst].
  - rewrite decide_True by done. destruct (found_remove _ _ _ _ _ Hs Hfind) as [Hrm Hrp].
    apply list_find_Some in Hfind as (Hi&_&_). pose proof (lookup_lt_Some _ _ _ Hi) as Hlt.
    rewrite length_active in Hlt by lia. destruct (s =? 0); intros [= <- <-].
    + rewrite shift_down_length, active_remove by lia. split; [done|]. split; [lia|done].
    + rewrite length_insert. split; [done|]. split; [done|]. rewrite <- Hrp.
      unfold active in *. rewrite lookup_take_lt in Hi by lia.
      rewrite (lv_at_lookup _ _ _ Hi). by rewrite take_insert_lt by lia.
  - rewrite decide_False by done. destruct (s =? 0); [by intros [= <- <-]|].
    rewrite ref_insert_split. fold pos.
    destruct (Nat.ltb_spec n cap) as [Hroom|Hfull]; [|destruct (Nat.ltb_spec pos cap)];
      intros [= <- <-]; rewrite ?length_insert, ?shift_up_length; (split; [done|]; split; [lia|]).
    + rewrite (active_insert lv n pos n) by lia. set (l' := take pos _ ++ _).
      assert (length l' = S n) as Hl'.
      { unfold l'. rewrite length_app, length_take, length_cons, length_drop, length_active by lia.
        lia. }
      by rewrite !take_ge by lia.
    + assert (n = cap) as -> by lia. by apply active_insert; lia.
    + assert (n = cap) as -> by lia. assert (pos = cap) as -> by lia.
      rewrite (take_ge (active lv cap) cap) by (rewrite length_active; lia).
      rewrite take_app_length'; [done|]. rewrite length_active; lia.
Qed.
