(* ===== verification/OrderBookTheory.v ===== *)
(** * OrderBook: theory of the side specification

    Sortedness and bounds of [ref_apply], what it does to the size resting at each
    price, the equivalence of sides that [operator==] decides, and the independence
    of a rebuild from the order of the levels. *)

From stdpp Require Import base numbers list sorting.
From Stdlib Require Import ZArith Lia.
From S2P Require Import Prelude Float64 OrderBook OrderBookProofs.

Local Open Scope Z_scope.

(** The invariant of the list of active levels. *)
Record levels_ok (d : bool) (l : list Level) : Prop := {
  lo_sorted : StronglySorted (ranked d) l;
  lo_nan : Forall (λ x, is_nan (lv_price x) = false) l;
  lo_size : Forall (λ x, 0 < lv_size x < 2 ^ 64) l
}.

Lemma levels_ok_nil d : levels_ok d [].
Proof. split; constructor. Qed.

Lemma sorted_take d l k : StronglySorted (ranked d) l → StronglySorted (ranked d) (take k l).
Proof. intros H. rewrite <- (take_drop k l) in H. by eapply StronglySorted_app_1_l. Qed.

Lemma levels_ok_take d l k : levels_ok d l → levels_ok d (take k l).
Proof. intros []. split; [by apply sorted_take|by apply Forall_take..]. Qed.

Lemma ref_insert_perm d p s l : ref_insert d p s l ≡ₚ mkLevel p s :: l.
Proof.
  rewrite ref_insert_split. rewrite <- Permutation_middle. by rewrite take_drop.
Qed.

Lemma ref_insert_sorted d p s l :
  is_nan p = false → levels_ok d l → ¬ Exists (at_price p) l →
  StronglySorted (ranked d) (ref_insert d p s l).
Proof.
  intros Hp [Hs Hn _] Hex. revert Hn Hex. induction Hs as [|x l Hs IH Hf]; intros Hn Hex.
  { repeat constructor. }
  apply Forall_cons in Hn as [Hx Hn]. cbn [ref_insert].
  destruct (better d (lv_price x) p) eqn:E.
  - constructor; [apply IH; [done|]; by intros ?; apply Hex; constructor 2|].
    rewrite ref_insert_perm. by constructor.
  - assert (Hpx : ranked d (mkLevel p s) x).
    { unfold ranked. cbn. destruct (better_total d _ _ Hp Hx) as [?|[Heq|?]]; [done| |congruence].
      destruct Hex. constructor. unfold at_price. by rewrite feq_sym. }
    constructor; [by constructor|]. constructor; [done|].
    eapply Forall_impl; [exact Hf|]. intros y Hy. by transitivity x.
Qed.

Lemma ref_insert_ok d p s l :
  is_nan p = false → 0 < s < 2 ^ 64 → levels_ok d l → ¬ Exists (at_price p) l →
  levels_ok d (ref_insert d p s l).
Proof.
  intros Hp Hsz H Hex. split; [by apply ref_insert_sorted|..];
    rewrite ref_insert_perm; constructor; try done; by destruct H.
Qed.

Lemma Forall_ref_remove (P : Level → Prop) p l : Forall P l → Forall P (ref_remove p l).
Proof. rewrite !Forall_forall. intros H x [_ Hx]%list_elem_of_filter. auto. Qed.

Lemma ref_remove_ok d p l : levels_ok d l → levels_ok d (ref_remove p l).
Proof.
  intros [Hs Hn Hz]. split; [|by apply Forall_ref_remove..].
  clear Hn Hz. unfold ref_remove. induction Hs as [|x l Hs IH Hf]; [constructor|].
  destruct (decide (¬ at_price p x)).
  - rewrite filter_cons_True by done. constructor; [done|]. by apply Forall_ref_remove.
  - by rewrite filter_cons_False.
Qed.

Lemma ref_replace_ok d p s l : 0 < s < 2 ^ 64 → levels_ok d l → levels_ok d (ref_replace p s l).
Proof.
  intros Hsz [Hs Hn Hz]. unfold ref_replace. split.
  - apply (StronglySorted_fmap _ (ranked d)); [|done].
    intros x y. unfold ranked. repeat case_decide; done.
  - apply Forall_fmap. eapply Forall_impl; [exact Hn|]. intros x. cbn. by case_decide.
  - apply Forall_fmap. eapply Forall_impl; [exact Hz|]. intros x. cbn. by case_decide.
Qed.

Lemma ref_apply_ok cap d p s l :
  is_nan p = false → is_u64 s → levels_ok d l → levels_ok d (ref_apply cap d p s l).
Proof.
  intros Hp Hs H. unfold ref_apply, is_u64 in *. case_decide as Hex; zbool.
  - by apply ref_remove_ok.
  - apply ref_replace_ok; [lia|done].
  - done.
  - apply levels_ok_take, ref_insert_ok; [done|lia|done|done].
Qed.

(** ** The size resting at a price *)

Lemma size_at_None p l : size_at p l = None ↔ Forall (λ x, ¬ at_price p x) l.
Proof.
  unfold size_at. rewrite <- list_find_None. apply fmap_None.
Qed.

Lemma size_at_Some d p l z :
  StronglySorted (ranked d) l →
  size_at p l = Some z ↔ ∃ x, x ∈ l ∧ at_price p x ∧ lv_size x = z.
Proof.
  intros Hs. unfold size_at. split.
  - destruct (list_find _ l) as [[i x]|] eqn:E; [|done]. intros [= <-].
    apply list_find_Some in E as (Hi&Hx&_). exists x. split; [by eapply list_elem_of_lookup_2|done].
  - induction Hs as [|y l Hs IH Hf]; intros (x&Hin&Hx&<-); [by apply not_elem_of_nil in Hin|].
    cbn [list_find]. apply elem_of_cons in Hin as [->|Hin].
    + by rewrite decide_True.
    + rewrite Forall_forall in Hf. rewrite decide_False.
      2:{ intros Hy. by eapply ranked_at_price; [apply Hf| |]. }
      destruct (list_find _ l) as [[i z]|]; cbn in *; apply IH; eauto.
Qed.

Lemma at_price_eq p q x : feq p q = true → at_price p x ↔ at_price q x.
Proof.
  intros H. unfold at_price. rewrite !(feq_sym (lv_price x)). by rewrite (feq_cong_l _ _ _ H).
Qed.

Lemma size_at_remove d p q l :
  levels_ok d l → size_at q (ref_remove p l) = if feq p q then None else size_at q l.
Proof.
  intros H. pose proof (lo_sorted _ _ H) as Hs. pose proof (lo_sorted _ _ (ref_remove_ok d p l H)) as Hs'.
  apply option_eq. intros z. rewrite (size_at_Some d q _ z Hs').
  setoid_rewrite list_elem_of_filter. destruct (feq p q) eqn:E.
  - split; [|done]. intros (x&[Hx _]&Hq&_). destruct Hx. by apply (at_price_eq p q).
  - rewrite (size_at_Some d q _ z Hs). split; intros (x&Hin&Hq&Hz).
    + exists x. destruct Hin. auto.
    + exists x. split; [|done]. split; [|done]. intros Hp. unfold at_price in *.
      rewrite feq_sym in Hp. by rewrite (feq_trans _ _ _ Hp Hq) in E.
Qed.

Lemma size_at_replace d p q s l :
  levels_ok d l → is_nan p = false → Exists (at_price p) l →
  size_at q (ref_replace p s l) = if feq p q then Some s else size_at q l.
Proof.
  intros H Hp Hex. pose proof (lo_sorted _ _ H) as Hs. unfold size_at, ref_replace.
  rewrite list_find_fmap.
  rewrite (list_find_ext _ (at_price q) l) by (intros x; cbn; by case_decide).
  destruct (feq p q) eqn:E.
  - destruct (list_find _ l) as [[i x]|] eqn:F.
    + apply list_find_Some in F as (_&Hx&_). cbn.
      rewrite decide_True by (by apply (at_price_eq p q)). done.
    + apply list_find_None, Forall_not_Exists in F. destruct F.
      eapply Exists_impl; [exact Hex|]. intros x Hx. by apply (at_price_eq p q).
  - destruct (list_find _ l) as [[i x]|] eqn:F; [|done].
    apply list_find_Some in F as (_&Hx&_). cbn. rewrite decide_False; [done|].
    unfold at_price in *. intros Hpx. rewrite feq_sym in Hpx.
    by rewrite (feq_trans _ _ _ Hpx Hx) in E.
Qed.

Lemma size_at_insert d p q s l :
  levels_ok d l → is_nan p = false → ¬ Exists (at_price p) l →
  size_at q (ref_insert d p s l) = if feq p q then Some s else size_at q l.
Proof.
  intros H Hp Hex. pose proof (lo_sorted _ _ H) as Hs.
  pose proof (ref_insert_sorted d p s l Hp H Hex) as Hs'.
  apply option_eq. intros z. rewrite (size_at_Some d q _ z Hs').
  setoid_rewrite ref_insert_perm. setoid_rewrite elem_of_cons. destruct (feq p q) eqn:E.
  - split.
    + intros (x&[->|Hin]&Hq&<-); [done|]. destruct Hex. apply Exists_exists. exists x.
      split; [done|]. by apply (at_price_eq p q).
    + intros [= <-]. exists (mkLevel p s). auto.
  - rewrite (size_at_Some d q _ z Hs). split.
    + intros (x&[->|Hin]&Hq&<-); [unfold at_price in Hq; cbn in Hq; congruence|eauto].
    + intros (x&Hin&Hq&<-). eauto.
Qed.

Lemma not_exists_size p l : ¬ Exists (at_price p) l ↔ size_at p l = None.
Proof. rewrite size_at_None. symmetry. apply Forall_Exists_neg. Qed.

(** What an update does to the size at every price, as long as the side has room
    for the level. *)
Lemma size_at_apply cap d p q s l :
  levels_ok d l → is_nan p = false → 0 <= s →
  (s = 0 ∨ size_at p l ≠ None ∨ (length l < cap)%nat) →
  size_at q (ref_apply cap d p s l) =
    if feq p q then (if s =? 0 then None else Some s) else size_at q l.
Proof.
  intros H Hp Hs Hroom. unfold ref_apply. case_decide as Hex; zbool.
  - by apply (size_at_remove d).
  - by apply (size_at_replace d).
  - apply not_exists_size in Hex. destruct (feq p q) eqn:E; [|done].
    apply size_at_None. apply size_at_None in Hex. eapply Forall_impl; [exact Hex|].
    intros x Hx Hq. apply Hx. by apply (at_price_eq p q).
  - destruct Hroom as [?|[Hroom|Hroom]]; [lia|by apply not_exists_size in Hex|].
    rewrite take_ge; [by apply size_at_insert|].
    rewrite (Permutation_length (ref_insert_perm d p s l)). cbn [length]. lia.
Qed.

(** On a full side a new level displaces the worst one, or is itself the worst. *)
Lemma ref_apply_full cap d p s l :
  levels_ok d l → is_nan p = false → 0 < s < 2 ^ 64 → size_at p l = None → length l = cap →
  ∃ w, ref_apply cap d p s l ++ [w] ≡ₚ mkLevel p s :: l ∧
       Forall (λ x, ranked d x w) (ref_apply cap d p s l).
Proof.
  intros H Hp Hs Hno Hlen. pose proof (proj2 (not_exists_size p l) Hno) as Hex.
  unfold ref_apply. rewrite decide_False by done. zbool; [lia|].
  pose proof (ref_insert_perm d p s l) as Hperm.
  pose proof (Permutation_length Hperm) as Hl. cbn [length] in Hl. rewrite Hlen in Hl.
  pose proof (ref_insert_sorted d p s l Hp H Hex) as Hsort.
  destruct (drop cap (ref_insert d p s l)) as [|w [|]] eqn:Hd;
    apply (f_equal length) in Hd as Hdl; rewrite length_drop in Hdl; cbn in Hdl; try lia.
  exists w. rewrite <- Hd, take_drop. split; [done|].
  rewrite <- (take_drop cap (ref_insert d p s l)), Hd in Hsort.
  apply Forall_forall. intros x Hx. eapply StronglySorted_app_1_elem_of; [exact Hsort|done|].
  apply elem_of_cons. auto.
Qed.

(** ** Equivalence of sides

    Two prices are interchangeable when they are the same double or compare equal
    (the two zeros).  [operator==] decides the induced equivalence of books. *)

Definition price_equiv (p q : double) : Prop := p = q ∨ feq p q = true.

Global Instance price_equiv_equivalence : Equivalence price_equiv.
Proof.
  unfold price_equiv. split.
  - by left.
  - intros p q [->|H]; [by left|right]. by rewrite feq_sym.
  - intros p q r [->|H1] [->|H2]; auto. right. by eapply feq_trans.
Qed.

Lemma feq_price_equiv p q r : price_equiv p q → feq p r = feq q r.
Proof. intros [->|H]; [done|]. by apply feq_cong_l. Qed.

Global Instance feq_proper : Proper (price_equiv ==> price_equiv ==> eq) feq.
Proof.
  intros p p' Hp q q' Hq. rewrite (feq_price_equiv _ _ _ Hp), feq_sym, (feq_price_equiv _ _ _ Hq).
  apply feq_sym.
Qed.

Global Instance better_proper d : Proper (price_equiv ==> price_equiv ==> eq) (better d).
Proof.
  intros p p' Hp q q' Hq. transitivity (better d p' q).
  - destruct Hp as [->|Hp]; [done|]. by apply better_eq_l.
  - destruct Hq as [->|Hq]; [done|]. by apply better_eq_r.
Qed.

Definition level_equiv (x y : Level) : Prop :=
  price_equiv (lv_price x) (lv_price y) ∧ lv_size x = lv_size y.

Global Instance level_equiv_equivalence : Equivalence level_equiv.
Proof.
  split.
  - intros x. split; reflexivity.
  - intros x y []. split; by symmetry.
  - intros x y z [] []. split; by etransitivity.
Qed.

Notation side_equiv := (Forall2 level_equiv).

Global Instance at_price_proper : Proper (price_equiv ==> level_equiv ==> iff) at_price.
Proof. intros p q Hp x y [Hx _]. unfold at_price. by rewrite Hx, Hp. Qed.

Lemma side_equiv_exists p q l1 l2 :
  price_equiv p q → side_equiv l1 l2 → Exists (at_price p) l1 ↔ Exists (at_price q) l2.
Proof.
  intros Hp. induction 1 as [|x y l1 l2 Hx Hl IH]; [by rewrite !Exists_nil|].
  rewrite !Exists_cons, IH. by rewrite Hx, Hp.
Qed.

Lemma side_equiv_insert d p q s l1 l2 :
  price_equiv p q → side_equiv l1 l2 → side_equiv (ref_insert d p s l1) (ref_insert d q s l2).
Proof.
  intros Hp. induction 1 as [|x y l1 l2 Hx Hl IH]; cbn [ref_insert].
  { constructor; [by split|constructor]. }
  destruct Hx as [Hpx Hsx]. rewrite Hpx, Hp. destruct (better d _ _).
  - by constructor.
  - constructor; [by split|]. by constructor.
Qed.

Lemma side_equiv_remove p q l1 l2 :
  price_equiv p q → side_equiv l1 l2 → side_equiv (ref_remove p l1) (ref_remove q l2).
Proof.
  intros Hp. unfold ref_remove. induction 1 as [|x y l1 l2 Hx Hl IH]; [constructor|].
  destruct (decide (at_price q y)) as [Hy|Hy].
  - rewrite !filter_cons_False; [done|by intros ?|]. intros Hn. apply Hn. by rewrite Hx, Hp.
  - rewrite !filter_cons_True; [by constructor|done|]. by rewrite Hx, Hp.
Qed.

Lemma side_equiv_replace p q s l1 l2 :
  price_equiv p q → side_equiv l1 l2 → side_equiv (ref_replace p s l1) (ref_replace q s l2).
Proof.
  intros Hp H. unfold ref_replace. apply Forall2_fmap_2. eapply Forall2_impl; [exact H|].
  intros x y Hx. destruct (decide (at_price q y)) as [Hy|Hy].
  - rewrite decide_True by (by rewrite Hx, Hp). split; [apply Hx|done].
  - rewrite decide_False by (by rewrite Hx, Hp). done.
Qed.

Lemma side_equiv_apply cap d p q s l1 l2 :
  price_equiv p q → side_equiv l1 l2 →
  side_equiv (ref_apply cap d p s l1) (ref_apply cap d q s l2).
Proof.
  intros Hp H. unfold ref_apply. pose proof (side_equiv_exists _ _ _ _ Hp H) as Hex.
  destruct (decide (Exists (at_price q) l2)) as [E|E].
  - rewrite decide_True by (by apply Hex). destruct (s =? 0);
      [by apply side_equiv_remove|by apply side_equiv_replace].
  - rewrite decide_False by (by rewrite Hex). destruct (s =? 0); [done|].
    by apply Forall2_take, side_equiv_insert.
Qed.

(** A side is determined by the sizes it shows. *)
Lemma size_at_cons q x l :
  size_at q (x :: l) = if decide (at_price q x) then Some (lv_size x) else size_at q l.
Proof.
  unfold size_at. cbn [list_find]. case_decide; [done|]. by destruct (list_find _ l) as [[]|].
Qed.

Lemma size_at_tail d q x l :
  Forall (ranked d x) l → at_price q x → size_at q l = None.
Proof. intros Hf Hx. apply size_at_None. by eapply ranked_tail_not_at. Qed.

Lemma side_equiv_size q l1 l2 : side_equiv l1 l2 → size_at q l1 = size_at q l2.
Proof.
  induction 1 as [|x y l1 l2 Hx Hl IH]; [done|]. rewrite !size_at_cons, IH.
  assert (Hat : at_price q x ↔ at_price q y) by (by rewrite Hx). destruct Hx as [_ Hz].
  destruct (decide (at_price q y)).
  - rewrite decide_True by (by apply Hat). by rewrite Hz.
  - by rewrite decide_False by (by rewrite Hat).
Qed.

(** The head of one side is found in the other at or below its head. *)
Lemma head_found d x y l1 l2 :
  Forall (ranked d y) l2 → StronglySorted (ranked d) (y :: l2) → is_nan (lv_price x) = false →
  (∀ q, is_nan q = false → size_at q (x :: l1) = size_at q (y :: l2)) →
  feq (lv_price y) (lv_price x) = true ∨ better d (lv_price y) (lv_price x) = true.
Proof.
  intros F2 S2 Nx Hext. specialize (Hext _ Nx). rewrite size_at_cons in Hext.
  rewrite decide_True in Hext by (by apply feq_refl). symmetry in Hext.
  apply (size_at_Some d _ _ _ S2) in Hext as (z&Hz&Hzx&_). unfold at_price in Hzx.
  apply elem_of_cons in Hz as [->|Hz]; [by left|right].
  rewrite Forall_forall in F2. specialize (F2 z Hz). unfold ranked in F2.
  by rewrite (better_eq_r d _ _ _ Hzx) in F2.
Qed.

Lemma side_equiv_ext d l1 l2 :
  levels_ok d l1 → levels_ok d l2 →
  (∀ q, is_nan q = false → size_at q l1 = size_at q l2) → side_equiv l1 l2.
Proof.
  intros [H1 N1 _] [H2 N2 _]. revert l2 H2 N2.
  induction H1 as [|x l1 H1 IH F1]; intros l2 H2 N2 Hext.
  - destruct l2 as [|y l2]; [constructor|]. apply Forall_cons in N2 as [Ny _].
    specialize (Hext (lv_price y) Ny). rewrite size_at_cons in Hext.
    by rewrite decide_True in Hext by (by apply feq_refl).
  - apply Forall_cons in N1 as [Nx N1]. destruct l2 as [|y l2].
    { specialize (Hext (lv_price x) Nx). rewrite size_at_cons in Hext.
      by rewrite decide_True in Hext by (by apply feq_refl). }
    apply Forall_cons in N2 as [Ny N2]. pose proof H2 as [H2' F2]%StronglySorted_inv.
    assert (S1 : StronglySorted (ranked d) (x :: l1)) by (by constructor).
    destruct (head_found d x y l1 l2 F2 H2 Nx Hext) as [Hyx|Hyx].
    2:{ destruct (head_found d y x l2 l1 F1 S1 Ny) as [Hxy|Hxy]; [by intros; symmetry; apply Hext|..].
        - rewrite feq_sym, (better_not_eq _ _ _ Hyx) in Hxy. done.
        - by rewrite (better_asym _ _ _ Hyx) in Hxy. }
    assert (Hat : ∀ q, at_price q x ↔ at_price q y).
    { intros q. unfold at_price. rewrite feq_sym in Hyx. by rewrite (feq_cong_l _ _ _ Hyx). }
    constructor.
    + split; [right; by rewrite feq_sym|]. specialize (Hext _ Nx). rewrite !size_at_cons in Hext.
      rewrite !decide_True in Hext; [by injection Hext|done|by apply feq_refl].
    + apply IH; [done..|]. intros q Nq. specialize (Hext q Nq). rewrite !size_at_cons in Hext.
      destruct (decide (at_price q x)) as [Hq|Hq].
      * rewrite (size_at_tail d q x l1), (size_at_tail d q y l2); [done|done|by apply Hat|done|done].
      * rewrite decide_False in Hext; [done|]. by rewrite <- Hat.
Qed.

(** ** Building a side from a list of levels *)

(** No two levels at one price. *)
Fixpoint distinct (ls : list Level) : Prop :=
  match ls with
  | [] => True
  | x :: ls' => ¬ Exists (at_price (lv_price x)) ls' ∧ distinct ls'
  end.

Global Instance distinct_dec ls : Decision (distinct ls).
Proof. induction ls; cbn [distinct]; apply _. Defined.

Definition ref_build (cap : nat) (d : bool) (ls l : list Level) : list Level :=
  foldl (λ l x, ref_apply cap d (lv_price x) (lv_size x) l) l ls.

Definition ref_sort (d : bool) (ls l : list Level) : list Level :=
  foldl (λ l x, ref_insert d (lv_price x) (lv_size x) l) l ls.

Lemma at_price_sym x y : at_price (lv_price x) y ↔ at_price (lv_price y) x.
Proof. unfold at_price. by rewrite feq_sym. Qed.

Lemma exists_perm p l1 l2 : l1 ≡ₚ l2 → Exists (at_price p) l1 ↔ Exists (at_price p) l2.
Proof. intros H. rewrite !Exists_exists. by setoid_rewrite H. Qed.

Lemma distinct_perm l1 l2 : l1 ≡ₚ l2 → distinct l1 → distinct l2.
Proof.
  induction 1 as [|x l1 l2 H IH|x y l|l1 l2 l3 _ IH1 _ IH2]; cbn [distinct]; auto.
  - rewrite (exists_perm _ _ _ H). naive_solver.
  - rewrite !Exists_cons. rewrite (at_price_sym y x). naive_solver.
Qed.

Lemma sorted_distinct d l : StronglySorted (ranked d) l → distinct l.
Proof.
  induction 1 as [|x l Hs IH Hf]; cbn; [done|]. split; [|done].
  apply Forall_Exists_neg. eapply Forall_impl; [exact Hf|]. intros y Hy. unfold at_price.
  rewrite feq_sym. by rewrite (better_not_eq _ _ _ Hy).
Qed.

Lemma mkLevel_eta x : mkLevel (lv_price x) (lv_size x) = x.
Proof. by destruct x. Qed.

(** Truncating before an insertion is lost in the truncation after it. *)
Lemma take_ref_insert cap d p s l :
  take cap (ref_insert d p s (take cap l)) = take cap (ref_insert d p s l).
Proof.
  revert cap. induction l as [|x l IH]; intros [|cap]; [done..|].
  rewrite firstn_cons. cbn [ref_insert]. destruct (better _ _ _).
  - rewrite !firstn_cons. by rewrite IH.
  - rewrite !firstn_cons. f_equal. destruct cap; [done|]. rewrite !firstn_cons. f_equal.
    rewrite take_take. f_equal. lia.
Qed.

Definition good_level (x : Level) : Prop := is_nan (lv_price x) = false ∧ 0 < lv_size x < 2 ^ 64.

Lemma fresh_after_insert d x ls L :
  ¬ Exists (at_price (lv_price x)) ls → Forall (λ y, ¬ Exists (at_price (lv_price y)) L) ls →
  Forall (λ y, ¬ Exists (at_price (lv_price y)) (ref_insert d (lv_price x) (lv_size x) L)) ls.
Proof.
  intros Hx Hno. apply Forall_forall. intros y Hy Hex.
  rewrite (exists_perm _ _ _ (ref_insert_perm _ _ _ _)) in Hex.
  apply Exists_cons in Hex as [Hyx|Hex].
  - apply Hx, Exists_exists. exists y. split; [done|]. by apply at_price_sym.
  - rewrite Forall_forall in Hno. by eapply Hno.
Qed.

(** A build keeps the best [cap] of everything inserted. *)
Lemma ref_build_take cap d ls L :
  distinct ls → Forall good_level ls → Forall (λ x, ¬ Exists (at_price (lv_price x)) L) ls →
  ref_build cap d ls (take cap L) = take cap (ref_sort d ls L).
Proof.
  unfold ref_build, ref_sort. revert L.
  induction ls as [|x ls IH]; intros L Hd Hg Hno; [done|]. cbn [foldl].
  destruct Hd as [Hx Hd]. apply Forall_cons in Hg as [Hgx Hg]. apply Forall_cons in Hno as [Hnx Hno].
  unfold ref_apply at 2. rewrite decide_False.
  2:{ intros H. apply Hnx. rewrite <- (take_drop cap L). apply Exists_app. by left. }
  destruct Hgx as [_ Hsz]. zbool; [lia|]. rewrite take_ref_insert. apply IH; [done|done|].
  by apply fresh_after_insert.
Qed.

Lemma ref_sort_perm d ls L : ref_sort d ls L ≡ₚ ls ++ L.
Proof.
  unfold ref_sort. revert L. induction ls as [|x ls IH]; intros L; [done|]. cbn [foldl].
  rewrite IH, ref_insert_perm, mkLevel_eta. by rewrite <- Permutation_middle.
Qed.

Lemma ref_sort_ok d ls L :
  distinct ls → Forall good_level ls → Forall (λ x, ¬ Exists (at_price (lv_price x)) L) ls →
  levels_ok d L → levels_ok d (ref_sort d ls L).
Proof.
  unfold ref_sort. revert L.
  induction ls as [|x ls IH]; intros L Hd Hg Hno HL; [done|]. cbn [foldl].
  destruct Hd as [Hx Hd]. apply Forall_cons in Hg as [[Nx Hsz] Hg]. apply Forall_cons in Hno as [Hnx Hno].
  apply IH; [done|done|by apply fresh_after_insert|by apply ref_insert_ok].
Qed.

(** Two ranked lists of the same levels are the same list. *)
Lemma sorted_perm_eq d l1 l2 :
  StronglySorted (ranked d) l1 → StronglySorted (ranked d) l2 → l1 ≡ₚ l2 → l1 = l2.
Proof.
  apply StronglySorted_unique_strong. intros x y _ _ H1 H2. unfold ranked in *.
  by rewrite (better_asym _ _ _ H1) in H2.
Qed.

Lemma ref_build_nil cap d ls :
  distinct ls → Forall good_level ls →
  ref_build cap d ls [] = take cap (ref_sort d ls []) ∧ levels_ok d (ref_sort d ls []) ∧
  ref_sort d ls [] ≡ₚ ls.
Proof.
  intros Hd Hg.
  assert (Hno : Forall (λ x, ¬ Exists (at_price (lv_price x)) []) ls).
  { apply Forall_forall. intros x _ Hex. by apply Exists_nil in Hex. }
  split; [|split].
  - rewrite <- (ref_build_take cap d ls []) by done. by destruct cap.
  - apply ref_sort_ok; auto using levels_ok_nil.
  - rewrite ref_sort_perm. by rewrite app_nil_r.
Qed.

Lemma ref_build_perm cap d ls1 ls2 :
  ls1 ≡ₚ ls2 → distinct ls1 → Forall good_level ls1 → ref_build cap d ls1 [] = ref_build cap d ls2 [].
Proof.
  intros Hp Hd Hg. pose proof (distinct_perm _ _ Hp Hd) as Hd2.
  assert (Hg2 : Forall good_level ls2) by (revert Hg; by rewrite Hp).
  destruct (ref_build_nil cap d ls1 Hd Hg) as (->&[H1 _ _]&P1).
  destruct (ref_build_nil cap d ls2 Hd2 Hg2) as (->&[H2 _ _]&P2).
  f_equal. apply (sorted_perm_eq d); [done|done|]. rewrite P1. by symmetry; rewrite P2.
Qed.

(** A ranked list that fits is rebuilt as it is. *)
Lemma ref_build_sorted cap d l :
  levels_ok d l → (length l <= cap)%nat → ref_build cap d l [] = l.
Proof.
  intros [Hs Hn Hz] Hlen.
  assert (Hg : Forall good_level l) by (apply Forall_and; by split).
  destruct (ref_build_nil cap d l (sorted_distinct _ _ Hs) Hg) as (->&[H1 _ _]&P1).
  rewrite (sorted_perm_eq d _ l H1 Hs P1). by apply take_ge.
Qed.
