(* ===== verification/OrderBookProps.v ===== *)
(** * OrderBook: what the book guarantees

    The side lemmas lifted to whole books: refinement and invariant of [apply],
    its effect on the size at every price, the capacity rule, [operator==],
    [crossed], and rebuilding from a snapshot. *)

From stdpp Require Import base numbers list sorting.
From Stdlib Require Import ZArith Lia Floats.SpecFloat.
From S2P Require Import Prelude Float64 OrderBook OrderBookProofs OrderBookTheory.

Local Open Scope Z_scope.

Definition bids (b : OrderBook) : list Level := active (bid_ b) (n_bid_ b).
Definition asks (b : OrderBook) : list Level := active (ask_ b) (n_ask_ b).

Lemma side_ok_levels cap d lv n :
  side_ok cap d lv n ↔ length lv = cap ∧ (n <= cap)%nat ∧ levels_ok d (active lv n).
Proof.
  split.
  - intros []. split; [done|]. split; [done|]. by split.
  - intros (?&?&[]). by split.
Qed.

Lemma side_apply cap d lv n p s :
  side_ok cap d lv n → is_nan p = false → is_u64 s →
  side_ok cap d (apply_side cap lv n p s d).1 (apply_side cap lv n p s d).2 ∧
  active (apply_side cap lv n p s d).1 (apply_side cap lv n p s d).2 =
    ref_apply cap d p s (active lv n).
Proof.
  intros (Hlen&Hn&Hok)%side_ok_levels Hp Hs.
  destruct (apply_side cap lv n p s d) as [lv' n'] eqn:E.
  destruct (apply_side_ref cap lv n p s d lv' n') as (Hlen'&Hn'&Hact); auto; [by destruct Hok|].
  cbn [fst snd]. split; [|done]. apply side_ok_levels. rewrite Hact.
  split; [done|]. split; [done|]. by apply ref_apply_ok.
Qed.

Lemma book_init_ok cap : book_ok cap (book_init cap).
Proof.
  split; apply side_ok_levels; cbn; rewrite length_replicate; unfold active; rewrite take_0;
    (split; [done|]; split; [lia|]; apply levels_ok_nil).
Qed.

Lemma book_clear_ok cap b : book_ok cap b → book_ok cap (book_clear b).
Proof.
  intros [(?&?&?)%side_ok_levels (?&?&?)%side_ok_levels].
  split; apply side_ok_levels; cbn; unfold active; rewrite take_0;
    (split; [done|]; split; [lia|]; apply levels_ok_nil).
Qed.

Lemma book_levels_ok cap b : book_ok cap b → levels_ok true (bids b) ∧ levels_ok false (asks b).
Proof. intros [(_&_&?)%side_ok_levels (_&_&?)%side_ok_levels]. done. Qed.

Lemma book_apply_ref cap side p s b :
  book_ok cap b → is_nan p = false → is_u64 s →
  let b' := book_apply cap side p s b in
  book_ok cap b' ∧
  bids b' = (if side =? 0 then ref_apply cap true p s (bids b) else bids b) ∧
  asks b' = (if side =? 0 then asks b else ref_apply cap false p s (asks b)).
Proof.
  intros [Hb Ha] Hp Hs. cbn zeta. unfold book_apply. change (Side_u8 Bid) with 0.
  destruct (side =? 0).
  - destruct (side_apply cap true _ _ p s Hb Hp Hs) as [Hok Hact].
    destruct (apply_side _ _ _ _ _ _) as [lv n]. split; [by split|]. done.
  - destruct (side_apply cap false _ _ p s Ha Hp Hs) as [Hok Hact].
    destruct (apply_side _ _ _ _ _ _) as [lv n]. split; [by split|]. done.
Qed.

(** ** Equivalence of books *)

Definition book_equiv (a b : OrderBook) : Prop :=
  side_equiv (bids a) (bids b) ∧ side_equiv (asks a) (asks b).

Global Instance book_equiv_equivalence : Equivalence book_equiv.
Proof.
  unfold book_equiv. split.
  - intros a. split; reflexivity.
  - intros a b []. split; by symmetry.
  - intros a b c [] []. split; by etransitivity.
Qed.

Lemma book_equiv_apply cap side p s a b :
  book_ok cap a → book_ok cap b → is_nan p = false → is_u64 s → book_equiv a b →
  book_equiv (book_apply cap side p s a) (book_apply cap side p s b).
Proof.
  intros Ha Hb Hp Hs [Eb Ea].
  destruct (book_apply_ref cap side p s a Ha Hp Hs) as (_&Hb1&Ha1).
  destruct (book_apply_ref cap side p s b Hb Hp Hs) as (_&Hb2&Ha2).
  unfold book_equiv. rewrite Hb1, Ha1, Hb2, Ha2.
  destruct (side =? 0); split; try done; by apply side_equiv_apply.
Qed.

Lemma levels_eq_spec a b k i :
  (i + k <= length a)%nat → (i + k <= length b)%nat →
  levels_eq a b k i = true ↔
  Forall2 (λ x y, feq (lv_price x) (lv_price y) = true ∧ lv_size x = lv_size y)
    (take k (drop i a)) (take k (drop i b)).
Proof.
  revert i. induction k as [|k IH]; intros i Ha Hb; [rewrite !take_0; split; [constructor|done]|].
  rewrite !drop_lv_at by lia. cbn [levels_eq]. rewrite Forall2_cons, <- IH by lia.
  destruct (feq _ _); cbn [negb orb]; [|naive_solver].
  destruct (Z.eqb_spec (lv_size (lv_at a i)) (lv_size (lv_at b i))); cbn; naive_solver.
Qed.

Lemma strict_equiv l1 l2 :
  Forall (λ x, is_nan (lv_price x) = false) l1 →
  Forall2 (λ x y, feq (lv_price x) (lv_price y) = true ∧ lv_size x = lv_size y) l1 l2 ↔
  side_equiv l1 l2.
Proof.
  intros Hn. split.
  - intros H. eapply Forall2_impl; [exact H|]. intros x y [? ?]. split; [by right|done].
  - revert l2. induction Hn as [|x l1 Nx Hn IH]; intros l2 H; inversion H as [|? y ? l2' [Hp Hz] ?];
      subst; [constructor|]. constructor; [|auto]. split; [|done].
    destruct Hp as [<-|?]; [by apply feq_refl|done].
Qed.

Lemma side_equiv_len l1 l2 : side_equiv l1 l2 → length l1 = length l2.
Proof. apply Forall2_length. Qed.

Lemma levels_eq_active cap d a n b m :
  side_ok cap d a n → side_ok cap d b m → n = m →
  levels_eq a b n 0 = true ↔ side_equiv (active a n) (active b m).
Proof.
  intros Ha Hb <-. rewrite <- strict_equiv by (by destruct Ha).
  destruct Ha, Hb. rewrite levels_eq_spec by lia. by rewrite !drop_0.
Qed.

(** [operator==] decides equivalence of well-formed books. *)
Lemma book_eq_equiv cap a b :
  book_ok cap a → book_ok cap b → book_eq a b = true ↔ book_equiv a b.
Proof.
  intros [Hba Haa] [Hbb Hab]. unfold book_eq, book_equiv, bids, asks.
  assert (Hlen : ∀ d lv n, side_ok cap d lv n → length (active lv n) = n).
  { intros d lv n []. apply length_active. lia. }
  destruct (Nat.eqb_spec (n_bid_ a) (n_bid_ b)) as [En|En]; cbn [negb orb].
  2:{ split; [done|]. intros [H _]. apply side_equiv_len in H. rewrite !(Hlen true) in H; done. }
  destruct (Nat.eqb_spec (n_ask_ a) (n_ask_ b)) as [Em|Em]; cbn [negb].
  2:{ split; [done|]. intros [_ H]. apply side_equiv_len in H. rewrite !(Hlen false) in H; done. }
  rewrite <- (levels_eq_active cap true _ _ _ _ Hba Hbb En).
  rewrite <- (levels_eq_active cap false _ _ _ _ Haa Hab Em).
  destruct (levels_eq (bid_ a) _ _ _); cbn [negb]; naive_solver.
Qed.

(** ** Rebuilding from a snapshot *)

Definition level_of (l : SnapshotLevel) : Level := mkLevel (sl_price l) (sl_size l).

Definition side_levels (is_bid : bool) (ls : list SnapshotLevel) : list Level :=
  level_of <$> filter (λ l, (sl_side l =? 0) = is_bid) ls.

(** The levels of a book, as the venue would publish them. *)
Definition snapshot_of (b : OrderBook) : list SnapshotLevel :=
  ((λ x, mkSnapshotLevel (lv_price x) (lv_size x) (Side_u8 Bid)) <$> bids b) ++
  ((λ x, mkSnapshotLevel (lv_price x) (lv_size x) (Side_u8 Ask)) <$> asks b).

Definition snapshot_level_ok (l : SnapshotLevel) : Prop :=
  is_nan (sl_price l) = false ∧ is_u64 (sl_size l).

Lemma side_levels_cons d l ls :
  side_levels d (l :: ls) =
  if bool_decide ((sl_side l =? 0) = d) then level_of l :: side_levels d ls else side_levels d ls.
Proof. unfold side_levels. rewrite filter_cons. case_bool_decide; by case_decide. Qed.

Lemma book_apply_levels_ref cap ls b :
  book_ok cap b → Forall snapshot_level_ok ls →
  let b' := book_apply_levels cap ls b in
  book_ok cap b' ∧
  bids b' = ref_build cap true (side_levels true ls) (bids b) ∧
  asks b' = ref_build cap false (side_levels false ls) (asks b).
Proof.
  cbn zeta. revert b. induction ls as [|l ls IH]; intros b Hb Hls; [done|].
  apply Forall_cons in Hls as [[Hp Hs] Hls].
  destruct (book_apply_ref cap (sl_side l) (sl_price l) (sl_size l) b Hb Hp Hs) as (Hok&Hbid&Hask).
  change (book_apply_levels cap (l :: ls) b)
    with (book_apply_levels cap ls (book_apply cap (sl_side l) (sl_price l) (sl_size l) b)).
  destruct (IH _ Hok Hls) as (Hok'&->&->). split; [done|]. rewrite Hbid, Hask, !side_levels_cons.
  destruct (sl_side l =? 0); by repeat case_bool_decide.
Qed.

Lemma side_levels_perm d ls1 ls2 : ls1 ≡ₚ ls2 → side_levels d ls1 ≡ₚ side_levels d ls2.
Proof. intros H. unfold side_levels. by rewrite H. Qed.

Lemma side_levels_app d ls1 ls2 : side_levels d (ls1 ++ ls2) = side_levels d ls1 ++ side_levels d ls2.
Proof. unfold side_levels. by rewrite filter_app, fmap_app. Qed.

Lemma side_levels_published d l side :
  side_levels d ((λ x, mkSnapshotLevel (lv_price x) (lv_size x) side) <$> l) =
  if bool_decide ((side =? 0) = d) then l else [].
Proof.
  induction l as [|x l IH]; [by case_bool_decide|].
  rewrite fmap_cons, side_levels_cons. cbn [sl_side]. case_bool_decide; [|done].
  rewrite IH. unfold level_of. cbn. by rewrite mkLevel_eta.
Qed.

Lemma bids_clear b : bids (book_clear b) = [].
Proof. apply take_0. Qed.
Lemma asks_clear b : asks (book_clear b) = [].
Proof. apply take_0. Qed.

Lemma bids_le cap b : book_ok cap b → (length (bids b) <= cap)%nat.
Proof. intros [[] _]. unfold bids. rewrite length_active; lia. Qed.
Lemma asks_le cap b : book_ok cap b → (length (asks b) <= cap)%nat.
Proof. intros [_ []]. unfold asks. rewrite length_active; lia. Qed.

Lemma snapshot_of_ok cap b : book_ok cap b → Forall snapshot_level_ok (snapshot_of b).
Proof.
  intros [[_ Nb Sb] [_ Na Sa]]%book_levels_ok. unfold snapshot_of.
  rewrite Forall_forall in Nb, Sb, Na, Sa. apply Forall_app. split; apply Forall_fmap, Forall_forall;
    intros x Hx; (split; cbn [sl_price sl_size compose]; [by auto|unfold is_u64]).
  - specialize (Sb x Hx). lia.
  - specialize (Sa x Hx). lia.
Qed.

Lemma rebuild_snapshot cap b b0 :
  book_ok cap b → book_ok cap b0 →
  bids (book_apply_levels cap (snapshot_of b) (book_clear b0)) = bids b ∧
  asks (book_apply_levels cap (snapshot_of b) (book_clear b0)) = asks b.
Proof.
  intros Hb Hb0.
  destruct (book_apply_levels_ref cap (snapshot_of b) (book_clear b0)) as (_&->&->);
    [by apply book_clear_ok|by eapply snapshot_of_ok|].
  unfold snapshot_of. rewrite !side_levels_app, !side_levels_published, bids_clear, asks_clear.
  cbn [Side_u8 Z.eqb]. destruct (book_levels_ok _ _ Hb) as [Lb La].
  repeat case_bool_decide; try done. rewrite app_nil_r. cbn [app].
  split; (apply ref_build_sorted; [done|]); [by apply bids_le|by apply asks_le].
Qed.

Lemma active_head lv n x xs : active lv n = x :: xs → lv_at lv 0 = x.
Proof. destruct n, lv; cbn; by intros [=]. Qed.

(** When a bid meets an ask, so do the best ones. *)
Lemma ranked_heads_cross x xs y ys x' y' :
  StronglySorted (ranked true) (x :: xs) → StronglySorted (ranked false) (y :: ys) →
  x' ∈ x :: xs → y' ∈ y :: ys → fge (lv_price x') (lv_price y') = true →
  fge (lv_price x) (lv_price y) = true.
Proof.
  intros [_ Fx]%StronglySorted_inv [_ Fy]%StronglySorted_inv Hx Hy H.
  rewrite Forall_forall in Fx, Fy. unfold fge in *. fold (fle (lv_price y') (lv_price x')) in H.
  fold (fle (lv_price y) (lv_price x)). rewrite fle_iff in *.
  assert (Hxx : flt (lv_price x') (lv_price x) = true ∨ x' = x).
  { apply elem_of_cons in Hx as [->|Hx]; [by right|left]. by apply Fx. }
  assert (Hyy : flt (lv_price y) (lv_price y') = true ∨ y' = y).
  { apply elem_of_cons in Hy as [->|Hy]; [by right|left]. by apply Fy. }
  assert (Hyx' : flt (lv_price y) (lv_price x') = true ∨ feq (lv_price y) (lv_price x') = true).
  { destruct Hyy as [Hyy| ->]; [|done]. left. destruct H as [H|H]; [by eapply flt_trans|].
    by rewrite (feq_flt_r _ _ _ H) in Hyy. }
  destruct Hxx as [Hxx| ->]; [|done]. left. destruct Hyx' as [H'|H']; [by eapply flt_trans|].
  by rewrite (feq_flt_l _ _ _ H').
Qed.

(** ** The properties *)

(** A small book used by the witnesses: bids 99 (size 5) and 98 (7), one ask at 101,
    with room for two levels a side. *)
Definition px (n : Z) : double := double_of_Z n.
Definition small_book : OrderBook :=
  book_apply 2 1 (px 101) 4 (book_apply 2 0 (px 98) 7 (book_apply 2 0 (px 99) 5 (book_init 2))).

Lemma small_book_ok : book_ok 2 small_book.
Proof. repeat (apply book_apply_ref; [|reflexivity|split; lia]). apply book_init_ok. Qed.

(** C27: [OrderBook::apply] with a non-NaN price preserves the invariant of the
    book (counts within the arrays, bids strictly descending, asks strictly
    ascending, no empty level), and on the active levels its array loops are the
    list specification [ref_apply] on the addressed side and the identity on the
    other. *)
Theorem order_book_apply_refines cap side p s b :
  book_ok cap b → is_nan p = false → is_u64 s →
  let b' := book_apply cap side p s b in
  book_ok cap b' ∧
  bids b' = (if side =? 0 then ref_apply cap true p s (bids b) else bids b) ∧
  asks b' = (if side =? 0 then asks b else ref_apply cap false p s (asks b)).
Proof. apply book_apply_ref. Qed.

Lemma order_book_apply_refines_witness :
  book_ok 2 (book_apply 2 0 (px 100) 3 small_book) ∧
  bids (book_apply 2 0 (px 100) 3 small_book) = [mkLevel (px 100) 3; mkLevel (px 99) 5].
Proof.
  destruct (order_book_apply_refines 2 0 (px 100) 3 small_book) as (H&Hb&_);
    [apply small_book_ok|reflexivity|split; lia|].
  split; [exact H|]. rewrite Hb. vm_compute. reflexivity.
Defined.

(** An update sets exactly one size: after [apply] the price shows the new
    size (nothing when it is 0) and every other price on that side shows what it
    showed before, unless the update is a new level on a full side. *)
Theorem order_book_apply_sets_size cap side p s b q :
  book_ok cap b → is_nan p = false → is_u64 s →
  let old := if side =? 0 then bids b else asks b in
  let new := if side =? 0 then bids (book_apply cap side p s b)
             else asks (book_apply cap side p s b) in
  (s = 0 ∨ size_at p old ≠ None ∨ (length old < cap)%nat) →
  size_at q new = if feq p q then (if s =? 0 then None else Some s) else size_at q old.
Proof.
  intros Hb Hp Hs. cbn zeta. destruct (book_apply_ref cap side p s b Hb Hp Hs) as (_&Hbid&Hask).
  destruct (book_levels_ok _ _ Hb) as [Lb La]. rewrite Hbid, Hask.
  unfold is_u64 in Hs. destruct (side =? 0); intros Hroom; eapply size_at_apply; eauto; lia.
Qed.

Lemma order_book_apply_sets_size_witness :
  size_at (px 98) (bids (book_apply 2 0 (px 99) 0 small_book)) =
    if feq (px 99) (px 98) then None else size_at (px 98) (bids small_book).
Proof.
  apply (order_book_apply_sets_size 2 0 (px 99) 0 small_book (px 98));
    [apply small_book_ok|reflexivity|split; lia|by left].
Defined.

(** A new level on a full side displaces exactly the worst of the old levels
    and itself: the kept levels together with one dropped level are the old
    levels and the new one, and every kept level ranks strictly above the dropped
    one. *)
Theorem order_book_full_side_drops_worst cap side p s b :
  book_ok cap b → is_nan p = false → 0 < s < 2 ^ 64 →
  let d := side =? 0 in
  let old := if d then bids b else asks b in
  let new := if d then bids (book_apply cap side p s b)
             else asks (book_apply cap side p s b) in
  size_at p old = None → length old = cap →
  ∃ w, new ++ [w] ≡ₚ mkLevel p s :: old ∧ Forall (λ x, ranked d x w) new.
Proof.
  intros Hb Hp Hs. cbn zeta.
  destruct (book_apply_ref cap side p s b Hb Hp) as (_&Hbid&Hask); [unfold is_u64; lia|].
  destruct (book_levels_ok _ _ Hb) as [Lb La]. rewrite Hbid, Hask.
  destruct (side =? 0); intros Hno Hlen; by apply ref_apply_full.
Qed.

Lemma order_book_full_side_drops_worst_witness :
  ∃ w, bids (book_apply 2 0 (px 100) 3 small_book) ++ [w] ≡ₚ mkLevel (px 100) 3 :: bids small_book ∧
       Forall (λ x, ranked true x w) (bids (book_apply 2 0 (px 100) 3 small_book)).
Proof.
  apply (order_book_full_side_drops_worst 2 0 (px 100) 3 small_book);
    [apply small_book_ok|reflexivity|lia|vm_compute; reflexivity|vm_compute; reflexivity].
Defined.

(** [operator==] on well-formed books is true exactly when the two books show
    the same size at every price on both sides; array contents beyond the counts
    and the sign of a zero price do not matter. *)
Theorem order_book_eq_iff_same_sizes cap a b :
  book_ok cap a → book_ok cap b →
  book_eq a b = true ↔
  ∀ q, is_nan q = false → size_at q (bids a) = size_at q (bids b) ∧
                          size_at q (asks a) = size_at q (asks b).
Proof.
  intros Ha Hb. rewrite (book_eq_equiv cap) by done.
  destruct (book_levels_ok _ _ Ha) as [Lab Laa], (book_levels_ok _ _ Hb) as [Lbb Lba].
  split.
  - intros [Eb Ea] q _. split; by apply side_equiv_size.
  - intros H. split; (eapply side_equiv_ext; [done|done|]); intros q Hq; by apply H.
Qed.

Lemma order_book_eq_iff_same_sizes_witness :
  book_eq small_book (book_apply 2 0 (px 98) 7 (book_apply 2 0 (px 98) 0 small_book)) = true ↔
  ∀ q, is_nan q = false →
    size_at q (bids small_book) =
      size_at q (bids (book_apply 2 0 (px 98) 7 (book_apply 2 0 (px 98) 0 small_book))) ∧
    size_at q (asks small_book) =
      size_at q (asks (book_apply 2 0 (px 98) 7 (book_apply 2 0 (px 98) 0 small_book))).
Proof.
  apply (order_book_eq_iff_same_sizes 2); [apply small_book_ok|].
  do 2 (apply book_apply_ref; [|reflexivity|split; lia]). apply small_book_ok.
Defined.

(** [crossed] is true exactly when some bid level is priced at or above some
    ask level: looking at the two best levels is enough. *)
Theorem order_book_crossed_iff cap b :
  book_ok cap b →
  crossed b = true ↔ ∃ x y, x ∈ bids b ∧ y ∈ asks b ∧ fge (lv_price x) (lv_price y) = true.
Proof.
  intros Hb. pose proof (book_levels_ok _ _ Hb) as [[Sb _ _] [Sa _ _]].
  destruct Hb as [[Lb Nb _ _ _] [La Na _ _ _]].
  unfold crossed, has_bid, has_ask, best_bid, best_ask.
  assert (Hbn : length (bids b) = n_bid_ b) by (apply length_active; lia).
  assert (Han : length (asks b) = n_ask_ b) by (apply length_active; lia).
  destruct (bids b) as [|x xs] eqn:Eb.
  { cbn in Hbn. rewrite <- Hbn. split; [done|]. intros (x&_&Hx&_). by apply not_elem_of_nil in Hx. }
  destruct (asks b) as [|y ys] eqn:Ea.
  { cbn in Han. rewrite <- Han, andb_false_r. split; [done|].
    intros (_&y&_&Hy&_). by apply not_elem_of_nil in Hy. }
  cbn [length] in Hbn, Han.
  assert (Hx : lv_at (bid_ b) 0 = x) by (exact (active_head _ _ _ _ Eb)).
  assert (Hy : lv_at (ask_ b) 0 = y) by (exact (active_head _ _ _ _ Ea)).
  rewrite Hx, Hy, <- Hbn, <- Han. cbn [Nat.ltb Nat.leb andb]. split.
  - intros H. exists x, y. rewrite !elem_of_cons. auto.
  - intros (x'&y'&Hx'&Hy'&H). by eapply ranked_heads_cross.
Qed.

Lemma order_book_crossed_iff_witness :
  let b := book_apply 2 0 (px 101) 1 small_book in
  crossed b = true ↔ ∃ x y, x ∈ bids b ∧ y ∈ asks b ∧ fge (lv_price x) (lv_price y) = true.
Proof.
  apply (order_book_crossed_iff 2). apply book_apply_ref; [|reflexivity|split; lia].
  apply small_book_ok.
Defined.

(** C40: Rebuilding from a snapshot, whose levels on each side have distinct prices, none of
    them NaN, and sizes that are positive and fit 64 bits, does not depend on the order of its levels, and a
    snapshot deeper than the book keeps the best [MaxLevels] of each side: the bids are a
    prefix of all the snapshot's bid levels from the highest price down, the asks a prefix
    of all its ask levels from the lowest price up. *)
Theorem order_book_rebuild_best_levels cap b ls1 ls2 :
  book_ok cap b → ls1 ≡ₚ ls2 → Forall (good_level ∘ level_of) ls1 →
  distinct (side_levels true ls1) → distinct (side_levels false ls1) →
  let b1 := book_apply_levels cap ls1 (book_clear b) in
  let b2 := book_apply_levels cap ls2 (book_clear b) in
  bids b1 = bids b2 ∧ asks b1 = asks b2 ∧
  (∃ all, StronglySorted (λ x y, fgt (lv_price x) (lv_price y) = true) all ∧
     all ≡ₚ side_levels true ls1 ∧ bids b1 = take cap all) ∧
  (∃ all, StronglySorted (λ x y, flt (lv_price x) (lv_price y) = true) all ∧
     all ≡ₚ side_levels false ls1 ∧ asks b1 = take cap all).
Proof.
  intros Hb Hperm Hg Db Da. cbn zeta.
  assert (Hok1 : Forall snapshot_level_ok ls1).
  { eapply Forall_impl; [exact Hg|]. intros l [? Hz].
    split; [done|]. cbn [level_of lv_size compose] in Hz. unfold is_u64. lia. }
  assert (Hok2 : Forall snapshot_level_ok ls2) by (revert Hok1; by rewrite Hperm).
  assert (Hgs : ∀ d, Forall good_level (side_levels d ls1)).
  { intros d. unfold side_levels. apply Forall_fmap.
    apply Forall_forall. intros l [_ Hl]%list_elem_of_filter. rewrite Forall_forall in Hg. auto. }
  pose proof (book_clear_ok _ _ Hb) as Hc.
  destruct (book_apply_levels_ref cap ls1 _ Hc Hok1) as (_&->&->).
  destruct (book_apply_levels_ref cap ls2 _ Hc Hok2) as (_&->&->).
  rewrite bids_clear, asks_clear. split; [|split; [|split]].
  - apply ref_build_perm; [by apply side_levels_perm|done|auto].
  - apply ref_build_perm; [by apply side_levels_perm|done|auto].
  - destruct (ref_build_nil cap true _ Db (Hgs true)) as (->&[HS _ _]&HP). eauto.
  - destruct (ref_build_nil cap false _ Da (Hgs false)) as (->&[HS _ _]&HP). eauto.
Qed.

(** Three bids and three asks into a book of two levels: the best two of each stay. *)

Lemma order_book_rebuild_best_levels_witness :
  let bid p := mkSnapshotLevel (px p) 1 0 in
  let ask p := mkSnapshotLevel (px p) 1 1 in
  let ls1 := [bid 97; bid 99; bid 98; ask 103; ask 101; ask 102] in
  let ls2 := [bid 99; bid 97; bid 98; ask 103; ask 101; ask 102] in
  let b1 := book_apply_levels 2 ls1 (book_clear small_book) in
  let b2 := book_apply_levels 2 ls2 (book_clear small_book) in
  (bids b1 = bids b2 ∧ asks b1 = asks b2 ∧
   (∃ all, StronglySorted (λ x y, fgt (lv_price x) (lv_price y) = true) all ∧
      all ≡ₚ side_levels true ls1 ∧ bids b1 = take 2 all) ∧
   (∃ all, StronglySorted (λ x y, flt (lv_price x) (lv_price y) = true) all ∧
      all ≡ₚ side_levels false ls1 ∧ asks b1 = take 2 all)) ∧
  asks b1 = [mkLevel (px 101) 1; mkLevel (px 102) 1].
Proof.
  cbn zeta. split; [apply (order_book_rebuild_best_levels 2 small_book)|by vm_compute].
  - apply small_book_ok.
  - apply perm_swap.
  - repeat constructor; vm_compute; auto; discriminate.
  - apply (bool_decide_unpack _). vm_compute. exact I.
  - apply (bool_decide_unpack _). vm_compute. exact I.
Defined.

(** A book published as a snapshot and rebuilt from it is the same book,
    level for level, whatever the arrays held before. *)
Theorem order_book_snapshot_roundtrip cap b b0 :
  book_ok cap b → book_ok cap b0 →
  bids (book_apply_levels cap (snapshot_of b) (book_clear b0)) = bids b ∧
  asks (book_apply_levels cap (snapshot_of b) (book_clear b0)) = asks b.
Proof. apply rebuild_snapshot. Qed.

Lemma order_book_snapshot_roundtrip_witness :
  bids (book_apply_levels 2 (snapshot_of small_book) (book_clear (book_init 2))) = bids small_book ∧
  asks (book_apply_levels 2 (snapshot_of small_book) (book_clear (book_init 2))) = asks small_book.
Proof.
  apply (order_book_snapshot_roundtrip 2 small_book (book_init 2));
    [apply small_book_ok|apply book_init_ok].
Defined.

(** ** Limits of the "best MaxLevels" claim

    The book forgets levels it evicted: once a better level is removed, the
    evicted one is not brought back, although it is among the best two of the
    venue's book. *)
Lemma evicted_level_is_lost :
  let b := book_apply 2 0 (px 99) 0 (book_apply 2 0 (px 97) 3 small_book) in
  bids b = [mkLevel (px 98) 7] ∧ size_at (px 97) (bids b) = None.
Proof. vm_compute. split; reflexivity. Qed.

(** A NaN price is never found again: each delta at a NaN price adds a level at
    the top of the side, and a removal at that price does nothing. *)
Lemma nan_level_sticks cap lv n d s :
  (n < cap)%nat → length lv = cap → StronglySorted (ranked d) (active lv n) → s ≠ 0 →
  let '(lv', n') := apply_side cap lv n S754_nan s d in
  active lv' n' = mkLevel S754_nan s :: active lv n ∧
  apply_side cap lv' n' S754_nan 0 d = (lv', n').
Proof.
  intros Hn Hlen Hs Hs0. destruct (apply_side cap lv n S754_nan s d) as [lv' n'] eqn:E.
  assert (Hnone : ∀ lv n, find_level lv S754_nan n 0 = None).
  { intros lv0 n0. generalize 0%nat. induction n0 as [|k IH]; intros i; [done|]. cbn.
    destruct (nan_cmp_r (lv_price (lv_at lv0 i))) as (_&->&_). apply IH. }
  split; [|unfold apply_side; by rewrite Hnone].
  destruct (apply_side_ref cap lv n S754_nan s d lv' n') as (_&_&->); auto; [lia|].
  unfold ref_apply. rewrite decide_False.
  2:{ intros (x&_&Hx)%Exists_exists. unfold at_price in Hx.
      destruct (nan_cmp_r (lv_price x)) as (_&H&_). congruence. }
  zbool; [done|]. rewrite ref_insert_split.
  assert (Hab : above d S754_nan (active lv n) = 0%nat).
  { destruct (active lv n) as [|x l]; [done|]. cbn.
    destruct (nan_cmp_r (lv_price x)) as (H1&_&_), (nan_cmp_l (lv_price x)) as (H2&_&_).
    unfold better, fgt. unfold flt in *. destruct d; [by rewrite H2|by rewrite H1]. }
  rewrite Hab, take_0, drop_0. apply take_ge. cbn [length app]. rewrite length_active; lia.
Qed.
