(* ===== verification/BookBuilder.v ===== *)
(** * BookBuilder: the book's gap and recovery state machine

    Models [src/src/book/book_builder.h]: the two states, [on_delta],
    [on_snapshot] (the contiguity scan of the recovery buffer, the rebuild and the
    replay) and [buffer].  The builder drives the book through the interface
    [BookOps], whose instance is [OrderBook]; the theorems about recovery use only
    the interface's laws. *)

From stdpp Require Import base numbers list.
From Stdlib Require Import ZArith Lia.
From S2P Require Import Prelude Float64 OrderBook OrderBookProofs OrderBookTheory OrderBookProps.

Local Open Scope Z_scope.

(** ** What the builder needs of a book *)

Class BookOps (B : Type) := {
  ops_empty : B;
  ops_clear : B → B;
  ops_apply_delta : BookDelta → B → B;
  ops_apply_levels : list SnapshotLevel → B → B
}.

(** The laws: an invariant kept by every operation on good input, and an
    equivalence the operations respect; a cleared book has no history. *)
Class BookLaws (B : Type) `{BookOps B} := {
  laws_ok : B → Prop;
  laws_equiv : relation B;
  laws_equivalence :: Equivalence laws_equiv;
  laws_good_delta : BookDelta → Prop;
  laws_good_levels : list SnapshotLevel → Prop;
  laws_empty_ok : laws_ok ops_empty;
  laws_clear_ok b : laws_ok b → laws_ok (ops_clear b);
  laws_delta_ok d b : laws_good_delta d → laws_ok b → laws_ok (ops_apply_delta d b);
  laws_levels_ok ls b : laws_good_levels ls → laws_ok b → laws_ok (ops_apply_levels ls b);
  laws_delta_equiv d a b :
    laws_good_delta d → laws_ok a → laws_ok b → laws_equiv a b →
    laws_equiv (ops_apply_delta d a) (ops_apply_delta d b);
  laws_clear_fresh ls a b :
    laws_good_levels ls → laws_ok a → laws_ok b →
    laws_equiv (ops_apply_levels ls (ops_clear a)) (ops_apply_levels ls (ops_clear b))
}.

(** ** The builder *)

Inductive BuilderState := Recovering | Live.
Global Instance BuilderState_eq_dec : EqDecision BuilderState.
Proof. solve_decision. Defined.

Record BuilderStats := mkBuilderStats {
  bs_applied : Z;
  bs_gaps : Z;
  bs_recovered : Z;
  bs_stale_dropped : Z;
  bs_snapshot_too_old : Z;
  bs_buffer_overflow : Z
}.

Definition zero_builder_stats : BuilderStats := mkBuilderStats 0 0 0 0 0 0.

Section Builder.
Context {B : Type} `{BookOps B} (RecoverBuf : nat).

(** [bb_buf] is the filled part of the recovery array, so [nbuf_] is its length. *)
Record BookBuilder := mkBookBuilder {
  bb_book : B;
  bb_state : BuilderState;
  bb_expected : Z;
  bb_buf : list BookDelta;
  bb_stats : BuilderStats
}.

Definition builder_init : BookBuilder :=
  mkBookBuilder ops_empty Recovering 0 [] zero_builder_stats.

Definition is_live (bb : BookBuilder) : bool := bool_decide (bb_state bb = Live).

(** [if (nbuf_ < RecoverBuf) buf_[nbuf_++] = d; else ++buffer_overflow;] *)
Definition buffer (d : BookDelta) (bb : BookBuilder) : BookBuilder :=
  if (length (bb_buf bb) <? RecoverBuf)%nat then
    mkBookBuilder (bb_book bb) (bb_state bb) (bb_expected bb) (bb_buf bb ++ [d]) (bb_stats bb)
  else
    let st := bb_stats bb in
    mkBookBuilder (bb_book bb) (bb_state bb) (bb_expected bb) (bb_buf bb)
      (mkBuilderStats (bs_applied st) (bs_gaps st) (bs_recovered st) (bs_stale_dropped st)
         (bs_snapshot_too_old st) (bs_buffer_overflow st +u 1)).

Definition on_delta (d : BookDelta) (bb : BookBuilder) : BookBuilder :=
  let st := bb_stats bb in
  match bb_state bb with
  | Live =>
      if bd_seq d =? bb_expected bb then
        mkBookBuilder (ops_apply_delta d (bb_book bb)) Live (bb_expected bb +u 1) (bb_buf bb)
          (mkBuilderStats (bs_applied st +u 1) (bs_gaps st) (bs_recovered st)
             (bs_stale_dropped st) (bs_snapshot_too_old st) (bs_buffer_overflow st))
      else if bb_expected bb <? bd_seq d then
        buffer d (mkBookBuilder (bb_book bb) Recovering (bb_expected bb) []
          (mkBuilderStats (bs_applied st) (bs_gaps st +u 1) (bs_recovered st)
             (bs_stale_dropped st) (bs_snapshot_too_old st) (bs_buffer_overflow st)))
      else
        mkBookBuilder (bb_book bb) Live (bb_expected bb) (bb_buf bb)
          (mkBuilderStats (bs_applied st) (bs_gaps st) (bs_recovered st)
             (bs_stale_dropped st +u 1) (bs_snapshot_too_old st) (bs_buffer_overflow st))
  | Recovering => buffer d bb
  end.

(** The contiguity scan: [None] when a hole is found, else the next sequence. *)
Fixpoint scan_buffer (as_of : Z) (buf : list BookDelta) (expect : Z) : option Z :=
  match buf with
  | [] => Some expect
  | d :: buf' =>
      if bd_seq d <=? as_of then scan_buffer as_of buf' expect
      else if negb (bd_seq d =? expect) then None
      else scan_buffer as_of buf' (expect +u 1)
  end.

(** [for i: if (buf_[i].seq > as_of_seq) book_.apply(buf_[i]);] *)
Fixpoint replay_buffer (as_of : Z) (buf : list BookDelta) (b : B) : B :=
  match buf with
  | [] => b
  | d :: buf' =>
      replay_buffer as_of buf' (if as_of <? bd_seq d then ops_apply_delta d b else b)
  end.

Definition on_snapshot (as_of : Z) (levels : list SnapshotLevel) (bb : BookBuilder) : BookBuilder :=
  let st := bb_stats bb in
  if is_live bb && (as_of <? bb_expected bb) then bb
  else
    match scan_buffer as_of (bb_buf bb) (as_of +u 1) with
    | None =>
        mkBookBuilder (bb_book bb) (bb_state bb) (bb_expected bb) (bb_buf bb)
          (mkBuilderStats (bs_applied st) (bs_gaps st) (bs_recovered st) (bs_stale_dropped st)
             (bs_snapshot_too_old st +u 1) (bs_buffer_overflow st))
    | Some expect =>
        mkBookBuilder
          (replay_buffer as_of (bb_buf bb) (ops_apply_levels levels (ops_clear (bb_book bb))))
          Live expect []
          (mkBuilderStats (bs_applied st) (bs_gaps st) (bs_recovered st +u 1)
             (bs_stale_dropped st) (bs_snapshot_too_old st) (bs_buffer_overflow st))
    end.

(** A session of the builder. *)
Inductive builder_event :=
  | EvDelta (d : BookDelta)
  | EvSnapshot (as_of : Z) (levels : list SnapshotLevel).

Definition builder_step (e : builder_event) (bb : BookBuilder) : BookBuilder :=
  match e with
  | EvDelta d => on_delta d bb
  | EvSnapshot as_of levels => on_snapshot as_of levels bb
  end.

Definition builder_run (es : list builder_event) (bb : BookBuilder) : BookBuilder :=
  foldl (λ bb e, builder_step e bb) bb es.

End Builder.

Arguments BookBuilder : clear implicits.

(** ** The order book as the builder's book *)

Section Instance_OrderBook.
Context (MaxLevels : nat).

Definition OrderBook_ops : BookOps OrderBook := {|
  ops_empty := book_init MaxLevels;
  ops_clear := book_clear;
  ops_apply_delta := book_apply_delta MaxLevels;
  ops_apply_levels := book_apply_levels MaxLevels
|}.

End Instance_OrderBook.
