(* ===== verification/BookBuilderProofs.v ===== *)
(** * BookBuilder: the published book is never wrong

    The venue's history is a sequenced stream of deltas from an opening book;
    [truth n] is its book after update [n].  Whatever deltas are lost, duplicated
    or reordered on the way to the builder, and however old its snapshots are, a
    live builder shows the venue's book at its own sequence.  The proofs are against
    the interface [BookLaws]; the last section discharges it with [OrderBook]. *)

From stdpp Require Import base numbers list.
From Stdlib Require Import ZArith Lia.
From S2P Require Import Prelude Float64 OrderBook OrderBookProofs OrderBookTheory OrderBookProps.
From S2P Require Import BookBuilder.

Local Open Scope Z_scope.

Section Venue.
Context {B : Type} `{BookLaws B} (RecoverBuf : nat).
Context (opening : B) (stream : nat → BookDelta).

(** The venue's book after update [n]. *)
Fixpoint truth (n : nat) : B :=
  match n with
  | O => opening
  | S n' => ops_apply_delta (stream n) (truth n')
  end.

Definition seq_in_range (n : nat) : Prop := Z.of_nat n < 2 ^ 64 - 1.

(** What reaches the builder: deltas of the stream, in any order and any number of
    times, and snapshots that rebuild the venue's book as of their sequence. *)
Definition good_snapshot (n : nat) (levels : list SnapshotLevel) : Prop :=
  laws_good_levels levels ∧ laws_equiv (ops_apply_levels levels (ops_clear (truth n))) (truth n).

Inductive good_event : builder_event → Prop :=
  | good_delta n : (0 < n)%nat → seq_in_range n → good_event (EvDelta (stream n))
  | good_snap n levels :
      seq_in_range n → good_snapshot n levels → good_event (EvSnapshot (Z.of_nat n) levels).

Hypothesis opening_ok : laws_ok opening.
Hypothesis stream_seq : ∀ n, bd_seq (stream n) = Z.of_nat n.
Hypothesis stream_good : ∀ n, laws_good_delta (stream n).

Definition from_stream (d : BookDelta) : Prop :=
  ∃ n, (0 < n)%nat ∧ seq_in_range n ∧ d = stream n.

Record builder_inv (bb : BookBuilder B) : Prop := {
  bi_ok : laws_ok (bb_book bb);
  bi_buf : Forall from_stream (bb_buf bb);
  bi_cap : (length (bb_buf bb) <= RecoverBuf)%nat;
  bi_live : bb_state bb = Live → bb_buf bb = [] ∧
    ∃ n, seq_in_range n ∧ bb_expected bb = Z.of_nat n + 1 ∧ laws_equiv (bb_book bb) (truth n)
}.

Lemma truth_ok n : laws_ok (truth n).
Proof using opening_ok stream_good. induction n; cbn; [done|]. by apply laws_delta_ok. Qed.

Lemma init_inv : builder_inv builder_init.
Proof using. split; cbn; [apply laws_empty_ok|constructor|lia|done]. Qed.

Lemma buffer_inv d bb :
  builder_inv bb → bb_state bb = Recovering → from_stream d → builder_inv (buffer RecoverBuf d bb).
Proof using.
  intros [Hok Hbuf Hcap _] Hst Hd. unfold buffer.
  destruct (Nat.ltb_spec (length (bb_buf bb)) RecoverBuf) as [Hlt|Hge]; split; cbn; try done.
  - apply Forall_app. split; [done|]. by constructor.
  - rewrite length_app. cbn. lia.
  - by rewrite Hst.
  - by rewrite Hst.
Qed.

(** The next delta of the stream on the venue's book. *)
Lemma apply_next n b :
  laws_ok b → laws_equiv b (truth n) → laws_equiv (ops_apply_delta (stream (S n)) b) (truth (S n)).
Proof using opening_ok stream_good.
  intros Hb He. cbn [truth]. apply laws_delta_equiv; auto. apply truth_ok.
Qed.

Lemma on_delta_inv d bb :
  builder_inv bb → from_stream d → builder_inv (on_delta RecoverBuf d bb).
Proof using opening_ok stream_seq stream_good.
  intros Hinv Hd. unfold on_delta. destruct (bb_state bb) eqn:Hst; [by apply buffer_inv|].
  pose proof Hinv as [Hok Hbuf Hcap Hlive].
  destruct (Hlive Hst) as (Hnil&n&Hn&Hexp&Heq). destruct Hd as (m&Hm0&Hm&->).
  rewrite stream_seq. destruct (Z.eqb_spec (Z.of_nat m) (bb_expected bb));
    [|destruct (Z.ltb_spec (bb_expected bb) (Z.of_nat m))].
  - assert (m = S n) as -> by lia. split; cbn; [by apply laws_delta_ok|done|done|].
    intros _. split; [done|]. exists (S n). unfold seq_in_range in *. split; [done|].
    split; [u64_norm; lia|]. by apply apply_next.
  - apply buffer_inv; [|done|by exists m]. split; cbn; [done|constructor|lia|done].
  - split; cbn; try done. intros _. split; [done|]. by exists n.
Qed.

(** The scan and the replay go through the buffer together. *)
Lemma scan_replay as_of buf n b e :
  Forall from_stream buf → laws_ok b → laws_equiv b (truth n) → seq_in_range n →
  as_of <= Z.of_nat n → scan_buffer as_of buf (Z.of_nat n + 1) = Some e →
  ∃ m, seq_in_range m ∧ (n <= m)%nat ∧ e = Z.of_nat m + 1 ∧
    laws_ok (replay_buffer as_of buf b) ∧ laws_equiv (replay_buffer as_of buf b) (truth m).
Proof using opening_ok stream_seq stream_good.
  intros Hbuf. revert n b. induction Hbuf as [|d buf (k&Hk0&Hk&->) Hbuf IH];
    intros n b Hb He Hn Has; cbn [scan_buffer replay_buffer].
  { intros [= <-]. exists n. auto. }
  rewrite stream_seq. destruct (Z.leb_spec (Z.of_nat k) as_of) as [Hle|Hgt].
  - destruct (Z.ltb_spec as_of (Z.of_nat k)); [lia|]. by apply IH.
  - destruct (Z.ltb_spec as_of (Z.of_nat k)); [|lia].
    destruct (Z.eqb_spec (Z.of_nat k) (Z.of_nat n + 1)) as [Heq|Hne]; cbn [negb]; [|done].
    assert (k = S n) as -> by lia. unfold seq_in_range in *.
    rewrite u64_add_small by lia. replace (Z.of_nat n + 1 + 1) with (Z.of_nat (S n) + 1) by lia.
    intros Hs. destruct (IH (S n) (ops_apply_delta (stream (S n)) b)) as (m&?&?&?&?&?);
      [by apply laws_delta_ok|by apply apply_next|done|lia|done|].
    exists m. auto with lia.
Qed.

Lemma snapshot_book n levels b :
  good_snapshot n levels → laws_ok b →
  laws_ok (ops_apply_levels levels (ops_clear b)) ∧
  laws_equiv (ops_apply_levels levels (ops_clear b)) (truth n).
Proof using opening_ok stream_good.
  intros [Hl He] Hb. split; [apply laws_levels_ok; [done|by apply laws_clear_ok]|].
  etransitivity; [|exact He]. apply laws_clear_fresh; auto. apply truth_ok.
Qed.

Lemma on_snapshot_inv n levels bb :
  builder_inv bb → seq_in_range n → good_snapshot n levels →
  builder_inv (on_snapshot (Z.of_nat n) levels bb).
Proof using opening_ok stream_seq stream_good.
  intros Hinv Hn Hsnap. unfold on_snapshot. destruct (_ && _); [done|].
  pose proof Hinv as [Hok Hbuf Hcap Hlive]. unfold seq_in_range in *.
  rewrite u64_add_small by lia. destruct (scan_buffer _ _ _) as [e|] eqn:Hscan; [|by split].
  destruct (snapshot_book n levels (bb_book bb) Hsnap Hok) as [Hsok Hseq].
  destruct (scan_replay (Z.of_nat n) _ n _ e Hbuf Hsok Hseq) as (m&?&?&->&?&?); [done|lia|done|].
  split; cbn; [done|constructor|lia|]. intros _. split; [done|]. by exists m.
Qed.

Lemma builder_run_inv es bb :
  builder_inv bb → Forall good_event es → builder_inv (builder_run RecoverBuf es bb).
Proof using opening_ok stream_seq stream_good.
  intros Hbb Hes. revert bb Hbb. induction Hes as [|e es He Hes IH]; intros bb Hbb; [done|].
  apply IH. destruct He as [n Hn0 Hn|n levels Hn Hsnap].
  - apply on_delta_inv; [done|]. by exists n.
  - by apply on_snapshot_inv.
Qed.

(** A run from the initial state that ends live shows the venue's book. *)
Lemma live_book_is_truth es :
  Forall good_event es → is_live (builder_run RecoverBuf es builder_init) = true →
  ∃ n, seq_in_range n ∧
    bb_expected (builder_run RecoverBuf es builder_init) = Z.of_nat n + 1 ∧
    laws_ok (bb_book (builder_run RecoverBuf es builder_init)) ∧
    laws_equiv (bb_book (builder_run RecoverBuf es builder_init)) (truth n).
Proof using opening_ok stream_seq stream_good.
  intros Hes Hlive. destruct (builder_run_inv es _ init_inv Hes) as [Hok _ _ Hl].
  unfold is_live in Hlive. apply bool_decide_eq_true in Hlive.
  destruct (Hl Hlive) as (_&n&?&?&?). exists n. auto.
Qed.

(** ** Recovery *)

Definition deltas (a k : nat) : list builder_event := (λ n, EvDelta (stream n)) <$> seq a k.

Lemma scan_contiguous n a k :
  seq_in_range n → seq_in_range (a + k) →
  scan_buffer (Z.of_nat n) (stream <$> seq a k) (Z.max (Z.of_nat n + 1) (Z.of_nat a)) =
  Some (Z.max (Z.of_nat n + 1) (Z.of_nat (a + k))).
Proof using stream_seq.
  unfold seq_in_range. intros Hn. revert a. induction k as [|k IH]; intros a Ha; cbn.
  { by rewrite Nat.add_0_r. }
  rewrite stream_seq. destruct (Z.leb_spec (Z.of_nat a) (Z.of_nat n)) as [Hle|Hgt].
  - replace (Z.max _ (Z.of_nat a)) with (Z.max (Z.of_nat n + 1) (Z.of_nat (S a))) by lia.
    rewrite IH by lia. f_equal. lia.
  - rewrite Z.max_r, Z.eqb_refl by lia. cbn [negb]. rewrite u64_add_small by lia.
    replace (Z.of_nat a + 1) with (Z.max (Z.of_nat n + 1) (Z.of_nat (S a))) by lia.
    rewrite IH by lia. f_equal. lia.
Qed.

(** Deltas that arrive while recovering are only buffered. *)
Lemma run_buffering a k bb :
  bb_state bb = Recovering → (length (bb_buf bb) + k <= RecoverBuf)%nat →
  builder_run RecoverBuf (deltas a k) bb =
  mkBookBuilder (bb_book bb) Recovering (bb_expected bb) (bb_buf bb ++ (stream <$> seq a k))
    (bb_stats bb).
Proof using.
  revert a bb. induction k as [|k IH]; intros a bb Hst Hlen.
  { cbn. rewrite app_nil_r. destruct bb; cbn in *; by subst. }
  change (builder_run RecoverBuf (deltas a (S k)) bb)
    with (builder_run RecoverBuf (deltas (S a) k) (on_delta RecoverBuf (stream a) bb)).
  unfold on_delta. rewrite Hst. unfold buffer. destruct (Nat.ltb_spec (length (bb_buf bb)) RecoverBuf); [|lia].
  rewrite IH; cbn; [|done|rewrite length_app; cbn; lia]. by rewrite <- app_assoc.
Qed.

(** A gap, the contiguous deltas that follow it, and what the builder then holds. *)
Lemma run_gap a k bb :
  bb_state bb = Live → bb_expected bb < Z.of_nat a → (S k <= RecoverBuf)%nat →
  ∃ st, builder_run RecoverBuf (deltas a (S k)) bb =
  mkBookBuilder (bb_book bb) Recovering (bb_expected bb) (stream <$> seq a (S k)) st.
Proof using stream_seq.
  intros Hst Hgap Hk.
  change (builder_run RecoverBuf (deltas a (S k)) bb)
    with (builder_run RecoverBuf (deltas (S a) k) (on_delta RecoverBuf (stream a) bb)).
  unfold on_delta. rewrite Hst, stream_seq.
  destruct (Z.eqb_spec (Z.of_nat a) (bb_expected bb)); [lia|].
  destruct (Z.ltb_spec (bb_expected bb) (Z.of_nat a)); [|lia].
  unfold buffer. cbn [bb_buf length]. destruct (Nat.ltb_spec 0 RecoverBuf); [|lia].
  rewrite run_buffering; cbn; [|done|lia]. eexists. done.
Qed.

Lemma recovery_step n levels bb buf e :
  bb_state bb = Recovering → bb_buf bb = buf → seq_in_range n →
  scan_buffer (Z.of_nat n) buf (Z.of_nat n + 1) = Some e →
  is_live (on_snapshot (Z.of_nat n) levels bb) = true ∧
  bb_expected (on_snapshot (Z.of_nat n) levels bb) = e.
Proof using.
  intros Hst Hbuf Hn Hscan. unfold on_snapshot, is_live, seq_in_range in *. rewrite Hst. cbn.
  rewrite u64_add_small by lia. by rewrite Hbuf, Hscan.
Qed.

Lemma deltas_good a k :
  (0 < a)%nat → seq_in_range (a + k) → Forall good_event (deltas a k).
Proof using.
  intros Ha Hr. apply Forall_fmap, Forall_forall. intros n Hn. apply elem_of_seq in Hn.
  unfold seq_in_range in *. constructor; unfold seq_in_range; lia.
Qed.

(** After a gap and any run of contiguous deltas that fits the buffer, a snapshot
    that is not older than the gap brings the builder back with every update
    through the last delta or the snapshot, whichever is newer. *)
Lemma recovers a k n levels bb :
  builder_inv bb → bb_state bb = Live → (0 < a)%nat → bb_expected bb < Z.of_nat a →
  (S k <= RecoverBuf)%nat → seq_in_range (a + S k) → seq_in_range n → good_snapshot n levels →
  (a <= n + 1)%nat →
  let bb1 := builder_run RecoverBuf (deltas a (S k)) bb in
  let bb2 := on_snapshot (Z.of_nat n) levels bb1 in
  is_live bb1 = false ∧ is_live bb2 = true ∧
  laws_ok (bb_book bb2) ∧ laws_equiv (bb_book bb2) (truth (Nat.max n (a + k))) ∧
  bb_expected bb2 = Z.of_nat (Nat.max n (a + k)) + 1.
Proof using opening_ok stream_seq stream_good.
  intros Hinv Hst Ha Hgap Hk Hak Hn Hsnap Hnew. cbn zeta.
  pose proof (builder_run_inv _ _ Hinv (deltas_good a (S k) Ha Hak)) as Hinv1.
  destruct (run_gap a k bb Hst Hgap Hk) as [st Hrun].
  pose proof (scan_contiguous n a (S k) Hn Hak) as Hscan. rewrite Z.max_l in Hscan by lia.
  destruct (recovery_step n levels (builder_run RecoverBuf (deltas a (S k)) bb)
              (stream <$> seq a (S k)) (Z.max (Z.of_nat n + 1) (Z.of_nat (a + S k)))) as [Hl He]; [by rewrite Hrun..|done|exact Hscan|].
  split; [by rewrite Hrun|]. split; [done|].
  destruct (on_snapshot_inv n levels _ Hinv1 Hn Hsnap) as [Hok _ _ Hlive].
  split; [done|]. unfold is_live in Hl. apply bool_decide_eq_true in Hl.
  destruct (Hlive Hl) as (_&m&_&Hm&Heq). rewrite He in Hm.
  assert (m = Nat.max n (a + k)) as -> by lia. split; [done|]. rewrite He. lia.
Qed.

(** A snapshot older than the gap is refused and nothing is touched. *)
Lemma too_old a k n levels bb :
  bb_state bb = Live → bb_expected bb < Z.of_nat a → (S k <= RecoverBuf)%nat →
  seq_in_range n → (n + 1 < a)%nat →
  let bb1 := builder_run RecoverBuf (deltas a (S k)) bb in
  let bb2 := on_snapshot (Z.of_nat n) levels bb1 in
  bb_book bb2 = bb_book bb ∧ is_live bb2 = false ∧ bb_buf bb2 = bb_buf bb1 ∧
  bs_snapshot_too_old (bb_stats bb2) = bs_snapshot_too_old (bb_stats bb1) +u 1.
Proof using stream_seq.
  intros Hst Hgap Hk Hn Hold. cbn zeta. destruct (run_gap a k bb Hst Hgap Hk) as [st ->].
  unfold on_snapshot, is_live, seq_in_range in *. cbn.
  rewrite u64_add_small, stream_seq by lia.
  destruct (Z.leb_spec (Z.of_nat a) (Z.of_nat n)); [lia|].
  destruct (Z.eqb_spec (Z.of_nat a) (Z.of_nat n + 1)); [lia|]. done.
Qed.

(** A live builder follows a contiguous stream, applying every delta. *)
Lemma follows n k bb :
  bb_state bb = Live → bb_expected bb = Z.of_nat n → seq_in_range (n + k) →
  is_u64 (bs_applied (bb_stats bb)) →
  let bb' := builder_run RecoverBuf (deltas n k) bb in
  bb_state bb' = Live ∧ bb_expected bb' = Z.of_nat (n + k) ∧
  bs_applied (bb_stats bb') = u64 (bs_applied (bb_stats bb) + Z.of_nat k).
Proof using stream_seq.
  cbn zeta. revert n bb. induction k as [|k IH]; intros n bb Hst Hexp Hr Hu.
  { cbn. rewrite Nat.add_0_r, Z.add_0_r, u64_small by done. done. }
  change (builder_run RecoverBuf (deltas n (S k)) bb)
    with (builder_run RecoverBuf (deltas (S n) k) (on_delta RecoverBuf (stream n) bb)).
  unfold on_delta. rewrite Hst, stream_seq, Hexp, Z.eqb_refl. unfold seq_in_range in *.
  destruct (IH (S n) (mkBookBuilder (ops_apply_delta (stream n) (bb_book bb)) Live
    (Z.of_nat n +u 1) (bb_buf bb) (mkBuilderStats (bs_applied (bb_stats bb) +u 1)
     (bs_gaps (bb_stats bb)) (bs_recovered (bb_stats bb)) (bs_stale_dropped (bb_stats bb))
     (bs_snapshot_too_old (bb_stats bb)) (bs_buffer_overflow (bb_stats bb))))) as (H1&H2&H3);
    cbn; [done|rewrite u64_add_small; lia|lia|apply u64_add_is|].
  split; [done|]. split; [rewrite H2; f_equal; lia|]. rewrite H3. cbn. unfold u64_add, u64.
  rewrite Zplus_mod_idemp_l. f_equal. lia.
Qed.

End Venue.

(** ** The interface discharged by [OrderBook] *)

Section OrderBookLaws.
Context (cap : nat).
Existing Instance OrderBook_ops.

Definition good_book_delta (d : BookDelta) : Prop :=
  is_nan (bd_price d) = false ∧ is_u64 (bd_new_size d).

#[refine] Instance OrderBook_laws : @BookLaws OrderBook (OrderBook_ops cap) := {|
  laws_ok := book_ok cap;
  laws_equiv := book_equiv;
  laws_good_delta := good_book_delta;
  laws_good_levels := Forall snapshot_level_ok
|}.
Proof.
  - apply book_init_ok.
  - apply book_clear_ok.
  - intros d b [Hp Hs] Hb. by apply book_apply_ref.
  - intros ls b Hls Hb. by apply book_apply_levels_ref.
  - intros d a b [Hp Hs] Ha Hb E. by apply (book_equiv_apply cap).
  - intros ls a b Hls Ha Hb. cbn.
    destruct (book_apply_levels_ref cap ls _ (book_clear_ok _ _ Ha) Hls) as (_&H1&H2).
    destruct (book_apply_levels_ref cap ls _ (book_clear_ok _ _ Hb) Hls) as (_&H3&H4).
    unfold book_equiv. rewrite H1, H2, H3, H4, !bids_clear, !asks_clear. split; reflexivity.
Defined.

End OrderBookLaws.
