(* ===== verification/BookBuilderProps.v ===== *)
(** * BookBuilder over OrderBook: the properties

    [BookBuilderProofs.v] at the real book: the venue's history is a stream of
    deltas with non-NaN prices, numbered from 1. *)

From stdpp Require Import base numbers list.
From Stdlib Require Import ZArith Lia.
From S2P Require Import Prelude Float64 OrderBook OrderBookProofs OrderBookTheory OrderBookProps.
From S2P Require Import BookBuilder BookBuilderProofs.

Local Open Scope Z_scope.

Section Properties.
Context (cap RecoverBuf : nat) (opening : OrderBook) (stream : nat → BookDelta).
#[local] Instance book_ops : BookOps OrderBook := OrderBook_ops cap.
#[local] Instance book_laws : BookLaws OrderBook := OrderBook_laws cap.

(** A venue: a well-formed opening book and a numbered stream of deltas. *)
Record venue_ok : Prop := {
  vo_opening : book_ok cap opening;
  vo_seq : ∀ n, bd_seq (stream n) = Z.of_nat n;
  vo_good : ∀ n, good_book_delta (stream n)
}.

Lemma venue_laws :
  venue_ok → laws_ok opening ∧ (∀ n, bd_seq (stream n) = Z.of_nat n) ∧
  ∀ n, laws_good_delta (stream n).
Proof. by intros []. Qed.

Notation venue_book := (truth opening stream).

Lemma venue_book_ok n : venue_ok → book_ok cap (venue_book n).
Proof. intros [Ho _ Hg]. exact (truth_ok opening stream Ho Hg n). Qed.

(** A snapshot published from the venue's book is a good snapshot. *)
Lemma published_good n : venue_ok → good_snapshot opening stream n (snapshot_of (venue_book n)).
Proof.
  intros Hv. pose proof (venue_book_ok n Hv) as Hb. split; [by eapply snapshot_of_ok|].
  destruct (rebuild_snapshot cap _ _ Hb Hb) as [H1 H2]. split; cbn; by rewrite ?H1, ?H2.
Qed.

(** C2: A live builder never shows a wrong book.  After any sequence of events
    (stream deltas lost, duplicated or out of order, snapshots of any age), if the
    builder is live then its book compares equal ([operator==]) to the venue's book
    after update [expected_seq - 1]. *)
Theorem builder_live_book_correct es :
  venue_ok → Forall (good_event opening stream) es →
  let bb := builder_run RecoverBuf es builder_init in
  is_live bb = true →
  ∃ n, bb_expected bb = Z.of_nat n + 1 ∧ book_eq (bb_book bb) (venue_book n) = true.
Proof.
  intros Hv Hes. cbn zeta. intros Hlive. pose proof (venue_laws Hv) as (Ho&Hs&Hg).
  destruct (live_book_is_truth RecoverBuf opening stream Ho Hs Hg es Hes Hlive) as (n&_&He&Hok&Heq).
  exists n. split; [done|]. apply (book_eq_equiv cap); [done|by apply venue_book_ok|done].
Qed.

(** C28: Recovery closes the gap.  When a live builder misses updates and then
    receives a contiguous run of deltas that fits its buffer, it withdraws the book
    and only buffers; a snapshot no older than the hole makes it live again at the
    newer of the snapshot and the last buffered delta, with the venue's book of that
    sequence: nothing is applied twice and nothing is missing. *)
Theorem builder_recovers es a k n :
  venue_ok → Forall (good_event opening stream) es →
  let bb := builder_run RecoverBuf es builder_init in
  is_live bb = true → (0 < a)%nat → bb_expected bb < Z.of_nat a →
  (S k <= RecoverBuf)%nat → seq_in_range (a + S k) → seq_in_range n → (a <= n + 1)%nat →
  let bb1 := builder_run RecoverBuf (deltas stream a (S k)) bb in
  let bb2 := on_snapshot (Z.of_nat n) (snapshot_of (venue_book n)) bb1 in
  is_live bb1 = false ∧ is_live bb2 = true ∧
  bb_expected bb2 = Z.of_nat (Nat.max n (a + k)) + 1 ∧
  book_eq (bb_book bb2) (venue_book (Nat.max n (a + k))) = true.
Proof.
  intros Hv Hes bb Hlive Ha Hgap Hk Hak Hn Hnew. pose proof (venue_laws Hv) as (Ho&Hs&Hg).
  pose proof (builder_run_inv RecoverBuf opening stream Ho Hs Hg es _
    (init_inv RecoverBuf opening stream) Hes) as Hinv.
  unfold is_live in Hlive. apply bool_decide_eq_true in Hlive.
  destruct (recovers RecoverBuf opening stream Ho Hs Hg a k n _ bb Hinv Hlive Ha Hgap Hk Hak Hn
    (published_good n Hv) Hnew) as (H1&H2&H3&H4&H5).
  split; [done|]. split; [done|]. split; [done|].
  apply (book_eq_equiv cap); [done|by apply venue_book_ok|done].
Qed.

(** A snapshot that is older than the hole is refused: the builder stays
    recovering, keeps its buffer and leaves the book alone, and counts it. *)
Theorem builder_refuses_old_snapshot bb a k n levels :
  venue_ok → bb_state bb = Live → bb_expected bb < Z.of_nat a → (S k <= RecoverBuf)%nat →
  seq_in_range n → (n + 1 < a)%nat →
  let bb1 := builder_run RecoverBuf (deltas stream a (S k)) bb in
  let bb2 := on_snapshot (Z.of_nat n) levels bb1 in
  bb_book bb2 = bb_book bb ∧ is_live bb2 = false ∧ bb_buf bb2 = bb_buf bb1 ∧
  bs_snapshot_too_old (bb_stats bb2) = bs_snapshot_too_old (bb_stats bb1) +u 1.
Proof. intros [_ Hs _] Hst. by apply (too_old RecoverBuf stream Hs a k n levels bb). Qed.

(** A live builder stays live on a contiguous stream and applies every delta
    of it exactly once. *)
Theorem builder_follows_stream bb n k :
  venue_ok → bb_state bb = Live → bb_expected bb = Z.of_nat n → seq_in_range (n + k) →
  is_u64 (bs_applied (bb_stats bb)) →
  let bb' := builder_run RecoverBuf (deltas stream n k) bb in
  bb_state bb' = Live ∧ bb_expected bb' = Z.of_nat (n + k) ∧
  bs_applied (bb_stats bb') = u64 (bs_applied (bb_stats bb) + Z.of_nat k).
Proof. intros [_ Hs _]. apply (follows RecoverBuf stream Hs n k bb). Qed.

(** Contrary to the comment in [on_snapshot], a snapshot ahead of a live builder is
    not deferred: the book is rebuilt from it and the sequence jumps forward. *)
Lemma live_forward_resync n levels bb :
  bb_state bb = Live → bb_buf bb = [] → bb_expected bb <= Z.of_nat n → seq_in_range n →
  on_snapshot (Z.of_nat n) levels bb =
  mkBookBuilder (book_apply_levels cap levels (book_clear (bb_book bb))) Live (Z.of_nat n + 1) []
    (bb_stats (on_snapshot (Z.of_nat n) levels bb)) ∧
  bs_recovered (bb_stats (on_snapshot (Z.of_nat n) levels bb)) = bs_recovered (bb_stats bb) +u 1.
Proof.
  intros Hst Hbuf Hexp Hn. unfold on_snapshot, is_live, seq_in_range in *. rewrite Hst, Hbuf. cbn.
  destruct (Z.ltb_spec (Z.of_nat n) (bb_expected bb)); [lia|]. cbn.
  by rewrite u64_add_small by lia.
Qed.

End Properties.

(** ** Witnesses: update [n] adds a bid at [100 + n]. *)

Definition demo_stream (n : nat) : BookDelta :=
  mkBookDelta (Z.of_nat n) (px (if (n <? 8)%nat then 100 + Z.of_nat n else 0)) 1 0.

Lemma demo_venue : venue_ok 4 (book_init 4) demo_stream.
Proof.
  split; [apply book_init_ok|done|]. intros n. split; [|by split].
  unfold demo_stream. cbn [bd_price]. destruct (Nat.ltb_spec n 8); [|reflexivity].
  do 8 (destruct n as [|n]; [reflexivity|]). lia.
Qed.

Definition demo_book (n : nat) : OrderBook :=
  @truth OrderBook (OrderBook_ops 4) (book_init 4) demo_stream n.
Definition demo_events : list builder_event :=
  [EvSnapshot 0 (snapshot_of (demo_book 0)); EvDelta (demo_stream 1); EvDelta (demo_stream 2);
   EvDelta (demo_stream 1)].

Lemma demo_events_good :
  Forall (@good_event OrderBook _ (OrderBook_laws 4) (book_init 4) demo_stream) demo_events.
Proof.
  unfold demo_events. rewrite !Forall_cons. split; [|split; [|split; [|split; [|done]]]].
  2,3,4: apply good_delta; unfold seq_in_range; lia.
  apply (@good_snap _ _ (OrderBook_laws 4) (book_init 4) demo_stream 0); [unfold seq_in_range; lia|].
  exact (published_good 4 (book_init 4) demo_stream 0 demo_venue).
Qed.

Lemma builder_live_book_correct_witness :
  let bb := @builder_run _ (OrderBook_ops 4) 8 demo_events (@builder_init _ (OrderBook_ops 4)) in
  ∃ n, bb_expected bb = Z.of_nat n + 1 ∧ book_eq (bb_book bb) (demo_book n) = true.
Proof.
  apply (builder_live_book_correct 4 8 (book_init 4) demo_stream demo_events);
    [apply demo_venue|apply demo_events_good|vm_compute; reflexivity].
Defined.

Lemma builder_recovers_witness :
  let bb := @builder_run _ (OrderBook_ops 4) 8 demo_events (@builder_init _ (OrderBook_ops 4)) in
  let bb1 := @builder_run _ (OrderBook_ops 4) 8 (deltas demo_stream 4 2) bb in
  let bb2 := @on_snapshot _ (OrderBook_ops 4) 3 (snapshot_of (demo_book 3)) bb1 in
  is_live bb1 = false ∧ is_live bb2 = true ∧ bb_expected bb2 = 6 ∧
  book_eq (bb_book bb2) (demo_book 5) = true.
Proof.
  apply (builder_recovers 4 8 (book_init 4) demo_stream demo_events 4 1 3);
    [apply demo_venue|apply demo_events_good|vm_compute; reflexivity|lia|vm_compute; reflexivity
    |lia|unfold seq_in_range; lia|unfold seq_in_range; lia|lia].
Defined.

Lemma builder_refuses_old_snapshot_witness :
  let bb := @builder_run _ (OrderBook_ops 4) 8 demo_events (@builder_init _ (OrderBook_ops 4)) in
  let bb1 := @builder_run _ (OrderBook_ops 4) 8 (deltas demo_stream 4 2) bb in
  let bb2 := @on_snapshot _ (OrderBook_ops 4) 2 (snapshot_of (demo_book 2)) bb1 in
  bb_book bb2 = bb_book bb ∧ is_live bb2 = false ∧ bb_buf bb2 = bb_buf bb1 ∧
  bs_snapshot_too_old (bb_stats bb2) = bs_snapshot_too_old (bb_stats bb1) +u 1.
Proof.
  apply (builder_refuses_old_snapshot 4 8 (book_init 4) demo_stream
    (@builder_run _ (OrderBook_ops 4) 8 demo_events (@builder_init _ (OrderBook_ops 4))) 4 1 2);
    [apply demo_venue|vm_compute; reflexivity|vm_compute; reflexivity|lia|unfold seq_in_range; lia|lia].
Defined.

Lemma builder_follows_stream_witness :
  let bb := @builder_run _ (OrderBook_ops 4) 8 demo_events (@builder_init _ (OrderBook_ops 4)) in
  let bb' := @builder_run _ (OrderBook_ops 4) 8 (deltas demo_stream 3 4) bb in
  bb_state bb' = Live ∧ bb_expected bb' = Z.of_nat (3 + 4) ∧
  bs_applied (bb_stats bb') = u64 (bs_applied (bb_stats bb) + Z.of_nat 4).
Proof.
  apply (builder_follows_stream 4 8 (book_init 4) demo_stream
    (@builder_run _ (OrderBook_ops 4) 8 demo_events (@builder_init _ (OrderBook_ops 4))) 3 4);
    [apply demo_venue|vm_compute; reflexivity|vm_compute; reflexivity|unfold seq_in_range; lia
    |vm_compute; split; congruence].
Defined.
