(* ===== verification/Validator.v ===== *)
(** * Validator: the per-record and per-symbol checks

    Models [src/src/validate/validator.h] and [validator.cpp]: the violation bits,
    the symbol table with its Fibonacci hash and linear probe, the sequencing,
    price-band and reconstruction checks on a slot, and the three [check]
    overloads.  The pointer [slot_for] returns is the index of the slot in the
    table, and the [Result&] out-parameter is threaded as a value. *)

From stdpp Require Import base numbers list gmap.
From Stdlib Require Import ZArith Lia.
From S2P Require Import Prelude Float64 Wire.

Local Open Scope Z_scope.

(** ** Violation bits *)

Definition kNone : Z := 0.
Definition kBarLowAboveHigh : Z := Z.shiftl 1 0.
Definition kBarOpenOutOfRange : Z := Z.shiftl 1 1.
Definition kBarCloseOutOfRange : Z := Z.shiftl 1 2.
Definition kBarVwapOutOfRange : Z := Z.shiftl 1 3.
Definition kBarNonPositivePrice : Z := Z.shiftl 1 4.
Definition kBarVolumeInconsistent : Z := Z.shiftl 1 5.
Definition kTradeNonPositivePrice : Z := Z.shiftl 1 6.
Definition kTradeNonPositiveSize : Z := Z.shiftl 1 7.
Definition kTimestampRegression : Z := Z.shiftl 1 8.
Definition kSequenceGap : Z := Z.shiftl 1 9.
Definition kBarVolumeReconstructMismatch : Z := Z.shiftl 1 10.
Definition kBarTradeCountReconstructMismatch : Z := Z.shiftl 1 11.
Definition kBarVwapReconstructMismatch : Z := Z.shiftl 1 12.
Definition kBarOhlcReconstructMismatch : Z := Z.shiftl 1 13.
Definition kQuoteCrossed : Z := Z.shiftl 1 14.
Definition kQuoteLocked : Z := Z.shiftl 1 15.
Definition kQuoteNonPositive : Z := Z.shiftl 1 16.
Definition kQuoteZeroSize : Z := Z.shiftl 1 17.
Definition kPriceBandBreach : Z := Z.shiftl 1 18.

(** The [constexpr] tolerances: the decimal literals are the correctly rounded
    quotients of the integers they abbreviate. *)
Definition kPriceRelTol : double := lit 1 1000000.
Definition kPriceBandFrac : double := lit 5 100.
Definition kRefEwmaAlpha : double := lit 2 10.
Definition kBandReanchorRun : Z := 3.

Record Result := mkResult { r_flags : Z; r_gap : Z }.

Definition result_init : Result := mkResult kNone 0.
Definition result_ok (r : Result) : bool := r_flags r =? kNone.
Definition has (r : Result) (v : Z) : bool := negb (Z.land (r_flags r) v =? 0).

(** [if (c) r.flags |= v;] *)
Definition flag_if (c : bool) (v : Z) (r : Result) : Result :=
  if c then mkResult (Z.lor (r_flags r) v) (r_gap r) else r.

(** ** Slots *)

Inductive Stream := kTradeStream | kBarStream | kQuoteStream.

Record StreamTs := mkStreamTs { ts_trade : Z; ts_bar : Z; ts_quote : Z }.

Definition last_ts_get (st : Stream) (a : StreamTs) : Z :=
  match st with kTradeStream => ts_trade a | kBarStream => ts_bar a | kQuoteStream => ts_quote a end.
Definition last_ts_set (st : Stream) (v : Z) (a : StreamTs) : StreamTs :=
  match st with
  | kTradeStream => mkStreamTs v (ts_bar a) (ts_quote a)
  | kBarStream => mkStreamTs (ts_trade a) v (ts_quote a)
  | kQuoteStream => mkStreamTs (ts_trade a) (ts_bar a) v
  end.

(** The price-band reference and the trade accumulator of a slot. *)
Record Band := mkBand { ref_price : double; ref_init : bool; breach_run : Z }.
Record Acc := mkAcc {
  has_trades : bool;
  acc_count : Z;
  acc_volume : Z;
  acc_pv : double;
  acc_open : double;
  acc_high : double;
  acc_low : double;
  acc_close : double
}.

Record Slot := mkSlot {
  key : Z;
  last_ts : StreamTs;
  last_seq : Z;
  seen : bool;
  band : Band;
  acc : Acc
}.

Definition empty_acc : Acc := mkAcc false 0 0 fzero fzero fzero fzero fzero.
Definition fresh_slot (k : Z) : Slot :=
  mkSlot k (mkStreamTs 0 0 0) 0 false (mkBand fzero false 0) empty_acc.

Definition with_band (b : Band) (s : Slot) : Slot :=
  mkSlot (key s) (last_ts s) (last_seq s) (seen s) b (acc s).
Definition with_acc (a : Acc) (s : Slot) : Slot :=
  mkSlot (key s) (last_ts s) (last_seq s) (seen s) (band s) a.

(** ** The checks on a resolved slot *)

Definition approx_equal (a b : double) : bool :=
  let scale := fmax (fabs a) (fabs b) in
  fle (fabs (fsub a b)) (fmul kPriceRelTol (fmax scale fone)).

Definition check_sequencing (st : Stream) (ts seq : Z) (s : Slot) (out : Result) : Slot * Result :=
  let stream_ts := last_ts_get st (last_ts s) in
  let out1 := flag_if (negb (stream_ts =? 0) && (ts <? stream_ts)) kTimestampRegression out in
  let out2 :=
    if seen s && (last_seq s +u 1 <? seq)
    then mkResult (Z.lor (r_flags out1) kSequenceGap) ((seq -u last_seq s) -u 1)
    else out1 in
  (mkSlot (key s) (last_ts_set st ts (last_ts s)) seq true (band s) (acc s), out2).

(** [std::fabs(price - ref) > kPriceBandFrac * ref] *)
Definition out_of_band (price ref : double) : bool :=
  fgt (fabs (fsub price ref)) (fmul kPriceBandFrac ref).

Definition check_price_band (price : double) (s : Slot) (out : Result) : Slot * Result :=
  let b := band s in
  if negb (ref_init b) then (with_band (mkBand price true (breach_run b)) s, out)
  else if out_of_band price (ref_price b) then
    let out' := flag_if true kPriceBandBreach out in
    let run := u32 (breach_run b + 1) in
    if kBandReanchorRun <=? run then (with_band (mkBand price (ref_init b) 0) s, out')
    else (with_band (mkBand (ref_price b) (ref_init b) run) s, out')
  else
    (with_band (mkBand (fadd (fmul kRefEwmaAlpha price)
                             (fmul (fsub fone kRefEwmaAlpha) (ref_price b)))
                       (ref_init b) 0) s, out).

Definition accumulate (price : double) (size : Z) (s : Slot) : Slot :=
  let a := acc s in
  let pv := fadd (acc_pv a) (fmul price (double_of_Z size)) in
  with_acc
    (if negb (has_trades a)
     then mkAcc true (acc_count a +u 1) (acc_volume a +u size) pv price price price price
     else mkAcc true (acc_count a +u 1) (acc_volume a +u size) pv (acc_open a)
            (if fgt price (acc_high a) then price else acc_high a)
            (if flt price (acc_low a) then price else acc_low a)
            price) s.

Definition reconcile (b : WireBar) (s : Slot) (out : Result) : Slot * Result :=
  let a := acc s in
  if negb (has_trades a) then (s, out)
  else
    let out1 := flag_if (negb (acc_volume a =? wb_volume b)) kBarVolumeReconstructMismatch out in
    let out2 := flag_if (negb (acc_count a =? wb_trade_count b))
                  kBarTradeCountReconstructMismatch out1 in
    let out3 :=
      if negb (acc_volume a =? 0) then
        let recon_vwap := fdiv (acc_pv a) (double_of_Z (acc_volume a)) in
        flag_if (negb (approx_equal recon_vwap (wb_vwap b))) kBarVwapReconstructMismatch out2
      else out2 in
    let out4 := flag_if (negb (approx_equal (acc_open a) (wb_open b))
                         || negb (approx_equal (acc_high a) (wb_high b))
                         || negb (approx_equal (acc_low a) (wb_low b))
                         || negb (approx_equal (acc_close a) (wb_close b)))
                  kBarOhlcReconstructMismatch out3 in
    (with_acc (mkAcc false 0 0 fzero (acc_open a) (acc_high a) (acc_low a) (acc_close a)) s, out4).

(** ** The symbol table *)

Definition kBits : Z := 12.
Definition kCapacity : Z := Z.shiftl 1 kBits.
Definition kMask : Z := kCapacity - 1.

Definition symbol_key (symbol : list byte) : Z := le_val symbol.

Definition kFib : Z := 0x9E3779B97F4A7C15.
Definition hash_index (k : Z) : Z := Z.shiftr (k *u kFib) (64 - kBits).

Notation Table := (list Slot).

Definition validator_init : Table := replicate (Z.to_nat kCapacity) (fresh_slot 0).

Definition slot_get (tbl : Table) (i : nat) : Slot := default (fresh_slot 0) (tbl !! i).

(** The probe loop with [n] probes left: the index of the slot and the table,
    changed when an empty slot was claimed. *)
Fixpoint probe (n : nat) (k idx : Z) (tbl : Table) : option (nat * Table) :=
  match n with
  | O => None
  | S n' =>
      let i := Z.to_nat idx in
      let s := slot_get tbl i in
      if (key s =? k) && seen s then Some (i, tbl)
      else if negb (seen s) then
        Some (i, <[i := mkSlot k (last_ts s) (last_seq s) (seen s) (band s) (acc s)]> tbl)
      else probe n' k (Z.land (u64 (idx + 1)) kMask) tbl
  end.

Definition slot_for (symbol : list byte) (tbl : Table) : option (nat * Table) :=
  let k := symbol_key symbol in
  probe (Z.to_nat kCapacity) k (hash_index k) tbl.

(** ** The three checks

    Each is the stateless flags, the slot, and the stateful part on the slot. *)

Definition trade_flags (t : WireTrade) : Result :=
  flag_if (wt_size t =? 0) kTradeNonPositiveSize
    (flag_if (negb (fgt (wt_price t) fzero)) kTradeNonPositivePrice result_init).

Definition trade_stateful (t : WireTrade) (s : Slot) (r : Result) : Slot * Result :=
  let '(s1, r1) := check_sequencing kTradeStream (wt_ts_ns t) (wt_seq t) s r in
  if fgt (wt_price t) fzero && negb (wt_size t =? 0) then
    check_price_band (wt_price t) (accumulate (wt_price t) (wt_size t) s1) r1
  else (s1, r1).

Definition bar_flags (b : WireBar) : Result :=
  flag_if (xorb (wb_trade_count b =? 0) (wb_volume b =? 0)) kBarVolumeInconsistent
  (flag_if (fle (wb_open b) fzero || fle (wb_high b) fzero || fle (wb_low b) fzero
            || fle (wb_close b) fzero) kBarNonPositivePrice
  (flag_if (flt (wb_vwap b) (wb_low b) || fgt (wb_vwap b) (wb_high b)) kBarVwapOutOfRange
  (flag_if (flt (wb_close b) (wb_low b) || fgt (wb_close b) (wb_high b)) kBarCloseOutOfRange
  (flag_if (flt (wb_open b) (wb_low b) || fgt (wb_open b) (wb_high b)) kBarOpenOutOfRange
  (flag_if (fgt (wb_low b) (wb_high b)) kBarLowAboveHigh result_init))))).

Definition bar_stateful (b : WireBar) (s : Slot) (r : Result) : Slot * Result :=
  let '(s1, r1) := check_sequencing kBarStream (wb_start_ns b) (wb_seq b) s r in
  reconcile b s1 r1.

Definition quote_flags (q : WireQuote) : Result :=
  let r := flag_if ((wq_bid_size q =? 0) || (wq_ask_size q =? 0)) kQuoteZeroSize
             (flag_if (fle (wq_bid_price q) fzero || fle (wq_ask_price q) fzero)
                kQuoteNonPositive result_init) in
  if fgt (wq_bid_price q) (wq_ask_price q) then flag_if true kQuoteCrossed r
  else flag_if (feq (wq_bid_price q) (wq_ask_price q)) kQuoteLocked r.

Definition quote_stateful (q : WireQuote) (s : Slot) (r : Result) : Slot * Result :=
  let '(s1, r1) := check_sequencing kQuoteStream (wq_ts_ns q) (wq_seq q) s r in
  if ref_init (band s1) && fgt (wq_bid_price q) fzero && fgt (wq_ask_price q) fzero then
    let mid := fmul (fadd (wq_bid_price q) (wq_ask_price q)) (lit 1 2) in
    (s1, flag_if (out_of_band mid (ref_price (band s1))) kPriceBandBreach r1)
  else (s1, r1).

(** [Slot* s = slot_for(symbol); if (s == nullptr) return r; ...] *)
Definition with_slot (symbol : list byte) (r : Result) (body : Slot → Result → Slot * Result)
    (tbl : Table) : Result * Table :=
  match slot_for symbol tbl with
  | None => (r, tbl)
  | Some (i, tbl1) => let '(s, r') := body (slot_get tbl1 i) r in (r', <[i := s]> tbl1)
  end.

Definition check_trade (t : WireTrade) : Table → Result * Table :=
  with_slot (wt_symbol t) (trade_flags t) (trade_stateful t).
Definition check_bar (b : WireBar) : Table → Result * Table :=
  with_slot (wb_symbol b) (bar_flags b) (bar_stateful b).
Definition check_quote (q : WireQuote) : Table → Result * Table :=
  with_slot (wq_symbol q) (quote_flags q) (quote_stateful q).

(** A record of the merged stream, as the harnesses dispatch them. *)
Inductive Msg := MTrade (t : WireTrade) | MBar (b : WireBar) | MQuote (q : WireQuote).

Definition check (m : Msg) : Table → Result * Table :=
  match m with MTrade t => check_trade t | MBar b => check_bar b | MQuote q => check_quote q end.

Fixpoint check_all (ms : list Msg) (tbl : Table) : list Result * Table :=
  match ms with
  | [] => ([], tbl)
  | m :: ms' =>
      let '(r, tbl1) := check m tbl in
      let '(rs, tbl2) := check_all ms' tbl1 in
      (r :: rs, tbl2)
  end.

(** ** Specification: one state per symbol, no table *)

Definition msg_symbol (m : Msg) : list byte :=
  match m with MTrade t => wt_symbol t | MBar b => wb_symbol b | MQuote q => wq_symbol q end.
Definition msg_key (m : Msg) : Z := symbol_key (msg_symbol m).
Definition msg_flags (m : Msg) : Result :=
  match m with MTrade t => trade_flags t | MBar b => bar_flags b | MQuote q => quote_flags q end.
Definition msg_stateful (m : Msg) : Slot → Result → Slot * Result :=
  match m with MTrade t => trade_stateful t | MBar b => bar_stateful b | MQuote q => quote_stateful q end.

(** A record against its symbol's own state. *)
Definition check_slot (m : Msg) (s : Slot) : Slot * Result := msg_stateful m s (msg_flags m).

Definition spec_check (m : Msg) (st : gmap Z Slot) : Result * gmap Z Slot :=
  let '(s, r) := check_slot m (default (fresh_slot (msg_key m)) (st !! msg_key m)) in
  (r, <[msg_key m := s]> st).

Fixpoint spec_check_all (ms : list Msg) (st : gmap Z Slot) : list Result * gmap Z Slot :=
  match ms with
  | [] => ([], st)
  | m :: ms' =>
      let '(r, st1) := spec_check m st in
      let '(rs, st2) := spec_check_all ms' st1 in
      (r :: rs, st2)
  end.
