(* ===== verification/ValidatorTable.v ===== *)
(** * Validator: the symbol table is a map

    The open-addressing table of [Validator.v] refines the specification's map
    from symbol keys to slots: the probe finds a symbol's slot wherever earlier
    insertions pushed it, and claims a free one exactly when the symbol is new. *)

From stdpp Require Import base numbers list gmap.
From Stdlib Require Import ZArith Lia.
From S2P Require Import Prelude Float64 Wire Validator.

Local Open Scope Z_scope.

Lemma kCapacity_val : kCapacity = 4096.
Proof. reflexivity. Qed.

Lemma kMask_mod x : Z.land x kMask = x mod kCapacity.
Proof. apply land_mask. reflexivity. Qed.

Lemma hash_range k : 0 <= hash_index k < kCapacity.
Proof.
  unfold hash_index, u64_mul. rewrite Z.shiftr_div_pow2 by (unfold kBits; lia).
  pose proof (u64_is (k * kFib)) as [H1 H2]. rewrite kCapacity_val. unfold kBits. split.
  - apply Z.div_pos; lia.
  - apply Z.div_lt_upper_bound; lia.
Qed.

(** Position [j] of the probe sequence that starts at [h]. *)
Definition probe_pos (h : Z) (j : nat) : nat := Z.to_nat ((h + Z.of_nat j) mod kCapacity).

Lemma probe_pos_lt h j : (probe_pos h j < Z.to_nat kCapacity)%nat.
Proof.
  unfold probe_pos. pose proof (Z.mod_pos_bound (h + Z.of_nat j) kCapacity) as H.
  rewrite kCapacity_val in *. lia.
Qed.

(** The probe sequence reaches every slot within one revolution. *)
Lemma probe_pos_surj h i :
  0 <= h < kCapacity → (i < Z.to_nat kCapacity)%nat →
  ∃ j, (j < Z.to_nat kCapacity)%nat ∧ probe_pos h j = i.
Proof.
  rewrite kCapacity_val. intros Hh Hi. exists (Z.to_nat ((Z.of_nat i - h) mod 4096)).
  pose proof (Z.mod_pos_bound (Z.of_nat i - h) 4096 eq_refl). split; [lia|].
  unfold probe_pos. rewrite kCapacity_val, Z2Nat.id, Zplus_mod_idemp_r by lia.
  replace (h + (Z.of_nat i - h)) with (Z.of_nat i) by lia. rewrite Z.mod_small; lia.
Qed.

(** A slot on which the loop stops, for key [k]. *)
Definition stops (k : Z) (s : Slot) : bool := ((key s =? k) && seen s) || negb (seen s).

(** What the loop does at the slot it stops on. *)
Definition claim (k : Z) (tbl : Table) (i : nat) : nat * Table :=
  let s := slot_get tbl i in
  if (key s =? k) && seen s then (i, tbl)
  else (i, <[i := mkSlot k (last_ts s) (last_seq s) (seen s) (band s) (acc s)]> tbl).

Lemma probe_step n k idx tbl :
  0 <= idx < kCapacity →
  probe (S n) k idx tbl =
  if stops k (slot_get tbl (Z.to_nat idx)) then Some (claim k tbl (Z.to_nat idx))
  else probe n k ((idx + 1) mod kCapacity) tbl.
Proof.
  intros Hi. cbn [probe]. rewrite kMask_mod. unfold stops, claim.
  rewrite u64_small by (unfold is_u64; rewrite kCapacity_val in Hi; lia).
  destruct ((key _ =? k) && seen _) eqn:E; cbn [orb]; [done|].
  destruct (seen (slot_get tbl (Z.to_nat idx))); done.
Qed.

(** The loop stops at the first stopping position of the sequence. *)
Lemma probe_first n k h tbl j :
  0 <= h < kCapacity → (j < n)%nat →
  stops k (slot_get tbl (probe_pos h j)) = true →
  (∀ j', (j' < j)%nat → stops k (slot_get tbl (probe_pos h j')) = false) →
  probe n k h tbl = Some (claim k tbl (probe_pos h j)).
Proof.
  revert h j. induction n as [|n IH]; intros h j Hh Hj Hs Hbefore; [lia|].
  rewrite probe_step by done.
  assert (H0 : probe_pos h 0 = Z.to_nat h).
  { unfold probe_pos. rewrite Z.add_0_r, Z.mod_small by done. done. }
  destruct j as [|j].
  - rewrite H0 in *. by rewrite Hs.
  - specialize (Hbefore 0%nat) as Hb0. rewrite H0 in Hb0. rewrite Hb0 by lia.
    assert (Hshift : ∀ i, probe_pos ((h + 1) mod kCapacity) i = probe_pos h (S i)).
    { intros i. unfold probe_pos. rewrite Zplus_mod_idemp_l. do 2 f_equal. lia. }
    rewrite (IH _ j); rewrite ?Hshift; auto with lia.
    + apply Z.mod_pos_bound. by rewrite kCapacity_val.
    + intros j' Hj'. rewrite Hshift. apply Hbefore. lia.
Qed.

Lemma probe_none n k h tbl :
  0 <= h < kCapacity → (∀ i, (i < Z.to_nat kCapacity)%nat → stops k (slot_get tbl i) = false) →
  probe n k h tbl = None.
Proof.
  revert h. induction n as [|n IH]; intros h Hh Hall; [done|].
  rewrite probe_step by done. rewrite Hall by (rewrite kCapacity_val in *; lia).
  apply IH; [|done]. apply Z.mod_pos_bound. by rewrite kCapacity_val.
Qed.

(** ** The relation *)

(** The slot at [i] is reachable for key [k]: nothing before it is free. *)
Definition reachable (tbl : Table) (k : Z) (i : nat) : Prop :=
  ∃ j, (j < Z.to_nat kCapacity)%nat ∧ probe_pos (hash_index k) j = i ∧
    ∀ j', (j' < j)%nat → seen (slot_get tbl (probe_pos (hash_index k) j')) = true.

Record table_rel (tbl : Table) (st : gmap Z Slot) : Prop := {
  tr_len : length tbl = Z.to_nat kCapacity;
  tr_free : ∀ i s, tbl !! i = Some s → seen s = false → s = fresh_slot 0;
  tr_slot : ∀ i s, tbl !! i = Some s → seen s = true → st !! key s = Some s ∧ reachable tbl (key s) i;
  tr_find : ∀ k s, st !! k = Some s → ∃ i, tbl !! i = Some s ∧ key s = k ∧ seen s = true;
  tr_inj : ∀ i j s s', tbl !! i = Some s → tbl !! j = Some s' → seen s = true → seen s' = true →
    key s = key s' → i = j;
  tr_count : countb seen tbl = Z.of_nat (size st)
}.

Lemma table_init_rel : table_rel validator_init ∅.
Proof.
  unfold validator_init. split.
  - apply length_replicate.
  - by intros i s [-> _]%lookup_replicate.
  - by intros i s [-> _]%lookup_replicate.
  - intros k s Hk. by rewrite lookup_empty in Hk.
  - intros i j s s' [-> _]%lookup_replicate _ Hs. done.
  - by rewrite countb_replicate, map_size_empty.
Qed.

Lemma slot_get_lookup tbl i s : tbl !! i = Some s → slot_get tbl i = s.
Proof. unfold slot_get. by intros ->. Qed.

Lemma slot_get_lt tbl i : (i < length tbl)%nat → tbl !! i = Some (slot_get tbl i).
Proof. intros H. unfold slot_get. destruct (lookup_lt_is_Some_2 tbl i H) as [x ->]. done. Qed.

Lemma probe_lookup tbl st h j :
  table_rel tbl st → tbl !! probe_pos h j = Some (slot_get tbl (probe_pos h j)).
Proof. intros R. apply slot_get_lt. rewrite (tr_len _ _ R). apply probe_pos_lt. Qed.

(** ** The probe against the map *)

Lemma slot_for_known symbol tbl st s :
  table_rel tbl st → st !! symbol_key symbol = Some s →
  ∃ i, slot_for symbol tbl = Some (i, tbl) ∧ tbl !! i = Some s ∧
    key s = symbol_key symbol ∧ seen s = true.
Proof.
  intros R Hk. destruct (tr_find _ _ R _ _ Hk) as (i&Hi&Hkey&Hseen).
  destruct (tr_slot _ _ R i s Hi Hseen) as [_ (j&Hj&Hpos&Hpath)]. rewrite Hkey in Hpos, Hpath.
  exists i. split; [|done]. unfold slot_for.
  rewrite (probe_first _ _ _ _ j); [|apply hash_range|done|..].
  - rewrite Hpos. unfold claim. rewrite (slot_get_lookup _ _ _ Hi), Hkey, Z.eqb_refl, Hseen. done.
  - rewrite Hpos. unfold stops. by rewrite (slot_get_lookup _ _ _ Hi), Hkey, Z.eqb_refl, Hseen.
  - intros j' Hj'. unfold stops. rewrite Hpath by done. rewrite andb_true_r, orb_false_r.
    apply Z.eqb_neq. intros Heq.
    assert (probe_pos (hash_index (symbol_key symbol)) j' = i) as Hsame.
    { eapply (tr_inj _ _ R); [by eapply probe_lookup|exact Hi|by apply Hpath|done|congruence]. }
    rewrite <- Hsame in Hpos. unfold probe_pos in Hpos.
    pose proof (hash_range (symbol_key symbol)) as Hh. rewrite kCapacity_val in *.
    apply Z2Nat.inj in Hpos; try (apply Z.mod_pos_bound; lia).
    apply mod_window_inj in Hpos; lia.
Qed.

(** The first free position of the sequence, when there is a free slot. *)
Lemma first_free tbl st k :
  table_rel tbl st → (size st < Z.to_nat kCapacity)%nat →
  ∃ j, (j < Z.to_nat kCapacity)%nat ∧
    seen (slot_get tbl (probe_pos (hash_index k) j)) = false ∧
    ∀ j', (j' < j)%nat → seen (slot_get tbl (probe_pos (hash_index k) j')) = true.
Proof.
  intros R Hsize.
  assert (Hfree : ∃ i s, tbl !! i = Some s ∧ seen s = false).
  { apply countb_lt_length. rewrite (tr_count _ _ R), (tr_len _ _ R). lia. }
  destruct Hfree as (i&s&Hi&Hs). pose proof (lookup_lt_Some _ _ _ Hi) as Hlt.
  rewrite (tr_len _ _ R) in Hlt.
  destruct (probe_pos_surj (hash_index k) i (hash_range k) Hlt) as (j&Hj&Hpos).
  assert (Hj0 : seen (slot_get tbl (probe_pos (hash_index k) j)) = false).
  { by rewrite Hpos, (slot_get_lookup _ _ _ Hi). }
  destruct (first_false (λ j, seen (slot_get tbl (probe_pos (hash_index k) j))) j Hj0)
    as (j0&Hle&Hf&Hb). exists j0. split; [lia|]. done.
Qed.

Lemma slot_for_new symbol tbl st :
  table_rel tbl st → st !! symbol_key symbol = None → (size st < Z.to_nat kCapacity)%nat →
  ∃ i, slot_for symbol tbl = Some (i, <[i := fresh_slot (symbol_key symbol)]> tbl) ∧
    tbl !! i = Some (fresh_slot 0) ∧ reachable tbl (symbol_key symbol) i.
Proof.
  intros R Hk Hsize. destruct (first_free tbl st (symbol_key symbol) R Hsize) as (j&Hj&Hfree&Hpath).
  set (i := probe_pos (hash_index (symbol_key symbol)) j) in *.
  pose proof (probe_lookup _ _ (hash_index (symbol_key symbol)) j R) as Hi. fold i in Hi.
  pose proof (tr_free _ _ R _ _ Hi Hfree) as Hfresh. rewrite Hfresh in Hi.
  exists i. split; [|split; [done|by exists j]]. unfold slot_for.
  rewrite (probe_first _ _ _ _ j); [|apply hash_range|done|..].
  - fold i. unfold claim. rewrite Hfresh. cbn [seen fresh_slot]. rewrite andb_false_r. done.
  - fold i. unfold stops. by rewrite Hfree, orb_true_r.
  - intros j' Hj'. unfold stops. rewrite Hpath by done. rewrite andb_true_r, orb_false_r.
    apply Z.eqb_neq. intros Heq.
    destruct (tr_slot _ _ R _ _ (probe_lookup _ _ (hash_index (symbol_key symbol)) j' R)) as [H _];
      [by apply Hpath|]. congruence.
Qed.

Lemma slot_for_full symbol tbl st :
  table_rel tbl st → st !! symbol_key symbol = None → size st = Z.to_nat kCapacity →
  slot_for symbol tbl = None.
Proof.
  intros R Hk Hsize. unfold slot_for. apply probe_none; [apply hash_range|].
  intros i Hi. rewrite <- (tr_len _ _ R) in Hi. pose proof (slot_get_lt _ _ Hi) as Hl.
  assert (Hseen : seen (slot_get tbl i) = true).
  { eapply countb_full; [|exact Hl]. rewrite (tr_count _ _ R), (tr_len _ _ R). lia. }
  unfold stops. rewrite Hseen, andb_true_r, orb_false_r. apply Z.eqb_neq. intros Heq.
  destruct (tr_slot _ _ R _ _ Hl Hseen) as [H _]. congruence.
Qed.

(** ** Writing a slot back *)

Lemma slot_get_insert tbl i s j :
  slot_get (<[i := s]> tbl) j =
  if decide (i = j ∧ (j < length tbl)%nat) then s else slot_get tbl j.
Proof.
  unfold slot_get. case_decide as H.
  - destruct H as [-> H]. by rewrite list_lookup_insert_eq.
  - destruct (decide (i = j)) as [->|Hne]; [|by rewrite list_lookup_insert_ne].
    rewrite list_insert_ge by lia. done.
Qed.

Lemma reachable_insert tbl i s k j :
  seen s = true → reachable tbl k j → reachable (<[i := s]> tbl) k j.
Proof.
  intros Hs (n&Hn&Hpos&Hpath). exists n. split; [done|]. split; [done|]. intros j' Hj'.
  rewrite slot_get_insert. case_decide; [done|]. by apply Hpath.
Qed.

Lemma table_rel_write tbl st i s0 k s :
  table_rel tbl st → tbl !! i = Some s0 → key s = k → seen s = true →
  (seen s0 = true ∧ key s0 = k) ∨ (seen s0 = false ∧ st !! k = None ∧ reachable tbl k i) →
  table_rel (<[i := s]> tbl) (<[k := s]> st).
Proof.
  intros R Hi Hkey Hseen Hcase. pose proof (lookup_lt_Some _ _ _ Hi) as Hlt.
  assert (Hreach : reachable tbl k i).
  { destruct Hcase as [[H1 <-]|(_&_&?)]; [|done]. by apply (tr_slot _ _ R i s0). }
  assert (Hother : ∀ j s', tbl !! j = Some s' → seen s' = true → j ≠ i → key s' ≠ k).
  { intros j s' Hj Hs' Hne Hk'. destruct Hcase as [[H1 H2]|(_&Hnone&_)].
    - apply Hne. apply (tr_inj _ _ R j i s' s0); congruence.
    - destruct (tr_slot _ _ R _ _ Hj Hs') as [H _]. congruence. }
  assert (Hlook : ∀ j s', <[i := s]> tbl !! j = Some s' →
            (j = i ∧ s' = s) ∨ (j ≠ i ∧ tbl !! j = Some s')).
  { intros j s' Hj. destruct (decide (j = i)) as [->|Hne].
    - rewrite list_lookup_insert_eq in Hj by done. left. by simplify_eq.
    - rewrite list_lookup_insert_ne in Hj by done. by right. }
  split.
  - rewrite length_insert. apply R.
  - intros j s' [[-> ->]|[Hne Hj]]%Hlook Hs'; [congruence|by eapply (tr_free _ _ R)].
  - intros j s' [[-> ->]|[Hne Hj]]%Hlook Hs'.
    + rewrite Hkey, lookup_insert_eq. split; [done|]. by apply reachable_insert.
    + rewrite lookup_insert_ne by (by apply not_eq_sym, (Hother j)).
      destruct (tr_slot _ _ R _ _ Hj Hs'). split; [done|]. by apply reachable_insert.
  - intros k' s' Hk'. destruct (decide (k' = k)) as [->|Hne].
    + rewrite lookup_insert_eq in Hk'. simplify_eq. exists i.
      by rewrite list_lookup_insert_eq.
    + rewrite lookup_insert_ne in Hk' by done. destruct (tr_find _ _ R _ _ Hk') as (j&Hj&Hkj&Hsj).
      exists j. rewrite list_lookup_insert_ne; [done|]. intros ->. simplify_eq.
      destruct Hcase as [[_ H2]|(H2&_)]; congruence.
  - intros j1 j2 s1 s2 [[-> ->]|[N1 H1]]%Hlook [[-> ->]|[N2 H2]]%Hlook S1 S2 Hk; [done|..].
    + exfalso. apply (Hother j2 s2 H2 S2 N2). congruence.
    + exfalso. apply (Hother j1 s1 H1 S1 N1). congruence.
    + by apply (tr_inj _ _ R j1 j2 s1 s2).
  - rewrite (countb_insert seen tbl i s0 s Hi), (tr_count _ _ R), Hseen.
    destruct Hcase as [[H1 H2]|(H1&H2&_)]; rewrite H1.
    + destruct (tr_slot _ _ R _ _ Hi H1) as [H3 _]. rewrite H2 in H3.
      rewrite map_size_insert_Some by (by eexists). lia.
    + rewrite map_size_insert_None by done. lia.
Qed.

(** ** The checks *)

Lemma check_slot_key m s : key (check_slot m s).1 = key s ∧ seen (check_slot m s).1 = true.
Proof.
  assert (Hband : ∀ p s r, key (check_price_band p s r).1 = key s ∧
                           seen (check_price_band p s r).1 = seen s).
  { intros p s' r. unfold check_price_band. repeat case_match; done. }
  unfold check_slot. destruct m as [t|b|q]; cbn [msg_stateful].
  - unfold trade_stateful, check_sequencing. case_match; [|done].
    match goal with |- context [check_price_band ?p ?s ?r] => destruct (Hband p s r) as [-> ->] end.
    done.
  - unfold bar_stateful, check_sequencing, reconcile. case_match; done.
  - unfold quote_stateful, check_sequencing. case_match; done.
Qed.

Lemma check_with_slot m tbl : check m tbl = with_slot (msg_symbol m) (msg_flags m) (msg_stateful m) tbl.
Proof. by destruct m. Qed.

(** One record, against the table and against the map. *)
Lemma check_sim m tbl st :
  table_rel tbl st →
  is_Some (st !! msg_key m) ∨ (size st < Z.to_nat kCapacity)%nat →
  ∃ tbl', check m tbl = ((spec_check m st).1, tbl') ∧ table_rel tbl' (spec_check m st).2.
Proof.
  intros R Hroom. rewrite check_with_slot. unfold with_slot, spec_check. fold (msg_key m).
  destruct (check_slot_key m (default (fresh_slot (msg_key m)) (st !! msg_key m))) as [Hk Hs].
  unfold msg_key in *. destruct (st !! symbol_key (msg_symbol m)) as [s|] eqn:Hst.
  - destruct (slot_for_known _ _ _ _ R Hst) as (i&->&Hi&Hkey&Hseen).
    rewrite (slot_get_lookup _ _ _ Hi). cbn [default id] in *. unfold check_slot in *.
    destruct (msg_stateful m s (msg_flags m)) as [s' r']. cbn [fst snd] in *.
    eexists. split; [done|]. apply (table_rel_write tbl st i s); [done|done|congruence|done|auto].
  - destruct Hroom as [[s Hs']|Hroom]; [done|].
    destruct (slot_for_new _ _ _ R Hst Hroom) as (i&->&Hi&Hreach).
    rewrite slot_get_insert, decide_True by (split; [done|]; by eapply lookup_lt_Some).
    cbn [default id] in *. unfold check_slot in *.
    destruct (msg_stateful m _ (msg_flags m)) as [s' r']. cbn [fst snd] in *.
    eexists. split; [done|]. rewrite list_insert_insert_eq.
    eapply table_rel_write; [done|exact Hi|exact Hk|done|auto].
Qed.

Lemma check_full m tbl st :
  table_rel tbl st → st !! msg_key m = None → size st = Z.to_nat kCapacity →
  check m tbl = (msg_flags m, tbl).
Proof.
  intros R Hk Hsize. rewrite check_with_slot. unfold with_slot.
  by rewrite (slot_for_full _ _ _ R Hk Hsize).
Qed.

(** A whole stream whose symbols fit the table. *)
Definition keys (ms : list Msg) : gset Z := list_to_set (msg_key <$> ms).

Lemma spec_check_dom m st : dom (spec_check m st).2 = {[msg_key m]} ∪ dom st.
Proof. unfold spec_check. destruct (check_slot _ _). cbn. apply dom_insert_L. Qed.

Lemma check_all_sim ms tbl st :
  table_rel tbl st → (size (keys ms ∪ dom st) <= Z.to_nat kCapacity)%nat →
  ∃ tbl', check_all ms tbl = ((spec_check_all ms st).1, tbl') ∧
    table_rel tbl' (spec_check_all ms st).2.
Proof.
  revert tbl st. induction ms as [|m ms IH]; intros tbl st R Hsize; [eauto|].
  assert (Hsub : {[msg_key m]} ∪ dom st ⊆ keys (m :: ms) ∪ dom st).
  { unfold keys. cbn. set_solver. }
  destruct (check_sim m tbl st R) as (tbl1&He&R1).
  { destruct (st !! msg_key m) eqn:Hk; [by left|right].
    apply subseteq_size in Hsub. rewrite size_union, size_singleton in Hsub.
    - rewrite <- size_dom. lia.
    - apply not_elem_of_dom in Hk. set_solver. }
  destruct (IH tbl1 (spec_check m st).2 R1) as (tbl2&He2&R2).
  { rewrite spec_check_dom. etrans; [|exact Hsize]. apply subseteq_size.
    unfold keys. cbn. set_solver. }
  cbn [check_all spec_check_all]. rewrite He, He2.
  destruct (spec_check m st) as [r st1], (spec_check_all ms st1) as [rs st2] eqn:E.
  cbn [fst snd] in *. rewrite E in *. eauto.
Qed.
