(* ===== verification/ValidatorProps.v ===== *)
(** * Validator: streams of records

    Properties of whole streams: the table never changes a result while the
    symbols fit, symbols do not influence each other, and the sequence gaps add
    up. *)

From stdpp Require Import base numbers list list_numbers gmap.
From Stdlib Require Import ZArith Lia.
From S2P Require Import Prelude Float64 Wire Validator ValidatorTable.

Local Open Scope Z_scope.

(** ** Symbols are independent *)

(** The results of the records of one symbol. *)
Definition results_for (k : Z) (ms : list Msg) (rs : list Result) : list Result :=
  snd <$> filter (λ mr, msg_key mr.1 = k) (zip ms rs).

Definition only (k : Z) (ms : list Msg) : list Msg := filter (λ m, msg_key m = k) ms.

Lemma spec_check_agree k m st st' :
  st !! k = st' !! k → msg_key m = k →
  (spec_check m st).1 = (spec_check m st').1 ∧ (spec_check m st).2 !! k = (spec_check m st').2 !! k.
Proof.
  intros Hst Hk. unfold spec_check. rewrite Hk, Hst.
  destruct (check_slot m _) as [s r]. cbn. by rewrite !lookup_insert_eq.
Qed.

Lemma spec_check_other k m st : msg_key m ≠ k → (spec_check m st).2 !! k = st !! k.
Proof.
  intros Hk. unfold spec_check. destruct (check_slot m _) as [s r]. cbn.
  by rewrite lookup_insert_ne.
Qed.

Lemma spec_check_all_cons m ms st :
  (spec_check_all (m :: ms) st).1 =
  (spec_check m st).1 :: (spec_check_all ms (spec_check m st).2).1.
Proof.
  cbn. destruct (spec_check m st) as [r st1]. cbn. by destruct (spec_check_all ms st1).
Qed.

(** The records of the keys in [P] see only each other. *)
Lemma spec_isolation_on (P : Z → Prop) `{!∀ k, Decision (P k)} ms st st' :
  (∀ k, P k → st !! k = st' !! k) →
  snd <$> filter (λ mr, P (msg_key mr.1)) (zip ms (spec_check_all ms st).1) =
  (spec_check_all (filter (λ m, P (msg_key m)) ms) st').1.
Proof.
  revert st st'. induction ms as [|m ms IH]; intros st st' Hst; [done|].
  rewrite spec_check_all_cons. cbn [zip_with].
  destruct (decide (P (msg_key m))) as [Hk|Hk].
  - destruct (spec_check_agree (msg_key m) m st st') as [H1 H2]; [auto|done|].
    rewrite !filter_cons_True by done. rewrite spec_check_all_cons, fmap_cons. cbn [snd].
    f_equal; [done|]. apply IH. intros k Hp. destruct (decide (msg_key m = k)) as [<-|]; [done|].
    rewrite !spec_check_other by done. auto.
  - rewrite !filter_cons_False by done. apply IH. intros k Hp.
    rewrite spec_check_other by (intros Heq; by subst k). auto.
Qed.

Lemma spec_isolation k ms st st' :
  st !! k = st' !! k →
  results_for k ms (spec_check_all ms st).1 = (spec_check_all (only k ms) st').1.
Proof.
  intros Hst. unfold results_for, only.
  by apply (spec_isolation_on (λ k', k' = k) (H := λ k', decide_rel (=) k' k)); intros ? ->.
Qed.

Lemma keys_single k ms : Forall (λ m, msg_key m = k) ms → (size (keys ms) <= 1)%nat.
Proof.
  intros Hk. rewrite <- (size_singleton (C := gset Z) k). apply subseteq_size. unfold keys.
  intros x Hx. apply elem_of_list_to_set, list_elem_of_fmap in Hx as (m&->&Hm).
  rewrite Forall_forall in Hk. rewrite (Hk m Hm). set_solver.
Qed.

Lemma keys_only k ms : (size (keys (only k ms)) <= 1)%nat.
Proof. apply (keys_single k), Forall_forall. by intros m [? _]%list_elem_of_filter. Qed.

Lemma check_all_spec ms :
  (size (keys ms) <= Z.to_nat kCapacity)%nat →
  (check_all ms validator_init).1 = (spec_check_all ms ∅).1 ∧
  table_rel (check_all ms validator_init).2 (spec_check_all ms ∅).2.
Proof.
  intros Hsize. destruct (check_all_sim ms _ _ table_init_rel) as (tbl'&He&R).
  { by rewrite dom_empty_L, union_empty_r_L. }
  by rewrite He.
Qed.

(** A stream of two interleaved symbols, used by the witnesses. *)
Definition demo_trade (sym ts seq : Z) (price : Z) : Msg :=
  MTrade (mkWireTrade (le_bytes 8 sym) ts seq 0 (double_of_Z price) 10 (byte_of_Z 86)
            (byte_of_Z 65) []).
Lemma demo_trade_key k ts seq p : 0 <= k < 2 ^ 64 → msg_key (demo_trade k ts seq p) = k.
Proof.
  intros H. change (le_val (le_bytes 8 k) = k). rewrite le_val_bytes. by apply Z.mod_small.
Qed.
Lemma demo_keys n :
  0 <= n < 2 ^ 64 → msg_key <$> ((λ k, demo_trade k 1 1 100) <$> seqZ 0 n) = seqZ 0 n.
Proof.
  intros Hn. rewrite <- list_fmap_compose. rewrite <- (list_fmap_id (seqZ 0 n)) at 2.
  apply list_fmap_ext. intros i k Hk. apply lookup_seqZ in Hk as [-> Hk].
  cbn [compose id]. rewrite demo_trade_key; [done|lia].
Qed.
Definition demo_stream : list Msg :=
  [demo_trade 1 10 1 100; demo_trade 2 11 1 50; demo_trade 1 12 2 101; demo_trade 2 10 4 50;
   demo_trade 1 13 5 300].

(** C3: While a stream has no more symbols than the table has slots (4096), the
    hash table is invisible: every record gets the result it would get from a map
    that keeps one state per symbol, whatever collisions the hash produces. *)
Theorem validator_table_transparent ms :
  (size (keys ms) <= Z.to_nat kCapacity)%nat →
  (check_all ms validator_init).1 = (spec_check_all ms ∅).1.
Proof. intros H. by apply check_all_spec. Qed.

Lemma validator_table_transparent_witness :
  (check_all demo_stream validator_init).1 = (spec_check_all demo_stream ∅).1.
Proof. apply (validator_table_transparent demo_stream). apply Nat.leb_le. vm_compute. reflexivity. Defined.

(** C24: Symbols are isolated: in any interleaved stream that fits the table, the
    results of one symbol's records are those of a fresh validator that sees only
    that symbol's records. *)
Theorem validator_symbol_isolation k ms :
  (size (keys ms) <= Z.to_nat kCapacity)%nat →
  results_for k ms (check_all ms validator_init).1 = (check_all (only k ms) validator_init).1.
Proof.
  intros Hsize. destruct (check_all_spec ms Hsize) as [-> _].
  destruct (check_all_spec (only k ms)) as [-> _].
  { pose proof (keys_only k ms). rewrite kCapacity_val. lia. }
  by apply spec_isolation.
Qed.

Lemma validator_symbol_isolation_witness :
  results_for 1 demo_stream (check_all demo_stream validator_init).1 =
  (check_all (only 1 demo_stream) validator_init).1.
Proof. apply (validator_symbol_isolation 1 demo_stream). apply Nat.leb_le. vm_compute. reflexivity. Defined.

Lemma spec_check_all_dom ms st : dom (spec_check_all ms st).2 = keys ms ∪ dom st.
Proof.
  revert st. induction ms as [|m ms IH]; intros st; [unfold keys; cbn; set_solver|].
  cbn. pose proof (spec_check_dom m st) as Hd. destruct (spec_check m st) as [r st1].
  cbn in Hd. specialize (IH st1). destruct (spec_check_all ms st1) as [rs st2]. cbn in *.
  rewrite IH, Hd. unfold keys. cbn. set_solver.
Qed.

(** When 4096 symbols have been seen, a record of a new symbol gets its
    stateless flags only and the table is left exactly as it was: no probe runs
    forever and no other symbol's slot is taken over. *)
Theorem validator_full_table_skips_state ms m :
  size (keys ms) = Z.to_nat kCapacity → msg_key m ∉ keys ms →
  let tbl := (check_all ms validator_init).2 in
  check m tbl = (msg_flags m, tbl).
Proof.
  intros Hsize Hm. cbn zeta. destruct (check_all_spec ms) as [_ R]; [lia|].
  pose proof (spec_check_all_dom ms ∅) as Hdom. rewrite dom_empty_L, union_empty_r_L in Hdom.
  eapply check_full; [exact R|..].
  - apply not_elem_of_dom. by rewrite Hdom.
  - by rewrite <- size_dom, Hdom.
Qed.

Lemma validator_full_table_skips_state_witness :
  let ms := (λ k, demo_trade k 1 1 100) <$> seqZ 0 4096 in
  let tbl := (check_all ms validator_init).2 in
  check (demo_trade 4096 1 1 100) tbl = (msg_flags (demo_trade 4096 1 1 100), tbl).
Proof.
  apply (validator_full_table_skips_state ((λ k, demo_trade k 1 1 100) <$> seqZ 0 4096));
    unfold keys; rewrite demo_keys, ?demo_trade_key by lia.
  - rewrite size_list_to_set by apply NoDup_seqZ. apply length_seqZ.
  - rewrite elem_of_list_to_set, elem_of_seqZ. lia.
Defined.

(** ** Sequence gaps *)

Definition msg_seq (m : Msg) : Z :=
  match m with MTrade t => wt_seq t | MBar b => wb_seq b | MQuote q => wq_seq q end.

Definition total_gap (rs : list Result) : Z := foldr Z.add 0 (r_gap <$> rs).

Lemma flag_if_gap c v r : r_gap (flag_if c v r) = r_gap r.
Proof. by destruct c. Qed.

Lemma check_price_band_gap p s r : r_gap (check_price_band p s r).2 = r_gap r.
Proof. unfold check_price_band. repeat case_match; done. Qed.

Lemma reconcile_gap b s r : r_gap (reconcile b s r).2 = r_gap r.
Proof. unfold reconcile. repeat case_match; cbn; by rewrite ?flag_if_gap. Qed.

Lemma msg_flags_gap m : r_gap (msg_flags m) = 0.
Proof.
  destruct m; cbn [msg_flags]; unfold trade_flags, bar_flags, quote_flags; try case_match;
    by rewrite !flag_if_gap.
Qed.

Lemma check_sequencing_gap st ts seq s r :
  r_gap r = 0 →
  r_gap (check_sequencing st ts seq s r).2 =
    if seen s && (last_seq s +u 1 <? seq) then (seq -u last_seq s) -u 1 else 0.
Proof. intros Hr. unfold check_sequencing. cbn. case_match; cbn; by rewrite ?flag_if_gap. Qed.

Lemma check_price_band_seq p s r :
  last_seq (check_price_band p s r).1 = last_seq s ∧ seen (check_price_band p s r).1 = seen s.
Proof. unfold check_price_band. repeat case_match; done. Qed.

(** The sequencing part of a record, whatever its type. *)
Lemma check_slot_seq m s :
  last_seq (check_slot m s).1 = msg_seq m ∧ seen (check_slot m s).1 = true ∧
  r_gap (check_slot m s).2 =
    if seen s && (last_seq s +u 1 <? msg_seq m) then (msg_seq m -u last_seq s) -u 1 else 0.
Proof.
  split; [|split; [apply check_slot_key|]]; unfold check_slot; pose proof (msg_flags_gap m) as Hg;
    destruct m as [t|b|q]; cbn [msg_stateful msg_seq] in *.
  - unfold trade_stateful. destruct (check_sequencing _ _ _ _ _) as [s1 r1] eqn:E.
    assert (last_seq s1 = wt_seq t) as Hs by (unfold check_sequencing in E; by simplify_eq).
    case_match; [|done]. rewrite (proj1 (check_price_band_seq _ _ _)). done.
  - unfold bar_stateful, check_sequencing, reconcile. by case_match.
  - unfold quote_stateful, check_sequencing. by case_match.
  - unfold trade_stateful.
    pose proof (check_sequencing_gap kTradeStream (wt_ts_ns t) (wt_seq t) s _ Hg) as Hs.
    destruct (check_sequencing _ _ _ _ _) as [s1 r1]. cbn [snd] in Hs.
    rewrite <- Hs. clear Hs. case_match; [by rewrite check_price_band_gap|done].
  - unfold bar_stateful.
    pose proof (check_sequencing_gap kBarStream (wb_start_ns b) (wb_seq b) s _ Hg) as Hs.
    destruct (check_sequencing _ _ _ _ _) as [s1 r1]. cbn [snd] in Hs. by rewrite reconcile_gap.
  - unfold quote_stateful.
    pose proof (check_sequencing_gap kQuoteStream (wq_ts_ns q) (wq_seq q) s _ Hg) as Hs.
    destruct (check_sequencing _ _ _ _ _) as [s1 r1]. cbn [snd] in Hs.
    rewrite <- Hs. clear Hs. case_match; cbn [snd]; by rewrite ?flag_if_gap.
Qed.

(** Sequences that only go up, from [from] (exclusive). *)
Fixpoint ascending (from : Z) (ms : list Msg) : Prop :=
  match ms with
  | [] => True
  | m :: ms' => from < msg_seq m < 2 ^ 64 ∧ ascending (msg_seq m) ms'
  end.

Definition last_seq_of (from : Z) (ms : list Msg) : Z :=
  default from (msg_seq <$> last ms).

Lemma spec_gap_total k ms st s :
  Forall (λ m, msg_key m = k) ms → st !! k = Some s → seen s = true → 0 <= last_seq s →
  ascending (last_seq s) ms →
  total_gap (spec_check_all ms st).1 =
    last_seq_of (last_seq s) ms - last_seq s - Z.of_nat (length ms).
Proof.
  revert st s. induction ms as [|m ms IH]; intros st s Hk Hst Hseen H0 Hasc.
  { unfold last_seq_of. cbn. lia. }
  apply Forall_cons in Hk as [Hkm Hk]. destruct Hasc as [Hm Hasc].
  destruct (check_slot_seq m s) as (Hl&Hs&Hg).
  rewrite spec_check_all_cons. unfold spec_check at 1 2. rewrite Hkm, Hst. cbn [default id].
  destruct (check_slot m s) as [s' r]. cbn [fst snd] in *. unfold total_gap.
  rewrite fmap_cons. cbn [foldr]. fold (total_gap (spec_check_all ms (<[k:=s']> st)).1).
  rewrite (IH _ s'); [|done|apply lookup_insert_eq|done|lia|by rewrite Hl].
  rewrite Hg, Hl, Hseen. cbn [andb length]. rewrite u64_add_small by lia.
  assert (Hlast : last_seq_of (last_seq s) (m :: ms) = last_seq_of (msg_seq m) ms).
  { unfold last_seq_of. rewrite last_cons. by destruct (last ms). }
  rewrite Hlast. destruct (Z.ltb_spec (last_seq s + 1) (msg_seq m)).
  - rewrite (u64_sub_small (msg_seq m)) by lia. rewrite u64_sub_small by lia. lia.
  - lia.
Qed.

(** The gap counts are exact: for one symbol whose sequence numbers only go
    up, over any mix of trades, quotes and bars, the gaps reported add up to the
    number of sequence numbers that never arrived between the first and the last
    record. *)
Theorem validator_gaps_count_missing k m ms :
  Forall (λ m, msg_key m = k) (m :: ms) → 0 <= msg_seq m → ascending (msg_seq m) ms →
  total_gap (check_all (m :: ms) validator_init).1 =
    last_seq_of (msg_seq m) ms - msg_seq m - Z.of_nat (length ms).
Proof.
  intros [Hkm Hk]%Forall_cons H0 Hasc. destruct (check_all_spec (m :: ms)) as [-> _].
  { pose proof (keys_single k (m :: ms)) as Hone. rewrite kCapacity_val.
    rewrite Forall_cons in Hone. specialize (Hone (conj Hkm Hk)). lia. }
  destruct (check_slot_seq m (fresh_slot k)) as (Hl&Hs&Hg).
  rewrite spec_check_all_cons. unfold spec_check at 1 2. rewrite Hkm, lookup_empty. cbn [default id].
  destruct (check_slot m (fresh_slot k)) as [s' r]. cbn [fst snd] in *. unfold total_gap.
  rewrite fmap_cons. cbn [foldr]. fold (total_gap (spec_check_all ms (<[k:=s']> ∅)).1).
  rewrite (spec_gap_total k _ _ s'); [|done|apply lookup_insert_eq|done|lia|by rewrite Hl].
  rewrite Hg, Hl. cbn. lia.
Qed.

Lemma validator_gaps_count_missing_witness :
  total_gap (check_all [demo_trade 1 10 5 100; demo_trade 1 11 6 100; demo_trade 1 12 20 100]
               validator_init).1 = 20 - 5 - 2.
Proof.
  apply (validator_gaps_count_missing 1 (demo_trade 1 10 5 100)
           [demo_trade 1 11 6 100; demo_trade 1 12 20 100]).
  - repeat constructor.
  - cbn. lia.
  - cbn. lia.
Defined.
