(* ===== verification/ValidatorChecks.v ===== *)
(** * Validator: what each check reports

    The exact flags of every record against its symbol's state, the price-band
    reference and its recovery, and the reconstruction of a bar from its trades. *)

From stdpp Require Import base numbers list gmap.
From Stdlib Require Import ZArith Lia Btauto Floats.SpecFloat.
From S2P Require Import Prelude Float64 Wire Validator ValidatorTable ValidatorProps.

Local Open Scope Z_scope.

(** ** Flag words *)

Definition bit_if (c : bool) (v : Z) : Z := if c then v else 0.

(** The union of the flags whose condition holds. *)
Definition flags_of (l : list (bool * Z)) : Z := foldr (λ cv f, Z.lor (bit_if cv.1 cv.2) f) 0 l.

Lemma flag_if_flags c v r : r_flags (flag_if c v r) = Z.lor (r_flags r) (bit_if c v).
Proof. destruct c; cbn; [done|]. by rewrite Z.lor_0_r. Qed.

Lemma flags_of_zero l : flags_of l = 0 ↔ Forall (λ cv, cv.2 ≠ 0 → cv.1 = false) l.
Proof.
  induction l as [|[c v] l IH]; [done|]. cbn [flags_of foldr]. fold (flags_of l).
  rewrite Z.lor_eq_0_iff, IH, Forall_cons. cbn [fst snd].
  assert (bit_if c v = 0 ↔ (v ≠ 0 → c = false)) as ->; [|done].
  destruct c; cbn [bit_if]; [|done]. destruct (decide (v = 0)); intuition congruence.
Qed.

(** Testing a flag word against one bit. *)
Lemma has_flags l v :
  negb (Z.land (flags_of l) v =? 0) = existsb (λ cv, cv.1 && negb (Z.land cv.2 v =? 0)) l.
Proof.
  induction l as [|[c x] l IH]; [done|]. cbn [flags_of foldr existsb fst snd]. fold (flags_of l).
  rewrite <- IH, Z.land_lor_distr_l. destruct c; cbn [bit_if andb]; [|by rewrite Z.land_0_l, Z.lor_0_l].
  apply bool_iff. rewrite orb_true_iff, !negb_true_iff, !Z.eqb_neq, Z.lor_eq_0_iff.
  destruct (decide (Z.land x v = 0)); intuition congruence.
Qed.

Ltac flag_bits :=
  cbn [existsb fst snd];
  repeat match goal with
    | |- context [Z.land ?a ?b =? 0] =>
        let c := eval vm_compute in (Z.land a b =? 0) in change (Z.land a b =? 0) with c
    end;
  cbn [negb].

(** Two flag words built from the same conditions, in whatever order. *)
Ltac flag_words :=
  apply Z.bits_inj; intros ?; cbn [flags_of foldr fst snd bit_if andb orb negb];
  rewrite ?Z.lor_spec, ?Z.bits_0; btauto.

Lemma seq_flags st ts seq s r :
  r_flags (check_sequencing st ts seq s r).2 =
  Z.lor (r_flags r) (Z.lor
    (bit_if (negb (last_ts_get st (last_ts s) =? 0) && (ts <? last_ts_get st (last_ts s)))
       kTimestampRegression)
    (bit_if (seen s && (last_seq s +u 1 <? seq)) kSequenceGap)).
Proof.
  unfold check_sequencing. cbn [snd]. destruct (seen s && _); cbn [r_flags bit_if];
    rewrite flag_if_flags; [by rewrite Z.lor_assoc|]. by rewrite Z.lor_0_r.
Qed.

Lemma band_flags p s r :
  r_flags (check_price_band p s r).2 =
  Z.lor (r_flags r) (bit_if (ref_init (band s) && out_of_band p (ref_price (band s))) kPriceBandBreach).
Proof.
  unfold check_price_band. destruct (ref_init (band s)); cbn [negb andb]; [|cbn; by rewrite Z.lor_0_r].
  destruct (out_of_band p (ref_price (band s))); [|cbn; by rewrite Z.lor_0_r]. by destruct (_ <=? _).
Qed.

Definition valid_trade (t : WireTrade) : bool := fgt (wt_price t) fzero && negb (wt_size t =? 0).

(** The flags a trade gets, each with its condition on the record and the state
    of its symbol before it. *)
Definition trade_conditions (t : WireTrade) (s : Slot) : list (bool * Z) :=
  [(negb (fgt (wt_price t) fzero), kTradeNonPositivePrice);
   (wt_size t =? 0, kTradeNonPositiveSize);
   (negb (ts_trade (last_ts s) =? 0) && (wt_ts_ns t <? ts_trade (last_ts s)), kTimestampRegression);
   (seen s && (last_seq s +u 1 <? wt_seq t), kSequenceGap);
   (valid_trade t && (ref_init (band s) && out_of_band (wt_price t) (ref_price (band s))),
    kPriceBandBreach)].

Definition quote_conditions (q : WireQuote) (s : Slot) : list (bool * Z) :=
  [(fle (wq_bid_price q) fzero || fle (wq_ask_price q) fzero, kQuoteNonPositive);
   ((wq_bid_size q =? 0) || (wq_ask_size q =? 0), kQuoteZeroSize);
   (fgt (wq_bid_price q) (wq_ask_price q), kQuoteCrossed);
   (negb (fgt (wq_bid_price q) (wq_ask_price q)) && feq (wq_bid_price q) (wq_ask_price q),
    kQuoteLocked);
   (negb (ts_quote (last_ts s) =? 0) && (wq_ts_ns q <? ts_quote (last_ts s)), kTimestampRegression);
   (seen s && (last_seq s +u 1 <? wq_seq q), kSequenceGap);
   (ref_init (band s) && fgt (wq_bid_price q) fzero && fgt (wq_ask_price q) fzero &&
    out_of_band (fmul (fadd (wq_bid_price q) (wq_ask_price q)) (lit 1 2)) (ref_price (band s)),
    kPriceBandBreach)].

Lemma trade_flags_exact' t s :
  r_flags (check_slot (MTrade t) s).2 = flags_of (trade_conditions t s).
Proof.
  unfold trade_conditions, check_slot. cbn [msg_stateful msg_flags]. unfold trade_stateful.
  pose proof (seq_flags kTradeStream (wt_ts_ns t) (wt_seq t) s (trade_flags t)) as Hs.
  destruct (check_sequencing _ _ _ _ _) as [s1 r1] eqn:E.
  assert (Hb : band s1 = band s) by (unfold check_sequencing in E; by simplify_eq).
  cbn [snd last_ts_get] in Hs. unfold trade_flags in Hs. rewrite !flag_if_flags in Hs.
  fold (valid_trade t). destruct (valid_trade t); [rewrite band_flags; cbn [accumulate band with_acc]; rewrite Hb|cbn [snd]];
    rewrite Hs; cbn [bit_if andb result_init r_flags]; unfold kNone; flag_words.
Qed.

(** A trade is flagged with exactly the conditions that hold: a price that is
    not positive (NaN included), a zero size, a timestamp before the last trade of
    its symbol, a jump of its symbol's sequence, and, for a valid trade once a
    reference exists, a price out of the band around it. *)
Theorem trade_flags_exact t s :
  r_flags (check_slot (MTrade t) s).2 = flags_of (trade_conditions t s).
Proof. apply trade_flags_exact'. Qed.

Lemma quote_flags_exact' q s :
  r_flags (check_slot (MQuote q) s).2 = flags_of (quote_conditions q s) ∧
  band (check_slot (MQuote q) s).1 = band s ∧ acc (check_slot (MQuote q) s).1 = acc s.
Proof.
  unfold quote_conditions, check_slot. cbn [msg_stateful msg_flags]. unfold quote_stateful.
  pose proof (seq_flags kQuoteStream (wq_ts_ns q) (wq_seq q) s (quote_flags q)) as Hs.
  destruct (check_sequencing _ _ _ _ _) as [s1 r1] eqn:E.
  assert (Hb : band s1 = band s ∧ acc s1 = acc s) by (unfold check_sequencing in E; by simplify_eq).
  destruct Hb as [Hb Ha]. rewrite Hb. cbn [snd last_ts_get] in Hs. unfold quote_flags in Hs.
  destruct (fgt (wq_bid_price q) (wq_ask_price q)); rewrite !flag_if_flags in Hs.
  all: destruct (ref_init (band s) && fgt (wq_bid_price q) fzero && fgt (wq_ask_price q) fzero);
    (split; [cbn [snd]; rewrite ?flag_if_flags, Hs|done]);
    cbn [bit_if andb negb result_init r_flags]; unfold kNone; flag_words.
Qed.

(** A quote is flagged with exactly the conditions that hold, crossed and
    locked being exclusive, and it never touches the price reference or the trade
    accumulator of its symbol. *)
Theorem quote_flags_exact q s :
  r_flags (check_slot (MQuote q) s).2 = flags_of (quote_conditions q s) ∧
  band (check_slot (MQuote q) s).1 = band s ∧ acc (check_slot (MQuote q) s).1 = acc s.
Proof. apply quote_flags_exact'. Qed.

(** The conditions of [reconcile]: the accumulated trades against the bar. *)
Definition vwap_mismatch (a : Acc) (b : WireBar) : bool :=
  negb (acc_volume a =? 0) &&
  negb (approx_equal (fdiv (acc_pv a) (double_of_Z (acc_volume a))) (wb_vwap b)).
Definition ohlc_mismatch (a : Acc) (b : WireBar) : bool :=
  negb (approx_equal (acc_open a) (wb_open b)) || negb (approx_equal (acc_high a) (wb_high b)) ||
  negb (approx_equal (acc_low a) (wb_low b)) || negb (approx_equal (acc_close a) (wb_close b)).

Definition bar_conditions (b : WireBar) (s : Slot) : list (bool * Z) :=
  [(fgt (wb_low b) (wb_high b), kBarLowAboveHigh);
   (flt (wb_open b) (wb_low b) || fgt (wb_open b) (wb_high b), kBarOpenOutOfRange);
   (flt (wb_close b) (wb_low b) || fgt (wb_close b) (wb_high b), kBarCloseOutOfRange);
   (flt (wb_vwap b) (wb_low b) || fgt (wb_vwap b) (wb_high b), kBarVwapOutOfRange);
   (fle (wb_open b) fzero || fle (wb_high b) fzero || fle (wb_low b) fzero
    || fle (wb_close b) fzero, kBarNonPositivePrice);
   (xorb (wb_trade_count b =? 0) (wb_volume b =? 0), kBarVolumeInconsistent);
   (negb (ts_bar (last_ts s) =? 0) && (wb_start_ns b <? ts_bar (last_ts s)), kTimestampRegression);
   (seen s && (last_seq s +u 1 <? wb_seq b), kSequenceGap);
   (has_trades (acc s) && negb (acc_volume (acc s) =? wb_volume b), kBarVolumeReconstructMismatch);
   (has_trades (acc s) && negb (acc_count (acc s) =? wb_trade_count b),
    kBarTradeCountReconstructMismatch);
   (has_trades (acc s) && vwap_mismatch (acc s) b, kBarVwapReconstructMismatch);
   (has_trades (acc s) && ohlc_mismatch (acc s) b, kBarOhlcReconstructMismatch)].

Lemma reconcile_flags b s r :
  r_flags (reconcile b s r).2 = Z.lor (r_flags r) (flags_of
    [(has_trades (acc s) && negb (acc_volume (acc s) =? wb_volume b), kBarVolumeReconstructMismatch);
     (has_trades (acc s) && negb (acc_count (acc s) =? wb_trade_count b),
      kBarTradeCountReconstructMismatch);
     (has_trades (acc s) && vwap_mismatch (acc s) b, kBarVwapReconstructMismatch);
     (has_trades (acc s) && ohlc_mismatch (acc s) b, kBarOhlcReconstructMismatch)]).
Proof.
  unfold reconcile, vwap_mismatch, ohlc_mismatch. destruct (has_trades (acc s)); cbn [negb andb].
  2:{ cbn. by rewrite Z.lor_0_r. }
  destruct (acc_volume (acc s) =? 0); cbn [snd negb andb]; rewrite !flag_if_flags; flag_words.
Qed.

Lemma bar_flags_exact' b s :
  r_flags (check_slot (MBar b) s).2 = flags_of (bar_conditions b s) ∧
  has_trades (acc (check_slot (MBar b) s).1) = false ∧
  band (check_slot (MBar b) s).1 = band s.
Proof.
  unfold bar_conditions, check_slot. cbn [msg_stateful msg_flags]. unfold bar_stateful.
  pose proof (seq_flags kBarStream (wb_start_ns b) (wb_seq b) s (bar_flags b)) as Hs.
  destruct (check_sequencing _ _ _ _ _) as [s1 r1] eqn:E.
  assert (Hb : band s1 = band s ∧ acc s1 = acc s) by (unfold check_sequencing in E; by simplify_eq).
  destruct Hb as [Hb Ha]. cbn [snd last_ts_get] in Hs. unfold bar_flags in Hs.
  rewrite !flag_if_flags in Hs. split; [|split].
  - rewrite reconcile_flags, Hs, Ha. cbn [result_init r_flags]. unfold kNone. flag_words.
  - unfold reconcile. rewrite Ha. by destruct (has_trades (acc s)) eqn:Eh; cbn; rewrite ?Ha.
  - unfold reconcile. rewrite Ha. by destruct (has_trades (acc s)).
Qed.

(** A bar is flagged with exactly the conditions that hold: its own OHLC
    invariants, its timestamp and sequence, and the four comparisons with the
    trades accumulated since the last bar; those are skipped when there are none.
    Afterwards the accumulator is empty. *)
Theorem bar_flags_exact b s :
  r_flags (check_slot (MBar b) s).2 = flags_of (bar_conditions b s) ∧
  has_trades (acc (check_slot (MBar b) s).1) = false ∧
  band (check_slot (MBar b) s).1 = band s.
Proof. apply bar_flags_exact'. Qed.

Definition msg_ts (m : Msg) : Z :=
  match m with MTrade t => wt_ts_ns t | MBar b => wb_start_ns b | MQuote q => wq_ts_ns q end.
Definition msg_stream (m : Msg) : Stream :=
  match m with MTrade _ => kTradeStream | MBar _ => kBarStream | MQuote _ => kQuoteStream end.

(** The sequencing flags of a record, whatever its type. *)
Lemma check_slot_seq_flags m s :
  has (check_slot m s).2 kSequenceGap = seen s && (last_seq s +u 1 <? msg_seq m) ∧
  has (check_slot m s).2 kTimestampRegression =
    negb (last_ts_get (msg_stream m) (last_ts s) =? 0) &&
    (msg_ts m <? last_ts_get (msg_stream m) (last_ts s)).
Proof.
  unfold has. destruct m as [t|b|q]; cbn [msg_seq msg_ts msg_stream last_ts_get].
  - rewrite trade_flags_exact', !has_flags. unfold trade_conditions. flag_bits. split; btauto.
  - destruct (bar_flags_exact' b s) as [-> _]. rewrite !has_flags. unfold bar_conditions.
    flag_bits. split; btauto.
  - destruct (quote_flags_exact' q s) as [-> _]. rewrite !has_flags. unfold quote_conditions.
    flag_bits. split; btauto.
Qed.

Lemma check_slot_last_ts m s :
  last_ts (check_slot m s).1 = last_ts_set (msg_stream m) (msg_ts m) (last_ts s).
Proof.
  unfold check_slot. destruct m as [t|b|q]; cbn [msg_stateful msg_flags msg_stream msg_ts].
  - unfold trade_stateful, check_sequencing. case_match; [|done].
    unfold check_price_band. repeat case_match; done.
  - unfold bar_stateful, check_sequencing, reconcile. case_match; done.
  - unfold quote_stateful, check_sequencing. case_match; done.
Qed.

(** ** The price band *)

Lemma positive_sign p : fgt p fzero = true → has_sign false p.
Proof. by destruct p as [[]|[]| |[] ? ?]. Qed.

Lemma oob_self p : is_finite p = true → fgt p fzero = true → out_of_band p p = false.
Proof.
  intros Hf Hp. unfold out_of_band. rewrite fsub_diag by done.
  assert (Hs : has_sign false (fmul kPriceBandFrac p)).
  { apply fmul_nonneg; [by vm_compute|by apply positive_sign|by vm_compute|done]. }
  apply fle_zero_nonneg in Hs. unfold fgt. change (fabs fzero) with fzero.
  apply fle_iff in Hs as [Hs|Hs]; [by apply flt_asym|].
  rewrite <- (feq_flt_l _ _ _ Hs). apply flt_irrefl.
Qed.

(** What a valid trade does to the band, and whether it breaches it. *)
Definition breaches (p : double) (b : Band) : bool := ref_init b && out_of_band p (ref_price b).
Definition band_next (p : double) (b : Band) : Band :=
  if negb (ref_init b) then mkBand p true (breach_run b)
  else if out_of_band p (ref_price b) then
    if kBandReanchorRun <=? u32 (breach_run b + 1) then mkBand p true 0
    else mkBand (ref_price b) true (u32 (breach_run b + 1))
  else mkBand (fadd (fmul kRefEwmaAlpha p) (fmul (fsub fone kRefEwmaAlpha) (ref_price b))) true 0.

(** The run counter never reaches the re-anchoring threshold between records. *)
Definition band_ok (s : Slot) : Prop := 0 <= breach_run (band s) < kBandReanchorRun.

Lemma check_price_band_next p s r : band (check_price_band p s r).1 = band_next p (band s).
Proof.
  unfold check_price_band, band_next. destruct (ref_init (band s)) eqn:E; cbn [negb]; [|done].
  destruct (out_of_band _ _); [|done]. by destruct (_ <=? _).
Qed.

Lemma trade_band t s :
  band (check_slot (MTrade t) s).1 =
  if valid_trade t then band_next (wt_price t) (band s) else band s.
Proof.
  unfold check_slot. cbn [msg_stateful msg_flags]. unfold trade_stateful, check_sequencing.
  fold (valid_trade t). destruct (valid_trade t); [|done]. by rewrite check_price_band_next.
Qed.

Lemma band_next_ok p b :
  0 <= breach_run b < kBandReanchorRun → 0 <= breach_run (band_next p b) < kBandReanchorRun.
Proof.
  unfold band_next, kBandReanchorRun. intros H. destruct (negb (ref_init b)); [done|].
  destruct (out_of_band _ _); [|cbn; lia]. unfold u32. rewrite Z.mod_small by lia.
  destruct (Z.leb_spec 3 (breach_run b + 1)); cbn; lia.
Qed.

Lemma trade_flags_breach t s :
  valid_trade t = true →
  has (check_slot (MTrade t) s).2 kPriceBandBreach = breaches (wt_price t) (band s).
Proof.
  intros Hv. unfold has. rewrite trade_flags_exact', has_flags. unfold trade_conditions.
  rewrite Hv. cbn [andb]. fold (breaches (wt_price t) (band s)). flag_bits. btauto.
Qed.

(** Consecutive records of one symbol against its slot. *)
Fixpoint slot_run (ms : list Msg) (s : Slot) : list Result * Slot :=
  match ms with
  | [] => ([], s)
  | m :: ms' =>
      let '(s1, r) := check_slot m s in
      let '(rs, s2) := slot_run ms' s1 in
      (r :: rs, s2)
  end.

Lemma slot_run_cons m ms s :
  slot_run (m :: ms) s =
  ((check_slot m s).2 :: (slot_run ms (check_slot m s).1).1, (slot_run ms (check_slot m s).1).2).
Proof. cbn. destruct (check_slot m s) as [s1 r]. cbn. by destruct (slot_run ms s1). Qed.

Lemma slot_run_app ms1 ms2 s :
  (slot_run (ms1 ++ ms2) s).2 = (slot_run ms2 (slot_run ms1 s).2).2 ∧
  (slot_run (ms1 ++ ms2) s).1 = (slot_run ms1 s).1 ++ (slot_run ms2 (slot_run ms1 s).2).1.
Proof.
  revert s. induction ms1 as [|m ms1 IH]; intros s; [done|]. cbn [app].
  rewrite !slot_run_cons. cbn [fst snd]. destruct (IH (check_slot m s).1) as [-> ->]. done.
Qed.

(** A band that breaches [k] more times at [p] than it may without re-anchoring. *)
Lemma breach_reanchors p b :
  0 <= breach_run b < kBandReanchorRun → breaches p b = true →
  ref_init (band_next p b) = true ∧
  (ref_price (band_next p b) = p ∨ breach_run (band_next p b) = breach_run b + 1).
Proof.
  unfold breaches, band_next, kBandReanchorRun. intros Hb [-> ->]%andb_true_iff. cbn [negb].
  unfold u32. rewrite Z.mod_small by lia. destruct (_ <=? _); cbn; auto.
Qed.

Lemma anchored_quiet p b :
  is_finite p = true → fgt p fzero = true → ref_price b = p → breaches p b = false.
Proof. intros Hf Hp Hr. unfold breaches. rewrite Hr, oob_self by done. apply andb_false_r. Qed.

Lemma four_breaches p b :
  is_finite p = true → fgt p fzero = true → 0 <= breach_run b < kBandReanchorRun →
  breaches p b = false ∨ breaches p (band_next p b) = false ∨
  breaches p (band_next p (band_next p b)) = false ∨
  breaches p (band_next p (band_next p (band_next p b))) = false.
Proof.
  intros Hf Hp Hb.
  destruct (breaches p b) eqn:B0; [right|by left].
  destruct (breach_reanchors p b Hb B0) as [_ [H|R1]]; [left; by apply anchored_quiet|].
  pose proof (band_next_ok p b Hb) as Hb1.
  destruct (breaches p (band_next p b)) eqn:B1; [right|by left].
  destruct (breach_reanchors p _ Hb1 B1) as [_ [H|R2]]; [left; by apply anchored_quiet|].
  pose proof (band_next_ok p _ Hb1) as Hb2.
  destruct (breaches p (band_next p (band_next p b))) eqn:B2; [right|by left].
  destruct (breach_reanchors p _ Hb2 B2) as [_ [H|R3]]; [by apply anchored_quiet|].
  pose proof (band_next_ok p _ Hb2) as Hb3. unfold kBandReanchorRun in *. lia.
Qed.

(** The run counter stays in range over any records. *)
Lemma band_ok_run ms s : band_ok s → band_ok (slot_run ms s).2.
Proof.
  unfold band_ok. revert s. induction ms as [|m ms IH]; intros s Hs; [done|].
  rewrite slot_run_cons. cbn [snd]. apply IH. destruct m as [t|b|q].
  - rewrite trade_band. destruct (valid_trade t); [by apply band_next_ok|done].
  - assert (Hb : band (check_slot (MBar b) s).1 = band s); [|by rewrite Hb].
    unfold check_slot. cbn. unfold bar_stateful, check_sequencing, reconcile. by case_match.
  - assert (Hb : band (check_slot (MQuote q) s).1 = band s); [|by rewrite Hb].
    unfold check_slot. cbn. unfold quote_stateful, check_sequencing. by case_match.
Qed.

(** A sustained move recovers: after any history of a symbol, of four
    consecutive valid trades at one finite price at least one is not flagged, so
    no price level is flagged forever. *)
Theorem price_band_recovers k ms p ts :
  is_finite p = true → length ts = 4%nat →
  Forall (λ t, wt_price t = p ∧ valid_trade t = true) ts →
  let s := (slot_run ms (fresh_slot k)).2 in
  Exists (λ r, has r kPriceBandBreach = false) (slot_run (MTrade <$> ts) s).1.
Proof.
  intros Hf Hlen Hts s.
  assert (Hb : band_ok s) by (apply band_ok_run; by vm_compute).
  destruct ts as [|t1 [|t2 [|t3 [|t4 [|]]]]]; try done.
  rewrite !Forall_cons in Hts. destruct Hts as ([P1 V1]&[P2 V2]&[P3 V3]&[P4 V4]&_).
  assert (Hp : fgt p fzero = true).
  { unfold valid_trade in V1. rewrite P1 in V1. by apply andb_true_iff in V1 as [? _]. }
  rewrite !fmap_cons, !slot_run_cons. cbn [fst]. rewrite !Exists_cons.
  rewrite !trade_flags_breach by done. rewrite !trade_band, V1, V2, V3, P1, P2, P3, P4.
  destruct (four_breaches p (band s) Hf Hp Hb) as [?|[?|[?|?]]]; auto.
Qed.

(** One bad tick does not poison the reference: a breaching trade that does not
    complete a run of three leaves the reference where it was, so every later
    price is judged as if the bad tick had not happened. *)
Theorem price_band_ignores_outlier s t q :
  0 <= breach_run (band s) < kBandReanchorRun - 1 → valid_trade t = true →
  breaches (wt_price t) (band s) = true →
  ref_price (band (check_slot (MTrade t) s).1) = ref_price (band s) ∧
  breaches q (band (check_slot (MTrade t) s).1) = breaches q (band s).
Proof.
  intros Hrun Hv Hbr. rewrite trade_band, Hv. unfold breaches, band_next in *.
  apply andb_true_iff in Hbr as [Hi Ho]. rewrite Hi, Ho. cbn [negb].
  unfold kBandReanchorRun, u32 in *. rewrite Z.mod_small by lia.
  destruct (Z.leb_spec 3 (breach_run (band s) + 1)); [lia|]. done.
Qed.

(** ** Reconstruction *)

(** The valid trades of a list of records, as (price, size). *)
Definition trade_of (m : Msg) : option (double * Z) :=
  match m with
  | MTrade t => if valid_trade t then Some (wt_price t, wt_size t) else None
  | _ => None
  end.
Definition window (ms : list Msg) : list (double * Z) := omap trade_of ms.

Definition is_bar (m : Msg) : bool := match m with MBar _ => true | _ => false end.

(** The aggregate of a window, as the bar's definition has it. *)
Definition sum_size (w : list (double * Z)) : Z := foldr Z.add 0 (snd <$> w).
Definition sum_pv (w : list (double * Z)) : double :=
  foldl (λ pv ps, fadd pv (fmul ps.1 (double_of_Z ps.2))) fzero w.

Definition is_high (p : double) (w : list (double * Z)) : Prop :=
  p ∈ w.*1 ∧ ∀ q, q ∈ w.*1 → fgt q p = false.
Definition is_low (p : double) (w : list (double * Z)) : Prop :=
  p ∈ w.*1 ∧ ∀ q, q ∈ w.*1 → flt q p = false.

(** The accumulator holds the aggregate of the window. *)
Record acc_of (a : Acc) (w : list (double * Z)) : Prop := {
  ao_count : acc_count a = u64 (Z.of_nat (length w));
  ao_volume : acc_volume a = u64 (sum_size w);
  ao_pv : acc_pv a = sum_pv w;
  ao_empty : has_trades a = negb (bool_decide (w = []));
  ao_open : w ≠ [] → head w.*1 = Some (acc_open a);
  ao_close : w ≠ [] → last w.*1 = Some (acc_close a);
  ao_high : w ≠ [] → is_high (acc_high a) w;
  ao_low : w ≠ [] → is_low (acc_low a) w
}.

Definition acc_clear (a : Acc) : Prop :=
  has_trades a = false ∧ acc_count a = 0 ∧ acc_volume a = 0 ∧ acc_pv a = fzero.

Lemma acc_of_nil a : acc_clear a → acc_of a [].
Proof. intros (H1&H2&H3&H4). by split. Qed.

Lemma positive_not_nan p : fgt p fzero = true → is_nan p = false.
Proof. by destruct p. Qed.

Lemma high_snoc h w p z :
  is_high h w → is_high (if fgt p h then p else h) (w ++ [(p, z)]).
Proof.
  intros [Hin Hmax]. unfold is_high. rewrite fmap_app. cbn [fmap list_fmap fst].
  destruct (fgt p h) eqn:E; (split; [rewrite elem_of_app, ?list_elem_of_singleton; auto|]);
    intros q [Hq|Hq]%elem_of_app.
  - specialize (Hmax q Hq). change (flt h q = false) in Hmax. change (flt h p = true) in E.
    change (flt p q = false). destruct (flt p q) eqn:E'; [|done].
    by rewrite (flt_trans _ _ _ E E') in Hmax.
  - apply list_elem_of_singleton in Hq as ->. apply flt_irrefl.
  - auto.
  - by apply list_elem_of_singleton in Hq as ->.
Qed.

Lemma low_snoc h w p z :
  is_low h w → is_low (if flt p h then p else h) (w ++ [(p, z)]).
Proof.
  intros [Hin Hmin]. unfold is_low. rewrite fmap_app. cbn [fmap list_fmap fst].
  destruct (flt p h) eqn:E; (split; [rewrite elem_of_app, ?list_elem_of_singleton; auto|]);
    intros q [Hq|Hq]%elem_of_app.
  - specialize (Hmin q Hq). destruct (flt q p) eqn:E'; [|done].
    by rewrite (flt_trans _ _ _ E' E) in Hmin.
  - apply list_elem_of_singleton in Hq as ->. apply flt_irrefl.
  - auto.
  - by apply list_elem_of_singleton in Hq as ->.
Qed.

Lemma sum_size_snoc w p z : sum_size (w ++ [(p, z)]) = sum_size w + z.
Proof.
  unfold sum_size. rewrite fmap_app, foldr_app. cbn. generalize (snd <$> w). intros l.
  induction l as [|x l IH]; cbn; [lia|]. rewrite IH. lia.
Qed.

Lemma sum_pv_snoc w p z : sum_pv (w ++ [(p, z)]) = fadd (sum_pv w) (fmul p (double_of_Z z)).
Proof. unfold sum_pv. by rewrite foldl_app. Qed.

(** [accumulate] extends the window by one trade. *)
Lemma accumulate_snoc s w p z :
  acc_of (acc s) w → acc_of (acc (accumulate p z s)) (w ++ [(p, z)]).
Proof.
  intros [Hc Hv Hpv He Ho Hcl Hh Hl]. unfold accumulate. cbn [acc with_acc].
  assert (Hcount : acc_count (acc s) +u 1 = u64 (Z.of_nat (length (w ++ [(p, z)])))).
  { rewrite Hc, length_app. unfold u64_add, u64. rewrite Zplus_mod_idemp_l. cbn [length]. f_equal. lia. }
  assert (Hvol : acc_volume (acc s) +u z = u64 (sum_size (w ++ [(p, z)]))).
  { rewrite Hv, sum_size_snoc. unfold u64_add, u64. by rewrite Zplus_mod_idemp_l. }
  assert (Hne : w ++ [(p, z)] ≠ []) by (by destruct w).
  rewrite He in *. destruct (decide (w = [])) as [->|Hw].
  - rewrite bool_decide_eq_true_2 by done. cbn [negb app] in *.
    split; cbn; try done; try (intros _; split; [by left|]); try (by rewrite Hpv).
    all: intros q [->|Hq]%elem_of_cons; [apply flt_irrefl|by apply not_elem_of_nil in Hq].
  - rewrite bool_decide_eq_false_2 by done. cbn [negb].
    split; cbn [acc_count acc_volume acc_pv has_trades acc_open acc_close acc_high acc_low];
      try done.
    + rewrite sum_pv_snoc. by rewrite Hpv.
    + by rewrite bool_decide_eq_false_2.
    + intros _. rewrite fmap_app, head_app, Ho by done. done.
    + intros _. rewrite fmap_app. apply last_snoc.
    + intros _. by apply high_snoc, Hh.
    + intros _. by apply low_snoc, Hl.
Qed.

Lemma check_price_band_acc p s r : acc (check_price_band p s r).1 = acc s.
Proof. unfold check_price_band. repeat case_match; done. Qed.

Lemma accumulate_has p z s : has_trades (acc (accumulate p z s)) = true.
Proof. unfold accumulate. cbn [acc with_acc]. by destruct (negb (has_trades (acc s))). Qed.

(** Every record other than a bar extends the window by its valid trade. *)
Lemma check_slot_window m s w :
  is_bar m = false → acc_of (acc s) w →
  acc_of (acc (check_slot m s).1) (w ++ window [m]).
Proof.
  intros Hm Ha. unfold window. cbn [omap list_omap]. unfold check_slot.
  destruct m as [t|b|q]; cbn [msg_stateful msg_flags trade_of]; [|done|].
  - unfold trade_stateful, check_sequencing. fold (valid_trade t).
    destruct (valid_trade t); [|by rewrite app_nil_r].
    rewrite check_price_band_acc. by apply accumulate_snoc.
  - unfold quote_stateful, check_sequencing. rewrite app_nil_r. by case_match.
Qed.

Lemma slot_run_window ms s w :
  Forall (λ m, is_bar m = false) ms → acc_of (acc s) w →
  acc_of (acc (slot_run ms s).2) (w ++ window ms).
Proof.
  intros Hms. revert s w. induction Hms as [|m ms Hm Hms IH]; intros s w Ha.
  { by rewrite app_nil_r. }
  rewrite slot_run_cons. cbn [snd]. unfold window.
  change (m :: ms) with ([m] ++ ms). rewrite omap_app, app_assoc.
  by apply IH, check_slot_window.
Qed.

(** An accumulator without trades is clear, after any history. *)
Lemma acc_clear_run ms s :
  (has_trades (acc s) = false → acc_clear (acc s)) →
  has_trades (acc (slot_run ms s).2) = false → acc_clear (acc (slot_run ms s).2).
Proof.
  revert s. induction ms as [|m ms IH]; intros s Hs; [done|]. rewrite slot_run_cons. cbn [snd].
  apply IH. unfold check_slot. destruct m as [t|b|q]; cbn [msg_stateful msg_flags].
  - unfold trade_stateful, check_sequencing. fold (valid_trade t). destruct (valid_trade t); [|done].
    by rewrite check_price_band_acc, accumulate_has.
  - unfold bar_stateful, check_sequencing, reconcile. cbn [acc].
    destruct (has_trades (acc s)); cbn; [|by auto]. by intros _.
  - unfold quote_stateful, check_sequencing. case_match; done.
Qed.

(** ** Exactness of the comparison *)

Lemma approx_refl a : is_finite a = true → approx_equal a a = true.
Proof.
  intros Hf. unfold approx_equal. rewrite fsub_diag by done. change (fabs fzero) with fzero.
  apply fle_zero_nonneg. set (m := fmax (fmax (fabs a) (fabs a)) fone).
  assert (Hm : has_sign false m ∧ is_finite m = true).
  { assert (Ha : has_sign false (fabs a) ∧ is_finite (fabs a) = true) by (by destruct a).
    assert (Hmax : ∀ x y, (has_sign false x ∧ is_finite x = true) →
      (has_sign false y ∧ is_finite y = true) → has_sign false (fmax x y) ∧ is_finite (fmax x y) = true).
    { intros x y Hx Hy. unfold fmax. repeat case_match; done. }
    apply Hmax; [by apply Hmax|by vm_compute]. }
  destruct Hm. apply fmul_nonneg; [by vm_compute|done|by vm_compute|done].
Qed.

Lemma feq_positive_eq a b :
  fgt a fzero = true → fgt b fzero = true → feq a b = true → a = b.
Proof.
  destruct a as [[]|[]| |[] ma ea], b as [[]|[]| |[] mb eb]; try done.
  intros _ _. unfold feq, SFeqb, SFcompare.
  destruct (Z.compare_spec ea eb) as [->|?|?]; try done.
  change (Pos.compare_cont Eq ma mb) with (Pos.compare ma mb).
  destruct (Pos.compare_spec ma mb); [by subst|done|done].
Qed.

Lemma window_positive ms p : p ∈ (window ms).*1 → fgt p fzero = true.
Proof.
  intros Hp. apply list_elem_of_fmap in Hp as ([p' z]&->&Hin).
  apply list_elem_of_omap in Hin as (m&_&Hm). destruct m as [t| |]; try done.
  cbn in Hm. destruct (valid_trade t) eqn:E; [|done]. injection Hm as <- <-.
  unfold valid_trade in E. by apply andb_true_iff in E as [? _].
Qed.

Lemma extremum_eq ms p q :
  p ∈ (window ms).*1 → q ∈ (window ms).*1 → flt p q = false → flt q p = false → p = q.
Proof.
  intros Hp Hq H1 H2. pose proof (window_positive _ _ Hp). pose proof (window_positive _ _ Hq).
  apply feq_positive_eq; [done..|].
  destruct (flt_trichotomy p q) as [?|[?|?]]; [by apply positive_not_nan..|congruence|done|congruence].
Qed.

(** The bar that aggregates a window of trades. *)
Record bar_aggregates (b : WireBar) (w : list (double * Z)) : Prop := {
  ba_volume : wb_volume b = u64 (sum_size w);
  ba_count : wb_trade_count b = u64 (Z.of_nat (length w));
  ba_open : head w.*1 = Some (wb_open b);
  ba_close : last w.*1 = Some (wb_close b);
  ba_high : is_high (wb_high b) w;
  ba_low : is_low (wb_low b) w;
  ba_vwap : wb_vwap b = fdiv (sum_pv w) (double_of_Z (u64 (sum_size w)))
}.

Lemma acc_after_window k ms0 ms :
  Forall (λ m, is_bar m = false) ms →
  has_trades (acc (slot_run ms0 (fresh_slot k)).2) = false →
  acc_of (acc (slot_run (ms0 ++ ms) (fresh_slot k)).2) (window ms).
Proof.
  intros Hms Hno. destruct (slot_run_app ms0 ms (fresh_slot k)) as [-> _].
  apply (slot_run_window ms _ []); [done|]. apply acc_of_nil, acc_clear_run; done.
Qed.

Lemma acc_ohlc a b ms :
  acc_of a (window ms) → bar_aggregates b (window ms) →
  acc_open a = wb_open b ∧ acc_high a = wb_high b ∧ acc_low a = wb_low b ∧ acc_close a = wb_close b.
Proof.
  intros [_ _ _ _ Ho Hc Hh Hl] [_ _ Bo Bc Bh Bl _].
  assert (Hne : window ms ≠ []) by (intros E; rewrite E in Bo; done).
  specialize (Ho Hne). specialize (Hc Hne). destruct (Hh Hne) as [Hh1 Hh2], (Hl Hne) as [Hl1 Hl2].
  destruct Bh as [Bh1 Bh2], Bl as [Bl1 Bl2].
  split; [congruence|]. split; [|split; [|congruence]].
  - apply (extremum_eq ms); [done|done|by apply Hh2|by apply Bh2].
  - apply (extremum_eq ms); [done|done|by apply Bl2|by apply Hl2].
Qed.

Lemma bar_flags_reconstruct b s v :
  has (check_slot (MBar b) s).2 v =
  existsb (λ cv, cv.1 && negb (Z.land cv.2 v =? 0)) (bar_conditions b s).
Proof. unfold has. rewrite (proj1 (bar_flags_exact' b s)). apply has_flags. Qed.

(** C26: A bar that is the aggregate of the valid trades since the last bar is not
    flagged by reconstruction.  [ms0] is any history that leaves no open window,
    [ms] any mix of trades (invalid ones included) and quotes; the bar's open and
    close are the first and last valid price, its high and low the extremes, its
    volume and count the sums, its vwap the quotient. *)
Theorem bar_clean_window_passes k ms0 ms b :
  has_trades (acc (slot_run ms0 (fresh_slot k)).2) = false →
  Forall (λ m, is_bar m = false) ms → bar_aggregates b (window ms) →
  Forall (λ p, is_finite p = true) (window ms).*1 → is_finite (wb_vwap b) = true →
  let r := (check_slot (MBar b) (slot_run (ms0 ++ ms) (fresh_slot k)).2).2 in
  has r kBarVolumeReconstructMismatch = false ∧ has r kBarTradeCountReconstructMismatch = false ∧
  has r kBarVwapReconstructMismatch = false ∧ has r kBarOhlcReconstructMismatch = false.
Proof.
  intros Hno Hms Hb Hfin Hvf r. pose proof (acc_after_window k ms0 ms Hms Hno) as Ha.
  destruct (acc_ohlc _ _ _ Ha Hb) as (Eo&Eh&El&Ec). unfold r. rewrite !bar_flags_reconstruct.
  unfold bar_conditions. flag_bits.
  assert (Hp : ∀ p, p ∈ (window ms).*1 → approx_equal p p = true).
  { intros p Hp. apply approx_refl. rewrite Forall_forall in Hfin. auto. }
  assert (Hv : vwap_mismatch (acc (slot_run (ms0 ++ ms) (fresh_slot k)).2) b = false).
  { unfold vwap_mismatch. rewrite (ao_pv _ _ Ha), (ao_volume _ _ Ha), <- (ba_vwap _ _ Hb).
    rewrite approx_refl by done. apply andb_false_r. }
  assert (Ho : ohlc_mismatch (acc (slot_run (ms0 ++ ms) (fresh_slot k)).2) b = false).
  { unfold ohlc_mismatch. rewrite Eo, Eh, El, Ec. destruct Hb as [_ _ Bo Bc [Bh _] [Bl _] _].
    rewrite !Hp; [done|by apply last_Some_elem_of|done|done|by apply head_Some_elem_of]. }
  rewrite Hv, Ho, (ao_volume _ _ Ha), (ao_count _ _ Ha), (ba_volume _ _ Hb), (ba_count _ _ Hb), !Z.eqb_refl.
  cbn [negb]. rewrite !andb_false_r. done.
Qed.

(** Volume and trade count are reconstructed exactly: after a non-empty window
    of valid trades, the bar is flagged if and only if its volume differs from the
    sum of the sizes (as 64-bit integers), and if and only if its trade count
    differs from the number of trades. *)
Theorem bar_volume_count_exact k ms0 ms b :
  has_trades (acc (slot_run ms0 (fresh_slot k)).2) = false →
  Forall (λ m, is_bar m = false) ms → window ms ≠ [] →
  let r := (check_slot (MBar b) (slot_run (ms0 ++ ms) (fresh_slot k)).2).2 in
  has r kBarVolumeReconstructMismatch = negb (u64 (sum_size (window ms)) =? wb_volume b) ∧
  has r kBarTradeCountReconstructMismatch =
    negb (u64 (Z.of_nat (length (window ms))) =? wb_trade_count b).
Proof.
  intros Hno Hms Hw r. pose proof (acc_after_window k ms0 ms Hms Hno) as Ha.
  unfold r. rewrite !bar_flags_reconstruct.
  unfold bar_conditions. flag_bits.
  rewrite (ao_empty _ _ Ha), (ao_volume _ _ Ha), (ao_count _ _ Ha), bool_decide_eq_false_2 by done.
  cbn [negb]. split; btauto.
Qed.

(** ** Witnesses *)

Definition tick (price size : Z) : WireTrade :=
  mkWireTrade (le_bytes 8 1) 10 1 0 (double_of_Z price) size (byte_of_Z 86) (byte_of_Z 65) [].

(** A halt resume: the price doubles and stays there. *)
Lemma price_band_recovers_witness :
  let s := (slot_run [MTrade (tick 100 1); MTrade (tick 101 1)] (fresh_slot 1)).2 in
  Exists (λ r, has r kPriceBandBreach = false)
    (slot_run (MTrade <$> [tick 200 1; tick 200 1; tick 200 1; tick 200 1]) s).1.
Proof.
  apply (price_band_recovers 1 [MTrade (tick 100 1); MTrade (tick 101 1)] (double_of_Z 200)
           [tick 200 1; tick 200 1; tick 200 1; tick 200 1]); [reflexivity|reflexivity|].
  repeat constructor.
Defined.

Lemma price_band_ignores_outlier_witness :
  let s := (slot_run [MTrade (tick 100 1)] (fresh_slot 1)).2 in
  ref_price (band (check_slot (MTrade (tick 200 1)) s).1) = ref_price (band s) ∧
  breaches (double_of_Z 101) (band (check_slot (MTrade (tick 200 1)) s).1) =
    breaches (double_of_Z 101) (band s).
Proof.
  apply (price_band_ignores_outlier (slot_run [MTrade (tick 100 1)] (fresh_slot 1)).2
           (tick 200 1) (double_of_Z 101)); [vm_compute; split; congruence|reflexivity|reflexivity].
Defined.

(** Three trades, one of them invalid, and their bar. *)
Definition demo_window : list Msg :=
  [MTrade (tick 100 2); MTrade (tick 0 5); MTrade (tick 104 2)].
Definition demo_bar : WireBar :=
  mkWireBar (le_bytes 8 1) 10 2 (double_of_Z 100) (double_of_Z 104) (double_of_Z 100)
    (double_of_Z 104) (double_of_Z 102) 4 2.

Lemma demo_bar_aggregates : bar_aggregates demo_bar (window demo_window).
Proof.
  assert (Hw : (window demo_window).*1 = [double_of_Z 100; double_of_Z 104]) by reflexivity.
  split; try reflexivity; unfold is_high, is_low; rewrite Hw;
    (split; [by rewrite !elem_of_cons; auto|]);
    intros q [->|[->|Hq%not_elem_of_nil]%elem_of_cons]%elem_of_cons; try reflexivity; done.
Qed.

Lemma bar_clean_window_passes_witness :
  let r := (check_slot (MBar demo_bar) (slot_run ([] ++ demo_window) (fresh_slot 1)).2).2 in
  has r kBarVolumeReconstructMismatch = false ∧ has r kBarTradeCountReconstructMismatch = false ∧
  has r kBarVwapReconstructMismatch = false ∧ has r kBarOhlcReconstructMismatch = false.
Proof.
  apply (bar_clean_window_passes 1 [] demo_window demo_bar);
    [reflexivity|repeat constructor|apply demo_bar_aggregates|repeat constructor|reflexivity].
Defined.

Lemma bar_volume_count_exact_witness :
  let r := (check_slot (MBar demo_bar) (slot_run ([] ++ demo_window) (fresh_slot 1)).2).2 in
  has r kBarVolumeReconstructMismatch = negb (u64 (sum_size (window demo_window)) =? wb_volume demo_bar) ∧
  has r kBarTradeCountReconstructMismatch =
    negb (u64 (Z.of_nat (length (window demo_window))) =? wb_trade_count demo_bar).
Proof.
  apply (bar_volume_count_exact 1 [] demo_window demo_bar);
    [reflexivity|repeat constructor|vm_compute; discriminate].
Defined.
