(* ===== verification/PriceTolerance.v ===== *)
(** * The price comparisons of the validator, against exact arithmetic

    [approx_equal] and the price band compare rounded numbers with a rounded threshold.
    Both decide the intended real inequality, but for a relative margin of about
    [2^-49] around the threshold. *)

From stdpp Require Import base numbers list.
From Stdlib Require Import ZArith Lia.
From S2P Require Import Prelude Float64 Wire Validator FloatRound.

Local Open Scope Z_scope.

(** ** Constants *)

Lemma number_fone : number fone.
Proof. by vm_compute. Qed.

Lemma fz_fone : fz fone = unit.
Proof. by vm_compute. Qed.

Lemma number_rel_tol : number kPriceRelTol.
Proof. by vm_compute. Qed.

(** The literal [1e-6] is within a part in [2^52] of its decimal value. *)
Lemma rel_tol_value : (2 ^ 52 - 1) * unit <= fz kPriceRelTol * 10 ^ 6 * 2 ^ 52 <= (2 ^ 52 + 1) * unit.
Proof. vm_compute. split; discriminate. Qed.

Lemma number_band_frac : number kPriceBandFrac.
Proof. by vm_compute. Qed.

Lemma band_frac_value : (2 ^ 52 - 1) * unit <= fz kPriceBandFrac * 20 * 2 ^ 52 <= (2 ^ 52 + 1) * unit.
Proof. vm_compute. split; discriminate. Qed.

Lemma top_quarters : 4 * (top / 4) = top.
Proof. by vm_compute. Qed.

Lemma unit_large : 2 ^ 100 <= unit ∧ 2 ^ 1000 * unit < top.
Proof. vm_compute. split; [discriminate|done]. Qed.

(** [std::fmax] of two numbers is their maximum. *)
Lemma fmax_number a b : number a → number b → number (fmax a b) ∧ fz (fmax a b) = Z.max (fz a) (fz b).
Proof.
  intros Ha Hb. unfold fmax. rewrite (is_finite_not_nan a), (is_finite_not_nan b) by (apply Ha || apply Hb).
  rewrite flt_fz by done. destruct (Z.ltb_spec (fz a) (fz b)); split; (done || lia).
Qed.

(** ** A rounded distance against a rounded threshold *)

(** [|a - b|] against [T * M], where [T] is [1 / k] up to rounding. *)
Lemma threshold_decides k T a b s :
  number a → number b → Z.abs (fz a) <= top / 4 → Z.abs (fz b) <= top / 4 →
  number T → 0 < k <= 2 ^ 40 → (2 ^ 52 - 1) * unit <= fz T * k * 2 ^ 52 <= (2 ^ 52 + 1) * unit →
  number s → 2 ^ 100 <= fz s <= top / 4 →
  let D := Z.abs (fz a - fz b) in
  number (fabs (fsub a b)) ∧ number (fmul T s) ∧
  (fz (fabs (fsub a b)) <= fz (fmul T s) → D * k * (2 ^ 50 - 1) <= fz s * (2 ^ 50 + 1)) ∧
  (fz (fmul T s) <= fz (fabs (fsub a b)) → fz s * (2 ^ 50 - 1) <= D * k * (2 ^ 50 + 1)).
Proof.
  intros Ha Hb Ba Bb HT Hk HTv Hs Bs D. destruct unit_large as [Hu1 Hu2]. pose proof unit_pos as Hu.
  pose proof top_quarters as Ht. set (B := top / 4) in *. clearbody B.
  destruct (rounds_near_unit (fz a - fz b) _ ltac:(lia) (fsub_rounds a b Ha Hb)) as [N1 E1].
  assert (HT0 : unit <= fz T * 2 ^ 41) by nia.
  assert (HT1 : fz T <= 2 * unit) by nia.
  assert (HP : 2 ^ 52 * unit <= fz T * fz s < top * unit).
  { split; [nia|]. apply Z.le_lt_trans with (2 * unit * fz s); nia. }
  destruct (rounds_near (fz T * fz s) unit _ Hu ltac:(lia) (fmul_rounds T s HT Hs)) as [N2 E2].
  split; [by apply number_fabs|]. split; [done|]. rewrite fz_fabs.
  set (d := fz (fsub a b)) in *. set (t := fz (fmul T s)) in *. rewrite Z.mul_1_r in E1.
  assert (Hd : Z.abs (Z.abs d - D) * 2 ^ 52 <= D) by lia. clear E1 Ba Bb N1 N2.
  assert (HPk : (2 ^ 52 - 1) * unit * fz s <= fz T * fz s * k * 2 ^ 52 <= (2 ^ 52 + 1) * unit * fz s) by nia.
  assert (0 <= D) by lia. clearbody D d t. clear HTv HT0 HT1 Hu1 Hu2 Bs Ha Hb HT Hs.
  generalize dependent (fz T * fz s). generalize dependent (fz s). intros M P HP E2 HPk. clear T s a b.
  assert (HPos : 0 <= P) by lia. rewrite (Z.abs_eq P) in E2 by done. clear HP.
  assert (Ek : P * k * (2 ^ 52 - 1) <= t * unit * k * 2 ^ 52 <= P * k * (2 ^ 52 + 1)) by nia.
  split; intros Hle; apply (Z.mul_le_mono_pos_l _ _ unit Hu).
  - assert (Hx : D * (2 ^ 52 - 1) <= t * 2 ^ 52) by lia.
    assert (Hy : D * (2 ^ 52 - 1) * (unit * k) <= t * 2 ^ 52 * (unit * k)) by (apply Z.mul_le_mono_nonneg_r; lia).
    assert (0 <= D * unit * k) by (apply Z.mul_nonneg_nonneg; lia).
    assert (0 <= unit * M) by lia. lia.
  - assert (Hx : t * 2 ^ 52 <= D * (2 ^ 52 + 1)) by lia.
    assert (Hy : t * 2 ^ 52 * (unit * k) <= D * (2 ^ 52 + 1) * (unit * k)) by (apply Z.mul_le_mono_nonneg_r; lia).
    assert (0 <= D * unit * k) by (apply Z.mul_nonneg_nonneg; lia).
    assert (0 <= unit * M) by lia. lia.
Qed.

(** ** The two checks *)

(** The scale of [approx_equal]. *)
Lemma approx_scale a b :
  number a → number b →
  number (fmax (fmax (fabs a) (fabs b)) fone) ∧
  fz (fmax (fmax (fabs a) (fabs b)) fone) = Z.max (Z.max (Z.abs (fz a)) (Z.abs (fz b))) unit.
Proof.
  intros Ha Hb. destruct (fmax_number (fabs a) (fabs b)) as [N1 E1]; [by apply number_fabs..|].
  destruct (fmax_number (fmax (fabs a) (fabs b)) fone N1 number_fone) as [N2 E2].
  split; [done|]. by rewrite E2, E1, !fz_fabs, fz_fone.
Qed.

Lemma approx_equal_decides a b :
  number a → number b → Z.abs (fz a) <= top / 4 → Z.abs (fz b) <= top / 4 →
  let D := Z.abs (fz a - fz b) in
  let M := Z.max (Z.max (Z.abs (fz a)) (Z.abs (fz b))) unit in
  (approx_equal a b = true → D * 10 ^ 6 * (2 ^ 50 - 1) <= M * (2 ^ 50 + 1)) ∧
  (approx_equal a b = false → M * (2 ^ 50 - 1) <= D * 10 ^ 6 * (2 ^ 50 + 1)).
Proof.
  intros Ha Hb Ba Bb D M. destruct (approx_scale a b Ha Hb) as [Ns Es]. fold M in Es.
  assert (HM : 2 ^ 100 <= M <= top / 4).
  { destruct unit_large. pose proof top_quarters. generalize dependent (top / 4). unfold M. intros. lia. }
  unfold approx_equal. set (s := fmax _ _) in *. rewrite <- Es in *. clearbody M s.
  destruct (threshold_decides (10 ^ 6) kPriceRelTol a b s Ha Hb Ba Bb number_rel_tol ltac:(lia) rel_tol_value Ns HM)
    as (N1&N2&H1&H2). fold D in H1, H2.
  rewrite fle_fz by done. destruct (Z.leb_spec (fz (fabs (fsub a b))) (fz (fmul kPriceRelTol s))); split; intros ?;
    try done; [by apply H1|apply H2; lia].
Qed.

Lemma out_of_band_decides price ref :
  number price → number ref → Z.abs (fz price) <= top / 4 → 2 ^ 100 <= fz ref <= top / 4 →
  let D := Z.abs (fz price - fz ref) in
  (out_of_band price ref = true → fz ref * (2 ^ 50 - 1) <= D * 20 * (2 ^ 50 + 1)) ∧
  (out_of_band price ref = false → D * 20 * (2 ^ 50 - 1) <= fz ref * (2 ^ 50 + 1)).
Proof.
  intros Hp Hr Bp Br D.
  destruct (threshold_decides 20 kPriceBandFrac price ref ref Hp Hr Bp ltac:(lia) number_band_frac ltac:(lia)
    band_frac_value Hr Br) as (N1&N2&H1&H2).
  unfold out_of_band, fgt. fold (flt (fmul kPriceBandFrac ref) (fabs (fsub price ref))). rewrite flt_fz by done.
  destruct (Z.ltb_spec (fz (fmul kPriceBandFrac ref)) (fz (fabs (fsub price ref)))); split; intros ?;
    try done; [apply H2; lia|by apply H1].
Qed.

(** C37: The tolerance test of the validator is the one its comment asks for: on finite
    prices it answers yes only if the two differ by at most a millionth of the larger of
    them and one, and no only if they differ by at least that, but for a relative margin
    of [2^-49] that the roundings of the difference, of the literal and of the product
    may use up.  (Values are counted in units of [2^-1074], the spacing of the format; the
    bound of [2^1020] keeps the difference from overflowing.) *)
Theorem approx_equal_tolerance a b :
  number a → number b → Z.abs (fz a) <= top / 4 → Z.abs (fz b) <= top / 4 →
  let D := Z.abs (fz a - fz b) in
  let M := Z.max (Z.max (Z.abs (fz a)) (Z.abs (fz b))) unit in
  (approx_equal a b = true → D * 10 ^ 6 * (2 ^ 50 - 1) <= M * (2 ^ 50 + 1)) ∧
  (approx_equal a b = false → M * (2 ^ 50 - 1) <= D * 10 ^ 6 * (2 ^ 50 + 1)).
Proof. apply approx_equal_decides. Qed.

(** One cent on a price of 100 is seen, a hundredth of that is not. *)
Lemma approx_equal_tolerance_witness :
  approx_equal (lit 100 1) (lit 10001 100) = false ∧ approx_equal (lit 100 1) (lit 1000001 10000) = true ∧
  Z.max (Z.max (Z.abs (fz (lit 100 1))) (Z.abs (fz (lit 10001 100)))) unit * (2 ^ 50 - 1) <=
    Z.abs (fz (lit 100 1) - fz (lit 10001 100)) * 10 ^ 6 * (2 ^ 50 + 1).
Proof.
  destruct (approx_equal_tolerance (lit 100 1) (lit 10001 100)) as [_ H];
    [by vm_compute|by vm_compute|by apply Z.leb_le; vm_compute|by apply Z.leb_le; vm_compute|].
  split; [by vm_compute|]. split; [by vm_compute|]. apply H. by vm_compute.
Defined.

(** The price band is the five percent it claims: with a positive finite reference a
    price is reported only if it is at least a twentieth of the reference away, and
    accepted only if it is at most that, with the same relative margin. *)
Theorem out_of_band_tolerance price ref :
  number price → number ref → Z.abs (fz price) <= top / 4 → 2 ^ 100 <= fz ref <= top / 4 →
  let D := Z.abs (fz price - fz ref) in
  (out_of_band price ref = true → fz ref * (2 ^ 50 - 1) <= D * 20 * (2 ^ 50 + 1)) ∧
  (out_of_band price ref = false → D * 20 * (2 ^ 50 - 1) <= fz ref * (2 ^ 50 + 1)).
Proof. apply out_of_band_decides. Qed.

Lemma out_of_band_tolerance_witness :
  out_of_band (lit 106 1) (lit 100 1) = true ∧
  fz (lit 100 1) * (2 ^ 50 - 1) <= Z.abs (fz (lit 106 1) - fz (lit 100 1)) * 20 * (2 ^ 50 + 1).
Proof.
  destruct (out_of_band_tolerance (lit 106 1) (lit 100 1)) as [H _];
    [by vm_compute|by vm_compute|by apply Z.leb_le; vm_compute|by split; apply Z.leb_le; vm_compute|].
  split; [by vm_compute|]. apply H. by vm_compute.
Defined.

(** ** Prices far apart, or equal *)

(** Prices that differ by more than a part in [2^18] of the larger are told apart. *)
Lemma approx_apart a b :
  number a → number b → 0 <= fz a → unit <= fz b <= top / 4 → fz b <= (fz b - fz a) * 2 ^ 18 →
  approx_equal a b = false.
Proof.
  intros Ha Hb Pa Bb Hd. apply not_true_is_false. intros Ht. pose proof unit_pos.
  destruct (approx_equal_decides a b Ha Hb) as [H1 _]; [lia|lia|]. specialize (H1 Ht). cbn zeta in H1. lia.
Qed.

(** A price clearly within the band, and one clearly out of it. *)
Lemma in_band p r :
  number p → number r → fz p <= top / 4 → 0 <= fz p → 2 ^ 100 <= fz r <= top / 4 →
  41 * Z.abs (fz p - fz r) <= 2 * fz r → out_of_band p r = false.
Proof.
  intros Np Nr Bp Pp Br Hd. apply not_true_is_false. intros Ht.
  destruct (out_of_band_decides p r Np Nr ltac:(lia) Br) as [H1 _]. specialize (H1 Ht). cbn zeta in H1. lia.
Qed.

Lemma out_band p r :
  number p → number r → fz p <= top / 4 → 0 <= fz p → 2 ^ 100 <= fz r <= top / 4 →
  2 * fz r <= 39 * Z.abs (fz p - fz r) → out_of_band p r = true.
Proof.
  intros Np Nr Bp Pp Br Hd. apply not_false_is_true. intros Ht.
  destruct (out_of_band_decides p r Np Nr ltac:(lia) Br) as [_ H1]. specialize (H1 Ht). cbn zeta in H1. lia.
Qed.

(** ** The range of the vwap

    The other price comparisons of a bar have no tolerance.  A single trade of three shares
    at 1.40 averages to the number below 1.40, so a bar that aggregates exactly that trade
    is reported as out of range, although its vwap agrees within the tolerance. *)

Definition single_trade_bar (p : double) (size : Z) : WireBar :=
  mkWireBar [] 0 0 p p p p (fdiv (fmul p (double_of_Z size)) (double_of_Z size)) size 1.

Lemma single_trade_vwap_out_of_range :
  let b := single_trade_bar (lit 140 100) 3 in
  has (bar_flags b) kBarVwapOutOfRange = true ∧ approx_equal (wb_low b) (wb_vwap b) = true.
Proof. by vm_compute. Qed.
