(* ===== verification/PriceBand.v ===== *)
(** * The price band: its reference follows a market that moves by small steps

    The reference of a symbol is a moving average of its valid trades.  While every trade
    and every quote mid is within a fixed step of the trade before it, and the step is
    small against the price, the rounded average stays within five steps of the market,
    which is inside the band: nothing is reported. *)

From stdpp Require Import base numbers list gmap.
From Stdlib Require Import ZArith Lia.
From S2P Require Import Prelude Float64 Wire Validator ValidatorTable ValidatorProps ValidatorChecks.
From S2P Require Import FloatRound PriceTolerance.

Local Open Scope Z_scope.

(** ** The moving average *)

Definition ewma (p r : double) : double := fadd (fmul kRefEwmaAlpha p) (fmul (fsub fone kRefEwmaAlpha) r).

Lemma alpha_value :
  number kRefEwmaAlpha ∧ number (fsub fone kRefEwmaAlpha) ∧
  Z.abs (5 * fz kRefEwmaAlpha - unit) * 2 ^ 52 <= unit ∧
  Z.abs (5 * fz (fsub fone kRefEwmaAlpha) - 4 * unit) * 2 ^ 52 <= 4 * unit.
Proof.
  split; [by vm_compute|]. split; [by vm_compute|]. split; apply Z.leb_le; by vm_compute.
Qed.

Lemma top_unit : 2 ^ 1000 * unit <= top / 16 ∧ 16 * (top / 16) = top.
Proof. split; [apply Z.leb_le|]; by vm_compute. Qed.

(** A rounded product with a constant that is [c / 5] up to rounding. *)
Lemma scaled_value a c p :
  number a → 1 <= c <= 4 → Z.abs (5 * fz a - c * unit) * 2 ^ 52 <= c * unit →
  number p → 2 ^ 100 <= fz p <= top / 16 →
  number (fmul a p) ∧ Z.abs (5 * fz (fmul a p) - c * fz p) * 2 ^ 50 <= c * fz p.
Proof.
  intros Na Hc Ha Np Bp. pose proof unit_pos as Hu. destruct top_unit as [_ Ht].
  assert (Hcu : unit <= c * unit <= 4 * unit) by nia.
  assert (Hlo : c * unit <= 6 * fz a) by lia. assert (Hhi : fz a <= unit) by lia.
  assert (Hprod : Z.abs (5 * (fz a * fz p) - c * unit * fz p) * 2 ^ 52 <= c * unit * fz p).
  { replace (5 * (fz a * fz p) - c * unit * fz p) with ((5 * fz a - c * unit) * fz p) by lia.
    rewrite Z.abs_mul, (Z.abs_eq (fz p)) by lia. nia. }
  destruct (rounds_near (fz a * fz p) unit (fmul a p) Hu) as [Nm Em].
  { rewrite Z.abs_eq by nia. split; [nia|]. apply Z.le_lt_trans with (unit * fz p); nia. }
  { by apply fmul_rounds. }
  split; [done|]. apply (Z.mul_le_mono_pos_r _ _ unit Hu).
  rewrite (Z.abs_eq (fz a * fz p)) in Em by nia.
  replace (Z.abs (5 * fz (fmul a p) - c * fz p) * 2 ^ 50 * unit)
    with (Z.abs ((5 * fz (fmul a p) - c * fz p) * unit) * 2 ^ 50) by (rewrite Z.abs_mul, (Z.abs_eq unit) by lia; lia).
  assert (0 <= c * unit * fz p) by (apply Z.mul_nonneg_nonneg; lia).
  generalize dependent (fz a * fz p). intros. lia.
Qed.

Lemma ewma_value p r :
  number p → number r → 2 ^ 100 <= fz p <= top / 16 → 2 ^ 100 <= fz r <= top / 16 →
  number (ewma p r) ∧ Z.abs (5 * fz (ewma p r) - (fz p + 4 * fz r)) * 2 ^ 48 <= fz p + 4 * fz r.
Proof.
  intros Np Nr Bp Br. destruct alpha_value as (Na&Nb&Ea&Eb). destruct top_unit as [_ Ht].
  destruct (scaled_value kRefEwmaAlpha 1 p) as [N1 E1]; [done|lia|lia|done|done|].
  destruct (scaled_value (fsub fone kRefEwmaAlpha) 4 r) as [N2 E2]; [done|lia|lia|done|done|].
  set (x := fmul kRefEwmaAlpha p) in *. set (y := fmul (fsub fone kRefEwmaAlpha) r) in *.
  destruct (rounds_near_unit (fz x + fz y) (fadd x y)) as [N3 E3]; [lia|by apply fadd_rounds|].
  unfold ewma. fold x y. split; [done|]. rewrite Z.mul_1_r in E3. lia.
Qed.

(** ** What the band reports, and what it keeps *)

Definition quote_mid (q : WireQuote) : double := fmul (fadd (wq_bid_price q) (wq_ask_price q)) (lit 1 2).
Definition two_sided (q : WireQuote) : bool := fgt (wq_bid_price q) fzero && fgt (wq_ask_price q) fzero.

Lemma band_flag m s :
  has (check_slot m s).2 kPriceBandBreach =
    match m with
    | MTrade t => valid_trade t && breaches (wt_price t) (band s)
    | MQuote q => two_sided q && breaches (quote_mid q) (band s)
    | MBar _ => false
    end.
Proof.
  unfold has, breaches. destruct m as [t|b|q].
  - rewrite trade_flags_exact', has_flags. unfold trade_conditions. flag_bits.
    destruct (valid_trade t), (ref_init (band s)), (out_of_band _ _); cbn [andb orb]; rewrite ?andb_false_r; done.
  - destruct (bar_flags_exact' b s) as [-> _]. rewrite has_flags. unfold bar_conditions. flag_bits.
    rewrite !andb_false_r. done.
  - destruct (quote_flags_exact' q s) as [-> _]. rewrite has_flags. unfold quote_conditions. flag_bits.
    fold (quote_mid q). unfold two_sided.
    destruct (ref_init (band s)), (fgt (wq_bid_price q) fzero), (fgt (wq_ask_price q) fzero), (out_of_band _ _);
      cbn [andb orb]; rewrite ?andb_false_r; done.
Qed.

Lemma band_after m s :
  band (check_slot m s).1 =
    match m with
    | MTrade t => if valid_trade t then band_next (wt_price t) (band s) else band s
    | _ => band s
    end.
Proof.
  destruct m as [t|b|q]; [apply trade_band|by destruct (bar_flags_exact' b s) as (_&_&?)|].
  by destruct (quote_flags_exact' q s) as (_&?&_).
Qed.

Section Follow.
Context (step : Z).
Hypothesis Hstep : 2 ^ 100 <= step ∧ 2 ^ 39 * step <= top / 16.

(** A price large against the step, but not so large that rounding could be seen. *)
Definition market (floor : Z) (p : double) : Prop := number p ∧ floor * step <= fz p <= 2 ^ 38 * step.

(** The average comes a fifth closer, up to a fiftieth of a step. *)
Lemma ewma_lag p r :
  number p → number r → step <= fz p <= 2 ^ 39 * step → step <= fz r <= 2 ^ 39 * step →
  number (ewma p r) ∧ 250 * Z.abs (fz p - fz (ewma p r)) <= 200 * Z.abs (fz p - fz r) + step.
Proof using Hstep.
  intros Np Nr Bp Br. destruct (ewma_value p r) as [Nz Ez]; [done|done|lia|lia|]. split; [done|]. lia.
Qed.

(** The band has a reference within [tenths] of a step of [p]. *)
Definition follows (tenths : Z) (p : double) (b : Band) : Prop :=
  ref_init b = true ∧ number (ref_price b) ∧ 10 * Z.abs (fz p - fz (ref_price b)) <= tenths * step.

Lemma follows_ref floor tenths p b :
  market floor p → 0 <= tenths → 2 <= floor → 43 * tenths <= 20 * floor → floor <= 2 ^ 20 → follows tenths p b →
  step <= fz (ref_price b) <= 2 ^ 39 * step ∧ 41 * Z.abs (fz p - fz (ref_price b)) <= 2 * fz (ref_price b).
Proof using Hstep.
  intros [Np Bp] Ht Hf Hft Hfl (Hi&Nr&Hd).
  assert (Hs : 43 * (tenths * step) <= 20 * (floor * step)) by nia.
  assert (Hs2 : 2 * step <= floor * step) by nia.
  generalize dependent (tenths * step). generalize dependent (floor * step). intros. lia.
Qed.

(** Close to the reference nothing is reported, and the average follows. *)
Lemma follows_quiet floor tenths p b :
  market floor p → 0 <= tenths → 2 <= floor → 43 * tenths <= 20 * floor → floor <= 2 ^ 20 → follows tenths p b →
  breaches p b = false.
Proof using Hstep.
  intros Hm Ht Hf Hft Hfl Hb. destruct (follows_ref floor tenths p b) as [Hr Hd]; [done..|].
  destruct Hm as [Np Bp], Hb as (Hi&Nr&_). pose proof top_quarters. destruct top_unit as [_ T16].
  assert (0 <= floor * step) by nia. unfold breaches. rewrite Hi. apply in_band; [done|done|lia|lia|lia|lia].
Qed.

Lemma follows_next floor tenths tenths' p b :
  market floor p → 0 <= tenths → 2 <= floor → 43 * tenths <= 20 * floor → floor <= 2 ^ 20 → 20 * tenths + 1 <= 25 * tenths' →
  follows tenths p b → follows tenths' p (band_next p b) ∧ breach_run (band_next p b) = 0.
Proof using Hstep.
  intros Hm Ht Hf Hft Hfl Ht' Hb. pose proof (follows_quiet floor tenths p b Hm Ht Hf Hft Hfl Hb) as Hq.
  destruct (follows_ref floor tenths p b) as [Hr _]; [done..|].
  destruct Hm as [Np Bp], Hb as (Hi&Nr&Hd). unfold breaches in Hq. rewrite Hi in Hq. cbn [andb] in Hq.
  unfold band_next. rewrite Hi, Hq. cbn [negb]. fold (ewma p (ref_price b)). unfold follows. cbn [ref_init ref_price breach_run].
  assert (2 * step <= floor * step) by nia.
  destruct (ewma_lag p (ref_price b)) as [Nz Ez]; [done|done|lia|lia|]. split; [|done]. split; [done|]. split; [done|].
  assert (Hs : 20 * (tenths * step) + step <= 25 * (tenths' * step)) by nia. lia.
Qed.

(** The first valid trade is the reference. *)
Lemma follows_first p b : number p → ref_init b = false → follows 0 p (band_next p b) ∧ breaches p b = false.
Proof using Hstep.
  intros Np Hi. unfold breaches, band_next, follows. rewrite Hi. cbn. split; [|done]. split; [done|]. split; [done|lia].
Qed.

Lemma follows_step t t' p q b :
  Z.abs (fz q - fz p) <= step → t + 10 <= t' → follows t p b → follows t' q b.
Proof using Hstep. intros Hd Ht (Hi&Nr&Hf). split; [done|]. split; [done|]. nia. Qed.

(** ** A market that moves by small steps *)

Definition within_step (prev : option double) (p : double) : Prop :=
  match prev with Some q => Z.abs (fz p - fz q) <= step | None => True end.

(** Every valid trade and every two-sided quote's mid is within a step of the valid trade
    before it. *)
Fixpoint steady_market (prev : option double) (ms : list Msg) : Prop :=
  match ms with
  | [] => True
  | MTrade t :: ms' =>
      if valid_trade t then
        market 110 (wt_price t) ∧ within_step prev (wt_price t) ∧ steady_market (Some (wt_price t)) ms'
      else steady_market prev ms'
  | MQuote q :: ms' =>
      (two_sided q = true → market 110 (quote_mid q) ∧ within_step prev (quote_mid q)) ∧ steady_market prev ms'
  | MBar _ :: ms' => steady_market prev ms'
  end.

(** The reference is within four steps and a tenth of the last valid trade. *)
Definition tracking (prev : option double) (b : Band) : Prop :=
  match prev with Some p => follows 41 p b | None => ref_init b = false end.

(** The price of the last valid trade, [prev] before the first. *)
Definition last_trade (prev : option double) (ms : list Msg) : option double :=
  foldl (λ prev m, match m with MTrade t => if valid_trade t then Some (wt_price t) else prev | _ => prev end) prev ms.

(** One record of such a market. *)
Lemma steady_step prev m ms s :
  steady_market prev (m :: ms) → tracking prev (band s) →
  has (check_slot m s).2 kPriceBandBreach = false ∧
  steady_market (last_trade prev [m]) ms ∧ tracking (last_trade prev [m]) (band (check_slot m s).1).
Proof using Hstep.
  intros Hm Ht. rewrite band_flag, band_after. destruct m as [t|b|q]; cbn [steady_market last_trade foldl] in *.
  - destruct (valid_trade t); cbn [andb]; [|done].
    destruct Hm as (Hp&Hw&Hms). destruct prev as [p|]; cbn [tracking within_step] in *.
    + pose proof (follows_step 41 51 p (wt_price t) (band s) Hw ltac:(lia) Ht) as H51. split.
      * apply (follows_quiet 110 51); (done || lia).
      * split; [done|]. apply (follows_next 110 51 41); (done || lia).
    + destruct (follows_first (wt_price t) (band s)) as [(H1&H2&H3) ?]; [apply Hp|done|].
      split; [done|]. split; [done|]. split; [done|]. split; [done|lia].
  - done.
  - destruct Hm as [Hq Hms]. split; [|done]. destruct (two_sided q); [|done]. cbn [andb].
    destruct (Hq eq_refl) as [Hp Hw]. destruct prev as [p|]; cbn [tracking within_step] in *.
    + apply (follows_quiet 110 51); [done|lia|lia|lia|lia|]. by apply (follows_step 41 51 p).
    + unfold breaches. by rewrite Ht.
Qed.

End Follow.

(** ** Many symbols *)

(** What is still to come of every symbol is a steady market for its reference. *)
Definition all_steady (step : Z → Z) (prev : Z → option double) (ms : list Msg) (st : gmap Z Slot) : Prop :=
  ∀ k, steady_market (step k) (prev k) (only k ms) ∧
    tracking (step k) (prev k) (band (default (fresh_slot k) (st !! k))).

Lemma only_cons k m ms : only k (m :: ms) = if decide (msg_key m = k) then m :: only k ms else only k ms.
Proof. unfold only. by rewrite filter_cons. Qed.

Lemma spec_check_all_state m ms st :
  (spec_check_all (m :: ms) st).2 = (spec_check_all ms (spec_check m st).2).2.
Proof. cbn. destruct (spec_check m st) as [r st1]. cbn. by destruct (spec_check_all ms st1). Qed.

Lemma all_steady_quiet step ms : ∀ prev st,
  (∀ k, 2 ^ 100 <= step k ∧ 2 ^ 39 * step k <= top / 16) → all_steady step prev ms st →
  Forall (λ r, has r kPriceBandBreach = false) (spec_check_all ms st).1 ∧
  all_steady step (λ k, last_trade (prev k) (only k ms)) [] (spec_check_all ms st).2.
Proof.
  induction ms as [|m ms IH]; intros prev st Hs Hst; [split; [constructor|done]|].
  rewrite spec_check_all_cons, spec_check_all_state.
  destruct (Hst (msg_key m)) as [Hm Ht]. rewrite only_cons, decide_True in Hm by done.
  destruct (steady_step _ (Hs (msg_key m)) _ m _ _ Hm Ht) as (Hf&Hm'&Ht').
  destruct (IH (λ k, if decide (msg_key m = k) then last_trade (prev k) [m] else prev k) (spec_check m st).2 Hs)
    as [H1 H2].
  - intros k. case_decide as Hk; [subst k|].
    + split; [done|]. unfold spec_check. destruct (check_slot m _) as [s' r]. cbn [snd]. by rewrite lookup_insert_eq.
    + destruct (Hst k) as [Hm0 Ht0]. rewrite only_cons, decide_False in Hm0 by done.
      split; [done|]. by rewrite spec_check_other.
  - split; [constructor; [unfold spec_check; by destruct (check_slot m _)|done]|]. intros k.
    specialize (H2 k). cbn beta in H2. rewrite only_cons. by case_decide.
Qed.

(** C38: The price band raises no false alarm: take any interleaving of at most 4096 symbols in
    which, symbol by symbol, each valid trade and the mid of each two-sided quote lies within
    a step of the valid trade before it (a step that may differ from symbol to symbol), and
    prices are at least 110 and at most [2^38] steps.  Then no record of the stream is
    reported as a breach, however long it is and wherever the market drifts, and at its end,
    so after any part of it, the table holds for each symbol that has traded a reference
    that is a number within four steps and a tenth of its last valid trade, the roundings of
    the moving average included.  Rejected trades and bars in between change nothing. *)
Theorem steady_market_never_breaches (step : Z → Z) ms :
  (∀ k, 2 ^ 100 <= step k ∧ 2 ^ 39 * step k <= top / 16) →
  (∀ k, steady_market (step k) None (only k ms)) → (size (keys ms) <= Z.to_nat kCapacity)%nat →
  Forall (λ r, has r kPriceBandBreach = false) (check_all ms validator_init).1 ∧
  ∀ k p, last_trade None (only k ms) = Some p →
    ∃ s, s ∈ (check_all ms validator_init).2 ∧ seen s = true ∧ key s = k ∧
      ref_init (band s) = true ∧ number (ref_price (band s)) ∧
      10 * Z.abs (fz p - fz (ref_price (band s))) <= 41 * step k.
Proof.
  intros Hs Hm Hk. destruct (check_all_spec ms Hk) as [-> R].
  destruct (all_steady_quiet step ms (λ _, None) ∅ Hs) as [H1 H2].
  { intros k. split; [done|]. by rewrite lookup_empty. }
  split; [done|]. intros k p Hp. destruct (H2 k) as [_ Ht]. cbn beta in Ht. rewrite Hp in Ht. cbn [tracking] in Ht.
  destruct ((spec_check_all ms ∅).2 !! k) as [s|] eqn:E; [|by destruct Ht].
  destruct (tr_find _ _ R k s E) as (i&Hi&Hkey&Hseen). exists s. split; [by eapply list_elem_of_lookup_2|]. done.
Qed.

(** Two symbols, one drifting up and one down, a dollar at a time. *)
Definition demo_drift : list Msg :=
  concat ((λ i, [demo_trade 1 i i (200 + i); demo_trade 2 i i (300 - i)]) <$> [1; 2; 3; 4]).

Lemma market_Z floor n : Z.abs n <= 2 ^ 38 → floor <= n → market unit floor (double_of_Z n).
Proof.
  intros Hn Hf. destruct (double_of_Z_exact n) as [N1 E1]; [lia|]. pose proof unit_pos. split; [done|]. rewrite E1. nia.
Qed.

Lemma within_Z n m : Z.abs n <= 2 ^ 38 → Z.abs m <= 2 ^ 38 → Z.abs (n - m) <= 1 → within_step unit (Some (double_of_Z m)) (double_of_Z n).
Proof.
  intros Hn Hm Hd. cbn [within_step]. destruct (double_of_Z_exact n) as [_ ->]; [lia|].
  destruct (double_of_Z_exact m) as [_ ->]; [lia|]. pose proof unit_pos.
  rewrite <- Z.mul_sub_distr_r, Z.abs_mul, (Z.abs_eq unit) by lia. nia.
Qed.

Lemma demo_drift_steady k : steady_market unit None (only k demo_drift).
Proof.
  unfold demo_drift. cbn [fmap list_fmap concat app].
  assert (Hk : ∀ ts seq p ms k', 0 <= k' < 2 ^ 64 → only k (demo_trade k' ts seq p :: ms) =
    if decide (k' = k) then demo_trade k' ts seq p :: only k ms else only k ms)
    by (intros; rewrite only_cons, demo_trade_key by done; done).
  rewrite !Hk by lia. clear Hk.
  destruct (decide (1 = k)), (decide (2 = k)); [lia|..|done]; cbn [steady_market demo_trade];
    repeat (split; [apply market_Z; lia|split; [first [done|apply within_Z; lia]|]]); done.
Qed.

Lemma steady_market_never_breaches_witness :
  Forall (λ r, has r kPriceBandBreach = false) (check_all demo_drift validator_init).1 ∧
  ∃ s, s ∈ (check_all demo_drift validator_init).2 ∧ seen s = true ∧ key s = 2 ∧
    ref_init (band s) = true ∧ number (ref_price (band s)) ∧
    10 * Z.abs (fz (double_of_Z 296) - fz (ref_price (band s))) <= 41 * unit.
Proof.
  destruct (steady_market_never_breaches (λ _, unit) demo_drift) as [H1 H2].
  - intros _. split; apply Z.leb_le; by vm_compute.
  - intros k. apply demo_drift_steady.
  - apply Nat.leb_le. by vm_compute.
  - split; [exact H1|]. apply (H2 2). by vm_compute.
Defined.
