(* ===== verification/SpscRing.v ===== *)
(** * SpscRing: the single-producer single-consumer ring

    Models [src/src/concurrent/spsc_ring.h], both variants of [CacheFarCursor].
    [try_push] and [try_pop] are cut at their shared accesses: the check of the far
    cursor, the slot access, and the release-store of the own cursor.  Each piece is
    a function; the two threads interleave the pieces in any order.

    The cursors are 64-bit counters that wrap.  An acquire-load of the far cursor may
    return an old value, as the C++ memory model allows: any value the other side has
    stored, from the last one this thread has read to the current one.  The slots are
    ordinary memory, read and written in interleaving order; that the executions of the
    C++ memory model have no data race and are all among these interleavings is proved
    in [SpscWeakProofs.v].

    The state carries two ghost lists, the items pushed and the items popped, that
    the code does not have and no step reads. *)

From stdpp Require Import base numbers list.
From Stdlib Require Import ZArith Lia.
From S2P Require Import Prelude.

Local Open Scope Z_scope.

Section Ring.
Context {T : Type} `{!Inhabited T} (Capacity : Z) (CacheFarCursor : bool).

(** ** Data *)

Record Ring := mkRing {
  tail : Z;
  cached_head : Z;
  head : Z;
  cached_tail : Z;
  buf : list T
}.

Definition ring_init : Ring := mkRing 0 0 0 0 (replicate (Z.to_nat Capacity) inhabitant).

Definition ring_slot (c : Z) : nat := Z.to_nat (Z.land c (Capacity - 1)).

(** ** The pieces of [try_push] *)

(** The test for room; [far] is what the load of [head] returns if it happens.
    The result says whether the load happened and whether there is room. *)
Definition push_check (far : Z) (r : Ring) : bool * bool * Ring :=
  let t := tail r in
  if CacheFarCursor then
    if Capacity <=? t -u cached_head r then
      let r' := mkRing (tail r) far (head r) (cached_tail r) (buf r) in
      (true, negb (Capacity <=? t -u far), r')
    else (false, true, r)
  else (true, negb (Capacity <=? t -u far), r).

Definition push_write (x : T) (r : Ring) : Ring :=
  mkRing (tail r) (cached_head r) (head r) (cached_tail r) (<[ring_slot (tail r) := x]> (buf r)).

Definition push_publish (r : Ring) : Ring :=
  mkRing (tail r +u 1) (cached_head r) (head r) (cached_tail r) (buf r).

(** ** The pieces of [try_pop] *)

Definition pop_check (far : Z) (r : Ring) : bool * bool * Ring :=
  let h := head r in
  if CacheFarCursor then
    if h =? cached_tail r then
      let r' := mkRing (tail r) (cached_head r) (head r) far (buf r) in
      (true, negb (h =? far), r')
    else (false, true, r)
  else (true, negb (h =? far), r).

Definition pop_read (r : Ring) : T := default inhabitant (buf r !! ring_slot (head r)).

Definition pop_free (r : Ring) : Ring :=
  mkRing (tail r) (cached_head r) (head r +u 1) (cached_tail r) (buf r).

(** ** The whole calls, and [size_approx] *)

Definition try_push (far : Z) (x : T) (r : Ring) : bool * Ring :=
  let '(_, room, r1) := push_check far r in
  if room then (true, push_publish (push_write x r1)) else (false, r1).

Definition try_pop (far : Z) (r : Ring) : option T * Ring :=
  let '(_, some, r1) := pop_check far r in
  if some then (Some (pop_read r1), pop_free r1) else (None, r1).

Definition size_approx (t h : Z) : Z := t -u h.

(** ** Two threads *)

Inductive ProdPc := PIdle | PWrite (x : T) | PPublish (x : T).
Inductive ConsPc := CIdle | CRead | CFree (x : T).

(** [seen_head] and [seen_tail] count the stores of the far cursor that the thread has
    read so far; [pushed] and [popped] are the items whose push or pop has completed. *)
Record Sys := mkSys {
  ring : Ring;
  ppc : ProdPc;
  cpc : ConsPc;
  pushed : list T;
  popped : list T;
  seen_head : Z;
  seen_tail : Z
}.

Definition sys_init : Sys := mkSys ring_init PIdle CIdle [] [] 0 0.

Inductive step : Sys → Sys → Prop :=
  (** The producer starts a push of [x]; the load of [head], if any, returns the
      value of the [n]-th store, [seen_head <= n <= length popped]. *)
  | step_push_check r x c ps qs sh st n loaded room r' :
      sh <= n <= Z.of_nat (length qs) →
      push_check (u64 n) r = (loaded, room, r') →
      step (mkSys r PIdle c ps qs sh st)
           (mkSys r' (if room then PWrite x else PIdle) c ps qs (if loaded : bool then n else sh) st)
  | step_push_write r x c ps qs sh st :
      step (mkSys r (PWrite x) c ps qs sh st)
           (mkSys (push_write x r) (PPublish x) c ps qs sh st)
  | step_push_publish r x c ps qs sh st :
      step (mkSys r (PPublish x) c ps qs sh st)
           (mkSys (push_publish r) PIdle c (ps ++ [x]) qs sh st)
  | step_pop_check r p ps qs sh st n loaded some r' :
      st <= n <= Z.of_nat (length ps) →
      pop_check (u64 n) r = (loaded, some, r') →
      step (mkSys r p CIdle ps qs sh st)
           (mkSys r' p (if some then CRead else CIdle) ps qs sh (if loaded : bool then n else st))
  | step_pop_read r p ps qs sh st :
      step (mkSys r p CRead ps qs sh st)
           (mkSys r p (CFree (pop_read r)) ps qs sh st)
  | step_pop_free r p x ps qs sh st :
      step (mkSys r p (CFree x) ps qs sh st)
           (mkSys (pop_free r) p CIdle ps (qs ++ [x]) sh st).

Inductive reachable_sys : Sys → Prop :=
  | reach_init : reachable_sys sys_init
  | reach_step s s' : reachable_sys s → step s s' → reachable_sys s'.

End Ring.

Arguments Ring : clear implicits.
Arguments Sys : clear implicits.
Arguments ProdPc : clear implicits.
Arguments ConsPc : clear implicits.

(** ** Specification: a bounded FIFO queue *)

Definition queue_push {T} (cap : Z) (x : T) (q : list T) : bool * list T :=
  if Z.of_nat (length q) <? cap then (true, q ++ [x]) else (false, q).
Definition queue_pop {T} (q : list T) : option T * list T :=
  match q with [] => (None, []) | x :: q' => (Some x, q') end.

Inductive ring_op (T : Type) := OpPush (x : T) | OpPop.
Arguments OpPush {T} x.
Arguments OpPop {T}.

(** A single thread's calls: each load sees the current cursor. *)
Fixpoint ring_run {T} `{!Inhabited T} (cap : Z) (cache : bool) (ops : list (ring_op T)) (r : Ring T)
    : list (bool + option T) * Ring T :=
  match ops with
  | [] => ([], r)
  | OpPush x :: ops' =>
      let '(b, r1) := try_push cap cache (head r) x r in
      let '(rs, r2) := ring_run cap cache ops' r1 in (inl b :: rs, r2)
  | OpPop :: ops' =>
      let '(v, r1) := try_pop cap cache (tail r) r in
      let '(rs, r2) := ring_run cap cache ops' r1 in (inr v :: rs, r2)
  end.

Fixpoint queue_run {T} (cap : Z) (ops : list (ring_op T)) (q : list T)
    : list (bool + option T) * list T :=
  match ops with
  | [] => ([], q)
  | OpPush x :: ops' =>
      let '(b, q1) := queue_push cap x q in
      let '(rs, q2) := queue_run cap ops' q1 in (inl b :: rs, q2)
  | OpPop :: ops' =>
      let '(v, q1) := queue_pop q in
      let '(rs, q2) := queue_run cap ops' q1 in (inr v :: rs, q2)
  end.
