(* ===== verification/SpscRingProofs.v ===== *)
(** * SpscRing: first in first out, nothing lost, no race

    The invariant of every interleaving of the two threads, with stale cursor loads
    and wrapping counters, and the single-threaded refinement to a bounded queue. *)

From stdpp Require Import base numbers list.
From Stdlib Require Import ZArith Lia.
From S2P Require Import Prelude SpscRing.

Local Open Scope Z_scope.

Section Proofs.
Context {T : Type} `{!Inhabited T} (cap : Z) (cache : bool).
Hypothesis Hcap : pow2_assert cap = true.
Hypothesis Hmax : cap <= 2 ^ 63.

Implicit Types s : Sys T.

Lemma cap_pos : 2 <= cap.
Proof using Hcap. apply pow2_assert_spec in Hcap as [? _]. done. Qed.

Lemma u64_sub_u64 a b : 0 <= a - b < 2 ^ 64 → u64 a -u u64 b = a - b.
Proof using. intros H. unfold u64_sub, u64. rewrite <- Zminus_mod. by apply Z.mod_small. Qed.

Lemma u64_add_one a : u64 a +u 1 = u64 (a + 1).
Proof using. unfold u64_add, u64. apply Zplus_mod_idemp_l. Qed.

Lemma u64_eqb_near a b : - 2 ^ 64 < a - b < 2 ^ 64 → (u64 a =? u64 b) = (a =? b).
Proof using.
  intros H. destruct (Z.eqb_spec a b) as [->|Hne]; [apply Z.eqb_refl|].
  apply Z.eqb_neq. intros Heq. unfold u64 in Heq. apply mod_window_inj in Heq; lia.
Qed.

(** The slot of the [k]-th item. *)
Definition item_slot (k : nat) : nat := ring_slot cap (u64 (Z.of_nat k)).

Lemma item_slot_mod k : item_slot k = Z.to_nat (Z.of_nat k mod cap).
Proof using Hcap Hmax.
  unfold item_slot, ring_slot. rewrite land_mask by done. rewrite u64_mod_pow2; [done|done|lia].
Qed.

Lemma item_slot_lt k : (item_slot k < Z.to_nat cap)%nat.
Proof using Hcap Hmax.
  rewrite item_slot_mod. pose proof cap_pos. pose proof (Z.mod_pos_bound (Z.of_nat k) cap). lia.
Qed.

(** Two items less than a revolution apart have different slots. *)
Lemma item_slot_inj j k :
  item_slot j = item_slot k → - cap < Z.of_nat j - Z.of_nat k < cap → j = k.
Proof using Hcap Hmax.
  rewrite !item_slot_mod. intros Heq Hd. pose proof cap_pos.
  apply Z2Nat.inj in Heq; try (apply Z.mod_pos_bound; lia).
  apply mod_window_inj in Heq; lia.
Qed.

Record ring_inv (s : Sys T) : Prop := {
  ri_len : length (buf (ring s)) = Z.to_nat cap;
  ri_tail : tail (ring s) = u64 (Z.of_nat (length (pushed s)));
  ri_head : head (ring s) = u64 (Z.of_nat (length (popped s)));
  ri_prefix : popped s = take (length (popped s)) (pushed s);
  ri_seen_head : 0 <= seen_head s <= Z.of_nat (length (popped s));
  ri_room : Z.of_nat (length (pushed s)) - seen_head s <= cap;
  ri_seen_tail : Z.of_nat (length (popped s)) <= seen_tail s <= Z.of_nat (length (pushed s));
  ri_cache : cache = true →
    cached_head (ring s) = u64 (seen_head s) ∧ cached_tail (ring s) = u64 (seen_tail s);
  ri_slots : ∀ k x, (length (popped s) <= k)%nat → pushed s !! k = Some x →
    buf (ring s) !! item_slot k = Some x;
  ri_write : ∀ x, ppc s = PWrite x ∨ ppc s = PPublish x →
    Z.of_nat (length (pushed s)) - seen_head s < cap;
  ri_publish : ∀ x, ppc s = PPublish x → buf (ring s) !! item_slot (length (pushed s)) = Some x;
  ri_read : (cpc s = CRead ∨ ∃ x, cpc s = CFree x) →
    Z.of_nat (length (popped s)) < seen_tail s;
  ri_free : ∀ x, cpc s = CFree x → pushed s !! length (popped s) = Some x
}.

Lemma ring_init_inv : ring_inv (sys_init cap).
Proof using Hcap.
  pose proof cap_pos. split; cbn; try done; try lia.
  - apply length_replicate.
  - intros [|[]]; done.
Qed.

Lemma prefix_le s : ring_inv s → (length (popped s) <= length (pushed s))%nat.
Proof using. intros [_ _ _ Hp _ _ _ _ _ _ _ _ _]. apply (f_equal length) in Hp. rewrite length_take in Hp. lia. Qed.

(** The producer's test, for a legal load. *)
Lemma push_check_spec s n loaded room r' :
  ring_inv s → seen_head s <= n <= Z.of_nat (length (popped s)) →
  push_check cap cache (u64 n) (ring s) = (loaded, room, r') →
  let sh := if loaded : bool then n else seen_head s in
  tail r' = tail (ring s) ∧ head r' = head (ring s) ∧ buf r' = buf (ring s) ∧
  cached_tail r' = cached_tail (ring s) ∧ (cache = true → cached_head r' = u64 sh) ∧
  (room = true → Z.of_nat (length (pushed s)) - sh < cap) ∧
  (room = false → loaded = true ∧ cap <= Z.of_nat (length (pushed s)) - n).
Proof using Hcap Hmax.
  intros I Hn. pose proof (prefix_le _ I). destruct (ri_seen_head _ I). pose proof (ri_room _ I).
  assert (Hsub : ∀ m, seen_head s <= m <= Z.of_nat (length (popped s)) →
    u64 (Z.of_nat (length (pushed s))) -u u64 m = Z.of_nat (length (pushed s)) - m).
  { intros m Hm. apply u64_sub_u64. lia. }
  unfold push_check. rewrite (ri_tail _ I). destruct cache eqn:Hc.
  - destruct (ri_cache _ I Hc) as [-> _]. rewrite (Hsub (seen_head s)) by lia. rewrite (Hsub n) by lia.
    destruct (Z.leb_spec cap (Z.of_nat (length (pushed s)) - seen_head s)); intros [= <- <- <-]; cbn.
    + repeat split; try done; try exact (ri_tail _ I). all: destruct (Z.leb_spec cap (Z.of_nat (length (pushed s)) - n)); cbn; lia.
    + repeat split; try done; try exact (ri_tail _ I); try lia. by destruct (ri_cache _ I Hc).
  - rewrite (Hsub n) by lia. intros [= <- <- <-]. cbn. repeat split; try done; try exact (ri_tail _ I).
    all: destruct (Z.leb_spec cap (Z.of_nat (length (pushed s)) - n)); cbn; lia.
Qed.

Lemma pop_check_spec s n loaded some r' :
  ring_inv s → seen_tail s <= n <= Z.of_nat (length (pushed s)) →
  pop_check cache (u64 n) (ring s) = (loaded, some, r') →
  let st := if loaded : bool then n else seen_tail s in
  tail r' = tail (ring s) ∧ head r' = head (ring s) ∧ buf r' = buf (ring s) ∧
  cached_head r' = cached_head (ring s) ∧ (cache = true → cached_tail r' = u64 st) ∧
  (some = true → Z.of_nat (length (popped s)) < st) ∧
  (some = false → loaded = true ∧ n = Z.of_nat (length (popped s))).
Proof using Hcap Hmax.
  intros I Hn. pose proof (prefix_le _ I). destruct (ri_seen_head _ I). pose proof (ri_room _ I).
  pose proof (ri_seen_tail _ I).
  assert (Heq : ∀ m, seen_tail s <= m <= Z.of_nat (length (pushed s)) →
    (u64 (Z.of_nat (length (popped s))) =? u64 m) = (Z.of_nat (length (popped s)) =? m)).
  { intros m Hm. apply u64_eqb_near. lia. }
  unfold pop_check. rewrite (ri_head _ I). destruct cache eqn:Hc.
  - destruct (ri_cache _ I Hc) as [_ ->]. rewrite (Heq (seen_tail s)) by lia. rewrite (Heq n) by lia.
    destruct (Z.eqb_spec (Z.of_nat (length (popped s))) (seen_tail s)); intros [= <- <- <-]; cbn.
    + repeat split; try done; try exact (ri_head _ I). all: destruct (Z.eqb_spec (Z.of_nat (length (popped s))) n); cbn; lia.
    + repeat split; try done; try exact (ri_head _ I); try lia. by destruct (ri_cache _ I Hc).
  - rewrite (Heq n) by lia. intros [= <- <- <-]. cbn. repeat split; try done; try exact (ri_head _ I).
    all: destruct (Z.eqb_spec (Z.of_nat (length (popped s))) n); cbn; lia.
Qed.

(** ** Every step keeps the invariant *)

Lemma push_check_inv r x c ps qs sh st n loaded room r' :
  ring_inv (mkSys r PIdle c ps qs sh st) → sh <= n <= Z.of_nat (length qs) →
  push_check cap cache (u64 n) r = (loaded, room, r') →
  ring_inv (mkSys r' (if room : bool then PWrite x else PIdle) c ps qs (if loaded : bool then n else sh) st).
Proof using Hcap Hmax.
  intros I Hn Hck.
  destruct (push_check_spec _ n _ _ _ I Hn Hck) as (Ht&Hh&Hb&Hct&Hch&Hroom&_).
  destruct I as [I1 I2 I3 I4 I5 I6 I7 I8 I9 I10 I11 I12 I13]. cbn in *.
  split; cbn; rewrite ?Hb; try done; try congruence.
  - destruct loaded; lia.
  - destruct loaded; lia.
  - intros Hc. split; [by apply Hch|]. rewrite Hct. by apply I8.
  - intros y Hy. destruct room; [by apply Hroom|]. by destruct Hy.
  - intros y. by destruct room.
Qed.

Lemma pop_check_inv r p ps qs sh st n loaded some r' :
  ring_inv (mkSys r p CIdle ps qs sh st) → st <= n <= Z.of_nat (length ps) →
  pop_check cache (u64 n) r = (loaded, some, r') →
  ring_inv (mkSys r' p (if some : bool then CRead else CIdle) ps qs sh (if loaded : bool then n else st)).
Proof using Hcap Hmax.
  intros I Hn Hck.
  destruct (pop_check_spec _ n _ _ _ I Hn Hck) as (Ht&Hh&Hb&Hch&Hct&Hsome&_).
  destruct I as [I1 I2 I3 I4 I5 I6 I7 I8 I9 I10 I11 I12 I13]. cbn in *.
  split; cbn; rewrite ?Hb; try done; try congruence.
  - destruct loaded; lia.
  - intros Hc. split; [|by apply Hct]. rewrite Hch. by apply I8.
  - intros Hy. destruct some; [by apply Hsome|]. by destruct Hy as [|[]].
  - intros y. by destruct some.
Qed.

Lemma push_write_inv r x c ps qs sh st :
  ring_inv (mkSys r (PWrite x) c ps qs sh st) →
  ring_inv (mkSys (push_write cap x r) (PPublish x) c ps qs sh st).
Proof using Hcap Hmax.
  intros I. pose proof (ri_write _ I x (or_introl eq_refl)) as Hw.
  destruct I as [I1 I2 I3 I4 I5 I6 I7 I8 I9 I10 I11 I12 I13]. cbn in *.
  assert (Hslot : ring_slot cap (tail r) = item_slot (length ps)) by (by rewrite I2).
  assert (Hlt : (item_slot (length ps) < length (buf r))%nat).
  { rewrite I1. apply item_slot_lt. }
  split; cbn; rewrite ?length_insert, ?Hslot; try done.
  - intros k y Hk Hy. rewrite list_lookup_insert_ne; [by apply I9|].
    pose proof (lookup_lt_Some _ _ _ Hy). intros Heq.
    apply item_slot_inj in Heq; [lia|]. lia.
  - intros y [= <-]. by apply list_lookup_insert_eq.
Qed.

Lemma push_publish_inv r x c ps qs sh st :
  ring_inv (mkSys r (PPublish x) c ps qs sh st) →
  ring_inv (mkSys (push_publish r) PIdle c (ps ++ [x]) qs sh st).
Proof using Hcap Hmax.
  intros I. pose proof (ri_write _ I x (or_intror eq_refl)) as Hw.
  pose proof (ri_publish _ I x eq_refl) as Hpub. pose proof (prefix_le _ I) as Hle.
  destruct I as [I1 I2 I3 I4 I5 I6 I7 I8 I9 I10 I11 I12 I13]. cbn in *.
  split; cbn; rewrite ?length_app; cbn [length]; try done; try lia.
  - rewrite I2, u64_add_one. f_equal. lia.
  - by rewrite take_app_le.
  - intros k y Hk. destruct (decide (k = length ps)) as [->|Hne].
    + rewrite lookup_app_r, Nat.sub_diag by lia. by intros [= <-].
    + intros Hy. pose proof (lookup_lt_Some _ _ _ Hy) as Hlt. rewrite length_app in Hlt. cbn in Hlt.
      rewrite lookup_app_l in Hy by lia. by apply I9.
  - by intros y [|].
  - intros y Hy. specialize (I13 y Hy). rewrite lookup_app_l; [done|].
    by eapply lookup_lt_Some.
Qed.

Lemma pop_read_inv r p ps qs sh st :
  ring_inv (mkSys r p CRead ps qs sh st) →
  ring_inv (mkSys r p (CFree (pop_read cap r)) ps qs sh st).
Proof using Hcap Hmax.
  intros I. pose proof (ri_read _ I (or_introl eq_refl)) as Hr.
  destruct I as [I1 I2 I3 I4 I5 I6 I7 I8 I9 I10 I11 I12 I13]. cbn in *.
  split; cbn; try done. intros y [= <-].
  destruct (lookup_lt_is_Some_2 ps (length qs)) as [y Hy]; [lia|].
  rewrite Hy. f_equal. unfold pop_read. rewrite I3. fold (item_slot (length qs)).
  by rewrite (I9 _ y).
Qed.

Lemma pop_free_inv r p x ps qs sh st :
  ring_inv (mkSys r p (CFree x) ps qs sh st) →
  ring_inv (mkSys (pop_free r) p CIdle ps (qs ++ [x]) sh st).
Proof using Hcap Hmax.
  intros I. pose proof (ri_read _ I (or_intror (ex_intro _ x eq_refl))) as Hr.
  pose proof (ri_free _ I x eq_refl) as Hx.
  destruct I as [I1 I2 I3 I4 I5 I6 I7 I8 I9 I10 I11 I12 I13]. cbn in *.
  split; cbn; rewrite ?length_app; cbn [length]; try done; try lia.
  - rewrite I3, u64_add_one. f_equal. lia.
  - rewrite Nat.add_1_r, (take_S_r _ _ x) by done. by rewrite <- I4.
  - intros k y Hk. apply I9. lia.
  - by intros [|[]].
Qed.

Lemma reachable_inv s : reachable_sys cap cache s → ring_inv s.
Proof using Hcap Hmax.
  induction 1 as [|s s' _ I Hs]; [apply ring_init_inv|].
  destruct Hs; eauto using push_check_inv, pop_check_inv, push_write_inv, push_publish_inv,
    pop_read_inv, pop_free_inv.
Qed.

(** ** One thread: the ring is a bounded queue *)

Definition ring_queue (r : Ring T) (q : list T) : Prop :=
  ∃ ps qs sh st, ring_inv (mkSys r PIdle CIdle ps qs sh st) ∧ ps = qs ++ q.

Lemma queue_prefix r ps qs sh st p c :
  ring_inv (mkSys r p c ps qs sh st) → ps = qs ++ drop (length qs) ps.
Proof using. intros I. pose proof (ri_prefix _ I) as Hp. cbn in Hp. rewrite Hp at 1. by rewrite take_drop. Qed.

Lemma try_push_queue r q x :
  ring_queue r q →
  (try_push cap cache (head r) x r).1 = (queue_push cap x q).1 ∧
  ring_queue (try_push cap cache (head r) x r).2 (queue_push cap x q).2.
Proof using Hcap Hmax.
  intros (ps&qs&sh&st&I&Hq). unfold try_push, queue_push.
  destruct (push_check cap cache (head r) r) as [[loaded room] r'] eqn:Hck.
  pose proof (ri_head _ I) as Hh. cbn in Hh. rewrite Hh in Hck.
  pose proof (ri_seen_head _ I) as Hsh. cbn in Hsh.
  assert (Hlen : Z.of_nat (length ps) = Z.of_nat (length qs) + Z.of_nat (length q)).
  { rewrite Hq, length_app. lia. }
  destruct (push_check_spec _ (Z.of_nat (length qs)) _ _ _ I ltac:(cbn; lia) Hck)
    as (_&_&_&_&_&Hroom&Hfull). cbn in Hroom, Hfull.
  pose proof (push_check_inv r x _ _ _ _ _ (Z.of_nat (length qs)) _ _ _ I ltac:(lia) Hck) as I1.
  destruct room.
  - specialize (Hroom eq_refl). destruct (Z.ltb_spec (Z.of_nat (length q)) cap).
    2:{ destruct loaded; lia. }
    split; [done|]. apply push_write_inv, push_publish_inv in I1.
    exists (ps ++ [x]), qs, (if loaded then Z.of_nat (length qs) else sh), st.
    split; [done|]. cbn [snd]. by rewrite Hq, app_assoc.
  - destruct (Hfull eq_refl) as [-> Hf]. destruct (Z.ltb_spec (Z.of_nat (length q)) cap); [lia|].
    split; [done|]. exists ps, qs, (Z.of_nat (length qs)), st. done.
Qed.

Lemma try_pop_queue r q :
  ring_queue r q →
  (try_pop cap cache (tail r) r).1 = (queue_pop q).1 ∧
  ring_queue (try_pop cap cache (tail r) r).2 (queue_pop q).2.
Proof using Hcap Hmax.
  intros (ps&qs&sh&st&I&Hq). unfold try_pop, queue_pop.
  destruct (pop_check cache (tail r) r) as [[loaded some] r'] eqn:Hck.
  pose proof (ri_tail _ I) as Ht. cbn in Ht. rewrite Ht in Hck.
  pose proof (ri_seen_tail _ I) as Hst. cbn in Hst.
  assert (Hlen : Z.of_nat (length ps) = Z.of_nat (length qs) + Z.of_nat (length q)).
  { rewrite Hq, length_app. lia. }
  destruct (pop_check_spec _ (Z.of_nat (length ps)) _ _ _ I ltac:(cbn; lia) Hck)
    as (_&_&_&_&_&Hsome&Hnone). cbn in Hsome, Hnone.
  pose proof (pop_check_inv r _ _ _ _ _ (Z.of_nat (length ps)) _ _ _ I ltac:(lia) Hck) as I1.
  destruct some.
  - specialize (Hsome eq_refl). destruct q as [|y q].
    { exfalso. cbn in Hlen. destruct loaded; lia. }
    apply pop_read_inv in I1. pose proof (ri_free _ I1 _ eq_refl) as Hx. cbn in Hx.
    rewrite Hq, lookup_app_r, Nat.sub_diag in Hx by lia. injection Hx as Hx.
    split; [by rewrite Hx|]. apply pop_free_inv in I1.
    exists ps, (qs ++ [y]), sh, (if loaded then Z.of_nat (length ps) else st).
    rewrite <- Hx in I1. rewrite <- Hx at 1. split; [exact I1|]. cbn [snd]. by rewrite Hq, <- app_assoc.
  - destruct (Hnone eq_refl) as [-> Hn]. destruct q; [|cbn in Hlen; lia].
    split; [done|]. exists ps, qs, sh, (Z.of_nat (length ps)). done.
Qed.

Lemma ring_run_queue ops r q :
  ring_queue r q → (ring_run cap cache ops r).1 = (queue_run cap ops q).1.
Proof using Hcap Hmax.
  revert r q. induction ops as [|[x|] ops IH]; intros r q R; [done|..]; cbn [ring_run queue_run].
  - destruct (try_push_queue r q x R) as [Hb R1].
    destruct (try_push cap cache (head r) x r) as [b r1], (queue_push cap x q) as [b' q1].
    cbn in *. subst. specialize (IH _ _ R1).
    destruct (ring_run cap cache ops r1), (queue_run cap ops q1). cbn in *. by subst.
  - destruct (try_pop_queue r q R) as [Hb R1].
    destruct (try_pop cap cache (tail r) r) as [v r1], (queue_pop q) as [v' q1].
    cbn in *. subst. specialize (IH _ _ R1).
    destruct (ring_run cap cache ops r1), (queue_run cap ops q1). cbn in *. by subst.
Qed.

End Proofs.

(** ** The properties *)

(** In every interleaving of one producer and one consumer, with cursor loads
    that may be stale and counters that wrap, in both variants of the ring, the items
    popped are exactly the first items pushed, in order, and at most [Capacity] are
    in flight: nothing is lost, duplicated, reordered or overwritten. *)
Theorem spsc_fifo_no_loss {T} `{!Inhabited T} cap cache (s : Sys T) :
  pow2_assert cap = true → cap <= 2 ^ 63 → reachable_sys cap cache s →
  popped s = take (length (popped s)) (pushed s) ∧
  Z.of_nat (length (pushed s)) - Z.of_nat (length (popped s)) <= cap ∧
  ∀ k x, (length (popped s) <= k)%nat → pushed s !! k = Some x →
    buf (ring s) !! ring_slot cap (u64 (Z.of_nat k)) = Some x.
Proof.
  intros Hc Hm Hr. pose proof (reachable_inv cap cache Hc Hm s Hr) as I.
  split; [apply I|]. split; [|apply I].
  pose proof (ri_room _ _ _ I). pose proof (ri_seen_head _ _ _ I). lia.
Qed.

(** The two threads never touch one slot at the same time: when the producer is
    about to write its slot while the consumer is about to read its own, the two
    slots are different. *)
Theorem spsc_no_data_race {T} `{!Inhabited T} cap cache (s : Sys T) x :
  pow2_assert cap = true → cap <= 2 ^ 63 → reachable_sys cap cache s →
  ppc s = PWrite x → cpc s = CRead →
  ring_slot cap (tail (ring s)) ≠ ring_slot cap (head (ring s)).
Proof.
  intros Hc Hm Hr Hp Hq Heq. pose proof (reachable_inv cap cache Hc Hm s Hr) as I.
  rewrite (ri_tail _ _ _ I), (ri_head _ _ _ I) in Heq.
  pose proof (ri_write _ _ _ I x (or_introl Hp)). pose proof (ri_read _ _ _ I (or_introl Hq)).
  pose proof (ri_seen_head _ _ _ I). pose proof (ri_seen_tail _ _ _ I).
  apply (item_slot_inj cap Hc Hm) in Heq; lia.
Qed.

(** Full and empty are told apart correctly: a push that sees the current head
    fails exactly when [Capacity] items are in flight, a pop that sees the current
    tail fails exactly when none is, and a stale load can only make a call fail,
    never succeed wrongly. *)
Theorem spsc_full_empty_exact {T} `{!Inhabited T} cap cache (s : Sys T) n loaded ok r' :
  pow2_assert cap = true → cap <= 2 ^ 63 → reachable_sys cap cache s →
  let inflight := Z.of_nat (length (pushed s)) - Z.of_nat (length (popped s)) in
  (seen_head s <= n <= Z.of_nat (length (popped s)) →
   push_check cap cache (u64 n) (ring s) = (loaded, ok, r') →
   (ok = true → inflight < cap) ∧
   (n = Z.of_nat (length (popped s)) → ok = false → inflight = cap)) ∧
  (seen_tail s <= n <= Z.of_nat (length (pushed s)) →
   pop_check cache (u64 n) (ring s) = (loaded, ok, r') →
   (ok = true → 0 < inflight) ∧
   (n = Z.of_nat (length (pushed s)) → ok = false → inflight = 0)).
Proof.
  intros Hc Hm Hr. cbn zeta. pose proof (reachable_inv cap cache Hc Hm s Hr) as I.
  pose proof (ri_seen_head _ _ _ I). pose proof (ri_room _ _ _ I). pose proof (ri_seen_tail _ _ _ I).
  split; intros Hn Hck.
  - destruct (push_check_spec cap cache Hc Hm _ _ _ _ _ I Hn Hck) as (_&_&_&_&_&Hroom&Hfull).
    split; [intros Hok; specialize (Hroom Hok); destruct loaded; lia|].
    intros Hcur Hok. destruct (Hfull Hok). lia.
  - destruct (pop_check_spec cap cache Hc Hm _ _ _ _ _ I Hn Hck) as (_&_&_&_&_&Hsome&Hnone).
    split; [intros Hok; specialize (Hsome Hok); destruct loaded; lia|].
    intros Hcur Hok. destruct (Hnone Hok). lia.
Qed.

(** Used by one thread, the ring is a bounded FIFO queue: every sequence of
    [try_push] and [try_pop] gives the results of the queue, in both variants. *)
Theorem spsc_sequential_refines_queue {T} `{!Inhabited T} cap cache (ops : list (ring_op T)) :
  pow2_assert cap = true → cap <= 2 ^ 63 →
  (ring_run cap cache ops (ring_init cap)).1 = (queue_run cap ops []).1.
Proof.
  intros Hc Hm. apply (ring_run_queue cap cache Hc Hm).
  exists [], [], 0, 0. split; [|done]. apply (ring_init_inv cap cache Hc).
Qed.

(** ** Witnesses: a push and a pop in flight at once on a ring of two. *)

Definition demo_sys : Sys Z :=
  mkSys (mkRing 1 0 0 0 [7; 1]) (PWrite 8) CRead [7] [] 0 1.

Lemma demo_reachable : reachable_sys 2 false demo_sys.
Proof.
  eapply reach_step; [|eapply (step_pop_check 2 false (mkRing 1 0 0 0 [7; 1]) _ _ _ 0 0 1 true true); [cbn; lia|reflexivity]].
  eapply reach_step; [|eapply (step_push_check 2 false (mkRing 1 0 0 0 [7; 1]) 8 _ _ _ 0 0 0 true true); [cbn; lia|reflexivity]].
  eapply reach_step; [|exact (step_push_publish 2 false (mkRing 0 0 0 0 [7; 1]) 7 CIdle [] [] 0 0)].
  eapply reach_step; [|exact (step_push_write 2 false (mkRing 0 0 0 0 [1; 1]) 7 CIdle [] [] 0 0)].
  eapply reach_step; [apply reach_init|].
  apply (step_push_check 2 false (mkRing 0 0 0 0 [1; 1]) 7 _ _ _ 0 0 0 true true); [cbn; lia|reflexivity].
Qed.

Lemma spsc_fifo_no_loss_witness :
  popped demo_sys = take 0 (pushed demo_sys) ∧
  Z.of_nat (length (pushed demo_sys)) - Z.of_nat (length (popped demo_sys)) <= 2 ∧
  ∀ k x, (0 <= k)%nat → pushed demo_sys !! k = Some x →
    buf (ring demo_sys) !! ring_slot 2 (u64 (Z.of_nat k)) = Some x.
Proof. apply (spsc_fifo_no_loss 2 false demo_sys); [reflexivity|lia|apply demo_reachable]. Defined.

Lemma spsc_no_data_race_witness :
  ring_slot 2 (tail (ring demo_sys)) ≠ ring_slot 2 (head (ring demo_sys)).
Proof.
  apply (spsc_no_data_race 2 false demo_sys 8);
    [reflexivity|lia|apply demo_reachable|reflexivity|reflexivity].
Defined.

Lemma spsc_full_empty_exact_witness :
  let inflight := Z.of_nat (length (pushed demo_sys)) - Z.of_nat (length (popped demo_sys)) in
  (seen_head demo_sys <= 0 <= Z.of_nat (length (popped demo_sys)) →
   push_check 2 false (u64 0) (ring demo_sys) = (true, true, ring demo_sys) →
   (true = true → inflight < 2) ∧
   (0 = Z.of_nat (length (popped demo_sys)) → true = false → inflight = 2)) ∧
  (seen_tail demo_sys <= 0 <= Z.of_nat (length (pushed demo_sys)) →
   pop_check false (u64 0) (ring demo_sys) = (true, true, ring demo_sys) →
   (true = true → 0 < inflight) ∧
   (0 = Z.of_nat (length (pushed demo_sys)) → true = false → inflight = 0)).
Proof.
  apply (spsc_full_empty_exact 2 false demo_sys 0 true true (ring demo_sys));
    [reflexivity|lia|apply demo_reachable].
Defined.

Lemma spsc_sequential_refines_queue_witness :
  (ring_run 2 true [OpPush 1; OpPush 2; OpPush 3; OpPop; OpPush 4; OpPop; OpPop; OpPop] (ring_init 2)).1 =
  (queue_run 2 [OpPush 1; OpPush 2; OpPush 3; OpPop; OpPush 4; OpPop; OpPop; OpPop] []).1.
Proof. apply (spsc_sequential_refines_queue 2 true); [reflexivity|lia]. Defined.
