(* ===== verification/WeakMemory.v ===== *)
(** * WeakMemory: the accesses the threads make, under the C++ memory model

    An operational presentation of the fragment of the C++ memory model the sources use:
    atomic cursors with relaxed, acquire and release accesses, and ordinary objects.

    An atomic location is the list of the values stored to it, in modification order, each
    with the view its store released.  A thread has a view: for each location the latest
    store it is aware of, and for each thread the number of that thread's ordinary accesses
    that happen before its next action.  A load may return any store from the one the
    thread is aware of on; an acquire load of a release store takes over the view of the
    store.  An ordinary object remembers its last write and each thread's last read; an
    access that is not ordered after the conflicting ones is a data race, hence undefined
    behaviour, and the operation has no result.

    Stores are appended, which is the modification order when one thread stores to each
    location or when all stores are read-modify-writes. *)

From stdpp Require Import base numbers list functions.
From Stdlib Require Import ZArith Lia.
From S2P Require Import Prelude.

Inductive memory_order := relaxed | acquire | release.

Section Memory.
Context {Loc Tid : Type} `{!EqDecision Loc, !EqDecision Tid}.

(** ** Views *)

Record View := mkView { v_at : Loc → nat; v_clk : Tid → nat }.

Definition view_bot : View := mkView (λ _, 0) (λ _, 0).

#[export] Instance view_join : Join View :=
  λ v w, mkView (λ l, v_at v l `max` v_at w l) (λ t, v_clk v t `max` v_clk w t).

#[export] Instance view_le : SqSubsetEq View :=
  λ v w, (∀ l, v_at v l ≤ v_at w l) ∧ (∀ t, v_clk v t ≤ v_clk w t).

#[export] Instance view_le_preorder : PreOrder (⊑@{View}).
Proof.
  split; [by split|]. intros u v w [A B] [C D].
  split; [intros l; specialize (A l); specialize (C l)|intros t; specialize (B t); specialize (D t)]; lia.
Qed.

Lemma view_join_l (v w : View) : v ⊑ v ⊔ w.
Proof. split; intros; cbn; lia. Qed.
Lemma view_join_r (v w : View) : w ⊑ v ⊔ w.
Proof. split; intros; cbn; lia. Qed.
Lemma view_join_lub (u v w : View) : u ⊑ w → v ⊑ w → u ⊔ v ⊑ w.
Proof.
  intros [A B] [C D]. split; [intros l; specialize (A l); specialize (C l)|intros t; specialize (B t); specialize (D t)];
    cbn; lia.
Qed.

(** ** Atomic locations *)

Record Store := mkStore { s_val : Z; s_view : View }.

Definition Hist := list Store.

(** The thread is aware of store [n] of [l]. *)
Definition aware (l : Loc) (n : nat) (v : View) : View :=
  mkView (<[l := n `max` v_at v l]> (v_at v)) (v_clk v).

Definition acquires (o : memory_order) : bool := match o with acquire => true | _ => false end.
Definition releases (o : memory_order) : bool := match o with release => true | _ => false end.

(** A load that returns store [n], if the thread may still read it. *)
Definition load (o : memory_order) (l : Loc) (n : nat) (h : Hist) (v : View) : option (Z * View) :=
  if decide (v_at v l ≤ n) then
    s ← h !! n;
    Some (s_val s, aware l n (if acquires o then v ⊔ s_view s else v))
  else None.

Definition store (o : memory_order) (l : Loc) (x : Z) (h : Hist) (v : View) : Hist * View :=
  let v' := aware l (length h) v in
  (h ++ [mkStore x (if releases o then v' else aware l (length h) view_bot)], v').

(** A read-modify-write takes the last store; what an earlier store of the location
    released stays released by it. *)
Definition fetch_modify (o : memory_order) (l : Loc) (f : Z → Z) (h : Hist) (v : View)
    : option (Z * Hist * View) :=
  s ← h !! pred (length h);
  let v' := aware l (length h) (if acquires o then v ⊔ s_view s else v) in
  Some (s_val s,
        h ++ [mkStore (f (s_val s)) ((if releases o then v' else aware l (length h) view_bot) ⊔ s_view s)], v').

(** ** Ordinary objects *)

Record Cell (T : Type) := mkCell { c_val : T; c_wt : Tid; c_wc : nat; c_rc : Tid → nat }.
Arguments mkCell {T}.
Arguments c_val {T}.
Arguments c_wt {T}.
Arguments c_wc {T}.
Arguments c_rc {T}.

(** The next access of thread [t]. *)
Definition tick (t : Tid) (v : View) : View := mkView (v_at v) (<[t := S (v_clk v t)]> (v_clk v)).

(** The last write happens before the next action of a thread with view [v]. *)
Definition write_seen {T} (c : Cell T) (v : View) : bool := bool_decide (c_wc c ≤ v_clk v (c_wt c)).

(** So does every read, for the threads in [ts]. *)
Definition reads_seen {T} (ts : list Tid) (c : Cell T) (v : View) : bool :=
  forallb (λ t, bool_decide (c_rc c t ≤ v_clk v t)) ts.

Definition na_read {T} (t : Tid) (c : Cell T) (v : View) : option (T * Cell T * View) :=
  if write_seen c v then
    Some (c_val c, mkCell (c_val c) (c_wt c) (c_wc c) (<[t := S (v_clk v t)]> (c_rc c)), tick t v)
  else None.

Definition na_write {T} (ts : list Tid) (t : Tid) (x : T) (c : Cell T) (v : View) : option (Cell T * View) :=
  if write_seen c v && reads_seen ts c v then
    Some (mkCell x t (S (v_clk v t)) (c_rc c), tick t v)
  else None.

(** ** Facts *)

Lemma aware_le l n (v : View) : v ⊑ aware l n v.
Proof.
  split; [|done]. intros l'. cbn. destruct (decide (l' = l)) as [->|];
    [rewrite fn_lookup_insert|rewrite fn_lookup_insert_ne by done]; lia.
Qed.

Lemma aware_at l n (v : View) : v_at (aware l n v) l = n `max` v_at v l.
Proof. cbn. by rewrite fn_lookup_insert. Qed.

Lemma aware_at_ne l l' n (v : View) : l' ≠ l → v_at (aware l n v) l' = v_at v l'.
Proof. intros. cbn. by rewrite fn_lookup_insert_ne. Qed.

Lemma tick_le t (v : View) : v ⊑ tick t v.
Proof.
  split; [done|]. intros t'. cbn. destruct (decide (t' = t)) as [->|];
    [rewrite fn_lookup_insert|rewrite fn_lookup_insert_ne by done]; lia.
Qed.

Lemma tick_clk t (v : View) : v_clk (tick t v) t = S (v_clk v t).
Proof. cbn. by rewrite fn_lookup_insert. Qed.

Lemma tick_clk_ne t t' (v : View) : t' ≠ t → v_clk (tick t v) t' = v_clk v t'.
Proof. intros. cbn. by rewrite fn_lookup_insert_ne. Qed.

(** What a load returns and what the thread knows after it. *)
Lemma load_Some o l n h (v v' : View) x :
  load o l n h v = Some (x, v') →
  v_at v l ≤ n ∧ ∃ s, h !! n = Some s ∧ x = s_val s ∧
    v' = aware l n (if acquires o then v ⊔ s_view s else v).
Proof.
  unfold load. case_decide; [|done]. destruct (h !! n) as [s|]; [|done]. intros [= <- <-]. eauto.
Qed.

Lemma load_le o l n h (v v' : View) x : load o l n h v = Some (x, v') → v ⊑ v'.
Proof.
  intros (_&s&_&_&->)%load_Some. etrans; [|apply aware_le]. destruct (acquires o); [apply view_join_l|done].
Qed.

(** The latest store can always be loaded. *)
Lemma load_latest o l (h : Hist) (v : View) : v_at v l < length h →
  ∃ s v', h !! pred (length h) = Some s ∧ load o l (pred (length h)) h v = Some (s_val s, v').
Proof.
  intros Hv. destruct (lookup_lt_is_Some_2 h (pred (length h))) as [s Hs]; [lia|].
  eexists s, _. split; [done|]. unfold load. rewrite decide_True by lia.
  exact (f_equal (λ x : option Store, x ≫= _) Hs).
Qed.

End Memory.

Arguments View : clear implicits.
Arguments Store : clear implicits.
Arguments Hist : clear implicits.
Arguments Cell : clear implicits.
Arguments mkCell {Tid T}.
Arguments c_val {Tid T}.
Arguments c_wt {Tid T}.
Arguments c_wc {Tid T}.
Arguments c_rc {Tid T}.
