(* ===== verification/SpscWeak.v ===== *)
(** * SpscWeak: the ring on the C++ memory model

    Models [src/src/concurrent/spsc_ring.h] access by access: every load and store of a
    cursor with its memory order, the copies into and out of the slots as ordinary
    accesses, the private far-cursor copies of [CacheFarCursor], and [size_approx] from
    either side; each step says which call it begins or ends.  The threads run on [WeakMemory.v]; a data race or an access outside the
    buffer is the outcome [None].

    The ghost lists [w_pushed] and [w_popped] are those of [SpscRing.v]; no step reads
    them. *)

From stdpp Require Import base numbers list functions.
From Stdlib Require Import ZArith Lia.
From S2P Require Import Prelude WeakMemory SpscRing.

Local Open Scope Z_scope.

(** ** Locations, threads and memory orders *)

Inductive RLoc := LTail | LHead.
Inductive RTid := TProd | TCons.

#[export] Instance RLoc_eq_dec : EqDecision RLoc.
Proof. solve_decision. Defined.
#[export] Instance RTid_eq_dec : EqDecision RTid.
Proof. solve_decision. Defined.

Definition threads : list RTid := [TProd; TCons].

(** The orders of the four accesses that synchronise. *)
Record Orders := mkOrders {
  push_head_load : memory_order;
  push_tail_store : memory_order;
  pop_tail_load : memory_order;
  pop_head_store : memory_order
}.

Definition ring_orders : Orders := mkOrders acquire release acquire release.

Notation RView := (View RLoc RTid).
Notation RHist := (Hist RLoc RTid).

Section Weak.
Context {T : Type} `{!Inhabited T} (Capacity : Z) (CacheFarCursor : bool) (ord : Orders).

(** ** The threads

    The producer is outside the ring, has loaded its cursor [t], has found room, or has
    filled the slot; in [size_approx] it has loaded the tail, and then holds the result. *)
Inductive WProd :=
  | PpIdle
  | PpCheck (x : T) (t : Z)
  | PpWrite (x : T) (t : Z)
  | PpStore (x : T) (t : Z)
  | PpSize (t : Z)
  | PpSized (d : Z).

Inductive WCons :=
  | CpIdle
  | CpCheck (h : Z)
  | CpRead (h : Z)
  | CpFree (h : Z) (x : T)
  | CpSize (t : Z)
  | CpSized (d : Z).

Record Weak := mkWeak {
  w_tail : RHist;
  w_head : RHist;
  w_cells : list (Cell RTid T);
  w_pv : RView;
  w_ppc : WProd;
  w_cached_head : Z;
  w_cv : RView;
  w_cpc : WCons;
  w_cached_tail : Z;
  w_pushed : list T;
  w_popped : list T
}.

(** Both threads start after the ring has been constructed. *)
Definition zero_cell : Cell RTid T := mkCell inhabitant TProd 0%nat (λ _, 0%nat).

Definition weak_init : Weak :=
  mkWeak [mkStore 0 view_bot] [mkStore 0 view_bot] (replicate (Z.to_nat Capacity) zero_cell)
    view_bot PpIdle 0 view_bot CpIdle 0 [] [].

(** ** The calls

    What a step shows to the code around the ring: a call begins or returns. *)
Inductive RingEvent :=
  | CallPush (x : T)
  | RetPush (ok : bool)
  | CallPop
  | RetPop (out : option T)
  | CallSize (t : RTid)
  | RetSize (t : RTid) (d : Z)
  | Silent.

(** ** The slots *)

(** [buf_[t & kMask] = item] *)
Definition slot_write (x : T) (t : Z) (cells : list (Cell RTid T)) (v : RView)
    : option (list (Cell RTid T) * RView) :=
  let i := ring_slot Capacity t in
  c ← cells !! i;
  '(c', v') ← na_write threads TProd x c v;
  Some (<[i := c']> cells, v').

(** [out = buf_[h & kMask]] *)
Definition slot_read (h : Z) (cells : list (Cell RTid T)) (v : RView)
    : option (T * list (Cell RTid T) * RView) :=
  let i := ring_slot Capacity h in
  c ← cells !! i;
  '(x, c', v') ← na_read TCons c v;
  Some (x, <[i := c']> cells, v').

(** ** The steps *)

Inductive wstep : Weak → RingEvent → option Weak → Prop :=
  (** [try_push(x)]: [t = tail.load(relaxed)] *)
  | ws_push_begin tl hd cs pv ch cv c ct ps qs x n t pv' :
      load relaxed LTail n tl pv = Some (t, pv') →
      wstep (mkWeak tl hd cs pv PpIdle ch cv c ct ps qs)
            (CallPush x)
            (Some (mkWeak tl hd cs pv' (PpCheck x t) ch cv c ct ps qs))
  (** the cached head says there is room *)
  | ws_push_cached tl hd cs pv ch cv c ct ps qs x t :
      CacheFarCursor = true → (Capacity <=? t -u ch) = false →
      wstep (mkWeak tl hd cs pv (PpCheck x t) ch cv c ct ps qs)
            Silent
            (Some (mkWeak tl hd cs pv (PpWrite x t) ch cv c ct ps qs))
  (** [head.load(acquire)] and the test; a full ring makes the call return false *)
  | ws_push_load tl hd cs pv ch cv c ct ps qs x t n far pv' :
      (CacheFarCursor = true → (Capacity <=? t -u ch) = true) →
      load (push_head_load ord) LHead n hd pv = Some (far, pv') →
      wstep (mkWeak tl hd cs pv (PpCheck x t) ch cv c ct ps qs)
            (if Capacity <=? t -u far then RetPush false else Silent)
            (Some (mkWeak tl hd cs pv' (if Capacity <=? t -u far then PpIdle else PpWrite x t)
                     (if CacheFarCursor then far else ch) cv c ct ps qs))
  | ws_push_write tl hd cs pv ch cv c ct ps qs x t :
      wstep (mkWeak tl hd cs pv (PpWrite x t) ch cv c ct ps qs)
            Silent
            ('(cs', pv') ← slot_write x t cs pv;
             Some (mkWeak tl hd cs' pv' (PpStore x t) ch cv c ct ps qs))
  (** [tail.store(t + 1, release)] *)
  | ws_push_store tl hd cs pv ch cv c ct ps qs x t tl' pv' :
      store (push_tail_store ord) LTail (t +u 1) tl pv = (tl', pv') →
      wstep (mkWeak tl hd cs pv (PpStore x t) ch cv c ct ps qs)
            (RetPush true)
            (Some (mkWeak tl' hd cs pv' PpIdle ch cv c ct (ps ++ [x]) qs))
  (** [try_pop]: [h = head.load(relaxed)] *)
  | ws_pop_begin tl hd cs pv p ch cv ct ps qs n h cv' :
      load relaxed LHead n hd cv = Some (h, cv') →
      wstep (mkWeak tl hd cs pv p ch cv CpIdle ct ps qs)
            CallPop
            (Some (mkWeak tl hd cs pv p ch cv' (CpCheck h) ct ps qs))
  | ws_pop_cached tl hd cs pv p ch cv ct ps qs h :
      CacheFarCursor = true → (h =? ct) = false →
      wstep (mkWeak tl hd cs pv p ch cv (CpCheck h) ct ps qs)
            Silent
            (Some (mkWeak tl hd cs pv p ch cv (CpRead h) ct ps qs))
  | ws_pop_load tl hd cs pv p ch cv ct ps qs h n far cv' :
      (CacheFarCursor = true → (h =? ct) = true) →
      load (pop_tail_load ord) LTail n tl cv = Some (far, cv') →
      wstep (mkWeak tl hd cs pv p ch cv (CpCheck h) ct ps qs)
            (if h =? far then RetPop None else Silent)
            (Some (mkWeak tl hd cs pv p ch cv' (if h =? far then CpIdle else CpRead h)
                     (if CacheFarCursor then far else ct) ps qs))
  | ws_pop_read tl hd cs pv p ch cv ct ps qs h :
      wstep (mkWeak tl hd cs pv p ch cv (CpRead h) ct ps qs)
            Silent
            ('(x, cs', cv') ← slot_read h cs cv;
             Some (mkWeak tl hd cs' pv p ch cv' (CpFree h x) ct ps qs))
  | ws_pop_store tl hd cs pv p ch cv ct ps qs h x hd' cv' :
      store (pop_head_store ord) LHead (h +u 1) hd cv = (hd', cv') →
      wstep (mkWeak tl hd cs pv p ch cv (CpFree h x) ct ps qs)
            (RetPop (Some x))
            (Some (mkWeak tl hd' cs pv p ch cv' CpIdle ct ps (qs ++ [x])))
  (** [size_approx] of the producer and of the consumer *)
  | ws_push_size tl hd cs pv ch cv c ct ps qs n t pv' :
      load relaxed LTail n tl pv = Some (t, pv') →
      wstep (mkWeak tl hd cs pv PpIdle ch cv c ct ps qs)
            (CallSize TProd)
            (Some (mkWeak tl hd cs pv' (PpSize t) ch cv c ct ps qs))
  | ws_push_sized tl hd cs pv ch cv c ct ps qs n t h pv' :
      load relaxed LHead n hd pv = Some (h, pv') →
      wstep (mkWeak tl hd cs pv (PpSize t) ch cv c ct ps qs)
            Silent
            (Some (mkWeak tl hd cs pv' (PpSized (size_approx t h)) ch cv c ct ps qs))
  | ws_push_size_done tl hd cs pv ch cv c ct ps qs d :
      wstep (mkWeak tl hd cs pv (PpSized d) ch cv c ct ps qs)
            (RetSize TProd d)
            (Some (mkWeak tl hd cs pv PpIdle ch cv c ct ps qs))
  | ws_pop_size tl hd cs pv p ch cv ct ps qs n t cv' :
      load relaxed LTail n tl cv = Some (t, cv') →
      wstep (mkWeak tl hd cs pv p ch cv CpIdle ct ps qs)
            (CallSize TCons)
            (Some (mkWeak tl hd cs pv p ch cv' (CpSize t) ct ps qs))
  | ws_pop_sized tl hd cs pv p ch cv ct ps qs n t h cv' :
      load relaxed LHead n hd cv = Some (h, cv') →
      wstep (mkWeak tl hd cs pv p ch cv (CpSize t) ct ps qs)
            Silent
            (Some (mkWeak tl hd cs pv p ch cv' (CpSized (size_approx t h)) ct ps qs))
  | ws_pop_size_done tl hd cs pv p ch cv ct ps qs d :
      wstep (mkWeak tl hd cs pv p ch cv (CpSized d) ct ps qs)
            (RetSize TCons d)
            (Some (mkWeak tl hd cs pv p ch cv CpIdle ct ps qs)).

Inductive wreach : option Weak → Prop :=
  | wreach_init : wreach (Some weak_init)
  | wreach_step w e w' : wreach (Some w) → wstep w e w' → wreach w'.

End Weak.

Arguments Weak : clear implicits.
Arguments WProd : clear implicits.
Arguments WCons : clear implicits.
Arguments RingEvent : clear implicits.
Arguments Silent {T}.
Arguments CallPop {T}.
Arguments RetPush {T}.
Arguments CallSize {T}.
Arguments RetSize {T}.
