(* ===== verification/SpscWeakProofs.v ===== *)
(** * SpscWeak: no data race, and a refinement of the interleaving model

    With the memory orders of the source, no execution of the two threads has a data race
    or an access outside the buffer, and every execution is one of the interleaving model
    of [SpscRing.v]: the acquire and release accesses make the slots behave as if the
    threads took turns.  Without them it is not so. *)

From stdpp Require Import base numbers list functions.
From Stdlib Require Import ZArith Lia.
From S2P Require Import Prelude WeakMemory SpscRing SpscRingProofs SpscWeak.

Local Open Scope nat_scope.

(** ** Stores and views

    [cnt l] is the number of times cursor [l] has been stored. *)

Definition counts (np nq : nat) (l : RLoc) : nat := match l with LTail => np | LHead => nq end.

(** The stores of a cursor: the counter values in order, released with views that do not
    run ahead. *)
Definition hist_ok (l : RLoc) (h : RHist) (cnt : RLoc → nat) : Prop :=
  length h = S (cnt l) ∧ ∀ m s, h !! m = Some s →
    s_val s = u64 (Z.of_nat m) ∧ ∀ l', v_at (s_view s) l' ≤ cnt l'.

(** The view of a thread that stores [own] and loads [far]; [seen] is the store of [far]
    it acquired last. *)
Definition side_view (own far : RLoc) (hfar : RHist) (v : RView) (cnt : RLoc → nat) (seen : nat) : Prop :=
  v_at v own = cnt own ∧ seen ≤ v_at v far ≤ cnt far ∧ ∃ s, hfar !! seen = Some s ∧ s_view s ⊑ v.

Lemma hist_ok_mono l h cnt cnt' :
  hist_ok l h cnt → cnt' l = cnt l → (∀ l', cnt l' ≤ cnt' l') → hist_ok l h cnt'.
Proof.
  intros [Hl Hs] He Hle. split; [by rewrite He|]. intros m s Hm. destruct (Hs m s Hm) as [Hv Ha].
  split; [done|]. intros l'. specialize (Ha l'). specialize (Hle l'). lia.
Qed.

Section Side.
Context (own far : RLoc) (Hne : own ≠ far).
Implicit Types (v : RView) (h hfar : RHist) (cnt : RLoc → nat).

Lemma side_load_own hfar v cnt seen n h x v' :
  side_view own far hfar v cnt seen → hist_ok own h cnt → load relaxed own n h v = Some (x, v') →
  x = u64 (Z.of_nat (cnt own)) ∧ side_view own far hfar v' cnt seen ∧ v_clk v' = v_clk v.
Proof using Hne.
  intros (Ho&Hf&s0&Hs0&Hv) [Hlen Hvals] Hl. pose proof (load_le _ _ _ _ _ _ _ Hl) as Hle.
  apply load_Some in Hl as (Hn&s&Hs&->&->). cbn [acquires] in *.
  assert (n = cnt own) as -> by (apply lookup_lt_Some in Hs; lia).
  split; [by apply Hvals|]. split; [|done]. split; [rewrite aware_at; lia|].
  split; [by rewrite aware_at_ne|]. exists s0. split; [done|]. by etrans.
Qed.

Lemma side_load_far_relaxed hfar v cnt seen n x v' :
  side_view own far hfar v cnt seen → hist_ok far hfar cnt → load relaxed far n hfar v = Some (x, v') →
  seen ≤ n ≤ cnt far ∧ x = u64 (Z.of_nat n) ∧ side_view own far hfar v' cnt seen ∧ v_clk v' = v_clk v.
Proof using Hne.
  intros (Ho&Hf&s0&Hs0&Hv) [Hlen Hvals] Hl. pose proof (load_le _ _ _ _ _ _ _ Hl) as Hle.
  apply load_Some in Hl as (Hn&s&Hs&->&->). cbn [acquires] in *. pose proof (lookup_lt_Some _ _ _ Hs) as Hlt.
  split; [lia|]. split; [by apply Hvals|]. split; [|done]. split; [by rewrite aware_at_ne|].
  split; [rewrite aware_at; lia|]. exists s0. split; [done|]. by etrans.
Qed.

Lemma side_load_far_acquire hfar v cnt seen n x v' :
  side_view own far hfar v cnt seen → hist_ok far hfar cnt → load acquire far n hfar v = Some (x, v') →
  seen ≤ n ≤ cnt far ∧ x = u64 (Z.of_nat n) ∧ side_view own far hfar v' cnt n ∧ v ⊑ v'.
Proof using Hne.
  intros (Ho&Hf&s0&Hs0&Hv) [Hlen Hvals] Hl. pose proof (load_le _ _ _ _ _ _ _ Hl) as Hle.
  apply load_Some in Hl as (Hn&s&Hs&->&->). cbn [acquires] in *.
  pose proof (lookup_lt_Some _ _ _ Hs) as Hlt. destruct (Hvals n s Hs) as [Hx Ha].
  pose proof (Ha own) as A1. pose proof (Ha far) as A2.
  split; [lia|]. split; [done|]. split; [|done]. split; [rewrite aware_at_ne by done; cbn; lia|].
  split; [rewrite aware_at; cbn; lia|]. exists s. split; [done|]. etrans; [apply view_join_r|apply aware_le].
Qed.

Lemma side_tick t hfar v cnt seen : side_view own far hfar v cnt seen → side_view own far hfar (tick t v) cnt seen.
Proof using.
  intros (Ho&Hf&s0&Hs0&Hv). split; [done|]. split; [done|]. exists s0. split; [done|].
  etrans; [done|apply tick_le].
Qed.

(** The other thread stores its cursor. *)
Lemma side_far_grows hfar v cnt cnt' seen s :
  side_view own far hfar v cnt seen → cnt' own = cnt own → cnt far ≤ cnt' far →
  side_view own far (hfar ++ [s]) v cnt' seen.
Proof using.
  intros (Ho&Hf&s0&Hs0&Hv) E1 E2. split; [congruence|]. split; [lia|]. exists s0. split; [|done].
  by apply lookup_app_l_Some.
Qed.

(** The thread stores its own cursor. *)
Lemma side_store o hfar v cnt cnt' seen h x h' v' :
  side_view own far hfar v cnt seen → hist_ok own h cnt →
  cnt' own = S (cnt own) → cnt' far = cnt far → x = u64 (Z.of_nat (S (cnt own))) → releases o = true →
  store o own x h v = (h', v') →
  h' = h ++ [mkStore x v'] ∧ v ⊑ v' ∧ v_clk v' = v_clk v ∧
  side_view own far hfar v' cnt' seen ∧ hist_ok own h' cnt'.
Proof using Hne.
  intros (Ho&Hf&s0&Hs0&Hv) [Hlen Hvals] E1 E2 Hx Hr. unfold store. rewrite Hr. intros [= <- <-].
  assert (Hat : ∀ l, v_at (aware own (length h) v) l ≤ cnt' l).
  { intros l. destruct (decide (l = own)) as [->|Hl]; [rewrite aware_at; lia|]. rewrite aware_at_ne by done.
    assert (l = far) as -> by (destruct l, own, far; done). lia. }
  split; [done|]. split; [apply aware_le|]. split; [done|]. split.
  - split; [rewrite aware_at; lia|]. split; [rewrite aware_at_ne by done; lia|].
    exists s0. split; [done|]. etrans; [done|apply aware_le].
  - split; [rewrite length_app; cbn; lia|]. intros m s [Hm|[Hm Hs]]%lookup_app_Some.
    + destruct (Hvals m s Hm) as [Hval Ha]. split; [done|]. intros l'. specialize (Ha l').
      assert (cnt l' ≤ cnt' l'); [|lia]. destruct (decide (l' = own)) as [->|Hl]; [lia|].
      assert (l' = far) as -> by (destruct l', own, far; done). lia.
    + apply list_lookup_singleton_Some in Hs as [Hm0 <-]. split; [|done]. cbn. rewrite Hx. do 2 f_equal. lia.
Qed.

End Side.

(** ** When a slot was last accessed *)

Section Proofs.
Context {T : Type} `{!Inhabited T} (cap : Z) (cache : bool).
Hypothesis Hcap : pow2_assert cap = true.
Hypothesis Hmax : (cap <= 2 ^ 63)%Z.

(** Access [c] of thread [t] to slot [i] was for an item [k] below [lim], and every store
    of the thread's cursor after that item carries it. *)
Definition stamped (c : nat) (t : RTid) (h : RHist) (i lim : nat) : Prop :=
  c = 0 ∨ ∃ k, item_slot cap k = i ∧ k < lim ∧
    ∀ m s, k < m → h !! m = Some s → c ≤ v_clk (s_view s) t.

Lemma stamped_mono c t h i lim lim' : stamped c t h i lim → lim ≤ lim' → stamped c t h i lim'.
Proof using. intros [->|(k&Hk&Hl&Hs)] Hle; [by left|]. right. exists k. split; [done|]. split; [lia|done]. Qed.

Lemma stamped_store c t h i lim s :
  stamped c t h i lim → c ≤ v_clk (s_view s) t → stamped c t (h ++ [s]) i lim.
Proof using.
  intros [->|(k&Hk&Hl&Hs)] Hc; [by left|]. right. exists k. split; [done|]. split; [done|].
  intros m s' Hm [Hm'|[_ Hm']]%lookup_app_Some; [by eapply Hs|].
  by apply list_lookup_singleton_Some in Hm' as [_ <-].
Qed.

(** A thread that acquired store [n] knows of the access, if [n] came after the item. *)
Lemma stamped_seen c t h i lim n s (v : RView) :
  stamped c t h i lim → h !! n = Some s → s_view s ⊑ v →
  (∀ k, item_slot cap k = i → k < lim → k < n) → c ≤ v_clk v t.
Proof using.
  intros [->|(k&Hk&Hl&Hs)] Hn [_ Hv] Hlt; [lia|]. specialize (Hs n s (Hlt k Hk Hl) Hn). specialize (Hv t). lia.
Qed.

(** The new access, before its cursor is stored. *)
Lemma stamped_new c t h k lim : length h = S k → k < lim → stamped c t h (item_slot cap k) lim.
Proof using.
  intros Hl Hk. right. exists k. split; [done|]. split; [done|]. intros m s Hm Hs.
  apply lookup_lt_Some in Hs. lia.
Qed.

Record cell_ok (tl hd : RHist) (pv cv : RView) (wl rl : nat) (i : nat) (c : Cell RTid T) : Prop := {
  ck_wt : c_wt c = TProd;
  ck_wc : c_wc c ≤ v_clk pv TProd;
  ck_w : stamped (c_wc c) TProd tl i wl;
  ck_rp : c_rc c TProd = 0;
  ck_rc : c_rc c TCons ≤ v_clk cv TCons;
  ck_r : stamped (c_rc c TCons) TCons hd i rl
}.

(** ** The simulation *)

Definition abs_p (p : WProd T) : ProdPc T :=
  match p with PpWrite x _ => PWrite x | PpStore x _ => PPublish x | _ => PIdle end.
Definition abs_c (c : WCons T) : ConsPc T :=
  match c with CpRead _ => CRead | CpFree _ x => CFree x | _ => CIdle end.

Definition storing (p : WProd T) : nat := match p with PpStore _ _ => 1 | _ => 0 end.
Definition freeing (c : WCons T) : nat := match c with CpFree _ _ => 1 | _ => 0 end.

(** The local variables of the two threads. *)
Definition prod_at (np : nat) (p : WProd T) : Prop :=
  match p with
  | PpIdle => True
  | PpCheck _ t | PpWrite _ t | PpStore _ t | PpSize t => t = u64 (Z.of_nat np)
  | PpSized d => (0 <= d <= cap)%Z
  end.
Definition cons_at (np nq : nat) (c : WCons T) : Prop :=
  match c with
  | CpIdle => True
  | CpCheck h | CpRead h | CpFree h _ => h = u64 (Z.of_nat nq)
  | CpSize t => ∃ m, t = u64 (Z.of_nat m) ∧ nq ≤ m ≤ np
  | CpSized d => (0 <= d <= cap)%Z
  end.

Record sim (w : Weak T) (s : Sys T) : Prop := {
  sm_pushed : pushed s = w_pushed w;
  sm_popped : popped s = w_popped w;
  sm_ppc : ppc s = abs_p (w_ppc w);
  sm_cpc : cpc s = abs_c (w_cpc w);
  sm_buf : buf (ring s) = c_val <$> w_cells w;
  sm_ch : cached_head (ring s) = w_cached_head w;
  sm_ct : cached_tail (ring s) = w_cached_tail w;
  sm_pp : prod_at (length (w_pushed w)) (w_ppc w);
  sm_cp : cons_at (length (w_pushed w)) (length (w_popped w)) (w_cpc w);
  sm_tail : hist_ok LTail (w_tail w) (counts (length (w_pushed w)) (length (w_popped w)));
  sm_head : hist_ok LHead (w_head w) (counts (length (w_pushed w)) (length (w_popped w)));
  sm_pv : side_view LTail LHead (w_head w) (w_pv w) (counts (length (w_pushed w)) (length (w_popped w)))
            (Z.to_nat (seen_head s));
  sm_cv : side_view LHead LTail (w_tail w) (w_cv w) (counts (length (w_pushed w)) (length (w_popped w)))
            (Z.to_nat (seen_tail s));
  sm_cells : ∀ i c, w_cells w !! i = Some c →
    cell_ok (w_tail w) (w_head w) (w_pv w) (w_cv w)
      (length (w_pushed w) + storing (w_ppc w)) (length (w_popped w) + freeing (w_cpc w)) i c
}.

Lemma sim_init : sim (weak_init cap) (sys_init cap).
Proof using.
  split; try done; cbn.
  - by rewrite fmap_replicate.
  - split; [done|]. intros [|m] s; cbn; [|done]. intros [= <-]. split; [done|]. intros; cbn; lia.
  - split; [done|]. intros [|m] s; cbn; [|done]. intros [= <-]. split; [done|]. intros; cbn; lia.
  - split; [done|]. split; [done|]. by exists (mkStore 0 view_bot).
  - split; [done|]. split; [done|]. by exists (mkStore 0 view_bot).
  - intros i c [-> _]%lookup_replicate. split; try done; by left.
Qed.

(** A view that grows keeps the slots in order. *)
Lemma cell_ok_views tl hd (pv cv pv' cv' : RView) wl rl i c :
  cell_ok tl hd pv cv wl rl i c → v_clk pv TProd ≤ v_clk pv' TProd → v_clk cv TCons ≤ v_clk cv' TCons →
  cell_ok tl hd pv' cv' wl rl i c.
Proof using. intros [? ? ? ? ? ?] ? ?. split; try done; lia. Qed.

(** *** Steps the interleaving model does not have *)

Lemma sim_prod_local tl hd cs pv p ch cv c ct ps qs s pv' p' :
  sim (mkWeak tl hd cs pv p ch cv c ct ps qs) s →
  side_view LTail LHead hd pv' (counts (length ps) (length qs)) (Z.to_nat (seen_head s)) →
  v_clk pv' = v_clk pv → abs_p p' = abs_p p → storing p' = storing p → prod_at (length ps) p' →
  sim (mkWeak tl hd cs pv' p' ch cv c ct ps qs) s.
Proof using.
  intros [S1 S2 S3 S4 S5 S6 S7 S8 S9 S10 S11 S12 S13 S14] Hv Hc Ha Hst Hp. cbn in *.
  split; cbn; try done; [by rewrite Ha|]. intros i c0 Hi. rewrite Hst.
  eapply cell_ok_views; [by apply S14| |done]. by rewrite Hc.
Qed.

Lemma sim_cons_local tl hd cs pv p ch cv c ct ps qs s cv' c' :
  sim (mkWeak tl hd cs pv p ch cv c ct ps qs) s →
  side_view LHead LTail tl cv' (counts (length ps) (length qs)) (Z.to_nat (seen_tail s)) →
  v_clk cv' = v_clk cv → abs_c c' = abs_c c → freeing c' = freeing c → cons_at (length ps) (length qs) c' →
  sim (mkWeak tl hd cs pv p ch cv' c' ct ps qs) s.
Proof using.
  intros [S1 S2 S3 S4 S5 S6 S7 S8 S9 S10 S11 S12 S13 S14] Hv Hc Ha Hst Hp. cbn in *.
  split; cbn; try done; [by rewrite Ha|]. intros i c0 Hi. rewrite Hst.
  eapply cell_ok_views; [by apply S14|done|]. by rewrite Hc.
Qed.

(** The depth either side computes. *)
Lemma size_approx_bounds a b : (0 <= a - b <= cap)%Z → (0 <= size_approx (u64 a) (u64 b) <= cap)%Z.
Proof using Hmax. intros H. unfold size_approx. rewrite u64_sub_u64; lia. Qed.

(** *** The tests *)

Lemma sim_push_check tl hd cs pv ch cv c ct ps qs s x t n far pv' loaded :
  sim (mkWeak tl hd cs pv (PpCheck x t) ch cv c ct ps qs) s → ring_inv cap cache s →
  (if loaded : bool
   then (cache = true → (cap <=? t -u ch)%Z = true) ∧ load acquire LHead n hd pv = Some (far, pv')
   else cache = true ∧ (cap <=? t -u ch)%Z = false ∧ pv' = pv) →
  ∃ s', step cap cache s s' ∧
    sim (mkWeak tl hd cs pv'
           (if loaded && (cap <=? t -u far)%Z then PpIdle else PpWrite x t)
           (if loaded && cache then far else ch) cv c ct ps qs) s'.
Proof using Hcap Hmax.
  intros S I Hl. destruct s as [r p c0 ps0 qs0 sh st].
  destruct S as [S1 S2 S3 S4 S5 S6 S7 S8 S9 S10 S11 S12 S13 S14]. cbn in *. subst ps0 qs0 p c0 ch ct.
  pose proof (ri_seen_head _ _ _ I) as Hsh. pose proof (ri_tail _ _ _ I) as Ht. cbn in Hsh, Ht.
  destruct loaded; cbn [andb].
  - destruct Hl as [Hc Hl]. destruct (side_load_far_acquire LTail LHead ltac:(done) _ _ _ _ _ _ _ S12 S11 Hl)
      as (Hn&->&Hv&Hle). cbn in Hn.
    exists (mkSys (if cache then mkRing (tail r) (u64 (Z.of_nat n)) (head r) (cached_tail r) (buf r) else r)
      (if negb (cap <=? t -u u64 (Z.of_nat n))%Z then PWrite x else PIdle) (abs_c c) ps qs (Z.of_nat n) st).
    split.
    + refine (step_push_check cap cache r x (abs_c c) ps qs sh st (Z.of_nat n) true
        (negb (cap <=? t -u u64 (Z.of_nat n))%Z) _ ltac:(lia) _).
      unfold push_check. rewrite Ht, S8. destruct cache; [|done]. rewrite <- S8. by rewrite Hc.
    + split; cbn; try done; try (by destruct cache).
      * by destruct (cap <=? t -u u64 (Z.of_nat n))%Z.
      * by destruct (cap <=? t -u u64 (Z.of_nat n))%Z.
      * by rewrite Nat2Z.id.
      * intros i c0 Hi. destruct Hle as [_ Hle].
        eapply cell_ok_views; [|apply Hle|done]. replace (storing _) with 0 by by destruct (cap <=? t -u u64 (Z.of_nat n))%Z.
        by apply S14.
  - destruct Hl as (Hc&Hno&->).
    exists (mkSys r (PWrite x) (abs_c c) ps qs sh st). split.
    + refine (step_push_check cap cache r x (abs_c c) ps qs sh st sh false true _ ltac:(lia) _).
      unfold push_check. rewrite Hc, Ht, <- S8, Hno. done.
    + split; cbn; try done.
Qed.

Lemma sim_pop_check tl hd cs pv p ch cv ct ps qs s h n far cv' loaded :
  sim (mkWeak tl hd cs pv p ch cv (CpCheck h) ct ps qs) s → ring_inv cap cache s →
  (if loaded : bool
   then (cache = true → (h =? ct)%Z = true) ∧ load acquire LTail n tl cv = Some (far, cv')
   else cache = true ∧ (h =? ct)%Z = false ∧ cv' = cv) →
  ∃ s', step cap cache s s' ∧
    sim (mkWeak tl hd cs pv p ch cv'
           (if loaded && (h =? far)%Z then CpIdle else CpRead h)
           (if loaded && cache then far else ct) ps qs) s'.
Proof using Hcap Hmax.
  intros S I Hl. destruct s as [r p0 c0 ps0 qs0 sh st].
  destruct S as [S1 S2 S3 S4 S5 S6 S7 S8 S9 S10 S11 S12 S13 S14]. cbn in *. subst ps0 qs0 p0 c0 ch ct.
  pose proof (ri_seen_tail _ _ _ I) as Hst. pose proof (ri_head _ _ _ I) as Hh. cbn in Hst, Hh.
  destruct loaded; cbn [andb].
  - destruct Hl as [Hc Hl]. destruct (side_load_far_acquire LHead LTail ltac:(done) _ _ _ _ _ _ _ S13 S10 Hl)
      as (Hn&->&Hv&Hle). cbn in Hn.
    exists (mkSys (if cache then mkRing (tail r) (cached_head r) (head r) (u64 (Z.of_nat n)) (buf r) else r)
      (abs_p p) (if negb (h =? u64 (Z.of_nat n))%Z then CRead else CIdle) ps qs sh (Z.of_nat n)).
    split.
    + refine (step_pop_check cap cache r (abs_p p) ps qs sh st (Z.of_nat n) true
        (negb (h =? u64 (Z.of_nat n))%Z) _ ltac:(lia) _).
      unfold pop_check. rewrite Hh, S9. destruct cache; [|done]. rewrite <- S9. by rewrite Hc.
    + split; cbn; try done; try (by destruct cache).
      * by destruct (h =? u64 (Z.of_nat n))%Z.
      * by destruct (h =? u64 (Z.of_nat n))%Z.
      * by rewrite Nat2Z.id.
      * intros i c0 Hi. destruct Hle as [_ Hle].
        eapply cell_ok_views; [|done|apply Hle]. replace (freeing _) with 0 by by destruct (h =? u64 (Z.of_nat n))%Z.
        by apply S14.
  - destruct Hl as (Hc&Hno&->).
    exists (mkSys r (abs_p p) CRead ps qs sh st). split.
    + refine (step_pop_check cap cache r (abs_p p) ps qs sh st st false true _ ltac:(lia) _).
      unfold pop_check. rewrite Hc, Hh, <- S9, Hno. done.
    + split; cbn; try done.
Qed.

(** *** The slots *)

Lemma cells_fmap_insert (cs : list (Cell RTid T)) i c c' :
  cs !! i = Some c → c_val c' = c_val c → c_val <$> <[i := c']> cs = c_val <$> cs.
Proof using.
  intros Hi Hv. rewrite list_fmap_insert, Hv. apply list_insert_id. by rewrite list_lookup_fmap, Hi.
Qed.

(** The items that ever used the slot of the next item are known to be freed. *)
Lemma slot_freed (s : Sys T) c x k :
  ring_inv cap cache s → cpc s = abs_c c → ppc s = PWrite x →
  item_slot cap k = item_slot cap (length (pushed s)) → k < length (popped s) + freeing c →
  k < Z.to_nat (seen_head s).
Proof using Hcap Hmax.
  intros I Hc Hp Hk Hlt. pose proof (ri_write _ _ _ I x (or_introl Hp)). pose proof (prefix_le _ _ _ I).
  pose proof (ri_seen_head _ _ _ I). pose proof (ri_seen_tail _ _ _ I).
  assert (k < length (pushed s)).
  { destruct c; cbn in *; try lia. pose proof (ri_read _ _ _ I (or_intror (ex_intro _ _ Hc))). lia. }
  destruct (decide (k < Z.to_nat (seen_head s))); [done|].
  apply (item_slot_inj cap Hcap Hmax) in Hk; lia.
Qed.

(** The writes of the slot of the next item to pop are known to be published. *)
Lemma slot_published (s : Sys T) p k :
  ring_inv cap cache s → ppc s = abs_p p → cpc s = CRead →
  item_slot cap k = item_slot cap (length (popped s)) → k < length (pushed s) + storing p →
  k < Z.to_nat (seen_tail s).
Proof using Hcap Hmax.
  intros I Hp Hc Hk Hlt. pose proof (ri_read _ _ _ I (or_introl Hc)). pose proof (prefix_le _ _ _ I).
  pose proof (ri_seen_head _ _ _ I). pose proof (ri_seen_tail _ _ _ I). pose proof (ri_room _ _ _ I).
  assert (Z.of_nat k - Z.of_nat (length (popped s)) < cap)%Z.
  { destruct p; cbn in *; try lia. pose proof (ri_write _ _ _ I _ (or_intror Hp)). lia. }
  destruct (decide (k < Z.to_nat (seen_tail s))); [done|].
  apply (item_slot_inj cap Hcap Hmax) in Hk; lia.
Qed.

Lemma sim_push_write tl hd cs pv ch cv c ct ps qs s x t :
  sim (mkWeak tl hd cs pv (PpWrite x t) ch cv c ct ps qs) s → ring_inv cap cache s →
  ∃ cs' pv' s', slot_write cap x t cs pv = Some (cs', pv') ∧ step cap cache s s' ∧
    sim (mkWeak tl hd cs' pv' (PpStore x t) ch cv c ct ps qs) s'.
Proof using Hcap Hmax.
  intros S I. pose proof (λ k, slot_freed s c x k I (sm_cpc _ _ S) (sm_ppc _ _ S)) as Hfree.
  destruct s as [r p c0 ps0 qs0 sh st].
  destruct S as [S1 S2 S3 S4 S5 S6 S7 S8 S9 S10 S11 S12 S13 S14]. cbn in *. subst ps0 qs0 p c0 ch ct t.
  fold (item_slot cap (length ps)).
  pose proof (ri_tail _ _ _ I) as Ht. pose proof (ri_len _ _ _ I) as Hl. cbn in Ht, Hl.
  destruct (lookup_lt_is_Some_2 cs (item_slot cap (length ps))) as [c0 Hc0].
  { rewrite <- (length_fmap c_val), <- S5, Hl. by apply item_slot_lt. }
  destruct (S14 _ _ Hc0) as [K1 K2 K3 K4 K5 K6]. destruct S12 as (V1&V2&s0&Hs0&Hv0).
  assert (Hr : c_rc c0 TCons ≤ v_clk pv TCons) by (eapply stamped_seen; [exact K6|exact Hs0|exact Hv0|exact Hfree]).
  assert (Hw : na_write threads TProd x c0 pv =
    Some (mkCell x TProd (S (v_clk pv TProd)) (c_rc c0), tick TProd pv)).
  { unfold na_write, write_seen, reads_seen. cbn. rewrite K1, K4, !bool_decide_true by (done || lia). done. }
  eexists _, _, (mkSys (push_write cap x r) (PPublish x) (abs_c c) ps qs sh st). split; [|split].
  - unfold slot_write. cbn zeta. fold (item_slot cap (length ps)). rewrite Hc0. cbn [mbind option_bind].
    rewrite Hw. reflexivity.
  - constructor.
  - split; cbn; try done.
    + by rewrite list_fmap_insert, S5, Ht.
    + apply side_tick. split; [done|]. split; [done|]. by exists s0.
    + fold (item_slot cap (length ps)). intros i c1 [(<-&<-&_)|[Hne Hi]]%list_lookup_insert_Some.
      * split; cbn; rewrite ?fn_lookup_insert; try done; try lia. apply stamped_new; [apply S10|lia].
      * destruct (S14 _ _ Hi) as [J1 J2 J3 J4 J5 J6]. split; try done.
        -- rewrite tick_clk. lia.
        -- eapply stamped_mono; [exact J3|lia].
Qed.

Lemma sim_pop_read tl hd cs pv p ch cv ct ps qs s h :
  sim (mkWeak tl hd cs pv p ch cv (CpRead h) ct ps qs) s → ring_inv cap cache s →
  ∃ x cs' cv' s', slot_read cap h cs cv = Some (x, cs', cv') ∧ step cap cache s s' ∧
    sim (mkWeak tl hd cs' pv p ch cv' (CpFree h x) ct ps qs) s'.
Proof using Hcap Hmax.
  intros S I. pose proof (λ k, slot_published s p k I (sm_ppc _ _ S) (sm_cpc _ _ S)) as Hpub.
  destruct s as [r p0 c0 ps0 qs0 sh st].
  destruct S as [S1 S2 S3 S4 S5 S6 S7 S8 S9 S10 S11 S12 S13 S14]. cbn in *. subst ps0 qs0 p0 c0 ch ct h.
  pose proof (ri_head _ _ _ I) as Hh. pose proof (ri_len _ _ _ I) as Hl. cbn in Hh, Hl.
  destruct (lookup_lt_is_Some_2 cs (item_slot cap (length qs))) as [c0 Hc0].
  { rewrite <- (length_fmap c_val), <- S5, Hl. by apply item_slot_lt. }
  destruct (S14 _ _ Hc0) as [K1 K2 K3 K4 K5 K6]. destruct S13 as (V1&V2&s0&Hs0&Hv0).
  assert (Hr : c_wc c0 ≤ v_clk cv TProd) by (eapply stamped_seen; [exact K3|exact Hs0|exact Hv0|exact Hpub]).
  assert (Hw : na_read TCons c0 cv = Some (c_val c0,
    mkCell (c_val c0) (c_wt c0) (c_wc c0) (<[TCons := S (v_clk cv TCons)]> (c_rc c0)), tick TCons cv)).
  { unfold na_read, write_seen. rewrite K1, bool_decide_true by done. done. }
  assert (Hx : c_val c0 = pop_read cap r).
  { unfold pop_read. rewrite S5, Hh. fold (item_slot cap (length qs)). by rewrite list_lookup_fmap, Hc0. }
  eexists _, _, _, (mkSys r (abs_p p) (CFree (c_val c0)) ps qs sh st). split; [|split].
  - unfold slot_read. cbn zeta. fold (item_slot cap (length qs)). rewrite Hc0. cbn [mbind option_bind].
    rewrite Hw. reflexivity.
  - rewrite Hx. constructor.
  - split; cbn; try done.
    + by rewrite (cells_fmap_insert cs _ c0).
    + apply side_tick. split; [done|]. split; [done|]. by exists s0.
    + intros i c1 [(<-&<-&_)|[Hne Hi]]%list_lookup_insert_Some.
      * split; cbn; try done; rewrite ?fn_lookup_insert; try lia. apply stamped_new; [apply S11|lia].
      * destruct (S14 _ _ Hi) as [J1 J2 J3 J4 J5 J6]. split; try done.
        -- rewrite tick_clk. lia.
        -- eapply stamped_mono; [exact J6|lia].
Qed.

(** *** The cursors *)

Lemma u64_succ n : (u64 (Z.of_nat n) +u 1)%Z = u64 (Z.of_nat (S n)).
Proof using. rewrite u64_add_one. f_equal. lia. Qed.

Lemma sim_push_store tl hd cs pv ch cv c ct ps qs s x t tl' pv' :
  sim (mkWeak tl hd cs pv (PpStore x t) ch cv c ct ps qs) s →
  store release LTail (t +u 1) tl pv = (tl', pv') →
  ∃ s', step cap cache s s' ∧ sim (mkWeak tl' hd cs pv' PpIdle ch cv c ct (ps ++ [x]) qs) s'.
Proof using.
  intros S Hst. destruct s as [r p c0 ps0 qs0 sh st].
  destruct S as [S1 S2 S3 S4 S5 S6 S7 S8 S9 S10 S11 S12 S13 S14]. cbn in *. subst ps0 qs0 p c0 ch ct t.
  set (cnt' := counts (S (length ps)) (length qs)).
  destruct (side_store LTail LHead ltac:(done) release hd pv _ cnt' _ tl _ tl' pv' S12 S10
    eq_refl eq_refl (u64_succ _) eq_refl Hst) as (->&Hle&Hclk&Hv&Hh).
  exists (mkSys (push_publish r) PIdle (abs_c c) (ps ++ [x]) qs sh st). split; [constructor|].
  assert (Hlen : length (ps ++ [x]) = S (length ps)) by (rewrite length_app; cbn; lia).
  split; cbn; rewrite ?Hlen; try done.
  - destruct c; cbn in *; try done. destruct S9 as (m&->&Hm). exists m. split; [done|lia].
  - eapply hist_ok_mono; [exact S11|done|]. intros []; cbn; lia.
  - eapply side_far_grows; [exact S13|done|cbn; lia].
  - intros i c0 Hi. destruct (S14 _ _ Hi) as [K1 K2 K3 K4 K5 K6]. split; try done; [by rewrite Hclk|].
    eapply stamped_mono; [apply stamped_store; [exact K3|cbn; by rewrite Hclk]|lia].
Qed.

Lemma sim_pop_store tl hd cs pv p ch cv ct ps qs s h x hd' cv' :
  sim (mkWeak tl hd cs pv p ch cv (CpFree h x) ct ps qs) s → ring_inv cap cache s →
  store release LHead (h +u 1) hd cv = (hd', cv') →
  ∃ s', step cap cache s s' ∧ sim (mkWeak tl hd' cs pv p ch cv' CpIdle ct ps (qs ++ [x])) s'.
Proof using.
  intros S I Hst. destruct s as [r p0 c0 ps0 qs0 sh st].
  destruct S as [S1 S2 S3 S4 S5 S6 S7 S8 S9 S10 S11 S12 S13 S14]. cbn in *. subst ps0 qs0 p0 c0 ch ct h.
  set (cnt' := counts (length ps) (S (length qs))).
  destruct (side_store LHead LTail ltac:(done) release tl cv _ cnt' _ hd _ hd' cv' S13 S11
    eq_refl eq_refl (u64_succ _) eq_refl Hst) as (->&Hle&Hclk&Hv&Hh).
  exists (mkSys (pop_free r) (abs_p p) CIdle ps (qs ++ [x]) sh st). split; [constructor|].
  assert (Hlen : length (qs ++ [x]) = S (length qs)) by (rewrite length_app; cbn; lia).
  split; cbn; rewrite ?Hlen; try done.
  - eapply hist_ok_mono; [exact S10|done|]. intros []; cbn; lia.
  - eapply side_far_grows; [exact S12|done|cbn; lia].
  - intros i c0 Hi. destruct (S14 _ _ Hi) as [K1 K2 K3 K4 K5 K6]. split; try done; [by rewrite Hclk|].
    eapply stamped_mono; [apply stamped_store; [exact K6|cbn; by rewrite Hclk]|lia].
Qed.

(** *** Every step *)

Lemma sim_step w s e w' :
  sim w s → ring_inv cap cache s → wstep cap cache ring_orders w e w' →
  ∃ w1 s1, w' = Some w1 ∧ (s1 = s ∨ step cap cache s s1) ∧ sim w1 s1.
Proof using Hcap Hmax.
  intros S I Hs. destruct Hs as
    [tl hd cs pv ch cv c ct ps qs x n t pv' Hl|tl hd cs pv ch cv c ct ps qs x t Hc Hno
    |tl hd cs pv ch cv c ct ps qs x t n far pv' Hc Hl|tl hd cs pv ch cv c ct ps qs x t
    |tl hd cs pv ch cv c ct ps qs x t tl' pv' Hst
    |tl hd cs pv p ch cv ct ps qs n h cv' Hl|tl hd cs pv p ch cv ct ps qs h Hc Hno
    |tl hd cs pv p ch cv ct ps qs h n far cv' Hc Hl|tl hd cs pv p ch cv ct ps qs h
    |tl hd cs pv p ch cv ct ps qs h x hd' cv' Hst
    |tl hd cs pv ch cv c ct ps qs n t pv' Hl|tl hd cs pv ch cv c ct ps qs n t h pv' Hl
    |tl hd cs pv ch cv c ct ps qs d|tl hd cs pv p ch cv ct ps qs n t cv' Hl
    |tl hd cs pv p ch cv ct ps qs n t h cv' Hl|tl hd cs pv p ch cv ct ps qs d].
  - destruct (side_load_own LTail LHead ltac:(done) _ _ _ _ _ _ _ _ (sm_pv _ _ S) (sm_tail _ _ S) Hl) as (->&Hv&Hk).
    eexists _, s. split; [done|]. split; [by left|]. by eapply sim_prod_local.
  - destruct (sim_push_check _ _ _ _ _ _ _ _ _ _ s x t 0 0%Z pv false S I ltac:(done)) as (s'&Hs&S'). eauto 6.
  - destruct (sim_push_check _ _ _ _ _ _ _ _ _ _ s x t n far pv' true S I ltac:(done)) as (s'&Hs&S'). eauto 6.
  - destruct (sim_push_write _ _ _ _ _ _ _ _ _ _ s x t S I) as (cs'&pv'&s'&->&Hs&S'). cbn. eauto 6.
  - destruct (sim_push_store _ _ _ _ _ _ _ _ _ _ s x t _ _ S Hst) as (s'&Hs&S'). eauto 6.
  - destruct (side_load_own LHead LTail ltac:(done) _ _ _ _ _ _ _ _ (sm_cv _ _ S) (sm_head _ _ S) Hl) as (->&Hv&Hk).
    eexists _, s. split; [done|]. split; [by left|]. by eapply sim_cons_local.
  - destruct (sim_pop_check _ _ _ _ _ _ _ _ _ _ s h 0 0%Z cv false S I ltac:(done)) as (s'&Hs&S'). eauto 6.
  - destruct (sim_pop_check _ _ _ _ _ _ _ _ _ _ s h n far cv' true S I ltac:(done)) as (s'&Hs&S'). eauto 6.
  - destruct (sim_pop_read _ _ _ _ _ _ _ _ _ _ s h S I) as (x&cs'&cv'&s'&->&Hs&S'). cbn. eauto 6.
  - destruct (sim_pop_store _ _ _ _ _ _ _ _ _ _ s h x _ _ S I Hst) as (s'&Hs&S'). eauto 6.
  - destruct (side_load_own LTail LHead ltac:(done) _ _ _ _ _ _ _ _ (sm_pv _ _ S) (sm_tail _ _ S) Hl) as (->&Hv&Hk).
    eexists _, s. split; [done|]. split; [by left|]. by eapply sim_prod_local.
  - destruct (side_load_far_relaxed LTail LHead ltac:(done) _ _ _ _ _ _ _ (sm_pv _ _ S) (sm_head _ _ S) Hl)
      as (Hn&->&Hv&Hk).
    eexists _, s. split; [done|]. split; [by left|]. eapply sim_prod_local; try done.
    pose proof (sm_pp _ _ S) as Ht. cbn in Ht. rewrite Ht. apply size_approx_bounds.
    pose proof (ri_room _ _ _ I) as Hr. pose proof (ri_seen_head _ _ _ I). pose proof (prefix_le _ _ _ I).
    rewrite (sm_pushed _ _ S), (sm_popped _ _ S) in *. cbn in *. lia.
  - eexists _, s. split; [done|]. split; [by left|]. eapply sim_prod_local; try done. apply (sm_pv _ _ S).
  - destruct (side_load_far_relaxed LHead LTail ltac:(done) _ _ _ _ _ _ _ (sm_cv _ _ S) (sm_tail _ _ S) Hl)
      as (Hn&->&Hv&Hk).
    eexists _, s. split; [done|]. split; [by left|]. eapply sim_cons_local; try done.
    exists n. split; [done|]. pose proof (ri_seen_tail _ _ _ I).
    rewrite (sm_pushed _ _ S), (sm_popped _ _ S) in *. cbn in *. lia.
  - destruct (side_load_own LHead LTail ltac:(done) _ _ _ _ _ _ _ _ (sm_cv _ _ S) (sm_head _ _ S) Hl) as (->&Hv&Hk).
    eexists _, s. split; [done|]. split; [by left|]. eapply sim_cons_local; try done.
    pose proof (sm_cp _ _ S) as (m&->&Hm). apply size_approx_bounds.
    pose proof (ri_room _ _ _ I) as Hr. pose proof (ri_seen_head _ _ _ I).
    rewrite (sm_pushed _ _ S), (sm_popped _ _ S) in *. cbn in *. lia.
  - eexists _, s. split; [done|]. split; [by left|]. eapply sim_cons_local; try done. apply (sm_cv _ _ S).
Qed.

Lemma wreach_sim o :
  wreach cap cache ring_orders o →
  ∃ w s, o = Some w ∧ reachable_sys cap cache s ∧ sim w s.
Proof using Hcap Hmax.
  induction 1 as [|w e w' _ IH Hs].
  { eexists _, _. split; [done|]. split; [constructor|apply sim_init]. }
  destruct IH as (w0&s&[= <-]&Hr&S). pose proof (reachable_inv cap cache Hcap Hmax s Hr) as I.
  destruct (sim_step w s e w' S I Hs) as (w1&s1&->&Hst&S1). exists w1, s1. split; [done|]. split; [|done].
  destruct Hst as [->|Hst]; [done|]. by eapply reach_step.
Qed.

End Proofs.

(** ** Running a schedule *)

(** One step of a thread: what it does next, with the store its load returns. *)
Inductive action (T : Type) :=
  | APush (x : T) (n : nat)
  | APushLoad (n : nat)
  | APushWrite
  | APushStore
  | APop (n : nat)
  | APopLoad (n : nat)
  | APopRead
  | APopStore
  | APopSize (n : nat)
  | APopSized (n : nat).
Arguments APush {T}.
Arguments APushLoad {T}.
Arguments APushWrite {T}.
Arguments APushStore {T}.
Arguments APop {T}.
Arguments APopLoad {T}.
Arguments APopRead {T}.
Arguments APopStore {T}.
Arguments APopSize {T}.
Arguments APopSized {T}.

Section Exec.
Context {T : Type} `{!Inhabited T} (cap : Z) (ord : Orders).

(** The steps of the ring without cached cursors; [None] if the action does not apply. *)
Definition exec (a : action T) (w : Weak T) : option (option (Weak T)) :=
  let '(mkWeak tl hd cs pv p ch cv c ct ps qs) := w in
  match a, p, c with
  | APush x n, PpIdle, _ =>
      '(t, pv') ← load relaxed LTail n tl pv;
      Some (Some (mkWeak tl hd cs pv' (PpCheck x t) ch cv c ct ps qs))
  | APushLoad n, PpCheck x t, _ =>
      '(far, pv') ← load (push_head_load ord) LHead n hd pv;
      Some (Some (mkWeak tl hd cs pv' (if (cap <=? t -u far)%Z then PpIdle else PpWrite x t) ch cv c ct ps qs))
  | APushWrite, PpWrite x t, _ =>
      Some ('(cs', pv') ← slot_write cap x t cs pv;
            Some (mkWeak tl hd cs' pv' (PpStore x t) ch cv c ct ps qs))
  | APushStore, PpStore x t, _ =>
      let '(tl', pv') := store (push_tail_store ord) LTail (t +u 1) tl pv in
      Some (Some (mkWeak tl' hd cs pv' PpIdle ch cv c ct (ps ++ [x]) qs))
  | APop n, _, CpIdle =>
      '(h, cv') ← load relaxed LHead n hd cv;
      Some (Some (mkWeak tl hd cs pv p ch cv' (CpCheck h) ct ps qs))
  | APopLoad n, _, CpCheck h =>
      '(far, cv') ← load (pop_tail_load ord) LTail n tl cv;
      Some (Some (mkWeak tl hd cs pv p ch cv' (if (h =? far)%Z then CpIdle else CpRead h) ct ps qs))
  | APopRead, _, CpRead h =>
      Some ('(x, cs', cv') ← slot_read cap h cs cv;
            Some (mkWeak tl hd cs' pv p ch cv' (CpFree h x) ct ps qs))
  | APopStore, _, CpFree h x =>
      let '(hd', cv') := store (pop_head_store ord) LHead (h +u 1) hd cv in
      Some (Some (mkWeak tl hd' cs pv p ch cv' CpIdle ct ps (qs ++ [x])))
  | APopSize n, _, CpIdle =>
      '(t, cv') ← load relaxed LTail n tl cv;
      Some (Some (mkWeak tl hd cs pv p ch cv' (CpSize t) ct ps qs))
  | APopSized n, _, CpSize t =>
      '(h, cv') ← load relaxed LHead n hd cv;
      Some (Some (mkWeak tl hd cs pv p ch cv' (CpSized (size_approx t h)) ct ps qs))
  | _, _, _ => None
  end.

Lemma exec_step a w o : exec a w = Some o → ∃ e, wstep cap false ord w e o.
Proof.
  destruct w as [tl hd cs pv p ch cv c ct ps qs].
  destruct a, p, c; cbn [exec]; try done;
    try (destruct (load _ _ _ _ _) as [[? ?]|] eqn:E; cbn [mbind option_bind]; [|done]);
    try (destruct (store _ _ _ _ _) as [? ?] eqn:E);
    intros [= <-]; eexists; try (constructor; done); econstructor; (exact E || done).
Qed.

Fixpoint exec_all (l : list (action T)) (o : option (Weak T)) : option (option (Weak T)) :=
  match l, o with
  | [], _ => Some o
  | a :: l', Some w => o' ← exec a w; exec_all l' o'
  | _ :: _, None => None
  end.

Lemma exec_all_reach l o o' : wreach cap false ord o → exec_all l o = Some o' → wreach cap false ord o'.
Proof.
  revert o. induction l as [|a l IH]; intros o Hr; cbn; [by intros [= <-]|].
  destruct o as [w|]; [|done]. destruct (exec a w) as [o1|] eqn:E; [|done]. cbn. apply IH.
  destruct (exec_step _ _ _ E) as [e He]. by eapply wreach_step.
Qed.

End Exec.

(** A push whose producer loads its own cursor after [k] stores of it and reads store [n]
    of the head, and a pop of the item after [k] pops that reads store [n] of the tail. *)
Definition a_push (x : Z) (k n : nat) : list (action Z) := [APush x k; APushLoad n; APushWrite; APushStore].
Definition a_pop (k n : nat) : list (action Z) := [APop k; APopLoad n; APopRead; APopStore].

(** A ring of two slots: the schedule fills both, pops once and reuses the freed slot. *)
Definition reuse_schedule : list (action Z) :=
  a_push 7 0 0 ++ a_push 8 1 0 ++ a_pop 0 2 ++ a_push 9 2 1 ++ a_pop 1 3.

(** ** The properties *)

(** C8: Under the C++ memory model, with the acquire and release accesses of the source,
    for both variants of the ring: no execution of the producer and the consumer has a
    data race or an access outside the buffer; every execution corresponds to one of the
    interleaving model, with the same items pushed, popped and in the slots; so what is
    popped is what was pushed first, in order, with at most [Capacity] items in flight. *)
Theorem spsc_weak_memory_safe {T} `{!Inhabited T} cap cache (o : option (Weak T)) :
  pow2_assert cap = true → (cap <= 2 ^ 63)%Z → wreach cap cache ring_orders o →
  ∃ w s, o = Some w ∧ reachable_sys cap cache s ∧
    pushed s = w_pushed w ∧ popped s = w_popped w ∧ buf (ring s) = c_val <$> w_cells w ∧
    w_popped w = take (length (w_popped w)) (w_pushed w) ∧
    (Z.of_nat (length (w_pushed w)) - Z.of_nat (length (w_popped w)) <= cap)%Z.
Proof.
  intros Hc Hm Hr. destruct (wreach_sim cap cache Hc Hm o Hr) as (w&s&->&Hs&S).
  pose proof (reachable_inv cap cache Hc Hm s Hs) as I.
  exists w, s. rewrite <- (sm_pushed _ _ _ S), <- (sm_popped _ _ _ S). repeat (split; [done||apply S||apply I|]).
  pose proof (ri_room _ _ _ I). pose proof (ri_seen_head _ _ _ I). lia.
Qed.

(** [size_approx] called by either side of the ring, while the other side runs, is
    between 0 and [Capacity], although its two loads are relaxed and may be stale: the
    difference never wraps. *)
Theorem spsc_size_approx_bounds {T} `{!Inhabited T} cap cache (w : Weak T) d :
  pow2_assert cap = true → (cap <= 2 ^ 63)%Z → wreach cap cache ring_orders (Some w) →
  w_ppc w = PpSized d ∨ w_cpc w = CpSized d → (0 <= d <= cap)%Z.
Proof.
  intros Hc Hm Hr Hd. destruct (wreach_sim cap cache Hc Hm _ Hr) as (w'&s&[= <-]&_&S).
  destruct Hd as [Hd|Hd]; [pose proof (sm_pp _ _ _ S) as H|pose proof (sm_cp _ _ _ S) as H]; by rewrite Hd in H.
Qed.

(** C9: Each of the four orders is needed: if any one of them is relaxed, a ring of two
    slots has an execution with a data race on a slot. *)
Theorem spsc_orders_needed :
  wreach 2 false (mkOrders relaxed release acquire release) (None : option (Weak Z)) ∧
  wreach 2 false (mkOrders acquire relaxed acquire release) (None : option (Weak Z)) ∧
  wreach 2 false (mkOrders acquire release relaxed release) (None : option (Weak Z)) ∧
  wreach 2 false (mkOrders acquire release acquire relaxed) (None : option (Weak Z)).
Proof.
  pose (fill := a_push 7 0 0 ++ a_push 8 1 0 ++ a_pop 0 2 ++ [APush 9%Z 2; APushLoad 1; APushWrite]).
  pose (take1 := a_push 7 0 0 ++ [APop 0; APopLoad 1; APopRead] : list (action Z)).
  repeat split; (eapply exec_all_reach; [apply wreach_init|]).
  - instantiate (1 := fill). vm_compute. reflexivity.
  - instantiate (1 := take1). vm_compute. reflexivity.
  - instantiate (1 := take1). vm_compute. reflexivity.
  - instantiate (1 := fill). vm_compute. reflexivity.
Qed.

(** ** Witnesses *)

Definition reuse_end : option (Weak Z) :=
  default None (exec_all 2 ring_orders (reuse_schedule ++ [APopSize 3; APopSized 2]) (Some (weak_init 2))).

Lemma reuse_reached : wreach 2 false ring_orders reuse_end.
Proof.
  eapply exec_all_reach; [apply wreach_init|].
  instantiate (1 := reuse_schedule ++ [APopSize 3; APopSized 2]). vm_compute. reflexivity.
Qed.

Lemma spsc_weak_memory_safe_witness :
  ∃ w s, reuse_end = Some w ∧ reachable_sys 2 false s ∧ pushed s = [7; 8; 9]%Z ∧
    popped s = [7; 8]%Z ∧ w_popped w = take (length (w_popped w)) (w_pushed w).
Proof.
  destruct (spsc_weak_memory_safe 2 false reuse_end) as (w&s&E&Hr&H1&H2&H3&H4&H5);
    [reflexivity|lia|apply reuse_reached|].
  exists w, s. split; [done|]. split; [done|]. vm_compute in E. injection E as E. rewrite H1, H2, <- E. done.
Defined.

Lemma spsc_size_approx_bounds_witness :
  ∃ w, reuse_end = Some w ∧ w_cpc w = CpSized 1 ∧ (0 <= 1 <= 2)%Z.
Proof.
  destruct reuse_end as [w|] eqn:E; [|by vm_compute in E]. exists w. split; [done|].
  assert (Hd : w_cpc w = CpSized 1) by (vm_compute in E; by injection E as <-).
  split; [done|]. apply (spsc_size_approx_bounds 2 false w 1); [reflexivity|lia| |by right].
  rewrite <- E. apply reuse_reached.
Defined.
