(* ===== verification/SpscProgram.v ===== *)
(** * Two threads over the ring: the producer and consumer loops

    Models the loops that [src/src/bin/replay_bench_spsc.cpp] runs over the ring, in
    both of its regimes: a producer that pushes a list of items, spinning while the
    ring is full, and a consumer that pops until it has seen [total] items, spinning
    while the ring is empty.  The ring is that of [SpscWeak.v], on the C++ memory model:
    the loops are a client that makes calls and is told what they return.  What the
    consumer does with an item is a parameter; in the second regime it first asks for the
    ring's occupancy. *)

From stdpp Require Import base numbers list relations.
From Stdlib Require Import ZArith Lia.
From S2P Require Import Prelude WeakMemory SpscRing SpscRingProofs SpscWeak SpscWeakProofs.

Local Open Scope Z_scope.

Section Program.
Context {T C : Type} `{!Inhabited T} (cap : Z) (cache : bool).
(** [body k x occ c]: the loop body for the [k]-th item [x], [occ] being what
    [size_approx()] returns if the body [measures] it; [total] is the consumer's bound. *)
Context (measures : bool) (body : nat → T → Z → C → C) (total : Z).

(** [todo] are the items the producer has not pushed yet, the first of them the one in
    hand; [pending] is the item the consumer has popped and not processed; [n_popped]
    is the variable [popped]. *)
Record Client := mkClient {
  todo : list T;
  pending : option T;
  acc : C;
  n_popped : Z
}.

Inductive client_step : Client → RingEvent T → Client → Prop :=
  | cl_silent l : client_step l Silent l
  (** [while (!ring.try_push(item)) cpu_relax();] *)
  | cl_push x rest o a k :
      client_step (mkClient (x :: rest) o a k) (CallPush x) (mkClient (x :: rest) o a k)
  | cl_full l : client_step l (RetPush false) l
  | cl_pushed x rest o a k :
      client_step (mkClient (x :: rest) o a k) (RetPush true) (mkClient rest o a k)
  (** [while (popped < total) { if (ring.try_pop(out)) ... else cpu_relax(); }] *)
  | cl_pop l a k :
      k < total → client_step (mkClient l None a k) CallPop (mkClient l None a k)
  | cl_empty l : client_step l (RetPop None) l
  | cl_popped x l a k :
      client_step (mkClient l None a k) (RetPop (Some x)) (mkClient l (Some x) a k)
  (** The body, with [size_approx()]. *)
  | cl_size x l a k :
      measures = true → client_step (mkClient l (Some x) a k) (CallSize TCons) (mkClient l (Some x) a k)
  | cl_body x l a k d :
      measures = true →
      client_step (mkClient l (Some x) a k) (RetSize TCons d)
        (mkClient l None (body (Z.to_nat k) x d a) (k +u 1)).

Record Prog := mkProg { p_ring : Weak T; p_client : Client }.

Definition prog_init (items : list T) (c : C) : Prog :=
  mkProg (weak_init cap) (mkClient items None c 0).

Inductive prog_step : Prog → option Prog → Prop :=
  | prog_ring w e o l l' :
      wstep cap cache ring_orders w e o → client_step l e l' →
      prog_step (mkProg w l) ((λ w', mkProg w' l') <$> o)
  (** The body, without it. *)
  | prog_body w x l a k :
      measures = false → w_cpc w = CpIdle →
      prog_step (mkProg w (mkClient l (Some x) a k))
        (Some (mkProg w (mkClient l None (body (Z.to_nat k) x 0 a) (k +u 1)))).

(** Both loops have ended: the consumer's bound is reached and the producer has
    returned, so [join] does not block. *)
Definition finished (p : Prog) : Prop :=
  todo (p_client p) = [] ∧ w_ppc (p_ring p) = PpIdle ∧ w_cpc (p_ring p) = CpIdle ∧
  pending (p_client p) = None ∧ n_popped (p_client p) = total.

(** ** Specification: the consumer's loop over the items, in order *)

Fixpoint process (k : nat) (items : list (T * Z)) (c : C) : C :=
  match items with
  | [] => c
  | (x, occ) :: items' => process (S k) items' (body k x occ c)
  end.

Lemma process_snoc items k c x occ :
  process k (items ++ [(x, occ)]) c = body (k + length items) x occ (process k items c).
Proof.
  revert k c. induction items as [|[y o] items IH]; intros k c; cbn [app process length].
  - by rewrite Nat.add_0_r.
  - rewrite IH. f_equal. lia.
Qed.

(** ** The invariant *)

Context (items : list T) (c0 : C).
Hypothesis Hcap : pow2_assert cap = true.
Hypothesis Hmax : cap <= 2 ^ 63.
Hypothesis Htotal : total = Z.of_nat (length items).
Hypothesis Hu64 : total < 2 ^ 64.

Inductive prog_reachable : option Prog → Prop :=
  | prog_start : prog_reachable (Some (prog_init items c0))
  | prog_next p o : prog_reachable (Some p) → prog_step p o → prog_reachable o.

(** The producer is outside the ring or pushes the item in hand. *)
Definition prod_ok (p : WProd T) (l : list T) : Prop :=
  match p with
  | PpIdle => True
  | PpCheck x _ | PpWrite x _ | PpStore x _ => l !! 0%nat = Some x
  | PpSize _ | PpSized _ => False
  end.

Definition cons_ok (c : WCons T) (o : option T) (k : Z) : Prop :=
  match c with
  | CpIdle => True
  | CpCheck _ | CpRead _ | CpFree _ _ => o = None ∧ k < total
  | CpSize _ | CpSized _ => is_Some o ∧ measures = true
  end.

(** What the consumer has done. *)
Definition done_ok (qs : list T) (l : Client) : Prop :=
  ∃ proc : list (T * Z), qs = proc.*1 ++ option_list (pending l) ∧
    n_popped l = Z.of_nat (length proc) ∧ acc l = process 0 proc c0 ∧
    Forall (λ xo, 0 <= xo.2 <= cap) proc.

Record prog_inv (p : Prog) : Prop := {
  pi_ring : wreach cap cache ring_orders (Some (p_ring p));
  pi_items : w_pushed (p_ring p) ++ todo (p_client p) = items;
  pi_prod : prod_ok (w_ppc (p_ring p)) (todo (p_client p));
  pi_cons : cons_ok (w_cpc (p_ring p)) (pending (p_client p)) (n_popped (p_client p));
  pi_done : done_ok (w_popped (p_ring p)) (p_client p)
}.

Lemma prog_init_inv : prog_inv (prog_init items c0).
Proof using. clear Hcap Hmax Htotal Hu64. split; cbn; try done; [apply wreach_init|]. by exists []. Qed.

(** The ring in step with the interleaving model. *)
Lemma inv_sim p : prog_inv p → ∃ s, ring_inv cap cache s ∧ sim cap (p_ring p) s.
Proof using Hcap Hmax.
  clear Htotal Hu64. intros I. destruct (wreach_sim cap cache Hcap Hmax _ (pi_ring _ I)) as (w&s&[= <-]&Hr&S).
  exists s. split; [|done]. by apply (reachable_inv cap cache).
Qed.

Lemma inv_lengths p : prog_inv p →
  (length (w_popped (p_ring p)) <= length (w_pushed (p_ring p)))%nat ∧
  (length (w_pushed (p_ring p)) + length (todo (p_client p)) = length items)%nat.
Proof using Hcap Hmax.
  clear Htotal Hu64. intros I. destruct (inv_sim p I) as (s&R&S). split.
  - rewrite <- (sm_pushed _ _ _ S), <- (sm_popped _ _ _ S). by apply (prefix_le cap cache).
  - by rewrite <- (pi_items _ I), length_app.
Qed.

(** The body processes the pending item. *)
Lemma body_done p l x a k d qs :
  prog_inv p → w_popped (p_ring p) = qs → p_client p = mkClient l (Some x) a k → 0 <= d <= cap →
  done_ok qs (mkClient l None (body (Z.to_nat k) x d a) (k +u 1)).
Proof using Hcap Hmax Htotal Hu64.
  intros I <- Hl Hd. pose proof (inv_lengths p I) as [H1 H2]. destruct (pi_done _ I) as (proc&Hq&Hk&Ha&Ho).
  rewrite Hl in Hq, Hk, Ha. cbn in Hq, Hk, Ha. exists (proc ++ [(x, d)]). cbn.
  rewrite Hq, length_app, length_fmap in H1. cbn in H1.
  split; [by rewrite Hq, app_nil_r, fmap_app|]. split.
  - rewrite length_app, Hk. cbn. rewrite u64_add_small; lia.
  - rewrite process_snoc, Hk, Nat2Z.id, Ha. split; [done|]. apply Forall_app. split; [done|]. by apply Forall_singleton.
Qed.

Lemma ring_step_inv w e w' l l' :
  prog_inv (mkProg w l) → wstep cap cache ring_orders w e (Some w') → client_step l e l' →
  prog_inv (mkProg w' l').
Proof using Hcap Hmax Htotal Hu64.
  intros I Hs Hc. pose proof (wreach_step _ _ _ _ _ _ (pi_ring _ I) Hs) as Hr.
  pose proof (body_done (mkProg w l)) as Hb. pose proof (spsc_size_approx_bounds cap cache w) as Hsz.
  pose proof (pi_items _ I) as Hi. pose proof (pi_prod _ I) as Hp. pose proof (pi_cons _ I) as Hk.
  pose proof (pi_done _ I) as Hd. cbn in Hi, Hp, Hk, Hd, Hb.
  remember (Some w') as o eqn:Ho. destruct Hs; cbn in *; try (injection Ho as <-).
  all: repeat match goal with
    | H : context [if ?a <=? ?b then _ else _] |- _ => destruct (a <=? b)
    | H : context [if ?a =? ?b then _ else _] |- _ => destruct (a =? b)
    end.
  all: try (destruct (slot_write _ _ _ _ _) as [[? ?]|]; [injection Ho as <-|done]).
  all: try (destruct (slot_read _ _ _ _) as [[[? ?] ?]|]; [injection Ho as <-|done]).
  all: inversion Hc; subst; cbn in *; split; cbn; try done.
  - injection Hp as <-. by rewrite <- app_assoc.
  - destruct Hd as (proc&->&Hd). exists proc. split; [|done]. cbn. by rewrite app_nil_r.
  - eapply Hb; [done..|]. apply Hsz; [done..|by apply I|by right].
Qed.

Lemma prog_step_inv p o : prog_inv p → prog_step p o → ∃ p', o = Some p' ∧ prog_inv p'.
Proof using Hcap Hmax Htotal Hu64.
  intros I Hs. destruct Hs as [w e o l l' Hw Hl|w x l a k Hm Hc].
  - destruct (wreach_sim cap cache Hcap Hmax _ (wreach_step _ _ _ _ _ _ (pi_ring _ I) Hw)) as (w'&_&->&_).
    eexists. split; [reflexivity|]. by eapply ring_step_inv.
  - eexists. split; [reflexivity|]. pose proof I as [I1 I2 I3 I4 I5]. split; try done; cbn in *.
    + by rewrite Hc.
    + eapply body_done; [exact I|done|done|]. pose proof (cap_pos cap Hcap). lia.
Qed.

Lemma prog_reachable_inv o : prog_reachable o → ∃ p, o = Some p ∧ prog_inv p.
Proof using Hcap Hmax Htotal Hu64.
  induction 1 as [|p o _ (p'&[= <-]&I) Hs]; [eexists; split; [done|apply prog_init_inv]|].
  by apply (prog_step_inv p).
Qed.

(** ** The result *)

Lemma finished_result p :
  prog_reachable (Some p) → finished p →
  ∃ occs, length occs = length items ∧ Forall (λ o, 0 <= o <= cap) occs ∧
    acc (p_client p) = process 0 (zip items occs) c0.
Proof using Hcap Hmax Htotal Hu64.
  intros Hr (Ht&_&_&Hp&Hk). destruct (prog_reachable_inv _ Hr) as (p'&[= <-]&I).
  destruct (pi_done _ I) as (proc&Hd&Hn&Ha&Ho). rewrite Hp, app_nil_r in Hd.
  destruct (inv_sim p I) as (s&R&S). pose proof (ri_prefix _ _ _ R) as Hpre.
  rewrite (sm_pushed _ _ _ S), (sm_popped _ _ _ S) in Hpre.
  pose proof (pi_items _ I) as Hi. rewrite Ht, app_nil_r in Hi.
  assert (Hall : proc.*1 = items).
  { rewrite <- Hd, Hpre, Hd, Hi, length_fmap, take_ge; [done|]. lia. }
  exists proc.*2. split; [rewrite <- Hall, !length_fmap; done|]. split.
  - by apply Forall_fmap.
  - by rewrite <- Hall, zip_fst_snd.
Qed.

(** ** Progress *)

(** The latest store of a cursor can be loaded. *)
Lemma latest l h (v : RView) cnt o :
  hist_ok l h cnt → (v_at v l ≤ cnt l)%nat → ∃ v', load o l (cnt l) h v = Some (u64 (Z.of_nat (cnt l)), v').
Proof using.
  clear Hcap Hmax Htotal Hu64. intros [Hl Hs] Hv. destruct (load_latest o l h v) as (s&v'&Hn&Hld); [lia|].
  rewrite Hl in Hn, Hld. cbn in Hn, Hld. destruct (Hs _ s Hn) as [Hval _]. rewrite Hval in Hld. eauto.
Qed.

(** Nothing but the position of one thread, its view and its cached cursor differ. *)
Definition only_prod (w w' : Weak T) : Prop :=
  w_cpc w' = w_cpc w ∧ w_pushed w' = w_pushed w ∧ w_popped w' = w_popped w.
Definition only_cons (w w' : Weak T) : Prop :=
  w_ppc w' = w_ppc w ∧ w_pushed w' = w_pushed w ∧ w_popped w' = w_popped w.

Lemma can_push_begin w s x : sim cap w s → w_ppc w = PpIdle →
  ∃ w' t, wstep cap cache ring_orders w (CallPush x) (Some w') ∧ w_ppc w' = PpCheck x t ∧ only_prod w w'.
Proof using.
  clear Hcap Hmax Htotal Hu64. intros S Hp. destruct w as [tl hd cs pv p ch cv c ct ps qs]. cbn in Hp. subst p.
  destruct (sm_pv _ _ _ S) as (Hv&_). destruct (latest LTail tl pv _ relaxed (sm_tail _ _ _ S)) as [v' Hl].
  { cbn in Hv |- *. lia. }
  eexists _, _. split; [by eapply ws_push_begin|]. done.
Qed.

Lemma can_push_check w s x t : sim cap w s → w_ppc w = PpCheck x t →
  length (w_pushed w) = length (w_popped w) →
  ∃ w', wstep cap cache ring_orders w Silent (Some w') ∧ w_ppc w' = PpWrite x t ∧ only_prod w w'.
Proof using Hcap.
  clear Hmax Htotal Hu64. intros S Hp He. destruct w as [tl hd cs pv p ch cv c ct ps qs]. cbn in Hp, He. subst p.
  pose proof (cap_pos cap Hcap) as Hpos. pose proof (sm_pp _ _ _ S) as Ht. cbn in Ht.
  destruct (cache && negb (cap <=? t -u ch)) eqn:Ec.
  - apply andb_true_iff in Ec as [Hc Hn]. apply negb_true_iff in Hn. eexists. split; [by eapply ws_push_cached|done].
  - destruct (sm_pv _ _ _ S) as (_&Hv&_). destruct (latest LHead hd pv _ acquire (sm_head _ _ _ S)) as [v' Hl].
    { cbn in Hv |- *. lia. }
    cbn in Hl. rewrite <- He in Hl.
    assert (Hroom : (cap <=? t -u u64 (Z.of_nat (length ps))) = false).
    { rewrite Ht. rewrite u64_sub_u64 by lia. rewrite Z.sub_diag. apply Z.leb_gt; lia. }
    pose proof (ws_push_load cap cache ring_orders tl hd cs pv ch cv c ct ps qs x t _ _ v'
      ltac:(intros ->; by destruct (cap <=? t -u ch)) Hl) as H.
    rewrite Hroom in H. eexists. split; [exact H|done].
Qed.

Lemma can_push_write w s x t : sim cap w s → ring_inv cap cache s → w_ppc w = PpWrite x t →
  ∃ w', wstep cap cache ring_orders w Silent (Some w') ∧ w_ppc w' = PpStore x t ∧ only_prod w w'.
Proof using Inhabited0 Hcap Hmax.
  clear Htotal Hu64. intros S R Hp. destruct w as [tl hd cs pv p ch cv c ct ps qs]. cbn in Hp. subst p.
  destruct (sim_push_write cap cache Hcap Hmax _ _ _ _ _ _ _ _ _ _ _ _ _ S R) as (cs'&pv'&_&Hw&_).
  pose proof (ws_push_write cap cache ring_orders tl hd cs pv ch cv c ct ps qs x t) as H. rewrite Hw in H.
  eexists. split; [exact H|done].
Qed.

Lemma can_push_store (w : Weak T) x t : w_ppc w = PpStore x t →
  ∃ w', wstep cap cache ring_orders w (RetPush true) (Some w') ∧ w_ppc w' = PpIdle ∧
    w_cpc w' = w_cpc w ∧ w_pushed w' = w_pushed w ++ [x] ∧ w_popped w' = w_popped w.
Proof using.
  clear Hcap Hmax Htotal Hu64. intros Hp. destruct w as [tl hd cs pv p ch cv c ct ps qs]. cbn in Hp. subst p.
  destruct (store release LTail (t +u 1) tl pv) as [tl' pv'] eqn:E. eexists. split; [by eapply ws_push_store|done].
Qed.

Lemma can_pop_begin w s : sim cap w s → w_cpc w = CpIdle →
  ∃ w' h, wstep cap cache ring_orders w CallPop (Some w') ∧ w_cpc w' = CpCheck h ∧ only_cons w w'.
Proof using.
  clear Hcap Hmax Htotal Hu64. intros S Hp. destruct w as [tl hd cs pv p ch cv c ct ps qs]. cbn in Hp. subst c.
  destruct (sm_cv _ _ _ S) as (Hv&_). destruct (latest LHead hd cv _ relaxed (sm_head _ _ _ S)) as [v' Hl].
  { cbn in Hv |- *. lia. }
  eexists _, _. split; [by eapply ws_pop_begin|]. done.
Qed.

Lemma can_pop_check w s h : sim cap w s → ring_inv cap cache s → w_cpc w = CpCheck h →
  (length (w_popped w) < length (w_pushed w))%nat →
  ∃ w', wstep cap cache ring_orders w Silent (Some w') ∧ w_cpc w' = CpRead h ∧ only_cons w w'.
Proof using Hcap Hmax.
  clear Htotal Hu64. intros S R Hp Hlt. destruct w as [tl hd cs pv p ch cv c ct ps qs]. cbn in Hp, Hlt. subst c.
  pose proof (sm_cp _ _ _ S) as Hh. cbn in Hh.
  pose proof (ri_room _ _ _ R) as Hr. pose proof (ri_seen_head _ _ _ R) as Hsh.
  rewrite (sm_pushed _ _ _ S) in Hr. rewrite (sm_popped _ _ _ S) in Hsh. cbn in Hr, Hsh.
  destruct (cache && negb (h =? ct)) eqn:Ec.
  - apply andb_true_iff in Ec as [Hc Hn]. apply negb_true_iff in Hn. eexists. split; [by eapply ws_pop_cached|done].
  - destruct (sm_cv _ _ _ S) as (_&Hv&_). destruct (latest LTail tl cv _ acquire (sm_tail _ _ _ S)) as [v' Hl].
    { cbn in Hv |- *. lia. }
    cbn in Hl.
    assert (Hsome : (h =? u64 (Z.of_nat (length ps))) = false).
    { apply Z.eqb_neq. rewrite Hh. intros E. assert (H0 : u64 (Z.of_nat (length ps)) -u u64 (Z.of_nat (length qs)) = 0).
      { rewrite E. unfold u64_sub. by rewrite Z.sub_diag. }
      rewrite u64_sub_u64 in H0; lia. }
    pose proof (ws_pop_load cap cache ring_orders tl hd cs pv p ch cv ct ps qs h _ _ v'
      ltac:(intros ->; by destruct (h =? ct)) Hl) as H.
    rewrite Hsome in H. eexists. split; [exact H|done].
Qed.

Lemma can_pop_read w s h : sim cap w s → ring_inv cap cache s → w_cpc w = CpRead h →
  ∃ w' x, wstep cap cache ring_orders w Silent (Some w') ∧ w_cpc w' = CpFree h x ∧ only_cons w w'.
Proof using Inhabited0 Hcap Hmax.
  clear Htotal Hu64. intros S R Hp. destruct w as [tl hd cs pv p ch cv c ct ps qs]. cbn in Hp. subst c.
  destruct (sim_pop_read cap cache Hcap Hmax _ _ _ _ _ _ _ _ _ _ _ _ S R) as (x&cs'&cv'&_&Hw&_).
  pose proof (ws_pop_read cap cache ring_orders tl hd cs pv p ch cv ct ps qs h) as H. rewrite Hw in H.
  eexists _, x. split; [exact H|done].
Qed.

Lemma can_pop_store (w : Weak T) h x : w_cpc w = CpFree h x →
  ∃ w', wstep cap cache ring_orders w (RetPop (Some x)) (Some w') ∧ w_cpc w' = CpIdle ∧
    w_ppc w' = w_ppc w ∧ w_pushed w' = w_pushed w ∧ w_popped w' = w_popped w ++ [x].
Proof using.
  clear Hcap Hmax Htotal Hu64. intros Hp. destruct w as [tl hd cs pv p ch cv c ct ps qs]. cbn in Hp. subst c.
  destruct (store release LHead (h +u 1) hd cv) as [hd' cv'] eqn:E. eexists. split; [by eapply ws_pop_store|done].
Qed.

Lemma can_size w s : sim cap w s → w_cpc w = CpIdle →
  ∃ w' t, wstep cap cache ring_orders w (CallSize TCons) (Some w') ∧ w_cpc w' = CpSize t ∧ only_cons w w'.
Proof using.
  clear Hcap Hmax Htotal Hu64. intros S Hp. destruct w as [tl hd cs pv p ch cv c ct ps qs]. cbn in Hp. subst c.
  destruct (sm_cv _ _ _ S) as (_&Hv&_). destruct (latest LTail tl cv _ relaxed (sm_tail _ _ _ S)) as [v' Hl].
  { cbn in Hv |- *. lia. }
  eexists _, _. split; [by eapply ws_pop_size|]. done.
Qed.

Lemma can_sized w s t : sim cap w s → w_cpc w = CpSize t →
  ∃ w' d, wstep cap cache ring_orders w Silent (Some w') ∧ w_cpc w' = CpSized d ∧ only_cons w w'.
Proof using.
  clear Hcap Hmax Htotal Hu64. intros S Hp. destruct w as [tl hd cs pv p ch cv c ct ps qs]. cbn in Hp. subst c.
  destruct (sm_cv _ _ _ S) as (Hv&_). destruct (latest LHead hd cv _ relaxed (sm_head _ _ _ S)) as [v' Hl].
  { cbn in Hv |- *. lia. }
  eexists _, _. split; [by eapply ws_pop_sized|]. done.
Qed.

Lemma can_size_done (w : Weak T) d : w_cpc w = CpSized d →
  ∃ w', wstep cap cache ring_orders w (RetSize TCons d) (Some w') ∧ w_cpc w' = CpIdle ∧ only_cons w w'.
Proof using.
  clear Hcap Hmax Htotal Hu64. intros Hp. destruct w as [tl hd cs pv p ch cv c ct ps qs]. cbn in Hp. subst c.
  eexists. split; [by eapply ws_pop_size_done|]. done.
Qed.

(** ** Every run can be completed *)

Definition prod_stage (p : WProd T) : nat :=
  match p with PpWrite _ _ => 1 | PpStore _ _ => 2 | _ => 0 end.
Definition cons_stage (c : WCons T) : nat :=
  match c with CpRead _ => 1 | CpFree _ _ => 2 | _ => 0 end.
Definition size_stage (c : WCons T) : nat :=
  match c with CpSize _ => 1 | CpSized _ => 2 | _ => 0 end.

(** The steps left, spins not counted. *)
Definition steps_left (p : Prog) : nat :=
  let w := p_ring p in let l := p_client p in
  3 * length (todo l) - prod_stage (w_ppc w) +
  (6 * (length items - length (w_popped w)) - cons_stage (w_cpc w) +
   match pending l with Some _ => 3 - size_stage (w_cpc w) | None => 0 end).

Definition pstep (p p' : Prog) : Prop := prog_step p (Some p').

Lemma ring_go w e w' l l' :
  wstep cap cache ring_orders w e (Some w') → client_step l e l' → pstep (mkProg w l) (mkProg w' l').
Proof using. clear Hcap Hmax Htotal Hu64. intros Hw Hl. exact (prog_ring w e (Some w') l l' Hw Hl). Qed.

Lemma inv_counts p : prog_inv p → pending (p_client p) = None →
  n_popped (p_client p) = Z.of_nat (length (w_popped (p_ring p))).
Proof using.
  clear Hcap Hmax Htotal Hu64. intros I Hp. destruct (pi_done _ I) as (proc&->&->&_).
  rewrite Hp, app_nil_r. by rewrite length_fmap.
Qed.

(** A consumer inside a call past its test, or with an item in hand, can go on. *)
Lemma busy_advance p : prog_inv p →
  is_Some (pending (p_client p)) ∨ (0 < cons_stage (w_cpc (p_ring p)))%nat →
  ∃ p', pstep p p' ∧ (steps_left p' < steps_left p)%nat.
Proof using Inhabited0 Hcap Hmax Htotal.
  clear Hu64. intros I Hb. destruct (inv_sim p I) as (s&R&S). pose proof (inv_counts p I) as Hn.
  pose proof (pi_cons _ I) as Hc. destruct p as [w [l o a k]]. cbn in *. unfold steps_left. cbn.
  destruct (w_cpc w) as [|h|h|h x|t|d] eqn:E; cbn in Hb, Hc.
  - destruct Hb as [[x ->]|]; [|lia]. destruct measures eqn:Em.
    + destruct (can_size w s S E) as (w'&t&Hw&Hc'&Hp&Hps&Hqs).
      eexists. split; [eapply ring_go; [exact Hw|by apply cl_size]|]. cbn. rewrite Hc', Hp, Hqs. cbn. lia.
    + eexists. split; [by apply prog_body|]. cbn. rewrite E. cbn. lia.
  - destruct Hc as [-> _]. destruct Hb as [[]|]; [done|lia].
  - destruct Hc as [-> Hk]. specialize (Hn eq_refl). destruct (can_pop_read w s h S R E) as (w'&x&Hw&Hc'&Hp&Hps&Hqs).
    eexists. split; [eapply ring_go; [exact Hw|apply cl_silent]|]. cbn. rewrite Hc', Hp, Hqs. cbn. lia.
  - destruct Hc as [-> Hk]. specialize (Hn eq_refl). destruct (can_pop_store w h x E) as (w'&Hw&Hc'&Hp&Hps&Hqs).
    eexists. split; [eapply ring_go; [exact Hw|apply cl_popped]|]. cbn. rewrite Hc', Hp, Hqs, length_app. cbn. lia.
  - destruct Hc as [[x ->] Hm]. destruct (can_sized w s t S E) as (w'&d&Hw&Hc'&Hp&Hps&Hqs).
    eexists. split; [eapply ring_go; [exact Hw|apply cl_silent]|]. cbn. rewrite Hc', Hp, Hqs. cbn. lia.
  - destruct Hc as [[x ->] Hm]. destruct (can_size_done w d E) as (w'&Hw&Hc'&Hp&Hps&Hqs).
    eexists. split; [eapply ring_go; [exact Hw|by apply cl_body]|]. cbn. rewrite Hc', Hp, Hqs. cbn. lia.
Qed.

(** At the test of a ring that is not empty. *)
Lemma pop_advance p h : prog_inv p → w_cpc (p_ring p) = CpCheck h →
  (length (w_popped (p_ring p)) < length (w_pushed (p_ring p)))%nat →
  ∃ p', pstep p p' ∧ (steps_left p' < steps_left p)%nat.
Proof using Hcap Hmax.
  clear Htotal Hu64. intros I E Hlt. destruct (inv_sim p I) as (s&R&S). pose proof (inv_lengths p I) as [_ Hl].
  pose proof (pi_cons _ I) as Hc. destruct p as [w [l o a k]]. cbn in *. rewrite E in Hc. destruct Hc as [-> _].
  destruct (can_pop_check w s h S R E Hlt) as (w'&Hw&Hc'&Hp&Hps&Hqs).
  eexists. split; [eapply ring_go; [exact Hw|apply cl_silent]|].
  unfold steps_left. cbn. rewrite Hc', Hp, Hqs, E. cbn. lia.
Qed.

(** A producer inside a call, when the consumer has taken all items. *)
Lemma push_advance p : prog_inv p → w_ppc (p_ring p) ≠ PpIdle →
  length (w_pushed (p_ring p)) = length (w_popped (p_ring p)) →
  ∃ p', pstep p p' ∧ (steps_left p' < steps_left p)%nat.
Proof using Inhabited0 Hcap Hmax.
  clear Htotal Hu64. intros I Hne He. destruct (inv_sim p I) as (s&R&S). pose proof (pi_prod _ I) as Hp0.
  destruct p as [w [l o a k]]. cbn in *. unfold steps_left. cbn.
  destruct (w_ppc w) as [|x t|x t|x t|t|d] eqn:E; try done; destruct l as [|y rest]; try done;
    injection Hp0 as ->.
  - destruct (can_push_check w s x t S E He) as (w'&Hw&Hp&Hc&Hps&Hqs).
    eexists. split; [eapply ring_go; [exact Hw|apply cl_silent]|]. cbn. rewrite Hc, Hp, Hqs. cbn. lia.
  - destruct (can_push_write w s x t S R E) as (w'&Hw&Hp&Hc&Hps&Hqs).
    eexists. split; [eapply ring_go; [exact Hw|apply cl_silent]|]. cbn. rewrite Hc, Hp, Hqs. cbn. lia.
  - destruct (can_push_store w x t E) as (w'&Hw&Hp&Hc&Hps&Hqs).
    eexists. split; [eapply ring_go; [exact Hw|apply cl_pushed]|]. cbn. rewrite Hc, Hp, Hqs. cbn. lia.
Qed.

Lemma step_inv p p' : prog_inv p → pstep p p' → prog_inv p'.
Proof using Hcap Hmax Htotal Hu64. intros I Hs. by destruct (prog_step_inv p _ I Hs) as (q&[= <-]&Hq). Qed.

Definition advances (p : Prog) : Prop :=
  ∃ p', rtc pstep p p' ∧ prog_inv p' ∧ (steps_left p' < steps_left p)%nat.

Lemma advance_from p q : prog_inv q → steps_left q = steps_left p → rtc pstep p q →
  (∃ q', pstep q q' ∧ (steps_left q' < steps_left q)%nat) → advances p.
Proof using Hcap Hmax Htotal Hu64.
  intros Iq He Hr (q'&Hs&Hlt). exists q'. split; [by eapply rtc_r|]. split; [by eapply step_inv|lia].
Qed.

Lemma start_pop_advances p : prog_inv p → w_cpc (p_ring p) = CpIdle → pending (p_client p) = None →
  (length (w_popped (p_ring p)) < length (w_pushed (p_ring p)))%nat → advances p.
Proof using Hcap Hmax Htotal Hu64.
  intros I E Hp Hlt. destruct (inv_sim p I) as (s&R&S). pose proof (inv_lengths p I) as [_ Hlen].
  pose proof (inv_counts p I Hp) as Hk. destruct (can_pop_begin _ s S E) as (w'&h&Hw&Hc'&Hpp&Hps&Hqs).
  destruct p as [w [l o a k]]. cbn in *. subst o.
  assert (Hs : pstep (mkProg w (mkClient l None a k)) (mkProg w' (mkClient l None a k))).
  { eapply ring_go; [exact Hw|]. apply cl_pop. lia. }
  apply (advance_from _ _ (step_inv _ _ I Hs)); [|by apply rtc_once|].
  - unfold steps_left. cbn. by rewrite Hpp, Hc', Hqs, E.
  - eapply pop_advance; [by eapply step_inv|exact Hc'|]. cbn. by rewrite Hps, Hqs.
Qed.

Lemma start_push_advances p x rest : prog_inv p → w_ppc (p_ring p) = PpIdle → todo (p_client p) = x :: rest →
  length (w_pushed (p_ring p)) = length (w_popped (p_ring p)) → advances p.
Proof using Inhabited0 Hcap Hmax Htotal Hu64.
  intros I E Hl He. destruct (inv_sim p I) as (s&R&S). destruct (can_push_begin _ s x S E) as (w'&t&Hw&Hpp&Hc'&Hps&Hqs).
  destruct p as [w [l o a k]]. cbn in *. subst l.
  assert (Hs : pstep (mkProg w (mkClient (x :: rest) o a k)) (mkProg w' (mkClient (x :: rest) o a k))).
  { eapply ring_go; [exact Hw|]. apply cl_push. }
  apply (advance_from _ _ (step_inv _ _ I Hs)); [|by apply rtc_once|].
  - unfold steps_left. cbn. by rewrite Hpp, Hc', Hqs, E.
  - apply push_advance; [by eapply step_inv|cbn; by rewrite Hpp|]. cbn. by rewrite Hps, Hqs.
Qed.

Lemma prog_progress p : prog_inv p → ¬ finished p → advances p.
Proof using Inhabited0 Hcap Hmax Htotal Hu64.
  intros I Hnf. pose proof (advance_from p p I eq_refl (rtc_refl _ _)) as Hone.
  destruct (pending (p_client p)) as [x|] eqn:Hp; [apply Hone, busy_advance; [done|left; by rewrite Hp]|].
  destruct (decide (0 < cons_stage (w_cpc (p_ring p)))%nat) as [Hb|Hb].
  { apply Hone, busy_advance; [done|by right]. }
  pose proof (inv_lengths p I) as [Hle Hlen]. pose proof (inv_counts p I Hp) as Hk. pose proof (pi_cons _ I) as Hc.
  destruct (decide (length (w_popped (p_ring p)) < length (w_pushed (p_ring p)))%nat) as [Hlt|Hge].
  - destruct (w_cpc (p_ring p)) as [|h|h|h x|t|d] eqn:E; cbn in Hb, Hc; try lia.
    + by apply start_pop_advances.
    + apply Hone. by eapply pop_advance.
    + rewrite Hp in Hc. by destruct Hc as [[] _].
    + rewrite Hp in Hc. by destruct Hc as [[] _].
  - assert (He : length (w_pushed (p_ring p)) = length (w_popped (p_ring p))) by lia.
    destruct (w_ppc (p_ring p)) as [|x t|x t|x t|t|d] eqn:E;
      try (apply Hone, push_advance; [done|by rewrite E|done]).
    destruct (todo (p_client p)) as [|x rest] eqn:Hl; [|by eapply start_push_advances].
    exfalso. apply Hnf. cbn in Hlen. unfold finished. rewrite Hl, E, Hp. assert (n_popped (p_client p) = total) by lia.
    split; [done|]. split; [done|]. split; [|done]. rewrite Hp in Hc.
    destruct (w_cpc (p_ring p)); cbn in Hb, Hc; try lia; try done; by destruct Hc as [[] _].
Qed.

Lemma finished_dec p : finished p ∨ ¬ finished p.
Proof using.
  clear Hcap Hmax Htotal Hu64. unfold finished.
  destruct (todo _), (w_ppc _), (w_cpc _), (pending _); try (right; naive_solver).
  destruct (decide (n_popped (p_client p) = total)); [by left|right; naive_solver].
Qed.

Lemma prog_completes p : prog_inv p → ∃ p', rtc pstep p p' ∧ finished p'.
Proof using Inhabited0 Hcap Hmax Htotal Hu64.
  remember (steps_left p) as n eqn:Hn. revert p Hn. induction (lt_wf n) as [n _ IH]. intros p -> I.
  destruct (finished_dec p) as [Hf|Hf]; [by exists p|].
  destruct (prog_progress p I Hf) as (p1&Hr&I1&Hlt). destruct (IH _ Hlt p1 eq_refl I1) as (p2&Hr2&Hf2).
  exists p2. split; [|done]. by etrans.
Qed.

Lemma reachable_rtc p p' : prog_reachable (Some p) → rtc pstep p p' → prog_reachable (Some p').
Proof using. intros Hr Hs. revert Hr. induction Hs; [done|]. intros Hr. apply IHHs. by eapply prog_next. Qed.

(** A run that is finished. *)
Lemma finished_exists : ∃ p, prog_reachable (Some p) ∧ finished p.
Proof using Inhabited0 Hcap Hmax Htotal Hu64.
  destruct (prog_completes (prog_init items c0) prog_init_inv) as (p&Hr&Hf). exists p. split; [|done].
  eapply reachable_rtc; [apply prog_start|done].
Qed.

(** ** Every other step is a spin *)

(** Nothing but views, cached cursors and the tests of the two calls differ. *)
Definition same_progress (p p' : Prog) : Prop :=
  let w := p_ring p in let w' := p_ring p' in
  p_client p' = p_client p ∧ w_pushed w' = w_pushed w ∧ w_popped w' = w_popped w ∧
  prod_stage (w_ppc w') = prod_stage (w_ppc w) ∧ cons_stage (w_cpc w') = cons_stage (w_cpc w) ∧
  size_stage (w_cpc w') = size_stage (w_cpc w).

Lemma step_or_spin p p' :
  prog_inv p → pstep p p' → (steps_left p' < steps_left p)%nat ∨ same_progress p p'.
Proof using Hcap Hmax Htotal.
  clear Hu64. intros I Hs. pose proof (inv_lengths p I) as [Hle Hlen]. pose proof (inv_counts p I) as Hk.
  pose proof (pi_prod _ I) as Hp. pose proof (pi_cons _ I) as Hc. unfold steps_left, same_progress.
  unfold pstep in Hs. remember (Some p') as o eqn:Ho. destruct Hs as [w e o l l' Hw Hl|w x l a k Hm E].
  - destruct Hw; cbn in *; try (injection Ho as <-).
    all: repeat match goal with
      | H : context [if ?a <=? ?b then _ else _] |- _ => destruct (a <=? b)
      | H : context [if ?a =? ?b then _ else _] |- _ => destruct (a =? b)
      end.
    all: try (destruct (slot_write _ _ _ _ _) as [[? ?]|]; [injection Ho as <-|done]).
    all: try (destruct (slot_read _ _ _ _) as [[[? ?] ?]|]; [injection Ho as <-|done]).
    all: inversion Hl; subst; cbn in *; try (right; done); left.
    all: try match type of Hc with
      | is_Some _ ∧ _ => destruct Hc as [[? Hc] _]; rewrite Hc
      | ?o = None ∧ _ => destruct Hc as [Hc ?]; specialize (Hk Hc); rewrite ?Hc
      end.
    all: try (rewrite length_app in *; cbn in *).
    all: try (destruct (todo _) as [|? ?]; [done|]; cbn in * ).
    all: lia.
  - injection Ho as <-. left. cbn. rewrite E. cbn. lia.
Qed.

End Program.

Arguments Client : clear implicits.
Arguments Prog : clear implicits.
