(* ===== verification/Timestamp.v ===== *)
(** * Timestamps: parsing RFC 3339 into nanoseconds since the epoch

    Models [src/src/model/timestamp.h].  The characters are [char] values (signed,
    as on the platforms the build targets); [std::runtime_error] is the left
    side of a sum.  [std::chrono::sys_days] is given by the calendar arithmetic
    of the standard where the standard defines it (a year and month in range,
    any day of the month) and by a parameter where it leaves the value
    unspecified. *)

From stdpp Require Import base numbers list.
From Stdlib Require Import ZArith Lia.
From S2P Require Import Prelude.

Local Open Scope Z_scope.

(** ** The civil calendar *)

Definition is_leap (y : Z) : bool :=
  ((y mod 4 =? 0) && negb (y mod 100 =? 0)) || (y mod 400 =? 0).

(** Leap years up to and including [y]. *)
Definition leaps (y : Z) : Z := y / 4 - y / 100 + y / 400.

(** Days of the year before month [m]. *)
Definition month_start (leap : bool) (m : Z) : Z :=
  let l := if leap then 1 else 0 in
  if m <=? 1 then 0 else if m =? 2 then 31 else
  nth (Z.to_nat (m - 3)) [59; 90; 120; 151; 181; 212; 243; 273; 304; 334] 0 + l.

Definition month_length (leap : bool) (m : Z) : Z :=
  if m =? 2 then (if leap then 29 else 28)
  else if (m =? 4) || (m =? 6) || (m =? 9) || (m =? 11) then 30 else 31.

(** Days from 1970-01-01 to the given date. *)
Definition days_of_civil (y m d : Z) : Z :=
  365 * (y - 1970) + (leaps (y - 1) - leaps 1969) + month_start (is_leap y) m + (d - 1).

(** Where [sys_days{year{y} / month{m} / day{d}}] is specified. *)
Definition civil_specified (y m d : Z) : bool :=
  (-32767 <=? y) && (y <=? 32767) && (1 <=? m) && (m <=? 12) && (0 <=? d) && (d <=? 255).

(** ** The parser *)

Inductive TsError := MalformedTimestamp (s : list byte) | MustEndInZ (s : list byte).

Section Parser.
Context (days_unspecified : Z → Z → Z → Z).

Definition sys_days (y m d : Z) : Z :=
  if civil_specified y m d then days_of_civil y m d else days_unspecified y m d.

Definition char_at (s : list byte) (i : nat) : Z := schar_of_byte (default Init.Byte.x00 (s !! i)).

(** [auto d = [&](std::size_t i) { return static_cast<int>(s[i] - '0'); };] *)
Definition digit_at (s : list byte) (i : nat) : Z := char_at s i - 48.

Definition is_digit (b : byte) : bool := (48 <=? schar_of_byte b) && (schar_of_byte b <=? 57).

(** The first [while]: at most nine digits; [rest] is the string from [i] on. *)
Fixpoint frac_loop (rest : list byte) (digits : nat) (nano : Z) : Z * nat * list byte :=
  match rest with
  | c :: rest' =>
      if is_digit c && (digits <? 9)%nat
      then frac_loop rest' (S digits) (u64 (nano * 10 + u64 (schar_of_byte c - 48)))
      else (nano, digits, rest)
  | [] => (nano, digits, rest)
  end.

(** [for (int j = digits; j < 9; ++j) nano *= 10;] *)
Fixpoint scale_nano (k : nat) (nano : Z) : Z :=
  match k with O => nano | S k' => scale_nano k' (nano *u 10) end.

(** [while (i < s.size() && s[i] >= '0' && s[i] <= '9') ++i;] *)
Fixpoint skip_digits (rest : list byte) : list byte :=
  match rest with c :: rest' => if is_digit c then skip_digits rest' else rest | [] => [] end.

Definition fraction (rest : list byte) : Z * list byte :=
  match rest with
  | c :: rest' =>
      if schar_of_byte c =? 46 then
        let '(nano, digits, rest1) := frac_loop rest' 0 0 in
        (scale_nano (9 - digits) nano, skip_digits rest1)
      else (0, rest)
  | [] => (0, rest)
  end.

Definition parse_rfc3339_nano (s : list byte) : TsError + Z :=
  if (length s <? 20)%nat || negb (char_at s 4 =? 45) || negb (char_at s 7 =? 45)
     || negb (char_at s 10 =? 84) || negb (char_at s 13 =? 58) || negb (char_at s 16 =? 58)
  then inl (MalformedTimestamp s)
  else
    let d := digit_at s in
    let yr := d 0%nat * 1000 + d 1%nat * 100 + d 2%nat * 10 + d 3%nat in
    let mo := d 5%nat * 10 + d 6%nat in
    let dy := d 8%nat * 10 + d 9%nat in
    let hr := d 11%nat * 10 + d 12%nat in
    let mi := d 14%nat * 10 + d 15%nat in
    let sc := d 17%nat * 10 + d 18%nat in
    let '(nano, rest) := fraction (drop 19 s) in
    match rest with
    | z :: _ =>
        if schar_of_byte z =? 90 then
          let days_part_sec := sys_days yr mo dy * 86400 in
          let total_sec := days_part_sec + hr * 3600 + mi * 60 + sc in
          inr ((u64 total_sec *u 1000000000) +u nano)
        else inl (MustEndInZ s)
    | [] => inl (MustEndInZ s)
    end.

End Parser.

(** ** Printing: the reference for the round trip *)

Definition digit_byte (n : Z) : byte := byte_of_Z (48 + n).
Definition two_digits (n : Z) : list byte := [digit_byte (n / 10); digit_byte (n mod 10)].
Definition four_digits (n : Z) : list byte :=
  [digit_byte (n / 1000); digit_byte (n / 100 mod 10); digit_byte (n / 10 mod 10); digit_byte (n mod 10)].

Record DateTime := mkDateTime {
  dt_year : Z; dt_month : Z; dt_day : Z; dt_hour : Z; dt_minute : Z; dt_second : Z;
  dt_frac : list Z
}.

(** "YYYY-MM-DDTHH:MM:SS[.fraction]Z" *)
Definition print_rfc3339 (t : DateTime) : list byte :=
  four_digits (dt_year t) ++ [byte_of_Z 45] ++ two_digits (dt_month t) ++ [byte_of_Z 45] ++
  two_digits (dt_day t) ++ [byte_of_Z 84] ++ two_digits (dt_hour t) ++ [byte_of_Z 58] ++
  two_digits (dt_minute t) ++ [byte_of_Z 58] ++ two_digits (dt_second t) ++
  (match dt_frac t with [] => [] | fs => byte_of_Z 46 :: (digit_byte <$> fs) end) ++ [byte_of_Z 90].

Record dt_ok (t : DateTime) : Prop := {
  do_year : 1970 <= dt_year t <= 2500;
  do_month : 1 <= dt_month t <= 12;
  do_day : 1 <= dt_day t <= month_length (is_leap (dt_year t)) (dt_month t);
  do_hour : 0 <= dt_hour t < 24;
  do_minute : 0 <= dt_minute t < 60;
  do_second : 0 <= dt_second t < 60;
  do_frac : Forall (λ f, 0 <= f <= 9) (dt_frac t);
  do_fraclen : (length (dt_frac t) <= 9)%nat
}.

Definition frac_value (fs : list Z) : Z := foldl (λ n f, n * 10 + f) 0 fs.
Definition dt_nano (t : DateTime) : Z :=
  frac_value (dt_frac t) * 10 ^ Z.of_nat (9 - length (dt_frac t)).
Definition dt_seconds (t : DateTime) : Z :=
  days_of_civil (dt_year t) (dt_month t) (dt_day t) * 86400 +
  dt_hour t * 3600 + dt_minute t * 60 + dt_second t.

(** Nanoseconds since the epoch. *)
Definition dt_ns (t : DateTime) : Z := dt_seconds t * 1000000000 + dt_nano t.
