(* ===== verification/TimestampProofs.v ===== *)
(** * Timestamps: the parser inverts the printer and keeps the order

    Well-formed times are printed by a reference printer; parsing gives back the
    nanoseconds, and later times give larger values. *)

From stdpp Require Import base numbers list.
From Stdlib Require Import ZArith Lia.
From S2P Require Import Prelude Timestamp.

Local Open Scope Z_scope.

(** ** Digits *)

Lemma schar_ascii n : 0 <= n < 128 → schar_of_byte (byte_of_Z n) = n.
Proof.
  intros H. unfold schar_of_byte. rewrite Z_of_byte_of_Z, Z.mod_small by lia.
  destruct (Z.ltb_spec n 128); lia.
Qed.

Lemma schar_digit n : 0 <= n <= 9 → schar_of_byte (digit_byte n) = 48 + n.
Proof. intros H. apply schar_ascii. lia. Qed.

Lemma is_digit_digit n : 0 <= n <= 9 → is_digit (digit_byte n) = true.
Proof.
  intros H. unfold is_digit. rewrite schar_digit by done.
  apply andb_true_iff. rewrite !Z.leb_le. lia.
Qed.

(** ** The fraction *)

Lemma frac_value_snoc fs f : frac_value (fs ++ [f]) = frac_value fs * 10 + f.
Proof. unfold frac_value. by rewrite foldl_app. Qed.

Lemma frac_value_bound fs : Forall (λ f, 0 <= f <= 9) fs → 0 <= frac_value fs < 10 ^ Z.of_nat (length fs).
Proof.
  induction fs as [|f fs IH] using rev_ind; intros H; [cbn; lia|].
  apply Forall_app in H as [Hfs [Hf _]%Forall_cons]. specialize (IH Hfs).
  rewrite frac_value_snoc, length_app. cbn [length].
  replace (Z.of_nat (length fs + 1)) with (Z.of_nat (length fs) + 1) by lia.
  rewrite Z.pow_add_r by lia. lia.
Qed.

Lemma frac_loop_digits pre fs rest :
  Forall (λ f, 0 <= f <= 9) (pre ++ fs) → (length pre + length fs <= 9)%nat →
  (match rest with c :: _ => is_digit c = false | [] => True end) →
  frac_loop ((digit_byte <$> fs) ++ rest) (length pre) (frac_value pre) =
  (frac_value (pre ++ fs), (length pre + length fs)%nat, rest).
Proof.
  revert pre. induction fs as [|f fs IH]; intros pre Hf Hlen Hrest.
  { cbn [fmap list_fmap app length]. rewrite app_nil_r, Nat.add_0_r.
    destruct rest as [|c rest]; [done|]. cbn. by rewrite Hrest. }
  pose proof Hf as Hf'. apply Forall_app in Hf as [Hpre [Hf Hfs]%Forall_cons].
  cbn [length] in Hlen. rewrite fmap_cons. cbn [app frac_loop].
  rewrite is_digit_digit, schar_digit by done.
  destruct (Nat.ltb_spec (length pre) 9); [|lia]. cbn [andb].
  pose proof (frac_value_bound pre Hpre) as Hb.
  assert (Hp : 10 ^ Z.of_nat (length pre) <= 10 ^ 9) by (apply Z.pow_le_mono_r; lia).
  replace (48 + f - 48) with f by lia. rewrite (u64_small f) by (unfold is_u64; lia).
  rewrite u64_small by (unfold is_u64; lia). rewrite <- frac_value_snoc.
  replace (S (length pre)) with (length (pre ++ [f])) by (rewrite length_app; cbn; lia).
  change (f :: fs) with ([f] ++ fs) in *. rewrite app_assoc in *.
  rewrite IH; [|done|rewrite length_app; cbn; lia|done]. rewrite length_app.
  assert (length pre + length [f] + length fs = length pre + length ([f] ++ fs))%nat as ->; [cbn; lia|].
  done.
Qed.

Lemma scale_nano_pow k n : 0 <= n → n * 10 ^ Z.of_nat k < 2 ^ 64 → scale_nano k n = n * 10 ^ Z.of_nat k.
Proof.
  revert n. induction k as [|k IH]; intros n Hn Hb; [cbn; lia|]. cbn [scale_nano].
  replace (Z.of_nat (S k)) with (1 + Z.of_nat k) in * by lia. rewrite Z.pow_add_r in * by lia.
  pose proof (Z.pow_pos_nonneg 10 (Z.of_nat k)).
  assert (Hm : n *u 10 = n * 10).
  { unfold u64_mul. apply u64_small. unfold is_u64. nia. }
  rewrite Hm, IH by lia. lia.
Qed.

Lemma nano_bound t : dt_ok t → 0 <= dt_nano t < 10 ^ 9.
Proof.
  intros []. unfold dt_nano. pose proof (frac_value_bound _ do_frac) as Hb.
  assert (Hs : 10 ^ 9 = 10 ^ Z.of_nat (length (dt_frac t)) * 10 ^ Z.of_nat (9 - length (dt_frac t))).
  { rewrite <- Z.pow_add_r by lia. f_equal. lia. }
  rewrite Hs. pose proof (Z.pow_pos_nonneg 10 (Z.of_nat (9 - length (dt_frac t)))). nia.
Qed.

Lemma fraction_print t :
  dt_ok t →
  fraction ((match dt_frac t with [] => [] | fs => byte_of_Z 46 :: (digit_byte <$> fs) end)
            ++ [byte_of_Z 90]) = (dt_nano t, [byte_of_Z 90]).
Proof.
  intros Hok. pose proof (nano_bound t Hok) as Hn. unfold dt_nano in *.
  destruct Hok. destruct (dt_frac t) as [|f fs] eqn:E; [done|].
  change ((byte_of_Z 46 :: (digit_byte <$> f :: fs)) ++ [byte_of_Z 90])
    with (byte_of_Z 46 :: ((digit_byte <$> f :: fs) ++ [byte_of_Z 90])).
  unfold fraction. rewrite schar_ascii, Z.eqb_refl by lia.
  pose proof (frac_loop_digits [] (f :: fs) [byte_of_Z 90]) as Hl.
  change (frac_value []) with 0 in Hl. change (length (@nil Z)) with 0%nat in Hl. rewrite app_nil_l in Hl.
  rewrite Nat.add_0_l in Hl. rewrite Hl; [|done|done|done].
  pose proof (frac_value_bound _ do_frac). rewrite scale_nano_pow; [done|lia|lia].
Qed.

(** ** The calendar *)

Lemma leaps_step y : leaps y = leaps (y - 1) + (if is_leap y then 1 else 0).
Proof.
  unfold leaps, is_leap.
  assert (H4 : y / 4 = (y - 1) / 4 + (if y mod 4 =? 0 then 1 else 0)) by (zbool; Z.div_mod_to_equations; lia).
  assert (H100 : y / 100 = (y - 1) / 100 + (if y mod 100 =? 0 then 1 else 0)) by (zbool; Z.div_mod_to_equations; lia).
  assert (H400 : y / 400 = (y - 1) / 400 + (if y mod 400 =? 0 then 1 else 0)) by (zbool; Z.div_mod_to_equations; lia).
  rewrite H4, H100, H400. clear. zbool; cbn [andb orb negb]; try lia; exfalso; Z.div_mod_to_equations; lia.
Qed.

Lemma leaps_mono a b : a <= b → leaps a <= leaps b.
Proof.
  revert a. apply (interval_ind (λ a, leaps a <= leaps b)); [lia|].
  intros a Ha IH. pose proof (leaps_step (a + 1)) as Hs. replace (a + 1 - 1) with a in Hs by lia.
  destruct (is_leap (a + 1)); lia.
Qed.

Ltac months m :=
  let H := fresh in
  assert (m = 1 ∨ m = 2 ∨ m = 3 ∨ m = 4 ∨ m = 5 ∨ m = 6 ∨ m = 7 ∨ m = 8 ∨ m = 9 ∨ m = 10 ∨
          m = 11 ∨ m = 12) as H by lia;
  repeat (destruct H as [H|H]; [subst m|]); [..|subst m].

(** A month ends where the next one starts. *)
Lemma month_ends l m : 1 <= m <= 12 →
  month_start l m + month_length l m = if m =? 12 then (if l then 366 else 365) else month_start l (m + 1).
Proof. intros Hm. months m; destruct l; reflexivity. Qed.

Lemma month_length_bound l m : 28 <= month_length l m <= 31.
Proof. unfold month_length. repeat case_match; lia. Qed.

Lemma month_start_mono l m1 m2 : 1 <= m1 → m1 < m2 <= 12 → month_start l m1 + month_length l m1 <= month_start l m2.
Proof.
  intros H1 H2. revert m1 H1 H2.
  assert (G : ∀ m1, m1 <= m2 - 1 → 1 <= m1 → m2 <= 12 →
    month_start l m1 + month_length l m1 <= month_start l m2).
  { apply (interval_ind (λ m1, 1 <= m1 → m2 <= 12 → month_start l m1 + month_length l m1 <= month_start l m2)).
    - intros H1 H2. rewrite month_ends by lia. destruct (Z.eqb_spec (m2 - 1) 12); [lia|].
      replace (m2 - 1 + 1) with m2 by lia. lia.
    - intros m Hm IH H1 H2. specialize (IH ltac:(lia) H2). rewrite month_ends by lia.
      destruct (Z.eqb_spec m 12); [lia|]. pose proof (month_length_bound l (m + 1)). lia. }
  intros m1 H1 H2. apply G; lia.
Qed.

Lemma day_of_year l m d : 1 <= m <= 12 → 1 <= d <= month_length l m →
  0 <= month_start l m + (d - 1) < (if l then 366 else 365).
Proof.
  intros Hm Hd. assert (0 <= month_start l m).
  { destruct (Z.eq_dec m 1) as [->|]; [done|].
    pose proof (month_start_mono l 1 m ltac:(lia) ltac:(lia)).
    assert (month_start l 1 = 0) by done. pose proof (month_length_bound l 1). lia. }
  destruct (Z.eq_dec m 12) as [->|].
  - pose proof (month_ends l 12 ltac:(lia)) as He. change (12 =? 12) with true in He.
    destruct l; lia.
  - pose proof (month_start_mono l m 12 ltac:(lia) ltac:(lia)).
    pose proof (month_ends l 12 ltac:(lia)) as He. change (12 =? 12) with true in He.
    pose proof (month_length_bound l 12). destruct l; lia.
Qed.

Lemma year_days y : 365 * (y - 1970) + (leaps (y - 1) - leaps 1969) + (if is_leap y then 366 else 365)
  = 365 * (y + 1 - 1970) + (leaps y - leaps 1969).
Proof. rewrite (leaps_step y). destruct (is_leap y); lia. Qed.

Lemma days_year_mono y1 y2 : y1 < y2 →
  365 * (y1 - 1970) + (leaps (y1 - 1) - leaps 1969) + (if is_leap y1 then 366 else 365) <=
  365 * (y2 - 1970) + (leaps (y2 - 1) - leaps 1969).
Proof.
  intros H. rewrite year_days. pose proof (leaps_mono y1 (y2 - 1)). lia.
Qed.

Lemma days_nonneg t : dt_ok t → 0 <= days_of_civil (dt_year t) (dt_month t) (dt_day t) < 200000.
Proof.
  intros []. unfold days_of_civil. pose proof (day_of_year _ _ _ do_month do_day) as Hd.
  pose proof (leaps_mono 1969 (dt_year t - 1)). pose proof (leaps_mono (dt_year t - 1) 2499).
  assert (leaps 1969 = 477) by reflexivity. assert (leaps 2499 = 606) by reflexivity.
  destruct (is_leap _); lia.
Qed.

Lemma dt_seconds_range t : dt_ok t → 0 <= dt_seconds t < 200000 * 86400.
Proof.
  intros Hok. pose proof (days_nonneg t Hok). destruct Hok. unfold dt_seconds. lia.
Qed.

(** ** The parser on printed timestamps *)

Lemma sys_days_ok du t :
  dt_ok t → sys_days du (dt_year t) (dt_month t) (dt_day t) = days_of_civil (dt_year t) (dt_month t) (dt_day t).
Proof.
  intros []. unfold sys_days, civil_specified.
  pose proof (month_length_bound (is_leap (dt_year t)) (dt_month t)).
  repeat match goal with |- context [?a <=? ?b] => destruct (Z.leb_spec a b); [|lia] end. done.
Qed.

(** Decimal digits put back together. *)
Lemma two_digits_value n : 0 <= n < 100 → (n / 10) * 10 + n mod 10 = n.
Proof. intros. Z.div_mod_to_equations. lia. Qed.

Lemma four_digits_value n :
  n / 1000 * 1000 + n / 100 mod 10 * 100 + n / 10 mod 10 * 10 + n mod 10 = n.
Proof. Z.div_mod_to_equations. lia. Qed.

Lemma digit_range_div n k : 0 <= n < 10 * k → 0 < k → 0 <= n / k <= 9.
Proof. intros. Z.div_mod_to_equations. nia. Qed.

Lemma digit_range_mod n : 0 <= n mod 10 <= 9.
Proof. pose proof (Z.mod_pos_bound n 10). lia. Qed.

Lemma parse_print du t : dt_ok t → parse_rfc3339_nano du (print_rfc3339 t) = inr (dt_ns t).
Proof.
  intros Hok. pose proof (fraction_print t Hok) as Hfrac. pose proof (dt_seconds_range t Hok) as Hsec.
  pose proof (nano_bound t Hok) as Hnano. pose proof (sys_days_ok du t Hok) as Hdays.
  set (tl := (match dt_frac t with [] => [] | _ => _ end) ++ [byte_of_Z 90]) in Hfrac.
  assert (Htl : (1 <= length tl)%nat) by (unfold tl; rewrite length_app; cbn; lia).
  unfold print_rfc3339. fold tl. unfold four_digits, two_digits. cbn [app].
  unfold parse_rfc3339_nano, digit_at, char_at. cbn [lookup list_lookup default id from_option drop length].
  match goal with |- context [(?n <? 20)%nat] =>
    replace (n <? 20)%nat with false by (symmetry; apply Nat.ltb_ge; lia) end.
  pose proof (month_length_bound (is_leap (dt_year t)) (dt_month t)) as Hml. destruct Hok. rewrite !(schar_ascii 45), !(schar_ascii 84), !(schar_ascii 58) by lia.
  rewrite !Z.eqb_refl. cbn [negb orb]. rewrite !drop_0, Hfrac. rewrite (schar_ascii 90), Z.eqb_refl by lia.
  rewrite !schar_digit by (apply digit_range_mod || (apply digit_range_div; lia)).
  assert (Hd : ∀ x, 48 + x - 48 = x) by (intros; lia). rewrite !Hd.
  rewrite !two_digits_value, four_digits_value by lia.
  rewrite Hdays. fold (dt_seconds t). f_equal. unfold dt_ns.
  rewrite (u64_small (dt_seconds t)) by (unfold is_u64; lia).
  unfold u64_mul, u64_add. rewrite (u64_small (dt_seconds t * _)) by (unfold is_u64; lia).
  apply u64_small. unfold is_u64. lia.
Qed.

(** ** Order *)

Fixpoint lex_lt (a b : list Z) : Prop :=
  match a, b with
  | x :: a', y :: b' => x < y ∨ (x = y ∧ lex_lt a' b')
  | _, _ => False
  end.

Definition dt_key (t : DateTime) : list Z :=
  [dt_year t; dt_month t; dt_day t; dt_hour t; dt_minute t; dt_second t; dt_nano t].

Lemma days_lt t1 t2 :
  dt_ok t1 → dt_ok t2 →
  lex_lt [dt_year t1; dt_month t1; dt_day t1] [dt_year t2; dt_month t2; dt_day t2] →
  days_of_civil (dt_year t1) (dt_month t1) (dt_day t1) <
  days_of_civil (dt_year t2) (dt_month t2) (dt_day t2).
Proof.
  intros [] []. pose proof (day_of_year _ _ _ do_month do_day).
  pose proof (day_of_year _ _ _ do_month0 do_day0). unfold days_of_civil. cbn [lex_lt].
  intros [Hy|[Hy [Hm|[Hm [Hd|[_ []]]]]]].
  - pose proof (days_year_mono _ _ Hy). lia.
  - rewrite Hy in *. pose proof (month_start_mono (is_leap (dt_year t2)) (dt_month t1) (dt_month t2)). lia.
  - rewrite Hy, Hm in *. lia.
Qed.

Lemma dt_ns_lt t1 t2 : dt_ok t1 → dt_ok t2 → lex_lt (dt_key t1) (dt_key t2) → dt_ns t1 < dt_ns t2.
Proof.
  intros H1 H2 Hlt. pose proof (nano_bound t1 H1). pose proof (nano_bound t2 H2).
  pose proof (days_lt t1 t2 H1 H2) as Hday. unfold dt_key in Hlt. cbn [lex_lt] in *.
  unfold dt_ns, dt_seconds. destruct H1, H2.
  destruct Hlt as [?|(Ey&[?|(Em&[?|(Ed&Hlt)])])];
    [specialize (Hday ltac:(tauto)); lia..|]. rewrite Ey, Em, Ed.
  destruct Hlt as [?|(?&[?|(?&[?|(?&[?|(_&[])])])])]; lia.
Qed.

(** ** The properties *)

(** C32: Parsing inverts printing: for every civil date and time from 1970 to 2500,
    with no fraction or up to nine digits of it, the parser returns exactly the
    nanoseconds since the epoch that the calendar gives, without overflow,
    whatever the unspecified dates of [sys_days] are. *)
Theorem timestamp_roundtrip du t :
  dt_ok t → parse_rfc3339_nano du (print_rfc3339 t) = inr (dt_ns t).
Proof. apply parse_print. Qed.

(** Parsing keeps the order of time: of two timestamps the earlier one, read
    field by field from the year to the fraction, parses to the smaller number, so
    comparing the parsed numbers orders timestamps as the clock does. *)
Theorem timestamp_order du t1 t2 :
  dt_ok t1 → dt_ok t2 → lex_lt (dt_key t1) (dt_key t2) →
  ∃ n1 n2, parse_rfc3339_nano du (print_rfc3339 t1) = inr n1 ∧
           parse_rfc3339_nano du (print_rfc3339 t2) = inr n2 ∧ n1 < n2.
Proof.
  intros H1 H2 Hlt. exists (dt_ns t1), (dt_ns t2). rewrite !parse_print by done.
  split; [done|]. split; [done|]. by apply dt_ns_lt.
Qed.

(** 2024-02-29T23:59:59.5Z and the first second of March. *)
Definition leap_day : DateTime := mkDateTime 2024 2 29 23 59 59 [5].
Definition march_first : DateTime := mkDateTime 2024 3 1 0 0 0 [].

Lemma leap_day_ok : dt_ok leap_day.
Proof. split; cbn; try lia; [vm_compute; split; congruence|]. apply Forall_cons. split; [lia|constructor]. Qed.
Lemma march_first_ok : dt_ok march_first.
Proof. split; cbn; try lia; constructor. Qed.

Lemma timestamp_roundtrip_witness :
  parse_rfc3339_nano (λ _ _ _, 0) (print_rfc3339 leap_day) = inr 1709251199500000000.
Proof. rewrite (timestamp_roundtrip (λ _ _ _, 0) leap_day); [reflexivity|]. apply leap_day_ok. Defined.

Lemma timestamp_order_witness :
  ∃ n1 n2, parse_rfc3339_nano (λ _ _ _, 0) (print_rfc3339 leap_day) = inr n1 ∧
           parse_rfc3339_nano (λ _ _ _, 0) (print_rfc3339 march_first) = inr n2 ∧ n1 < n2.
Proof.
  apply (timestamp_order (λ _ _ _, 0) leap_day march_first);
    [apply leap_day_ok|apply march_first_ok|cbn; lia].
Defined.

(** ** What the shape check lets through

    Neither the digits nor the end of the string are checked: a timestamp with a
    letter among its digits is read as some other time, and anything may follow
    the [Z]. *)
Lemma bad_digit_accepted :
  parse_rfc3339_nano (λ _ _ _, 0)
    (byte_of_Z <$> [50;48;50;52;45;48;50;45;50;57;84;50;51;58;53;57;58;53;65;90]) = inr 1709251207000000000.
Proof. vm_compute. reflexivity. Qed.

Lemma trailing_garbage_accepted :
  parse_rfc3339_nano (λ _ _ _, 0) (print_rfc3339 march_first ++ [byte_of_Z 33; byte_of_Z 33]) =
  parse_rfc3339_nano (λ _ _ _, 0) (print_rfc3339 march_first).
Proof. vm_compute. reflexivity. Qed.
