(* ===== verification/Util.v ===== *)
(** * Utilities: reconnect backoff and latency histogram

    Models [src/src/util/backoff.h] and [src/src/util/histogram.h]. *)

From stdpp Require Import base numbers list.
From Stdlib Require Import ZArith Lia Floats.SpecFloat.
From S2P Require Import Prelude Float64.

Local Open Scope Z_scope.

(** ** Backoff *)

(** A 64-bit value read as [long long]. *)
Definition s64 (z : Z) : Z := let u := u64 z in if u <? 2 ^ 63 then u else u - 2 ^ 64.

(** [base.count() << attempt] on [long long]: the product modulo 2^64. *)
Definition backoff_ceiling (attempt base cap : Z) : Z :=
  if 32 <=? attempt then cap
  else
    let shifted := s64 (Z.shiftl base attempt) in
    if (shifted <=? 0) || (cap <? shifted) then cap else shifted.

(** ** LatencyHistogram *)

Record LatencyHistogram := mkHistogram {
  buckets_ : list Z;
  max_ns_ : Z;
  count_ : Z;
  sum_ns_ : Z;
  overflow_ : Z;
  min_ns_ : Z;
  max_observed_ : Z
}.

(** The constructor's default argument. *)
Definition kDefaultMaxNs : Z := 65535.

Definition hist_init (max_ns : Z) : LatencyHistogram :=
  mkHistogram (replicate (Z.to_nat (u64 (max_ns + 1))) 0) max_ns 0 0 0 UINT64_MAX 0.

Definition hist_record (ns : Z) (h : LatencyHistogram) : LatencyHistogram :=
  let count := count_ h +u 1 in
  let sum := sum_ns_ h +u ns in
  let mn := if ns <? min_ns_ h then ns else min_ns_ h in
  let mx := if max_observed_ h <? ns then ns else max_observed_ h in
  if max_ns_ h <? ns then
    mkHistogram (buckets_ h) (max_ns_ h) count sum (overflow_ h +u 1) mn mx
  else
    let i := Z.to_nat ns in
    mkHistogram (<[i := default 0 (buckets_ h !! i) +u 1]> (buckets_ h)) (max_ns_ h) count sum
      (overflow_ h) mn mx.

(** [static_cast<std::uint64_t>(x)]: truncation, [None] where it is undefined. *)
Definition trunc_u64 (x : double) : option Z :=
  match x with
  | S754_zero _ => Some 0
  | S754_finite s m e =>
      let v := if 0 <=? e then Z.pos m * 2 ^ e else Z.pos m / 2 ^ (- e) in
      if s then (if v =? 0 then Some 0 else None) else if v <? 2 ^ 64 then Some v else None
  | _ => None
  end.

(** The loop of [percentile] over the buckets from [ns] on. *)
Fixpoint percentile_loop (bs : list Z) (ns cumulative target : Z) : option Z :=
  match bs with
  | [] => None
  | b :: bs' =>
      let c := cumulative +u b in
      if target <=? c then Some ns else percentile_loop bs' (ns + 1) c target
  end.

Definition percentile (p : double) (h : LatencyHistogram) : option Z :=
  if count_ h =? 0 then Some 0
  else
    target ← trunc_u64 (fmul p (double_of_Z (count_ h)));
    Some (default (max_ns_ h +u 1) (percentile_loop (buckets_ h) 0 0 target)).

Definition hist_count (h : LatencyHistogram) : Z := count_ h.
Definition hist_overflow (h : LatencyHistogram) : Z := overflow_ h.
Definition hist_max (h : LatencyHistogram) : Z := max_observed_ h.
Definition hist_min (h : LatencyHistogram) : Z := if negb (count_ h =? 0) then min_ns_ h else 0.
Definition hist_mean (h : LatencyHistogram) : double :=
  if negb (count_ h =? 0) then fdiv (double_of_Z (sum_ns_ h)) (double_of_Z (count_ h)) else fzero.

Definition record_all (samples : list Z) (h : LatencyHistogram) : LatencyHistogram :=
  foldl (λ h ns, hist_record ns h) h samples.

(** ** Specification: the samples themselves *)

Definition count_le (v : Z) (l : list Z) : Z := countb (λ x, x <=? v) l.
Definition count_eq (v : Z) (l : list Z) : Z := countb (λ x, x =? v) l.
Definition count_gt (v : Z) (l : list Z) : Z := countb (λ x, v <? x) l.
