(* ===== verification/UtilProofs.v ===== *)
(** * Utilities: properties of the backoff and of the histogram

    The delay is the capped exponential; the histogram's counters are the samples'
    counts, and the percentile scan finds the sample of the target rank. *)

From stdpp Require Import base numbers list.
From Stdlib Require Import ZArith Lia Floats.SpecFloat.
From S2P Require Import Prelude Float64 Util.

Local Open Scope Z_scope.

(** ** Backoff *)

Lemma s64_small z : 0 <= z < 2 ^ 63 → s64 z = z.
Proof.
  intros H. unfold s64. rewrite u64_small by (unfold is_u64; lia).
  destruct (Z.ltb_spec z (2 ^ 63)); lia.
Qed.

Lemma backoff_min attempt base cap :
  0 < base < 2 ^ 32 → 0 <= attempt → 0 <= cap <= base * 2 ^ 32 →
  backoff_ceiling attempt base cap = Z.min cap (base * 2 ^ attempt).
Proof.
  intros Hb Ha Hc. unfold backoff_ceiling. destruct (Z.leb_spec 32 attempt).
  - assert (2 ^ 32 <= 2 ^ attempt) by (apply Z.pow_le_mono_r; lia). nia.
  - rewrite Z.shiftl_mul_pow2 by lia.
    assert (2 ^ attempt <= 2 ^ 31) by (apply Z.pow_le_mono_r; lia).
    pose proof (Z.pow_pos_nonneg 2 attempt).
    rewrite s64_small by nia.
    destruct (Z.leb_spec (base * 2 ^ attempt) 0); [nia|].
    destruct (Z.ltb_spec cap (base * 2 ^ attempt)); cbn; lia.
Qed.

(** For a base below 2^32 ms and a cap that 32 doublings reach, the ceiling is
    exactly [min(cap, base * 2^attempt)]; it never exceeds the cap and never
    shrinks as the attempts go on. *)
Theorem backoff_is_capped_exponential attempt base cap :
  0 < base < 2 ^ 32 → 0 <= attempt → 0 <= cap <= base * 2 ^ 32 →
  backoff_ceiling attempt base cap = Z.min cap (base * 2 ^ attempt) ∧
  backoff_ceiling attempt base cap <= backoff_ceiling (attempt + 1) base cap <= cap.
Proof.
  intros Hb Ha Hc. rewrite !backoff_min by lia. split; [done|].
  rewrite Z.pow_add_r by lia. pose proof (Z.pow_pos_nonneg 2 attempt). nia.
Qed.

(** The client's values: 250 ms doubling up to 30 s. *)
Lemma backoff_is_capped_exponential_witness :
  backoff_ceiling 3 250 30000 = Z.min 30000 (250 * 2 ^ 3) ∧
  backoff_ceiling 3 250 30000 <= backoff_ceiling (3 + 1) 250 30000 <= 30000.
Proof. apply (backoff_is_capped_exponential 3 250 30000); lia. Defined.

(** The shift can wrap past the sign bit back to a small positive value, which the
    test for overflow lets through. *)
Lemma backoff_wraps :
  backoff_ceiling 31 (2 ^ 33 + 1) (2 ^ 62) = 2 ^ 31.
Proof. vm_compute. reflexivity. Qed.

(** ** Histogram *)

Record hist_of (max_ns : Z) (h : LatencyHistogram) (l : list Z) : Prop := {
  ho_max_ns : max_ns_ h = max_ns;
  ho_len : length (buckets_ h) = Z.to_nat (max_ns + 1);
  ho_count : count_ h = Z.of_nat (length l);
  ho_sum : sum_ns_ h = u64 (foldr Z.add 0 l);
  ho_bucket : ∀ k, 0 <= k <= max_ns → buckets_ h !! Z.to_nat k = Some (count_eq k l);
  ho_overflow : overflow_ h = count_gt max_ns l;
  ho_min : min_ns_ h = foldr Z.min UINT64_MAX l;
  ho_max : max_observed_ h = foldr Z.max 0 l
}.

Lemma countb_snoc {A} (p : A → bool) l x : countb p (l ++ [x]) = countb p l + (if p x then 1 else 0).
Proof. rewrite countb_app, countb_cons. change (countb p []) with 0. lia. Qed.

Lemma foldr_snoc_comm (f : Z → Z → Z) z l x :
  (∀ a b, f a b = f b a) → (∀ a b c, f a (f b c) = f (f a b) c) →
  foldr f z (l ++ [x]) = f (foldr f z l) x.
Proof.
  intros Hc Ha. rewrite foldr_app. cbn. induction l as [|y l IH]; cbn; [apply Hc|].
  by rewrite IH, Ha.
Qed.

Lemma hist_init_of max_ns : 0 <= max_ns < 2 ^ 64 - 1 → hist_of max_ns (hist_init max_ns) [].
Proof.
  intros H. unfold hist_init. rewrite u64_small by (unfold is_u64; lia).
  split; cbn; try done.
  - apply length_replicate.
  - intros k Hk. apply lookup_replicate_2. lia.
Qed.

Lemma hist_record_of max_ns h l ns :
  0 <= max_ns < 2 ^ 64 - 1 → hist_of max_ns h l → is_u64 ns →
  Z.of_nat (length l) < 2 ^ 64 - 1 → hist_of max_ns (hist_record ns h) (l ++ [ns]).
Proof.
  intros Hm [H1 H2 H3 H4 H5 H6 H7 H8] Hns Hlen. unfold is_u64 in Hns.
  assert (Hcount : count_ h +u 1 = Z.of_nat (length (l ++ [ns]))).
  { rewrite H3, length_app, u64_add_small by lia. cbn. lia. }
  assert (Hsum : sum_ns_ h +u ns = u64 (foldr Z.add 0 (l ++ [ns]))).
  { rewrite H4, foldr_snoc_comm by lia. unfold u64_add, u64. by rewrite Zplus_mod_idemp_l. }
  assert (Hmin : (if ns <? min_ns_ h then ns else min_ns_ h) = foldr Z.min UINT64_MAX (l ++ [ns])).
  { rewrite H7, foldr_snoc_comm by lia. destruct (Z.ltb_spec ns (foldr Z.min UINT64_MAX l)); lia. }
  assert (Hmax : (if max_observed_ h <? ns then ns else max_observed_ h) = foldr Z.max 0 (l ++ [ns])).
  { rewrite H8, foldr_snoc_comm by lia. destruct (Z.ltb_spec (foldr Z.max 0 l) ns); lia. }
  assert (Hgt : count_gt max_ns l <= Z.of_nat (length l)) by apply countb_le.
  assert (Heq : ∀ k, 0 <= count_eq k l <= Z.of_nat (length l)) by (intros; apply countb_le).
  unfold hist_record. rewrite H1. destruct (Z.ltb_spec max_ns ns) as [Hov|Hin].
  - split; cbn; try done.
    + intros k Hk. rewrite H5 by done. unfold count_eq. rewrite countb_snoc.
      destruct (Z.eqb_spec ns k); [lia|]. f_equal. lia.
    + rewrite H6. unfold count_gt in *. rewrite countb_snoc. destruct (Z.ltb_spec max_ns ns); [|lia].
      pose proof (countb_le (λ x, max_ns <? x) l). apply u64_add_small. lia.
  - split; cbn; try done.
    + by rewrite length_insert.
    + intros k Hk. destruct (Z.eq_dec k ns) as [->|Hne].
      * rewrite list_lookup_insert_eq by lia. rewrite H5 by lia. cbn. f_equal.
        unfold count_eq in *. rewrite countb_snoc, Z.eqb_refl. apply u64_add_small.
        specialize (Heq ns). lia.
      * rewrite list_lookup_insert_ne by lia. rewrite H5 by lia. unfold count_eq.
        rewrite countb_snoc. destruct (Z.eqb_spec ns k); [lia|]. f_equal. lia.
    + rewrite H6. unfold count_gt. rewrite countb_snoc. destruct (Z.ltb_spec max_ns ns); lia.
Qed.

Lemma record_all_of max_ns samples :
  0 <= max_ns < 2 ^ 64 - 1 → Forall is_u64 samples → Z.of_nat (length samples) < 2 ^ 64 →
  hist_of max_ns (record_all samples (hist_init max_ns)) samples.
Proof.
  intros Hm. induction samples as [|x l IH] using rev_ind; intros Hs Hlen.
  { by apply hist_init_of. }
  apply Forall_app in Hs as [Hl [Hx _]%Forall_cons]. rewrite length_app in Hlen. cbn in Hlen.
  unfold record_all. rewrite foldl_app. cbn [foldl]. apply hist_record_of; [done| |done|lia].
  apply IH; [done|lia].
Qed.

(** ** Percentiles *)

Lemma count_le_step v l : count_le v l = count_le (v - 1) l + count_eq v l.
Proof.
  unfold count_le, count_eq. induction l as [|x l IH]; [done|]. rewrite !countb_cons, IH.
  zbool; lia.
Qed.

Lemma count_le_neg l : Forall is_u64 l → count_le (-1) l = 0.
Proof.
  intros Hl. apply countb_none. intros i x Hi. apply Z.leb_gt.
  rewrite Forall_lookup in Hl. specialize (Hl i x Hi). unfold is_u64 in Hl. lia.
Qed.

(** From bucket [ns] on, with everything below it counted. *)
Lemma percentile_loop_spec l max_ns bs ns target :
  0 <= ns → Z.of_nat (length bs) = max_ns + 1 - ns → Z.of_nat (length l) < 2 ^ 64 →
  (∀ i, (i < length bs)%nat → bs !! i = Some (count_eq (ns + Z.of_nat i) l)) →
  match percentile_loop bs ns (count_le (ns - 1) l) target with
  | Some v => ns <= v <= max_ns ∧ target <= count_le v l ∧
      ∀ u, ns <= u < v → count_le u l < target
  | None => ∀ u, ns <= u <= max_ns → count_le u l < target
  end.
Proof.
  revert ns. induction bs as [|b bs IH]; intros ns Hns Hlen Hl Hb; cbn [percentile_loop].
  { cbn in Hlen. intros u Hu. lia. }
  cbn [length] in Hlen. pose proof (Hb 0%nat ltac:(cbn; lia)) as Hb0.
  rewrite Z.add_0_r in Hb0. injection Hb0 as ->.
  assert (Hc : count_le (ns - 1) l +u count_eq ns l = count_le ns l).
  { rewrite (count_le_step ns l). apply u64_add_small.
    pose proof (countb_le (λ x, x <=? ns) l) as Hle. fold (count_le ns l) in Hle.
    rewrite <- count_le_step. lia. }
  rewrite Hc. destruct (Z.leb_spec target (count_le ns l)).
  { split; [lia|]. split; [done|]. intros; lia. }
  specialize (IH (ns + 1) ltac:(lia) ltac:(lia) Hl).
  replace (ns + 1 - 1) with ns in IH by lia.
  assert (Htl : ∀ i, (i < length bs)%nat → bs !! i = Some (count_eq (ns + 1 + Z.of_nat i) l)).
  { intros i Hi. specialize (Hb (S i) ltac:(cbn; lia)).
    replace (ns + 1 + Z.of_nat i) with (ns + Z.of_nat (S i)) by lia. exact Hb. }
  specialize (IH Htl). destruct (percentile_loop _ _ _ _) as [v|].
  - destruct IH as (?&?&Hu). split; [lia|]. split; [done|]. intros u Hu'.
    destruct (Z.eq_dec u ns) as [->|]; [done|]. apply Hu. lia.
  - intros u Hu. destruct (Z.eq_dec u ns) as [->|]; [done|]. apply IH. lia.
Qed.

(** The histogram is exact: after any samples (fewer than 2^64), each bucket
    holds the number of samples with that value, the overflow counter the number
    above [max_ns], and count, sum, minimum and maximum are those of the samples; the
    buckets are never indexed out of range. *)
Theorem histogram_counts_samples max_ns samples k :
  0 <= max_ns < 2 ^ 64 - 1 → Forall is_u64 samples → Z.of_nat (length samples) < 2 ^ 64 →
  0 <= k <= max_ns →
  let h := record_all samples (hist_init max_ns) in
  buckets_ h !! Z.to_nat k = Some (count_eq k samples) ∧
  overflow_ h = count_gt max_ns samples ∧ count_ h = Z.of_nat (length samples) ∧
  sum_ns_ h = u64 (foldr Z.add 0 samples) ∧
  min_ns_ h = foldr Z.min UINT64_MAX samples ∧ max_observed_ h = foldr Z.max 0 samples.
Proof.
  intros Hm Hs Hlen Hk. cbn zeta. destruct (record_all_of max_ns samples Hm Hs Hlen).
  repeat split; auto.
Qed.

Lemma histogram_counts_samples_witness :
  let h := record_all [7; 3; 7; 100] (hist_init 15) in
  buckets_ h !! Z.to_nat 7 = Some 2 ∧
  overflow_ h = 1 ∧ count_ h = 4 ∧ sum_ns_ h = u64 117 ∧ min_ns_ h = 3 ∧ max_observed_ h = 100.
Proof.
  apply (histogram_counts_samples 15 [7; 3; 7; 100] 7); [lia| |cbn; lia|lia].
  repeat constructor; unfold is_u64; lia.
Defined.

(** [percentile(p)] is the least latency at or below which the truncated number
    [p * count] of samples lie; when not even [max_ns] reaches it the result is
    [max_ns + 1]. *)
Theorem histogram_percentile max_ns samples p target :
  0 <= max_ns < 2 ^ 64 - 1 → Forall is_u64 samples → Z.of_nat (length samples) < 2 ^ 64 →
  samples ≠ [] →
  trunc_u64 (fmul p (double_of_Z (Z.of_nat (length samples)))) = Some target →
  ∃ v, percentile p (record_all samples (hist_init max_ns)) = Some v ∧ 0 <= v <= max_ns + 1 ∧
    (v <= max_ns → target <= count_le v samples) ∧
    (∀ u, 0 <= u < v → count_le u samples < target).
Proof.
  intros Hm Hs Hlen Hne Ht. destruct (record_all_of max_ns samples Hm Hs Hlen) as [H1 H2 H3 H4 H5 H6 H7 H8].
  set (h := record_all samples (hist_init max_ns)) in *.
  pose proof (percentile_loop_spec samples max_ns (buckets_ h) 0 target) as Hloop.
  rewrite count_le_neg in Hloop by done.
  assert (Hb : ∀ i, (i < length (buckets_ h))%nat → buckets_ h !! i = Some (count_eq (0 + Z.of_nat i) samples)).
  { intros i Hi. rewrite <- (H5 (0 + Z.of_nat i)) by lia. f_equal. lia. }
  specialize (Hloop ltac:(lia) ltac:(lia) Hlen Hb).
  unfold percentile. rewrite H3. destruct (Z.eqb_spec (Z.of_nat (length samples)) 0) as [E|_].
  { destruct samples; [done|cbn in E; lia]. }
  rewrite Ht. cbn [mbind option_bind]. destruct (percentile_loop _ _ _ _) as [v|]; cbn [default id].
  - destruct Hloop as (Hv&Hc&Hu). exists v. split; [done|]. split; [lia|]. split; [auto|]. auto.
  - exists (max_ns + 1). rewrite H1, u64_add_small by lia. split; [done|]. split; [lia|].
    split; [lia|]. intros u Hu. apply Hloop. lia.
Qed.

Lemma histogram_percentile_witness :
  ∃ v, percentile (lit 1 2) (record_all [3; 7; 9; 100] (hist_init 15)) = Some v ∧ 0 <= v <= 15 + 1 ∧
    (v <= 15 → 2 <= count_le v [3; 7; 9; 100]) ∧
    (∀ u, 0 <= u < v → count_le u [3; 7; 9; 100] < 2).
Proof.
  apply (histogram_percentile 15 [3; 7; 9; 100] (lit 1 2) 2);
    [lia| |cbn; lia|discriminate|vm_compute; reflexivity].
  repeat constructor; unfold is_u64; lia.
Defined.

(** The target is truncated, so the result can lie below every sample: the median of
    the single sample 50 is reported as 0. *)
Lemma median_of_one_sample :
  percentile (lit 1 2) (record_all [50] (hist_init 100)) = Some 0.
Proof. vm_compute. reflexivity. Qed.
