(* ===== verification/Harness.v ===== *)
(** * Harnesses: feed handler, replay benchmark, sharded replay

    Models the parts of [src/src/bin/feed_handler.cpp], [replay_bench.cpp] and
    [replay_bench_mt.cpp] that carry logic: how records are dispatched to the
    validator and what is counted, the composition of arbitrator and validator, and
    the partition of a data set over threads.  The packets of each drain and the elapsed
    times are inputs here; [FeedMain.v], [ReplayMain.v] and [MtRun.v] hold the programs
    around them. *)

From stdpp Require Import base numbers list gmap.
From Stdlib Require Import ZArith Lia.
From S2P Require Import Prelude Float64 Wire Validator Arbitrator Util.

Local Open Scope Z_scope.

(** ** Dispatch *)

(** The [if]/[else if]/[else] of the replay benchmarks: any other type is a quote. *)
Definition dispatch_replay (r : WireRecord) : Msg :=
  if wr_type r =? RecordType_u8 Trade then MTrade (body_trade r)
  else if wr_type r =? RecordType_u8 Bar then MBar (body_bar r)
  else MQuote (body_quote r).

(** The [switch] of the feed handler's sink: any other type is ignored. *)
Definition dispatch_sink (r : WireRecord) : option Msg :=
  if wr_type r =? RecordType_u8 Trade then Some (MTrade (body_trade r))
  else if wr_type r =? RecordType_u8 Bar then Some (MBar (body_bar r))
  else if wr_type r =? RecordType_u8 Quote then Some (MQuote (body_quote r))
  else None.

(** ** feed_handler *)

Record Handler := mkHandler {
  h_arb : FeedArbitrator;
  h_validator : list Slot;
  h_violations : Z
}.

(** One call of the sink lambda. *)
Definition sink_call (call : Z * WireRecord) (hv : list Slot * Z) : list Slot * Z :=
  match dispatch_sink call.2 with
  | Some m => let '(r, tbl) := check m hv.1 in
              (tbl, hv.2 +u (if r_flags r =? 0 then 0 else 1))
  | None => hv
  end.

Definition sink_calls (log : sink_log) (hv : list Slot * Z) : list Slot * Z :=
  foldl (λ hv call, sink_call call hv) hv log.

(** The sink does not touch the arbitrator, so its calls can be made after the
    operation that issues them, in the same order. *)
Definition handler_op (W : Z) (o : arb_op) (h : Handler) : option Handler :=
  '(arb, log) ← arb_step W o (h_arb h);
  let '(tbl, v) := sink_calls log (h_validator h, h_violations h) in
  Some (mkHandler arb tbl v).

Fixpoint handler_ops (W : Z) (ops : list arb_op) (h : Handler) : option Handler :=
  match ops with
  | [] => Some h
  | o :: ops' => h1 ← handler_op W o h; handler_ops W ops' h1
  end.

Definition handler_window : Z := 4096.

Definition handler_init : Handler := mkHandler (arb_init handler_window) validator_init 0.

(** [main]: per iteration everything on line A, then everything on line B; the
    final flush. *)
Definition drains (iters : list (list FeedPacket * list FeedPacket)) : list FeedPacket :=
  concat ((λ ab, ab.1 ++ ab.2) <$> iters).

Definition handler_main (iters : list (list FeedPacket * list FeedPacket)) : option Handler :=
  handler_ops handler_window ((Offer <$> drains iters) ++ [Flush]) handler_init.

(** ** replay_bench *)

Record BenchCounts := mkBenchCounts {
  bad_trades : Z; bad_bars : Z; seq_gaps : Z; ts_regress : Z;
  recon_vol : Z; recon_cnt : Z; recon_vwap : Z; recon_ohlc : Z;
  q_crossed : Z; q_locked : Z; q_nonpos : Z; q_zerosize : Z;
  band_breach : Z
}.

Definition zero_counts : BenchCounts := mkBenchCounts 0 0 0 0 0 0 0 0 0 0 0 0 0.

(** [if (c) ++n;] *)
Definition incr_if (c : bool) (n : Z) : Z := if c then n +u 1 else n.

Definition bar_invariant_mask : Z :=
  Z.lor kBarLowAboveHigh (Z.lor kBarOpenOutOfRange (Z.lor kBarCloseOutOfRange
    (Z.lor kBarVwapOutOfRange (Z.lor kBarNonPositivePrice kBarVolumeInconsistent)))).

Definition count_result (m : Msg) (r : Result) (c : BenchCounts) : BenchCounts :=
  match m with
  | MTrade _ =>
      mkBenchCounts
        (incr_if (has r kTradeNonPositivePrice || has r kTradeNonPositiveSize) (bad_trades c))
        (bad_bars c) (incr_if (has r kSequenceGap) (seq_gaps c))
        (incr_if (has r kTimestampRegression) (ts_regress c))
        (recon_vol c) (recon_cnt c) (recon_vwap c) (recon_ohlc c)
        (q_crossed c) (q_locked c) (q_nonpos c) (q_zerosize c)
        (incr_if (has r kPriceBandBreach) (band_breach c))
  | MBar _ =>
      mkBenchCounts (bad_trades c)
        (incr_if (has r bar_invariant_mask) (bad_bars c))
        (incr_if (has r kSequenceGap) (seq_gaps c))
        (incr_if (has r kTimestampRegression) (ts_regress c))
        (incr_if (has r kBarVolumeReconstructMismatch) (recon_vol c))
        (incr_if (has r kBarTradeCountReconstructMismatch) (recon_cnt c))
        (incr_if (has r kBarVwapReconstructMismatch) (recon_vwap c))
        (incr_if (has r kBarOhlcReconstructMismatch) (recon_ohlc c))
        (q_crossed c) (q_locked c) (q_nonpos c) (q_zerosize c) (band_breach c)
  | MQuote _ =>
      mkBenchCounts (bad_trades c) (bad_bars c)
        (incr_if (has r kSequenceGap) (seq_gaps c))
        (incr_if (has r kTimestampRegression) (ts_regress c))
        (recon_vol c) (recon_cnt c) (recon_vwap c) (recon_ohlc c)
        (incr_if (has r kQuoteCrossed) (q_crossed c))
        (incr_if (has r kQuoteLocked) (q_locked c))
        (incr_if (has r kQuoteNonPositive) (q_nonpos c))
        (incr_if (has r kQuoteZeroSize) (q_zerosize c))
        (incr_if (has r kPriceBandBreach) (band_breach c))
  end.

(** The warm pass. *)
Fixpoint warm_pass (recs : list WireRecord) (tbl : list Slot) (c : BenchCounts) : BenchCounts :=
  match recs with
  | [] => c
  | rec :: recs' =>
      let m := dispatch_replay rec in
      let '(r, tbl') := check m tbl in
      warm_pass recs' tbl' (count_result m r c)
  end.

(** One timed pass: [checksum += v.check(...).flags] over the records. *)
Fixpoint checksum_pass (recs : list WireRecord) (tbl : list Slot) (sum : Z) : Z :=
  match recs with
  | [] => sum
  | rec :: recs' =>
      let '(r, tbl') := check (dispatch_replay rec) tbl in
      checksum_pass recs' tbl' (sum +u r_flags r)
  end.

(** The timed passes, given the clock readings of each: a fresh validator per pass,
    one histogram sample per pass.  [None] is the division by zero of
    [(t1 - t0) / count]. *)
Fixpoint timed_passes (recs : list WireRecord) (clocks : list (Z * Z)) (sum : Z)
    (h : LatencyHistogram) : option (Z * LatencyHistogram) :=
  match clocks with
  | [] => Some (sum, h)
  | (t0, t1) :: clocks' =>
      let sum' := checksum_pass recs validator_init sum in
      let count := Z.of_nat (length recs) in
      if count =? 0 then None
      else timed_passes recs clocks' sum' (hist_record ((t1 -u t0) / count) h)
  end.

(** ** replay_bench_mt *)

(** The symbol is the first eight bytes of the body, whatever the record's type. *)
Definition record_symbol (r : WireRecord) : list byte :=
  if wr_type r =? RecordType_u8 Trade then wt_symbol (body_trade r) else wb_symbol (body_bar r).

Definition owner (T : Z) (r : WireRecord) : Z :=
  Z.shiftr (symbol_key (record_symbol r) *u kFib) 32 mod T.

(** [shards[owner].push_back(records[i])] for every record, in order. *)
Definition shard (T : Z) (recs : list WireRecord) (t : Z) : list WireRecord :=
  filter (λ r, owner T r = t) recs.

(** A worker: [passes] passes over its shard, a fresh validator each. *)
Fixpoint worker (passes : nat) (recs : list WireRecord) (sum : Z) : Z :=
  match passes with
  | O => sum
  | S p => worker p recs (checksum_pass recs validator_init sum)
  end.

Definition checksums (T : Z) (passes : nat) (recs : list WireRecord) : list Z :=
  (λ t, worker passes (shard T recs t) 0) <$> seqZ 0 T.
