(* ===== verification/HarnessProofs.v ===== *)
(** * Harnesses: what the tallies mean

    The feed handler reports the violations of the published stream whatever the
    arrival order; the replay benchmark counts exactly the flagged records and its
    checksum is a multiple of one pass's; sharding by symbol changes no result. *)

From stdpp Require Import base numbers list list_numbers gmap.
From Stdlib Require Import ZArith Lia.
From S2P Require Import Prelude Float64 Wire Validator ValidatorTable ValidatorProps.
From S2P Require Import Arbitrator ArbitratorProofs ArbitratorSessions Util Harness.

Local Open Scope Z_scope.

Definition flagged (r : Result) : bool := negb (r_flags r =? 0).

Lemma check_all_cons m ms tbl :
  check_all (m :: ms) tbl =
  ((check m tbl).1 :: (check_all ms (check m tbl).2).1, (check_all ms (check m tbl).2).2).
Proof. cbn. destruct (check m tbl) as [r tbl1]. cbn. by destruct (check_all ms tbl1). Qed.

Lemma u64_add_u64_l x y : u64 (u64 x + y) = u64 (x + y).
Proof. unfold u64. by rewrite Zplus_mod_idemp_l. Qed.

Lemma u64_add_u64_r x y : u64 (x + u64 y) = u64 (x + y).
Proof. unfold u64. by rewrite Zplus_mod_idemp_r. Qed.

(** ** The feed handler *)

(** The records the sink validates, in order. *)
Definition validated (recs : list WireRecord) : list Msg := omap dispatch_sink recs.

Lemma sink_calls_check_all log tbl v :
  is_u64 v →
  sink_calls log (tbl, v) =
  ((check_all (validated log.*2) tbl).2,
   u64 (v + countb flagged (check_all (validated log.*2) tbl).1)).
Proof.
  unfold sink_calls. revert tbl v. induction log as [|[k r] log IH]; intros tbl v Hv.
  { cbn. unfold countb. cbn. by rewrite Z.add_0_r, u64_small. }
  cbn [foldl fmap list_fmap snd validated omap list_omap]. unfold sink_call at 2. cbn [snd fst].
  destruct (dispatch_sink r) as [m|]; [|by apply IH].
  rewrite check_all_cons. destruct (check m tbl) as [res tbl1]. cbn [fst snd].
  rewrite IH by auto with u64. f_equal. rewrite countb_cons. unfold u64_add.
  rewrite u64_add_u64_l. f_equal. fold (validated log.*2).
  assert ((if flagged res then 1 else 0) = if r_flags res =? 0 then 0 else 1) as ->; [|lia].
  unfold flagged. by destruct (r_flags res =? 0).
Qed.

Lemma handler_ops_run W ops h :
  is_u64 (h_violations h) →
  handler_ops W ops h =
  '(arb, log) ← arb_run W ops (h_arb h);
  let hv := sink_calls log (h_validator h, h_violations h) in
  Some (mkHandler arb hv.1 hv.2).
Proof.
  revert h. induction ops as [|o ops IH]; intros h Hh; [by destruct h|].
  cbn [handler_ops arb_run]. unfold handler_op.
  destruct (arb_step W o (h_arb h)) as [[arb1 log1]|]; [|done]. cbn [mbind option_bind].
  rewrite sink_calls_check_all by done. cbn [mbind option_bind]. rewrite IH by apply u64_is.
  cbn [h_arb h_validator h_violations].
  destruct (arb_run W ops arb1) as [[arb2 log2]|]; [|done]. cbn [mbind option_bind].
  unfold sink_calls. rewrite foldl_app. fold (sink_calls log1 (h_validator h, h_violations h)).
  by rewrite sink_calls_check_all.
Qed.

(** ** Checksums *)

Definition flag_sum (rs : list Result) : Z := foldr Z.add 0 (r_flags <$> rs).

Definition msgs (recs : list WireRecord) : list Msg := dispatch_replay <$> recs.

Lemma checksum_pass_sum recs tbl sum :
  is_u64 sum →
  checksum_pass recs tbl sum = u64 (sum + flag_sum (check_all (msgs recs) tbl).1).
Proof.
  revert tbl sum. induction recs as [|r recs IH]; intros tbl sum Hs.
  { cbn. by rewrite Z.add_0_r, u64_small. }
  cbn [checksum_pass msgs fmap list_fmap]. rewrite check_all_cons.
  destruct (check (dispatch_replay r) tbl) as [res tbl1]. cbn [fst snd].
  rewrite IH by auto with u64. unfold u64_add. rewrite u64_add_u64_l. f_equal.
  unfold flag_sum. cbn [fmap list_fmap foldr]. fold (msgs recs). lia.
Qed.

Definition pass_sum (recs : list WireRecord) : Z :=
  flag_sum (check_all (msgs recs) validator_init).1.

Lemma worker_sum passes recs sum :
  is_u64 sum → worker passes recs sum = u64 (sum + Z.of_nat passes * pass_sum recs).
Proof.
  revert sum. induction passes as [|p IH]; intros sum Hs; cbn [worker].
  { by rewrite Z.mul_0_l, Z.add_0_r, u64_small. }
  rewrite checksum_pass_sum by done. rewrite IH by apply u64_is. rewrite u64_add_u64_l.
  fold (pass_sum recs). f_equal. lia.
Qed.

(** ** Counters of the warm pass *)

(** A counter [F] that the pass increments for the records satisfying [p]. *)
Lemma warm_pass_counter (F : BenchCounts → Z) (p : Msg → Result → bool) recs tbl c :
  (∀ m r c, F (count_result m r c) = incr_if (p m r) (F c)) → is_u64 (F c) →
  F (warm_pass recs tbl c) =
  u64 (F c + countb (λ mr, p mr.1 mr.2) (zip (msgs recs) (check_all (msgs recs) tbl).1)).
Proof.
  intros HF. revert tbl c. induction recs as [|r recs IH]; intros tbl c Hc.
  { cbn. unfold countb. cbn. by rewrite Z.add_0_r, u64_small. }
  cbn [warm_pass msgs fmap list_fmap]. rewrite check_all_cons.
  destruct (check (dispatch_replay r) tbl) as [res tbl1]. cbn [fst snd zip_with].
  rewrite countb_cons. cbn [fst snd]. rewrite IH, HF; unfold incr_if.
  - fold (msgs recs). destruct (p _ _); unfold u64_add; rewrite ?u64_add_u64_l; f_equal; lia.
  - rewrite HF. unfold incr_if. destruct (p _ _); [auto with u64|done].
Qed.

Definition is_trade (m : Msg) : bool := match m with MTrade _ => true | _ => false end.
Definition is_bar (m : Msg) : bool := match m with MBar _ => true | _ => false end.
Definition is_quote (m : Msg) : bool := match m with MQuote _ => true | _ => false end.

(** How many records of the stream satisfy [p], as a 64-bit counter. *)
Definition tally (recs : list WireRecord) (p : Msg → Result → bool) : Z :=
  u64 (countb (λ mr, p mr.1 mr.2)
         (zip (msgs recs) (check_all (msgs recs) validator_init).1)).

Lemma warm_pass_tally (F : BenchCounts → Z) p recs :
  (∀ m r c, F (count_result m r c) = incr_if (p m r) (F c)) → F zero_counts = 0 →
  F (warm_pass recs validator_init zero_counts) = tally recs p.
Proof.
  intros HF H0. rewrite (warm_pass_counter F p), H0; [done|done|]. rewrite H0. done.
Qed.

(** ** Sharding *)

Definition zsum (l : list Z) : Z := foldr Z.add 0 l.

Lemma zsum_indicator (c v : Z) l :
  NoDup l → c ∈ l → zsum ((λ t, if decide (c = t) then v else 0) <$> l) = v.
Proof.
  induction 1 as [|t l Ht Hl IH]; intros Hc; [set_solver|]. cbn [fmap list_fmap zsum foldr].
  fold (zsum ((λ t, if decide (c = t) then v else 0) <$> l)).
  destruct (decide (c = t)) as [->|Hne]; [|rewrite IH by set_solver; lia].
  assert (zsum ((λ t', if decide (t = t') then v else 0) <$> l) = 0) as ->; [|lia].
  clear -Ht. induction l as [|x l IH]; [done|]. cbn [fmap list_fmap zsum foldr].
  rewrite decide_False by set_solver. apply IH. set_solver.
Qed.

Lemma zsum_add {A} (f g : A → Z) l :
  zsum ((λ t, f t + g t) <$> l) = zsum (f <$> l) + zsum (g <$> l).
Proof. unfold zsum. induction l as [|x l IH]; [done|]. cbn in *. lia. Qed.

(** Summing the parts of a partition gives the whole. *)
Lemma zsum_partition {A} (g f : A → Z) T (l : list A) :
  Forall (λ x, 0 <= g x < T) l →
  zsum ((λ t, zsum (f <$> filter (λ x, g x = t) l)) <$> seqZ 0 T) = zsum (f <$> l).
Proof.
  induction l as [|x l IH]; intros Hl.
  { cbn. unfold zsum. induction (seqZ 0 T); [done|]. cbn. lia. }
  apply Forall_cons in Hl as [Hx Hl]. rewrite fmap_cons. cbn [zsum foldr].
  fold (zsum (f <$> l)). rewrite <- IH by done.
  rewrite <- (zsum_indicator (g x) (f x) (seqZ 0 T)) at 1; [|apply NoDup_seqZ|apply elem_of_seqZ; lia].
  rewrite <- zsum_add. f_equal. apply list_fmap_ext. intros _ t _. rewrite filter_cons.
  by case_decide.
Qed.

Definition key_owner (T k : Z) : Z := Z.shiftr (k *u kFib) 32 mod T.

(** Whatever the type byte says, the routing key is the key of the validated record. *)
Lemma record_symbol_key r : symbol_key (record_symbol r) = msg_key (dispatch_replay r).
Proof. unfold record_symbol, dispatch_replay. by repeat case_match. Qed.

Lemma msgs_shard T recs t :
  msgs (shard T recs t) = filter (λ m, key_owner T (msg_key m) = t) (msgs recs).
Proof.
  unfold shard, msgs. induction recs as [|r recs IH]; [done|].
  rewrite fmap_cons, !filter_cons.
  assert (Ho : owner T r = key_owner T (msg_key (dispatch_replay r)))
    by (unfold owner, key_owner; by rewrite record_symbol_key).
  repeat case_decide; try congruence. rewrite fmap_cons. by f_equal.
Qed.

Lemma check_all_length ms tbl : length (check_all ms tbl).1 = length ms.
Proof.
  revert tbl. induction ms as [|m ms IH]; intros tbl; [done|].
  rewrite check_all_cons. cbn [fst length]. by rewrite IH.
Qed.

(** The results of the records that shard [t] owns, in the sequential run. *)
Definition shard_results (T : Z) (recs : list WireRecord) (t : Z) : list Result :=
  snd <$> filter (λ mr, key_owner T (msg_key mr.1) = t)
            (zip (msgs recs) (check_all (msgs recs) validator_init).1).

Lemma shard_results_eq T recs t :
  (size (keys (msgs recs)) <= Z.to_nat kCapacity)%nat →
  (check_all (msgs (shard T recs t)) validator_init).1 = shard_results T recs t.
Proof.
  intros Hsize. unfold shard_results. rewrite msgs_shard.
  destruct (check_all_spec _ Hsize) as [-> _].
  rewrite (spec_isolation_on (λ k, key_owner T k = t)
    (H := λ k, decide_rel (=) (key_owner T k) t) (msgs recs) ∅ ∅) by done.
  apply check_all_spec. etrans; [|exact Hsize]. apply subseteq_size. unfold keys.
  intros k. rewrite !elem_of_list_to_set, !list_elem_of_fmap. intros (m&->&Hm).
  exists m. split; [done|]. by apply list_elem_of_filter in Hm as [_ ?].
Qed.

(** The workers' checksums, each wrapped on its own, add up modulo 2^64. *)
Lemma workers_sum passes (recs : Z → list WireRecord) l :
  u64 (zsum ((λ t, worker passes (recs t) 0) <$> l)) =
  u64 (Z.of_nat passes * zsum ((λ t, pass_sum (recs t)) <$> l)).
Proof.
  induction l as [|t l IH]; [cbn; by rewrite Z.mul_0_r|].
  rewrite !fmap_cons. cbn [zsum foldr]. rewrite worker_sum, u64_add_u64_l by done.
  rewrite <- u64_add_u64_r. fold (zsum ((λ t, worker passes (recs t) 0) <$> l)).
  rewrite IH, u64_add_u64_r. f_equal. unfold zsum. lia.
Qed.

(** ** The properties *)

(** The handler over a complete schedule of a published stream. *)
Lemma handler_complete iters f a b :
  let pkts := drains iters in
  Forall (λ p, 0 <= fp_seq p < 2 ^ 64 - 1) pkts →
  fp_seq <$> head pkts = Some a → bounded_skew handler_window a [] pkts →
  (∀ k, a <= k < b → k ∈ (fp_seq <$> pkts)) → Forall (λ p, fp_seq p < b) pkts →
  Forall (λ p, fp_record p = f (fp_seq p)) pkts →
  ∃ h, handler_main iters = Some h ∧ st_gaps (stats_ (h_arb h)) = 0 ∧
    st_delivered (stats_ (h_arb h)) = u64 (b - a) ∧
    h_violations h =
      u64 (countb flagged (check_all (validated (f <$> seqZ a (b - a))) validator_init).1).
Proof.
  intros pkts Hok Hhd Hskew Hall Hb Hf.
  destruct (skew_delivers handler_window pkts a b) as (s'&log&Hrun&Hseq&Hgap&_&Hpay); try done.
  unfold handler_main. rewrite handler_ops_run by done. fold pkts. cbn [handler_init h_arb].
  rewrite Hrun. cbn [mbind option_bind]. eexists. split; [reflexivity|]. split; [done|]. split.
  { destruct (session_sim handler_window _ _ _ eq_refl ltac:(unfold handler_window; lia) (offers_flush_ok _ Hok) Hrun)
      as (_&_&_&_&[_ _ HD _]).
    cbn [h_arb]. rewrite HD, <- (length_fmap fst log), Hseq, length_seqZ.
    cbn [arb_init stats_ zero_stats st_delivered]. f_equal.
    destruct pkts as [|p pkts']; [done|]. apply Forall_cons in Hb as [? _]. cbn in Hhd. simplify_eq. lia. }
  rewrite sink_calls_check_all by done. cbn [h_violations h_validator handler_init snd].
  rewrite Z.add_0_l. replace (f <$> seqZ a (b - a)) with log.*2; [done|].
  rewrite <- Hseq, <- list_fmap_compose. apply list_fmap_ext. intros i [k r] Hi. cbn. apply list_elem_of_lookup_2 in Hi.
  destruct (Hpay k r Hi) as (pkt&Hin&<-&<-). rewrite Forall_forall in Hf. by apply Hf.
Qed.

(** A published stream for the witnesses: message 12 has a non-positive price. *)
Definition trade_record (seq price : Z) : WireRecord :=
  let body := encode_trade (mkWireTrade (le_bytes 8 7) seq seq 0 (double_of_Z price) 10
                (byte_of_Z 86) (byte_of_Z 65) (replicate 14 (byte_of_Z 0))) in
  mkWireRecord (RecordType_u8 Trade) (replicate 7 (byte_of_Z 0))
    (body ++ replicate (80 - length body) (byte_of_Z 0)).
Definition published (seq : Z) : WireRecord := trade_record seq (if seq =? 12 then 0 else 100).
Definition on_line (l : Line) (seq : Z) : FeedPacket :=
  mkFeedPacket seq (Line_u8 l) (replicate 7 (byte_of_Z 0)) (published seq).
Definition demo_iters : list (list FeedPacket * list FeedPacket) :=
  [(on_line LineA <$> [10; 13], on_line LineB <$> [10; 11; 12]); ([], [on_line LineB 13])].



(** The violation breakdown of the replay benchmark is exact: each of the
    thirteen counters is the number of records of its kind for which the validator
    raised one of its flags. *)
Theorem replay_counts_exact recs :
  let c := warm_pass recs validator_init zero_counts in
  bad_trades c = tally recs (λ m r, is_trade m &&
    (has r kTradeNonPositivePrice || has r kTradeNonPositiveSize)) ∧
  bad_bars c = tally recs (λ m r, is_bar m && has r bar_invariant_mask) ∧
  seq_gaps c = tally recs (λ _ r, has r kSequenceGap) ∧
  ts_regress c = tally recs (λ _ r, has r kTimestampRegression) ∧
  recon_vol c = tally recs (λ m r, is_bar m && has r kBarVolumeReconstructMismatch) ∧
  recon_cnt c = tally recs (λ m r, is_bar m && has r kBarTradeCountReconstructMismatch) ∧
  recon_vwap c = tally recs (λ m r, is_bar m && has r kBarVwapReconstructMismatch) ∧
  recon_ohlc c = tally recs (λ m r, is_bar m && has r kBarOhlcReconstructMismatch) ∧
  q_crossed c = tally recs (λ m r, is_quote m && has r kQuoteCrossed) ∧
  q_locked c = tally recs (λ m r, is_quote m && has r kQuoteLocked) ∧
  q_nonpos c = tally recs (λ m r, is_quote m && has r kQuoteNonPositive) ∧
  q_zerosize c = tally recs (λ m r, is_quote m && has r kQuoteZeroSize) ∧
  band_breach c = tally recs (λ m r, negb (is_bar m) && has r kPriceBandBreach).
Proof.
  cbn zeta. repeat split; apply warm_pass_tally; try done; by intros [] r c.
Qed.

(** C13: Sharding changes nothing while the records have at most 4096 symbols, so that the
    table of the sequential run holds them all: with any positive number of threads, each
    worker's validator gives the records of its shard the results they have in a single
    sequential run, and the workers' checksums add up (modulo 2^64) to the sequential
    checksum.  (Beyond 4096 symbols the sequential table is full and skips checks that the
    smaller shards still make.) *)
Theorem sharded_replay_equals_sequential T passes recs :
  0 < T → (size (keys (msgs recs)) <= Z.to_nat kCapacity)%nat →
  (∀ t, (check_all (msgs (shard T recs t)) validator_init).1 = shard_results T recs t) ∧
  u64 (zsum (checksums T passes recs)) = worker passes recs 0.
Proof.
  intros HT Hsize. split; [intros t; by apply shard_results_eq|].
  rewrite worker_sum by done. unfold checksums.
  rewrite (workers_sum passes (shard T recs)), Z.add_0_l. f_equal. f_equal.
  transitivity (zsum (r_flags ∘ snd <$>
    zip (msgs recs) (check_all (msgs recs) validator_init).1)).
  - rewrite <- (zsum_partition (λ mr, key_owner T (msg_key mr.1)) _ T).
    + f_equal. apply list_fmap_ext. intros _ t _. unfold pass_sum.
      rewrite shard_results_eq by done. unfold shard_results, flag_sum, zsum.
      by rewrite <- list_fmap_compose.
    + apply Forall_forall. intros mr _. by apply Z.mod_pos_bound.
  - unfold pass_sum, flag_sum, zsum. f_equal. rewrite (list_fmap_compose snd r_flags), snd_zip; [done|].
    by rewrite check_all_length.
Qed.

Lemma sharded_replay_equals_sequential_witness :
  (∀ t, (check_all (msgs (shard 3 (published <$> seqZ 10 4) t)) validator_init).1 =
          shard_results 3 (published <$> seqZ 10 4) t) ∧
  u64 (zsum (checksums 3 20 (published <$> seqZ 10 4))) = worker 20 (published <$> seqZ 10 4) 0.
Proof.
  apply (sharded_replay_equals_sequential 3 20 (published <$> seqZ 10 4)); [lia|].
  apply Nat.leb_le. vm_compute. reflexivity.
Defined.

Lemma timed_passes_run recs clocks sum h :
  recs ≠ [] → is_u64 sum →
  timed_passes recs clocks sum h =
    Some (u64 (sum + Z.of_nat (length clocks) * pass_sum recs),
          record_all ((λ c, (c.2 -u c.1) / Z.of_nat (length recs)) <$> clocks) h).
Proof.
  intros Hne. revert sum h. induction clocks as [|[t0 t1] clocks IH]; intros sum h Hs.
  { cbn. by rewrite Z.add_0_r, u64_small. }
  cbn [timed_passes]. destruct (Z.eqb_spec (Z.of_nat (length recs)) 0) as [H0|_].
  { by destruct recs. }
  rewrite checksum_pass_sum by done. rewrite IH by apply u64_is. rewrite u64_add_u64_l.
  fold (pass_sum recs). f_equal. f_equal. f_equal. cbn [length]. lia.
Qed.

(** The timed section of the replay benchmark is deterministic: on a data set
    with at least one record, every pass contributes the same flags to the
    checksum, because each pass starts from a fresh validator, and exactly one
    histogram sample, the pass time divided by the record count.  On an empty data
    set the first pass divides by zero. *)
Theorem replay_passes_deterministic recs clocks hist :
  clocks ≠ [] →
  timed_passes recs clocks 0 hist =
    if decide (recs = []) then None
    else Some (u64 (Z.of_nat (length clocks) * pass_sum recs),
               record_all ((λ c, (c.2 -u c.1) / Z.of_nat (length recs)) <$> clocks) hist).
Proof.
  intros Hc. case_decide as Hr.
  - subst. destruct clocks as [|[t0 t1] clocks]; [done|reflexivity].
  - by rewrite timed_passes_run.
Qed.

Lemma replay_passes_deterministic_witness :
  timed_passes [] [(5, 9)] 0 (hist_init 65535) = None ∧
  timed_passes [published 10] [(5, 9); (11, 18)] 0 (hist_init 65535) =
    if decide ([published 10] = []) then None
    else Some (u64 (2 * pass_sum [published 10]),
               record_all ((λ c, (c.2 -u c.1) / 1) <$> [(5, 9); (11, 18)]) (hist_init 65535)).
Proof.
  split.
  - by apply (replay_passes_deterministic [] [(5, 9)] (hist_init 65535)).
  - by apply (replay_passes_deterministic [published 10] [(5, 9); (11, 18)] (hist_init 65535)).
Defined.
