(* ===== verification/Pipeline.v ===== *)
(** * Per-record loops of replay_bench_rdtsc and replay_bench_spsc

    Models what the loop bodies do with one record: the timed loop of
    [src/src/bin/replay_bench_rdtsc.cpp] and the consumer of the realistic regime of
    [src/src/bin/replay_bench_spsc.cpp] (queue residency histogram, validation).  Cycle
    counts, the tick rate and the ring's occupancy are inputs here; [ReplayMain.v] and
    [SpscBench.v] hold the programs around the bodies.  Where a double does not fit the
    integer it is cast to, the cast's value is a parameter. *)

From stdpp Require Import base numbers list list_numbers gmap.
From Stdlib Require Import ZArith Lia.
From S2P Require Import Prelude Float64 Wire Validator ValidatorTable ValidatorProps Util UtilProofs.
From S2P Require Import Arbitrator ArbitratorProofs ArbitratorSessions Harness HarnessProofs.

Local Open Scope Z_scope.

Definition validate_one (rec : WireRecord) (tbl : list Slot) : Z * list Slot :=
  let '(r, tbl') := check (dispatch_replay rec) tbl in (r_flags r, tbl').

Section Timed.
Context (cast_undefined : double → Z).

(** [static_cast<std::uint64_t>(d / tpns + 0.5)] *)
Definition ticks_to_ns (d : Z) (tpns : double) : Z :=
  let x := fadd (fdiv (double_of_Z d) tpns) (lit 1 2) in default (cast_undefined x) (trunc_u64 x).

(** ** replay_bench_rdtsc *)

(** [timer_ovh = std::min(timer_ovh, e - s)] over the back-to-back readings. *)
Definition timer_overhead (readings : list (Z * Z)) : Z :=
  foldl (λ ovh se, Z.min ovh (se.2 -u se.1)) UINT64_MAX readings.

(** The cost of one record: the reading less the timer's own. *)
Definition net_ticks (ovh s e : Z) : Z :=
  let d := e -u s in if ovh <? d then d -u ovh else 0.

(** One pass with the start and end reading of each record. *)
Fixpoint rdtsc_pass (tpns : double) (ovh : Z) (recs : list (WireRecord * (Z * Z)))
    (tbl : list Slot) (sum : Z) (h : LatencyHistogram) : Z * LatencyHistogram :=
  match recs with
  | [] => (sum, h)
  | (rec, (s, e)) :: recs' =>
      let '(flags, tbl') := validate_one rec tbl in
      rdtsc_pass tpns ovh recs' tbl' (sum +u flags)
        (hist_record (ticks_to_ns (net_ticks ovh s e) tpns) h)
  end.

(** ** replay_bench_spsc *)

Record Stamped := mkStamped { st_rec : WireRecord; enqueue_tsc : Z }.

#[export] Instance Stamped_inhabited : Inhabited Stamped := populate (mkStamped zero_record 0).

Definition kRingCapacity : Z := 1024.

Record PipeConsumer := mkPipeConsumer {
  pc_validator : list Slot;
  pc_checksum : Z;
  occupancy_sum : Z;
  tsc_anomalies : Z;
  pc_hist : LatencyHistogram
}.

Definition pipe_init : PipeConsumer := mkPipeConsumer validator_init 0 0 0 (hist_init 1000000).

(** One successful pop: [now] is the cycle counter, [occ] is [size_approx()]. *)
Definition consume_one (tpns : double) (s : Stamped) (now occ : Z) (c : PipeConsumer) : PipeConsumer :=
  let '(anom, h) :=
    if now <? enqueue_tsc s then (tsc_anomalies c +u 1, pc_hist c)
    else (tsc_anomalies c, hist_record (ticks_to_ns (now -u enqueue_tsc s) tpns) (pc_hist c)) in
  let '(flags, tbl) := validate_one (st_rec s) (pc_validator c) in
  mkPipeConsumer tbl (pc_checksum c +u flags) (occupancy_sum c +u occ) anom h.

(** The loop over the popped items with the readings of each. *)
Definition consume (tpns : double) (items : list (Stamped * (Z * Z))) (c : PipeConsumer) : PipeConsumer :=
  foldl (λ c it, consume_one tpns it.1 it.2.1 it.2.2 c) c items.

End Timed.

(** The producer's items: every record, [passes] times over, in order. *)
Definition produced (passes : nat) (recs : list WireRecord) : list WireRecord :=
  concat (replicate passes recs).

(** ** Properties *)

Section Properties.
Context (cast_undefined : double → Z).

(** Validation does not depend on the readings. *)
Lemma consume_checksum tpns items c :
  is_u64 (pc_checksum c) →
  let c' := consume cast_undefined tpns items c in
  let ms := msgs (st_rec <$> items.*1) in
  pc_validator c' = (check_all ms (pc_validator c)).2 ∧
  pc_checksum c' = u64 (pc_checksum c + flag_sum (check_all ms (pc_validator c)).1).
Proof.
  cbn zeta. unfold consume. revert c. induction items as [|[s [now occ]] items IH]; intros c Hc.
  { cbn. split; [done|]. by rewrite Z.add_0_r, u64_small. }
  cbn [foldl fmap list_fmap fst snd msgs]. rewrite check_all_cons.
  set (c1 := consume_one _ _ _ _ _ c).
  assert (Hc1 : pc_validator c1 = (check (dispatch_replay (st_rec s)) (pc_validator c)).2 ∧
    pc_checksum c1 = pc_checksum c +u r_flags (check (dispatch_replay (st_rec s)) (pc_validator c)).1).
  { subst c1. unfold consume_one, validate_one.
    destruct (if now <? enqueue_tsc s then _ else _) as [anom h].
    by destruct (check _ _) as [r tbl]. }
  destruct Hc1 as [Hv Hsum]. destruct (IH c1) as [H1 H2].
  { rewrite Hsum. auto with u64. }
  rewrite H1, H2, Hv, Hsum. split; [done|]. unfold u64_add. rewrite u64_add_u64_l.
  f_equal. unfold flag_sum. cbn [fst snd fmap list_fmap foldr msgs]. fold (msgs (st_rec <$> items.*1)). lia.
Qed.

(** Each item is a histogram sample or an anomaly. *)
Lemma consume_samples tpns items c :
  is_u64 (count_ (pc_hist c)) → is_u64 (tsc_anomalies c) →
  let c' := consume cast_undefined tpns items c in
  let late (it : Stamped * (Z * Z)) := it.2.1 <? enqueue_tsc it.1 in
  tsc_anomalies c' = u64 (tsc_anomalies c + countb late items) ∧
  count_ (pc_hist c') = u64 (count_ (pc_hist c) + Z.of_nat (length items) - countb late items).
Proof.
  cbn zeta. unfold consume. revert c. induction items as [|[s [now occ]] items IH]; intros c Hh Ha.
  { cbn [foldl length]. unfold countb. cbn. rewrite !Z.add_0_r, Z.sub_0_r.
    by rewrite !u64_small. }
  cbn [foldl fst snd length]. rewrite countb_cons. cbn [fst snd].
  set (c1 := consume_one _ _ _ _ _ c).
  assert (Hc1 : tsc_anomalies c1 = (if now <? enqueue_tsc s then tsc_anomalies c +u 1 else tsc_anomalies c) ∧
    count_ (pc_hist c1) = (if now <? enqueue_tsc s then count_ (pc_hist c) else count_ (pc_hist c) +u 1)).
  { subst c1. unfold consume_one, validate_one.
    destruct (now <? enqueue_tsc s), (check _ _) as [r tbl]; cbn [tsc_anomalies pc_hist]; (split; [done|]);
      [done|]. unfold hist_record. by case_match. }
  destruct Hc1 as [H1 H2]. destruct (IH c1) as [I1 I2].
  { rewrite H2. case_match; auto with u64. }
  { rewrite H1. case_match; auto with u64. }
  rewrite I1, I2, H1, H2. destruct (now <? enqueue_tsc s); unfold u64_add;
    rewrite ?u64_add_u64_l; (split; [f_equal; lia|]).
  - f_equal. lia.
  - rewrite <- Z.add_sub_assoc, u64_add_u64_l. f_equal. lia.
Qed.

(** The timed loop of [replay_bench_rdtsc] validates like the other harnesses. *)
Lemma rdtsc_pass_checksum tpns ovh recs tbl sum h :
  (rdtsc_pass cast_undefined tpns ovh recs tbl sum h).1 = checksum_pass recs.*1 tbl sum.
Proof.
  revert tbl sum h. induction recs as [|[r [s e]] recs IH]; intros tbl sum h; [done|].
  cbn [rdtsc_pass checksum_pass fmap list_fmap fst]. unfold validate_one.
  destruct (check (dispatch_replay r) tbl) as [res tbl']. apply IH.
Qed.

Lemma rdtsc_pass_hist tpns ovh recs tbl sum h :
  (rdtsc_pass cast_undefined tpns ovh recs tbl sum h).2 =
  record_all ((λ rse, ticks_to_ns cast_undefined (net_ticks ovh rse.2.1 rse.2.2) tpns) <$> recs) h.
Proof.
  revert tbl sum h. induction recs as [|[r [s e]] recs IH]; intros tbl sum h; [done|].
  cbn [rdtsc_pass]. unfold validate_one. destruct (check (dispatch_replay r) tbl) as [res tbl'].
  apply IH.
Qed.

End Properties.
