(* ===== verification/ReplayMain.v ===== *)
(** * replay_bench and replay_bench_rdtsc: the whole programs

    Models the [main] functions of [src/src/bin/replay_bench.cpp] (with its own
    [map_file]) and [src/src/bin/replay_bench_rdtsc.cpp]: arguments, mapping, the check
    of the file, the passes, and what is printed.  The system calls and the clock
    readings are parameters; [Undefined] is an access outside the mapping or a division
    by zero. *)

From stdpp Require Import base numbers list list_numbers gmap strings.
From Stdlib Require Import ZArith Lia.
From S2P Require Import Prelude Float64 Runtime Clock Wire Replay Validator Util Harness Pipeline.

Local Open Scope Z_scope.

(** ** Opening a data set *)

Definition path_string (path : list byte) : string := String.string_of_list_byte path.

Definition default_path : list byte := bs "data/replay.bin".

(** [records[0]] to [records[count - 1]] through the view; [None] when one of the loads
    is outside the mapping. *)
Definition read_view (mem : list byte) (v : ReplayView) : option (list WireRecord) :=
  base ← rv_records v; mapM (load_record mem base) (seqZ 0 (rv_count v)).

Definition cannot_mmap (path : list byte) : Print :=
  eprintf "cannot mmap %s (run gen_dataset first)\n" [AS path].

Definition bad_file (path : list byte) (e : string) : Print := eprintf "%s: %s\n" [AS path; AS (bs e)].

(** The common start of the replay programs: the message they fail with, or the records. *)
Definition open_view (path : list byte) (base : option (list byte)) (size : Z)
    : Print + option (list WireRecord) :=
  match base with
  | None => inl (cannot_mmap path)
  | Some mem =>
      let v := view_replay (Some mem) size in
      match rv_error v with
      | Some e => inl (bad_file path e)
      | None => inr (read_view mem v)
      end
  end.

Definition finish (r : Print + option (list WireRecord)) (k : list WireRecord → ProgResult) : ProgResult :=
  match r with
  | inl p => Returns 1 [p]
  | inr None => Undefined
  | inr (Some recs) => k recs
  end.

(** A program around a [MappedFile]: the destructor runs on every return. *)
Definition with_mapped_file (sys : Sys) (path : list byte) (k : list WireRecord → ProgResult) (w : OS)
    : ProgResult * OS :=
  let '(m, w1) := MappedFile_ctor sys (path_string path) w in
  (finish (open_view path (mf_base m) (mf_size m)) k, MappedFile_dtor m w1).

(** ** replay_bench *)

Record Mapped := mkMapped { m_base : option (list byte); m_size : Z; m_fd : Z }.

Definition map_file (sys : Sys) (path : string) (w : OS) : Mapped * OS :=
  let fd := sys_open sys path in
  if fd <? 0 then (mkMapped None 0 fd, w)
  else
    let w1 := mkOS (fd :: open_fds w) (Replay.mapped w) in
    match sys_fstat sys fd with
    | None => (mkMapped None 0 (-1), sys_close fd w1)
    | Some st_size =>
        let size := u64 st_size in
        match sys_mmap sys size fd with
        | None => (mkMapped None size (-1), sys_close fd w1)
        | Some mem => (mkMapped (Some mem) size fd, mkOS (open_fds w1) (Replay.mapped w1 + 1))
        end
    end.

(** [::munmap(base, size); ::close(fd);] *)
Definition unmap_file (m : Mapped) (w : OS) : OS :=
  sys_close (m_fd m) (mkOS (open_fds w) (Replay.mapped w - 1)).

(** The clock readings of pass [p]: the steady clock is read twice per pass. *)
Definition pass_clocks (steady : nat → Z) (passes : Z) : list (Z * Z) :=
  (λ p, (now_ns (steady (2 * p)%nat), now_ns (steady (2 * p + 1)%nat))) <$> seq 0 (Z.to_nat passes).

Definition replay_report (path : list byte) (count passes : Z) (c : BenchCounts) (checksum : Z)
    (hist : LatencyHistogram) : list Print :=
  let mean_ns := hist_mean hist in
  let thru := if fgt mean_ns fzero then fdiv (double_of_Z 1000000000) mean_ns else fzero in
  [printf "\n" [];
   printf "replay benchmark — %s\n" [AS path];
   printf "  records/pass : %llu\n" [AU count];
   printf "  passes       : %llu\n" [AU passes];
   printf "  total checks : %llu\n" [AU (count *u passes)];
   printf "\n" [];
   printf "decode+validate (single core, allocation-free):\n" [];
   printf "  throughput      : %.1f M records/sec\n" [AF (fdiv thru (double_of_Z 1000000))];
   printf "  mean            : %.2f ns/record\n" [AF mean_ns];
   printf "  pass-mean spread: %llu..%llu ns (over %llu passes)\n"
     [AU (hist_min hist); AU (hist_max hist); AU passes];
   printf "\n" [];
   printf "  note: per-record cost is below the ~41ns M-series clock\n" [];
   printf "  resolution, so this is a THROUGHPUT measurement — the rows\n" [];
   printf "  above are pass-means, not a latency distribution. A true\n" [];
   printf "  per-record tail needs an x86 host with rdtscp (see README).\n" [];
   printf "\n" [];
   printf "violations caught (per pass):\n" [];
   printf "  bad trades             : %llu\n" [AU (bad_trades c)];
   printf "  bad bars               : %llu\n" [AU (bad_bars c)];
   printf "  sequence gaps          : %llu\n" [AU (seq_gaps c)];
   printf "  ts regressions         : %llu\n" [AU (ts_regress c)];
   printf "  recon volume mismatch  : %llu\n" [AU (recon_vol c)];
   printf "  recon count mismatch   : %llu\n" [AU (recon_cnt c)];
   printf "  recon vwap mismatch    : %llu\n" [AU (recon_vwap c)];
   printf "  recon ohlc mismatch    : %llu\n" [AU (recon_ohlc c)];
   printf "  quote crossed          : %llu\n" [AU (q_crossed c)];
   printf "  quote locked           : %llu\n" [AU (q_locked c)];
   printf "  quote non-positive     : %llu\n" [AU (q_nonpos c)];
   printf "  quote zero-size        : %llu\n" [AU (q_zerosize c)];
   printf "  price-band breach      : %llu\n" [AU (band_breach c)];
   printf "\n[checksum %llu]\n" [AU checksum]].

(** [main] after the file has been opened. *)
Definition replay_bench_run (steady : nat → Z) (path : list byte) (passes : Z) (recs : list WireRecord)
    : ProgResult :=
  let c := warm_pass recs validator_init zero_counts in
  match timed_passes recs (pass_clocks steady passes) 0 (hist_init kDefaultMaxNs) with
  | None => Undefined
  | Some (checksum, hist) =>
      Returns 0 (replay_report path (Z.of_nat (length recs)) passes c checksum hist)
  end.

(** [main]: the file is unmapped only at the end of the regular path. *)
Definition replay_bench_main (sys : Sys) (steady : nat → Z) (argv : list (list byte)) (w : OS)
    : ProgResult * OS :=
  let path := arg argv 1 id default_path in
  let passes := arg argv 2 strtoull 200 in
  let '(m, w1) := map_file sys (path_string path) w in
  match open_view path (m_base m) (m_size m) with
  | inl p => (Returns 1 [p], w1)
  | inr None => (Undefined, w1)
  | inr (Some recs) => (replay_bench_run steady path passes recs, unmap_file m w1)
  end.

(** ** replay_bench_rdtsc *)

Section Rdtsc.
Context (cast_undefined : double → Z) (have_rdtsc : bool).

(** What [hist.percentile(p)] prints. *)
Definition percentile_of (p : double) (h : LatencyHistogram) : Z :=
  default (cast_undefined (fmul p (double_of_Z (count_ h)))) (percentile p h).

(** The passes with the start and end reading of each record. *)
Fixpoint rdtsc_passes (tpns : double) (ovh : Z) (recs : list WireRecord)
    (readings : list (list (Z * Z))) (sum : Z) (h : LatencyHistogram) : Z * LatencyHistogram :=
  match readings with
  | [] => (sum, h)
  | rs :: readings' =>
      let '(sum', h') := rdtsc_pass cast_undefined tpns ovh (zip recs rs) validator_init sum h in
      rdtsc_passes tpns ovh recs readings' sum' h'
  end.

Definition rdtsc_report (path : list byte) (count passes : Z) (tpns : double) (timer_ovh checksum : Z)
    (hist : LatencyHistogram) : list Print :=
  let ovh_ns := fdiv (double_of_Z timer_ovh) tpns in
  [printf "\n" [];
   printf "per-record decode+validate latency — rdtscp (%s)\n"
     [AS (if tsc_available have_rdtsc then bs "x86" else bs "FALLBACK, not meaningful")];
   printf "  dataset : %s\n" [AS path];
   printf "  samples : %llu  (%llu records x %llu passes)\n" [AU (count *u passes); AU count; AU passes];
   printf "  TSC     : %.3f GHz   timer overhead %.2f ns (subtracted)\n" [AF tpns; AF ovh_ns];
   printf "  ----------------------------------------\n" [];
   printf "  p50     : %llu ns\n" [AU (percentile_of (lit 50 100) hist)];
   printf "  p90     : %llu ns\n" [AU (percentile_of (lit 90 100) hist)];
   printf "  p99     : %llu ns\n" [AU (percentile_of (lit 99 100) hist)];
   printf "  p99.9   : %llu ns\n" [AU (percentile_of (lit 999 1000) hist)];
   printf "  p99.99  : %llu ns\n" [AU (percentile_of (lit 9999 10000) hist)];
   printf "  max     : %llu ns\n" [AU (hist_max hist)];
   printf "  mean    : %.2f ns\n" [AF (hist_mean hist)];
   printf "\n[checksum %llu]\n" [AU checksum]].

Definition fallback_warning : Print :=
  printf "WARNING: not an x86 build — coarse fallback timer, numbers are not meaningful. Run this on the x86 box.\n" [].

(** [ovh_readings] are the 200000 back-to-back pairs, [readings] those of each record of
    each pass; the warm pass computes nothing that is kept. *)
Definition rdtsc_run (tpns : double) (ovh_readings : list (Z * Z)) (readings : list (list (Z * Z)))
    (path : list byte) (passes : Z) (recs : list WireRecord) : ProgResult :=
  let timer_ovh := timer_overhead ovh_readings in
  let '(checksum, hist) := rdtsc_passes tpns timer_ovh recs readings 0 (hist_init 1000000) in
  Returns 0 ((if tsc_available have_rdtsc then [] else [fallback_warning]) ++
    rdtsc_report path (Z.of_nat (length recs)) passes tpns timer_ovh checksum hist).

(** The calibration reads the clocks [t0], [t1] and the cycle counts [c0], [c1];
    [readings passes n] are the cycle counts of the passes over [n] records. *)
Definition rdtsc_main (sys : Sys) (t0 t1 : timespec) (c0 c1 : Z) (ovh_readings : list (Z * Z))
    (readings : Z → nat → list (list (Z * Z))) (argv : list (list byte)) (w : OS) : ProgResult * OS :=
  let path := arg argv 1 id default_path in
  let passes := arg argv 2 strtoull 5 in
  with_mapped_file sys path
    (λ recs, rdtsc_run (calibrate_ticks_per_ns have_rdtsc t0 t1 c0 c1) ovh_readings
               (readings passes (length recs)) path passes recs) w.

End Rdtsc.
