(* ===== verification/MtRun.v ===== *)
(** * replay_bench_mt: start gate, workers and thread sweep

    Models [src/src/bin/replay_bench_mt.cpp]: [run] as the interleaving of the main
    thread and [T] workers (spawn, the gate made of [ready] and [go], the passes over
    each worker's shard record by record, the slot each worker writes, the joins), the
    rate it returns, and [main] with its sweep of thread counts.  A spinning thread
    takes no step; an atomic load that still returns an old value is such a spin.
    [MtWeak.v] has the same threads on the C++ memory model. *)

From stdpp Require Import base numbers list list_numbers gmap strings relations.
From Stdlib Require Import ZArith Lia.
From S2P Require Import Prelude Float64 Runtime Clock Wire Replay Validator Util Harness Pipeline ReplayMain.

Local Open Scope Z_scope.

(** ** The threads of [run] *)

(** A worker: before [ready.fetch_add], spinning at the gate, at the head of the loop
    over the passes with [p] of them to go, inside a pass, and after it has written its
    checksum. *)
Inductive WorkerPc :=
  | WNew
  | WGate
  | WPass (p : nat) (sum : Z)
  | WRecs (p : nat) (todo : list WireRecord) (v : list Slot) (sum : Z)
  | WDone.

(** The main thread: spawning, waiting for the workers, between the clock read and
    [go.store], joining thread [k], and past the second clock read. *)
Inductive MainPc :=
  | MSpawn
  | MWait
  | MGo (t0 : Z)
  | MJoin (t0 : Z) (k : nat)
  | MEnd (t0 t1 : Z).

Record Gate := mkGate {
  g_main : MainPc;
  g_ready : Z;
  g_go : bool;
  g_workers : list WorkerPc;
  g_sums : list Z
}.

Section Run.
Context (T : nat) (passes : nat) (recs : list WireRecord).

Definition buf_of (t : nat) : list WireRecord := shard (Z.of_nat T) recs (Z.of_nat t).

Definition gate_init : Gate := mkGate MSpawn 0 false [] (replicate T 0).

(** One step of the loops of a worker whose shard is [buf]; it writes only the worker's
    own variables. *)
Definition worker_local (buf : list WireRecord) (w : WorkerPc) : option WorkerPc :=
  match w with
  | WPass (S p) sum => Some (WRecs p buf validator_init sum)
  | WRecs p [] _ sum => Some (WPass p sum)
  | WRecs p (rec :: todo) v sum =>
      let '(r, v') := check (dispatch_replay rec) v in Some (WRecs p todo v' (sum +u r_flags r))
  | _ => None
  end.

Inductive gate_step : Gate → Gate → Prop :=
  | gs_spawn r go ws ss :
      (length ws < T)%nat → gate_step (mkGate MSpawn r go ws ss) (mkGate MSpawn r go (ws ++ [WNew]) ss)
  | gs_spawned r go ws ss :
      length ws = T → gate_step (mkGate MSpawn r go ws ss) (mkGate MWait r go ws ss)
  | gs_arrive m r go ws ss t :
      ws !! t = Some WNew → gate_step (mkGate m r go ws ss) (mkGate m (u32 (r + 1)) go (<[t := WGate]> ws) ss)
  | gs_all_ready r go ws ss t0 :
      Z.of_nat T <= r → gate_step (mkGate MWait r go ws ss) (mkGate (MGo t0) r go ws ss)
  | gs_open r go ws ss t0 :
      gate_step (mkGate (MGo t0) r go ws ss) (mkGate (MJoin t0 0) r true ws ss)
  | gs_enter m r ws ss t :
      ws !! t = Some WGate →
      gate_step (mkGate m r true ws ss) (mkGate m r true (<[t := WPass passes 0]> ws) ss)
  | gs_local m r go ws ss t w w' :
      ws !! t = Some w → worker_local (buf_of t) w = Some w' →
      gate_step (mkGate m r go ws ss) (mkGate m r go (<[t := w']> ws) ss)
  | gs_store m r go ws ss t sum :
      ws !! t = Some (WPass 0 sum) →
      gate_step (mkGate m r go ws ss) (mkGate m r go (<[t := WDone]> ws) (<[t := sum]> ss))
  | gs_join r go ws ss t0 k :
      (k < T)%nat → ws !! k = Some WDone →
      gate_step (mkGate (MJoin t0 k) r go ws ss) (mkGate (MJoin t0 (S k)) r go ws ss)
  | gs_joined r go ws ss t0 t1 :
      gate_step (mkGate (MJoin t0 T) r go ws ss) (mkGate (MEnd t0 t1) r go ws ss).

Inductive gate_reachable : Gate → Prop :=
  | gate_start : gate_reachable gate_init
  | gate_next g g' : gate_reachable g → gate_step g g' → gate_reachable g'.

End Run.

(** [for (std::uint64_t c : checksums) cs ^= c;] *)
Definition xor_sums (sums : list Z) : Z := foldl Z.lxor 0 sums.

(** The rate [run] returns, in millions of records per second. *)
Definition run_rate (count passes t0 t1 : Z) : double :=
  let secs := fdiv (double_of_Z (t1 -u t0)) (double_of_Z 1000000000) in
  let total := fmul (double_of_Z count) (double_of_Z passes) in
  if fgt secs fzero then fdiv (fdiv total secs) (double_of_Z 1000000) else fzero.

(** [run]: [None] is the remainder modulo zero of the partition. *)
Definition run (count T passes t0 t1 : Z) : option double :=
  if (T =? 0) && negb (count =? 0) then None else Some (run_rate count passes t0 t1).

(** ** main *)

(** The thread counts: [fixed] if given, otherwise the powers and odd sizes up to the
    hardware's, and the hardware's own. *)
Definition sweep (fixed hw : Z) : list Z :=
  if 0 <? fixed then [u32 fixed]
  else
    let s := filter (λ t, t <= hw) [1; 2; 4; 8; 10; 14] in
    if bool_decide (last s = Some hw) then s else s ++ [hw].

Definition sweep_row (T : Z) (mrps speedup eff : double) : Print :=
  printf "%5u     %18.1f   %6.2fx   %8.0f%%\n" [AU T; AF mrps; AF speedup; AF eff].

(** The rows of the sweep; [clocks] are the two readings of each run. *)
Fixpoint sweep_rows (count passes front : Z) (base : double) (Ts : list Z) (clocks : list (Z * Z))
    : option (list Print) :=
  match Ts, clocks with
  | T :: Ts', (t0, t1) :: clocks' =>
      mrps ← run count T passes t0 t1;
      let base' := if T =? front then mrps else base in
      let speedup := if fgt base' fzero then fdiv mrps base' else fzero in
      let eff := fmul (fdiv speedup (double_of_Z T)) (double_of_Z 100) in
      rows ← sweep_rows count passes front base' Ts' clocks';
      Some (sweep_row T mrps speedup eff :: rows)
  | _, _ => Some []
  end.

Definition mt_run_main (hw : Z) (clocks : list (Z * Z)) (passes fixed : Z) (recs : list WireRecord) : ProgResult :=
  let count := Z.of_nat (length recs) in
  let Ts := sweep fixed hw in
  match sweep_rows count passes (default 0 (head Ts)) fzero Ts clocks with
  | None => Undefined
  | Some rows =>
      Returns 0
        ([printf "dataset: %llu records · %u hardware threads · %llu passes\n\n" [AU count; AU hw; AU passes];
          printf "threads   throughput (M rec/s)   speedup   efficiency\n" [];
          printf "-------   --------------------   -------   ----------\n" []] ++ rows)
  end.

Definition mt_main (sys : Sys) (hw : Z) (clocks : list (Z * Z)) (argv : list (list byte)) (w : OS)
    : ProgResult * OS :=
  let path := arg argv 1 id default_path in
  let passes := arg argv 2 strtoull 20 in
  match arg argv 3 atoi (Some 0) with
  | None => (Undefined, w)
  | Some fixed => with_mapped_file sys path (mt_run_main hw clocks passes fixed) w
  end.
