(* ===== verification/MtWeak.v ===== *)
(** * MtWeak: the threads of replay_bench_mt on the C++ memory model

    Models [run] of [src/src/bin/replay_bench_mt.cpp] access by access: [ready] and [go]
    as atomic locations with the orders of their accesses, the shards and the checksum
    slots as ordinary objects (built by the main thread before the first worker is
    spawned), the spawns and joins as the synchronisation they are, and the final loop over
    the checksums.  The threads run on [WeakMemory.v]; a data race or an access outside a
    vector is the outcome [None].  The loops of a worker are those of [MtRun.v]. *)

From stdpp Require Import base numbers list functions.
From Stdlib Require Import ZArith Lia.
From S2P Require Import Prelude Float64 Runtime Wire Replay Validator Util Harness MtRun WeakMemory.

Local Open Scope Z_scope.

Inductive GLoc := LReady | LGo.
Inductive GTid := GMain | GWorker (t : nat).

#[export] Instance GLoc_eq_dec : EqDecision GLoc.
Proof. solve_decision. Defined.
#[export] Instance GTid_eq_dec : EqDecision GTid.
Proof. solve_decision. Defined.

Notation GView := (View GLoc GTid).
Notation GHist := (Hist GLoc GTid).

(** The orders of the accesses to [ready] and [go]. *)
Record GateOrders := mkGateOrders {
  ready_add : memory_order;
  ready_load : memory_order;
  go_store : memory_order;
  go_load : memory_order
}.

Definition gate_orders : GateOrders := mkGateOrders release acquire release acquire.

(** As [MainPc], and the loop over the checksums: slot [k] is next, [cs] the value so far. *)
Inductive WMainPc :=
  | WmSpawn
  | WmWait
  | WmGo (t0 : Z)
  | WmJoin (t0 : Z) (k : nat)
  | WmSum (t0 t1 : Z) (k : nat) (cs : Z)
  | WmEnd (t0 t1 cs : Z).

(** The worker is inside its loops, where it reads its shard. *)
Definition in_pass (w : WorkerPc) : bool :=
  match w with WPass (S _) _ | WRecs _ _ _ _ => true | _ => false end.

Record MtWeak := mkMtWeak {
  mw_ready : GHist;
  mw_go : GHist;
  mw_shards : list (Cell GTid (list WireRecord));
  mw_sums : list (Cell GTid Z);
  mw_main : WMainPc;
  mw_mv : GView;
  mw_workers : list (WorkerPc * GView)
}.

Section MtWeak.
Context (T : nat) (passes : nat) (recs : list WireRecord) (ord : GateOrders).

Definition gthreads : list GTid := GMain :: (GWorker <$> seq 0 T).

(** The vectors are built by the main thread: its access number 1. *)
Definition built {A} (x : A) : Cell GTid A := mkCell x GMain 1%nat (λ _, 0%nat).
Definition main_view : GView := tick GMain view_bot.

Definition mt_weak_init : MtWeak :=
  mkMtWeak [mkStore 0 view_bot] [mkStore 0 view_bot]
    (built <$> (buf_of T recs <$> seq 0 T)) (replicate T (built 0)) WmSpawn main_view [].

(** [const std::vector<WireRecord>& buf = shards[t]] and the reads of the loops over it. *)
Definition read_shard (t : nat) (shs : list (Cell GTid (list WireRecord))) (v : GView)
    : option (list WireRecord * list (Cell GTid (list WireRecord)) * GView) :=
  c ← shs !! t;
  '(b, c', v') ← na_read (GWorker t) c v;
  Some (b, <[t := c']> shs, v').

(** [checksums[t] = sum] *)
Definition write_sum (t : nat) (sum : Z) (ss : list (Cell GTid Z)) (v : GView)
    : option (list (Cell GTid Z) * GView) :=
  c ← ss !! t;
  '(c', v') ← na_write gthreads (GWorker t) sum c v;
  Some (<[t := c']> ss, v').

(** The main thread reads [checksums[k]]. *)
Definition read_sum (k : nat) (ss : list (Cell GTid Z)) (v : GView)
    : option (Z * list (Cell GTid Z) * GView) :=
  c ← ss !! k;
  '(x, c', v') ← na_read GMain c v;
  Some (x, <[k := c']> ss, v').

Inductive mt_wstep : MtWeak → option MtWeak → Prop :=
  (** A new thread starts with what its creator knows. *)
  | mw_spawn rd go shs ss mv ws :
      (length ws < T)%nat →
      mt_wstep (mkMtWeak rd go shs ss WmSpawn mv ws)
               (Some (mkMtWeak rd go shs ss WmSpawn mv (ws ++ [(WNew, mv)])))
  | mw_spawned rd go shs ss mv ws :
      length ws = T →
      mt_wstep (mkMtWeak rd go shs ss WmSpawn mv ws) (Some (mkMtWeak rd go shs ss WmWait mv ws))
  (** [ready.fetch_add(1, release)] *)
  | mw_arrive rd go shs ss m mv ws t v old rd' v' :
      ws !! t = Some (WNew, v) →
      fetch_modify (ready_add ord) LReady (λ r, u32 (r + 1)) rd v = Some (old, rd', v') →
      mt_wstep (mkMtWeak rd go shs ss m mv ws)
               (Some (mkMtWeak rd' go shs ss m mv (<[t := (WGate, v')]> ws)))
  (** [while (ready.load(acquire) < T)], then [t0 = wall_ns()] *)
  | mw_wait rd go shs ss mv ws n r mv' t0 :
      load (ready_load ord) LReady n rd mv = Some (r, mv') →
      mt_wstep (mkMtWeak rd go shs ss WmWait mv ws)
               (Some (mkMtWeak rd go shs ss (if r <? Z.of_nat T then WmWait else WmGo t0) mv' ws))
  (** [go.store(true, release)] *)
  | mw_open rd go shs ss mv ws t0 go' mv' :
      store (go_store ord) LGo 1 go mv = (go', mv') →
      mt_wstep (mkMtWeak rd go shs ss (WmGo t0) mv ws)
               (Some (mkMtWeak rd go' shs ss (WmJoin t0 0) mv' ws))
  (** [while (!go.load(acquire))] *)
  | mw_gate rd go shs ss m mv ws t v n x v' :
      ws !! t = Some (WGate, v) → load (go_load ord) LGo n go v = Some (x, v') →
      mt_wstep (mkMtWeak rd go shs ss m mv ws)
               (Some (mkMtWeak rd go shs ss m mv
                        (<[t := (if x =? 0 then WGate else WPass passes 0, v')]> ws)))
  | mw_local rd go shs ss m mv ws t w v :
      ws !! t = Some (w, v) → in_pass w = true →
      mt_wstep (mkMtWeak rd go shs ss m mv ws)
               ('(b, shs', v') ← read_shard t shs v;
                w' ← worker_local b w;
                Some (mkMtWeak rd go shs' ss m mv (<[t := (w', v')]> ws)))
  | mw_store rd go shs ss m mv ws t sum v :
      ws !! t = Some (WPass 0 sum, v) →
      mt_wstep (mkMtWeak rd go shs ss m mv ws)
               ('(ss', v') ← write_sum t sum ss v;
                Some (mkMtWeak rd go shs ss' m mv (<[t := (WDone, v')]> ws)))
  (** [join] returns when the thread has ended, and its actions happen before that. *)
  | mw_join rd go shs ss mv ws t0 k v :
      (k < T)%nat → ws !! k = Some (WDone, v) →
      mt_wstep (mkMtWeak rd go shs ss (WmJoin t0 k) mv ws)
               (Some (mkMtWeak rd go shs ss (WmJoin t0 (S k)) (mv ⊔ v) ws))
  | mw_joined rd go shs ss mv ws t0 t1 :
      mt_wstep (mkMtWeak rd go shs ss (WmJoin t0 T) mv ws)
               (Some (mkMtWeak rd go shs ss (WmSum t0 t1 0 0) mv ws))
  (** [for (std::uint64_t c : checksums) cs ^= c;] *)
  | mw_sum rd go shs ss mv ws t0 t1 k cs :
      (k < T)%nat →
      mt_wstep (mkMtWeak rd go shs ss (WmSum t0 t1 k cs) mv ws)
               ('(x, ss', mv') ← read_sum k ss mv;
                Some (mkMtWeak rd go shs ss' (WmSum t0 t1 (S k) (Z.lxor cs x)) mv' ws))
  | mw_end rd go shs ss mv ws t0 t1 cs :
      mt_wstep (mkMtWeak rd go shs ss (WmSum t0 t1 T cs) mv ws)
               (Some (mkMtWeak rd go shs ss (WmEnd t0 t1 cs) mv ws)).

Inductive mt_wreach : option MtWeak → Prop :=
  | mt_wreach_init : mt_wreach (Some mt_weak_init)
  | mt_wreach_step w o : mt_wreach (Some w) → mt_wstep w o → mt_wreach o.

End MtWeak.
