(* ===== verification/SpscBench.v ===== *)
(** * replay_bench_spsc: both regimes and the program around them

    Models [src/src/bin/replay_bench_spsc.cpp]: the ring-bound throughput runs (payload,
    cursor caching, median of the repetitions), the validating pipeline with its
    occupancy and residency figures, and [main] with what it prints.  The loops are
    those of [SpscProgram.v], so a run is any finished execution of the two threads on the
    C++ memory model;
    cursor placement ([CursorAlign]) and thread pinning change no value.  Clock readings
    and cycle counts are arbitrary. *)

From stdpp Require Import base numbers list list_numbers sorting gmap strings relations.
From Stdlib Require Import ZArith Lia.
From S2P Require Import Prelude Float64 Runtime Clock Wire Replay Validator ValidatorTable ValidatorProps.
From S2P Require Import Util UtilProofs Arbitrator ArbitratorProofs ArbitratorSessions.
From S2P Require Import Harness HarnessProofs Pipeline ReplayMain SpscRing SpscRingProofs SpscProgram.

Local Open Scope Z_scope.

#[export] Instance WireRecord_inhabited : Inhabited WireRecord := populate zero_record.

(** [std::chrono::duration<double>(t1 - t0).count()] of a nanosecond clock. *)
Definition duration_secs (t0 t1 : Z) : double := fdiv (double_of_Z (t1 - t0)) (double_of_Z 1000000000).

(** ** Regime 1: the ring alone *)

Definition kThroughputReps : nat := 5.

(** The items of a run: [make(i)] for every index, [passes] times over. *)
Definition made {T} (count : Z) (passes : nat) (make : Z → T) : list T :=
  concat (replicate passes (make <$> seqZ 0 count)).

(** [std::memcpy(&b, &out, 1)]: the first byte of the object. *)
Definition first_byte (image : list byte) : Z := Z_of_byte (default (byte_of_Z 0) (image !! 0%nat)).

(** The consumer's body: [sink += b]. *)
Definition sink_body {T} (image : T → list byte) (_ : nat) (x : T) (_ : Z) (sink : Z) : Z :=
  sink +u first_byte (image x).

(** [secs > 0.0 ? static_cast<double>(total) / secs : 0.0] *)
Definition rate_of (total t0 t1 : Z) : double :=
  let secs := duration_secs t0 t1 in
  if fgt secs fzero then fdiv (double_of_Z total) secs else fzero.

(** The order [std::sort] uses, with NaN (which never occurs here) put last. *)
Definition dle (x y : double) : Prop := is_nan y = true ∨ fle x y = true.

#[export] Instance dle_dec : RelDecision dle.
Proof. unfold RelDecision, dle. intros. apply _. Defined.

(** The sorted rates at [kThroughputReps / 2]. *)
Definition median_rate (rates : list double) : option double :=
  merge_sort dle rates !! (kThroughputReps / 2)%nat.

(** A run may be any execution of the two threads, so what these functions return is a
    relation; [t0] and [t1] are the readings of the clock around the run, [clock i] those
    around the [i]-th repetition. *)
Section Throughput.
Context {T : Type} `{!Inhabited T} (CacheFarCursor : bool) (image : T → list byte).
Context (count passes : Z) (make : Z → T).

Definition ring_throughput_once (t0 t1 : Z) (rate : double) : Prop :=
  let total := count *u passes in
  ∃ p, prog_reachable kRingCapacity CacheFarCursor false (sink_body image) total
         (made count (Z.to_nat passes) make) 0 (Some p) ∧
       finished total p ∧ rate = rate_of total t0 t1.

Definition ring_throughput_median (clock : nat → Z * Z) (m : double) : Prop :=
  ∃ rates, length rates = kThroughputReps ∧
    (∀ i rate, rates !! i = Some rate → ring_throughput_once (clock i).1 (clock i).2 rate) ∧
    median_rate rates = Some m.

End Throughput.

(** ** Regime 2: the validating consumer *)

(** [now] is the cycle count read after the [k]-th pop. *)
Definition pipe_body (cast_undefined : double → Z) (tpns : double) (now : nat → Z)
    (k : nat) (s : Stamped) (occ : Z) (c : PipeConsumer) : PipeConsumer :=
  consume_one cast_undefined tpns s (now k) occ c.

(** The producer's items: the records in order, each with the count read before its push. *)
Definition stamped_items (passes : nat) (recs : list WireRecord) (tsc : nat → Z) : list Stamped :=
  imap (λ i rec, mkStamped rec (tsc i)) (produced passes recs).

(** ** Report *)

Record Rates := mkRates { r_sep : double; r_pak : double }.

Definition spsc_row (label : list byte) (r : Rates) : Print :=
  let sep := r_sep r in
  let pak := r_pak r in
  printf "      %-11s %6.1f M ops/s   %6.1f M ops/s   separate %+.1f%%\n"
    [AS label; AF (fdiv sep (double_of_Z 1000000)); AF (fdiv pak (double_of_Z 1000000));
     AF (if fgt pak fzero then fmul (fdiv (fsub sep pak) pak) (double_of_Z 100) else fzero)].

(** The medians of the eight configurations: payload (record or word) by algorithm
    (naive or cached), separate and packed cursors. *)
Record SpscRates := mkSpscRates { rec_n : Rates; u64_n : Rates; rec_c : Rates; u64_c : Rates }.

Definition spsc_regime1 (r : SpscRates) : list Print :=
  [printf "\n  [1] ring-bound throughput (median of %d) — separate vs packed cursor lines\n"
     [AI (Z.of_nat kThroughputReps)];
   printf "      payload      separate          packed           delta\n" [];
   printf "      naive ring (reads both cursors every iteration):\n" [];
   spsc_row (bs "64B record") (rec_n r);
   spsc_row (bs "8B word") (u64_n r);
   printf "      cached ring (caches the far cursor, re-reads on full/empty):\n" [];
   spsc_row (bs "64B record") (rec_c r);
   spsc_row (bs "8B word") (u64_c r);
   printf "      → did caching raise throughput AND flip the cursor-line delta back to separate-wins?\n" []].

Section Report.
Context (cast_undefined : double → Z) (have_rdtsc : bool).

Definition mean_occupancy (c : PipeConsumer) (total : Z) : double :=
  fdiv (double_of_Z (occupancy_sum c)) (double_of_Z total).

Definition spsc_regime2 (c : PipeConsumer) (total p0 p1 : Z) : list Print :=
  let hist := pc_hist c in
  [printf "\n  [2] realistic pipeline (consumer validates) — %s\n"
     [AS (if tsc_available have_rdtsc then bs "x86 rdtscp" else bs "FALLBACK")];
   printf "      end-to-end throughput : %.1f M rec/s  (validate-bound)\n"
     [AF (fdiv (rate_of total p0 p1) (double_of_Z 1000000))];
   printf "      mean ring occupancy   : %.0f / %zu  → producer outruns consumer, so the ring stays full\n"
     [AF (mean_occupancy c total); AU kRingCapacity];
   printf "      handoff = QUEUE RESIDENCY (≈ occupancy × consume time), not the ring's sync cost:\n" [];
   printf "        p50   : %llu ns\n" [AU (percentile_of cast_undefined (lit 50 100) hist)];
   printf "        p99   : %llu ns\n" [AU (percentile_of cast_undefined (lit 99 100) hist)];
   printf "        p99.9 : %llu ns\n" [AU (percentile_of cast_undefined (lit 999 1000) hist)];
   printf "        max   : %llu ns\n" [AU (hist_max hist)];
   printf "        mean  : %.0f ns\n" [AF (hist_mean hist)]] ++
  (if negb (tsc_anomalies c =? 0)
   then [printf "      WARNING: %llu samples had dequeue-TSC < enqueue-TSC (cross-core TSC desync) — excluded.\n"
           [AU (tsc_anomalies c)]]
   else []) ++
  [printf "\n" []].

Definition spsc_title (path : list byte) (pcore ccore count passes : Z) : list Print :=
  (if tsc_available have_rdtsc then []
   else [printf "WARNING: not an x86 build — handoff numbers use a coarse fallback timer and are not meaningful.\n" []]) ++
  [printf "\nSPSC pipeline — producer core %d, consumer core %d, ring capacity %zu\n"
     [AI pcore; AI ccore; AU kRingCapacity];
   printf "  dataset : %s  (%llu records x %llu passes = %llu)\n"
     [AS path; AU count; AU passes; AU (count *u passes)]].

Context (clocks : nat → nat → Z * Z).

(** [rec_make] and [u64_make] *)
Definition rec_make (recs : list WireRecord) (i : Z) : WireRecord := recs !!! Z.to_nat i.
Definition u64_make (i : Z) : Z := i.

(** The eight configurations, one after the other, with the readings around their
    repetitions; the placement of the cursors makes no difference to what a run may do. *)
Definition regime1_runs (recs : list WireRecord) (passes : Z) (r : SpscRates) : Prop :=
  let count := Z.of_nat (length recs) in
  let of_records cache k := ring_throughput_median cache encode_record count passes (rec_make recs) (clocks k) in
  let of_words cache k := ring_throughput_median cache (le_bytes 8) count passes u64_make (clocks k) in
  (of_records false 0%nat (r_sep (rec_n r)) ∧ of_records false 1%nat (r_pak (rec_n r))) ∧
  (of_words false 2%nat (r_sep (u64_n r)) ∧ of_words false 3%nat (r_pak (u64_n r))) ∧
  (of_records true 4%nat (r_sep (rec_c r)) ∧ of_records true 5%nat (r_pak (rec_c r))) ∧
  (of_words true 6%nat (r_sep (u64_c r)) ∧ of_words true 7%nat (r_pak (u64_c r))).

(** The consumer at the end of the second regime; [tsc] are the counts read before the
    pushes, [now] those read after the pops. *)
Definition pipeline_runs (tpns : double) (recs : list WireRecord) (passes : Z) (c : PipeConsumer) : Prop :=
  let total := Z.of_nat (length recs) *u passes in
  ∃ tsc now p, (∀ i, is_u64 (tsc i) ∧ is_u64 (now i)) ∧
    prog_reachable kRingCapacity false true (pipe_body cast_undefined tpns now) total
      (stamped_items (Z.to_nat passes) recs tsc) pipe_init (Some p) ∧
    finished total p ∧ c = acc (p_client p).

(** [main] after the file has been opened: the runs of the first regime, the
    calibration, the run of the second with the readings [p0] and [p1] around it. *)
Definition spsc_run (path : list byte) (pcore ccore passes : Z) (recs : list WireRecord)
    (res : ProgResult) : Prop :=
  let count := Z.of_nat (length recs) in
  ∃ rates t0 t1 c0 c1 c p0 p1,
    regime1_runs recs passes rates ∧
    pipeline_runs (calibrate_ticks_per_ns have_rdtsc t0 t1 c0 c1) recs passes c ∧ p0 <= p1 ∧
    res = Returns 0 (spsc_title path pcore ccore count passes ++ spsc_regime1 rates ++
                     spsc_regime2 c (count *u passes) p0 p1).

(** [k] is what the runs over the opened records do. *)
Inductive spsc_main (sys : Replay.Sys) (argv : list (list byte)) (w : OS) : ProgResult * OS → Prop :=
  | spsc_bad_core :
      arg argv 3 atoi (Some 2) = None ∨ arg argv 4 atoi (Some 4) = None →
      spsc_main sys argv w (Undefined, w)
  | spsc_ran pcore ccore k :
      arg argv 3 atoi (Some 2) = Some pcore → arg argv 4 atoi (Some 4) = Some ccore →
      let path := arg argv 1 id default_path in
      let m := (MappedFile_ctor sys (path_string path) w).1 in
      (∀ recs, open_view path (mf_base m) (mf_size m) = inr (Some recs) →
         spsc_run path pcore ccore (arg argv 2 strtoull 5) recs (k recs)) →
      spsc_main sys argv w (with_mapped_file sys path k w).

End Report.
