(* ===== verification/Ingest.v ===== *)
(** * Live ingest: adapters, reports, frame parser

    Models [src/src/model/bar.h] (the convenience types of the JSON path),
    [src/src/ingest/to_wire.h], [live_report.h], [violation_log.h] and
    [parser.cpp].  A [std::string] is a list of bytes.  simdjson is a parameter: an
    interface of the queries the parser makes, each of which can fail.  The violation
    log is modelled up to the fields of the JSON value it builds; turning that value
    into text is the JSON library's work. *)

From stdpp Require Import base numbers list gmap strings countable.
From Stdlib Require Import ZArith Lia Strings.Byte.
From S2P Require Import Prelude Float64 Runtime Wire Validator Timestamp.

Local Open Scope Z_scope.

#[export] Instance byte_countable : Countable byte :=
  inj_countable Byte.to_N Byte.of_N Byte.of_to_N.

(** ** model/bar.h *)

Record JTrade := mkJTrade {
  jt_symbol : list byte;
  jt_ts_ns : Z;
  jt_trade_id : Z;
  jt_price : double;
  jt_size : Z;
  jt_exchange : list byte;
  jt_tape : list byte
}.

Record JBar := mkJBar {
  jb_symbol : list byte;
  jb_start_ns : Z;
  jb_open : double;
  jb_high : double;
  jb_low : double;
  jb_close : double;
  jb_volume : Z;
  jb_trade_count : Z;
  jb_vwap : double
}.

Record JQuote := mkJQuote {
  jq_symbol : list byte;
  jq_ts_ns : Z;
  jq_bid_price : double;
  jq_ask_price : double;
  jq_bid_size : Z;
  jq_ask_size : Z;
  jq_bid_exchange : list byte;
  jq_ask_exchange : list byte;
  jq_tape : list byte
}.

(** ** to_wire.h *)

(** The C string that starts at [c_str()]: everything before the first NUL. *)
Fixpoint c_str (s : list byte) : list byte :=
  match s with
  | [] => []
  | b :: s' => if Z_of_byte b =? 0 then [] else b :: c_str s'
  end.

(** [strncpy] over a zeroed field: at most [kSymbolLen] characters, NUL padding. *)
Definition set_symbol (sym : list byte) : list byte :=
  let copied := take kSymbolLen (c_str sym) in
  copied ++ replicate (kSymbolLen - length copied) Init.Byte.x00.

(** [s.empty() ? '\0' : s.front()] *)
Definition front_or_nul (s : list byte) : byte := default Init.Byte.x00 (head s).

Definition to_wire_trade (t : JTrade) (seq : Z) : WireTrade :=
  mkWireTrade (set_symbol (jt_symbol t)) (jt_ts_ns t) seq (jt_trade_id t) (jt_price t) (jt_size t)
    (front_or_nul (jt_exchange t)) (front_or_nul (jt_tape t)) (replicate 14 Init.Byte.x00).

Definition to_wire_bar (b : JBar) (seq : Z) : WireBar :=
  mkWireBar (set_symbol (jb_symbol b)) (jb_start_ns b) seq (jb_open b) (jb_high b) (jb_low b)
    (jb_close b) (jb_vwap b) (jb_volume b) (jb_trade_count b).

Definition to_wire_quote (q : JQuote) (seq : Z) : WireQuote :=
  mkWireQuote (set_symbol (jq_symbol q)) (jq_ts_ns q) seq (jq_bid_price q) (jq_ask_price q)
    (jq_bid_size q) (jq_ask_size q) (front_or_nul (jq_bid_exchange q))
    (front_or_nul (jq_ask_exchange q)) (front_or_nul (jq_tape q)) (replicate 5 Init.Byte.x00).

(** ** live_report.h *)

Record LiveLabel := mkLiveLabel { ll_bit : Z; ll_text : list byte }.

Definition kLiveLabels : list LiveLabel :=
  [mkLiveLabel kTradeNonPositivePrice (bs "trade non-positive price");
   mkLiveLabel kTradeNonPositiveSize (bs "trade non-positive size");
   mkLiveLabel kPriceBandBreach (bs "price-band outlier");
   mkLiveLabel kBarLowAboveHigh (bs "bar low > high");
   mkLiveLabel kBarOpenOutOfRange (bs "bar open out of [low,high]");
   mkLiveLabel kBarCloseOutOfRange (bs "bar close out of [low,high]");
   mkLiveLabel kBarVwapOutOfRange (bs "bar vwap out of [low,high]");
   mkLiveLabel kBarNonPositivePrice (bs "bar non-positive price");
   mkLiveLabel kBarVolumeInconsistent (bs "bar volume/trade-count inconsistent");
   mkLiveLabel kQuoteCrossed (bs "quote crossed (bid > ask)");
   mkLiveLabel kQuoteLocked (bs "quote locked (bid == ask)");
   mkLiveLabel kQuoteNonPositive (bs "quote non-positive price");
   mkLiveLabel kQuoteZeroSize (bs "quote zero bid/ask size")].

Definition kSurfacedMask : Z := foldl (λ m l, Z.lor m (ll_bit l)) 0 kLiveLabels.

(** [flags & kSurfacedMask & l.bit] *)
Definition surfaces (flags : Z) (l : LiveLabel) : bool :=
  negb (Z.land (Z.land flags kSurfacedMask) (ll_bit l) =? 0).

Definition describe (flags : Z) : list byte :=
  foldl (λ out l,
    if surfaces flags l
    then (if negb (bool_decide (out = [])) then out ++ bs ", " else out) ++ ll_text l
    else out) [] kLiveLabels.

(** ** violation_log.h *)

(** The JSON value of a violation, before nlohmann's [dump]. *)
Record ViolationJson := mkViolationJson {
  vj_kind : list byte;
  vj_symbol : list byte;
  vj_ts : Z;
  vj_seq : Z;
  vj_checks : list (list byte)
}.

Definition violation_json (kind symbol : list byte) (ts seq flags : Z) : ViolationJson :=
  mkViolationJson kind symbol ts seq
    (foldl (λ checks l, if surfaces flags l then checks ++ [ll_text l] else checks) [] kLiveLabels).

(** ** parser.cpp *)

(** What the parser asks of simdjson.  An element of the frame's array is an object
    or not; each typed field access can fail (missing key, wrong type). *)
Record simdjson := mkSimdjson {
  Obj : Type;
  sj_get_array : list byte → option (list (option Obj));
  sj_get_string : Obj → list byte → option (list byte);
  sj_get_double : Obj → list byte → option double;
  sj_get_uint64 : Obj → list byte → option Z
}.

Record ParsedFrame := mkParsedFrame {
  pf_trades : list JTrade;
  pf_bars : list JBar;
  pf_quotes : list JQuote;
  pf_errors : list (list byte);
  pf_unknown_types : list (list byte);
  has_connected_ack : bool;
  has_authenticated_ack : bool;
  has_subscription_ack : bool
}.

Definition empty_frame : ParsedFrame := mkParsedFrame [] [] [] [] [] false false false.

Definition push_trade (t : JTrade) (f : ParsedFrame) : ParsedFrame :=
  mkParsedFrame (pf_trades f ++ [t]) (pf_bars f) (pf_quotes f) (pf_errors f) (pf_unknown_types f)
    (has_connected_ack f) (has_authenticated_ack f) (has_subscription_ack f).
Definition push_bar (b : JBar) (f : ParsedFrame) : ParsedFrame :=
  mkParsedFrame (pf_trades f) (pf_bars f ++ [b]) (pf_quotes f) (pf_errors f) (pf_unknown_types f)
    (has_connected_ack f) (has_authenticated_ack f) (has_subscription_ack f).
Definition push_quote (q : JQuote) (f : ParsedFrame) : ParsedFrame :=
  mkParsedFrame (pf_trades f) (pf_bars f) (pf_quotes f ++ [q]) (pf_errors f) (pf_unknown_types f)
    (has_connected_ack f) (has_authenticated_ack f) (has_subscription_ack f).
Definition push_error (e : list byte) (f : ParsedFrame) : ParsedFrame :=
  mkParsedFrame (pf_trades f) (pf_bars f) (pf_quotes f) (pf_errors f ++ [e]) (pf_unknown_types f)
    (has_connected_ack f) (has_authenticated_ack f) (has_subscription_ack f).
Definition push_unknown (u : list byte) (f : ParsedFrame) : ParsedFrame :=
  mkParsedFrame (pf_trades f) (pf_bars f) (pf_quotes f) (pf_errors f) (pf_unknown_types f ++ [u])
    (has_connected_ack f) (has_authenticated_ack f) (has_subscription_ack f).
Definition set_acks (c a s : bool) (f : ParsedFrame) : ParsedFrame :=
  mkParsedFrame (pf_trades f) (pf_bars f) (pf_quotes f) (pf_errors f) (pf_unknown_types f) c a s.

(** What [parse] throws. *)
Inductive ParseError := FrameNotArray | BadTimestamp (e : TsError).

Section Parse.
Context (days_unspecified : Z → Z → Z → Z) (J : simdjson).

Definition get_string (o : Obj J) (key : list byte) : list byte := default [] (sj_get_string J o key).
Definition get_double (o : Obj J) (key : list byte) : double := default fzero (sj_get_double J o key).
Definition get_u64 (o : Obj J) (key : list byte) : Z := default 0 (sj_get_uint64 J o key).

(** [if (!ts.empty()) x.ts_ns = parse_rfc3339_nano(ts);] over a field that is 0. *)
Definition get_timestamp (o : Obj J) : ParseError + Z :=
  let ts := get_string o (bs "t") in
  if bool_decide (ts = []) then inr 0
  else match parse_rfc3339_nano days_unspecified ts with
       | inl e => inl (BadTimestamp e)
       | inr v => inr v
       end.

Definition parse_trade (o : Obj J) (out : ParsedFrame) : ParseError + ParsedFrame :=
  match get_timestamp o with
  | inl e => inl e
  | inr ts =>
      inr (push_trade (mkJTrade (get_string o (bs "S")) ts (get_u64 o (bs "i"))
             (get_double o (bs "p")) (get_u64 o (bs "s")) (get_string o (bs "x"))
             (get_string o (bs "z"))) out)
  end.

Definition parse_bar (o : Obj J) (out : ParsedFrame) : ParseError + ParsedFrame :=
  match get_timestamp o with
  | inl e => inl e
  | inr ts =>
      inr (push_bar (mkJBar (get_string o (bs "S")) ts (get_double o (bs "o"))
             (get_double o (bs "h")) (get_double o (bs "l")) (get_double o (bs "c"))
             (get_u64 o (bs "v")) (get_u64 o (bs "n")) (get_double o (bs "vw"))) out)
  end.

Definition parse_quote (o : Obj J) (out : ParsedFrame) : ParseError + ParsedFrame :=
  match get_timestamp o with
  | inl e => inl e
  | inr ts =>
      inr (push_quote (mkJQuote (get_string o (bs "S")) ts (get_double o (bs "bp"))
             (get_double o (bs "ap")) (get_u64 o (bs "bs")) (get_u64 o (bs "as"))
             (get_string o (bs "bx")) (get_string o (bs "ax")) (get_string o (bs "z"))) out)
  end.

Definition parse_success (o : Obj J) (out : ParsedFrame) : ParsedFrame :=
  let msg := get_string o (bs "msg") in
  if bool_decide (msg = bs "connected")
  then set_acks true (has_authenticated_ack out) (has_subscription_ack out) out
  else if bool_decide (msg = bs "authenticated")
  then set_acks (has_connected_ack out) true (has_subscription_ack out) out
  else out.

Definition parse_error (o : Obj J) (out : ParsedFrame) : ParsedFrame :=
  push_error (get_string o (bs "msg")) out.

(** One iteration of the loop over the array. *)
Definition parse_element (el : option (Obj J)) (out : ParsedFrame) : ParseError + ParsedFrame :=
  match el with
  | None => inr (push_unknown (bs "<not an object>") out)
  | Some o =>
      match sj_get_string J o (bs "T") with
      | None => inr (push_unknown (bs "<missing T>") out)
      | Some type =>
          if bool_decide (type = bs "t") then parse_trade o out
          else if bool_decide (type = bs "q") then parse_quote o out
          else if bool_decide (type = bs "b") then parse_bar o out
          else if bool_decide (type = bs "success") then inr (parse_success o out)
          else if bool_decide (type = bs "subscription")
          then inr (set_acks (has_connected_ack out) (has_authenticated_ack out) true out)
          else if bool_decide (type = bs "error") then inr (parse_error o out)
          else inr (push_unknown type out)
      end
  end.

Fixpoint parse_elements (els : list (option (Obj J))) (out : ParsedFrame) : ParseError + ParsedFrame :=
  match els with
  | [] => inr out
  | el :: els' =>
      match parse_element el out with
      | inl e => inl e
      | inr out' => parse_elements els' out'
      end
  end.

Definition parse (frame : list byte) : ParseError + ParsedFrame :=
  match sj_get_array J frame with
  | None => inl FrameNotArray
  | Some els => parse_elements els empty_frame
  end.

End Parse.
