(* ===== verification/ParserProofs.v ===== *)
(** * Parser: a frame is partitioned by message type

    The loop of [Parser::parse] against a field-by-field description of its result,
    and what a bad timestamp does to a frame. *)

From stdpp Require Import base numbers list gmap strings.
From Stdlib Require Import ZArith Lia.
From S2P Require Import Prelude Float64 Runtime Wire Validator Timestamp Ingest.

Local Open Scope Z_scope.

(** Decide equations between message types. *)
Ltac decide_types :=
  repeat match goal with
    | |- context [bool_decide (?a = ?b)] =>
        first [rewrite (bool_decide_eq_true_2 (a = b)) by reflexivity
              |rewrite (bool_decide_eq_false_2 (a = b)) by discriminate]
    end.

Ltac in_known := repeat first [apply list_elem_of_here | apply list_elem_of_further].

(** Normalise a frame whose fields are appended to. *)
Ltac frame_simp :=
  cbn [orb andb app push_trade push_bar push_quote push_error push_unknown set_acks pf_trades
       pf_bars pf_quotes pf_errors pf_unknown_types has_connected_ack has_authenticated_ack
       has_subscription_ack];
  rewrite ?app_nil_r, ?orb_false_r, ?orb_true_r; try reflexivity.

Section Frame.
Context (days : Z → Z → Z → Z) (J : simdjson).

Definition has_type (ty : list byte) (o : Obj J) : bool :=
  bool_decide (sj_get_string J o (bs "T") = Some ty).

(** The timestamp of a message whose timestamp is not malformed. *)
Definition timestamp_or_0 (o : Obj J) : Z :=
  match get_timestamp days J o with inr v => v | inl _ => 0 end.

Definition as_trade (el : option (Obj J)) : option JTrade :=
  o ← el;
  if has_type (bs "t") o
  then Some (mkJTrade (get_string J o (bs "S")) (timestamp_or_0 o) (get_u64 J o (bs "i"))
         (get_double J o (bs "p")) (get_u64 J o (bs "s")) (get_string J o (bs "x"))
         (get_string J o (bs "z")))
  else None.

Definition as_bar (el : option (Obj J)) : option JBar :=
  o ← el;
  if has_type (bs "b") o
  then Some (mkJBar (get_string J o (bs "S")) (timestamp_or_0 o) (get_double J o (bs "o"))
         (get_double J o (bs "h")) (get_double J o (bs "l")) (get_double J o (bs "c"))
         (get_u64 J o (bs "v")) (get_u64 J o (bs "n")) (get_double J o (bs "vw")))
  else None.

Definition as_quote (el : option (Obj J)) : option JQuote :=
  o ← el;
  if has_type (bs "q") o
  then Some (mkJQuote (get_string J o (bs "S")) (timestamp_or_0 o) (get_double J o (bs "bp"))
         (get_double J o (bs "ap")) (get_u64 J o (bs "bs")) (get_u64 J o (bs "as"))
         (get_string J o (bs "bx")) (get_string J o (bs "ax")) (get_string J o (bs "z")))
  else None.

Definition as_error (el : option (Obj J)) : option (list byte) :=
  o ← el; if has_type (bs "error") o then Some (get_string J o (bs "msg")) else None.

Definition known_types : list (list byte) :=
  [bs "t"; bs "q"; bs "b"; bs "success"; bs "subscription"; bs "error"].

Definition as_unknown (el : option (Obj J)) : option (list byte) :=
  match el with
  | None => Some (bs "<not an object>")
  | Some o =>
      match sj_get_string J o (bs "T") with
      | None => Some (bs "<missing T>")
      | Some ty => if decide (ty ∈ known_types) then None else Some ty
      end
  end.

Definition acks (msg : string) (el : option (Obj J)) : bool :=
  match el with
  | Some o => has_type (bs "success") o && bool_decide (get_string J o (bs "msg") = bs msg)
  | None => false
  end.

Definition acks_subscription (el : option (Obj J)) : bool :=
  match el with Some o => has_type (bs "subscription") o | None => false end.

(** The exception a message raises: its timestamp is malformed. *)
Definition element_error (el : option (Obj J)) : option ParseError :=
  o ← el;
  if has_type (bs "t") o || has_type (bs "q") o || has_type (bs "b") o
  then match get_timestamp days J o with inl e => Some e | inr _ => None end
  else None.

(** The frame, field by field. *)
Definition frame_of (els : list (option (Obj J))) : ParsedFrame :=
  mkParsedFrame (omap as_trade els) (omap as_bar els) (omap as_quote els) (omap as_error els)
    (omap as_unknown els) (existsb (acks "connected") els) (existsb (acks "authenticated") els)
    (existsb acks_subscription els).

Definition frame_app (f g : ParsedFrame) : ParsedFrame :=
  mkParsedFrame (pf_trades f ++ pf_trades g) (pf_bars f ++ pf_bars g)
    (pf_quotes f ++ pf_quotes g) (pf_errors f ++ pf_errors g)
    (pf_unknown_types f ++ pf_unknown_types g)
    (has_connected_ack f || has_connected_ack g)
    (has_authenticated_ack f || has_authenticated_ack g)
    (has_subscription_ack f || has_subscription_ack g).

Lemma frame_app_assoc f g h : frame_app (frame_app f g) h = frame_app f (frame_app g h).
Proof. unfold frame_app. cbn. by rewrite <- !app_assoc, <- !orb_assoc. Qed.

Lemma frame_of_app els1 els2 :
  frame_of (els1 ++ els2) = frame_app (frame_of els1) (frame_of els2).
Proof. unfold frame_of, frame_app. cbn. by rewrite !omap_app, !existsb_app. Qed.

Lemma parse_element_spec el out :
  parse_element days J el out =
  match element_error el with
  | Some e => inl e
  | None => inr (frame_app out (frame_of [el]))
  end.
Proof.
  destruct out as [ts bars qs es us c a s]. unfold parse_element, element_error, frame_of, frame_app.
  destruct el as [o|]; cbn [mbind option_bind omap list_omap existsb]; last first.
  { cbn. by rewrite !app_nil_r, !orb_false_r. }
  unfold as_trade, as_bar, as_quote, as_error, as_unknown, acks, acks_subscription, has_type,
    timestamp_or_0, parse_trade, parse_quote, parse_bar, parse_success, parse_error.
  cbn [mbind option_bind]. destruct (sj_get_string J o (bs "T")) as [ty|]; last first.
  { cbn. by rewrite !app_nil_r, !orb_false_r. }
  destruct (decide (ty ∈ known_types)) as [Hin|Hin].
  - unfold known_types in Hin.
    repeat (apply elem_of_cons in Hin as [->|Hin]; [|]); [..|by apply not_elem_of_nil in Hin].
    1-3: decide_types; destruct (get_timestamp days J o) as [e|v]; frame_simp.
    all: decide_types; cbn [orb andb]; repeat case_bool_decide; frame_simp.
    all: match goal with H1 : ?x = bs _, H2 : ?x = bs _ |- _ => by rewrite H1 in H2 end.
  - assert (Hn : ∀ x, x ∈ known_types → ty ≠ x) by (by intros x Hx ->).
    repeat match goal with
      | |- context [bool_decide (ty = ?x)] =>
          rewrite (bool_decide_eq_false_2 (ty = x)) by (apply Hn; in_known)
      | |- context [bool_decide (Some ty = Some ?x)] =>
          rewrite (bool_decide_eq_false_2 (Some ty = Some x))
            by (intros [= ?]; apply (Hn x); [in_known|done])
      end.
    frame_simp.
Qed.

Fixpoint first_error (els : list (option (Obj J))) : option ParseError :=
  match els with
  | [] => None
  | el :: els' => match element_error el with Some e => Some e | None => first_error els' end
  end.

Lemma parse_elements_spec els out :
  parse_elements days J els out =
  match first_error els with Some e => inl e | None => inr (frame_app out (frame_of els)) end.
Proof.
  revert out. induction els as [|el els IH]; intros out; cbn [parse_elements first_error].
  { destruct out. unfold frame_app, frame_of. cbn. by rewrite !app_nil_r, !orb_false_r. }
  rewrite parse_element_spec. destruct (element_error el); [done|]. rewrite IH.
  destruct (first_error els); [done|]. f_equal. rewrite frame_app_assoc. f_equal.
  by rewrite <- (frame_of_app [el] els).
Qed.

(** The messages that only set an acknowledgement (or nothing). *)
Definition is_control (el : option (Obj J)) : bool :=
  match el with
  | Some o => has_type (bs "success") o || has_type (bs "subscription") o
  | None => false
  end.

Definition frame_size (f : ParsedFrame) : Z :=
  Z.of_nat (length (pf_trades f) + length (pf_bars f) + length (pf_quotes f) +
            length (pf_errors f) + length (pf_unknown_types f)).

Lemma frame_size_app f g : frame_size (frame_app f g) = frame_size f + frame_size g.
Proof. unfold frame_size, frame_app. cbn. rewrite !length_app. lia. Qed.

Lemma frame_size_element el :
  frame_size (frame_of [el]) = 1 - (if is_control el then 1 else 0).
Proof.
  unfold frame_of. cbn [omap list_omap]. destruct el as [o|]; [|done].
  unfold is_control, as_trade, as_bar, as_quote, as_error, as_unknown, has_type.
  cbn [mbind option_bind]. destruct (sj_get_string J o (bs "T")) as [ty|]; [|done].
  destruct (decide (ty ∈ known_types)) as [Hin|Hin].
  - unfold known_types in Hin.
    repeat (apply elem_of_cons in Hin as [->|Hin]; [|]); [..|by apply not_elem_of_nil in Hin];
      decide_types; reflexivity.
  - assert (Hn : ∀ x, x ∈ known_types → ty ≠ x) by (by intros x Hx ->).
    repeat match goal with
      | |- context [bool_decide (Some ty = Some ?x)] =>
          rewrite (bool_decide_eq_false_2 (Some ty = Some x))
            by (intros [= ?]; apply (Hn x); [in_known|done])
      end.
    reflexivity.
Qed.

Lemma frame_size_of els :
  frame_size (frame_of els) + countb is_control els = Z.of_nat (length els).
Proof.
  induction els as [|el els IH]; [done|]. change (el :: els) with ([el] ++ els) at 1.
  rewrite frame_of_app, frame_size_app, frame_size_element, countb_cons. cbn [length]. lia.
Qed.

Lemma first_error_none els : first_error els = None ↔ Forall (λ el, element_error el = None) els.
Proof.
  induction els as [|el els IH]; cbn [first_error]; [done|]. rewrite Forall_cons.
  destruct (element_error el); [|rewrite IH]; naive_solver.
Qed.

(** The result of [parse] on every frame. *)
Lemma parse_spec frame :
  parse days J frame =
    match sj_get_array J frame with
    | None => inl FrameNotArray
    | Some els => match first_error els with Some e => inl e | None => inr (frame_of els) end
    end.
Proof.
  unfold parse. destruct (sj_get_array J frame) as [els|]; [|done]. rewrite parse_elements_spec.
  destruct (first_error els); [done|]. f_equal.
Qed.

(** C36: A frame that is a JSON array, in which the timestamps of the trades, quotes and
    bars are readable or absent, is partitioned by message type: the result holds the
    messages of each type in frame order with their fields, an element that is not an
    object, has no type or an unknown type is reported in it, the acknowledgements are
    those of the frame, and no element of the array is lost or counted twice.  A frame that
    is not a JSON array throws. *)
Theorem parser_partitions_frame frame :
  (sj_get_array J frame = None → parse days J frame = inl FrameNotArray) ∧
  ∀ els, sj_get_array J frame = Some els → Forall (λ el, element_error el = None) els →
    parse days J frame = inr (frame_of els) ∧
    frame_size (frame_of els) + countb is_control els = Z.of_nat (length els).
Proof.
  rewrite parse_spec. split; [by intros ->|]. intros els -> ->%first_error_none. split; [done|apply frame_size_of].
Qed.

(** A malformed timestamp of one message throws, and nothing of the frame survives. *)
Lemma parser_bad_timestamp frame els el e :
  sj_get_array J frame = Some els → el ∈ els → element_error el = Some e →
  ∃ e', parse days J frame = inl e'.
Proof.
  intros Ha Hin He. rewrite parse_spec, Ha. destruct (first_error els) as [e'|] eqn:E; [by exists e'|].
  apply first_error_none in E. rewrite Forall_forall in E. apply E in Hin. congruence.
Qed.

End Frame.

(** ** A concrete document model, for the witnesses *)

Inductive JVal := JS (s : list byte) | JD (d : double) | JU (u : Z).

Definition demo_field (o : list (string * JVal)) (k : list byte) : option JVal :=
  snd <$> list_find (λ kv, bs kv.1 = k) o ≫= λ ikv, Some ikv.2.

Definition demo_json (els : list (option (list (string * JVal)))) : simdjson :=
  mkSimdjson (list (string * JVal))
    (λ frame, if bool_decide (frame = []) then None else Some els)
    (λ o k, match demo_field o k with Some (JS s) => Some s | _ => None end)
    (λ o k, match demo_field o k with Some (JD d) => if decide (valid d) then Some d else None | _ => None end)
    (λ o k, match demo_field o k with Some (JU u) => if decide (is_u64 u) then Some u else None | _ => None end).

Definition demo_elements : list (option (list (string * JVal))) :=
  [Some [("T", JS (bs "success")); ("msg", JS (bs "connected"))];
   Some [("T", JS (bs "t")); ("S", JS (bs "AAPL")); ("p", JD fone); ("s", JU 5);
         ("t", JS (bs "2024-01-02T15:04:05.5Z"))];
   Some [("T", JS (bs "q")); ("S", JS (bs "AAPL")); ("bp", JD fone); ("ap", JD fone)];
   None; Some [("S", JS (bs "AAPL"))]; Some [("T", JS (bs "x"))];
   Some [("T", JS (bs "b")); ("S", JS (bs "MSFT")); ("o", JD fone)]].

Lemma demo_json_u64 els o k v : sj_get_uint64 (demo_json els) o k = Some v → is_u64 v.
Proof. cbn. destruct (demo_field o k) as [[]|]; try done. case_decide; [|done]. by intros [= <-]. Qed.

Lemma demo_json_double els o k d : sj_get_double (demo_json els) o k = Some d → valid d.
Proof. cbn. destruct (demo_field o k) as [[]|]; try done. case_decide; [|done]. by intros [= <-]. Qed.

(** The demo frame, parsed. *)
Example demo_frame_parses :
  match parse (λ _ _ _, 0) (demo_json demo_elements) (bs "[]") with
  | inr pf =>
      jt_ts_ns <$> pf_trades pf = [1704207845500000000] ∧ length (pf_quotes pf) = 1%nat ∧
      jb_symbol <$> pf_bars pf = [bs "MSFT"] ∧ has_connected_ack pf = true ∧
      pf_unknown_types pf = [bs "<not an object>"; bs "<missing T>"; bs "x"]
  | inl _ => False
  end.
Proof. vm_compute. auto 10. Qed.

(** One malformed timestamp discards the whole frame, the good trade included. *)
Example bad_timestamp_discards_frame :
  parse (λ _ _ _, 0)
    (demo_json [Some [("T", JS (bs "t")); ("S", JS (bs "AAPL"))];
                Some [("T", JS (bs "t")); ("S", JS (bs "AAPL")); ("t", JS (bs "yesterday"))]])
    (bs "[]") = inl (BadTimestamp (MalformedTimestamp (bs "yesterday"))).
Proof. reflexivity. Qed.

Lemma parser_partitions_frame_witness :
  parse (λ _ _ _, 0) (demo_json demo_elements) [] = inl FrameNotArray ∧
  parse (λ _ _ _, 0) (demo_json demo_elements) (bs "[]") =
    inr (frame_of (λ _ _ _, 0) (demo_json demo_elements) demo_elements) ∧
  frame_size (frame_of (λ _ _ _, 0) (demo_json demo_elements) demo_elements) = 6.
Proof.
  split; [by apply (parser_partitions_frame (λ _ _ _, 0) (demo_json demo_elements))|].
  destruct (parser_partitions_frame (λ _ _ _, 0) (demo_json demo_elements) (bs "[]")) as [_ H].
  destruct (H demo_elements eq_refl) as [H1 _]; [repeat constructor|]. split; [exact H1|reflexivity].
Defined.
