(* ===== verification/LiveIngest.v ===== *)
(** * alpaca_ingest: the live validation loop

    Models [src/src/bin/alpaca_ingest.cpp]: stamping of per-symbol sequences,
    validation, tallies and violation log, the prints of the watch mode and the optional
    capture.  The frames are those [read_frame] returns, each with the clock reading
    taken before; the loop ends by the stop signal (the list ends) or by an exception of
    the parser.  A chain of insertions into [std::cout] is written as the format string
    that prints the same; start-up and summary are in [IngestMain.v]. *)

From stdpp Require Import base numbers list gmap strings countable.
From Stdlib Require Import ZArith Lia.
From S2P Require Import Prelude Float64 Runtime Wire Replay Validator Timestamp Ingest.

Local Open Scope Z_scope.

(** ** Wrapping *)

(** [WireRecord r{}; r.type = ...; r.body.x = x;]: the rest of the union stays zero. *)
Definition wrap_body (t : RecordType) (img : list byte) : WireRecord :=
  mkWireRecord (RecordType_u8 t) (replicate 7 Init.Byte.x00)
    (img ++ replicate (80 - length img) Init.Byte.x00).

Definition wrap_trade (t : WireTrade) : WireRecord := wrap_body Trade (encode t).
Definition wrap_quote (q : WireQuote) : WireRecord := wrap_body Quote (encode q).
Definition wrap_bar (b : WireBar) : WireRecord := wrap_body Bar (encode b).

(** ** State *)

Record Ingest := mkIngest {
  ig_validator : list Slot;
  next_seq : gmap (list byte) Z;
  counts : list Z;
  n_trades : Z;
  n_bars : Z;
  n_quotes : Z;
  n_flagged : Z;
  ig_out : list Print;
  ig_log : list Print;
  vlog : option (list ViolationJson);
  capture : option CaptureWriter;
  capture_calls : nat
}.

(** A violation line on the standard output. *)
Definition violation_line (sym : list byte) (flags : Z) : Print :=
  printf "  !! %s: %s\n" [AS sym; AS (describe flags)].

(** The lines of the watch mode. *)
Definition trade_line (arrival_ns : Z) (t : JTrade) : Print :=
  printf "TRADE %llu %s p=%g s=%llu ts=%llu\n"
    [AU arrival_ns; AS (jt_symbol t); AF (jt_price t); AU (jt_size t); AU (jt_ts_ns t)].
Definition quote_line (arrival_ns : Z) (q : JQuote) : Print :=
  printf "QUOTE %llu %s b=%gx%llu a=%gx%llu ts=%llu\n"
    [AU arrival_ns; AS (jq_symbol q); AF (jq_bid_price q); AU (jq_bid_size q);
     AF (jq_ask_price q); AU (jq_ask_size q); AU (jq_ts_ns q)].
Definition bar_line (arrival_ns : Z) (b : JBar) : Print :=
  printf "BAR   %llu %s o=%g h=%g l=%g c=%g v=%llu vw=%g\n"
    [AU arrival_ns; AS (jb_symbol b); AF (jb_open b); AF (jb_high b); AF (jb_low b);
     AF (jb_close b); AU (jb_volume b); AF (jb_vwap b)].

(** [for (i) if (flags & kSurfacedMask & kLiveLabels[i].bit) ++counts[i];] *)
Definition count_labels (flags : Z) (counts : list Z) : list Z :=
  zip_with (λ l c, if surfaces flags l then c +u 1 else c) kLiveLabels counts.

(** The lambda [record]. *)
Definition record (kind sym : list byte) (ts seq flags : Z) (st : Ingest) : Ingest :=
  let flagged := negb (Z.land flags kSurfacedMask =? 0) in
  mkIngest (ig_validator st) (next_seq st) (count_labels flags (counts st))
    (n_trades st) (n_bars st) (n_quotes st)
    (if flagged then n_flagged st +u 1 else n_flagged st)
    (if flagged then ig_out st ++ [violation_line sym flags] else ig_out st) (ig_log st)
    (if flagged
     then (λ log, log ++ [violation_json kind sym ts seq flags]) <$> vlog st
     else vlog st)
    (capture st) (capture_calls st).

(** [const std::uint64_t seq = ++next_seq[symbol];] *)
Definition bump_seq (sym : list byte) (st : Ingest) : Z * Ingest :=
  let seq := default 0 (next_seq st !! sym) +u 1 in
  (seq, mkIngest (ig_validator st) (<[sym := seq]> (next_seq st)) (counts st) (n_trades st)
          (n_bars st) (n_quotes st) (n_flagged st) (ig_out st) (ig_log st) (vlog st) (capture st)
          (capture_calls st)).

(** [const auto r = validator.check(w); ++n;] where [dt], [dq] and [db] say which
    counter is incremented. *)
Definition validate_live (m : Msg) (dt dq db : Z) (st : Ingest) : Result * Ingest :=
  let '(r, tbl) := check m (ig_validator st) in
  (r, mkIngest tbl (next_seq st) (counts st) (n_trades st +u dt) (n_bars st +u db)
        (n_quotes st +u dq) (n_flagged st) (ig_out st) (ig_log st) (vlog st) (capture st)
        (capture_calls st)).

Section Loop.
(** [verbose], and the outcome of the [n]-th write to the capture file. *)
Context (verbose : bool) (disk : nat → io).

(** [if (verbose) std::cout << line;] *)
Definition watch (line : Print) (st : Ingest) : Ingest :=
  if verbose then
    mkIngest (ig_validator st) (next_seq st) (counts st) (n_trades st) (n_bars st) (n_quotes st)
      (n_flagged st) (ig_out st ++ [line]) (ig_log st) (vlog st) (capture st) (capture_calls st)
  else st.

(** [if (capture) capture->write(wrap(w));] *)
Definition capture_write (r : WireRecord) (st : Ingest) : Ingest :=
  match capture st with
  | None => st
  | Some w =>
      mkIngest (ig_validator st) (next_seq st) (counts st) (n_trades st) (n_bars st)
        (n_quotes st) (n_flagged st) (ig_out st) (ig_log st) (vlog st)
        (Some (cw_write (disk (capture_calls st)) r w)) (S (capture_calls st))
  end.

(** The bodies of the three loops over a parsed frame. *)
Definition on_trade (arrival_ns : Z) (t : JTrade) (st : Ingest) : Ingest :=
  if bool_decide (jt_symbol t = []) then st
  else
    let '(seq, st1) := bump_seq (jt_symbol t) st in
    let wt := to_wire_trade t seq in
    let '(r, st2) := validate_live (MTrade wt) 1 0 0 st1 in
    capture_write (wrap_trade wt)
      (record (bs "trade") (jt_symbol t) (jt_ts_ns t) seq (r_flags r)
        (watch (trade_line arrival_ns t) st2)).

Definition on_quote (arrival_ns : Z) (q : JQuote) (st : Ingest) : Ingest :=
  if bool_decide (jq_symbol q = []) then st
  else
    let '(seq, st1) := bump_seq (jq_symbol q) st in
    let wq := to_wire_quote q seq in
    let '(r, st2) := validate_live (MQuote wq) 0 1 0 st1 in
    capture_write (wrap_quote wq)
      (record (bs "quote") (jq_symbol q) (jq_ts_ns q) seq (r_flags r)
        (watch (quote_line arrival_ns q) st2)).

Definition on_bar (arrival_ns : Z) (b : JBar) (st : Ingest) : Ingest :=
  if bool_decide (jb_symbol b = []) then st
  else
    let '(seq, st1) := bump_seq (jb_symbol b) st in
    let wb := to_wire_bar b seq in
    let '(r, st2) := validate_live (MBar wb) 0 0 1 st1 in
    capture_write (wrap_bar wb)
      (record (bs "bar") (jb_symbol b) (jb_start_ns b) seq (r_flags r)
        (watch (bar_line arrival_ns b) st2)).

Definition log_lines (ps : list Print) (st : Ingest) : Ingest :=
  mkIngest (ig_validator st) (next_seq st) (counts st) (n_trades st) (n_bars st) (n_quotes st)
    (n_flagged st) (ig_out st) (ig_log st ++ ps) (vlog st) (capture st) (capture_calls st).

(** The errors and unknown messages of a frame, as they are logged. *)
Definition frame_log (pf : ParsedFrame) : list Print :=
  ((λ e, spdlog "error" "alpaca error: {}" [AS e]) <$> pf_errors pf) ++
  ((λ u, spdlog "warn" "unhandled message type: {}" [AS u]) <$> pf_unknown_types pf).

(** One parsed frame: trades, then quotes, then bars, then what could not be handled. *)
Definition on_frame (arrival_ns : Z) (pf : ParsedFrame) (st : Ingest) : Ingest :=
  log_lines (frame_log pf)
    (foldl (λ st b, on_bar arrival_ns b st)
      (foldl (λ st q, on_quote arrival_ns q st)
        (foldl (λ st t, on_trade arrival_ns t st) st (pf_trades pf))
        (pf_quotes pf))
      (pf_bars pf)).

Context (days_unspecified : Z → Z → Z → Z) (J : simdjson).

(** How the loop ends: by the stop signal, an exception of the parser, or one of the
    client (which [ingest_loop], over frames that were read, does not produce). *)
Inductive Outcome := Stopped | Fatal (e : ParseError) | Thrown.

(** Each frame comes with the clock reading taken before it was read. *)
Fixpoint ingest_loop (frames : list (Z * list byte)) (st : Ingest) : Outcome * Ingest :=
  match frames with
  | [] => (Stopped, st)
  | (arrival_ns, frame) :: frames' =>
      match parse days_unspecified J frame with
      | inl e => (Fatal e, st)
      | inr pf => ingest_loop frames' (on_frame arrival_ns pf st)
      end
  end.

End Loop.

(** The state at the start: the log and the capture are open or not. *)
Definition ingest_init (log : bool) (cap : option CaptureWriter) : Ingest :=
  mkIngest validator_init ∅ (replicate (length kLiveLabels) 0) 0 0 0 0 [] []
    (if log then Some [] else None) cap 0.

(** The capture file at exit: [finalize] runs on the regular path, the destructor
    runs it again on both. *)
Definition capture_file (o2 o3 : io) (out : Outcome) (st : Ingest) : option (list byte) :=
  (λ w, os_data (cw_out (cw_finalize o3
     (match out with Stopped => cw_finalize o2 w | _ => w end)))) <$> capture st.

(** ** Specification: the stamped stream *)

(** What a frame hands to the validator, in order. *)
Inductive LiveRec := LTrade (t : JTrade) | LQuote (q : JQuote) | LBar (b : JBar).

Definition live_symbol (l : LiveRec) : list byte :=
  match l with LTrade t => jt_symbol t | LQuote q => jq_symbol q | LBar b => jb_symbol b end.

Definition live_msg (l : LiveRec) (seq : Z) : Msg :=
  match l with
  | LTrade t => MTrade (to_wire_trade t seq)
  | LQuote q => MQuote (to_wire_quote q seq)
  | LBar b => MBar (to_wire_bar b seq)
  end.

Definition live_of_frame (pf : ParsedFrame) : list LiveRec :=
  (LTrade <$> pf_trades pf) ++ (LQuote <$> pf_quotes pf) ++ (LBar <$> pf_bars pf).

(** The records with a symbol, each with its number among those of its symbol. *)
Fixpoint stamp (ls : list LiveRec) (ns : gmap (list byte) Z) : list (LiveRec * Z) :=
  match ls with
  | [] => []
  | l :: ls' =>
      if bool_decide (live_symbol l = []) then stamp ls' ns
      else
        let seq := default 0 (ns !! live_symbol l) +u 1 in
        (l, seq) :: stamp ls' (<[live_symbol l := seq]> ns)
  end.

Definition wrap_msg (m : Msg) : WireRecord :=
  match m with MTrade t => wrap_trade t | MQuote q => wrap_quote q | MBar b => wrap_bar b end.
