(* ===== verification/LiveIngestProofs.v ===== *)
(** * alpaca_ingest: what a live session reports and captures

    The loop is the validator over the stamped stream; the tallies, the violation
    lines and the JSON log agree with its results; sequence gaps cannot occur; and
    the capture file replays to the very same results. *)

From stdpp Require Import base numbers list list_numbers gmap strings.
From Stdlib Require Import ZArith Lia.
From S2P Require Import Prelude Float64 Runtime Wire Replay Validator ValidatorTable ValidatorProps.
From S2P Require Import ValidatorChecks Timestamp Ingest LiveIngest Util.
From S2P Require Import Arbitrator ArbitratorProofs ArbitratorSessions Harness HarnessProofs.

Local Open Scope Z_scope.

Definition surfaced (r : Result) : bool := negb (Z.land (r_flags r) kSurfacedMask =? 0).

(** ** The loop as one validator run *)

Section Run.
Context (verbose : bool) (disk : nat → io).

(** A record with the clock reading of its frame. *)
Definition on_live (al : Z * LiveRec) (st : Ingest) : Ingest :=
  match al.2 with
  | LTrade t => on_trade verbose disk al.1 t st
  | LQuote q => on_quote verbose disk al.1 q st
  | LBar b => on_bar verbose disk al.1 b st
  end.

Definition timed (a : Z) (pf : ParsedFrame) : list (Z * LiveRec) := pair a <$> live_of_frame pf.

Lemma on_frame_live a pf st :
  on_frame verbose disk a pf st =
  log_lines (frame_log pf) (foldl (λ st al, on_live al st) st (timed a pf)).
Proof. unfold on_frame, timed, live_of_frame. by rewrite !fmap_app, !foldl_app, !foldl_fmap. Qed.

Lemma log_lines_app ps1 ps2 st : log_lines ps2 (log_lines ps1 st) = log_lines (ps1 ++ ps2) st.
Proof. unfold log_lines. cbn. by rewrite <- app_assoc. Qed.

Lemma log_lines_nil st : log_lines [] st = st.
Proof. destruct st. unfold log_lines. cbn. by rewrite app_nil_r. Qed.

(** Nothing reads the log. *)
Lemma bump_log ps sym st :
  bump_seq sym (log_lines ps st) = ((bump_seq sym st).1, log_lines ps (bump_seq sym st).2).
Proof. reflexivity. Qed.

Lemma validate_log ps m dt dq db st :
  validate_live m dt dq db (log_lines ps st) =
  ((validate_live m dt dq db st).1, log_lines ps (validate_live m dt dq db st).2).
Proof. unfold validate_live. cbn [log_lines ig_validator]. by destruct (check m (ig_validator st)). Qed.

Lemma watch_log ps line st : watch verbose line (log_lines ps st) = log_lines ps (watch verbose line st).
Proof. unfold watch. by destruct verbose. Qed.

Lemma record_log ps kind sym ts seq flags st :
  record kind sym ts seq flags (log_lines ps st) = log_lines ps (record kind sym ts seq flags st).
Proof. reflexivity. Qed.

Lemma capture_log ps r st : capture_write disk r (log_lines ps st) = log_lines ps (capture_write disk r st).
Proof. unfold capture_write. cbn [log_lines capture]. by destruct (capture st). Qed.

Lemma on_live_log ps al st : on_live al (log_lines ps st) = log_lines ps (on_live al st).
Proof.
  destruct al as [a [t|q|b]]; cbn [on_live fst snd]; unfold on_trade, on_quote, on_bar; case_bool_decide;
    try done; rewrite bump_log; destruct (bump_seq _ st) as [seq st1]; cbn [fst snd]; rewrite validate_log;
    destruct (validate_live _ _ _ _ st1) as [r st2]; cbn [fst snd]; by rewrite watch_log, record_log, capture_log.
Qed.

Lemma on_live_no_log al st : ig_log (on_live al st) = ig_log st.
Proof.
  destruct al as [a [t|q|b]]; cbn [on_live fst snd]; unfold on_trade, on_quote, on_bar; case_bool_decide;
    try done; unfold bump_seq, validate_live; cbn [ig_validator]; destruct (check _ (ig_validator st));
    unfold capture_write; destruct (capture _), verbose; done.
Qed.

Lemma live_fold_no_log als st : ig_log (foldl (λ st al, on_live al st) st als) = ig_log st.
Proof. revert st. induction als as [|al als IH]; intros st; [done|]. cbn. by rewrite IH, on_live_no_log. Qed.

Lemma live_fold_log ps als st :
  foldl (λ st al, on_live al st) (log_lines ps st) als =
  log_lines ps (foldl (λ st al, on_live al st) st als).
Proof. revert st. induction als as [|al als IH]; intros st; [done|]. cbn. by rewrite on_live_log. Qed.

Definition stamped_msg (p : LiveRec * Z) : Msg := live_msg p.1 p.2.

Definition live_kind (l : LiveRec) : list byte :=
  match l with LTrade _ => bs "trade" | LQuote _ => bs "quote" | LBar _ => bs "bar" end.
Definition live_ts (l : LiveRec) : Z :=
  match l with LTrade t => jt_ts_ns t | LQuote q => jq_ts_ns q | LBar b => jb_start_ns b end.

Definition watch_line (al : Z * LiveRec) : Print :=
  match al.2 with
  | LTrade t => trade_line al.1 t
  | LQuote q => quote_line al.1 q
  | LBar b => bar_line al.1 b
  end.

(** The records that are validated. *)
Definition named (als : list (Z * LiveRec)) : list (Z * LiveRec) := filter (λ al, live_symbol al.2 ≠ []) als.

(** What a record with its result prints. *)
Definition out_of_one (al : Z * LiveRec) (r : Result) : list Print :=
  (if verbose then [watch_line al] else []) ++
  (if surfaced r then [violation_line (live_symbol al.2) (r_flags r)] else []).
Definition out_of (als : list (Z * LiveRec)) (rs : list Result) : list Print :=
  concat (zip_with out_of_one als rs).

(** The log entries of the stamped records with their results. *)
Definition log_of (prs : list ((LiveRec * Z) * Result)) : list ViolationJson :=
  (λ pr, violation_json (live_kind pr.1.1) (live_symbol pr.1.1) (live_ts pr.1.1) pr.1.2
           (r_flags pr.2)) <$> filter (λ pr, surfaced pr.2 = true) prs.

Definition captured (n : nat) (ms : list Msg) : list (io * WireRecord) :=
  imap (λ i m, (disk (n + i)%nat, wrap_msg m)) ms.

(** The three loop bodies have one shape. *)
Lemma on_live_body a l st :
  live_symbol l ≠ [] →
  on_live (a, l) st =
  let '(seq, st1) := bump_seq (live_symbol l) st in
  let m := live_msg l seq in
  let '(r, st2) := validate_live m (match l with LTrade _ => 1 | _ => 0 end)
                     (match l with LQuote _ => 1 | _ => 0 end)
                     (match l with LBar _ => 1 | _ => 0 end) st1 in
  capture_write disk (wrap_msg m)
    (record (live_kind l) (live_symbol l) (live_ts l) seq (r_flags r)
       (watch verbose (watch_line (a, l)) st2)).
Proof.
  destruct l as [t|q|b]; cbn [live_symbol on_live fst snd]; intros Hs;
    unfold on_trade, on_quote, on_bar; by rewrite bool_decide_eq_false_2.
Qed.

(** One record with a symbol. *)
Lemma on_live_step a l st :
  live_symbol l ≠ [] →
  let seq := default 0 (next_seq st !! live_symbol l) +u 1 in
  let m := live_msg l seq in
  let r := (check m (ig_validator st)).1 in
  let st' := on_live (a, l) st in
  ig_validator st' = (check m (ig_validator st)).2 ∧
  next_seq st' = <[live_symbol l := seq]> (next_seq st) ∧
  counts st' = count_labels (r_flags r) (counts st) ∧
  n_flagged st' = incr_if (surfaced r) (n_flagged st) ∧
  ig_out st' = ig_out st ++ out_of_one (a, l) r ∧
  vlog st' = (λ log, log ++ log_of [((l, seq), r)]) <$> vlog st ∧
  capture st' = cw_writes (captured (capture_calls st) [m]) <$> capture st ∧
  (capture st = None ∨ capture_calls st' = S (capture_calls st)).
Proof.
  intros Hs seq m r st'. subst st'. rewrite on_live_body by done. unfold bump_seq. fold seq. fold m.
  unfold validate_live. cbn [ig_validator]. subst r. destruct (check m (ig_validator st)) as [r tbl].
  cbn [fst snd]. unfold log_of, captured. cbn [imap]. rewrite Nat.add_0_r.
  rewrite !filter_cons. cbn [snd]. unfold record, capture_write, surfaced, incr_if, watch, out_of_one, surfaced.
  cbn [capture ig_validator next_seq counts n_flagged ig_out vlog capture_calls].
  destruct (negb (Z.land (r_flags r) kSurfacedMask =? 0)), verbose; destruct (vlog st), (capture st);
    cbn [capture ig_validator next_seq counts n_flagged ig_out vlog capture_calls fmap
         option_fmap option_map list_fmap decide fst snd cw_writes];
    rewrite ?decide_True, ?decide_False, ?app_nil_r by done;
    rewrite <- ?app_assoc, ?app_nil_r; auto 20.
Qed.

Lemma log_of_app l1 l2 : log_of (l1 ++ l2) = log_of l1 ++ log_of l2.
Proof. unfold log_of. by rewrite filter_app, fmap_app. Qed.

Lemma captured_cons n m ms : captured n (m :: ms) = captured n [m] ++ captured (S n) ms.
Proof.
  unfold captured. rewrite imap_cons. cbn [imap app]. f_equal. apply imap_ext.
  intros i x _. cbn. by rewrite Nat.add_succ_r.
Qed.

Lemma cw_writes_app ws1 ws2 w : cw_writes (ws1 ++ ws2) w = cw_writes ws2 (cw_writes ws1 w).
Proof. revert w. induction ws1 as [|[o r] ws1 IH]; intros w; [done|]. apply IH. Qed.

(** A stretch of the stream: the validator runs over the stamped messages and the
    reports are functions of its results. *)
Lemma live_run als st :
  let sts := stamp als.*2 (next_seq st) in
  let ms := stamped_msg <$> sts in
  let rs := (check_all ms (ig_validator st)).1 in
  let st' := foldl (λ st al, on_live al st) st als in
  ig_validator st' = (check_all ms (ig_validator st)).2 ∧
  counts st' = foldl (λ c r, count_labels (r_flags r) c) (counts st) rs ∧
  n_flagged st' = foldl (λ n r, incr_if (surfaced r) n) (n_flagged st) rs ∧
  ig_out st' = ig_out st ++ out_of (named als) rs ∧
  vlog st' = (λ log, log ++ log_of (zip sts rs)) <$> vlog st ∧
  capture st' = cw_writes (captured (capture_calls st) ms) <$> capture st.
Proof.
  revert st. induction als as [|[a l] als IH]; intros st; cbn zeta.
  { cbn [stamp fmap list_fmap check_all foldl fst snd zip_with log_of captured imap].
    rewrite app_nil_r. repeat (split; [done|]). split; [|by destruct (capture st)].
    destruct (vlog st); cbn; [by rewrite app_nil_r|done]. }
  rewrite fmap_cons. unfold named. rewrite filter_cons. fold (named als). cbn [snd].
  cbn [stamp foldl]. destruct (decide (live_symbol l = [])) as [He|Hne].
  { rewrite bool_decide_eq_true_2 by done.
    rewrite decide_False by (intros H; by apply H).
    assert (on_live (a, l) st = st) as ->; [|apply IH].
    destruct l; cbn [on_live live_symbol fst snd] in *; unfold on_trade, on_quote, on_bar;
      by rewrite bool_decide_eq_true_2. }
  rewrite bool_decide_eq_false_2, decide_True by done.
  destruct (on_live_step a l st Hne) as (H1&H2&H3&H4&H5&H6&H7&H8).
  destruct (IH (on_live (a, l) st)) as (I1&I2&I3&I4&I5&I6). cbn zeta in *.
  set (seq := default 0 (next_seq st !! live_symbol l) +u 1) in *.
  rewrite H2 in *. rewrite fmap_cons, check_all_cons. cbn [fst snd foldl].
  change (stamped_msg (l, seq)) with (live_msg l seq). rewrite <- H1, <- H3, <- H4.
  split; [exact I1|]. split; [exact I2|]. split; [exact I3|].
  unfold out_of. cbn [zip zip_with concat]. set (rest := zip (stamp als.*2 _) _) in *.
  set (r := (check (live_msg l seq) (ig_validator st)).1) in *.
  change ((l, seq, r) :: rest) with ([(l, seq, r)] ++ rest). rewrite log_of_app.
  rewrite H5, <- app_assoc in I4. split; [exact I4|]. rewrite I5, H6, I6, H7. split.
  - destruct (vlog st); cbn; [by rewrite <- app_assoc|done].
  - destruct H8 as [-> | ->]; [done|]. destruct (capture st); [|done]. cbn [fmap option_fmap option_map].
    by rewrite (captured_cons _ _ (stamped_msg <$> stamp als.*2 _)), cw_writes_app.
Qed.

End Run.

(** ** The tallies *)

Lemma foldl_incr (p : Result → bool) rs n :
  is_u64 n → foldl (λ n r, incr_if (p r) n) n rs = u64 (n + countb p rs).
Proof.
  revert n. induction rs as [|r rs IH]; intros n Hn; cbn [foldl].
  { unfold countb. cbn. by rewrite Z.add_0_r, u64_small. }
  rewrite countb_cons. unfold incr_if at 2. destruct (p r).
  - rewrite IH by auto with u64. unfold u64_add. rewrite u64_add_u64_l. f_equal. lia.
  - by rewrite IH.
Qed.

Lemma foldl_count_labels rs cs :
  length cs = length kLiveLabels → Forall is_u64 cs →
  foldl (λ c r, count_labels (r_flags r) c) cs rs =
  zip_with (λ l c, u64 (c + countb (λ r, surfaces (r_flags r) l) rs)) kLiveLabels cs.
Proof.
  revert cs. induction rs as [|r rs IH]; intros cs Hl Hc; cbn [foldl].
  - generalize dependent cs. generalize kLiveLabels. intros ls. induction ls as [|l ls IH];
      intros [|c cs] Hlen Hc; try done. apply Forall_cons in Hc as [? ?].
    cbn [zip_with]. unfold countb at 1. cbn [List.filter length]. rewrite Z.add_0_r, u64_small by done.
    f_equal. apply IH; [by injection Hlen|done].
  - rewrite IH.
    + unfold count_labels. clear IH. generalize dependent cs. generalize kLiveLabels. intros ls.
      induction ls as [|l ls IH]; intros [|c cs] Hlen Hc; try done. apply Forall_cons in Hc as [? ?].
      cbn [zip_with]. f_equal; [|apply IH; [by injection Hlen|done]].
      rewrite countb_cons. destruct (surfaces (r_flags r) l); unfold u64_add;
        rewrite ?u64_add_u64_l; f_equal; lia.
    + unfold count_labels. rewrite length_zip_with. lia.
    + unfold count_labels. apply Forall_forall. intros x Hx.
      apply elem_of_lookup_zip_with in Hx as (i&l&c&->&_&Hc').
      rewrite Forall_forall in Hc. destruct (surfaces _ _); [auto with u64|].
      apply Hc. by eapply list_elem_of_lookup_2.
Qed.

(** ** The stream of a session *)

Section Session.
Context (verbose : bool) (disk : nat → io) (days_unspecified : Z → Z → Z → Z) (J : simdjson).

(** The records of the frames up to the first that does not parse, and what is logged. *)
Fixpoint timed_stream (frames : list (Z * list byte)) : list (Z * LiveRec) :=
  match frames with
  | [] => []
  | (a, frame) :: frames' =>
      match parse days_unspecified J frame with
      | inl _ => []
      | inr pf => timed a pf ++ timed_stream frames'
      end
  end.

Fixpoint session_log (frames : list (Z * list byte)) : list Print :=
  match frames with
  | [] => []
  | (a, frame) :: frames' =>
      match parse days_unspecified J frame with
      | inl _ => []
      | inr pf => frame_log pf ++ session_log frames'
      end
  end.

Lemma ingest_loop_stream frames st :
  (ingest_loop verbose disk days_unspecified J frames st).2 =
  log_lines (session_log frames) (foldl (λ st al, on_live verbose disk al st) st (timed_stream frames)).
Proof.
  revert st. induction frames as [|[a f] frames IH]; intros st; cbn [ingest_loop timed_stream session_log].
  { by rewrite log_lines_nil. }
  destruct (parse _ _ f) as [e|pf]; [by rewrite log_lines_nil|].
  by rewrite IH, foldl_app, on_frame_live, live_fold_log, log_lines_app.
Qed.

Definition live_stream (frames : list (Z * list byte)) : list LiveRec := (timed_stream frames).*2.

Definition session_stamped (frames : list (Z * list byte)) : list (LiveRec * Z) :=
  stamp (live_stream frames) ∅.
Definition session_msgs (frames : list (Z * list byte)) : list Msg :=
  stamped_msg <$> session_stamped frames.
Definition session_results (frames : list (Z * list byte)) : list Result :=
  (check_all (session_msgs frames) validator_init).1.

End Session.
