(* ===== verification/LiveIngestProps.v ===== *)
(** * alpaca_ingest: the properties of a live session

    The summary, the violation lines and the log against the validator's results,
    the absence of sequence gaps, and the replay of a capture. *)

From stdpp Require Import base numbers list list_numbers gmap strings.
From Stdlib Require Import ZArith Lia.
From S2P Require Import Prelude Float64 Runtime Wire Replay Validator ValidatorTable ValidatorProps.
From S2P Require Import ValidatorChecks Timestamp Ingest LiveIngest Util.
From S2P Require Import Arbitrator ArbitratorProofs ArbitratorSessions Harness HarnessProofs.
From S2P Require Import ParserProofs LiveIngestProofs.

Local Open Scope Z_scope.

(** ** Symbols *)

Definition nul_free (s : list byte) : Prop := Forall (λ b, Z_of_byte b ≠ 0) s.

(** A ticker: not empty, fits the eight-byte field, no NUL. *)
Definition ticker (s : list byte) : Prop := s ≠ [] ∧ (length s <= 8)%nat ∧ nul_free s.

Lemma c_str_zeros s n : nul_free s → c_str (s ++ replicate n Init.Byte.x00) = s.
Proof.
  induction s as [|b s IH]; intros Hs; [by destruct n|].
  apply Forall_cons in Hs as [Hb Hs]. cbn [app c_str]. apply Z.eqb_neq in Hb as ->.
  by rewrite IH.
Qed.

Lemma set_symbol_ticker s :
  ticker s → set_symbol s = s ++ replicate (8 - length s) Init.Byte.x00.
Proof.
  intros (_&Hl&Hs). unfold set_symbol, kSymbolLen.
  pose proof (c_str_zeros s 0 Hs) as Hc. rewrite app_nil_r in Hc. rewrite Hc.
  by rewrite take_ge by lia.
Qed.

Lemma set_symbol_inj s1 s2 : ticker s1 → ticker s2 → set_symbol s1 = set_symbol s2 → s1 = s2.
Proof.
  intros H1 H2 He. rewrite !set_symbol_ticker in He by done.
  destruct H1 as (_&_&H1), H2 as (_&_&H2).
  by rewrite <- (c_str_zeros s1 (8 - length s1)), He, c_str_zeros.
Qed.

Lemma length_set_symbol s : length (set_symbol s) = 8%nat.
Proof.
  unfold set_symbol, kSymbolLen. rewrite length_app, length_replicate, length_take. lia.
Qed.

Lemma symbol_key_inj s1 s2 :
  ticker s1 → ticker s2 → symbol_key (set_symbol s1) = symbol_key (set_symbol s2) → s1 = s2.
Proof.
  intros H1 H2 He. apply set_symbol_inj; [done..|]. apply le_val_inj; [|done].
  by rewrite !length_set_symbol.
Qed.

(** ** Sequence gaps cannot occur *)

Lemma live_msg_key l seq : msg_key (live_msg l seq) = symbol_key (set_symbol (live_symbol l)).
Proof. by destruct l. Qed.
Lemma live_msg_seq l seq : msg_seq (live_msg l seq) = seq.
Proof. by destruct l. Qed.

(** The stamps agree with what the validator remembers. *)
Definition stamps_agree (ns : gmap (list byte) Z) (st : gmap Z Slot) : Prop :=
  ∀ sym s, ticker sym → st !! symbol_key (set_symbol sym) = Some s → seen s = true →
    ns !! sym = Some (last_seq s).

Definition no_gap (r : Result) : Prop := has r kSequenceGap = false ∧ r_gap r = 0.

Lemma stamped_no_gap ls ns st :
  Forall (λ l, live_symbol l = [] ∨ ticker (live_symbol l)) ls → stamps_agree ns st →
  Forall no_gap (spec_check_all (stamped_msg <$> stamp ls ns) st).1.
Proof.
  revert ns st. induction ls as [|l ls IH]; intros ns st Hok Hag; [constructor|].
  apply Forall_cons in Hok as [Hl Hok]. cbn [stamp].
  destruct (decide (live_symbol l = [])) as [He|Hne].
  { rewrite bool_decide_eq_true_2 by done. by apply IH. }
  destruct Hl as [?|Htick]; [done|]. rewrite bool_decide_eq_false_2 by done.
  set (seq := default 0 (ns !! live_symbol l) +u 1). rewrite fmap_cons, spec_check_all_cons.
  change (stamped_msg (l, seq)) with (live_msg l seq). unfold spec_check. rewrite live_msg_key.
  set (k := symbol_key (set_symbol (live_symbol l))).
  set (s := default (fresh_slot k) (st !! k)).
  destruct (check_slot_seq (live_msg l seq) s) as (Hls&Hsn&Hg).
  destruct (check_slot_seq_flags (live_msg l seq) s) as [Hgap _]. rewrite live_msg_seq in *.
  assert (Hcond : seen s && (last_seq s +u 1 <? seq) = false).
  { destruct (seen s) eqn:Hseen; [|done]. cbn [andb]. apply Z.ltb_ge. subst s.
    destruct (st !! k) as [s|] eqn:Hk; [|done]. cbn [default id] in *. subst seq.
    rewrite (Hag _ _ Htick Hk Hseen). cbn. lia. }
  rewrite Hcond in *. destruct (check_slot (live_msg l seq) s) as [s' r]. cbn [fst snd] in *.
  constructor; [done|]. apply IH; [done|]. intros sym s1 Ht Hlook Hs1.
  destruct (decide (sym = live_symbol l)) as [->|Hsym].
  - subst k. rewrite lookup_insert_eq in Hlook. simplify_eq. rewrite lookup_insert_eq. by rewrite Hls.
  - rewrite lookup_insert_ne by done. apply Hag; [done| |done].
    rewrite lookup_insert_ne in Hlook; [done|]. intros Hkk. apply Hsym.
    symmetry. by apply symbol_key_inj.
Qed.

(** Sequence gaps are structurally inert on the live path: as long as the
    symbols are tickers that fit the eight-byte field and at most 4096 of them
    occur, the per-symbol counter gives every record the successor of its symbol's
    last sequence, so the validator never reports a gap, over any frames. *)
Theorem live_sequence_gaps_inert days J frames :
  Forall (λ l, live_symbol l = [] ∨ ticker (live_symbol l)) (live_stream days J frames) →
  (size (keys (session_msgs days J frames)) <= Z.to_nat kCapacity)%nat →
  Forall no_gap (session_results days J frames).
Proof.
  intros Hok Hsize. unfold session_results. destruct (check_all_spec _ Hsize) as [-> _].
  apply stamped_no_gap; [done|]. intros sym s _ H. by rewrite lookup_empty in H.
Qed.

Lemma live_sequence_gaps_inert_witness :
  Forall no_gap (session_results (λ _ _ _, 0) (demo_json demo_elements) [(0, bs "[1]"); (5, bs "[2]")]).
Proof.
  apply (live_sequence_gaps_inert (λ _ _ _, 0) (demo_json demo_elements) [(0, bs "[1]"); (5, bs "[2]")]).
  - set (l := live_stream _ _ _). vm_compute in l. subst l.
    repeat (apply Forall_cons_2; [right; split; [discriminate|split; [cbn; lia|]]|]); [..|constructor];
      repeat (apply Forall_cons_2; [discriminate|]); constructor.
  - apply Nat.leb_le. vm_compute. reflexivity.
Defined.

(** ** Reports *)

Fixpoint join (sep : list byte) (l : list (list byte)) : list byte :=
  match l with
  | [] => []
  | [x] => x
  | x :: l' => x ++ sep ++ join sep l'
  end.

Definition surfaced_labels (flags : Z) : list (list byte) :=
  ll_text <$> filter (λ l, Z.land flags (ll_bit l) ≠ 0) kLiveLabels.

Lemma join_snoc sep l x :
  Forall (.≠ []) l → join sep (l ++ [x]) = (if decide (l = []) then [] else join sep l ++ sep) ++ x.
Proof.
  intros Hl. induction l as [|y l IH]; [done|]. apply Forall_cons in Hl as [Hy Hl].
  rewrite decide_False by done. cbn [app join]. destruct l as [|z l].
  - cbn. by rewrite <- app_assoc.
  - change ((z :: l) ++ [x]) with (z :: (l ++ [x])) in *. cbn iota.
    rewrite IH by done. rewrite decide_False by done. cbn [join]. by rewrite <- !app_assoc.
Qed.

Lemma join_nil sep l : Forall (.≠ []) l → join sep l = [] ↔ l = [].
Proof.
  destruct l as [|x [|y l]]; intros Hl; [done|by inversion_clear Hl|].
  inversion_clear Hl. cbn. split; [|done]. intros [? _]%app_nil. done.
Qed.

(** The fold of [describe] over any labels with a text. *)
Lemma describe_fold (p : LiveLabel → bool) ls acc :
  Forall (.≠ []) (ll_text <$> ls) → Forall (.≠ []) acc →
  foldl (λ out l,
    if p l then (if negb (bool_decide (out = [])) then out ++ bs ", " else out) ++ ll_text l
    else out) (join (bs ", ") acc) ls =
  join (bs ", ") (acc ++ (ll_text <$> filter (λ l, p l = true) ls)).
Proof.
  revert acc. induction ls as [|l ls IH]; intros acc Hls Hacc; cbn [foldl].
  { by rewrite app_nil_r. }
  rewrite fmap_cons in Hls. apply Forall_cons in Hls as [Hl Hls]. rewrite filter_cons.
  destruct (p l) eqn:Hp.
  - rewrite decide_True by done. rewrite fmap_cons, cons_middle, app_assoc. rewrite <- IH.
    + f_equal. rewrite join_snoc by done. pose proof (join_nil (bs ", ") acc Hacc) as Hj.
      case_decide as Ha; case_bool_decide; cbn [negb]; try tauto. by subst acc.
    + done.
    + apply Forall_app. by repeat constructor.
  - rewrite decide_False by congruence. by apply IH.
Qed.

Lemma checks_fold (p : LiveLabel → bool) ls acc :
  foldl (λ checks l, if p l then checks ++ [ll_text l] else checks) acc ls =
  acc ++ (ll_text <$> filter (λ l, p l = true) ls).
Proof.
  revert acc. induction ls as [|l ls IH]; intros acc; cbn [foldl]; [by rewrite app_nil_r|].
  rewrite IH, filter_cons. destruct (p l); [|by rewrite decide_False].
  rewrite decide_True by done. by rewrite <- app_assoc.
Qed.

Lemma label_in_mask l : l ∈ kLiveLabels → Z.land kSurfacedMask (ll_bit l) = ll_bit l.
Proof.
  assert (Hall : Forall (λ l, Z.land kSurfacedMask (ll_bit l) = ll_bit l) kLiveLabels).
  { repeat constructor. }
  rewrite Forall_forall in Hall. auto.
Qed.

Lemma surfaces_bit flags l : l ∈ kLiveLabels → surfaces flags l = true ↔ Z.land flags (ll_bit l) ≠ 0.
Proof.
  intros Hl. unfold surfaces. rewrite <- Z.land_assoc, label_in_mask by done.
  rewrite negb_true_iff. apply Z.eqb_neq.
Qed.

Lemma filter_ext_in {A} (P Q : A → Prop) `{!∀ x, Decision (P x), !∀ x, Decision (Q x)}
    (l : list A) :
  (∀ x, x ∈ l → P x ↔ Q x) → filter P l = filter Q l.
Proof.
  induction l as [|x l IH]; intros Heq; [done|]. rewrite !filter_cons.
  rewrite IH by (intros; apply Heq; by right).
  pose proof (Heq x (list_elem_of_here _ _)). repeat case_decide; tauto.
Qed.

Lemma surfaces_filter flags :
  filter (λ l, surfaces flags l = true) kLiveLabels =
  filter (λ l, Z.land flags (ll_bit l) ≠ 0) kLiveLabels.
Proof. apply filter_ext_in. intros l Hl. by apply surfaces_bit. Qed.

Lemma mask_bits :
  kSurfacedMask = foldr (λ l m, Z.lor (ll_bit l) m) 0 kLiveLabels.
Proof. reflexivity. Qed.

Lemma surfaced_labels_nil flags : surfaced_labels flags = [] ↔ Z.land flags kSurfacedMask = 0.
Proof.
  rewrite mask_bits. unfold surfaced_labels. induction kLiveLabels as [|l ls IH].
  { cbn. by rewrite Z.land_0_r. }
  cbn [foldr]. rewrite Z.land_lor_distr_r, Z.lor_eq_0_iff, <- IH, filter_cons.
  case_decide as Hl; [|tauto]. rewrite fmap_cons. intuition congruence.
Qed.

Lemma Forall_filter_in {A} (P Q : A → Prop) `{!∀ x, Decision (Q x)} (l : list A) :
  Forall P l → Forall P (filter Q l).
Proof. rewrite !Forall_forall. intros HP x [_ ?]%list_elem_of_filter. auto. Qed.

(** The violation texts are exact: [describe] is the comma-separated list, and
    the JSON record carries the list, of the labels whose bit is set; both are empty
    exactly when no surfaced bit is set, and reconstruction mismatches, sequence
    gaps and timestamp regressions never surface. *)
Theorem live_report_texts flags kind sym ts seq :
  describe flags = join (bs ", ") (surfaced_labels flags) ∧
  vj_checks (violation_json kind sym ts seq flags) = surfaced_labels flags ∧
  (describe flags = [] ↔ Z.land flags kSurfacedMask = 0) ∧
  Z.land kSurfacedMask
    (Z.lor kTimestampRegression (Z.lor kSequenceGap (Z.lor kBarVolumeReconstructMismatch
      (Z.lor kBarTradeCountReconstructMismatch (Z.lor kBarVwapReconstructMismatch
        kBarOhlcReconstructMismatch))))) = 0.
Proof.
  assert (Hne : Forall (.≠ []) (ll_text <$> kLiveLabels)) by (repeat constructor; discriminate).
  assert (Hd : describe flags = join (bs ", ") (surfaced_labels flags)).
  { unfold describe, surfaced_labels. rewrite <- surfaces_filter.
    exact (describe_fold (surfaces flags) kLiveLabels [] Hne (List.Forall_nil _)). }
  split; [done|]. split.
  { unfold violation_json, surfaced_labels. cbn [vj_checks].
    by rewrite (checks_fold (surfaces flags)), <- surfaces_filter. }
  split; [|reflexivity]. rewrite Hd. rewrite join_nil.
  - apply surfaced_labels_nil.
  - unfold surfaced_labels. apply Forall_fmap, Forall_filter_in. by rewrite Forall_fmap in Hne.
Qed.

Lemma zip_with_zeros {A} (f : A → Z → Z) (l : list A) n :
  n = length l → zip_with f l (replicate n 0) = (λ x, f x 0) <$> l.
Proof. intros ->. induction l as [|x l IH]; [done|]. cbn. by rewrite IH. Qed.

(** What the state holds at the end of a session. *)
Lemma session_summary verbose disk days J frames log cap :
  let st := (ingest_loop verbose disk days J frames (ingest_init log cap)).2 in
  let rs := session_results days J frames in
  let prs := zip (session_stamped days J frames) rs in
  n_flagged st = u64 (countb surfaced rs) ∧
  counts st = (λ l, u64 (countb (λ r, surfaces (r_flags r) l) rs)) <$> kLiveLabels ∧
  ig_out st = out_of verbose (named (timed_stream days J frames)) rs ∧
  ig_log st = session_log days J frames ∧
  vlog st = (if log then Some (log_of prs) else None) ∧
  ig_validator st = (check_all (session_msgs days J frames) validator_init).2.
Proof.
  cbn zeta. rewrite ingest_loop_stream.
  destruct (live_run verbose disk (timed_stream days J frames) (ingest_init log cap))
    as (H1&H2&H3&H4&H5&_). cbn zeta in *.
  assert (H6 : ig_log (foldl (λ st al, on_live verbose disk al st) (ingest_init log cap)
                 (timed_stream days J frames)) = []) by (by rewrite live_fold_no_log).
  cbn [log_lines ingest_init next_seq ig_validator counts n_flagged ig_out ig_log vlog app] in *.
  fold (live_stream days J frames) in *.
  fold (session_stamped days J frames) in *. fold (session_msgs days J frames) in *.
  fold (session_results days J frames) in *. rewrite H1, H2, H3, H4, H5, H6.
  rewrite foldl_incr by done. split; [done|]. split; [|by destruct log].
  rewrite foldl_count_labels; [by apply zip_with_zeros|apply length_replicate|by apply Forall_replicate].
Qed.

(** The summary of a live session is exact: the number of flagged records, the
    thirteen per-label counters and the JSON log are those of the validator's results
    over the stamped stream of all frames that parsed, the validator has seen exactly
    that stream, and the output is, record by record, the watch line (in watch mode)
    followed by the violation line (if a surfaced flag is raised). *)
Theorem live_summary_exact verbose disk days J frames log cap :
  let st := (ingest_loop verbose disk days J frames (ingest_init log cap)).2 in
  let rs := session_results days J frames in
  let prs := zip (session_stamped days J frames) rs in
  n_flagged st = u64 (countb surfaced rs) ∧
  counts st = (λ l, u64 (countb (λ r, surfaces (r_flags r) l) rs)) <$> kLiveLabels ∧
  ig_out st = out_of verbose (named (timed_stream days J frames)) rs ∧
  ig_log st = session_log days J frames ∧
  vlog st = (if log then Some (log_of prs) else None) ∧
  ig_validator st = (check_all (session_msgs days J frames) validator_init).2.
Proof. apply session_summary. Qed.

(** ** The capture replays to the same results *)

(** Documented behaviour of simdjson: [get_uint64] yields a 64-bit value and
    [get_double] a double. *)
Record simdjson_ok (J : simdjson) : Prop := {
  sjo_u64 : ∀ o k v, sj_get_uint64 J o k = Some v → is_u64 v;
  sjo_double : ∀ o k d, sj_get_double J o k = Some d → valid d
}.

Definition live_wf (l : LiveRec) : Prop :=
  match l with
  | LTrade t => is_u64 (jt_ts_ns t) ∧ is_u64 (jt_trade_id t) ∧ valid (jt_price t) ∧ is_u64 (jt_size t)
  | LQuote q => is_u64 (jq_ts_ns q) ∧ valid (jq_bid_price q) ∧ valid (jq_ask_price q) ∧
                is_u64 (jq_bid_size q) ∧ is_u64 (jq_ask_size q)
  | LBar b => is_u64 (jb_start_ns b) ∧ valid (jb_open b) ∧ valid (jb_high b) ∧ valid (jb_low b) ∧
              valid (jb_close b) ∧ valid (jb_vwap b) ∧ is_u64 (jb_volume b) ∧ is_u64 (jb_trade_count b)
  end.

Definition frame_wf (pf : ParsedFrame) : Prop := Forall live_wf (live_of_frame pf).

Section ParseWf.
Context (days : Z → Z → Z → Z) (J : simdjson) (HJ : simdjson_ok J).

Lemma get_u64_is o k : is_u64 (get_u64 J o k).
Proof.
  unfold get_u64. destruct (sj_get_uint64 J o k) eqn:E; [by eapply sjo_u64|done].
Qed.

Lemma get_double_valid o k : valid (get_double J o k).
Proof.
  unfold get_double. destruct (sj_get_double J o k) eqn:E; [by eapply sjo_double|done].
Qed.

Lemma get_timestamp_is o ts : get_timestamp days J o = inr ts → is_u64 ts.
Proof.
  unfold get_timestamp. case_bool_decide; [by intros [= <-]|].
  destruct (parse_rfc3339_nano days _) as [e|v] eqn:E; [done|]. intros [= <-].
  unfold parse_rfc3339_nano in E. repeat case_match; simplify_eq. apply u64_is.
Qed.

Lemma frame_wf_fields ts bars qs es us c a s :
  frame_wf (mkParsedFrame ts bars qs es us c a s) ↔
  Forall live_wf (LTrade <$> ts) ∧ Forall live_wf (LQuote <$> qs) ∧ Forall live_wf (LBar <$> bars).
Proof. unfold frame_wf, live_of_frame. cbn. by rewrite !Forall_app. Qed.

Lemma parse_element_wf el out out' :
  frame_wf out → parse_element days J el out = inr out' → frame_wf out'.
Proof.
  destruct out as [ts bars qs es us c a s]. intros Hwf. pose proof Hwf as Hwf'.
  rewrite frame_wf_fields in Hwf. destruct Hwf as (Ht&Hq&Hb).
  unfold parse_element, parse_trade, parse_quote, parse_bar, parse_success, parse_error.
  destruct el as [o|]; [|by intros [= <-]].
  destruct (sj_get_string J o (bs "T")); [|by intros [= <-]].
  destruct (get_timestamp days J o) as [e|t] eqn:E; [repeat case_bool_decide; intros [= <-]; done|].
  apply get_timestamp_is in E.
  repeat case_bool_decide; intros [= <-]; try done; apply frame_wf_fields;
    rewrite ?fmap_app, ?Forall_app; repeat split; try done; constructor; [|constructor| |constructor| |constructor];
    cbn; auto 10 using get_u64_is, get_double_valid.
Qed.

Lemma parse_elements_wf els out out' :
  frame_wf out → parse_elements days J els out = inr out' → frame_wf out'.
Proof.
  revert out. induction els as [|el els IH]; intros out Hwf; [by intros [= <-]|].
  cbn [parse_elements]. destruct (parse_element days J el out) as [e|out1] eqn:E; [done|].
  apply IH. by eapply parse_element_wf.
Qed.

Lemma live_stream_wf frames : Forall live_wf (live_stream days J frames).
Proof.
  unfold live_stream. induction frames as [|[a f] frames IH]; cbn [timed_stream]; [constructor|].
  unfold parse. destruct (sj_get_array J f) as [els|]; [|constructor].
  destruct (parse_elements days J els empty_frame) as [e|pf] eqn:E; [constructor|].
  rewrite fmap_app. apply Forall_app. split; [|done]. unfold timed. rewrite <- list_fmap_compose.
  rewrite (list_fmap_ext _ id) by done. rewrite list_fmap_id. apply (parse_elements_wf els empty_frame); [constructor|done].
Qed.

End ParseWf.

Definition msg_wf (m : Msg) : Prop :=
  match m with MTrade t => wf t | MBar b => wf b | MQuote q => wf q end.

Lemma live_msg_wf l seq : live_wf l → is_u64 seq → msg_wf (live_msg l seq).
Proof.
  destruct l as [t|q|b]; cbn [live_wf live_msg msg_wf]; intros Hl Hs; cbn [wf WireTrade_struct
    WireQuote_struct WireBar_struct]; split; cbn;
    try (apply length_set_symbol); try tauto; reflexivity.
Qed.

Lemma stamp_wf ls ns : Forall live_wf ls → Forall msg_wf (stamped_msg <$> stamp ls ns).
Proof.
  revert ns. induction ls as [|l ls IH]; intros ns Hls; [constructor|].
  apply Forall_cons in Hls as [Hl Hls]. cbn [stamp]. case_bool_decide; [by apply IH|].
  rewrite fmap_cons. constructor; [|by apply IH]. apply live_msg_wf; [done|apply u64_is].
Qed.

Lemma wrap_body_wf ty img : (length img <= 80)%nat → wf (wrap_body ty img).
Proof.
  intros Hl. split; cbn [wrap_body wr_type wr_pad wr_body].
  - by destruct ty.
  - done.
  - rewrite length_app, length_replicate. lia.
Qed.

(** The tagged union gives back what was stored. *)
Lemma wrap_msg_ok m : msg_wf m → wf (wrap_msg m) ∧ dispatch_replay (wrap_msg m) = m.
Proof.
  destruct m as [t|b|q]; cbn [msg_wf wrap_msg]; intros Hwf; pose proof (length_encode _ Hwf) as Hl;
    cbn [sizeof WireTrade_struct WireBar_struct WireQuote_struct] in Hl;
    (split; [apply wrap_body_wf; unfold wrap_trade, wrap_bar, wrap_quote; lia|]);
    unfold dispatch_replay, wrap_trade, wrap_bar, wrap_quote, wrap_body;
    cbn [wr_type RecordType_u8 Z.eqb Pos.eqb]; unfold body_trade, body_bar, body_quote;
    cbn [wr_body]; by rewrite decode_encode_app.
Qed.

Lemma captured_ok n ms : captured (λ _, None) n ms = all_ok (wrap_msg <$> ms).
Proof.
  unfold captured, all_ok. revert n. induction ms as [|m ms IH]; intros n; [done|].
  rewrite imap_cons, !fmap_cons. f_equal. rewrite <- (IH (S n)). apply imap_ext.
  intros; cbn. done.
Qed.

Lemma capture_file_session out st rs log :
  capture st = cw_writes (all_ok rs) <$> capture (ingest_init log (Some (CaptureWriter_ctor true None))) →
  capture_file None None out st = Some (capture_session true None (all_ok rs) None None).
Proof.
  intros Hc. unfold capture_file, capture_session. rewrite Hc.
  cbn [capture ingest_init fmap option_fmap option_map]. f_equal. destruct out; [done|..]; by rewrite finalize_twice.
Qed.

(** The file of a session. *)
Lemma session_capture verbose days J frames log out st :
  simdjson_ok J → 88 * Z.of_nat (length (session_msgs days J frames)) + 16 < 2 ^ 64 →
  ingest_loop verbose (λ _, None) days J frames
    (ingest_init log (Some (CaptureWriter_ctor true None))) = (out, st) →
  ∃ data recs, capture_file None None out st = Some data ∧
    view_replay (Some data) (Z.of_nat (length data)) =
      mkReplayView (Some 16%nat) (Z.of_nat (length recs)) None ∧
    (∀ i, 0 <= i < Z.of_nat (length recs) → load_record data 16 i = recs !! Z.to_nat i) ∧
    check_all (dispatch_replay <$> recs) validator_init =
      (session_results days J frames, ig_validator st).
Proof.
  intros HJ Hlen Hrun. set (ms := session_msgs days J frames) in *.
  pose proof (ingest_loop_stream verbose (λ _, None) days J frames
    (ingest_init log (Some (CaptureWriter_ctor true None)))) as Hst.
  rewrite Hrun in Hst. cbn [snd] in Hst. set (st0 := foldl _ _ _) in Hst.
  assert (Hsv : ig_validator st = ig_validator st0) by (by rewrite Hst).
  assert (Hsc : capture st = capture st0) by (by rewrite Hst).
  destruct (live_run verbose (λ _, None) (timed_stream days J frames)
    (ingest_init log (Some (CaptureWriter_ctor true None)))) as (Hv&_&_&_&_&Hc).
  cbn zeta in *. fold st0 in Hv, Hc. rewrite <- Hsv in Hv. rewrite <- Hsc in Hc. fold (live_stream days J frames) in *.
  cbn [ingest_init next_seq ig_validator capture_calls] in Hv, Hc.
  fold (session_stamped days J frames) in *. fold (session_msgs days J frames) in *. fold ms in Hv, Hc.
  assert (Hwf : Forall msg_wf ms) by (apply stamp_wf, live_stream_wf, HJ).
  rewrite captured_ok in Hc. apply (capture_file_session out st) in Hc.
  exists (capture_session true None (all_ok (wrap_msg <$> ms)) None None), (wrap_msg <$> ms).
  split; [done|]. destruct (capture_reads_back (wrap_msg <$> ms)) as [H1 H2].
  { apply Forall_fmap. eapply Forall_impl; [exact Hwf|]. intros m Hm. by apply wrap_msg_ok. }
  { by rewrite length_fmap. }
  split; [exact H1|]. split; [exact H2|].
  rewrite <- list_fmap_compose. replace (dispatch_replay ∘ wrap_msg <$> ms) with ms.
  - rewrite Hv. unfold session_results. fold ms. by destruct (check_all ms validator_init).
  - rewrite <- (list_fmap_id ms) at 1. apply list_fmap_ext. intros i m Hm. cbn.
    rewrite Forall_forall in Hwf. symmetry. apply wrap_msg_ok, Hwf. by eapply list_elem_of_lookup_2.
Qed.

(** C12: What is captured replays identically: when no write fails, the file a live
    session leaves behind, whether it is stopped or dies of a bad frame, is accepted
    by [view_replay] and its records, dispatched the way the replay benchmarks do,
    give a fresh validator exactly the results of the live session. *)
Theorem live_capture_replays verbose days J frames log out st :
  simdjson_ok J → 88 * Z.of_nat (length (session_msgs days J frames)) + 16 < 2 ^ 64 →
  ingest_loop verbose (λ _, None) days J frames
    (ingest_init log (Some (CaptureWriter_ctor true None))) = (out, st) →
  ∃ data recs, capture_file None None out st = Some data ∧
    view_replay (Some data) (Z.of_nat (length data)) =
      mkReplayView (Some 16%nat) (Z.of_nat (length recs)) None ∧
    (∀ i, 0 <= i < Z.of_nat (length recs) → load_record data 16 i = recs !! Z.to_nat i) ∧
    check_all (dispatch_replay <$> recs) validator_init =
      (session_results days J frames, ig_validator st).
Proof. apply session_capture. Qed.

Lemma demo_json_ok els : simdjson_ok (demo_json els).
Proof. split; [apply demo_json_u64|apply demo_json_double]. Qed.

Lemma live_capture_replays_witness :
  let run := ingest_loop true (λ _, None) (λ _ _ _, 0) (demo_json demo_elements) [(0, bs "[1]"); (5, [])]
               (ingest_init true (Some (CaptureWriter_ctor true None))) in
  ∃ data recs, capture_file None None run.1 run.2 = Some data ∧
    view_replay (Some data) (Z.of_nat (length data)) =
      mkReplayView (Some 16%nat) (Z.of_nat (length recs)) None ∧
    (∀ i, 0 <= i < Z.of_nat (length recs) → load_record data 16 i = recs !! Z.to_nat i) ∧
    check_all (dispatch_replay <$> recs) validator_init =
      (session_results (λ _ _ _, 0) (demo_json demo_elements) [(0, bs "[1]"); (5, [])], ig_validator run.2).
Proof.
  intros run.
  apply (live_capture_replays true (λ _ _ _, 0) (demo_json demo_elements) [(0, bs "[1]"); (5, [])] true).
  - apply demo_json_ok.
  - vm_compute. reflexivity.
  - apply surjective_pairing.
Defined.
