(* ===== verification/ValidatorTyped.v ===== *)
(** * Validator: the types of its state and of its results

    Every field of the table stays in the range of its C++ type and the fields agree with
    one another, whatever records are checked; and the flags of a result are those of the
    record's own kind. *)

From stdpp Require Import base numbers list gmap.
From Stdlib Require Import ZArith Lia.
From S2P Require Import Prelude Float64 Runtime Wire Replay Validator ValidatorTable ValidatorProps ValidatorChecks.
From S2P Require Import Timestamp Ingest LiveIngest LiveIngestProps.

Local Open Scope Z_scope.

(** ** Slots *)

Record typed_slot (s : Slot) : Prop := {
  ty_key : is_u64 (key s);
  ty_ts_trade : is_u64 (ts_trade (last_ts s));
  ty_ts_bar : is_u64 (ts_bar (last_ts s));
  ty_ts_quote : is_u64 (ts_quote (last_ts s));
  ty_seq : is_u64 (last_seq s);
  (** The run of breaches is below the length that re-anchors. *)
  ty_run : 0 <= breach_run (band s) < kBandReanchorRun;
  ty_run_ref : ref_init (band s) = false → breach_run (band s) = 0;
  ty_count : is_u64 (acc_count (acc s));
  ty_volume : is_u64 (acc_volume (acc s));
  (** An empty window has no volume. *)
  ty_empty : has_trades (acc s) = false → acc_count (acc s) = 0 ∧ acc_volume (acc s) = 0;
  (** Only a slot that has been claimed holds anything. *)
  ty_unseen : seen s = false → ref_init (band s) = false ∧ has_trades (acc s) = false
}.

Lemma typed_fresh k : is_u64 k → typed_slot (fresh_slot k).
Proof. intros Hk. split; cbn; try done; unfold kBandReanchorRun; lia. Qed.

(** ** Results *)

Definition trade_mask : Z :=
  Z.lor kTradeNonPositivePrice (Z.lor kTradeNonPositiveSize (Z.lor kTimestampRegression
    (Z.lor kSequenceGap kPriceBandBreach))).
Definition bar_mask : Z :=
  Z.lor (Z.lor kBarLowAboveHigh (Z.lor kBarOpenOutOfRange (Z.lor kBarCloseOutOfRange
    (Z.lor kBarVwapOutOfRange (Z.lor kBarNonPositivePrice kBarVolumeInconsistent)))))
  (Z.lor (Z.lor kTimestampRegression kSequenceGap)
    (Z.lor kBarVolumeReconstructMismatch (Z.lor kBarTradeCountReconstructMismatch
      (Z.lor kBarVwapReconstructMismatch kBarOhlcReconstructMismatch)))).
Definition quote_mask : Z :=
  Z.lor kQuoteCrossed (Z.lor kQuoteLocked (Z.lor kQuoteNonPositive (Z.lor kQuoteZeroSize
    (Z.lor kTimestampRegression (Z.lor kSequenceGap kPriceBandBreach))))).

Definition msg_mask (m : Msg) : Z :=
  match m with MTrade _ => trade_mask | MBar _ => bar_mask | MQuote _ => quote_mask end.

(** Only flags of the mask; the gap is a 64-bit count, and not zero exactly when the
    sequence flag is raised. *)
Record typed_result (mask : Z) (r : Result) : Prop := {
  ty_flags : Z.land (r_flags r) mask = r_flags r;
  ty_gap : is_u64 (r_gap r);
  ty_gap_flag : r_gap r ≠ 0 ↔ has r kSequenceGap = true
}.

Lemma typed_init mask : typed_result mask result_init.
Proof. split; [by rewrite Z.land_0_l|done|]. cbn. split; [lia|done]. Qed.

Lemma typed_flag_if mask c v r :
  typed_result mask r → Z.land v mask = v → Z.land v kSequenceGap = 0 → typed_result mask (flag_if c v r).
Proof.
  intros [Hf Hg Hs] Hv Hn. destruct c; [|done]. split; cbn [flag_if r_flags r_gap]; [|done|].
  - by rewrite Z.land_lor_distr_l, Hf, Hv.
  - rewrite Hs. unfold has. cbn [flag_if r_flags]. by rewrite Z.land_lor_distr_l, Hn, Z.lor_0_r.
Qed.

(** A flag of the mask other than the sequence flag. *)
Ltac typed_flags := repeat (apply typed_flag_if; [|vm_compute; reflexivity..]); try done.

(** ** The pieces of a check *)

Lemma typed_sequencing st ts seq mask s r :
  typed_slot s → typed_result mask r → r_gap r = 0 → is_u64 ts → is_u64 seq →
  Z.land kTimestampRegression mask = kTimestampRegression → Z.land kSequenceGap mask = kSequenceGap →
  typed_slot (check_sequencing st ts seq s r).1 ∧ typed_result mask (check_sequencing st ts seq s r).2.
Proof.
  intros S R Hg Hts Hseq Hm1 Hm2. unfold check_sequencing. cbn [fst snd]. split.
  - destruct S. split; cbn [key last_ts last_seq seen band acc]; try done; by destruct st.
  - set (r1 := flag_if _ _ r).
    assert (R1 : typed_result mask r1) by (by apply typed_flag_if).
    destruct (seen s && (last_seq s +u 1 <? seq)) eqn:E; [|done]. apply andb_true_iff in E as [_ E].
    apply Z.ltb_lt in E. destruct R1 as [Hf _ _]. split; cbn [r_flags r_gap].
    + by rewrite Z.land_lor_distr_l, Hf, Hm2.
    + auto with u64.
    + assert (Hh : has (mkResult (Z.lor (r_flags r1) kSequenceGap) ((seq -u last_seq s) -u 1)) kSequenceGap = true).
      { unfold has. cbn [r_flags]. rewrite Z.land_lor_distr_l. apply negb_true_iff, Z.eqb_neq.
        change (Z.land kSequenceGap kSequenceGap) with 512. rewrite Z.lor_eq_0_iff. lia. }
      rewrite Hh. split; [done|]. intros _ H0. pose proof (ty_seq _ S) as Hl.
      unfold u64_sub, u64_add, u64 in *. rewrite Zminus_mod_idemp_l in H0. unfold is_u64 in *.
      apply Z.mod_divide in H0 as [k Hk]; [|lia].
      destruct (Z.eq_dec (last_seq s) (2 ^ 64 - 1)) as [El|El].
      * rewrite El in *. change ((2 ^ 64 - 1 + 1) mod 2 ^ 64) with 0 in E. lia.
      * rewrite Z.mod_small in E by lia. lia.
Qed.

Lemma typed_accumulate price size s :
  typed_slot s → seen s = true → typed_slot (accumulate price size s).
Proof.
  intros [] Hs. unfold accumulate, with_acc. split; cbn [key last_ts last_seq seen band acc]; try done;
    destruct (has_trades (acc s)); cbn [negb acc_count acc_volume has_trades]; auto with u64; try done; congruence.
Qed.

Lemma typed_band price mask s r :
  typed_slot s → seen s = true → typed_result mask r → Z.land kPriceBandBreach mask = kPriceBandBreach →
  typed_slot (check_price_band price s r).1 ∧ typed_result mask (check_price_band price s r).2.
Proof.
  intros S Hs R Hm. pose proof (ty_run _ S) as Hrun. pose proof (ty_run_ref _ S) as Href.
  assert (Hw : ∀ b, 0 <= breach_run b < kBandReanchorRun → ref_init b = true → typed_slot (with_band b s)).
  { intros b Hb Hi. destruct S. split; cbn [with_band key last_ts last_seq seen band acc]; try done; congruence. }
  unfold check_price_band. unfold kBandReanchorRun in *. destruct (ref_init (band s)) eqn:E; cbn [negb].
  - destruct (out_of_band price (ref_price (band s))).
    + destruct (Z.leb_spec 3 (u32 (breach_run (band s) + 1))) as [Hle|Hlt]; cbn [fst snd].
      * split; [apply Hw; cbn; [lia|done]|by apply typed_flag_if].
      * split; [apply Hw; cbn [breach_run ref_init]; [|done]|by apply typed_flag_if].
        unfold u32 in *. rewrite Z.mod_small in * by lia. lia.
    + cbn [fst snd]. split; [apply Hw; cbn; [lia|done]|done].
  - cbn [fst snd]. split; [apply Hw; cbn [breach_run ref_init]; [lia|done]|done].
Qed.

Lemma typed_reconcile b s r :
  typed_slot s → seen s = true → typed_result bar_mask r →
  typed_slot (reconcile b s r).1 ∧ typed_result bar_mask (reconcile b s r).2.
Proof.
  intros S Hs R. unfold reconcile. destruct (has_trades (acc s)) eqn:E; cbn [negb]; [|done].
  cbn [fst snd]. split.
  - destruct S. split; cbn [with_acc key last_ts last_seq seen band acc has_trades acc_count acc_volume]; done || congruence.
  - typed_flags. destruct (negb (acc_volume (acc s) =? 0)); typed_flags.
Qed.

(** ** A whole check *)

Lemma sequencing_seen st ts seq s r : seen (check_sequencing st ts seq s r).1 = true.
Proof. done. Qed.

Lemma typed_stateful m s :
  msg_wf m → typed_slot s →
  typed_slot (check_slot m s).1 ∧ typed_result (msg_mask m) (check_slot m s).2.
Proof.
  intros Hm S. destruct m as [t|b|q]; cbn [check_slot msg_stateful msg_flags msg_mask msg_wf] in *; destruct Hm.
  - assert (R0 : typed_result trade_mask (trade_flags t)) by (typed_flags; apply typed_init).
    assert (Hg : r_gap (trade_flags t) = 0) by (unfold trade_flags; by rewrite !flag_if_gap).
    unfold check_slot. cbn [msg_stateful msg_flags]. unfold trade_stateful.
    destruct (typed_sequencing kTradeStream (wt_ts_ns t) (wt_seq t) trade_mask s (trade_flags t)) as [S1 R1]; try done.
    pose proof (sequencing_seen kTradeStream (wt_ts_ns t) (wt_seq t) s (trade_flags t)) as Hs.
    destruct (check_sequencing _ _ _ _ _) as [s1 r1]. cbn [fst snd] in *.
    destruct (_ && _); [|done]. apply typed_band; try done. by apply typed_accumulate.
  - assert (R0 : typed_result bar_mask (bar_flags b)) by (typed_flags; apply typed_init).
    assert (Hg : r_gap (bar_flags b) = 0) by (unfold bar_flags; by rewrite !flag_if_gap).
    unfold check_slot. cbn [msg_stateful msg_flags]. unfold bar_stateful.
    destruct (typed_sequencing kBarStream (wb_start_ns b) (wb_seq b) bar_mask s (bar_flags b)) as [S1 R1]; try done.
    pose proof (sequencing_seen kBarStream (wb_start_ns b) (wb_seq b) s (bar_flags b)) as Hs.
    destruct (check_sequencing _ _ _ _ _) as [s1 r1]. cbn [fst snd] in *. by apply typed_reconcile.
  - assert (R0 : typed_result quote_mask (quote_flags q)).
    { unfold quote_flags. destruct (fgt _ _); typed_flags; apply typed_init. }
    assert (Hg : r_gap (quote_flags q) = 0).
    { unfold quote_flags. destruct (fgt _ _); by rewrite !flag_if_gap. }
    unfold check_slot. cbn [msg_stateful msg_flags]. unfold quote_stateful.
    destruct (typed_sequencing kQuoteStream (wq_ts_ns q) (wq_seq q) quote_mask s (quote_flags q)) as [S1 R1]; try done.
    destruct (check_sequencing _ _ _ _ _) as [s1 r1]. cbn [fst snd] in *.
    destruct (_ && _ && _); [|done]. cbn [fst snd]. split; [done|]. typed_flags.
Qed.

Lemma typed_flags_only m : typed_result (msg_mask m) (msg_flags m).
Proof.
  destruct m as [t|b|q]; cbn [msg_flags msg_mask]; [typed_flags; apply typed_init..|].
  unfold quote_flags. destruct (fgt _ _); typed_flags; apply typed_init.
Qed.

Definition typed_table (tbl : list Slot) : Prop :=
  length tbl = Z.to_nat kCapacity ∧ Forall typed_slot tbl.

Lemma typed_get tbl i : Forall typed_slot tbl → typed_slot (slot_get tbl i).
Proof.
  intros H. unfold slot_get. destruct (tbl !! i) as [s|] eqn:E; cbn; [|by apply typed_fresh].
  rewrite Forall_forall in H. apply H. by eapply list_elem_of_lookup_2.
Qed.

Lemma typed_probe n k idx tbl i tbl' :
  is_u64 k → typed_table tbl → probe n k idx tbl = Some (i, tbl') → typed_table tbl'.
Proof.
  intros Hk. revert idx tbl. induction n as [|n IH]; intros idx tbl [Hl Ht]; [done|]. cbn [probe].
  pose proof (typed_get tbl (Z.to_nat idx) Ht) as Hs. destruct (_ && _); [intros [= <- <-]; by split|].
  destruct (negb _); [|by apply IH]. intros [= <- <-]. split; [by rewrite length_insert|].
  apply Forall_insert; [done|]. by destruct Hs.
Qed.

Lemma typed_check m tbl :
  msg_wf m → typed_table tbl → typed_table (check m tbl).2 ∧ typed_result (msg_mask m) (check m tbl).1.
Proof.
  intros Hm Ht.
  assert (Hk : is_u64 (msg_key m)).
  { unfold msg_key, symbol_key, is_u64. pose proof (le_val_range (msg_symbol m)) as Hr.
    replace (length (msg_symbol m)) with 8%nat in Hr; [exact Hr|].
    by destruct m as [t|b|q]; cbn in Hm |- *; destruct Hm. }
  assert (Hc : check m tbl = with_slot (msg_symbol m) (msg_flags m) (msg_stateful m) tbl) by (by destruct m).
  rewrite Hc. unfold with_slot, slot_for. fold (msg_key m).
  destruct (probe _ _ _ tbl) as [[i tbl1]|] eqn:E; [|split; [done|apply typed_flags_only]].
  apply typed_probe in E as [Hl1 Ht1]; [|done|done].
  pose proof (typed_stateful m (slot_get tbl1 i) Hm (typed_get _ _ Ht1)) as [S R]. unfold check_slot in S, R.
  destruct (msg_stateful m (slot_get tbl1 i) (msg_flags m)) as [s r]. cbn [fst snd] in *.
  split; [|done]. split; [by rewrite length_insert|]. by apply Forall_insert.
Qed.

(** C25: The validator's state and results are well typed: over any stream of well-formed
    records the table keeps its 4096 slots, every counter stays in the range of its
    machine type, the breach counter below the run that re-anchors, a window without
    trades has neither count nor volume and a slot that was never claimed holds nothing;
    every result carries only flags of its record's own kind, and its gap is a 64-bit
    count that is positive exactly when the sequence flag is raised. *)
Theorem validator_well_typed ms :
  Forall msg_wf ms →
  typed_table (check_all ms validator_init).2 ∧
  Forall2 (λ m r, typed_result (msg_mask m) r) ms (check_all ms validator_init).1.
Proof.
  intros Hms.
  assert (Hinit : typed_table validator_init).
  { split; [apply length_replicate|]. apply Forall_replicate. by apply typed_fresh. }
  revert Hinit. generalize validator_init. induction Hms as [|m ms Hm _ IH]; intros tbl Ht.
  { by split; [|constructor]. }
  cbn [check_all]. pose proof (typed_check m tbl Hm Ht) as [Ht1 Hr]. destruct (check m tbl) as [r tbl1].
  destruct (IH tbl1 Ht1) as [Ht2 Hrs]. destruct (check_all ms tbl1) as [rs tbl2]. by split; [|constructor].
Qed.

Definition typed_demo : list Msg :=
  [MTrade (mkWireTrade (le_bytes 8 7) 10 1 0 (double_of_Z 100) 5 Init.Byte.x41 Init.Byte.x42 (replicate 14 Init.Byte.x00));
   MTrade (mkWireTrade (le_bytes 8 7) 9 4 0 (double_of_Z 200) 0 Init.Byte.x41 Init.Byte.x42 (replicate 14 Init.Byte.x00))].

Lemma validator_well_typed_witness :
  typed_table (check_all typed_demo validator_init).2 ∧
  Forall2 (λ m r, typed_result (msg_mask m) r) typed_demo (check_all typed_demo validator_init).1.
Proof.
  apply (validator_well_typed typed_demo).
  repeat (apply Forall_cons_2; [split; vm_compute; first [done|split; done]|]). constructor.
Defined.
