(* ===== verification/Client.v ===== *)
(** * AlpacaClient: the reconnecting websocket client

    Models [src/src/ingest/alpaca_client.h] and [alpaca_client.cpp]: how a connection
    is set up and with which options, which messages are written on it, what is
    remembered of the subscription, and the reconnect loop with its backoff.  Boost's
    TCP, TLS and websocket are inputs: which call of [connect] throws, the outcome of each
    reconnect attempt and of each read.  The random draw of the jitter is a parameter;
    the log messages other than that of [close] are left out. *)

From stdpp Require Import base numbers list strings.
From Stdlib Require Import ZArith Lia.
From S2P Require Import Prelude Float64 Runtime Util UtilProofs.

Local Open Scope Z_scope.

(** The JSON messages the client writes. *)
Inductive WsMessage :=
  | MsgAuth (key secret : list byte)
  | MsgSubscribe (trades quotes bars : list (list byte)).

Record AlpacaConfig := mkAlpacaConfig {
  cfg_host : list byte;
  cfg_port : list byte;
  cfg_path : list byte;
  cfg_key_id : list byte;
  cfg_secret_key : list byte;
  cfg_idle_timeout : Z;
  cfg_auto_reconnect : bool
}.

(** The member initialisers, with the credentials that are set later. *)
Definition config_with (key secret : list byte) : AlpacaConfig :=
  mkAlpacaConfig (bs "stream.data.alpaca.markets") (bs "443") (bs "/v2/iex") key secret 15 true.

(** A websocket stream over TLS, as far as the client configures it: the endpoint TCP is
    connected to, the server name of the TLS handshake and whether that is done, the
    timeout options, the user agent, the host header and target of the upgrade, and what
    has been written. *)
Record WsStream := mkWsStream {
  ws_peer : option (list byte * list byte);
  ws_sni : option (list byte);
  ws_tls : bool;
  ws_idle_timeout : option Z;
  ws_keep_alive_pings : bool;
  ws_user_agent : option (list byte);
  ws_upgrade : option (list byte * list byte);
  ws_sent : list WsMessage
}.

(** A stream that [emplace] has just constructed. *)
Definition ws_new : WsStream := mkWsStream None None false None false None None [].

(** [Impl]: the TLS context and the stream, absent before the first [connect]. *)
Record Impl := mkImpl { ssl_default_paths : bool; ssl_verify_peer : bool; impl_ws : option WsStream }.

Definition Impl_ctor : Impl := mkImpl true true None.

Record AlpacaClient := mkAlpacaClient {
  config_ : AlpacaConfig;
  impl_ : Impl;
  sub_trades_ : list (list byte);
  sub_quotes_ : list (list byte);
  sub_bars_ : list (list byte);
  subscribed_ : bool
}.

Definition with_ws (ws : option WsStream) (c : AlpacaClient) : AlpacaClient :=
  mkAlpacaClient (config_ c) (mkImpl (ssl_default_paths (impl_ c)) (ssl_verify_peer (impl_ c)) ws)
    (sub_trades_ c) (sub_quotes_ c) (sub_bars_ c) (subscribed_ c).

Definition client_init (cfg : AlpacaConfig) : AlpacaClient := mkAlpacaClient cfg Impl_ctor [] [] [] false.

(** The calls of [connect] that can throw. *)
Inductive ConnectStep := Resolve | TcpConnect | SetServerName | TlsHandshake | WsHandshake.

#[export] Instance ConnectStep_eq_dec : EqDecision ConnectStep.
Proof. solve_decision. Defined.

Definition user_agent : list byte := bs "ohlcv-validator/0.0.1".

(** [connect]: [true] when it returns, [false] when the call [fails] throws.  [emplace]
    replaces the stream first, so the previous one is gone in either case. *)
Definition connect (fails : option ConnectStep) (c : AlpacaClient) : bool * AlpacaClient :=
  let throws s := bool_decide (fails = Some s) in
  let cfg := config_ c in
  let ws0 := ws_new in
  if throws Resolve || throws TcpConnect then (false, with_ws (Some ws0) c)
  else
    let peer := Some (cfg_host cfg, cfg_port cfg) in
    if throws SetServerName
    then (false, with_ws (Some (mkWsStream peer None false None false None None [])) c)
    else
      let sni := Some (cfg_host cfg) in
      if throws TlsHandshake
      then (false, with_ws (Some (mkWsStream peer sni false None false None None [])) c)
      else
        let ws upgrade := mkWsStream peer sni true (Some (cfg_idle_timeout cfg)) true
                            (Some user_agent) upgrade [] in
        if throws WsHandshake then (false, with_ws (Some (ws None)) c)
        else (true, with_ws (Some (ws (Some (cfg_host cfg ++ bs ":" ++ cfg_port cfg, cfg_path cfg)))) c).

Definition ws_write (m : WsMessage) (c : AlpacaClient) : AlpacaClient :=
  with_ws ((λ ws, mkWsStream (ws_peer ws) (ws_sni ws) (ws_tls ws) (ws_idle_timeout ws)
                    (ws_keep_alive_pings ws) (ws_user_agent ws) (ws_upgrade ws) (ws_sent ws ++ [m]))
             <$> impl_ws (impl_ c)) c.

Definition authenticate (c : AlpacaClient) : AlpacaClient :=
  ws_write (MsgAuth (cfg_key_id (config_ c)) (cfg_secret_key (config_ c))) c.

Definition send_subscribe (trades quotes bars : list (list byte)) (c : AlpacaClient) : AlpacaClient :=
  ws_write (MsgSubscribe trades quotes bars) c.

(** What [subscribe] remembers before it sends. *)
Definition remember (trades quotes bars : list (list byte)) (c : AlpacaClient) : AlpacaClient :=
  mkAlpacaClient (config_ c) (impl_ c) trades quotes bars true.

Definition subscribe (trades quotes bars : list (list byte)) (c : AlpacaClient) : AlpacaClient :=
  send_subscribe trades quotes bars (remember trades quotes bars c).

(** [close]: what is logged; [ec] is the error of the closing handshake and whether it
    is [not_connected]. *)
Definition close (ec : option (list byte * bool)) (c : AlpacaClient) : list Print :=
  match impl_ws (impl_ c), ec with
  | Some _, Some (message, false) => [spdlog "warn" "websocket close error: {}" [AS message]]
  | _, _ => []
  end.

(** How an attempt of [establish] ends: the call that throws, if any. *)
Inductive AttemptOutcome := ConnectFails (s : ConnectStep) | AuthFails | SubscribeFails | AttemptOk.

(** One [try] block: [true] when it returns, [false] when it throws. *)
Definition attempt_once (o : AttemptOutcome) (c : AlpacaClient) : bool * AlpacaClient :=
  match o with
  | ConnectFails s => connect (Some s) c
  | AuthFails => (false, (connect None c).2)
  | SubscribeFails =>
      let c1 := (connect None c).2 in
      if subscribed_ c1 then (false, authenticate c1) else (true, authenticate c1)
  | AttemptOk =>
      let c2 := authenticate (connect None c).2 in
      (true, if subscribed_ c2
             then send_subscribe (sub_trades_ c2) (sub_quotes_ c2) (sub_bars_ c2) c2 else c2)
  end.

Definition kBase : Z := 250.
Definition kCap : Z := 30000.

Section Client.
(** [dist(rng)] of [uniform_int_distribution(lo, hi)], at the given attempt. *)
Context (draw : Z → Z → Z → Z).

(** The loop of [establish] over the outcomes of its attempts: the client, the
    delays slept and the unused outcomes; [None] while it is still retrying. *)
Fixpoint establish (attempt : Z) (os : list AttemptOutcome) (c : AlpacaClient)
    : option (AlpacaClient * list Z) :=
  match os with
  | [] => None
  | o :: os' =>
      let '(ok, c1) := attempt_once o c in
      if ok then Some (c1, [])
      else
        let ceil := backoff_ceiling attempt kBase kCap in
        let delay := draw attempt (ceil ÷ 2) ceil in
        '(c2, delays) ← establish (u32 (attempt + 1)) os' c1;
        Some (c2, delay :: delays)
  end.

(** A read: a frame, or a system error followed by the attempts of an outage. *)
Inductive ReadOutcome := ReadFrame (f : list byte) | ReadError (outage : list AttemptOutcome).

(** [read_frame] over the outcomes of its reads: the frame, or [inl tt] when the
    error is rethrown; the client, and the delays of each outage. *)
Fixpoint read_frame (rs : list ReadOutcome) (c : AlpacaClient)
    : option ((unit + list byte) * AlpacaClient * list (list Z)) :=
  match rs with
  | [] => None
  | ReadFrame f :: _ => Some (inr f, c, [])
  | ReadError os :: rs' =>
      if negb (cfg_auto_reconnect (config_ c)) then Some (inl tt, c, [])
      else
        '(c1, delays) ← establish 0 os c;
        '(res, c2, rest) ← read_frame rs' c1;
        Some (res, c2, delays :: rest)
  end.

End Client.

(** ** Properties *)

(** What a new connection carries after a reconnect. *)
Definition replayed (c : AlpacaClient) : list WsMessage :=
  MsgAuth (cfg_key_id (config_ c)) (cfg_secret_key (config_ c)) ::
  (if subscribed_ c then [MsgSubscribe (sub_trades_ c) (sub_quotes_ c) (sub_bars_ c)] else []).

(** A connection that is set up, with what has been written on it. *)
Definition open_stream (cfg : AlpacaConfig) (sent : list WsMessage) : WsStream :=
  mkWsStream (Some (cfg_host cfg, cfg_port cfg)) (Some (cfg_host cfg)) true (Some (cfg_idle_timeout cfg)) true
    (Some user_agent) (Some (cfg_host cfg ++ bs ":" ++ cfg_port cfg, cfg_path cfg)) sent.

Definition connected (sent : list WsMessage) (c : AlpacaClient) : AlpacaClient :=
  with_ws (Some (open_stream (config_ c) sent)) c.

Definition reconnected (c : AlpacaClient) : AlpacaClient := connected (replayed c) c.

Definition attempt_fails (c : AlpacaClient) (o : AttemptOutcome) : Prop :=
  (∃ s, o = ConnectFails s) ∨ o = AuthFails ∨ (o = SubscribeFails ∧ subscribed_ c = true).

Lemma connect_ok c : connect None c = (true, connected [] c).
Proof. done. Qed.

Lemma connect_throws s c : ∃ ws, connect (Some s) c = (false, with_ws ws c).
Proof. unfold connect. destruct s; cbn; by eexists. Qed.

Lemma ws_write_connected m sent c : ws_write m (connected sent c) = connected (sent ++ [m]) c.
Proof. done. Qed.

Lemma attempt_ok c : attempt_once AttemptOk c = (true, reconnected c).
Proof.
  unfold attempt_once, reconnected, replayed. rewrite connect_ok. cbn [snd].
  unfold authenticate. rewrite ws_write_connected. cbn [app subscribed_ connected with_ws].
  destruct (subscribed_ c); [|done]. unfold send_subscribe. by rewrite ws_write_connected.
Qed.

Lemma attempt_failed c o :
  attempt_fails c o → ∃ ws, attempt_once o c = (false, with_ws ws c).
Proof.
  intros [[s ->]|[->|[-> Hs]]]; cbn [attempt_once]; [apply connect_throws|by eexists|].
  rewrite connect_ok. cbn [snd connected with_ws subscribed_]. rewrite Hs. by eexists.
Qed.

(** A failed attempt does not change what the next ones do. *)
Lemma reconnected_with_ws ws c : reconnected (with_ws ws c) = reconnected c.
Proof. done. Qed.

Definition ceiling (i : Z) : Z := Z.min kCap (kBase * 2 ^ i).

Lemma backoff_ceiling_val i : 0 <= i → backoff_ceiling i kBase kCap = ceiling i.
Proof. intros. apply backoff_min; unfold kBase, kCap; lia. Qed.

(** The jittered delays of consecutive attempts. *)
Definition jittered (from : Z) (delays : list Z) : Prop :=
  ∀ i d, delays !! i = Some d →
    ceiling (from + Z.of_nat i) / 2 <= d <= ceiling (from + Z.of_nat i).

Section Establish.
Context (draw : Z → Z → Z → Z)
  (Hdraw : ∀ a lo hi, lo <= hi → lo <= draw a lo hi <= hi).

Lemma ceiling_pos i : 0 <= i → 0 < ceiling i <= kCap.
Proof.
  intros. unfold ceiling, kBase, kCap. pose proof (Z.pow_pos_nonneg 2 i). lia.
Qed.

Lemma establish_retries attempt fails rest c :
  0 <= attempt → attempt + Z.of_nat (length fails) < 2 ^ 32 → Forall (attempt_fails c) fails →
  ∃ delays, establish draw attempt (fails ++ AttemptOk :: rest) c = Some (reconnected c, delays) ∧
    length delays = length fails ∧ jittered attempt delays.
Proof.
  revert attempt c. induction fails as [|o fails IH]; intros attempt c Ha Hlen Hf.
  { exists []. cbn [app establish]. rewrite attempt_ok. repeat split; by intros. }
  apply Forall_cons in Hf as [Ho Hf]. destruct (attempt_failed c o Ho) as [sent Hc].
  cbn [length] in Hlen. destruct (IH (attempt + 1) (with_ws sent c)) as (ds&He&Hl&Hj);
    [lia|lia|done|].
  exists (draw attempt (ceiling attempt ÷ 2) (ceiling attempt) :: ds).
  cbn [app establish]. rewrite Hc, backoff_ceiling_val by lia.
  replace (u32 (attempt + 1)) with (attempt + 1) by (unfold u32; rewrite Z.mod_small; lia).
  rewrite He. cbn. split; [done|]. split; [by f_equal|].
  intros [|i] d Hi; cbn in Hi.
  - injection Hi as <-. rewrite Z.add_0_r. pose proof (ceiling_pos attempt Ha).
    rewrite Z.quot_div_nonneg by lia. apply Hdraw. Z.div_mod_to_equations; lia.
  - specialize (Hj i d Hi). replace (attempt + Z.of_nat (S i)) with (attempt + 1 + Z.of_nat i) by lia.
    done.
Qed.

(** An outage that ends: some attempts fail, then one succeeds. *)
Definition outage (c : AlpacaClient) (os : list AttemptOutcome) (n : nat) : Prop :=
  ∃ fails rest, os = fails ++ AttemptOk :: rest ∧ Forall (attempt_fails c) fails ∧
    length fails = n ∧ Z.of_nat n < 2 ^ 32.

(** The reads of one call, whatever outages precede the frame. *)
Lemma read_frame_survives c outages ns f :
  cfg_auto_reconnect (config_ c) = true → Forall2 (outage c) outages ns →
  ∃ delays, read_frame draw ((ReadError <$> outages) ++ [ReadFrame f]) c =
    Some (inr f, (if decide (outages = []) then c else reconnected c), delays) ∧
    length <$> delays = ns ∧ Forall (jittered 0) delays.
Proof.
  intros Hauto Hout. revert c Hauto Hout. revert ns.
  induction outages as [|os outages IH]; intros ns c Hauto Hout.
  { apply Forall2_nil_inv_l in Hout as ->. exists []. by repeat split. }
  apply Forall2_cons_inv_l in Hout as (n&ns'&(fails&rest&->&Hf&<-&Hn)&Hout&->).
  destruct (establish_retries 0 fails rest c) as (ds&He&Hl&Hj); [lia|lia|done|].
  destruct (IH ns' (reconnected c)) as (dss&Hr&Hls&Hjs); [done|done|].
  exists (ds :: dss). cbn [fmap list_fmap app read_frame]. rewrite Hauto. cbn [negb].
  rewrite He. cbn [mbind option_bind]. rewrite Hr. cbn [mbind option_bind].
  rewrite (decide_False (P := _ :: _ = [])) by done.
  assert ((if decide (outages = []) then reconnected c else reconnected (reconnected c)) =
          reconnected c) as -> by (by case_decide).
  split; [done|]. split; [cbn; by rewrite Hl, Hls|by constructor].
Qed.

(** C33: A dropped connection is invisible to the reader: with [auto_reconnect] on,
    whatever number of outages precedes it, [read_frame] returns the next frame, on
    a connection that is fully set up (server name, TLS, idle timeout with keep-alive
    pings) and has been given exactly the authentication and the last subscription; and during every outage the [i]-th delay lies between half of and
    the whole of [min(30 s, 250 ms * 2^i)]. *)
Theorem client_survives_outages c outages ns f :
  cfg_auto_reconnect (config_ c) = true → Forall2 (outage c) outages ns →
  ∃ delays, read_frame draw ((ReadError <$> outages) ++ [ReadFrame f]) c =
    Some (inr f, (if decide (outages = []) then c else reconnected c), delays) ∧
    length <$> delays = ns ∧ Forall (jittered 0) delays.
Proof. apply read_frame_survives. Qed.

End Establish.

Definition demo_client : AlpacaClient :=
  subscribe [[Init.Byte.x41]] [] [] (authenticate (connect None (client_init (config_with (bs "k") (bs "s")))).2).

Lemma client_survives_outages_witness :
  ∃ delays, read_frame (λ _ lo _, lo)
      ((ReadError <$> [[ConnectFails TlsHandshake; SubscribeFails; AttemptOk]; [AttemptOk]]) ++ [ReadFrame []])
      demo_client =
    Some (inr [], reconnected demo_client, delays) ∧
    length <$> delays = [2; 0]%nat ∧ Forall (jittered 0) delays.
Proof.
  apply (client_survives_outages (λ _ lo _, lo) (λ a lo hi H, conj (Z.le_refl lo) H) demo_client
           [[ConnectFails TlsHandshake; SubscribeFails; AttemptOk]; [AttemptOk]] [2; 0]%nat []).
  - reflexivity.
  - constructor; [|constructor; [|constructor]].
    + exists [ConnectFails TlsHandshake; SubscribeFails], []. split; [done|]. split; [|by split].
      apply Forall_cons_2; [by left; eexists|]. apply Forall_cons_2; [by right; right|constructor].
    + exists [], []. by repeat constructor.
Defined.
