(* ===== verification/IngestMain.v ===== *)
(** * alpaca_ingest: the whole program

    Models the rest of [main] of [src/src/bin/alpaca_ingest.cpp] around the live loop of
    [LiveIngest.v] and the client of [Client.v]: symbols and environment, the optional
    log and capture, the start-up dialogue with the server, the reads of the loop (with
    the outages the client rides out), the exit paths and the summary.  The environment,
    the outcome of every network call and the moment of the stop signal (the end of
    the list of reads) are inputs. *)

From stdpp Require Import base numbers list gmap strings.
From Stdlib Require Import ZArith Lia.
From S2P Require Import Prelude Float64 Runtime Wire Replay Validator Timestamp Ingest LiveIngest Client.

Local Open Scope Z_scope.

(** ** Command line and environment *)

Definition Env := string → option (list byte).

(** [getenv(name)] when it is set and not empty. *)
Definition getenv_nonempty (env : Env) (name : string) : option (list byte) :=
  match env name with Some (b :: v) => Some (b :: v) | _ => None end.

(** [require_env]: the value, or the message before [std::exit(1)]. *)
Definition require_env (env : Env) (name : string) : Print + list byte :=
  match getenv_nonempty env name with
  | Some v => inr v
  | None => inl (spdlog "error" "required env var {} is not set" [AS (bs name)])
  end.

Definition symbols_of (argv : list (list byte)) : list (list byte) :=
  match drop 1 argv with [] => [bs "AAPL"] | symbols => symbols end.

Definition is_verbose (symbols : list (list byte)) : bool := Z.of_nat (length symbols) =? 1.

(** [opened] says whether the file can be opened. *)
Definition open_vlog (env : Env) (opened : bool) : bool * list Print :=
  match getenv_nonempty env "OHLCV_VIOLATIONS_LOG" with
  | Some path =>
      (opened, if opened then []
               else [spdlog "warn" "cannot open violations log {}; continuing without it" [AS path]])
  | None => (false, [])
  end.

(** [header] is the outcome of the first write. *)
Definition open_capture (env : Env) (opened : bool) (header : io) : option CaptureWriter * list Print :=
  match getenv_nonempty env "OHLCV_CAPTURE" with
  | Some path =>
      let w := CaptureWriter_ctor opened header in
      if cw_ok w
      then (Some w, [spdlog "info" "capturing the validated stream to {} (overwriting)" [AS path]])
      else (None, [spdlog "warn" "cannot open capture file {}; continuing without it" [AS path]])
  | None => (None, [])
  end.

(** ** The dialogue with the server *)

(** What the network does at start-up: the call of [connect] that throws, the reads, and
    whether the two writes succeed. *)
Record StartUp := mkStartUp {
  su_connect : option ConnectStep;
  su_welcome : list ReadOutcome;
  su_auth : bool;
  su_auth_response : list ReadOutcome;
  su_subscribe : bool;
  su_subscription_response : list ReadOutcome
}.

Section Program.
Context (draw : Z → Z → Z → Z).

(** A read of the program: [k] goes on with the client; [(false, _)] is an exception
    that reaches [main]'s handler, [None] a reconnect loop that does not end. *)
Definition reading (rs : list ReadOutcome) (c : AlpacaClient)
    (k : list byte → AlpacaClient → option (bool * AlpacaClient)) : option (bool * AlpacaClient) :=
  match read_frame draw rs c with
  | None => None
  | Some (inl _, c', _) => Some (false, c')
  | Some (inr frame, c', _) => k frame c'
  end.

(** Connect, welcome, authenticate, response, subscribe, response. *)
Definition start_up (symbols : list (list byte)) (su : StartUp) (c : AlpacaClient)
    : option (bool * AlpacaClient) :=
  let '(ok, c1) := connect (su_connect su) c in
  if negb ok then Some (false, c1)
  else reading (su_welcome su) c1 (λ _ c2,
    if negb (su_auth su) then Some (false, c2)
    else reading (su_auth_response su) (authenticate c2) (λ _ c3,
      if negb (su_subscribe su) then Some (false, remember symbols symbols symbols c3)
      else reading (su_subscription_response su) (subscribe symbols symbols symbols c3) (λ _ c4,
        Some (true, c4)))).

(** ** The loop *)

Context (verbose : bool) (disk : nat → io) (days_unspecified : Z → Z → Z → Z) (J : simdjson).

(** One read per iteration, each after a reading of the clock. *)
Fixpoint live_loop (reads : list (Z * list ReadOutcome)) (c : AlpacaClient) (st : Ingest)
    : option (Outcome * AlpacaClient * Ingest) :=
  match reads with
  | [] => Some (Stopped, c, st)
  | (arrival_ns, rs) :: reads' =>
      match read_frame draw rs c with
      | None => None
      | Some (inl _, c1, _) => Some (Thrown, c1, st)
      | Some (inr frame, c1, _) =>
          match parse days_unspecified J frame with
          | inl e => Some (Fatal e, c1, st)
          | inr pf => live_loop reads' c1 (on_frame verbose disk arrival_ns pf st)
          end
      end
  end.

End Program.

(** ** The end of [main] *)

Definition summary_note : Print :=
  printf "note: reconstruction + sequence-gap are N/A on the IEX sample (partial volume, no feed seq); timestamp-regression is now per-stream and correct, but stays suppressed live pending a measurement that it doesn't false-flag on bursty/reordered delivery. Surfaced: trade/bar/quote value checks incl. crossed/locked books and quote-mid outliers.\n" [].

Definition label_lines (counts : list Z) : list Print :=
  concat (zip_with (λ l c, if c =? 0 then [] else [printf "  %s: %llu\n" [AS (ll_text l); AU c]]) kLiveLabels counts).

Definition summary (captured : option Z) (trades quotes bars flagged : Z) (counts : list Z) : list Print :=
  [printf "\n--- validation summary ---\nvalidated %llu trades, %llu quotes, %llu bars; %llu records flagged\n"
     [AU trades; AU quotes; AU bars; AU flagged]] ++
  (match captured with
   | Some n => [printf "captured %llu records to the binary replay format\n" [AU n]]
   | None => []
   end) ++
  label_lines counts ++
  (if flagged =? 0 then [printf "  (no anomalies — expected on a clean feed)\n" []] else []) ++
  [summary_note].

(** What a run leaves behind: exit code, standard output, the warnings and errors of the
    log (the messages of the client left out, but for [close]), JSON log, capture file. *)
Record IngestResult := mkIngestResult {
  ir_code : Z;
  ir_out : list Print;
  ir_log : list Print;
  ir_vlog : option (list ViolationJson);
  ir_capture : option (list byte)
}.

(** The inputs of a run that the program does not control; [w_what] is the text of an
    exception, [w_close] the error of the closing handshake. *)
Record World := mkWorld {
  w_env : Env;
  w_vlog_opens : bool;
  w_capture_opens : bool;
  w_header : io;
  w_disk : nat → io;
  w_patch : io;
  w_patch_again : io;
  w_what : list byte;
  w_close : option (list byte * bool);
  w_draw : Z → Z → Z → Z;
  w_start : StartUp;
  w_reads : list (Z * list ReadOutcome)
}.

(** [main].  [std::exit] runs no destructor of [main]'s objects, so a capture that was
    opened before it has been truncated and nothing of it is flushed. *)
Definition ingest_program (days_unspecified : Z → Z → Z → Z) (J : simdjson) (w : World)
    (argv : list (list byte)) : option IngestResult :=
  let symbols := symbols_of argv in
  let verbose := is_verbose symbols in
  let '(log, log1) := open_vlog (w_env w) (w_vlog_opens w) in
  let '(cap, log2) := open_capture (w_env w) (w_capture_opens w) (w_header w) in
  let st0 := ingest_init log cap in
  let exit_1 message := Some (mkIngestResult 1 [] (log1 ++ log2 ++ [message]) (vlog st0) ((λ _, []) <$> cap)) in
  match require_env (w_env w) "SECRET_ALPACA_API_KEY" with
  | inl message => exit_1 message
  | inr key =>
      match require_env (w_env w) "SECRET_ALPACA_API_SECRET" with
      | inl message => exit_1 message
      | inr secret =>
          '(started, c1) ← start_up (w_draw w) symbols (w_start w) (client_init (config_with key secret));
          '(out, c2, st) ←
            (if (started : bool)
             then live_loop (w_draw w) verbose (w_disk w) days_unspecified J (w_reads w) c1 st0
             else Some (Thrown, c1, st0));
          let file := capture_file (w_patch w) (w_patch_again w) out st in
          let logged := log1 ++ log2 ++ ig_log st in
          match out with
          | Stopped =>
              Some (mkIngestResult 0
                      (ig_out st ++ summary (cw_count <$> capture st) (n_trades st) (n_quotes st) (n_bars st)
                                      (n_flagged st) (counts st))
                      (logged ++ close (w_close w) c2) (vlog st) file)
          | _ =>
              Some (mkIngestResult 1 (ig_out st)
                      (logged ++ [spdlog "error" "fatal: {}" [AS (w_what w)]] ++ close (w_close w) c2)
                      (vlog st) file)
          end
      end
  end.
