(* ===== verification/IngestMainProofs.v ===== *)
(** * alpaca_ingest: start-up, exit paths and what a run reports

    The dialogue at start-up leaves an authenticated and subscribed connection whatever
    outages interrupt it, and a run of the program reports exactly what the validator
    finds in the frames it was sent. *)

From stdpp Require Import base numbers list list_numbers gmap strings.
From Stdlib Require Import ZArith Lia.
From S2P Require Import Prelude Float64 Runtime Wire Replay Validator ValidatorTable ValidatorProps.
From S2P Require Import ValidatorChecks Timestamp Ingest ParserProofs LiveIngest Util UtilProofs.
From S2P Require Import Arbitrator ArbitratorProofs ArbitratorSessions Harness HarnessProofs.
From S2P Require Import LiveIngestProofs LiveIngestProps Client IngestMain.

Local Open Scope Z_scope.

Section Dialogue.
Context (draw : Z → Z → Z → Z) (Hdraw : ∀ a lo hi, lo <= hi → lo <= draw a lo hi <= hi).

(** The outcomes of one call of [read_frame]: outages that end, then a frame. *)
Definition read_ends (c : AlpacaClient) (rs : list ReadOutcome) (f : list byte) : Prop :=
  ∃ outages ns, rs = (ReadError <$> outages) ++ [ReadFrame f] ∧ Forall2 (outage c) outages ns.

(** The connection drops before the frame. *)
Definition drops (rs : list ReadOutcome) : bool :=
  match rs with ReadError _ :: _ => true | _ => false end.

Lemma read_ends_frame c rs f :
  cfg_auto_reconnect (config_ c) = true → read_ends c rs f →
  ∃ delays, read_frame draw rs c = Some (inr f, (if drops rs then reconnected c else c), delays).
Proof using Hdraw.
  intros Hauto (outages&ns&->&Ho). destruct (read_frame_survives draw Hdraw c outages ns f Hauto Ho)
    as (delays&Hr&_).
  exists delays. rewrite Hr. by destruct outages.
Qed.

(** Only the subscription matters for what a reconnect can do. *)
Lemma read_ends_with_ws ws c rs f : read_ends (with_ws ws c) rs f ↔ read_ends c rs f.
Proof using. done. Qed.

Lemma reconnected_connected sent c : reconnected (connected sent c) = reconnected c.
Proof using. done. Qed.

Definition auth_message (c : AlpacaClient) : WsMessage :=
  MsgAuth (cfg_key_id (config_ c)) (cfg_secret_key (config_ c)).

(** The dialogue up to the response to the authentication. *)
Lemma start_up_authenticated symbols su c f1 f2 :
  cfg_auto_reconnect (config_ c) = true → subscribed_ c = false →
  su_connect su = None → su_auth su = true →
  read_ends c (su_welcome su) f1 → read_ends c (su_auth_response su) f2 →
  let sent := (if drops (su_welcome su) then [auth_message c] else []) ++ [auth_message c] in
  let c3 := connected (if drops (su_auth_response su) then [auth_message c] else sent) c in
  start_up draw symbols su c =
    if negb (su_subscribe su) then Some (false, remember symbols symbols symbols c3)
    else reading draw (su_subscription_response su) (subscribe symbols symbols symbols c3) (λ _ c4, Some (true, c4)).
Proof using Hdraw.
  intros Hauto Hsub Hc Ha H1 H2 sent c3. unfold start_up, reading. rewrite Hc, connect_ok. cbn [negb].
  destruct (read_ends_frame (connected [] c) _ f1 Hauto H1) as (d1&->). rewrite Ha. cbn [negb].
  assert (Hre : reconnected c = connected [auth_message c] c).
  { unfold reconnected, replayed. by rewrite Hsub. }
  set (c2 := if drops (su_welcome su) then _ else _).
  assert (Hc2 : authenticate c2 = connected sent c).
  { subst c2 sent. rewrite reconnected_connected, Hre. unfold authenticate. by destruct (drops (su_welcome su)). }
  rewrite Hc2. destruct (read_ends_frame (connected sent c) _ f2 Hauto H2) as (d2&->).
  rewrite reconnected_connected, Hre. subst c3. by destruct (drops (su_auth_response su)).
Qed.

Definition start_goes_through (su : StartUp) : bool :=
  bool_decide (su_connect su = None) && su_auth su && su_subscribe su.

Lemma start_up_runs symbols su c f1 f2 f3 :
  cfg_auto_reconnect (config_ c) = true → subscribed_ c = false → start_goes_through su = true →
  let c' := remember symbols symbols symbols c in
  read_ends c (su_welcome su) f1 → read_ends c (su_auth_response su) f2 →
  read_ends c' (su_subscription_response su) f3 →
  let twice := drops (su_welcome su) && negb (drops (su_auth_response su)) &&
               negb (drops (su_subscription_response su)) in
  start_up draw symbols su c = Some (true, connected
    ((if twice then [auth_message c] else []) ++ [auth_message c; MsgSubscribe symbols symbols symbols]) c').
Proof using Hdraw.
  intros Hauto Hsub [[Hc%bool_decide_eq_true Ha]%andb_true_iff Hs]%andb_true_iff c' H1 H2 H3.
  rewrite (start_up_authenticated symbols su c f1 f2) by done. rewrite Hs. cbn [negb]. unfold reading.
  set (sent := if drops (su_auth_response su) then _ else _).
  change (subscribe symbols symbols symbols (connected sent c))
    with (connected (sent ++ [MsgSubscribe symbols symbols symbols]) c').
  destruct (read_ends_frame (connected (sent ++ [MsgSubscribe symbols symbols symbols]) c') _ f3 Hauto H3) as (d3&->).
  rewrite reconnected_connected. f_equal. f_equal. subst sent.
  by destruct (drops (su_welcome su)), (drops (su_auth_response su)), (drops (su_subscription_response su)).
Qed.

(** When the connect or one of the two writes fails, the exception ends the dialogue. *)
Lemma start_up_stops symbols su c f1 f2 :
  cfg_auto_reconnect (config_ c) = true → subscribed_ c = false → start_goes_through su = false →
  read_ends c (su_welcome su) f1 → read_ends c (su_auth_response su) f2 →
  ∃ c1, start_up draw symbols su c = Some (false, c1).
Proof using Hdraw.
  intros Hauto Hsub Hg H1 H2. destruct (su_connect su) as [s|] eqn:Hc.
  { unfold start_up. rewrite Hc. destruct (connect_throws s c) as [ws ->]. by eexists. }
  destruct (su_auth su) eqn:Ha.
  - rewrite (start_up_authenticated symbols su c f1 f2) by done. unfold start_goes_through in Hg.
    rewrite Hc, Ha in Hg. cbn in Hg. rewrite Hg. by eexists.
  - unfold start_up, reading. rewrite Hc, connect_ok. cbn [negb].
    destruct (read_ends_frame (connected [] c) _ f1 Hauto H1) as (d1&->). rewrite Ha. by eexists.
Qed.

(** ** The loop over reads is the loop over frames *)

Context (verbose : bool) (disk : nat → io) (days : Z → Z → Z → Z) (J : simdjson).

Lemma live_loop_frames reads frames c st :
  cfg_auto_reconnect (config_ c) = true →
  Forall2 (λ ar af, ar.1 = af.1 ∧ read_ends c ar.2 af.2) reads frames →
  ∃ c', live_loop draw verbose disk days J reads c st =
    Some ((ingest_loop verbose disk days J frames st).1, c', (ingest_loop verbose disk days J frames st).2).
Proof using Hdraw.
  intros Hauto H. revert c st Hauto H. revert frames.
  induction reads as [|[a rs] reads IH]; intros frames c st Hauto H.
  { apply Forall2_nil_inv_l in H as ->. by exists c. }
  apply Forall2_cons_inv_l in H as ([a' f]&frames'&[Ha Hr]&H&->). cbn [fst snd] in Ha, Hr. subst a'.
  destruct (read_ends_frame c rs f Hauto Hr) as (ds&Hf). cbn [live_loop ingest_loop]. rewrite Hf.
  destruct (parse days J f) as [e|pf]; [by eexists|].
  apply IH; [by destruct (drops rs)|]. by destruct (drops rs).
Qed.

End Dialogue.

(** ** Counters per kind *)

Definition is_live_trade (l : LiveRec) : bool := match l with LTrade _ => true | _ => false end.
Definition is_live_quote (l : LiveRec) : bool := match l with LQuote _ => true | _ => false end.
Definition is_live_bar (l : LiveRec) : bool := match l with LBar _ => true | _ => false end.

Definition b2z (b : bool) : Z := if b then 1 else 0.

Definition tallies (st : Ingest) : Z * Z * Z := (n_trades st, n_quotes st, n_bars st).

Lemma capture_tallies disk r st : tallies (capture_write disk r st) = tallies st.
Proof. unfold capture_write. by destruct (capture st). Qed.

Lemma record_tallies kind sym ts seq flags st : tallies (record kind sym ts seq flags st) = tallies st.
Proof. reflexivity. Qed.

Lemma watch_tallies verbose line st : tallies (watch verbose line st) = tallies st.
Proof. by destruct verbose. Qed.

Lemma validate_tallies m dt dq db st :
  tallies (validate_live m dt dq db st).2 = (n_trades st +u dt, n_quotes st +u dq, n_bars st +u db).
Proof. unfold validate_live. by destruct (check m (ig_validator st)). Qed.

Lemma on_live_counts verbose disk a l st :
  live_symbol l ≠ [] →
  tallies (on_live verbose disk (a, l) st) =
  (n_trades st +u b2z (is_live_trade l), n_quotes st +u b2z (is_live_quote l), n_bars st +u b2z (is_live_bar l)).
Proof.
  intros Hs. rewrite on_live_body by done. destruct (bump_seq (live_symbol l) st) as [seq st1] eqn:E.
  set (m := live_msg l seq). cbn zeta.
  pose proof (validate_tallies m (b2z (is_live_trade l)) (b2z (is_live_quote l)) (b2z (is_live_bar l)) st1) as H.
  replace (match l with LTrade _ => 1 | _ => 0 end) with (b2z (is_live_trade l)) by (by destruct l).
  replace (match l with LQuote _ => 1 | _ => 0 end) with (b2z (is_live_quote l)) by (by destruct l).
  replace (match l with LBar _ => 1 | _ => 0 end) with (b2z (is_live_bar l)) by (by destruct l).
  destruct (validate_live m _ _ _ st1) as [r st2]. cbn [snd] in H.
  rewrite capture_tallies, record_tallies, watch_tallies, H. unfold bump_seq in E. by simplify_eq.
Qed.

Lemma live_counts verbose disk als st (n : Ingest → Z) (p : LiveRec → bool) :
  (∀ a l st, live_symbol l ≠ [] → n (on_live verbose disk (a, l) st) = n st +u b2z (p l)) →
  is_u64 (n st) →
  n (foldl (λ st al, on_live verbose disk al st) st als) = u64 (n st + countb p (named als).*2).
Proof.
  intros Hn. revert st. induction als as [|[a l] als IH]; intros st Hst.
  { cbn. change (countb p []) with 0. by rewrite Z.add_0_r, u64_small. }
  cbn [foldl]. unfold named. rewrite filter_cons. fold (named als). cbn [snd]. case_decide as Hs.
  - rewrite IH, Hn by (done || rewrite Hn by done; auto with u64). rewrite fmap_cons, countb_cons. cbn [snd].
    unfold u64_add. rewrite u64_add_u64_l. f_equal. unfold b2z. lia.
  - rename Hs into Hl.
    assert (on_live verbose disk (a, l) st = st) as ->; [|by apply IH].
    destruct l; cbn [on_live live_symbol fst snd] in *; unfold on_trade, on_quote, on_bar;
      by rewrite bool_decide_eq_true_2.
Qed.

(** ** The outcome of the loop *)

Definition all_parse (days : Z → Z → Z → Z) (J : simdjson) (frames : list (Z * list byte)) : bool :=
  forallb (λ af, match parse days J af.2 with inr _ => true | inl _ => false end) frames.

Definition is_stopped (o : Outcome) : bool := match o with Stopped => true | _ => false end.

Lemma loop_outcome verbose disk days J frames st :
  is_stopped (ingest_loop verbose disk days J frames st).1 = all_parse days J frames.
Proof.
  revert st. induction frames as [|[a f] frames IH]; intros st; [done|].
  cbn [ingest_loop all_parse forallb snd]. destruct (parse days J f) as [e|pf]; [done|]. apply IH.
Qed.

Lemma stamp_named als ns : (stamp als.*2 ns).*1 = (named als).*2.
Proof.
  revert ns. induction als as [|[a l] als IH]; intros ns; [done|].
  unfold named. rewrite filter_cons. fold (named als). cbn [fmap list_fmap stamp snd].
  destruct (decide (live_symbol l = [])) as [He|Hne].
  - rewrite bool_decide_eq_true_2 by done. rewrite decide_False by (intros H; by apply H). apply IH.
  - rewrite bool_decide_eq_false_2, decide_True by done. cbn [fmap list_fmap fst snd]. by rewrite IH.
Qed.

(** The counters per kind at the end of a session. *)
Lemma session_tallies verbose disk days J frames log cap :
  let st := (ingest_loop verbose disk days J frames (ingest_init log cap)).2 in
  let ls := (session_stamped days J frames).*1 in
  n_trades st = u64 (countb is_live_trade ls) ∧ n_quotes st = u64 (countb is_live_quote ls) ∧
  n_bars st = u64 (countb is_live_bar ls).
Proof.
  cbn zeta. unfold session_stamped, live_stream. rewrite stamp_named, ingest_loop_stream.
  pose proof (live_counts verbose disk (timed_stream days J frames) (ingest_init log cap)) as H.
  split; [|split]; [apply (H n_trades is_live_trade)|apply (H n_quotes is_live_quote)|apply (H n_bars is_live_bar)];
    try done; intros a l st Hs; pose proof (on_live_counts verbose disk a l st Hs) as Ht; unfold tallies in Ht;
    by simplify_eq.
Qed.

(** The capture stays open. *)
Lemma session_keeps_capture verbose disk days J frames log cap :
  is_Some (capture (ingest_loop verbose disk days J frames (ingest_init log cap)).2) ↔ is_Some cap.
Proof.
  rewrite ingest_loop_stream.
  destruct (live_run verbose disk (timed_stream days J frames) (ingest_init log cap)) as (_&_&_&_&_&H).
  cbn zeta in H. cbn [log_lines capture]. rewrite H, fmap_is_Some. done.
Qed.

(** ** The properties *)


(** C7: A run of the ingest program reports exactly what it was sent: with both
    credentials set, a start-up that goes through and reads whose outages end, the
    program terminates; its output is, record by record, what the validator finds in the
    frames (watch lines only for a single symbol), followed, when every frame parses and
    the stop signal ends the loop, by the summary with the number of trades, quotes, bars
    and flagged records and the count of every surfaced check; it then returns 0.  When a
    frame does not parse, the output stops with the records before it, there is no
    summary, and the exit code is 1. *)
Theorem ingest_program_exact days J w argv key secret f1 f2 f3 frames :
  (∀ a lo hi, lo <= hi → lo <= w_draw w a lo hi <= hi) →
  getenv_nonempty (w_env w) "SECRET_ALPACA_API_KEY" = Some key →
  getenv_nonempty (w_env w) "SECRET_ALPACA_API_SECRET" = Some secret →
  let symbols := symbols_of argv in
  let c := client_init (config_with key secret) in
  let c' := remember symbols symbols symbols c in
  su_connect (w_start w) = None → su_auth (w_start w) = true → su_subscribe (w_start w) = true →
  read_ends c (su_welcome (w_start w)) f1 → read_ends c (su_auth_response (w_start w)) f2 →
  read_ends c' (su_subscription_response (w_start w)) f3 →
  Forall2 (λ ar af, ar.1 = af.1 ∧ read_ends c' ar.2 af.2) (w_reads w) frames →
  let rs := session_results days J frames in
  let ls := (session_stamped days J frames).*1 in
  let out := out_of (is_verbose symbols) (named (timed_stream days J frames)) rs in
  ∃ r captured, ingest_program days J w argv = Some r ∧
    ir_code r = (if all_parse days J frames then 0 else 1) ∧
    ir_out r = out ++ (if all_parse days J frames then
      summary captured (u64 (countb is_live_trade ls)) (u64 (countb is_live_quote ls))
        (u64 (countb is_live_bar ls)) (u64 (countb surfaced rs))
        ((λ l, u64 (countb (λ r, surfaces (r_flags r) l) rs)) <$> kLiveLabels) else []) ∧
    (is_Some captured ↔ is_Some (open_capture (w_env w) (w_capture_opens w) (w_header w)).1) ∧
    ir_vlog r = (if (open_vlog (w_env w) (w_vlog_opens w)).1
                 then Some (log_of (zip (session_stamped days J frames) rs)) else None).
Proof.
  intros Hdraw Hkey Hsec symbols c c' Hc Ha Hs H1 H2 H3 Hreads rs ls out.
  unfold ingest_program, require_env. rewrite Hkey, Hsec.
  destruct (open_vlog (w_env w) (w_vlog_opens w)) as [log log1].
  destruct (open_capture (w_env w) (w_capture_opens w) (w_header w)) as [cap log2]. cbn [fst].
  fold symbols. fold c.
  rewrite (start_up_runs (w_draw w) Hdraw symbols (w_start w) c f1 f2 f3)
    by (done || by unfold start_goes_through; rewrite Hc, Ha, Hs). fold c'.
  cbn [mbind option_bind]. set (c1 := connected _ c').
  destruct (live_loop_frames (w_draw w) Hdraw (is_verbose symbols) (w_disk w) days J (w_reads w) frames c1
    (ingest_init log cap) eq_refl Hreads) as (c2&->).
  cbn [mbind option_bind].
  pose proof (session_summary (is_verbose symbols) (w_disk w) days J frames log cap) as (E1&E2&E3&_&E5&_).
  pose proof (session_tallies (is_verbose symbols) (w_disk w) days J frames log cap) as (T1&T2&T3).
  pose proof (loop_outcome (is_verbose symbols) (w_disk w) days J frames (ingest_init log cap)) as Ho.
  pose proof (session_keeps_capture (is_verbose symbols) (w_disk w) days J frames log cap) as Hcap.
  destruct (ingest_loop _ _ _ _ frames _) as [o st]. cbn [fst snd] in *. rewrite <- Ho.
  exists (match o with
    | Stopped => mkIngestResult 0 (ig_out st ++ summary (cw_count <$> capture st) (n_trades st) (n_quotes st)
        (n_bars st) (n_flagged st) (counts st)) ((log1 ++ log2 ++ ig_log st) ++ close (w_close w) c2) (vlog st)
        (capture_file (w_patch w) (w_patch_again w) o st)
    | _ => mkIngestResult 1 (ig_out st) ((log1 ++ log2 ++ ig_log st) ++
        [spdlog "error" "fatal: {}" [AS (w_what w)]] ++ close (w_close w) c2) (vlog st)
        (capture_file (w_patch w) (w_patch_again w) o st)
    end), (cw_count <$> capture st).
  rewrite fmap_is_Some. split; [by destruct o|]. split; [by destruct o|]. split; [|split; [done|by destruct o]].
  destruct o; cbn [is_stopped ir_out]; rewrite E3, ?app_nil_r; [|done..].
  by rewrite T1, T2, T3, E1, E2.
Qed.

(** Without credentials the program exits before it connects, but a capture file has been
    truncated by then and stays empty. *)
Lemma missing_credentials days J w argv path :
  getenv_nonempty (w_env w) "SECRET_ALPACA_API_KEY" = None →
  getenv_nonempty (w_env w) "OHLCV_CAPTURE" = Some path →
  cw_ok (CaptureWriter_ctor (w_capture_opens w) (w_header w)) = true →
  ∃ r, ingest_program days J w argv = Some r ∧ ir_code r = 1 ∧ ir_out r = [] ∧ ir_capture r = Some [].
Proof.
  intros Hk Hp Hok. unfold ingest_program, require_env, open_capture. rewrite Hk, Hp, Hok.
  destruct (open_vlog _ _). by eexists.
Qed.

(** ** Witnesses *)

Definition lowest (_ lo _ : Z) : Z := lo.

Lemma lowest_ok a lo hi : lo <= hi → lo <= lowest a lo hi <= hi.
Proof. unfold lowest. lia. Qed.

(** The connection drops before the welcome and the first reconnect fails. *)
Definition demo_start : StartUp :=
  mkStartUp None [ReadError [ConnectFails TcpConnect; AttemptOk]; ReadFrame (bs "welcome")] true
    [ReadFrame (bs "ok")] true [ReadFrame (bs "ok")].

Lemma read_ends_frame_only c f : read_ends c [ReadFrame f] f.
Proof. exists [], []. by split. Qed.

Lemma demo_welcome_ends c : read_ends c (su_welcome demo_start) (bs "welcome").
Proof.
  exists [[ConnectFails TcpConnect; AttemptOk]], [1%nat]. split; [done|]. constructor; [|constructor].
  exists [ConnectFails TcpConnect], []. split; [done|]. split; [|done]. constructor; [by left; eexists|constructor].
Qed.

Definition demo_env (name : string) : option (list byte) :=
  if String.eqb name "OHLCV_CAPTURE" then None
  else if String.eqb name "OHLCV_VIOLATIONS_LOG" then Some (bs "v.jsonl") else Some (bs "secret").

Definition demo_world : World :=
  mkWorld demo_env true true None (λ _, None) None None [] None lowest demo_start
    [(7, [ReadFrame (bs "[1]")]); (9, [ReadFrame (bs "[1]")])].

(** The same start, with a subscription that cannot be written. *)
Definition demo_world_broken : World :=
  mkWorld demo_env true true None (λ _, None) None None [] None lowest
    (mkStartUp None [ReadFrame (bs "welcome")] true [ReadFrame (bs "ok")] false [ReadFrame (bs "ok")]) [].


Lemma ingest_program_exact_witness :
  let frames := [(7, bs "[1]"); (9, bs "[1]")] in
  let days := λ _ _ _, 0 in
  let J := demo_json demo_elements in
  let rs := session_results days J frames in
  let ls := (session_stamped days J frames).*1 in
  let out := out_of true (named (timed_stream days J frames)) rs in
  ∃ r captured, ingest_program days J demo_world [bs "alpaca_ingest"; bs "AAPL"] = Some r ∧
    ir_code r = (if all_parse days J frames then 0 else 1) ∧
    ir_out r = out ++ (if all_parse days J frames then
      summary captured (u64 (countb is_live_trade ls)) (u64 (countb is_live_quote ls))
        (u64 (countb is_live_bar ls)) (u64 (countb surfaced rs))
        ((λ l, u64 (countb (λ r, surfaces (r_flags r) l) rs)) <$> kLiveLabels) else []) ∧
    (is_Some captured ↔ is_Some (None : option CaptureWriter)) ∧
    ir_vlog r = Some (log_of (zip (session_stamped days J frames) rs)).
Proof.
  apply (ingest_program_exact (λ _ _ _, 0) (demo_json demo_elements) demo_world [bs "alpaca_ingest"; bs "AAPL"]
    (bs "secret") (bs "secret") (bs "welcome") (bs "ok") (bs "ok") [(7, bs "[1]"); (9, bs "[1]")]).
  - apply lowest_ok.
  - reflexivity.
  - reflexivity.
  - reflexivity.
  - reflexivity.
  - reflexivity.
  - apply demo_welcome_ends.
  - apply read_ends_frame_only.
  - apply read_ends_frame_only.
  - repeat constructor; apply read_ends_frame_only.
Defined.
