(* ===== verification/Publisher.v ===== *)
(** * feed_publisher and the multicast transport

    Models [src/src/bin/feed_publisher.cpp] (the packets it builds and sends on the
    two lines) and the framing of [src/src/feed/udp_multicast.h] (one datagram is one
    [FeedPacket]).  The random draws, the outcome of each [sendto] and the system
    calls of the socket constructors are parameters; the pacing sleeps change no value and
    are left out.  [FeedMain.v] holds the program around the loop. *)

From stdpp Require Import base numbers list strings.
From Stdlib Require Import ZArith Lia.
From S2P Require Import Prelude Float64 Runtime Wire Replay Validator Ingest LiveIngest.

Local Open Scope Z_scope.

(** ** udp_multicast.h *)

(** [sendto] of the whole packet. *)
Definition mcast_send (pkt : FeedPacket) : list byte := encode pkt.

(** [::recv(fd, &out, sizeof(out), 0)] on a datagram: at most [sizeof(out)] bytes are
    stored, the rest of the datagram is lost, and their number is returned; -1 when
    no datagram is queued. *)
Definition os_recv (datagram : option (list byte)) (out : list byte) : Z * list byte :=
  match datagram with
  | None => (-1, out)
  | Some d => let got := take (sizeof FeedPacket) d in
              (Z.of_nat (length got), got ++ drop (length got) out)
  end.

(** [McastReceiver::recv]: the packet's storage and whether it is a full packet. *)
Definition mcast_recv (datagram : option (list byte)) (out : list byte) : bool * list byte :=
  let '(n, out') := os_recv datagram out in (n =? Z.of_nat (sizeof FeedPacket), out').

(** [while (line.recv(pkt)) { arb.offer(pkt, sink); }] over the queued datagrams:
    the packets offered and the datagrams left in the queue. *)
Fixpoint drain_line (queue : list (list byte)) (out : list byte)
    : list FeedPacket * list (list byte) :=
  match queue with
  | [] => ([], [])
  | d :: queue' =>
      let '(ok, out') := mcast_recv (Some d) out in
      if ok then let '(pkts, rest) := drain_line queue' out' in (decode out' :: pkts, rest)
      else ([], queue')
  end.

(** The socket calls of the two constructors. *)
Record SocketApi := mkSocketApi {
  api_socket : Z;
  api_reuseaddr : bool;
  api_bind : bool;
  api_add_membership : bool;
  api_multicast_if : bool;
  api_multicast_loop : bool
}.

(** The constructors: the descriptor or the failing call, and the open descriptors. *)
Definition McastReceiver_ctor (api : SocketApi) (fds : list Z) : (string + Z) * list Z :=
  let fd := api_socket api in
  if fd <? 0 then (inl "socket", fds)
  else
    let fds1 := fd :: fds in
    if negb (api_reuseaddr api) then (inl "SO_REUSEADDR", fds1)
    else if negb (api_bind api) then (inl "bind", fds1)
    else if negb (api_add_membership api) then (inl "IP_ADD_MEMBERSHIP", fds1)
    else (inr fd, fds1).

Definition McastSender_ctor (api : SocketApi) (fds : list Z) : (string + Z) * list Z :=
  let fd := api_socket api in
  if fd <? 0 then (inl "socket", fds)
  else
    let fds1 := fd :: fds in
    if negb (api_multicast_if api) then (inl "IP_MULTICAST_IF", fds1)
    else if negb (api_multicast_loop api) then (inl "IP_MULTICAST_LOOP", fds1)
    else (inr fd, fds1).

(** The destructors. *)
Definition mcast_dtor (fd : Z) (fds : list Z) : list Z :=
  if 0 <=? fd then List.remove Z.eq_dec fd fds else fds.

(** ** feed_publisher.cpp *)

Definition kSyms : Z := 4.
Definition names : list (list byte) := [bs "AAPL"; bs "MSFT"; bs "NVDA"; bs "TSLA"].
Definition px_init : list double := double_of_Z <$> [190; 420; 1200; 250].
Definition base_ns : Z := 1704206000000000000.

Record Publisher := mkPublisher {
  pb_px : list double;
  pb_sym_seq : list Z;
  sent_a : Z;
  sent_b : Z;
  line_a : list FeedPacket;
  line_b : list FeedPacket
}.

Definition publisher_init : Publisher := mkPublisher px_init [0; 0; 0; 0] 0 0 [] [].

(** The trade of a packet. *)
Definition publish_trade (seq sym_seq : Z) (name : list byte) (price : double) : WireTrade :=
  mkWireTrade (set_symbol name) (base_ns +u (seq *u 1000)) sym_seq seq price 100
    (byte_of_Z 86) (byte_of_Z 65) (replicate 14 Init.Byte.x00).

Section Publisher.
(** The [n]-th draw of [unit(rng)], the loss rates, and whether [sendto] succeeds. *)
Context (unit : Z → double) (drop_a drop_b : double) (send_ok : Line → Z → bool).

(** [px[si] *= 1.0 + (unit(rng) - 0.5) / 50000.0] *)
Definition walk (p u : double) : double :=
  fmul p (fadd fone (fdiv (fsub u (lit 1 2)) (double_of_Z 50000))).

(** One iteration; it makes three draws. *)
Definition publish_one (seq : Z) (p : Publisher) : Publisher :=
  let si := Z.to_nat (seq mod kSyms) in
  let price := walk (default fzero (pb_px p !! si)) (unit (3 * seq)) in
  let sseq := default 0 (pb_sym_seq p !! si) +u 1 in
  let rec := wrap_trade (publish_trade seq sseq (default [] (names !! si)) price) in
  let pkt l := mkFeedPacket seq (Line_u8 l) (replicate 7 Init.Byte.x00) rec in
  let a := fle drop_a (unit (3 * seq + 1)) && send_ok LineA seq in
  let b := fle drop_b (unit (3 * seq + 2)) && send_ok LineB seq in
  mkPublisher (<[si := price]> (pb_px p)) (<[si := sseq]> (pb_sym_seq p))
    (if a then sent_a p +u 1 else sent_a p) (if b then sent_b p +u 1 else sent_b p)
    (if a then line_a p ++ [pkt LineA] else line_a p)
    (if b then line_b p ++ [pkt LineB] else line_b p).

(** The loop: [n] iterations from [seq]. *)
Fixpoint publish_loop (n : nat) (seq : Z) (p : Publisher) : Publisher :=
  match n with O => p | S n' => publish_loop n' (seq + 1) (publish_one seq p) end.

Definition publisher_main (count : nat) : Publisher := publish_loop count 0 publisher_init.

(** ** Specification: the published stream *)

Definition spec_px (p : list double) (seq : Z) : list double :=
  let si := Z.to_nat (seq mod kSyms) in <[si := walk (default fzero (p !! si)) (unit (3 * seq))]> p.

(** The prices before message [seq]. *)
Definition px_at (seq : nat) : list double := foldl spec_px px_init (seqZ 0 (Z.of_nat seq)).

(** Message [seq]: symbol, symbol sequence and price do not depend on the losses. *)
Definition published_trade (seq : Z) : WireTrade :=
  let si := Z.to_nat (seq mod kSyms) in
  publish_trade seq (seq / kSyms + 1) (default [] (names !! si))
    (walk (default fzero (px_at (Z.to_nat seq) !! si)) (unit (3 * seq))).

Definition published_record (seq : Z) : WireRecord := wrap_trade (published_trade seq).

End Publisher.
