(* ===== verification/PublisherProofs.v ===== *)
(** * The published stream, its transport, and the handler on top of it

    What each line carries after the injected and the real losses, the framing round
    trip, and the handler's report against the published stream. *)

From stdpp Require Import base numbers list list_numbers gmap strings.
From Stdlib Require Import ZArith Lia.
From S2P Require Import Prelude Float64 Runtime Wire Replay Validator ValidatorTable ValidatorProps.
From S2P Require Import ValidatorChecks Timestamp Ingest LiveIngest LiveIngestProofs LiveIngestProps.
From S2P Require Import Arbitrator ArbitratorProofs ArbitratorSessions Util Harness HarnessProofs.
From S2P Require Import Publisher.

Local Open Scope Z_scope.

(** ** Transport *)

Lemma mcast_recv_send pkt out :
  wf pkt → length out = sizeof FeedPacket →
  mcast_recv (Some (mcast_send pkt)) out = (true, encode pkt).
Proof.
  intros Hwf Hl. unfold mcast_recv, os_recv, mcast_send. pose proof (length_encode _ Hwf) as He.
  rewrite take_ge by lia. rewrite He, drop_ge, app_nil_r by lia. by rewrite Z.eqb_refl.
Qed.

(** The transport is lossless on well-formed traffic: draining a socket on which
    packets were sent yields exactly those packets, in order, and leaves the queue
    empty. *)
Theorem mcast_drain_roundtrip pkts out :
  Forall wf pkts → length out = sizeof FeedPacket →
  drain_line (mcast_send <$> pkts) out = (pkts, []).
Proof.
  intros Hwf. revert out. induction Hwf as [|p pkts Hp Hwf IH]; intros out Hl; [done|].
  cbn [fmap list_fmap drain_line]. rewrite mcast_recv_send by done.
  rewrite IH by apply (length_encode _ Hp). f_equal. f_equal.
  rewrite <- (app_nil_r (encode p)). by apply decode_encode_app.
Qed.

(** A datagram longer than a packet is cut to size and accepted. *)
Lemma oversized_datagram_accepted pkt junk out :
  wf pkt → length out = sizeof FeedPacket →
  mcast_recv (Some (mcast_send pkt ++ junk)) out = (true, encode pkt).
Proof.
  intros Hwf Hl. unfold mcast_recv, os_recv, mcast_send. pose proof (length_encode _ Hwf) as He.
  rewrite <- He, take_app_length, He, drop_ge, app_nil_r by lia. by rewrite Z.eqb_refl.
Qed.

(** When an option of a created socket is refused, the constructor throws and the
    descriptor stays open: the destructor of a partly constructed object is not run. *)
Lemma refused_membership_leaks fd fds :
  0 <= fd →
  McastReceiver_ctor (mkSocketApi fd true true false true true) fds =
    (inl "IP_ADD_MEMBERSHIP"%string, fd :: fds).
Proof. intros Hfd. unfold McastReceiver_ctor. cbn. by destruct (Z.ltb_spec fd 0); [lia|]. Qed.

(** ** The publisher's loop *)

Section Loop.
Context (unit : Z → double) (drop_a drop_b : double) (send_ok : Line → Z → bool).

(** The packets of line [l] so far: each carries the published message of its
    sequence. *)
Definition line_ok (l : Line) (n : Z) (pkts : list FeedPacket) : Prop :=
  Forall (λ p, 0 <= fp_seq p < n ∧
    p = mkFeedPacket (fp_seq p) (Line_u8 l) (replicate 7 Init.Byte.x00) (published_record unit (fp_seq p))) pkts.

Record pub_inv (n : Z) (p : Publisher) : Prop := {
  pi_px : pb_px p = px_at unit (Z.to_nat n);
  pi_seq : pb_sym_seq p = (λ i, (n + 3 - i) / 4) <$> [0; 1; 2; 3];
  pi_a : line_ok LineA n (line_a p);
  pi_b : line_ok LineB n (line_b p);
  pi_sent_a : sent_a p = u64 (Z.of_nat (length (line_a p)));
  pi_sent_b : sent_b p = u64 (Z.of_nat (length (line_b p)))
}.

Lemma px_at_succ n : 0 <= n → px_at unit (Z.to_nat (n + 1)) = spec_px unit (px_at unit (Z.to_nat n)) n.
Proof.
  intros Hn. unfold px_at. rewrite !Z2Nat.id by lia. rewrite seqZ_app by lia.
  rewrite foldl_app. replace (0 + n) with n by lia. done.
Qed.

Lemma line_ok_mono l n n' pkts : n <= n' → line_ok l n pkts → line_ok l n' pkts.
Proof.
  intros Hle H. eapply Forall_impl; [exact H|]. intros p [? ?]. split; [lia|done].
Qed.

Lemma sent_count (b : bool) (sent : Z) (pkts : list FeedPacket) pkt :
  sent = u64 (Z.of_nat (length pkts)) →
  (if b then sent +u 1 else sent) =
    u64 (Z.of_nat (length (if b then pkts ++ [pkt] else pkts))).
Proof.
  intros ->. destruct b; [|done]. unfold u64_add. rewrite u64_add_u64_l, length_app. f_equal.
  cbn [length]. lia.
Qed.

Lemma sym_seq_succ n :
  0 <= n < 2 ^ 63 →
  <[Z.to_nat (n mod 4) := (n / 4) +u 1]> ((λ i, (n + 3 - i) / 4) <$> [0; 1; 2; 3]) =
  (λ i, (n + 1 + 3 - i) / 4) <$> [0; 1; 2; 3].
Proof.
  intros Hn. assert (Hq : 0 <= n / 4 < 2 ^ 62) by (Z.div_mod_to_equations; lia).
  rewrite u64_add_small by lia.
  assert (Hr : n mod 4 = 0 ∨ n mod 4 = 1 ∨ n mod 4 = 2 ∨ n mod 4 = 3)
    by (Z.div_mod_to_equations; lia).
  assert (He : ∀ x y : Z, x = y → ∀ l l' : list Z, l = l' → x :: l = y :: l') by congruence.
  destruct Hr as [Hr|[Hr|[Hr|Hr]]]; rewrite Hr; cbn [fmap list_fmap Z.to_nat Pos.to_nat Pos.iter_op
    Nat.add insert list_insert]; repeat apply He; try done.
  all: clear Hn Hq He; Z.div_mod_to_equations; lia.
Qed.

Lemma sym_seq_at n :
  0 <= n → ((λ i, (n + 3 - i) / 4) <$> [0; 1; 2; 3]) !! Z.to_nat (n mod 4) = Some (n / 4).
Proof.
  intros Hn. assert (Hr : n mod 4 = 0 ∨ n mod 4 = 1 ∨ n mod 4 = 2 ∨ n mod 4 = 3)
    by (Z.div_mod_to_equations; lia).
  destruct Hr as [Hr|[Hr|[Hr|Hr]]]; rewrite Hr; cbn [fmap list_fmap Z.to_nat Pos.to_nat Pos.iter_op
    Nat.add lookup list_lookup]; apply (f_equal Some); Z.div_mod_to_equations; lia.
Qed.

Lemma publish_one_inv n p :
  0 <= n < 2 ^ 63 → pub_inv n p → pub_inv (n + 1) (publish_one unit drop_a drop_b send_ok n p).
Proof.
  intros Hn [Hpx Hseq Ha Hb Hsa Hsb]. unfold publish_one. unfold kSyms. rewrite Hpx, Hseq.
  rewrite sym_seq_at by lia. cbn [default id].
  assert (Hq : n / 4 +u 1 = n / 4 + 1) by (apply u64_add_small; Z.div_mod_to_equations; lia).
  set (rec := wrap_trade _).
  assert (Hrec : rec = published_record unit n).
  { subst rec. unfold published_record, published_trade, kSyms. by rewrite Hq. }
  assert (Hone : ∀ l pkts (b : bool), line_ok l n pkts → line_ok l (n + 1)
    (if b then pkts ++ [mkFeedPacket n (Line_u8 l) (replicate 7 Init.Byte.x00) rec] else pkts)).
  { intros l pkts b Hl. apply (line_ok_mono _ _ (n + 1)) in Hl; [|lia]. destruct b; [|done].
    apply Forall_app. split; [done|]. constructor; [|constructor]. cbn [fp_seq].
    split; [lia|]. by rewrite Hrec. }
  split; cbn [pb_px pb_sym_seq line_a line_b sent_a sent_b].
  - by rewrite px_at_succ by lia.
  - by apply sym_seq_succ.
  - by apply Hone.
  - by apply Hone.
  - by apply sent_count.
  - by apply sent_count.
Qed.

Lemma publish_loop_inv k n p :
  0 <= n → n + Z.of_nat k < 2 ^ 63 → pub_inv n p →
  pub_inv (n + Z.of_nat k) (publish_loop unit drop_a drop_b send_ok k n p).
Proof.
  revert n p. induction k as [|k IH]; intros n p Hn Hk Hp; cbn [publish_loop].
  { by rewrite Z.add_0_r. }
  replace (n + Z.of_nat (S k)) with (n + 1 + Z.of_nat k) by lia.
  apply IH; [lia|lia|]. apply publish_one_inv; [lia|done].
Qed.

Lemma publisher_inv count :
  Z.of_nat count < 2 ^ 63 →
  pub_inv (Z.of_nat count) (publisher_main unit drop_a drop_b send_ok count).
Proof.
  intros Hc. apply (publish_loop_inv count 0 publisher_init); [lia|lia|].
  split; cbn; try done; constructor.
Qed.

End Loop.

(** ** Timestamps that do not go back *)

Fixpoint ts_sorted (from : Z) (ms : list Msg) : Prop :=
  match ms with [] => True | m :: ms' => from <= msg_ts m ∧ ts_sorted (msg_ts m) ms' end.

Definition ts_below (b : Z) (st : gmap Z Slot) : Prop :=
  ∀ k s str, st !! k = Some s → last_ts_get str (last_ts s) <= b.

Lemma sorted_no_regression ms st b :
  0 <= b → ts_below b st → ts_sorted b ms →
  Forall (λ r, has r kTimestampRegression = false) (spec_check_all ms st).1.
Proof.
  revert st b. induction ms as [|m ms IH]; intros st b Hb Hst Hs; [constructor|].
  destruct Hs as [Hm Hs]. rewrite spec_check_all_cons. unfold spec_check.
  set (s := default (fresh_slot (msg_key m)) (st !! msg_key m)).
  assert (Hlast : ∀ str, last_ts_get str (last_ts s) <= b).
  { intros str. subst s. destruct (st !! msg_key m) as [s|] eqn:E; cbn; [by eapply Hst|].
    by destruct str. }
  destruct (check_slot_seq_flags m s) as [_ Hf]. pose proof (check_slot_last_ts m s) as Ht.
  destruct (check_slot m s) as [s' r]. cbn [fst snd] in *. constructor.
  - rewrite Hf. specialize (Hlast (msg_stream m)).
    destruct (Z.ltb_spec (msg_ts m) (last_ts_get (msg_stream m) (last_ts s))); [lia|].
    apply andb_false_r.
  - apply (IH _ (msg_ts m)); [lia| |done]. intros k s1 str.
    destruct (decide (k = msg_key m)) as [->|Hk].
    + rewrite lookup_insert_eq. intros [= <-]. rewrite Ht. specialize (Hlast str).
      destruct str, (msg_stream m); cbn in *; lia.
    + rewrite lookup_insert_ne by done. intros H%(Hst _ _ str). lia.
Qed.

(** ** The published stream is sequenced *)

Section Stream.
Context (unit : Z → double).

(** Message [k] as a record of the live path: the adapters build the same trade. *)
Definition published_live (k : Z) : LiveRec :=
  let t := published_trade unit k in
  LTrade (mkJTrade (default [] (names !! Z.to_nat (k mod kSyms))) (wt_ts_ns t) (wt_trade_id t)
            (wt_price t) (wt_size t) (bs "V") (bs "A")).

Lemma published_live_msg k :
  stamped_msg (published_live k, k / kSyms + 1) = MTrade (published_trade unit k).
Proof. done. Qed.

Lemma name_cases k :
  0 <= k → ∃ i, 0 <= i < 4 ∧ k mod kSyms = i ∧ names !! Z.to_nat i = Some (live_symbol (published_live k)).
Proof.
  intros Hk. exists (k mod 4). pose proof (Z.mod_pos_bound k 4 ltac:(lia)) as Hr.
  split; [done|]. split; [done|]. unfold published_live, kSyms. cbn [live_symbol jt_symbol].
  assert (k mod 4 = 0 ∨ k mod 4 = 1 ∨ k mod 4 = 2 ∨ k mod 4 = 3) as [E|[E|[E|E]]] by lia;
    rewrite E; done.
Qed.

Lemma names_ticker nm : nm ∈ names → ticker nm.
Proof.
  assert (Hall : Forall ticker names).
  { repeat (apply Forall_cons_2; [split; [discriminate|split; [cbn; lia|]]|]); [..|constructor];
      repeat (apply Forall_cons_2; [discriminate|]); constructor. }
  rewrite Forall_forall in Hall. auto.
Qed.

Lemma names_inj i j nm :
  names !! i = Some nm → names !! j = Some nm → i = j.
Proof.
  apply (NoDup_lookup names). apply (bool_decide_unpack (NoDup names)). vm_compute. exact I.
Qed.

(** The symbol counters of the live path reproduce the publisher's. *)
Lemma stamp_published n k ns :
  0 <= k → k + Z.of_nat n < 2 ^ 63 →
  (∀ i nm, 0 <= i < 4 → names !! Z.to_nat i = Some nm → default 0 (ns !! nm) = (k + 3 - i) / 4) →
  stamp (published_live <$> seqZ k (Z.of_nat n)) ns =
  (λ k, (published_live k, k / kSyms + 1)) <$> seqZ k (Z.of_nat n).
Proof.
  revert k ns. induction n as [|n IH]; intros k ns Hk Hn Hns; [done|].
  rewrite seqZ_cons by lia. rewrite !fmap_cons. cbn [stamp].
  destruct (name_cases k Hk) as (i&Hi&Hmod&Hname).
  assert (Hne : live_symbol (published_live k) ≠ []).
  { apply names_ticker. by eapply list_elem_of_lookup_2. }
  rewrite bool_decide_eq_false_2 by done. rewrite (Hns i _ Hi Hname).
  assert (Hseq : (k + 3 - i) / 4 +u 1 = k / kSyms + 1).
  { unfold kSyms in *. rewrite u64_add_small; Z.div_mod_to_equations; lia. }
  rewrite Hseq. f_equal. replace (Z.pred (Z.of_nat (S n))) with (Z.of_nat n) by lia.
  replace (Z.succ k) with (k + 1) by lia. apply IH; [lia|lia|].
  intros j nm Hj Hnm. destruct (decide (i = j)) as [->|Hij].
  - assert (nm = live_symbol (published_live k)) as -> by congruence.
    rewrite lookup_insert_eq. cbn [default id]. unfold kSyms in *. Z.div_mod_to_equations; lia.
  - rewrite lookup_insert_ne.
    + rewrite (Hns j nm Hj Hnm). unfold kSyms in *. Z.div_mod_to_equations; lia.
    + intros <-. apply Hij. pose proof (names_inj _ _ _ Hname Hnm). lia.
Qed.

Definition published_msgs (count : nat) : list Msg :=
  (λ k, MTrade (published_trade unit k)) <$> seqZ 0 (Z.of_nat count).

Lemma published_msgs_stamped count :
  Z.of_nat count < 2 ^ 63 →
  published_msgs count =
  stamped_msg <$> stamp (published_live <$> seqZ 0 (Z.of_nat count)) ∅.
Proof.
  intros Hc. rewrite stamp_published; [|lia|lia|].
  - rewrite <- list_fmap_compose. done.
  - intros i nm Hi _. rewrite lookup_empty. cbn. Z.div_mod_to_equations; lia.
Qed.

Lemma published_ts k : 0 <= k < 2 ^ 53 → wt_ts_ns (published_trade unit k) = base_ns + k * 1000.
Proof.
  intros Hk. cbn [published_trade publish_trade wt_ts_ns]. unfold u64_mul, base_ns.
  rewrite (u64_small (k * 1000)) by (unfold is_u64; lia). apply u64_add_small. lia.
Qed.

Lemma published_ts_sorted n k b :
  0 <= k → k + Z.of_nat n <= 2 ^ 53 → b <= base_ns + k * 1000 →
  ts_sorted b ((λ k, MTrade (published_trade unit k)) <$> seqZ k (Z.of_nat n)).
Proof.
  revert k b. induction n as [|n IH]; intros k b Hk Hn Hb; [done|].
  rewrite seqZ_cons by lia. rewrite fmap_cons. cbn [ts_sorted msg_ts].
  rewrite published_ts by lia. split; [done|].
  replace (Z.pred (Z.of_nat (S n))) with (Z.of_nat n) by lia.
  replace (Z.succ k) with (k + 1) by lia. apply IH; lia.
Qed.

Lemma published_keys count :
  Z.of_nat count < 2 ^ 63 → (size (keys (published_msgs count)) <= Z.to_nat kCapacity)%nat.
Proof.
  intros Hc. transitivity (size (list_to_set (symbol_key ∘ set_symbol <$> names) : gset Z)).
  - apply subseteq_size. unfold keys, published_msgs. intros x.
    rewrite !elem_of_list_to_set, !list_elem_of_fmap. intros (m&->&Hm).
    apply list_elem_of_fmap in Hm as (k&->&Hk). apply elem_of_seqZ in Hk.
    destruct (name_cases k) as (i&_&_&Hname); [lia|].
    exists (live_symbol (published_live k)). split; [done|]. by eapply list_elem_of_lookup_2.
  - apply Nat.leb_le. vm_compute. reflexivity.
Qed.

Lemma published_trade_wf k :
  0 <= k < 2 ^ 53 → valid (wt_price (published_trade unit k)) → wf (published_trade unit k).
Proof.
  intros Hk Hv. split; cbn; try done; try apply length_set_symbol; try apply u64_is; unfold is_u64, kSyms;
    Z.div_mod_to_equations; lia.
Qed.

(** The handler decodes the message that was published. *)
Lemma sink_published k :
  0 <= k < 2 ^ 53 → valid (wt_price (published_trade unit k)) →
  dispatch_sink (published_record unit k) = Some (MTrade (published_trade unit k)).
Proof.
  intros Hk Hv. pose proof (published_trade_wf k Hk Hv) as Hwf.
  unfold dispatch_sink, published_record, wrap_trade, wrap_body. cbn [wr_type RecordType_u8 Z.eqb].
  unfold body_trade. cbn [wr_body]. by rewrite decode_encode_app.
Qed.

Lemma validated_published count :
  Z.of_nat count <= 2 ^ 53 →
  (∀ k, 0 <= k < Z.of_nat count → valid (wt_price (published_trade unit k))) →
  validated (published_record unit <$> seqZ 0 (Z.of_nat count)) = published_msgs count.
Proof.
  intros Hc Hv. unfold validated, published_msgs.
  assert (Hl : ∀ l, Forall (λ k, 0 <= k < Z.of_nat count) l →
    omap dispatch_sink (published_record unit <$> l) = (λ k, MTrade (published_trade unit k)) <$> l).
  { induction 1 as [|k l Hk Hl IH]; [done|]. rewrite !fmap_cons. cbn [omap list_omap].
    rewrite sink_published by (auto; lia). by f_equal. }
  apply Hl, Forall_forall. intros k Hk. apply elem_of_seqZ in Hk. lia.
Qed.

Definition sequencing_clean (r : Result) : Prop :=
  no_gap r ∧ has r kTimestampRegression = false.

Lemma published_clean count :
  Z.of_nat count <= 2 ^ 53 →
  Forall sequencing_clean (check_all (published_msgs count) validator_init).1.
Proof.
  intros Hc. destruct (check_all_spec (published_msgs count)) as [-> _]; [apply published_keys; lia|].
  apply Forall_and. split.
  - rewrite published_msgs_stamped by lia. apply stamped_no_gap.
    + apply Forall_fmap, Forall_forall. intros k Hk. apply elem_of_seqZ in Hk. right. cbn.
      destruct (name_cases k) as (i&_&_&Hname); [lia|]. apply names_ticker.
      by eapply list_elem_of_lookup_2.
    + intros sym s _ H. by rewrite lookup_empty in H.
  - apply (sorted_no_regression _ _ 0); [lia| |].
    + intros k s str H. by rewrite lookup_empty in H.
    + unfold published_msgs. apply published_ts_sorted; [lia|lia|unfold base_ns; lia].
Qed.

End Stream.

(** ** The properties *)

(** From the publisher to the report: for any random walk, loss pattern and
    failing [sendto], if the packets that were sent reach the handler in any order
    with a skew below the window, and every sequence got through on at least one
    line, then the handler finds no gap, validates exactly the published trades in
    order and reports their violations; none of them is a sequence gap or a
    timestamp regression. *)
Lemma publisher_to_handler unit drop_a drop_b send_ok count iters :
  let p := publisher_main unit drop_a drop_b send_ok count in
  0 < Z.of_nat count <= 2 ^ 53 →
  (∀ k, 0 <= k < Z.of_nat count → valid (wt_price (published_trade unit k))) →
  Forall (λ pkt, pkt ∈ line_a p ++ line_b p) (drains iters) →
  fp_seq <$> head (drains iters) = Some 0 →
  bounded_skew handler_window 0 [] (drains iters) →
  (∀ k, 0 <= k < Z.of_nat count → k ∈ (fp_seq <$> drains iters)) →
  let rs := (check_all (published_msgs unit count) validator_init).1 in
  ∃ h, handler_main iters = Some h ∧ st_gaps (stats_ (h_arb h)) = 0 ∧
    st_delivered (stats_ (h_arb h)) = Z.of_nat count ∧
    length rs = count ∧ h_violations h = u64 (countb flagged rs) ∧ Forall sequencing_clean rs.
Proof.
  intros p Hc Hvalid Hsent Hhd Hskew Hall rs.
  destruct (publisher_inv unit drop_a drop_b send_ok count ltac:(lia)) as [_ _ Ha Hb _ _].
  fold p in Ha, Hb.
  assert (Hok : Forall (λ pkt, 0 <= fp_seq pkt < Z.of_nat count ∧
            fp_record pkt = published_record unit (fp_seq pkt)) (drains iters)).
  { eapply Forall_impl; [exact Hsent|]. intros pkt [Hin|Hin]%elem_of_app;
      [unfold line_ok in Ha; rewrite Forall_forall in Ha; destruct (Ha pkt Hin) as [Hr He]
      |unfold line_ok in Hb; rewrite Forall_forall in Hb; destruct (Hb pkt Hin) as [Hr He]];
      (split; [done|]); by rewrite He at 1. }
  destruct (handler_complete iters (published_record unit) 0 (Z.of_nat count))
    as (h&Hh&Hg&Hd&Hv); [| done | done | done | | |].
  - eapply Forall_impl; [exact Hok|]. intros pkt [? _]. lia.
  - eapply Forall_impl; [exact Hok|]. by intros pkt [[_ ?] _].
  - eapply Forall_impl; [exact Hok|]. by intros pkt [_ ?].
  - exists h. split; [done|]. split; [done|]. split.
    { rewrite Hd, Z.sub_0_r. apply u64_small. unfold is_u64. lia. }
    assert (Hms : validated (published_record unit <$> seqZ 0 (Z.of_nat count - 0)) =
                  published_msgs unit count).
    { rewrite Z.sub_0_r. apply validated_published; [lia|done]. }
    rewrite Hms in Hv. split; [|split; [done|apply published_clean; lia]].
    unfold rs. rewrite check_all_length. unfold published_msgs.
    rewrite length_fmap, length_seqZ. lia.
Qed.

Lemma mcast_drain_roundtrip_witness :
  drain_line (mcast_send <$> [on_line LineA 10; on_line LineB 11]) (encode (on_line LineA 0)) =
  ([on_line LineA 10; on_line LineB 11], []).
Proof.
  apply (mcast_drain_roundtrip [on_line LineA 10; on_line LineB 11]); [|vm_compute; reflexivity].
  repeat constructor; vm_compute; try reflexivity; discriminate.
Defined.
