(* ===== verification/FeedMain.v ===== *)
(** * feed_handler and feed_publisher: the whole programs

    Models the [main] functions of [src/src/bin/feed_handler.cpp] and
    [src/src/bin/feed_publisher.cpp]: command line, sockets, the handler's loop on raw
    datagrams with its idle timeouts, and what is printed.  The socket calls, the
    datagrams that arrive and the clock are inputs.  The number parser [atof] is that of
    the C library for decimal numbers; infinities, NaNs and hexadecimal numbers are left
    to the parameter [other]. *)

From stdpp Require Import base numbers list strings.
From Stdlib Require Import ZArith Lia Floats.SpecFloat.
From S2P Require Import Prelude Float64 Runtime Wire Replay Arbitrator ArbitratorProofs Validator Harness Publisher.

Local Open Scope Z_scope.

(** ** [std::atof] *)

(** The leading digits: their value after [acc], their number, and the rest. *)
Fixpoint take_digits (s : list byte) (acc : Z) : Z * Z * list byte :=
  match s with
  | b :: s' =>
      match digit_val b with
      | Some d => let '(v, n, r) := take_digits s' (acc * 10 + d) in (v, n + 1, r)
      | None => (acc, 0, s)
      end
  | [] => (acc, 0, [])
  end.

(** [e] or [E] with digits behind it; otherwise there is no exponent. *)
Definition exponent (s : list byte) : Z :=
  match s with
  | b :: s' =>
      if (Z_of_byte b =? 101) || (Z_of_byte b =? 69) then
        let '(neg, r) := split_sign s' in
        let e := digits_val r 0 in if neg then - e else e
      else 0
  | [] => 0
  end.

(** [m * 10^e], correctly rounded. *)
Definition decimal_double (neg : bool) (m e : Z) : double :=
  match m with
  | Zpos p =>
      if 0 <=? e then binary_normalize 53 1024 (if neg then - (m * 10 ^ e) else m * 10 ^ e) 0 neg
      else
        let '(mz, ez, lz) := SFdiv_core_binary 53 1024 m 0 (10 ^ (- e)) 0 in
        binary_round_aux 53 1024 neg mz ez lz
  | _ => S754_zero neg
  end.

Definition is_x (b : byte) : bool := (Z_of_byte b =? 120) || (Z_of_byte b =? 88).

Definition atof (other : list byte → double) (s : list byte) : double :=
  let '(neg, s1) := split_sign (skip_spaces s) in
  let '(m1, n1, r1) := take_digits s1 0 in
  match r1 with
  | b :: r =>
      if is_x b && (m1 =? 0) && (n1 =? 1) then other s
      else if Z_of_byte b =? 46 then
        let '(m, n2, r2) := take_digits r m1 in
        if n1 + n2 =? 0 then other s else decimal_double neg m (exponent r2 - n2)
      else if n1 =? 0 then other s else decimal_double neg m1 (exponent r1)
  | [] => if n1 =? 0 then other s else decimal_double neg m1 0
  end.

(** ** feed_publisher *)

Definition group_a : list byte := bs "239.255.0.10".
Definition group_b : list byte := bs "239.255.0.11".
Definition port_a : Z := 34010.
Definition port_b : Z := 34011.

Definition drop_rate (other : list byte → double) (argv : list (list byte)) (i : nat) : double :=
  fdiv (arg argv i (atof other) (double_of_Z 2)) (double_of_Z 100).

Definition publishing (count : Z) (drop_a drop_b : double) : Print :=
  printf "publishing %llu packets  A=%s:%u  B=%s:%u  (drop A=%.1f%% B=%.1f%%)\n"
    [AU count; AS group_a; AU port_a; AS group_b; AU port_b;
     AF (fmul drop_a (double_of_Z 100)); AF (fmul drop_b (double_of_Z 100))].

Definition sent (p : Publisher) (count : Z) : Print :=
  printf "sent A=%llu B=%llu of %llu sequences\n" [AU (sent_a p); AU (sent_b p); AU count].

(** [main]: how it ends and what was sent on the two lines. *)
Definition publisher_program (other : list byte → double) (api_a api_b : SocketApi)
    (unit : Z → double) (send_ok : Line → Z → bool) (argv : list (list byte))
    : ProgResult * option Publisher :=
  let count := arg argv 1 strtoull 8000 in
  let drop_a := drop_rate other argv 2 in
  let drop_b := drop_rate other argv 3 in
  match McastSender_ctor api_a [] with
  | (inl what, _) => (Terminates what, None)
  | (inr _, fds) =>
      match McastSender_ctor api_b fds with
      | (inl what, _) => (Terminates what, None)
      | (inr _, _) =>
          let p := publisher_main unit drop_a drop_b send_ok (Z.to_nat count) in
          (Returns 0 [publishing count drop_a drop_b; sent p count], Some p)
      end
  end.

(** ** feed_handler *)

(** The requests of [set_nonblocking_with_big_buffer], whose outcome the code ignores;
    [o_nonblock] is the platform's flag, [flags] what [F_GETFL] returns. *)
Inductive SocketRequest := SetFlags (fd flags : Z) | SetReceiveBuffer (fd bytes : Z).

Definition set_nonblocking_with_big_buffer (o_nonblock flags fd : Z) : list SocketRequest :=
  [SetFlags fd (Z.lor flags o_nonblock); SetReceiveBuffer fd (8 * 1024 * 1024)].

(** Nanoseconds of the steady clock. *)
Definition kEndOfStream : Z := 800 * 1000000.
Definition kStartupWait : Z := 10 * 1000000000.

(** One iteration as the outside world makes it: the datagrams that arrive on each line
    before its drain ends, and the one clock reading the iteration takes. *)
Record Event := mkEvent { ev_a : list (list byte); ev_b : list (list byte); ev_now : Z }.

Record HLoop := mkHLoop {
  hl_handler : Handler;
  hl_qa : list (list byte);
  hl_qb : list (list byte);
  hl_seen : bool;
  hl_last : Z
}.

Definition is_nil {A} (l : list A) : bool := match l with [] => true | _ => false end.

(** [seen ? idle > kEndOfStream : idle > kStartupWait] *)
Definition idle_limit (seen : bool) : Z := if seen then kEndOfStream else kStartupWait.

(** One iteration; the flag is the [break].  [pkt] is the packet's storage, which
    [recv] overwrites before it is used. *)
Definition handler_iter (pkt : list byte) (e : Event) (s : HLoop) : option (bool * HLoop) :=
  let '(pa, qa) := drain_line (hl_qa s ++ ev_a e) pkt in
  h1 ← handler_ops handler_window (Offer <$> pa) (hl_handler s);
  let '(pb, qb) := drain_line (hl_qb s ++ ev_b e) pkt in
  h2 ← handler_ops handler_window (Offer <$> pb) h1;
  let got := negb (is_nil pa) || negb (is_nil pb) in
  if got then Some (false, mkHLoop h2 qa qb true (ev_now e))
  else
    let idle := ev_now e - hl_last s in
    Some (idle_limit (hl_seen s) <? idle, mkHLoop h2 qa qb (hl_seen s) (hl_last s)).

Section Loop.
Context (pkt : list byte) (ev : nat → Event).

(** The loop from iteration [i]: [None] while it runs. *)
Fixpoint handler_loop (fuel i : nat) (s : HLoop) : option HLoop :=
  match fuel with
  | O => None
  | S f =>
      '(stop, s1) ← handler_iter pkt (ev i) s;
      if (stop : bool) then Some s1 else handler_loop f (S i) s1
  end.

Definition listening : Print :=
  printf "feed_handler listening on A=239.255.0.10:34010 B=239.255.0.11:34011\n" [].

Definition handler_report (delivered dup_a dup_b gaps max_reorder violations : Z) : list Print :=
  [printf "\n=== arbitration ===\n" [];
   printf "  delivered (in order) : %llu\n" [AU delivered];
   printf "  duplicates  A / B    : %llu / %llu  (redundant copies dropped)\n" [AU dup_a; AU dup_b];
   printf "  gaps (lost on both)  : %llu\n" [AU gaps];
   printf "  max reorder depth    : %llu  (size the window above this)\n" [AU max_reorder];
   printf "=== validation of the reconstructed stream ===\n" [];
   printf "  violations           : %llu\n" [AU violations]].

Definition report_of (h : Handler) : list Print :=
  let s := stats_ (h_arb h) in
  handler_report (st_delivered s) (st_duplicates s).1 (st_duplicates s).2 (st_gaps s) (st_max_reorder s) (h_violations h).

(** [main]: the sockets, the loop from the first clock reading [start], the flush and
    the report. *)
Definition handler_program (api_a api_b : SocketApi) (start : Z) (fuel : nat) : option ProgResult :=
  match McastReceiver_ctor api_a [] with
  | (inl what, _) => Some (Terminates what)
  | (inr _, fds) =>
      match McastReceiver_ctor api_b fds with
      | (inl what, _) => Some (Terminates what)
      | (inr _, _) =>
          s ← handler_loop fuel 0 (mkHLoop handler_init [] [] false start);
          h ← handler_op handler_window Flush (hl_handler s);
          Some (Returns 0 (listening :: report_of h))
      end
  end.

End Loop.

(** ** Examples *)

Definition no_number (_ : list byte) : double := S754_nan.

Example atof_half : atof no_number (bs " 2.5") = lit 5 2.
Proof. vm_compute. reflexivity. Qed.

Example atof_tenth : atof no_number (bs "0.1") = lit 1 10.
Proof. vm_compute. reflexivity. Qed.

Example atof_exponent : atof no_number (bs "-25e-1x") = lit (-5) 2.
Proof. vm_compute. reflexivity. Qed.
