(* ===== verification/FeedMainProofs.v ===== *)
(** * The feed programs: termination and the report end to end

    The handler's loop ends once the lines are silent, whatever datagrams it was sent;
    and from the publisher's command line to the handler's printed report nothing is
    lost that arrived on at least one line. *)

From stdpp Require Import base numbers list list_numbers gmap strings.
From Stdlib Require Import ZArith Lia.
From S2P Require Import Prelude Float64 Runtime Wire Replay Validator ValidatorTable ValidatorProps.
From S2P Require Import Ingest LiveIngest LiveIngestProps.
From S2P Require Import Arbitrator ArbitratorProofs ArbitratorSessions Util Harness HarnessProofs.
From S2P Require Import Publisher PublisherProofs FeedMain.

Local Open Scope Z_scope.

(** ** Draining arbitrary datagrams *)

(** No packet of the queue has the last sequence number. *)
Definition seq_ok (d : list byte) : Prop := fp_seq (decode (A:=FeedPacket) d) < 2 ^ 64 - 1.

Lemma mcast_recv_full d out :
  length out = sizeof FeedPacket → (mcast_recv (Some d) out).1 = true →
  (mcast_recv (Some d) out).2 = take (sizeof FeedPacket) d ∧ length (take (sizeof FeedPacket) d) = sizeof FeedPacket.
Proof.
  intros Ho. unfold mcast_recv, os_recv. cbn [fst snd]. intros H%Z.eqb_eq.
  assert (Hl : length (take (sizeof FeedPacket) d) = sizeof FeedPacket) by lia.
  split; [|done]. rewrite drop_ge by lia. apply app_nil_r.
Qed.

Lemma drain_line_ok q out :
  length out = sizeof FeedPacket → Forall (λ d, seq_ok (take (sizeof FeedPacket) d)) q →
  let '(pkts, rest) := drain_line q out in
  Forall op_ok (Offer <$> pkts) ∧ Forall (λ d, seq_ok (take (sizeof FeedPacket) d)) rest ∧
  (length rest <= length q - 1)%nat.
Proof.
  intros Ho Hq. revert out Ho. induction Hq as [|d q Hd Hq IH]; intros out Ho; [by cbn|].
  cbn [drain_line]. pose proof (mcast_recv_full d out Ho) as Hf.
  destruct (mcast_recv (Some d) out) as [ok out'] eqn:E. cbn [fst snd] in Hf.
  destruct ok; [|cbn [length]; rewrite Nat.sub_1_r; done].
  destruct (Hf eq_refl) as [-> Hl]. specialize (IH _ Hl). destruct (drain_line q _) as [pkts rest].
  destruct IH as (H1&H2&H3). split; [|split; [done|cbn [length]; lia]].
  rewrite fmap_cons. constructor; [|done]. cbn [op_ok]. split; [|exact Hd].
  assert (Hw : wf (decode (take (sizeof FeedPacket) d) : FeedPacket)) by (apply decode_wf; lia).
  apply Hw.
Qed.

(** ** The handler's operations never get stuck *)

Lemma handler_ops_app W l1 l2 h :
  handler_ops W (l1 ++ l2) h = h1 ← handler_ops W l1 h; handler_ops W l2 h1.
Proof.
  revert h. induction l1 as [|o l1 IH]; intros h; [done|]. cbn [app handler_ops].
  destruct (handler_op W o h); [|done]. cbn [mbind option_bind]. apply IH.
Qed.

Lemma handler_ops_total ops : Forall op_ok ops → ∃ h, handler_ops handler_window ops handler_init = Some h.
Proof.
  intros Hok. rewrite handler_ops_run by done. cbn [handler_init h_arb].
  destruct (init_rel handler_window eq_refl ltac:(unfold handler_window; lia)) as [R Hset].
  destruct (run_sim handler_window ops _ _ eq_refl ltac:(unfold handler_window; lia) R Hset Hok)
    as (s'&sp'&log&->&_). by eexists.
Qed.

(** The handler has run some operations since the start. *)
Definition reached (h : Handler) : Prop :=
  ∃ ops, Forall op_ok ops ∧ handler_ops handler_window ops handler_init = Some h.

Lemma reached_ops h ops : reached h → Forall op_ok ops → ∃ h', handler_ops handler_window ops h = Some h' ∧ reached h'.
Proof.
  intros (ops0&Hok0&H0) Hok. destruct (handler_ops_total (ops0 ++ ops)) as [h' Hh'].
  { by apply Forall_app. }
  assert (Hr : handler_ops handler_window ops h = Some h').
  { rewrite handler_ops_app, H0 in Hh'. exact Hh'. }
  exists h'. split; [done|]. exists (ops0 ++ ops). split; [by apply Forall_app|done].
Qed.

(** ** Termination *)

Section Termination.
Context (pkt : list byte) (ev : nat → Event).
Hypothesis Hpkt : length pkt = sizeof FeedPacket.
Hypothesis Hseq : ∀ i, Forall (λ d, seq_ok (take (sizeof FeedPacket) d)) (ev_a (ev i) ++ ev_b (ev i)).

Record loop_inv (s : HLoop) : Prop := {
  li_reached : reached (hl_handler s);
  li_qa : Forall (λ d, seq_ok (take (sizeof FeedPacket) d)) (hl_qa s);
  li_qb : Forall (λ d, seq_ok (take (sizeof FeedPacket) d)) (hl_qb s)
}.

Definition queued (s : HLoop) : nat := length (hl_qa s) + length (hl_qb s).

(** An iteration without arrivals: it stops, shortens the queues, or finds both empty
    and leaves everything but the clock as it was. *)
Lemma iter_step i s :
  loop_inv s →
  ∃ stop s', handler_iter pkt (ev i) s = Some (stop, s') ∧ loop_inv s' ∧
    (ev_a (ev i) = [] → ev_b (ev i) = [] →
     (queued s' < queued s)%nat ∨
     queued s = 0%nat ∧ s' = s ∧ stop = (idle_limit (hl_seen s) <? ev_now (ev i) - hl_last s)).
Proof using Hpkt Hseq.
  intros [Hr Ha Hb]. specialize (Hseq i). apply Forall_app in Hseq as [Hsa Hsb].
  unfold handler_iter.
  pose proof (drain_line_ok (hl_qa s ++ ev_a (ev i)) pkt Hpkt ltac:(by apply Forall_app)) as Da.
  pose proof (drain_line_ok (hl_qb s ++ ev_b (ev i)) pkt Hpkt ltac:(by apply Forall_app)) as Db.
  destruct (drain_line (hl_qa s ++ ev_a (ev i)) pkt) as [pa qa] eqn:Ea.
  destruct (drain_line (hl_qb s ++ ev_b (ev i)) pkt) as [pb qb] eqn:Eb.
  destruct Da as (Hoa&Hqa&Hla), Db as (Hob&Hqb&Hlb).
  destruct (reached_ops _ _ Hr Hoa) as (h1&H1&R1). rewrite H1. cbn [mbind option_bind].
  destruct (reached_ops _ _ R1 Hob) as (h2&H2&R2). rewrite H2. cbn [mbind option_bind].
  assert (Hless : ev_a (ev i) = [] → ev_b (ev i) = [] → queued s ≠ 0%nat →
    (length qa + length qb < queued s)%nat).
  { intros Hna Hnb Hne. rewrite Hna, app_nil_r in Hla. rewrite Hnb, app_nil_r in Hlb.
    unfold queued in *. lia. }
  assert (Hsame : ev_a (ev i) = [] → ev_b (ev i) = [] → queued s = 0%nat →
    pa = [] ∧ pb = [] ∧ mkHLoop h2 qa qb (hl_seen s) (hl_last s) = s).
  { intros Hna Hnb Hz. unfold queued in Hz. destruct s as [h [|] [|] seen last]; try (cbn in Hz; lia).
    cbn in *. rewrite Hna in Ea. rewrite Hnb in Eb. cbn in Ea, Eb. simplify_eq. cbn in H1, H2. by simplify_eq. }
  destruct (negb (is_nil pa) || negb (is_nil pb)) eqn:Hgot; eexists _, _; (split; [reflexivity|]).
  - split; [by split|]. intros Hna Hnb. left. apply Hless; [done|done|]. intros Hz.
    destruct (Hsame Hna Hnb Hz) as (->&->&_). done.
  - split; [by split|]. intros Hna Hnb. destruct (decide (queued s = 0%nat)) as [Hz|Hnz].
    + right. destruct (Hsame Hna Hnb Hz) as (_&_&->). done.
    + left. by apply Hless.
Qed.

Definition silent_from (n : nat) : Prop := ∀ i, (n <= i)%nat → ev_a (ev i) = [] ∧ ev_b (ev i) = [].

(** The clock passes every time. *)
Definition clock_passes : Prop := ∀ n t, ∃ i, (n <= i)%nat ∧ t < ev_now (ev i).

(** With both queues empty the loop waits for the clock. *)
Lemma idle_stops i j s :
  loop_inv s → silent_from i → queued s = 0%nat → (i <= j)%nat →
  idle_limit (hl_seen s) < ev_now (ev j) - hl_last s →
  ∃ fuel s', handler_loop pkt ev fuel i s = Some s' ∧ loop_inv s'.
Proof using Hpkt Hseq.
  intros I Hs Hz Hij Hlt. remember (j - i)%nat as d eqn:Hd. revert i Hs Hij Hd.
  induction d as [|d IH]; intros i Hs Hij Hd;
    destruct (Hs i (le_n i)) as [Ha Hb];
    destruct (iter_step i s I) as (stop&s'&He&I'&Hstep);
    destruct (Hstep Ha Hb) as [?|(_&->&->)]; try lia.
  - exists 1%nat, s. cbn [handler_loop]. rewrite He. cbn [mbind option_bind].
    assert (i = j) as -> by lia. apply Z.ltb_lt in Hlt. by rewrite Hlt.
  - destruct (idle_limit (hl_seen s) <? ev_now (ev i) - hl_last s) eqn:E.
    { exists 1%nat, s. cbn [handler_loop]. by rewrite He. }
    destruct (IH (S i)) as (f&s'&Hf&?); [intros k Hk; apply Hs; lia|lia|lia|].
    exists (S f), s'. cbn [handler_loop]. by rewrite He.
Qed.

Lemma silent_stops i s :
  loop_inv s → silent_from i → clock_passes →
  ∃ fuel s', handler_loop pkt ev fuel i s = Some s' ∧ loop_inv s'.
Proof using Hpkt Hseq.
  intros I Hs Hc. remember (queued s) as q eqn:Hq. revert i s I Hs Hq.
  induction (lt_wf q) as [q _ IH]. intros i s I Hs ->.
  destruct (Hs i (le_n i)) as [Ha Hb]. destruct (iter_step i s I) as (stop&s'&He&I'&Hstep).
  destruct (Hstep Ha Hb) as [Hlt|(Hz&->&->)].
  - destruct stop.
    { exists 1%nat, s'. cbn [handler_loop]. by rewrite He. }
    destruct (IH _ Hlt (S i) s' I') as (f&s2&Hf&?); [intros k Hk; apply Hs; lia|done|].
    exists (S f), s2. cbn [handler_loop]. by rewrite He.
  - destruct (Hc i (hl_last s + idle_limit (hl_seen s))) as (j&Hj&Ht).
    apply (idle_stops i j); [done|done|done|done|lia].
Qed.

(** ... from any iteration before the silence. *)
Lemma loop_stops n i s :
  loop_inv s → silent_from (n + i) → clock_passes →
  ∃ fuel s', handler_loop pkt ev fuel i s = Some s' ∧ loop_inv s'.
Proof using Hpkt Hseq.
  intros I Hs Hc. revert i s I Hs. induction n as [|n IH]; intros i s I Hs; [by apply silent_stops|].
  destruct (iter_step i s I) as (stop&s1&He&I1&_). destruct stop.
  { exists 1%nat, s1. cbn [handler_loop]. by rewrite He. }
  destruct (IH (S i) s1 I1) as (f&s2&Hf&?).
  { intros k Hk. apply Hs. lia. }
  exists (S f), s2. cbn [handler_loop]. by rewrite He.
Qed.

End Termination.

Lemma handler_loop_more pkt ev fuel fuel' i s s' :
  handler_loop pkt ev fuel i s = Some s' → (fuel <= fuel')%nat → handler_loop pkt ev fuel' i s = Some s'.
Proof.
  revert fuel' i s. induction fuel as [|f IH]; intros fuel' i s; [done|]. cbn [handler_loop].
  intros H Hle. destruct fuel' as [|f']; [lia|]. cbn [handler_loop].
  destruct (handler_iter pkt (ev i) s) as [[stop s1]|]; [|done]. cbn [mbind option_bind] in *.
  destruct stop; [done|]. apply IH; [done|lia].
Qed.

(** ** A session of published packets *)

Section Session.
Context (pkt : list byte) (ev : nat → Event).
Hypothesis Hpkt : length pkt = sizeof FeedPacket.

(** What arrives in iteration [i + j] are the datagrams of the [j]-th pair of batches. *)
Definition delivers (i : nat) (iters : list (list FeedPacket * list FeedPacket)) : Prop :=
  ∀ j ab, iters !! j = Some ab →
    ev_a (ev (i + j)) = mcast_send <$> ab.1 ∧ ev_b (ev (i + j)) = mcast_send <$> ab.2.

(** No pause between the batches reaches the limit. *)
Fixpoint no_timeout (i : nat) (seen : bool) (last : Z)
    (iters : list (list FeedPacket * list FeedPacket)) : Prop :=
  match iters with
  | [] => True
  | ab :: iters' =>
      if is_nil (ab.1 ++ ab.2)
      then ev_now (ev i) - last <= idle_limit seen ∧ no_timeout (S i) seen last iters'
      else no_timeout (S i) true (ev_now (ev i)) iters'
  end.

Lemma is_nil_app {A} (l1 l2 : list A) : negb (is_nil l1) || negb (is_nil l2) = negb (is_nil (l1 ++ l2)).
Proof using. by destruct l1, l2. Qed.

Lemma session_run iters i h h' seen last :
  delivers i iters → Forall wf (drains iters) → no_timeout i seen last iters →
  handler_ops handler_window (Offer <$> drains iters) h = Some h' →
  ∃ seen' last', ∀ f, handler_loop pkt ev (length iters + f) i (mkHLoop h [] [] seen last) =
    handler_loop pkt ev f (length iters + i) (mkHLoop h' [] [] seen' last').
Proof using Hpkt.
  revert i h seen last. induction iters as [|[a b] iters IH]; intros i h seen last Hd Hwf Hnt Hh.
  { cbn in Hh. simplify_eq. by exists seen, last. }
  change (drains ((a, b) :: iters)) with ((a ++ b) ++ drains iters) in *.
  apply Forall_app in Hwf as [[Hwa Hwb]%Forall_app Hwf].
  destruct (Hd 0%nat (a, b) eq_refl) as [Ha Hb]. rewrite Nat.add_0_r in Ha, Hb. cbn [fst snd] in Ha, Hb.
  rewrite !fmap_app, !handler_ops_app in Hh.
  destruct (handler_ops handler_window (Offer <$> a) h) as [h1|] eqn:H1; [|done].
  cbn [mbind option_bind] in Hh.
  destruct (handler_ops handler_window (Offer <$> b) h1) as [h2|] eqn:H2; [|done].
  cbn [mbind option_bind] in Hh.
  assert (Hd' : delivers (S i) iters).
  { intros j ab Hj. replace (S i + j)%nat with (i + S j)%nat by lia. by apply Hd. }
  assert (He : handler_iter pkt (ev i) (mkHLoop h [] [] seen last) = Some
    (if is_nil (a ++ b) then (idle_limit seen <? ev_now (ev i) - last, mkHLoop h2 [] [] seen last)
     else (false, mkHLoop h2 [] [] true (ev_now (ev i))))).
  { unfold handler_iter. cbn [hl_qa hl_qb hl_handler hl_seen hl_last app]. rewrite Ha, Hb.
    rewrite mcast_drain_roundtrip by done. rewrite H1. cbn [mbind option_bind].
    rewrite mcast_drain_roundtrip by done. rewrite H2. cbn [mbind option_bind].
    rewrite is_nil_app. by destruct (is_nil (a ++ b)). }
  cbn [length Nat.add handler_loop]. rewrite He. cbn [no_timeout fst snd] in Hnt.
  destruct (is_nil (a ++ b)).
  - destruct Hnt as [Hle Hnt]. apply Z.ltb_ge in Hle. rewrite Hle.
    destruct (IH (S i) h2 seen last Hd' Hwf Hnt Hh) as (seen'&last'&Hf).
    exists seen', last'. intros f. cbn [mbind option_bind]. rewrite Hf. f_equal. lia.
  - destruct (IH (S i) h2 true _ Hd' Hwf Hnt Hh) as (seen'&last'&Hf).
    exists seen', last'. intros f. cbn [mbind option_bind]. rewrite Hf. f_equal. lia.
Qed.

Lemma silent_keeps i j h seen last :
  silent_from ev i → (i <= j)%nat → idle_limit seen < ev_now (ev j) - last →
  ∃ f, handler_loop pkt ev f i (mkHLoop h [] [] seen last) = Some (mkHLoop h [] [] seen last).
Proof using Hpkt.
  intros Hs Hij Hlt. remember (j - i)%nat as d eqn:Hd. revert i Hs Hij Hd.
  induction d as [|d IH]; intros i Hs Hij Hd; destruct (Hs i (le_n i)) as [Ha Hb].
  all: assert (He : handler_iter pkt (ev i) (mkHLoop h [] [] seen last) =
    Some (idle_limit seen <? ev_now (ev i) - last, mkHLoop h [] [] seen last))
    by (unfold handler_iter; cbn [hl_qa hl_qb app]; by rewrite Ha, Hb).
  - exists 1%nat. cbn [handler_loop]. rewrite He. cbn [mbind option_bind].
    assert (i = j) as -> by lia. apply Z.ltb_lt in Hlt. by rewrite Hlt.
  - destruct (idle_limit seen <? ev_now (ev i) - last) eqn:E.
    { exists 1%nat. cbn [handler_loop]. by rewrite He. }
    destruct (IH (S i)) as (f&Hf); [intros k Hk; apply Hs; lia|lia|lia|].
    exists (S f). cbn [handler_loop]. by rewrite He.
Qed.

(** The loop sees the whole session, stops in the silence after it, and the flush gives
    the handler of [handler_main]. *)
Lemma session_program iters start h :
  delivers 0 iters → Forall wf (drains iters) → no_timeout 0 false start iters →
  silent_from ev (length iters) → clock_passes ev → handler_main iters = Some h →
  ∃ fuel s, (∀ fuel', (fuel <= fuel')%nat →
      handler_loop pkt ev fuel' 0 (mkHLoop handler_init [] [] false start) = Some s) ∧
    handler_op handler_window Flush (hl_handler s) = Some h.
Proof using Hpkt.
  intros Hd Hwf Hnt Hs Hc Hm. unfold handler_main in Hm. rewrite handler_ops_app in Hm.
  destruct (handler_ops handler_window (Offer <$> drains iters) handler_init) as [h1|] eqn:H1; [|done].
  cbn [mbind option_bind handler_ops] in Hm.
  destruct (session_run iters 0 _ _ false start Hd Hwf Hnt H1) as (seen&last&Hrun).
  rewrite Nat.add_0_r in Hrun.
  destruct (Hc (length iters) (last + idle_limit seen)) as (j&Hj&Ht).
  destruct (silent_keeps (length iters) j h1 seen last Hs Hj ltac:(lia)) as (f&Hf).
  exists (length iters + f)%nat, (mkHLoop h1 [] [] seen last). split.
  - intros fuel' Hle. eapply handler_loop_more; [|exact Hle]. by rewrite Hrun.
  - cbn [hl_handler]. by destruct (handler_op handler_window Flush h1).
Qed.

End Session.

(** ** Sockets *)

Definition receiver_fails (api : SocketApi) : option string :=
  match (McastReceiver_ctor api []).1 with inl what => Some what | inr _ => None end.

Lemma receiver_ctor api fds :
  match receiver_fails api with
  | Some what => ∃ fds', McastReceiver_ctor api fds = (inl what, fds')
  | None => ∃ fd fds', McastReceiver_ctor api fds = (inr fd, fds')
  end.
Proof.
  unfold receiver_fails, McastReceiver_ctor.
  destruct (api_socket api <? 0), (api_reuseaddr api), (api_bind api), (api_add_membership api); cbn;
    solve [by eexists|by eexists _, _].
Qed.

(** [main] once the loop has ended, or when a socket could not be set up. *)
Lemma program_result pkt ev api_a api_b start fuel s h :
  handler_loop pkt ev fuel 0 (mkHLoop handler_init [] [] false start) = Some s →
  handler_op handler_window Flush (hl_handler s) = Some h →
  handler_program pkt ev api_a api_b start fuel = Some
    match receiver_fails api_a, receiver_fails api_b with
    | Some what, _ => Terminates what
    | None, Some what => Terminates what
    | None, None => Returns 0 (listening :: report_of h)
    end.
Proof.
  intros Hl Hf. unfold handler_program. pose proof (receiver_ctor api_a []) as Ha.
  destruct (receiver_fails api_a) as [wa|]; [by destruct Ha as (?&->)|]. destruct Ha as (fa&fds&->).
  pose proof (receiver_ctor api_b fds) as Hb.
  destruct (receiver_fails api_b) as [wb|]; [by destruct Hb as (?&->)|]. destruct Hb as (fb&fds'&->).
  rewrite Hl. cbn [mbind option_bind]. by rewrite Hf.
Qed.

(** ** The properties *)

(** C23: The handler always comes to an end: whatever datagrams arrive on the two lines
    (short, oversized or garbage, as long as none carries the last 64-bit sequence
    number), once the lines fall silent and the clock goes on, the loop breaks, and the
    program returns 0 with the report of the operations it performed, or it ends at the
    first socket call that failed. *)
Theorem feed_handler_terminates pkt ev api_a api_b start n :
  length pkt = sizeof FeedPacket →
  (∀ i, Forall (λ d, seq_ok (take (sizeof FeedPacket) d)) (ev_a (ev i) ++ ev_b (ev i))) →
  silent_from ev n → clock_passes ev →
  ∃ fuel h, reached h ∧ ∀ fuel', (fuel <= fuel')%nat →
    handler_program pkt ev api_a api_b start fuel' = Some
      match receiver_fails api_a, receiver_fails api_b with
      | Some what, _ => Terminates what
      | None, Some what => Terminates what
      | None, None => Returns 0 (listening :: report_of h)
      end.
Proof.
  intros Hp Hs Hsil Hc.
  destruct (loop_stops pkt ev Hp Hs n 0 (mkHLoop handler_init [] [] false start)) as (fuel&s&Hl&I);
    [split; cbn; [by exists []|done..]|by rewrite Nat.add_0_r|done|].
  destruct (reached_ops (hl_handler s) [Flush]) as (h&Hf&R); [apply I|by repeat constructor|].
  exists fuel, h. split; [done|]. intros fuel' Hle. apply (program_result _ _ _ _ _ _ s).
  - by eapply handler_loop_more.
  - cbn [handler_ops] in Hf. by destruct (handler_op handler_window Flush (hl_handler s)).
Qed.

Lemma published_packet_wf unit l n pkts :
  n <= 2 ^ 53 → (∀ k, 0 <= k < n → valid (wt_price (published_trade unit k))) →
  line_ok unit l n pkts → Forall wf pkts.
Proof.
  intros Hn Hv H. eapply Forall_impl; [exact H|]. intros p [Hs ->]. cbn [fp_seq].
  assert (Hw : wf (published_trade unit (fp_seq p))) by (apply published_trade_wf; [lia|auto]).
  split; cbn [fp_seq fp_line fp_pad fp_record]; [unfold is_u64; lia|by destruct l|done|].
  apply wrap_body_wf. change (length (encode (published_trade unit (fp_seq p))) <= 80)%nat.
  rewrite length_encode by done. cbn. lia.
Qed.


(** ** Witnesses *)

Definition ok_api : SocketApi := mkSocketApi 3 true true true true true.
Definition storage : list byte := replicate 104 Init.Byte.x00.

(** A short datagram, then silence; the clock ticks once a second. *)
Definition junk_events (i : nat) : Event :=
  mkEvent (if decide (i = 0%nat) then [[Init.Byte.x01]] else []) [] (Z.of_nat i * 1000000000).

Lemma seconds_pass f : (∀ i, ev_now (f i) = Z.of_nat i * 1000000000) → clock_passes f.
Proof.
  intros Hf n t. exists (n + Z.to_nat t + 1)%nat. rewrite Hf. split; [lia|].
  rewrite !Nat2Z.inj_add. change (Z.of_nat 1) with 1. nia.
Qed.

Lemma feed_handler_terminates_witness :
  ∃ fuel h, reached h ∧ ∀ fuel', (fuel <= fuel')%nat →
    handler_program storage junk_events ok_api ok_api 0 fuel' =
      Some (Returns 0 (listening :: report_of h)).
Proof.
  apply (feed_handler_terminates storage junk_events ok_api ok_api 0 1).
  - reflexivity.
  - intros i. cbn. destruct (decide (i = 0%nat)); [|constructor].
    constructor; [vm_compute; reflexivity|constructor].
  - intros i Hi. cbn. by rewrite decide_False by lia.
  - by apply seconds_pass.
Defined.

(** Two packets published without losses; line A brings both in the first iteration,
    line B repeats them in the second. *)
Definition half (_ : Z) : double := lit 1 2.
Definition two_argv : list (list byte) := [bs "feed_publisher"; bs "2"; bs "0"; bs "0"].
Definition two_pub : Publisher :=
  publisher_main half (drop_rate no_number two_argv 2) (drop_rate no_number two_argv 3) (λ _ _, true) 2.
Definition two_events (i : nat) : Event :=
  mkEvent (if decide (i = 0%nat) then mcast_send <$> line_a two_pub else [])
          (if decide (i = 1%nat) then mcast_send <$> line_b two_pub else [])
          (Z.of_nat i * 1000000000).
Definition two_iters : list (list FeedPacket * list FeedPacket) :=
  [(line_a two_pub, []); ([], line_b two_pub)].

Lemma two_seqs : fp_seq <$> drains two_iters = [0; 1; 0; 1].
Proof. vm_compute. reflexivity. Qed.

