(* ===== verification/GenDataset.v ===== *)
(** * gen_dataset: the synthetic data set

    Models [src/src/bin/gen_dataset.cpp]: windows of trades, quotes and a bar per
    symbol, built from per-symbol running state, with one injected defect per window.
    The random engine is a parameter: what each distribution yields at the [n]-th
    draw.  The records are the messages with their tag ([wrap_msg]); the file is the
    header followed by their images.  [GenMain.v] holds the program around the loop. *)

From stdpp Require Import base numbers list list_numbers strings.
From Stdlib Require Import ZArith Lia.
From S2P Require Import Prelude Float64 Runtime Wire Replay Validator Ingest LiveIngest.

Local Open Scope Z_scope.

(** ** Symbols *)

Definition kRealSymbols : list (list byte) :=
  [bs "AAPL"; bs "MSFT"; bs "NVDA"; bs "AMZN"; bs "GOOGL"; bs "META"; bs "TSLA"; bs "AMD"].

(** The decimal digits of [n], at most [fuel] of them, before [acc]. *)
Fixpoint decimal (fuel : nat) (n : Z) (acc : list byte) : list byte :=
  match fuel with
  | O => acc
  | S f =>
      let acc' := byte_of_Z (48 + n mod 10) :: acc in
      if n <? 10 then acc' else decimal f (n / 10) acc'
  end.

(** [snprintf(buf, 16, "S%05u", i)]; an [unsigned] has at most ten digits. *)
Definition synthetic_symbol (i : Z) : list byte :=
  let ds := decimal 10 (u32 i) [] in
  bs "S" ++ replicate (5 - length ds) (byte_of_Z 48) ++ ds.

Definition make_symbol (i : Z) : list byte :=
  match kRealSymbols !! Z.to_nat i with Some s => s | None => synthetic_symbol i end.

(** The loop of [make_symbols]; the allocation before it is in [GenMain.v]. *)
Definition symbol_list (count : Z) : list (list byte) := make_symbol <$> seqZ 0 count.

(** ** State *)

Inductive Defect :=
  | DClean | DCorruptTrade | DSeqGap | DTsRegress | DReconVolume | DReconCount | DReconVwap
  | DReconOhlc | DBand | DQuoteCrossed | DQuoteLocked | DPriceSpike.

Definition defect_of (roll : Z) : Defect :=
  match roll with
  | 0 => DCorruptTrade | 1 => DSeqGap | 2 => DTsRegress | 3 => DReconVolume
  | 4 => DReconCount | 5 => DReconVwap | 6 => DReconOhlc | 7 => DBand
  | 8 => DQuoteCrossed | 9 => DQuoteLocked | 10 => DPriceSpike
  | _ => DClean
  end.

(** [g_size] is [records.size()], [g_draws] the number of draws made. *)
Record Gen := mkGen {
  g_seq : list Z;
  g_ts : list Z;
  g_px : list double;
  g_size : Z;
  g_draws : Z
}.

Definition gen_init (sym_count : Z) : Gen :=
  mkGen (replicate (Z.to_nat sym_count) 1)
    ((λ i, 1700000000000000000 +u (i *u 1000000)) <$> seqZ 0 sym_count)
    ((λ i, fadd (double_of_Z 100) (fmul (double_of_Z (i mod 50)) (double_of_Z 10))) <$> seqZ 0 sym_count)
    0 0.

(** The window's aggregate, in the validator's [Acc] layout. *)
Definition win_init : Acc := mkAcc false 0 0 fzero fzero fzero fzero fzero.

Definition win_add (price : double) (size : Z) (w : Acc) : Acc :=
  mkAcc true (acc_count w +u 1) (acc_volume w +u size)
    (fadd (acc_pv w) (fmul price (double_of_Z size)))
    (if negb (has_trades w) then price else acc_open w)
    (if negb (has_trades w) then price else if fgt price (acc_high w) then price else acc_high w)
    (if negb (has_trades w) then price else if flt price (acc_low w) then price else acc_low w)
    price.

Section Generate.
Context (pick count_dist size_dist : Z → Z) (jitter : Z → double).
Context (n : Z) (symbols : list (list byte)).

(** [ts[s] += 1'000'000; seq[s] += 1;] *)
Definition tick_clock (s : nat) (g : Gen) : Gen :=
  mkGen (<[s := default 0 (g_seq g !! s) +u 1]> (g_seq g))
    (<[s := default 0 (g_ts g !! s) +u 1000000]> (g_ts g)) (g_px g) (g_size g) (g_draws g).

Definition seq_at (s : nat) (g : Gen) : Z := default 0 (g_seq g !! s).
Definition ts_at (s : nat) (g : Gen) : Z := default 0 (g_ts g !! s).
Definition px_of (s : nat) (g : Gen) : double := default fzero (g_px g !! s).

(** [px[s] += jitter(rng); if (px[s] < 1.0) px[s] = 1.0;] *)
Definition step_price (s : nat) (g : Gen) : Gen :=
  let p := fadd (px_of s g) (jitter (g_draws g)) in
  mkGen (g_seq g) (g_ts g) (<[s := if flt p fone then fone else p]> (g_px g)) (g_size g)
    (g_draws g + 1).

(** [records.push_back(rec)] *)
Definition pushed_one (g : Gen) : Gen :=
  mkGen (g_seq g) (g_ts g) (g_px g) (g_size g +u 1) (g_draws g).

Definition bump_seq3 (s : nat) (g : Gen) : Gen :=
  mkGen (<[s := seq_at s g +u 3]> (g_seq g)) (g_ts g) (g_px g) (g_size g) (g_draws g).

Definition drew (k : Z) (g : Gen) : Gen :=
  mkGen (g_seq g) (g_ts g) (g_px g) (g_size g) (g_draws g + k).

Definition symbol_at (s : nat) : list byte := set_symbol (default [] (symbols !! s)).

(** One trade of a window. *)
Definition gen_trade (s : nat) (defect : Defect) (k : Z) (g : Gen) (w : Acc) : Gen * Acc * Msg :=
  let g1 := step_price s (tick_clock s g) in
  let size := size_dist (g_draws g1) in
  let g2 := drew 1 g1 in
  let first := k =? 0 in
  let g3 := match defect with DSeqGap => if first then bump_seq3 s g2 else g2 | _ => g2 end in
  let price := match defect with
    | DCorruptTrade => if first then double_of_Z (-1) else px_of s g2
    | DPriceSpike => if first then fmul (px_of s g2) (lit 16 10) else px_of s g2
    | _ => px_of s g2
    end in
  let ts := match defect with
    | DTsRegress => if first then ts_at s g2 -u 5000000 else ts_at s g2 | _ => ts_at s g2 end in
  let valid := match defect with DCorruptTrade => negb first | _ => true end in
  let t := mkWireTrade (symbol_at s) ts (seq_at s g3) (g_size g) price size
             (byte_of_Z 86) (byte_of_Z 67) (replicate 14 Init.Byte.x00) in
  (pushed_one g3, if valid then win_add price size w else w, MTrade t).

(** [for (k; k < n_trades && records.size() < n; ++k)] with [todo] trades to go. *)
Fixpoint gen_trades (todo : nat) (s : nat) (defect : Defect) (k : Z) (g : Gen) (w : Acc)
    : Gen * Acc * list Msg :=
  match todo with
  | O => (g, w, [])
  | S todo' =>
      if g_size g <? n then
        let '(g1, w1, m) := gen_trade s defect k g w in
        let '(g2, w2, ms) := gen_trades todo' s defect (k + 1) g1 w1 in
        (g2, w2, m :: ms)
      else (g, w, [])
  end.

(** One quote of a window. *)
Definition gen_quote (s : nat) (defect : Defect) (qk : Z) (g : Gen) : Gen * Msg :=
  let g1 := tick_clock s g in
  let px := px_of s g1 in
  let bid_size := 1 +u (size_dist (g_draws g1) mod 20) in
  let ask_size := 1 +u (size_dist (g_draws g1 + 1) mod 20) in
  let below := fsub px (lit 5 100) in
  let above := fadd px (lit 5 100) in
  let '(bid, ask) :=
    match defect with
    | DQuoteCrossed => if qk =? 0 then (above, below) else (below, above)
    | DQuoteLocked => if qk =? 0 then (px, px) else (below, above)
    | _ => (below, above)
    end in
  let q := mkWireQuote (symbol_at s) (ts_at s g1) (seq_at s g1) bid ask bid_size ask_size
             (byte_of_Z 86) (byte_of_Z 86) (byte_of_Z 67) (replicate 5 Init.Byte.x00) in
  (pushed_one (drew 2 g1), MQuote q).

Fixpoint gen_quotes (todo : nat) (s : nat) (defect : Defect) (qk : Z) (g : Gen) : Gen * list Msg :=
  match todo with
  | O => (g, [])
  | S todo' =>
      if g_size g <? n then
        let '(g1, m) := gen_quote s defect qk g in
        let '(g2, ms) := gen_quotes todo' s defect (qk + 1) g1 in
        (g2, m :: ms)
      else (g, [])
  end.

(** The bar of a window, from the aggregate, with the bar-level perturbations. *)
Definition gen_bar (s : nat) (defect : Defect) (w : Acc) (g : Gen) : Gen * Msg :=
  let g1 := tick_clock s g in
  let vwap := if negb (acc_volume w =? 0) then fdiv (acc_pv w) (double_of_Z (acc_volume w))
              else acc_open w in
  let b := mkWireBar (symbol_at s) (ts_at s g1) (seq_at s g1) (acc_open w)
    (match defect with DReconOhlc => fadd (acc_high w) (double_of_Z 5) | _ => acc_high w end)
    (match defect with DBand => fadd (acc_high w) (double_of_Z 5) | _ => acc_low w end)
    (acc_close w)
    (match defect with DReconVwap => fmul vwap (lit 1001 1000) | _ => vwap end)
    (match defect with DReconVolume => acc_volume w +u 100 | _ => acc_volume w end)
    (match defect with DReconCount => acc_count w +u 1 | _ => acc_count w end) in
  (pushed_one g1, MBar b).

(** One iteration of the outer loop, after [s] has advanced. *)
Definition gen_window (s : nat) (g : Gen) : Gen * list Msg :=
  let defect := defect_of (pick (g_draws g)) in
  let n_trades := count_dist (g_draws g + 1) in
  let '(g1, w, ts) := gen_trades (Z.to_nat n_trades) s defect 0 (drew 2 g) win_init in
  let '(g2, qs) := gen_quotes 2 s defect 0 g1 in
  if n <=? g_size g2 then (g2, ts ++ qs)
  else let '(g3, b) := gen_bar s defect w g2 in (g3, ts ++ qs ++ [b]).

(** [while (records.size() < n)]; [None] when the fuel runs out. *)
Fixpoint gen_loop (fuel : nat) (sym_count s : Z) (g : Gen) : option (list Msg) :=
  if g_size g <? n then
    match fuel with
    | O => None
    | S f =>
        let s' := (s + 1) mod sym_count in
        let '(g1, ms) := gen_window (Z.to_nat s') g in
        (λ rest, ms ++ rest) <$> gen_loop f sym_count s' g1
    end
  else Some [].

End Generate.

(** [main]: the records, once the vectors have been allocated ([GenMain.v]), and the file. *)
Definition gen_main (pick count_dist size_dist : Z → Z) (jitter : Z → double) (n sym_count : Z)
    : option (list Msg) :=
  let count := Z.max 1 sym_count in
  gen_loop pick count_dist size_dist jitter n (symbol_list count) (Z.to_nat n) count (count - 1)
    (gen_init count).

Definition dataset_file (ms : list Msg) : list byte :=
  encode (mkFileHeader kMagic kVersion (Z.of_nat (length ms))) ++ concat (encode <$> (wrap_msg <$> ms)).
