(* ===== verification/GenDatasetProofs.v ===== *)
(** * gen_dataset: the data set is complete and its bars reconcile

    The generator returns exactly the requested number of records for any random
    engine, and when neither bar defects nor price spikes are drawn every bar agrees
    with the trades before it. *)

From stdpp Require Import base numbers list list_numbers gmap strings.
From Stdlib Require Import ZArith Lia.
From S2P Require Import Prelude Float64 Wire Replay Validator ValidatorTable ValidatorProps.
From S2P Require Import ValidatorChecks Timestamp Ingest LiveIngest.
From S2P Require Import Arbitrator ArbitratorProofs ArbitratorSessions Util Harness HarnessProofs.
From S2P Require Import ParserProofs LiveIngestProofs LiveIngestProps GenDataset.

Local Open Scope Z_scope.

(** ** Exactly [n] records *)

Section Count.
Context (pick count_dist size_dist : Z → Z) (jitter : Z → double).
Context (n : Z) (symbols : list (list byte)).
Hypothesis Hn : 0 <= n < 2 ^ 64.

Lemma gen_trade_size s d k g w :
  g_size (gen_trade size_dist jitter symbols s d k g w).1.1 = g_size g +u 1.
Proof using. by destruct d; cbn; try destruct (k =? 0). Qed.

Lemma gen_trades_size todo s d k g w g' w' ms :
  gen_trades size_dist jitter n symbols todo s d k g w = (g', w', ms) → 0 <= g_size g <= n →
  g_size g' = g_size g + Z.of_nat (length ms) ∧ g_size g' <= n ∧
  (todo = 0%nat ∨ n <= g_size g ∨ 0 < Z.of_nat (length ms)).
Proof using Hn.
  revert k g w g' w' ms. induction todo as [|todo IH]; intros k g w g' w' ms Hrun Hg; cbn [gen_trades] in Hrun.
  { simplify_eq. cbn [length]. split; [lia|]. split; [lia|]. by left. }
  destruct (Z.ltb_spec (g_size g) n); [|simplify_eq; cbn [length]; split; [lia|]; split; [lia|]; auto].
  pose proof (gen_trade_size s d k g w) as Hs.
  destruct (gen_trade _ _ _ _ _ _ _ _) as [[g1 w1] m]. cbn [fst] in Hs. rewrite u64_add_small in Hs by lia.
  destruct (gen_trades _ _ _ _ todo _ _ _ _ _) as [[g2 w2] ms2] eqn:E. simplify_eq.
  destruct (IH _ _ _ _ _ _ E) as (?&?&_); [lia|]. cbn [length]. split; [lia|]. split; [lia|]. lia.
Qed.

Lemma gen_quotes_size todo s d qk g g' ms :
  gen_quotes size_dist n symbols todo s d qk g = (g', ms) → 0 <= g_size g <= n →
  g_size g' = g_size g + Z.of_nat (length ms) ∧ g_size g' <= n.
Proof using Hn.
  revert qk g g' ms. induction todo as [|todo IH]; intros qk g g' ms Hrun Hg; cbn [gen_quotes] in Hrun.
  { simplify_eq. cbn [length]. lia. }
  destruct (Z.ltb_spec (g_size g) n); [|simplify_eq; cbn [length]; lia].
  destruct (gen_quote _ _ _ _ _ _) as [g1 m] eqn:E1.
  assert (Hs : g_size g1 = g_size g + 1).
  { rewrite <- u64_add_small by lia. unfold gen_quote in E1.
    destruct d, (qk =? 0); by simplify_eq. }
  destruct (gen_quotes _ _ _ todo _ _ _ _) as [g2 ms2] eqn:E. simplify_eq.
  destruct (IH _ _ _ _ E) as (?&?); [lia|]. cbn [length]. lia.
Qed.

Lemma gen_window_size s g g' ms :
  (∀ i, 0 < count_dist i) → 0 <= g_size g < n →
  gen_window pick count_dist size_dist jitter n symbols s g = (g', ms) →
  g_size g' = g_size g + Z.of_nat (length ms) ∧ g_size g < g_size g' <= n.
Proof using Hn.
  intros Hcd Hg Hrun. unfold gen_window in Hrun.
  destruct (gen_trades _ _ _ _ _ _ _ _ _ _) as [[g1 w] ts] eqn:Et.
  destruct (gen_quotes _ _ _ _ _ _ _ _) as [g2 qs] eqn:Eq.
  destruct (gen_trades_size _ _ _ _ _ _ _ _ _ Et) as (Ht&Htn&Hne); [cbn; lia|]. cbn [drew g_size] in *.
  destruct (gen_quotes_size _ _ _ _ _ _ _ Eq) as (Hq&Hqn); [lia|].
  specialize (Hcd (g_draws g + 1)).
  destruct (Z.leb_spec n (g_size g2)); [simplify_eq; rewrite length_app; lia|].
  assert (Hb : ∀ d, g_size (gen_bar symbols s d w g2).1 = g_size g2 + 1).
  { intros d. rewrite <- u64_add_small by lia. done. }
  specialize (Hb (defect_of (pick (g_draws g)))). destruct (gen_bar _ _ _ _ _) as [g3 b].
  simplify_eq. rewrite !length_app. cbn [fst length] in *. lia.
Qed.

(** Every window adds a record, so [n] windows are enough. *)
Lemma gen_loop_count fuel sym_count s g :
  (∀ i, 0 < count_dist i) → 0 <= g_size g <= n → n - g_size g <= Z.of_nat fuel →
  ∃ ms, gen_loop pick count_dist size_dist jitter n symbols fuel sym_count s g = Some ms ∧
    Z.of_nat (length ms) = n - g_size g.
Proof using Hn.
  intros Hcd. revert s g. induction fuel as [|fuel IH]; intros s g Hg Hf; cbn [gen_loop].
  - destruct (Z.ltb_spec (g_size g) n); [lia|]. exists []. cbn [length]. split; [done|lia].
  - destruct (Z.ltb_spec (g_size g) n); [|exists []; cbn [length]; split; [done|lia]].
    destruct (gen_window _ _ _ _ _ _ _ _) as [g1 ms] eqn:E.
    assert (Hlt0 : 0 <= g_size g < n) by lia.
    destruct (gen_window_size _ _ _ _ Hcd Hlt0 E) as [Hs Hlt].
    destruct (IH ((s + 1) mod sym_count) g1) as (rest&Hrest&Hlen); [lia|lia|].
    rewrite Hrest. cbn [fmap option_fmap option_map]. eexists. split; [done|]. rewrite length_app. lia.
Qed.

End Count.

(** ** The file *)

Definition msg_shape (m : Msg) : Prop :=
  match m with
  | MTrade t => length (wt_symbol t) = 8%nat ∧ length (wt_pad t) = 14%nat
  | MBar b => length (wb_symbol b) = 8%nat
  | MQuote q => length (wq_symbol q) = 8%nat ∧ length (wq_pad q) = 5%nat
  end.

Lemma wrap_msg_wf m : msg_shape m → wf (wrap_msg m).
Proof.
  destruct m as [t|b|q]; cbn [msg_shape wrap_msg]; intros Hm; apply wrap_body_wf;
    cbn [encode WireTrade_struct WireBar_struct WireQuote_struct];
    unfold encode_trade, encode_bar, encode_quote; rewrite !length_app; rewrite_len; lia.
Qed.

Section Shape.
Context (pick count_dist size_dist : Z → Z) (jitter : Z → double).
Context (n : Z) (symbols : list (list byte)).

Lemma symbol_at_length s : length (symbol_at symbols s) = 8%nat.
Proof. apply length_set_symbol. Qed.

Lemma gen_trades_shape todo s d k g w :
  Forall msg_shape (gen_trades size_dist jitter n symbols todo s d k g w).2.
Proof.
  revert k g w. induction todo as [|todo IH]; intros k g w; cbn [gen_trades]; [constructor|].
  case_match; [|constructor].
  destruct (gen_trade _ _ _ _ _ _ _ _) as [[g1 w1] m] eqn:E.
  specialize (IH (k + 1) g1 w1). destruct (gen_trades _ _ _ _ todo _ _ _ _ _) as [[g2 w2] ms].
  constructor; [|done]. unfold gen_trade in E. simplify_eq.
  split; [apply symbol_at_length|done].
Qed.

Lemma gen_quotes_shape todo s d qk g :
  Forall msg_shape (gen_quotes size_dist n symbols todo s d qk g).2.
Proof.
  revert qk g. induction todo as [|todo IH]; intros qk g; cbn [gen_quotes]; [constructor|].
  case_match; [|constructor].
  destruct (gen_quote _ _ _ _ _ _) as [g1 m] eqn:E.
  specialize (IH (qk + 1) g1). destruct (gen_quotes _ _ _ todo _ _ _ _) as [g2 ms].
  constructor; [|done]. unfold gen_quote in E.
  destruct d, (qk =? 0); simplify_eq; (split; [apply symbol_at_length|done]).
Qed.

Lemma gen_window_shape s g :
  Forall msg_shape (gen_window pick count_dist size_dist jitter n symbols s g).2.
Proof.
  unfold gen_window.
  pose proof (gen_trades_shape (Z.to_nat (count_dist (g_draws g + 1))) s
    (defect_of (pick (g_draws g))) 0 (drew 2 g) win_init) as Ht.
  destruct (gen_trades _ _ _ _ _ _ _ _ _ _) as [[g1 w] ts].
  pose proof (gen_quotes_shape 2 s (defect_of (pick (g_draws g))) 0 g1) as Hq.
  destruct (gen_quotes _ _ _ _ _ _ _ _) as [g2 qs]. cbn [snd] in *.
  case_match; cbn [snd]; [by apply Forall_app|].
  unfold gen_bar. cbn [snd]. rewrite !Forall_app. split; [done|]. split; [done|].
  constructor; [apply symbol_at_length|constructor].
Qed.

Lemma gen_loop_shape fuel sym_count s g ms :
  gen_loop pick count_dist size_dist jitter n symbols fuel sym_count s g = Some ms →
  Forall msg_shape ms.
Proof.
  revert s g ms. induction fuel as [|fuel IH]; intros s g ms; cbn [gen_loop].
  - case_match; [done|]. intros [= <-]. constructor.
  - case_match; [|intros [= <-]; constructor].
    pose proof (gen_window_shape (Z.to_nat ((s + 1) mod sym_count)) g) as Hw.
    destruct (gen_window _ _ _ _ _ _ _ _) as [g1 ms1]. cbn [snd] in Hw.
    destruct (gen_loop _ _ _ _ _ _ fuel _ _ g1) as [rest|] eqn:E; [|done]. intros [= <-].
    apply Forall_app. split; [done|]. by eapply IH.
Qed.

End Shape.

(** ** Bars reconcile *)

(** The validator's accumulator agrees with the window's aggregate. *)
Definition acc_matches (a w : Acc) : Prop :=
  has_trades a = has_trades w ∧ acc_count a = acc_count w ∧ acc_volume a = acc_volume w ∧
  acc_pv a = acc_pv w ∧ (has_trades w = false → acc_clear a) ∧
  (has_trades w = true → acc_open a = acc_open w ∧ acc_high a = acc_high w ∧
     acc_low a = acc_low w ∧ acc_close a = acc_close w).

Lemma acc_matches_init a : acc_clear a → acc_matches a win_init.
Proof. intros Ha. pose proof Ha as (H1&H2&H3&H4). by repeat split. Qed.

Lemma acc_matches_add s w p z :
  acc_matches (acc s) w → acc_matches (acc (accumulate p z s)) (win_add p z w).
Proof.
  intros (Hh&Hc&Hv&Hp&_&Ho). unfold accumulate, win_add. cbn [acc with_acc]. rewrite Hh.
  destruct (has_trades w); cbn [negb]; rewrite ?Hc, ?Hv, ?Hp.
  - destruct (Ho eq_refl) as (->&->&->&_). by repeat split.
  - by repeat split.
Qed.

Definition no_recon (r : Result) : Prop :=
  has r kBarVolumeReconstructMismatch = false ∧ has r kBarTradeCountReconstructMismatch = false ∧
  has r kBarVwapReconstructMismatch = false ∧ has r kBarOhlcReconstructMismatch = false.

Lemma trade_no_recon t s : no_recon (check_slot (MTrade t) s).2.
Proof.
  unfold no_recon, has. rewrite trade_flags_exact', !has_flags. unfold trade_conditions.
  flag_bits. rewrite !andb_false_r. done.
Qed.

Lemma quote_no_recon q s : no_recon (check_slot (MQuote q) s).2.
Proof.
  unfold no_recon, has. destruct (quote_flags_exact' q s) as [-> _]. rewrite !has_flags.
  unfold quote_conditions. flag_bits. rewrite !andb_false_r. done.
Qed.

Lemma trade_acc t s :
  acc (check_slot (MTrade t) s).1 =
  if valid_trade t then acc (accumulate (wt_price t) (wt_size t) s) else acc s.
Proof.
  unfold check_slot. cbn [msg_stateful msg_flags]. unfold trade_stateful, check_sequencing.
  fold (valid_trade t). destruct (valid_trade t); [|done]. by rewrite check_price_band_acc.
Qed.

Lemma quote_acc q s : acc (check_slot (MQuote q) s).1 = acc s.
Proof. by destruct (quote_flags_exact' q s) as (_&_&?). Qed.

(** What the bar of an undisturbed window is compared with. *)
Definition bar_matches (b : WireBar) (w : Acc) : Prop :=
  wb_open b = acc_open w ∧ wb_high b = acc_high w ∧ wb_low b = acc_low w ∧ wb_close b = acc_close w ∧
  wb_volume b = acc_volume w ∧ wb_trade_count b = acc_count w ∧
  (acc_volume w ≠ 0 → wb_vwap b = fdiv (acc_pv w) (double_of_Z (acc_volume w))).

Definition bar_finite (b : WireBar) : Prop :=
  is_finite (wb_open b) = true ∧ is_finite (wb_high b) = true ∧ is_finite (wb_low b) = true ∧
  is_finite (wb_close b) = true ∧ is_finite (wb_vwap b) = true.

(** A bar closes the window, whatever it says. *)
Lemma bar_clears b s w : acc_matches (acc s) w → acc_clear (acc (check_slot (MBar b) s).1).
Proof.
  intros (Hh&_&_&_&He&_).
  unfold check_slot. cbn [msg_stateful msg_flags]. unfold bar_stateful, check_sequencing, reconcile.
  cbn [acc]. destruct (has_trades (acc s)) eqn:E; cbn; [done|]. apply He. congruence.
Qed.

Lemma bar_no_recon b s w :
  acc_matches (acc s) w → bar_matches b w → bar_finite b →
  no_recon (check_slot (MBar b) s).2 ∧ acc_clear (acc (check_slot (MBar b) s).1).
Proof.
  intros Ha. pose proof (bar_clears b s w Ha) as Hclear. revert Ha.
  intros (Hh&Hc&Hv&Hp&He&Ho) (Bo&Bh&Bl&Bc&Bv&Bn&Bw) (Fo&Fh&Fl&Fc&Fw).
  split; [|exact Hclear].
  - unfold no_recon. rewrite !bar_flags_reconstruct. unfold bar_conditions. flag_bits.
    destruct (has_trades (acc s)) eqn:E; [|cbn; rewrite ?andb_false_r; done].
    rewrite <- Hh in Ho. destruct (Ho eq_refl) as (Eo&Eh&El&Ec).
    assert (Hvw : vwap_mismatch (acc s) b = false).
    { unfold vwap_mismatch. destruct (Z.eqb_spec (acc_volume (acc s)) 0); [done|].
      cbn [negb andb]. rewrite Hp, Hv in *. rewrite <- Bw by done. by rewrite approx_refl. }
    assert (Hoh : ohlc_mismatch (acc s) b = false).
    { unfold ohlc_mismatch. rewrite Eo, Eh, El, Ec, <- Bo, <- Bh, <- Bl, <- Bc.
      by rewrite !approx_refl. }
    rewrite Hvw, Hoh, Hv, Hc, Bv, Bn, !Z.eqb_refl. cbn [negb]. rewrite !andb_false_r. done.
Qed.

Definition all_clear (st : gmap Z Slot) : Prop := ∀ k s, st !! k = Some s → acc_clear (acc s).

(** In the middle of a window of the symbol with key [k]. *)
Definition in_window (k : Z) (w : Acc) (st : gmap Z Slot) : Prop :=
  (∀ k' s, k' ≠ k → st !! k' = Some s → acc_clear (acc s)) ∧
  acc_matches (acc (default (fresh_slot k) (st !! k))) w.

Lemma window_opens k st : all_clear st → in_window k win_init st.
Proof.
  intros Hst. split; [intros; by eapply Hst|]. apply acc_matches_init.
  destruct (st !! k) eqn:E; [by eapply Hst|done].
Qed.

Lemma spec_check_all_app ms1 ms2 st :
  (spec_check_all (ms1 ++ ms2) st).1 =
    (spec_check_all ms1 st).1 ++ (spec_check_all ms2 (spec_check_all ms1 st).2).1 ∧
  (spec_check_all (ms1 ++ ms2) st).2 = (spec_check_all ms2 (spec_check_all ms1 st).2).2.
Proof.
  revert st. induction ms1 as [|m ms1 IH]; intros st; [done|]. cbn [app spec_check_all].
  destruct (spec_check m st) as [r st1]. destruct (IH st1) as [H1 H2].
  destruct (spec_check_all (ms1 ++ ms2) st1), (spec_check_all ms1 st1). cbn [fst snd] in *.
  rewrite H1, H2. done.
Qed.

Lemma window_step (Q : Result → Prop) k m w w' st :
  msg_key m = k → in_window k w st →
  (∀ s, acc_matches (acc s) w → Q (check_slot m s).2 ∧ acc_matches (acc (check_slot m s).1) w') →
  Q (spec_check m st).1 ∧ in_window k w' (spec_check m st).2.
Proof.
  intros Hk [Ho Hm] Hstep. unfold spec_check. rewrite Hk.
  destruct (Hstep _ Hm) as [Hr Hw]. destruct (check_slot m _) as [s' r]. cbn [fst snd] in *.
  split; [done|]. split.
  - intros k' s Hne. rewrite lookup_insert_ne by done. by apply Ho.
  - by rewrite lookup_insert_eq.
Qed.

Lemma clamp_positive p :
  is_finite (if flt p fone then fone else p) = true →
  fgt (if flt p fone then fone else p) fzero = true.
Proof.
  destruct (flt p fone) eqn:E; [done|]. intros Hf. change (flt fzero p = true).
  destruct (flt_trichotomy p fone) as [?|[He|Hl]]; [by apply is_finite_not_nan|done|congruence| |].
  - by rewrite (feq_flt_r p fone fzero He).
  - apply (flt_trans _ fone); done.
Qed.

(** The trades and bars carry finite numbers. *)
Definition msg_finite (m : Msg) : Prop :=
  match m with
  | MTrade t => is_finite (wt_price t) = true
  | MBar b => bar_finite b
  | MQuote _ => True
  end.

(** The defects that leave the bar alone and the prices positive or rejected. *)
Definition reconciles (d : Defect) : Prop :=
  match d with
  | DReconVolume | DReconCount | DReconVwap | DReconOhlc | DBand | DPriceSpike => False
  | _ => True
  end.

Lemma clear_insert k s st :
  (∀ k' s', k' ≠ k → st !! k' = Some s' → acc_clear (acc s')) → acc_clear (acc s) → all_clear (<[k := s]> st).
Proof.
  intros Ho Hs k' sl. destruct (decide (k' = k)) as [->|Hk].
  - rewrite lookup_insert_eq. by intros [= <-].
  - rewrite lookup_insert_ne by done. by apply Ho.
Qed.

Section Reconcile.
Context (pick count_dist size_dist : Z → Z) (jitter : Z → double).
Context (n : Z) (symbols : list (list byte)).
Hypothesis Hsize : ∀ i, 1 <= size_dist i.

Definition key_of (s : nat) : Z := symbol_key (symbol_at symbols s).

Lemma px_of_step s g :
  (s < length (g_px g))%nat →
  is_finite (px_of s (step_price jitter s (tick_clock s g))) = true →
  fgt (px_of s (step_price jitter s (tick_clock s g))) fzero = true.
Proof using.
  intros Hs. unfold step_price. set (p := fadd _ _). unfold px_of at 1 2. cbn [g_px].
  rewrite list_lookup_insert_eq by done. cbn [default id]. apply clamp_positive.
Qed.

(** A spiked price is positive too. *)
Lemma px_spike s g :
  (s < length (g_px g))%nat →
  let px := px_of s (step_price jitter s (tick_clock s g)) in
  is_finite (fmul px (lit 16 10)) = true → fgt (fmul px (lit 16 10)) fzero = true.
Proof using.
  intros Hs px Hf. change (flt fzero (fmul px (lit 16 10)) = true). apply fmul_pos; [| |done..].
  - subst px. unfold step_price. set (p := fadd _ _). unfold px_of. cbn [g_px].
    rewrite list_lookup_insert_eq by done. cbn [default id]. by destruct (flt p fone) eqn:E.
  - destruct px as [[]|[]| |[] m e]; done.
Qed.

(** One trade: the generator's aggregate and the validator's move together. *)
Lemma gen_trade_step s d k g w g' w' m :
  (s < length (g_px g))%nat →
  gen_trade size_dist jitter symbols s d k g w = (g', w', m) → msg_finite m →
  msg_key m = key_of s ∧ length (g_px g') = length (g_px g) ∧
  ∀ sl, acc_matches (acc sl) w →
    no_recon (check_slot m sl).2 ∧ acc_matches (acc (check_slot m sl).1) w'.
Proof using Hsize.
  intros Hs E Hf. unfold gen_trade in E. injection E as <- <- <-. cbn [msg_finite wt_price] in Hf.
  split; [done|]. split.
  { destruct d; try destruct (k =? 0); cbn; by rewrite length_insert. }
  intros sl Hm. split; [apply trade_no_recon|]. rewrite trade_acc. unfold valid_trade.
  cbn [wt_price wt_size].
  assert (Hz : (size_dist (g_draws g + 1) =? 0) = false) by (apply Z.eqb_neq; specialize (Hsize (g_draws g + 1)); lia).
  change (g_draws (step_price jitter s (tick_clock s g))) with (g_draws g + 1) in *. rewrite Hz.
  assert (Hpos : ∀ q, q = px_of s (drew 1 (step_price jitter s (tick_clock s g))) →
    is_finite q = true → fgt q fzero = true).
  { intros q -> Hq. by apply px_of_step. }
  assert (Hspike : ∀ q, q = px_of s (drew 1 (step_price jitter s (tick_clock s g))) →
    is_finite (fmul q (lit 16 10)) = true → fgt (fmul q (lit 16 10)) fzero = true).
  { intros q -> Hq. by apply px_spike. }
  destruct d; try done; try destruct (k =? 0); cbn [negb andb] in *;
    try (change (fgt (double_of_Z (-1)) fzero) with false; done);
    first [rewrite (Hpos _ eq_refl Hf) | rewrite (Hspike _ eq_refl Hf)];
    cbn [negb andb]; by apply acc_matches_add.
Qed.

Lemma gen_trades_sim todo s d k g w g' w' ms st :
  (s < length (g_px g))%nat → in_window (key_of s) w st →
  gen_trades size_dist jitter n symbols todo s d k g w = (g', w', ms) → Forall msg_finite ms →
  Forall no_recon (spec_check_all ms st).1 ∧ in_window (key_of s) w' (spec_check_all ms st).2 ∧
  length (g_px g') = length (g_px g).
Proof using Hsize.
  revert k g w ms st. induction todo as [|todo IH]; intros k g w ms st Hs Hw E Hf;
    cbn [gen_trades] in E.
  { simplify_eq. split; [constructor|done]. }
  destruct (g_size g <? n); [|simplify_eq; split; [constructor|done]].
  destruct (gen_trade _ _ _ _ _ _ _ _) as [[g1 w1] m] eqn:E1.
  destruct (gen_trades _ _ _ _ todo _ _ _ _ _) as [[g2 w2] ms2] eqn:E2. simplify_eq.
  apply Forall_cons in Hf as [Hm Hf].
  destruct (gen_trade_step _ _ _ _ _ _ _ _ Hs E1 Hm) as (Hk&Hl&Hstep).
  destruct (window_step no_recon _ _ _ _ _ Hk Hw Hstep) as [Hr Hw1].
  destruct (IH (k + 1) g1 w1 ms2 (spec_check m st).2) as (H1&H2&H3); [lia|done|done|done|].
  cbn [spec_check_all]. destruct (spec_check m st) as [r st1]. cbn [fst snd] in *.
  destruct (spec_check_all ms2 st1) as [rs st2]. cbn [fst snd] in *.
  split; [by constructor|]. split; [done|lia].
Qed.

Lemma gen_quotes_sim todo s d qk g g' w ms st :
  in_window (key_of s) w st → gen_quotes size_dist n symbols todo s d qk g = (g', ms) →
  Forall no_recon (spec_check_all ms st).1 ∧ in_window (key_of s) w (spec_check_all ms st).2 ∧
  length (g_px g') = length (g_px g).
Proof using.
  revert qk g ms st. induction todo as [|todo IH]; intros qk g ms st Hw E; cbn [gen_quotes] in E.
  { simplify_eq. split; [constructor|done]. }
  destruct (g_size g <? n); [|simplify_eq; split; [constructor|done]].
  destruct (gen_quote _ _ _ _ _ _) as [g1 m] eqn:E1.
  destruct (gen_quotes _ _ _ todo _ _ _ _) as [g2 ms2] eqn:E2. simplify_eq.
  assert (Hq : ∃ q, m = MQuote q ∧ msg_key m = key_of s ∧ g_px g1 = g_px g).
  { unfold gen_quote in E1. destruct d, (qk =? 0); simplify_eq; eauto. }
  destruct Hq as (q&->&Hk&Hpx).
  destruct (window_step no_recon _ _ w w st Hk Hw) as [Hr Hw1].
  { intros sl Hm. split; [apply quote_no_recon|]. by rewrite quote_acc. }
  destruct (IH _ _ _ _ Hw1 E2) as (H1&H2&H3).
  cbn [spec_check_all]. destruct (spec_check (MQuote q) st) as [r st1]. cbn [fst snd] in *.
  destruct (spec_check_all ms2 st1) as [rs st2]. cbn [fst snd] in *.
  split; [by constructor|]. split; [done|congruence].
Qed.

Lemma gen_bar_sim s d w g st :
  reconciles d → in_window (key_of s) w st → msg_finite (gen_bar symbols s d w g).2 →
  no_recon (spec_check (gen_bar symbols s d w g).2 st).1 ∧
  all_clear (spec_check (gen_bar symbols s d w g).2 st).2.
Proof using.
  intros Hd [Ho Hm] Hf. cbn [gen_bar snd] in *. set (b := mkWireBar _ _ _ _ _ _ _ _ _ _) in *.
  assert (Hb : bar_matches b w).
  { subst b. destruct d; try done; repeat split; intros Hv; cbn;
      (destruct (Z.eqb_spec (acc_volume w) 0); [done|reflexivity]). }
  unfold spec_check. change (msg_key (MBar b)) with (key_of s).
  destruct (bar_no_recon b _ w Hm Hb Hf) as [Hr Hc].
  destruct (check_slot (MBar b) _) as [s' r]. cbn [fst snd] in *. split; [done|].
  by apply clear_insert.
Qed.

(** A window: nothing is flagged, and unless the data set is complete the next one
    starts clear. *)
Lemma gen_window_sim s g g' ms st :
  reconciles (defect_of (pick (g_draws g))) → (s < length (g_px g))%nat → all_clear st →
  gen_window pick count_dist size_dist jitter n symbols s g = (g', ms) → Forall msg_finite ms →
  Forall no_recon (spec_check_all ms st).1 ∧ length (g_px g') = length (g_px g) ∧
  (g_size g' < n → all_clear (spec_check_all ms st).2).
Proof using Hsize.
  intros Hd Hs Hst E Hf. unfold gen_window in E.
  destruct (gen_trades _ _ _ _ _ _ _ _ _ _) as [[g1 w] ts] eqn:Et.
  destruct (gen_quotes _ _ _ _ _ _ _ _) as [g2 qs] eqn:Eq.
  assert (Hfts : Forall msg_finite ts).
  { destruct (n <=? g_size g2); [|destruct (gen_bar _ _ _ _ _)]; simplify_eq;
      by apply Forall_app in Hf as [? _]. }
  destruct (gen_trades_sim _ _ _ _ (drew 2 g) _ _ _ _ st Hs (window_opens _ _ Hst) Et Hfts)
    as (R1&W1&L1).
  destruct (gen_quotes_sim _ _ _ _ _ _ _ _ _ W1 Eq) as (R2&W2&L2). cbn [drew g_px] in L1.
  destruct (spec_check_all_app ts qs st) as [A1 A2].
  destruct (Z.leb_spec n (g_size g2)).
  { simplify_eq. rewrite A1. split; [by apply Forall_app|]. split; [congruence|lia]. }
  destruct (gen_bar symbols s _ w g2) as [g3 b] eqn:Eb. simplify_eq.
  apply Forall_app in Hf as [_ [_ [Hfb _]%Forall_cons]%Forall_app].
  pose proof (gen_bar_sim s _ w g2 _ Hd W2) as Hbar. rewrite Eb in Hbar.
  destruct (Hbar Hfb) as [Hr Hc]. cbn [snd] in *.
  destruct (spec_check_all_app ts (qs ++ [b]) st) as [-> ->].
  destruct (spec_check_all_app qs [b] (spec_check_all ts st).2) as [-> ->].
  cbn [spec_check_all]. destruct (spec_check b _) as [r st3]. cbn [fst snd] in *.
  split; [|split; [|done]].
  - rewrite !Forall_app. split; [done|]. split; [done|]. by constructor.
  - unfold gen_bar in Eb. injection Eb as <- _. cbn. congruence.
Qed.

Lemma gen_loop_sim fuel sym_count s g ms st :
  (∀ i, reconciles (defect_of (pick i))) → 0 < sym_count → length (g_px g) = Z.to_nat sym_count →
  all_clear st →
  gen_loop pick count_dist size_dist jitter n symbols fuel sym_count s g = Some ms →
  Forall msg_finite ms → Forall no_recon (spec_check_all ms st).1.
Proof using Hsize.
  intros Hp Hsc. revert s g ms st. induction fuel as [|fuel IH]; intros s g ms st Hl Hst; cbn [gen_loop].
  { destruct (g_size g <? n); [done|]. intros [= <-] _. constructor. }
  destruct (g_size g <? n); [|intros [= <-] _; constructor].
  destruct (gen_window _ _ _ _ _ _ _ _) as [g1 ms1] eqn:E.
  destruct (gen_loop _ _ _ _ _ _ fuel _ _ g1) as [rest|] eqn:Er; [|done].
  intros [= <-] [Hf1 Hf2]%Forall_app.
  assert (Hs : (Z.to_nat ((s + 1) mod sym_count) < length (g_px g))%nat).
  { pose proof (Z.mod_pos_bound (s + 1) sym_count Hsc). lia. }
  destruct (gen_window_sim _ _ _ _ st (Hp _) Hs Hst E Hf1) as (R1&L1&C1).
  destruct (spec_check_all_app ms1 rest st) as [-> _]. apply Forall_app. split; [done|].
  destruct (Z.lt_ge_cases (g_size g1) n) as [Hlt|Hge].
  - eapply IH; [by rewrite L1|by apply C1|exact Er|done].
  - assert (rest = []) as ->; [|constructor].
    destruct fuel; cbn [gen_loop] in Er; destruct (Z.ltb_spec (g_size g1) n); try lia; by simplify_eq.
Qed.

End Reconcile.

(** ** Whole data sets *)

Lemma gen_complete pick count_dist size_dist jitter n sym_count :
  (∀ i, 0 < count_dist i) → 0 <= n → 88 * n + 16 < 2 ^ 64 →
  ∃ ms, gen_main pick count_dist size_dist jitter n sym_count = Some ms ∧
    Z.of_nat (length ms) = n ∧
    view_replay (Some (dataset_file ms)) (Z.of_nat (length (dataset_file ms))) =
      mkReplayView (Some 16%nat) n None ∧
    ∀ i, 0 <= i < n → load_record (dataset_file ms) 16 i = (wrap_msg <$> ms) !! Z.to_nat i.
Proof.
  intros Hcd Hn Hmax. unfold gen_main. set (count := Z.max 1 sym_count).
  destruct (gen_loop_count pick count_dist size_dist jitter n (symbol_list count) ltac:(lia)
    (Z.to_nat n) count (count - 1) (gen_init count)) as (ms&Hms&Hlen); [done|cbn; lia|cbn; lia|].
  cbn [gen_init g_size] in Hlen. rewrite Z.sub_0_r in Hlen.
  exists ms. split; [done|]. split; [done|].
  assert (Hwf : Forall wf (wrap_msg <$> ms)).
  { apply Forall_fmap. eapply Forall_impl; [by eapply gen_loop_shape|]. apply wrap_msg_wf. }
  assert (Hlr : length (wrap_msg <$> ms) = length ms) by apply length_fmap.
  pose proof (length_records_image _ Hwf) as Hli. rewrite Hlr in Hli.
  unfold dataset_file. fold (header_with (Z.of_nat (length ms))).
  fold (records_image (wrap_msg <$> ms)). rewrite Hlen. split.
  - apply view_replay_image; unfold is_u64; lia.
  - intros i Hi. rewrite <- (app_nil_r (records_image _)).
    apply load_record_image; [apply length_header|done|lia].
Qed.

Lemma gen_reconcile pick count_dist size_dist jitter n sym_count ms :
  (∀ i, reconciles (defect_of (pick i))) → (∀ i, 1 <= size_dist i) →
  gen_main pick count_dist size_dist jitter n sym_count = Some ms → Forall msg_finite ms →
  (size (keys ms) <= Z.to_nat kCapacity)%nat →
  Forall no_recon (check_all ms validator_init).1.
Proof.
  intros Hp Hsz Hms Hf Hsize. destruct (check_all_spec ms Hsize) as [-> _].
  unfold gen_main in Hms. eapply gen_loop_sim; [exact Hsz|exact Hp| | | |exact Hms|done].
  - lia.
  - cbn [gen_init g_px]. by rewrite length_fmap, length_seqZ.
  - intros k s H. by rewrite lookup_empty in H.
Qed.

(** ** The properties *)

(** The generator terminates with a complete data set: whatever the random
    engine yields, as long as every window has a trade, exactly [n] records are
    produced, and the file is accepted by [view_replay], which reads back those
    records in order. *)
Theorem gen_dataset_complete pick count_dist size_dist jitter n sym_count :
  (∀ i, 0 < count_dist i) → 0 <= n → 88 * n + 16 < 2 ^ 64 →
  ∃ ms, gen_main pick count_dist size_dist jitter n sym_count = Some ms ∧
    Z.of_nat (length ms) = n ∧
    view_replay (Some (dataset_file ms)) (Z.of_nat (length (dataset_file ms))) =
      mkReplayView (Some 16%nat) n None ∧
    ∀ i, 0 <= i < n → load_record (dataset_file ms) 16 i = (wrap_msg <$> ms) !! Z.to_nat i.
Proof. apply gen_complete. Qed.

(** The injected defects are the only ones: if no window draws a bar-level
    defect or a price spike, then, over the whole data set with its interleaved
    symbols, corrupt ticks, gaps and timestamp regressions, no bar is ever flagged by
    reconstruction, because the corrupt ticks are left out on both sides. *)
Theorem gen_bars_reconcile pick count_dist size_dist jitter n sym_count ms :
  (∀ i, reconciles (defect_of (pick i))) → (∀ i, 1 <= size_dist i) →
  gen_main pick count_dist size_dist jitter n sym_count = Some ms → Forall msg_finite ms →
  (size (keys ms) <= Z.to_nat kCapacity)%nat →
  Forall no_recon (check_all ms validator_init).1.
Proof. apply gen_reconcile. Qed.

Lemma gen_dataset_complete_witness :
  ∃ ms, gen_main (λ i, i mod 100) (λ _, 8) (λ _, 5) (λ _, fzero) 40 3 = Some ms ∧
    Z.of_nat (length ms) = 40 ∧
    view_replay (Some (dataset_file ms)) (Z.of_nat (length (dataset_file ms))) =
      mkReplayView (Some 16%nat) 40 None ∧
    ∀ i, 0 <= i < 40 → load_record (dataset_file ms) 16 i = (wrap_msg <$> ms) !! Z.to_nat i.
Proof.
  apply (gen_dataset_complete (λ i, i mod 100) (λ _, 8) (λ _, 5) (λ _, fzero) 40 3); lia.
Defined.

(** Two windows of a corrupt tick each. *)
Lemma gen_bars_reconcile_witness :
  ∃ ms, gen_main (λ _, 0) (λ _, 2) (λ _, 5) (λ _, fzero) 10 2 = Some ms ∧
    length ms = 10%nat ∧ Forall no_recon (check_all ms validator_init).1.
Proof.
  eexists. split; [vm_compute; reflexivity|]. split; [reflexivity|].
  eapply (gen_bars_reconcile (λ _, 0) (λ _, 2) (λ _, 5) (λ _, fzero) 10 2).
  - done.
  - lia.
  - vm_compute. reflexivity.
  - repeat (apply Forall_cons_2; [by repeat split|]). constructor.
  - apply Nat.leb_le. vm_compute. reflexivity.
Defined.
