(* ===== verification/GenSequencing.v ===== *)
(** * gen_dataset: the sequencing defects are found, and no others

    Every record of a generated data set follows its symbol's previous one by one
    sequence number and one millisecond, but for the injected gaps and regressions.  The
    validator's sequencing flags over the whole data set are therefore those of the
    injected defects. *)

From stdpp Require Import base numbers list list_numbers gmap strings.
From Stdlib Require Import ZArith Lia.
From S2P Require Import Prelude Float64 Runtime Wire Replay Validator ValidatorTable ValidatorProps.
From S2P Require Import ValidatorChecks Timestamp Ingest LiveIngest.
From S2P Require Import Arbitrator ArbitratorProofs ArbitratorSessions Util Harness HarnessProofs.
From S2P Require Import ParserProofs LiveIngestProofs LiveIngestProps GenDataset GenDatasetProofs.

Local Open Scope Z_scope.

(** ** Symbols *)

Definition max_symbols : Z := 4096.

Definition gen_key (i : Z) : Z := symbol_key (set_symbol (make_symbol i)).

(** The index of a symbol, from its field. *)
Definition symbol_index (field : list byte) : Z :=
  match list_find (λ s, set_symbol s = field) kRealSymbols with
  | Some (i, _) => Z.of_nat i
  | None => digits_val (drop 1 field) 0
  end.

Lemma symbol_index_make i : 0 <= i < max_symbols → symbol_index (set_symbol (make_symbol i)) = i.
Proof.
  intros Hi.
  assert (Hall : forallb (λ i, symbol_index (set_symbol (make_symbol i)) =? i) (seqZ 0 max_symbols) = true)
    by (vm_compute; reflexivity).
  rewrite forallb_forall in Hall. apply Z.eqb_eq, Hall. apply list_elem_of_In, elem_of_seqZ. lia.
Qed.

Lemma gen_key_inj i j :
  0 <= i < max_symbols → 0 <= j < max_symbols → gen_key i = gen_key j → i = j.
Proof.
  intros Hi Hj H. rewrite <- (symbol_index_make i Hi), <- (symbol_index_make j Hj). f_equal.
  apply le_val_inj; [by rewrite !length_set_symbol|exact H].
Qed.

(** ** Windows *)

Section Windows.
Context (pick count_dist size_dist : Z → Z) (jitter : Z → double) (n count : Z).
Let symbols := symbol_list count.

(** The windows of a data set with the defect drawn for each. *)
Fixpoint gen_windows (fuel : nat) (s : Z) (g : Gen) : list (Defect * list Msg) :=
  if g_size g <? n then
    match fuel with
    | O => []
    | S f =>
        let s' := (s + 1) mod count in
        let '(g1, ms) := gen_window pick count_dist size_dist jitter n symbols (Z.to_nat s') g in
        (defect_of (pick (g_draws g)), ms) :: gen_windows f s' g1
    end
  else [].

Lemma gen_loop_windows fuel s g ms :
  gen_loop pick count_dist size_dist jitter n symbols fuel count s g = Some ms →
  ms = concat (gen_windows fuel s g).*2.
Proof using.
  revert s g ms. induction fuel as [|f IH]; intros s g ms; cbn [gen_loop gen_windows].
  { by destruct (g_size g <? n); intros; simplify_eq. }
  destruct (g_size g <? n); [|by intros; simplify_eq].
  destruct (gen_window _ _ _ _ _ _ _ g) as [g1 ms1].
  destruct (gen_loop _ _ _ _ _ _ f _ _ g1) as [rest|] eqn:E; [|done]. intros [= <-].
  cbn [fmap list_fmap concat snd]. f_equal. by apply IH.
Qed.

(** ** What the validator should say *)

(** The gap of a record, flagged when there is one, and its regression. *)
Definition seq_flags (e : Z * bool) (r : Result) : Prop :=
  r_gap r = e.1 ∧ has r kSequenceGap = (0 <? e.1) ∧ has r kTimestampRegression = e.2.

(** The first trade of window [j] has its defect flagged if its symbol has had a window
    before; the symbols take turns, so that is when [count <= j]. *)
Definition first_flags (j : Z) (d : Defect) : Z * bool :=
  if count <=? j then
    match d with DSeqGap => (3, false) | DTsRegress => (0, true) | _ => (0, false) end
  else (0, false).

Definition window_flags (j : Z) (w : Defect * list Msg) : list (Z * bool) :=
  first_flags j w.1 :: replicate (length w.2 - 1) (0, false).

Fixpoint expected_flags (j : Z) (ws : list (Defect * list Msg)) : list (Z * bool) :=
  match ws with
  | [] => []
  | w :: ws' => window_flags j w ++ expected_flags (j + 1) ws'
  end.

(** ** The running state *)

Definition ms1 : Z := 1000000.
Definition epoch : Z := 1700000000000000000.

(** Sequence and time of every symbol stay far from 2^64. *)
Record gen_ok (g : Gen) : Prop := {
  go_seqs : length (g_seq g) = Z.to_nat count;
  go_tss : length (g_ts g) = Z.to_nat count;
  go_seq : ∀ s, (s < Z.to_nat count)%nat → 1 <= seq_at s g <= 1 + 4 * g_size g;
  go_ts : ∀ s, (s < Z.to_nat count)%nat → epoch <= ts_at s g <= epoch + max_symbols * ms1 + g_size g * ms1
}.

Hypothesis Hcount : 1 <= count <= max_symbols.
Hypothesis Hn : 0 <= n <= 10 ^ 13.

Lemma gen_ok_init : gen_ok (gen_init count).
Proof using Hcount.
  unfold max_symbols in Hcount. split; cbn [gen_init g_seq g_ts g_size].
  - apply length_replicate.
  - by rewrite length_fmap, length_seqZ.
  - intros s Hs. unfold seq_at. cbn [g_seq gen_init]. rewrite lookup_replicate_2 by done. cbn. lia.
  - intros s Hs. unfold ts_at. cbn [g_ts gen_init]. rewrite list_lookup_fmap, lookup_seqZ_lt by lia.
    cbn [fmap option_fmap option_map default id]. unfold ms1, epoch, max_symbols, u64_mul.
    rewrite (u64_small (_ * _)) by (unfold is_u64; lia). rewrite u64_add_small by lia. lia.
Qed.

(** A record of symbol [s]: one number and one millisecond further, [extra] numbers
    skipped and the time set back by [back]. *)
Record emits (s : nat) (extra back : Z) (g : Gen) (m : Msg) (g1 : Gen) : Prop := {
  em_key : msg_key m = gen_key (Z.of_nat s);
  em_seq : msg_seq m = seq_at s g + 1 + extra;
  em_seq' : seq_at s g1 = msg_seq m;
  em_ts : msg_ts m = ts_at s g + ms1 - back;
  em_ts' : ts_at s g1 = ts_at s g + ms1;
  em_size : g_size g1 = g_size g + 1;
  em_other : ∀ s', s' ≠ s → seq_at s' g1 = seq_at s' g ∧ ts_at s' g1 = ts_at s' g;
  em_ok : gen_ok g1
}.

Lemma seq_at_insert s s' q g g1 :
  g_seq g1 = <[s := q]> (g_seq g) → (s < length (g_seq g))%nat →
  seq_at s' g1 = if decide (s' = s) then q else seq_at s' g.
Proof using.
  intros He Hs. unfold seq_at. rewrite He. case_decide as Hd; [subst; by rewrite list_lookup_insert_eq|].
  by rewrite list_lookup_insert_ne.
Qed.

Lemma ts_at_insert s s' t g g1 :
  g_ts g1 = <[s := t]> (g_ts g) → (s < length (g_ts g))%nat →
  ts_at s' g1 = if decide (s' = s) then t else ts_at s' g.
Proof using.
  intros He Hs. unfold ts_at. rewrite He. case_decide as Hd; [subst; by rewrite list_lookup_insert_eq|].
  by rewrite list_lookup_insert_ne.
Qed.

Lemma pushed_emits s extra back g m g1 :
  gen_ok g → (s < Z.to_nat count)%nat → 0 <= g_size g < n → 0 <= extra <= 3 →
  g_seq g1 = <[s := seq_at s g + 1 + extra]> (g_seq g) → g_ts g1 = <[s := ts_at s g + ms1]> (g_ts g) →
  g_size g1 = g_size g +u 1 →
  msg_key m = gen_key (Z.of_nat s) → msg_seq m = seq_at s g + 1 + extra → msg_ts m = ts_at s g + ms1 - back →
  emits s extra back g m g1.
Proof using Hcount Hn.
  intros [L1 L2 Hq Ht] Hs Hz He Eq Et Es Hk Hms Hmt. unfold max_symbols in Hcount.
  assert (Hsz : g_size g1 = g_size g + 1) by (rewrite Es; apply u64_add_small; lia).
  split; try done.
  - rewrite (seq_at_insert s s _ g g1 Eq), decide_True by lia || done. done.
  - rewrite (ts_at_insert s s _ g g1 Et), decide_True by lia || done. done.
  - intros s' Hne. rewrite (seq_at_insert s s' _ g g1 Eq), (ts_at_insert s s' _ g g1 Et), !decide_False by lia || done.
    done.
  - split; [by rewrite Eq, length_insert|by rewrite Et, length_insert|..].
    + intros s' Hs'. rewrite (seq_at_insert s s' _ g g1 Eq), Hsz by lia.
      specialize (Hq s' Hs') as Hq'. specialize (Hq s Hs). case_decide; lia.
    + intros s' Hs'. rewrite (ts_at_insert s s' _ g g1 Et), Hsz by lia.
      specialize (Ht s' Hs') as Ht'. specialize (Ht s Hs). unfold ms1 in *. case_decide; lia.
Qed.

(** The clock of a symbol, without wrap-around. *)
Lemma tick_small s g :
  gen_ok g → (s < Z.to_nat count)%nat → 0 <= g_size g < n →
  g_seq (tick_clock s g) = <[s := seq_at s g + 1]> (g_seq g) ∧
  g_ts (tick_clock s g) = <[s := ts_at s g + ms1]> (g_ts g).
Proof using Hcount Hn.
  intros [L1 L2 Hq Ht] Hs Hz. specialize (Hq s Hs). specialize (Ht s Hs).
  unfold max_symbols, ms1, epoch in *. unfold tick_clock. cbn [g_seq g_ts].
  change (default 0 (g_seq g !! s)) with (seq_at s g). change (default 0 (g_ts g !! s)) with (ts_at s g).
  rewrite !u64_add_small by lia. done.
Qed.

Lemma symbol_at_key s : (s < Z.to_nat count)%nat → symbol_key (symbol_at symbols s) = gen_key (Z.of_nat s).
Proof using Hcount.
  intros Hs. unfold symbol_at, symbols, symbol_list, gen_key. rewrite list_lookup_fmap, lookup_seqZ_lt by lia.
  done.
Qed.

(** How a defect disturbs the first trade of its window. *)
Definition skips (d : Defect) (k : Z) : Z := match d with DSeqGap => if k =? 0 then 3 else 0 | _ => 0 end.
Definition sets_back (d : Defect) (k : Z) : Z :=
  match d with DTsRegress => if k =? 0 then 5 * ms1 else 0 | _ => 0 end.

Lemma gen_trade_emits s d k g w :
  gen_ok g → (s < Z.to_nat count)%nat → 0 <= g_size g < n →
  let '(g1, _, m) := gen_trade size_dist jitter symbols s d k g w in
  emits s (skips d k) (sets_back d k) g m g1 ∧ msg_stream m = kTradeStream.
Proof using Hcount Hn.
  intros Hg Hs Hz. destruct (tick_small s g Hg Hs Hz) as [Tq Tt].
  pose proof (go_seq _ Hg s Hs) as Hq. pose proof (go_ts _ Hg s Hs) as Ht.
  pose proof (go_seqs _ Hg) as L1. pose proof (go_tss _ Hg) as L2.
  unfold max_symbols, ms1, epoch in *.
  set (g2 := drew 1 (step_price jitter s (tick_clock s g))).
  assert (Eq : g_seq g2 = <[s := seq_at s g + 1]> (g_seq g)) by exact Tq.
  assert (Et : g_ts g2 = <[s := ts_at s g + 1000000]> (g_ts g)) by exact Tt.
  assert (Sq : seq_at s g2 = seq_at s g + 1) by (rewrite (seq_at_insert s s _ g g2 Eq), decide_True by lia || done; done).
  assert (St : ts_at s g2 = ts_at s g + 1000000) by (rewrite (ts_at_insert s s _ g g2 Et), decide_True by lia || done; done).
  unfold gen_trade. fold g2. split; [|done].
  lazymatch goal with |- emits _ _ _ _ _ (pushed_one ?g) => set (g3 := g) end.
  assert (E3 : g_seq g3 = <[s := seq_at s g + 1 + skips d k]> (g_seq g) ∧ g_ts g3 = g_ts g2 ∧ g_size g3 = g_size g2).
  { subst g3. unfold skips. destruct d; try (rewrite Eq, Z.add_0_r; done).
    destruct (k =? 0); [|rewrite Eq, Z.add_0_r; done]. unfold bump_seq3. cbn [g_seq g_ts g_size].
    rewrite Eq, Sq, list_insert_insert_eq. rewrite u64_add_small by lia. done. }
  destruct E3 as (Eq3&Et3&Ez3).
  assert (Sq3 : seq_at s g3 = seq_at s g + 1 + skips d k)
    by (rewrite (seq_at_insert s s _ g g3 Eq3), decide_True by lia || done; done).
  apply pushed_emits; try done.
  - unfold skips. destruct d; try lia. destruct (k =? 0); lia.
  - cbn [pushed_one g_ts]. by rewrite Et3.
  - cbn [pushed_one g_size]. by rewrite Ez3.
  - by apply symbol_at_key.
  - cbn [msg_ts wt_ts_ns]. unfold sets_back, ms1. destruct d; try (rewrite St; lia).
    destruct (k =? 0); [|rewrite St; lia]. rewrite u64_sub_small by lia. lia.
Qed.

Lemma gen_quote_emits s d qk g :
  gen_ok g → (s < Z.to_nat count)%nat → 0 <= g_size g < n →
  let '(g1, m) := gen_quote size_dist symbols s d qk g in
  emits s 0 0 g m g1 ∧ msg_stream m = kQuoteStream.
Proof using Hcount Hn.
  intros Hg Hs Hz. destruct (tick_small s g Hg Hs Hz) as [Tq Tt].
  pose proof (go_seqs _ Hg) as L1. pose proof (go_tss _ Hg) as L2.
  assert (Sq : seq_at s (tick_clock s g) = seq_at s g + 1)
    by (rewrite (seq_at_insert s s _ g _ Tq), decide_True by lia || done; done).
  assert (St : ts_at s (tick_clock s g) = ts_at s g + ms1)
    by (rewrite (ts_at_insert s s _ g _ Tt), decide_True by lia || done; done).
  unfold gen_quote. destruct (match d with DQuoteCrossed => _ | _ => _ end) as [bid ask]. split; [|done].
  apply pushed_emits; try done; cbn [pushed_one drew g_seq g_ts]; rewrite ?Tq, ?Tt; try done; try lia.
  - by rewrite Z.add_0_r.
  - by apply symbol_at_key.
  - cbn [msg_seq wq_seq]. lia.
  - cbn [msg_ts wq_ts_ns]. lia.
Qed.

Lemma gen_bar_emits s d w g :
  gen_ok g → (s < Z.to_nat count)%nat → 0 <= g_size g < n →
  let '(g1, m) := gen_bar symbols s d w g in
  emits s 0 0 g m g1 ∧ msg_stream m = kBarStream.
Proof using Hcount Hn.
  intros Hg Hs Hz. destruct (tick_small s g Hg Hs Hz) as [Tq Tt].
  pose proof (go_seqs _ Hg) as L1. pose proof (go_tss _ Hg) as L2.
  assert (Sq : seq_at s (tick_clock s g) = seq_at s g + 1)
    by (rewrite (seq_at_insert s s _ g _ Tq), decide_True by lia || done; done).
  assert (St : ts_at s (tick_clock s g) = ts_at s g + ms1)
    by (rewrite (ts_at_insert s s _ g _ Tt), decide_True by lia || done; done).
  unfold gen_bar. split; [|done].
  apply pushed_emits; try done; cbn [pushed_one g_seq g_ts]; rewrite ?Tq, ?Tt; try done; try lia.
  - by rewrite Z.add_0_r.
  - by apply symbol_at_key.
  - cbn [msg_seq wb_seq]. lia.
  - cbn [msg_ts wb_start_ns]. lia.
Qed.

(** ** The validator on one symbol *)

(** The slot of symbol [s] agrees with the generator; [lag] is the time since the
    symbol's last trade. *)
Record tracks (s : nat) (g : Gen) (lag : Z) (sl : Slot) : Prop := {
  tr_seen : seen sl = true;
  tr_seq : last_seq sl = seq_at s g;
  tr_ts : ∀ c, last_ts_get c (last_ts sl) <= ts_at s g;
  tr_trade : ts_trade (last_ts sl) = ts_at s g - lag
}.

Definition new_lag (m : Msg) (back lag : Z) : Z :=
  match msg_stream m with kTradeStream => back | _ => lag + ms1 end.

Definition slot_at (s : nat) (st : gmap Z Slot) : Slot :=
  default (fresh_slot (gen_key (Z.of_nat s))) (st !! gen_key (Z.of_nat s)).

Lemma emits_spec_check s extra back g m g1 st :
  emits s extra back g m g1 →
  spec_check m st = ((check_slot m (slot_at s st)).2,
                     <[gen_key (Z.of_nat s) := (check_slot m (slot_at s st)).1]> st).
Proof using.
  intros He. unfold spec_check, slot_at. rewrite (em_key _ _ _ _ _ _ He). by destruct (check_slot m _).
Qed.

(** A record of a symbol already seen. *)
Lemma emits_tracked s extra back g m g1 lag sl :
  gen_ok g → (s < Z.to_nat count)%nat → 0 <= g_size g < n → 0 <= extra <= 3 → 0 <= back <= 5 * ms1 →
  emits s extra back g m g1 → tracks s g lag sl →
  seq_flags (extra, msg_ts m <? last_ts_get (msg_stream m) (last_ts sl)) (check_slot m sl).2 ∧
  tracks s g1 (new_lag m back lag) (check_slot m sl).1.
Proof using Hcount Hn.
  intros Hg Hs Hz Hex Hb He [Tv Tq Tt Tl]. destruct He as [_ Eq Eq' Et Et' _ _ _].
  pose proof (go_seq _ Hg s Hs) as Hq. pose proof (go_ts _ Hg s Hs) as Ht. clear Hcount.
  unfold max_symbols, epoch, ms1 in *.
  destruct (check_slot_seq m sl) as (Hl&Hsn&Hgap). destruct (check_slot_seq_flags m sl) as [Hf1 Hf2].
  rewrite Tv, Tq, u64_add_small in * by lia. rewrite andb_true_l in *.
  split.
  - split; [|split]; cbn [fst snd].
    + rewrite Hgap. destruct (Z.ltb_spec (seq_at s g + 1) (msg_seq m)); [|lia].
      rewrite !u64_sub_small by (rewrite ?u64_sub_small by lia; lia). lia.
    + rewrite Hf1. apply eq_true_iff_eq. rewrite !Z.ltb_lt. lia.
    + rewrite Hf2. destruct (Z.eqb_spec (last_ts_get (msg_stream m) (last_ts sl)) 0) as [->|]; [|done].
      cbn. symmetry. apply Z.ltb_ge. lia.
  - split; [done|by rewrite Hl|..]; rewrite check_slot_last_ts.
    + intros c. specialize (Tt c). rewrite Et'. destruct c, (msg_stream m); cbn in *; lia.
    + rewrite Et'. unfold new_lag, ms1. destruct (msg_stream m); cbn [last_ts_set ts_trade]; lia.
Qed.

(** The first record of a symbol. *)
Lemma emits_fresh s extra back g m g1 :
  gen_ok g → (s < Z.to_nat count)%nat → 0 <= back <= 5 * ms1 →
  emits s extra back g m g1 → msg_stream m = kTradeStream →
  let sl := fresh_slot (gen_key (Z.of_nat s)) in
  seq_flags (0, false) (check_slot m sl).2 ∧ tracks s g1 back (check_slot m sl).1.
Proof using Hcount.
  intros Hg Hs Hb He Hm sl. destruct He as [_ _ Eq' Et Et' _ _ _].
  pose proof (go_ts _ Hg s Hs) as Ht. unfold max_symbols, epoch, ms1 in *.
  destruct (check_slot_seq m sl) as (Hl&Hsn&Hgap). destruct (check_slot_seq_flags m sl) as [Hf1 Hf2].
  split.
  - split; [|split]; [exact Hgap|exact Hf1|]. rewrite Hf2, Hm. done.
  - split; [done|by rewrite Hl|..]; rewrite check_slot_last_ts, Hm.
    + intros c. destruct c; cbn; lia.
    + cbn. lia.
Qed.

(** ** A run of records without defect *)

Inductive steady (s : nat) : Gen → list Msg → Gen → Prop :=
  | steady_nil g : steady s g [] g
  | steady_cons g m g1 ms g2 :
      0 <= g_size g < n → emits s 0 0 g m g1 → steady s g1 ms g2 → steady s g (m :: ms) g2.

Lemma steady_app s g ms g1 ms' g2 : steady s g ms g1 → steady s g1 ms' g2 → steady s g (ms ++ ms') g2.
Proof using. induction 1; [done|]. intros. econstructor; eauto. Qed.

Lemma steady_ok s g ms g' : steady s g ms g' → gen_ok g → gen_ok g'.
Proof using. induction 1 as [|???????? IH]; [done|]. intros _. by apply IH, (em_ok _ _ _ _ _ _ H0). Qed.

Lemma steady_other s g ms g' s' :
  steady s g ms g' → s' ≠ s → seq_at s' g' = seq_at s' g ∧ ts_at s' g' = ts_at s' g.
Proof using.
  induction 1 as [|?????? He _ IH]; [done|]. intros Hne. destruct (em_other _ _ _ _ _ _ He s' Hne), (IH Hne). split; congruence.
Qed.

Definition run_lag (ms : list Msg) (lag : Z) : Z := foldl (λ l m, new_lag m 0 l) lag ms.

Lemma steady_run s g ms g' lag st sl :
  steady s g ms g' → gen_ok g → (s < Z.to_nat count)%nat →
  st !! gen_key (Z.of_nat s) = Some sl → tracks s g lag sl →
  Forall (seq_flags (0, false)) (spec_check_all ms st).1 ∧
  ∃ sl', (spec_check_all ms st).2 = <[gen_key (Z.of_nat s) := sl']> st ∧ tracks s g' (run_lag ms lag) sl'.
Proof using Hcount Hn.
  intros Hst. revert lag st sl.
  induction Hst as [g|g m g1 ms g2 Hz He _ IH]; intros lag st sl Hg Hs Hsl Ht.
  { split; [done|]. exists sl. split; [by rewrite insert_id|done]. }
  destruct (emits_tracked s 0 0 g m g1 lag sl Hg Hs Hz ltac:(lia) ltac:(unfold ms1; lia) He Ht) as [Hf Ht1].
  cbn [spec_check_all]. rewrite (emits_spec_check _ _ _ _ _ _ st He).
  unfold slot_at. rewrite Hsl. cbn [default id].
  assert (Hts : (msg_ts m <? last_ts_get (msg_stream m) (last_ts sl)) = false).
  { apply Z.ltb_ge. pose proof (tr_ts _ _ _ _ Ht (msg_stream m)). rewrite (em_ts _ _ _ _ _ _ He). unfold ms1. lia. }
  rewrite Hts in Hf.
  set (sl1 := (check_slot m sl).1) in *. set (st1 := <[gen_key (Z.of_nat s) := sl1]> st).
  destruct (IH _ st1 sl1 (em_ok _ _ _ _ _ _ He) Hs ltac:(apply lookup_insert_eq) Ht1) as (Hfs&sl'&He'&Ht').
  destruct (spec_check_all ms st1) as [rs st2]. cbn [fst snd] in *.
  split; [by constructor|]. exists sl'. split; [|exact Ht'].
  rewrite He'. unfold st1. by rewrite insert_insert_eq.
Qed.

(** ** A window *)

Lemma steady_size s g ms g' : steady s g ms g' → g_size g' = g_size g + Z.of_nat (length ms).
Proof using.
  induction 1 as [|????? _ He _ IH]; [cbn; lia|]. rewrite IH, (em_size _ _ _ _ _ _ He), length_cons. lia.
Qed.

Lemma gen_trades_steady todo s d k g w :
  gen_ok g → (s < Z.to_nat count)%nat → 0 <= g_size g → 1 <= k →
  let '(g', _, ms) := gen_trades size_dist jitter n symbols todo s d k g w in
  steady s g ms g' ∧ Forall (λ m, msg_stream m = kTradeStream) ms ∧ (g_size g' < n → length ms = todo).
Proof using Hcount Hn.
  revert k g w. induction todo as [|todo IH]; intros k g w Hg Hs Hz Hk; cbn [gen_trades].
  { split; [constructor|done]. }
  destruct (Z.ltb_spec (g_size g) n) as [Hlt|Hge].
  2: { split; [constructor|]. split; [done|lia]. }
  pose proof (gen_trade_emits s d k g w Hg Hs ltac:(lia)) as Ht.
  destruct (gen_trade _ _ _ _ _ _ _ _) as [[g1 w1] m]. destruct Ht as [He Hm].
  assert (Hk0 : (k =? 0) = false) by (apply Z.eqb_neq; lia).
  assert (Hd : skips d k = 0 ∧ sets_back d k = 0) by (unfold skips, sets_back; rewrite Hk0; by destruct d).
  destruct Hd as [-> ->] in He. pose proof (em_size _ _ _ _ _ _ He) as Hsz.
  specialize (IH (k + 1) g1 w1 (em_ok _ _ _ _ _ _ He) Hs ltac:(lia) ltac:(lia)).
  destruct (gen_trades _ _ _ _ todo _ _ _ _ _) as [[g2 w2] ms]. destruct IH as (S1&F1&L1).
  split; [econstructor; [|exact He|exact S1]; lia|]. split; [by constructor|].
  intros Hlt2. cbn. by rewrite L1.
Qed.

Lemma gen_quotes_steady todo s d qk g :
  gen_ok g → (s < Z.to_nat count)%nat → 0 <= g_size g →
  let '(g', ms) := gen_quotes size_dist n symbols todo s d qk g in
  steady s g ms g' ∧ Forall (λ m, msg_stream m = kQuoteStream) ms ∧ (g_size g' < n → length ms = todo).
Proof using Hcount Hn.
  revert qk g. induction todo as [|todo IH]; intros qk g Hg Hs Hz; cbn [gen_quotes].
  { split; [constructor|done]. }
  destruct (Z.ltb_spec (g_size g) n) as [Hlt|Hge].
  2: { split; [constructor|]. split; [done|lia]. }
  pose proof (gen_quote_emits s d qk g Hg Hs ltac:(lia)) as Ht.
  destruct (gen_quote _ _ _ _ _ _) as [g1 m]. destruct Ht as [He Hm].
  pose proof (em_size _ _ _ _ _ _ He) as Hsz.
  specialize (IH (qk + 1) g1 (em_ok _ _ _ _ _ _ He) Hs ltac:(lia)).
  destruct (gen_quotes _ _ _ todo _ _ _ _) as [g2 ms]. destruct IH as (S1&F1&L1).
  split; [econstructor; [|exact He|exact S1]; lia|]. split; [by constructor|].
  intros Hlt2. cbn. by rewrite L1.
Qed.

Lemma run_lag_trades ms lag :
  Forall (λ m, msg_stream m = kTradeStream) ms → ms ≠ [] → run_lag ms lag = 0.
Proof using.
  revert lag. induction ms as [|m ms IH]; [done|]. intros lag [Hm Hms]%Forall_cons _.
  unfold run_lag. cbn [foldl]. unfold new_lag at 2. rewrite Hm.
  destruct ms as [|m' ms]; [done|]. by apply IH.
Qed.

Lemma run_lag_others ms lag :
  Forall (λ m, msg_stream m ≠ kTradeStream) ms → run_lag ms lag = lag + Z.of_nat (length ms) * ms1.
Proof using.
  revert lag. induction ms as [|m ms IH]; [cbn; lia|]. intros lag [Hm Hms]%Forall_cons.
  unfold run_lag. cbn [foldl]. unfold new_lag at 2. fold (run_lag ms).
  destruct (msg_stream m); [done| |]; unfold run_lag in IH; rewrite IH by done; rewrite length_cons; unfold ms1; lia.
Qed.

Lemma gen_ok_drew k g : gen_ok g → gen_ok (drew k g).
Proof using. intros [L1 L2 Hq Ht]. split; [exact L1|exact L2|exact Hq|exact Ht]. Qed.

(** What follows the first trade: the other trades, the quotes and the bar. *)
Lemma trades_quotes_steady s d todo g w :
  gen_ok g → (s < Z.to_nat count)%nat → 0 <= g_size g → (0 < todo)%nat →
  let '(g1, w', ts) := gen_trades size_dist jitter n symbols todo s d 1 g w in
  let '(g2, qs) := gen_quotes size_dist n symbols 2 s d 0 g1 in
  steady s g (ts ++ qs) g2 ∧ gen_ok g2 ∧ (g_size g2 < n → ∀ lag, run_lag (ts ++ qs) lag = 2 * ms1).
Proof using Hcount Hn.
  intros Hg Hs Hz Htodo. pose proof (gen_trades_steady todo s d 1 g w Hg Hs Hz ltac:(lia)) as Ht.
  destruct (gen_trades _ _ _ _ _ _ _ _ _ _) as [[g1 w'] ts]. destruct Ht as (S1&F1&L1).
  pose proof (steady_ok _ _ _ _ S1 Hg) as Hg1. pose proof (steady_size _ _ _ _ S1) as Z1.
  pose proof (gen_quotes_steady 2 s d 0 g1 Hg1 Hs ltac:(lia)) as Hq.
  destruct (gen_quotes _ _ _ _ _ _ _ _) as [g2 qs]. destruct Hq as (S2&F2&L2).
  pose proof (steady_size _ _ _ _ S2) as Z2.
  split; [by eapply steady_app|]. split; [by eapply steady_ok|].
  intros Hlt lag. unfold run_lag. rewrite foldl_app. fold (run_lag ts lag).
  rewrite run_lag_trades; [|done|intros Hnil; specialize (L1 ltac:(lia)); rewrite Hnil in L1; cbn in L1; lia].
  fold (run_lag qs 0). rewrite run_lag_others, L2; [done|done|].
  eapply Forall_impl; [exact F2|]. by intros m ->.
Qed.

(** The shape of a window: the trade that carries the defect, then a steady run. *)
Lemma window_first_then_steady s g :
  gen_ok g → (s < Z.to_nat count)%nat → 0 <= g_size g < n → 2 <= count_dist (g_draws g + 1) →
  let d := defect_of (pick (g_draws g)) in
  let '(g1, ms) := gen_window pick count_dist size_dist jitter n symbols s g in
  ∃ m0 g0 rest, ms = m0 :: rest ∧ emits s (skips d 0) (sets_back d 0) (drew 2 g) m0 g0 ∧
    msg_stream m0 = kTradeStream ∧ steady s g0 rest g1 ∧
    (g_size g1 < n → ∀ lag, run_lag rest lag = 3 * ms1).
Proof using Hcount Hn.
  intros Hg Hs Hz Hcd d. unfold gen_window. fold d.
  destruct (Z.to_nat (count_dist (g_draws g + 1))) as [|todo] eqn:Etodo; [lia|]. cbn [gen_trades].
  change (g_size (drew 2 g)) with (g_size g). destruct (Z.ltb_spec (g_size g) n); [|lia].
  pose proof (gen_trade_emits s d 0 (drew 2 g) win_init (gen_ok_drew 2 g Hg) Hs Hz) as Ht.
  destruct (gen_trade _ _ _ _ _ _ _ _) as [[g0 w0] m0]. destruct Ht as [He Hm].
  pose proof (em_size _ _ _ _ _ _ He) as Z0. change (g_size (drew 2 g)) with (g_size g) in Z0.
  pose proof (em_ok _ _ _ _ _ _ He) as Hg0. change (0 + 1) with 1.
  pose proof (trades_quotes_steady s d todo g0 w0 Hg0 Hs ltac:(lia) ltac:(lia)) as Hr.
  destruct (gen_trades _ _ _ _ _ _ _ _ _ _) as [[g1 w1] ts].
  destruct (gen_quotes _ _ _ _ _ _ _ _) as [g2 qs]. destruct Hr as (S1&Hg2&Lag).
  destruct (Z.leb_spec n (g_size g2)) as [Hge|Hlt].
  { exists m0, g0, (ts ++ qs). split; [done|]. split; [done|]. split; [done|]. split; [done|lia]. }
  pose proof (steady_size _ _ _ _ S1) as Z2.
  pose proof (gen_bar_emits s d w1 g2 Hg2 Hs ltac:(lia)) as Hb.
  destruct (gen_bar _ _ _ _ _) as [g3 b]. destruct Hb as [Hb Hbm].
  exists m0, g0, ((ts ++ qs) ++ [b]). split; [by rewrite <- app_assoc|]. split; [done|]. split; [done|].
  split.
  - eapply steady_app; [exact S1|]. eapply steady_cons; [lia|exact Hb|constructor].
  - intros _ lag. unfold run_lag. rewrite foldl_app. fold (run_lag (ts ++ qs) lag). rewrite Lag by lia.
    cbn [foldl]. unfold new_lag. rewrite Hbm. unfold ms1. lia.
Qed.

(** What is known of the slot of symbol [s] before window [j]: the symbol is new, or it
    had a complete window. *)
Definition slot_before (j : Z) (s : nat) (g : Gen) (o : option Slot) : Prop :=
  match o with
  | Some sl => count <= j ∧ tracks s g (3 * ms1) sl
  | None => j < count
  end.

Lemma first_trade_flags j s g st m0 g0 :
  let d := defect_of (pick (g_draws g)) in
  gen_ok g → (s < Z.to_nat count)%nat → 0 <= g_size g < n →
  slot_before j s g (st !! gen_key (Z.of_nat s)) →
  emits s (skips d 0) (sets_back d 0) (drew 2 g) m0 g0 → msg_stream m0 = kTradeStream →
  seq_flags (first_flags j d) (check_slot m0 (slot_at s st)).2 ∧
  ∃ lag, tracks s g0 lag (check_slot m0 (slot_at s st)).1.
Proof using Hcount Hn.
  intros d Hg Hs Hz Hsl He Hm. apply (gen_ok_drew 2) in Hg.
  assert (Hex : 0 <= skips d 0 <= 3) by (destruct d; cbn; lia).
  assert (Hb : 0 <= sets_back d 0 <= 5 * ms1) by (unfold sets_back, ms1; destruct d; cbn; lia).
  unfold slot_at, first_flags. destruct (st !! gen_key (Z.of_nat s)) as [sl|]; cbn [slot_before default id] in *.
  - destruct Hsl as [Hj Ht]. assert (Ht' : tracks s (drew 2 g) (3 * ms1) sl) by (destruct Ht; by split).
    destruct (emits_tracked s _ _ _ m0 g0 _ sl Hg Hs Hz Hex Hb He Ht') as [Hf Ht1].
    split; [|by eexists]. destruct (Z.leb_spec count j); [|lia].
    assert (E : (msg_ts m0 <? last_ts_get (msg_stream m0) (last_ts sl)) = bool_decide (sets_back d 0 = 5 * ms1)).
    { rewrite Hm, (em_ts _ _ _ _ _ _ He). cbn [last_ts_get]. rewrite (tr_trade _ _ _ _ Ht').
      unfold ms1. apply eq_true_iff_eq. rewrite Z.ltb_lt, bool_decide_eq_true.
      destruct d; cbn [sets_back]; unfold ms1; cbn; lia. }
    rewrite E in Hf. destruct d; exact Hf.
  - destruct (emits_fresh s _ _ _ m0 g0 Hg Hs Hb He Hm) as [Hf Ht1].
    split; [|by eexists]. destruct (Z.leb_spec count j); [lia|exact Hf].
Qed.

Lemma spec_check_all_length ms st : length (spec_check_all ms st).1 = length ms.
Proof using.
  revert st. induction ms as [|m ms IH]; intros st; [done|]. rewrite spec_check_all_cons. cbn. by rewrite IH.
Qed.

Lemma gen_window_run j s g st :
  gen_ok g → (s < Z.to_nat count)%nat → 0 <= g_size g < n → 2 <= count_dist (g_draws g + 1) →
  slot_before j s g (st !! gen_key (Z.of_nat s)) →
  let '(g1, ms) := gen_window pick count_dist size_dist jitter n symbols s g in
  Forall2 seq_flags (window_flags j (defect_of (pick (g_draws g)), ms)) (spec_check_all ms st).1 ∧
  gen_ok g1 ∧ g_size g < g_size g1 ∧
  (∀ s', s' ≠ s → seq_at s' g1 = seq_at s' g ∧ ts_at s' g1 = ts_at s' g) ∧
  ∃ sl, (spec_check_all ms st).2 = <[gen_key (Z.of_nat s) := sl]> st ∧
    (g_size g1 < n → tracks s g1 (3 * ms1) sl).
Proof using Hcount Hn.
  intros Hg Hs Hz Hcd Hsl. pose proof (window_first_then_steady s g Hg Hs Hz Hcd) as Hw. cbn zeta in Hw.
  destruct (gen_window _ _ _ _ _ _ _ _) as [g1 ms]. destruct Hw as (m0&g0&rest&->&He&Hm&S1&Hlag).
  destruct (first_trade_flags j s g st m0 g0 Hg Hs Hz Hsl He Hm) as [Hf [lag Ht]].
  pose proof (em_ok _ _ _ _ _ _ He) as Hg0. pose proof (em_size _ _ _ _ _ _ He) as Z0.
  change (g_size (drew 2 g)) with (g_size g) in Z0. pose proof (steady_size _ _ _ _ S1) as Z1.
  cbn [spec_check_all]. rewrite (emits_spec_check _ _ _ _ _ _ st He).
  set (sl0 := (check_slot m0 (slot_at s st)).1) in *. set (st0 := <[gen_key (Z.of_nat s) := sl0]> st).
  destruct (steady_run s g0 rest g1 lag st0 sl0 S1 Hg0 Hs ltac:(apply lookup_insert_eq) Ht) as (Hfs&sl&Est&Ht').
  pose proof (steady_ok _ _ _ _ S1 Hg0) as Hg1.
  assert (Hlen : length (spec_check_all rest st0).1 = length rest) by apply spec_check_all_length.
  destruct (spec_check_all rest st0) as [rs st1]. cbn [fst snd] in *.
  split; [|split; [done|split; [lia|split]]].
  - unfold window_flags. cbn [fst snd length]. constructor; [exact Hf|].
    rewrite Nat.sub_succ, Nat.sub_0_r, <- Hlen. clear -Hfs. induction Hfs; cbn; by constructor.
  - intros s' Hne. destruct (steady_other _ _ _ _ s' S1 Hne) as [-> ->]. by destruct (em_other _ _ _ _ _ _ He s' Hne) as [-> ->].
  - exists sl. split; [by rewrite Est; unfold st0; rewrite insert_insert_eq|].
    intros Hlt. by rewrite (Hlag Hlt) in Ht'.
Qed.

(** ** The whole loop *)

(** Before window [j], the symbols below [j] have had complete windows and the others
    have not been seen. *)
Record loop_inv (j : Z) (g : Gen) (st : gmap Z Slot) : Prop := {
  li_ok : gen_ok g;
  li_size : 0 <= g_size g;
  li_slots : ∀ i, 0 <= i < count →
    match st !! gen_key i with
    | Some sl => i < j ∧ (g_size g < n → tracks (Z.to_nat i) g (3 * ms1) sl)
    | None => j <= i
    end;
  li_dom : dom st ⊆ list_to_set (gen_key <$> seqZ 0 count)
}.

Lemma loop_inv_init : loop_inv 0 (gen_init count) ∅.
Proof using Hcount. 
  split; [by apply gen_ok_init|done| |by rewrite dom_empty_L]. intros i Hi. rewrite lookup_empty. lia.
Qed.

Lemma loop_inv_step j g st :
  let s := Z.to_nat (j mod count) in
  loop_inv j g st → 0 <= j → g_size g < n → 2 <= count_dist (g_draws g + 1) →
  let '(g1, ms) := gen_window pick count_dist size_dist jitter n symbols s g in
  Forall2 seq_flags (window_flags j (defect_of (pick (g_draws g)), ms)) (spec_check_all ms st).1 ∧
  loop_inv (j + 1) g1 (spec_check_all ms st).2.
Proof using Hcount Hn.
  intros s [Hg Hz Hsl Hdom] Hj Hlt Hcd. pose proof (Z.mod_pos_bound j count ltac:(lia)) as Hb.
  assert (Hs : (s < Z.to_nat count)%nat) by (subst s; lia).
  assert (Hzs : Z.of_nat s = j mod count) by (subst s; lia).
  assert (Hbefore : slot_before j s g (st !! gen_key (Z.of_nat s))).
  { rewrite Hzs. specialize (Hsl _ Hb). destruct (st !! _) as [sl|]; cbn.
    - destruct Hsl as [Hlt' Ht]. split; [|by apply Ht].
      destruct (Z_lt_le_dec j count) as [Hc|]; [|done]. rewrite Z.mod_small in Hlt' by lia. lia.
    - pose proof (Z.mod_le j count Hj ltac:(lia)). lia. }
  pose proof (gen_window_run j s g st Hg Hs (conj Hz Hlt) Hcd Hbefore) as Hw.
  destruct (gen_window _ _ _ _ _ _ _ _) as [g1 ms]. destruct Hw as (Hf&Hg1&Hz1&Hoth&sl&Est&Ht).
  split; [done|]. rewrite Est, Hzs. split; [done|lia| |].
  2: { rewrite dom_insert_L. apply union_subseteq. split; [|done]. apply singleton_subseteq_l.
       apply elem_of_list_to_set, list_elem_of_fmap. eexists. split; [done|]. apply elem_of_seqZ. lia. }
  intros i Hi.
  destruct (Z.eq_dec i (j mod count)) as [->|Hne].
  - rewrite lookup_insert_eq. split; [|done]. pose proof (Z.mod_le j count Hj ltac:(lia)). lia.
  - rewrite lookup_insert_ne by (intros E; apply gen_key_inj in E; lia).
    specialize (Hsl i Hi). destruct (st !! gen_key i) as [sl'|].
    + destruct Hsl as [Hij Ht']. split; [lia|]. intros Hlt1. destruct (Ht' Hlt) as [T1 T2 T3 T4].
      destruct (Hoth (Z.to_nat i) ltac:(lia)) as [Eq Et]. by split; [|rewrite Eq|rewrite Et|rewrite Et].
    + destruct (Z_lt_le_dec j count) as [Hc|Hc]; [rewrite Z.mod_small in Hne by lia|]; lia.
Qed.

Lemma gen_windows_run fuel j s g st :
  (∀ i, 2 <= count_dist i) → loop_inv j g st → 0 <= j → (s + 1) mod count = j mod count →
  let ws := gen_windows fuel s g in
  Forall2 seq_flags (expected_flags j ws) (spec_check_all (concat ws.*2) st).1 ∧
  dom (spec_check_all (concat ws.*2) st).2 ⊆ list_to_set (gen_key <$> seqZ 0 count).
Proof using Hcount Hn.
  intros Hcd. cbn zeta. revert j s g st. induction fuel as [|f IH]; intros j s g st Hinv Hj Hs; cbn [gen_windows].
  { destruct (g_size g <? n); cbn; by split; [constructor|apply (li_dom _ _ _ Hinv)]. }
  destruct (Z.ltb_spec (g_size g) n) as [Hlt|]; [|cbn; by split; [constructor|apply (li_dom _ _ _ Hinv)]].
  rewrite Hs. pose proof (loop_inv_step j g st Hinv Hj Hlt (Hcd _)) as Hw. cbn zeta in Hw.
  destruct (gen_window _ _ _ _ _ _ _ _) as [g1 ms]. destruct Hw as [Hf Hinv1].
  cbn [expected_flags fmap list_fmap concat snd].
  destruct (spec_check_all_app ms (concat (gen_windows f (j mod count) g1).*2) st) as [-> ->].
  specialize (IH (j + 1) (j mod count) g1 _ Hinv1 ltac:(lia) ltac:(by rewrite Zplus_mod_idemp_l)) as [Hr Hd].
  split; [by apply Forall2_app|done].
Qed.

Lemma size_gen_keys : (size (list_to_set (C := gset Z) (gen_key <$> seqZ 0 count)) <= Z.to_nat kCapacity)%nat.
Proof using Hcount.
  unfold max_symbols in Hcount. change kCapacity with 4096.
  transitivity (Z.to_nat count); [|lia].
  rewrite <- (length_seqZ 0 count), <- (length_fmap gen_key). generalize (gen_key <$> seqZ 0 count) as l.
  clear. induction l as [|x l IH]; [done|]. cbn [list_to_set length]. rewrite size_union_alt, size_singleton.
  pose proof (subseteq_size (list_to_set l ∖ {[x]}) (list_to_set l : gset Z) ltac:(set_solver)). lia.
Qed.

End Windows.

(** ** Whole data sets *)

(** The windows of the program's data set. *)
Definition dataset_windows (pick count_dist size_dist : Z → Z) (jitter : Z → double) (n count : Z)
    : list (Defect * list Msg) :=
  gen_windows pick count_dist size_dist jitter n count (Z.to_nat n) (count - 1) (gen_init count).

(** Their records are the data set, the sequencing flags are as expected, and their
    symbols fit into the table. *)
Lemma dataset_windows_spec pick count_dist size_dist jitter n sym_count :
  (∀ i, 2 <= count_dist i) → 0 <= n <= 10 ^ 13 → sym_count <= max_symbols →
  let count := Z.max 1 sym_count in
  let ws := dataset_windows pick count_dist size_dist jitter n count in
  gen_main pick count_dist size_dist jitter n sym_count = Some (concat ws.*2) ∧
  (check_all (concat ws.*2) validator_init).1 = (spec_check_all (concat ws.*2) ∅).1 ∧
  Forall2 seq_flags (expected_flags count 0 ws) (check_all (concat ws.*2) validator_init).1.
Proof.
  intros Hcd Hn Hsym count ws. assert (Hcount : 1 <= count <= max_symbols) by (unfold max_symbols in *; lia).
  destruct (gen_complete pick count_dist size_dist jitter n sym_count) as (ms&Hms&_);
    [intros i; specialize (Hcd i); lia|lia|lia|].
  pose proof (gen_loop_windows _ _ _ _ _ _ _ _ _ _ Hms) as Ems. fold count in Ems.
  fold (dataset_windows pick count_dist size_dist jitter n count) in Ems. fold ws in Ems.
  split; [by rewrite Hms, Ems|].
  destruct (gen_windows_run pick count_dist size_dist jitter n count Hcount Hn (Z.to_nat n) 0 (count - 1)
    (gen_init count) ∅) as [Hf Hd]; [done|by apply loop_inv_init|lia| |].
  { rewrite Z.sub_add, Z.mod_same, Z.mod_0_l by lia. done. }
  fold (dataset_windows pick count_dist size_dist jitter n count) in Hf, Hd. fold ws in Hf, Hd.
  destruct (check_all_spec (concat ws.*2)) as [-> _]; [|done].
  rewrite spec_check_all_dom, dom_empty_L, union_empty_r_L in Hd.
  etrans; [by apply subseteq_size|]. by apply size_gen_keys.
Qed.

(** Over a whole generated data set, with its symbols taking turns, the validator
    reports a sequence gap exactly on the first trade of the windows that drew one, with
    the three numbers that were skipped, and a timestamp regression exactly on the first
    trade of the windows that drew one; only the first window of each symbol is exempt,
    which has no record to be compared with.  Corrupt ticks and the other defects never
    disturb the sequencing checks.  Up to 4096 symbols, whatever the random engine
    yields, when every window has two trades (the program draws 8 to 12). *)
Theorem gen_sequencing_exact pick count_dist size_dist jitter n sym_count :
  (∀ i, 2 <= count_dist i) → 0 <= n <= 10 ^ 13 → sym_count <= max_symbols →
  let count := Z.max 1 sym_count in
  let ws := dataset_windows pick count_dist size_dist jitter n count in
  gen_main pick count_dist size_dist jitter n sym_count = Some (concat ws.*2) ∧
  Forall2 seq_flags (expected_flags count 0 ws) (check_all (concat ws.*2) validator_init).1.
Proof.
  intros Hcd Hn Hsym count ws.
  by destruct (dataset_windows_spec pick count_dist size_dist jitter n sym_count) as (H1&_&H2).
Qed.

(** Three symbols, windows that draw a gap, a regression and a corrupt tick in turn. *)
Lemma gen_sequencing_exact_witness :
  let ws := dataset_windows (λ i, i mod 3) (λ _, 2) (λ _, 5) (λ _, fzero) 40 3 in
  gen_main (λ i, i mod 3) (λ _, 2) (λ _, 5) (λ _, fzero) 40 3 = Some (concat ws.*2) ∧
  length ws = 8%nat ∧ ws.*1 ≠ replicate 8 DClean ∧
  Forall2 seq_flags (expected_flags 3 0 ws) (check_all (concat ws.*2) validator_init).1.
Proof.
  destruct (gen_sequencing_exact (λ i, i mod 3) (λ _, 2) (λ _, 5) (λ _, fzero) 40 3) as [H1 H2];
    [lia|lia|by vm_compute|].
  split; [exact H1|]. split; [by vm_compute|]. split; [by vm_compute|exact H2].
Defined.
