(* ===== verification/GenRecon.v ===== *)
(** * gen_dataset: the reconstruction defects are found, and no others

    Over a whole generated data set the validator's reconstruction flags on the bars are
    explained by the injected defects: a volume or trade count mismatch is reported
    exactly for the windows that drew that defect, a vwap or OHLC mismatch only for
    windows that drew one, and no other record carries a reconstruction flag. *)

From stdpp Require Import base numbers list list_numbers gmap strings.
From Stdlib Require Import ZArith Lia.
From S2P Require Import Prelude Float64 Runtime Wire Replay Validator ValidatorTable ValidatorProps.
From S2P Require Import ValidatorChecks Timestamp Ingest LiveIngest.
From S2P Require Import Arbitrator ArbitratorProofs ArbitratorSessions Util Harness HarnessProofs.
From S2P Require Import ParserProofs LiveIngestProofs LiveIngestProps GenDataset GenDatasetProofs GenSequencing.

Local Open Scope Z_scope.

(** ** What the validator should say *)

(** The reconstruction flags of the bar of a window with defect [d]. *)
Definition recon_as (d : Defect) (r : Result) : Prop :=
  has r kBarVolumeReconstructMismatch = (match d with DReconVolume => true | _ => false end) ∧
  has r kBarTradeCountReconstructMismatch = (match d with DReconCount => true | _ => false end) ∧
  (has r kBarVwapReconstructMismatch = true → d = DReconVwap) ∧
  (has r kBarOhlcReconstructMismatch = true → d = DReconOhlc ∨ d = DBand).

(** A record of a window with defect [d] and its result. *)
Definition recon_ok (d : Defect) (m : Msg) (r : Result) : Prop :=
  match m with MBar _ => recon_as d r | _ => no_recon r end.

(** The records of the windows, each with the defect of its window. *)
Definition with_defects (ws : list (Defect * list Msg)) : list (Defect * Msg) :=
  concat ((λ w : Defect * list Msg, (λ m, (w.1, m)) <$> w.2) <$> ws).

Lemma with_defects_records ws : (with_defects ws).*2 = concat ws.*2.
Proof.
  induction ws as [|[d ms] ws IH]; [done|]. unfold with_defects in *. cbn [fmap list_fmap concat fst snd].
  rewrite fmap_app, IH. f_equal. induction ms as [|m ms IHm]; [done|]. cbn. by f_equal.
Qed.

Lemma Forall2_window d ms rs :
  Forall2 (recon_ok d) ms rs → Forall2 (λ dm r, recon_ok dm.1 dm.2 r) ((λ m, (d, m)) <$> ms) rs.
Proof. induction 1; cbn; by constructor. Qed.

Lemma no_recon_not_bar d ms rs :
  Forall no_recon rs → length ms = length rs → Forall (λ m, msg_stream m ≠ kBarStream) ms →
  Forall2 (recon_ok d) ms rs.
Proof.
  intros Hr. revert ms. induction Hr as [|r rs Hr _ IH]; intros [|m ms] Hl Hm; try done.
  apply Forall_cons in Hm as [Hm Hms]. constructor; [by destruct m|]. apply IH; [by injection Hl|done].
Qed.

(** ** The bar *)

Lemma u64_add_ne x k : 0 < k < 2 ^ 64 → x +u k ≠ x.
Proof.
  intros Hk He. pose proof (u64_add_is x k) as Hr. rewrite He in Hr. unfold is_u64 in Hr.
  unfold u64_add, u64 in He. destruct (Z_lt_le_dec (x + k) (2 ^ 64)).
  - rewrite Z.mod_small in He; lia.
  - rewrite <- (Z.mod_unique (x + k) (2 ^ 64) 1 (x + k - 2 ^ 64)) in He; lia.
Qed.

Lemma bar_recon_as symbols s d w g sl :
  let b := (gen_bar symbols s d w g).2 in
  acc_matches (acc sl) w → has_trades w = true → msg_finite b → recon_as d (check_slot b sl).2.
Proof.
  intros b Ha Hw Hf. destruct Ha as (Hh&Hc&Hv&Hp&_&Ho). destruct (Ho Hw) as (Eo&Eh&El&Ec).
  subst b. cbn [gen_bar snd] in *. set (b := mkWireBar _ _ _ _ _ _ _ _ _ _) in *.
  destruct Hf as (Fo&Fh&Fl&Fc&Fw).
  unfold recon_as. rewrite !bar_flags_reconstruct. unfold bar_conditions. flag_bits.
  rewrite Hh, Hw, Hv, Hc. cbn [andb orb]. rewrite !andb_false_r, !andb_true_r, ?orb_false_l, ?orb_false_r.
  assert (Hvw : vwap_mismatch (acc sl) b = true → d = DReconVwap).
  { unfold vwap_mismatch. destruct (Z.eqb_spec (acc_volume (acc sl)) 0) as [|Hnz]; [done|]. cbn [negb andb].
    rewrite Hp, Hv in *. subst b. cbn [wb_vwap] in *. destruct (Z.eqb_spec (acc_volume w) 0); [done|].
    cbn [negb] in *. destruct d; try done; by rewrite approx_refl. }
  assert (Hoh : ohlc_mismatch (acc sl) b = true → d = DReconOhlc ∨ d = DBand).
  { unfold ohlc_mismatch. rewrite Eo, Eh, El, Ec. subst b. cbn [wb_open wb_high wb_low wb_close] in *.
    destruct d; auto; by rewrite !approx_refl. }
  split; [|split; [|split; assumption]].
  - subst b. cbn [wb_volume]. destruct d; rewrite ?Z.eqb_refl; try done.
    destruct (Z.eqb_spec (acc_volume w) (acc_volume w +u 100)) as [He|]; [|done].
    by apply eq_sym, u64_add_ne in He.
  - subst b. cbn [wb_trade_count]. destruct d; rewrite ?Z.eqb_refl; try done.
    destruct (Z.eqb_spec (acc_count w) (acc_count w +u 1)) as [He|]; [|done].
    by apply eq_sym, u64_add_ne in He.
Qed.

Section Windows.
Context (pick count_dist size_dist : Z → Z) (jitter : Z → double) (n : Z) (symbols : list (list byte)).
Hypothesis Hsize : ∀ i, 1 <= size_dist i.

(** ** The records before the bar *)

Lemma gen_trades_not_bar todo s d k g w :
  Forall (λ m, msg_stream m ≠ kBarStream) (gen_trades size_dist jitter n symbols todo s d k g w).2.
Proof using.
  revert k g w. induction todo as [|todo IH]; intros k g w; cbn [gen_trades]; [constructor|].
  destruct (g_size g <? n); [|constructor].
  destruct (gen_trade _ _ _ _ _ _ _ _) as [[g1 w1] m] eqn:E. specialize (IH (k + 1) g1 w1).
  destruct (gen_trades _ _ _ _ todo _ _ _ _ _) as [[g2 w2] ms]. constructor; [|done].
  unfold gen_trade in E. by injection E as _ _ <-.
Qed.

Lemma gen_quotes_not_bar todo s d qk g :
  Forall (λ m, msg_stream m ≠ kBarStream) (gen_quotes size_dist n symbols todo s d qk g).2.
Proof using.
  revert qk g. induction todo as [|todo IH]; intros qk g; cbn [gen_quotes]; [constructor|].
  destruct (g_size g <? n); [|constructor].
  destruct (gen_quote _ _ _ _ _ _) as [g1 m] eqn:E. specialize (IH (qk + 1) g1).
  destruct (gen_quotes _ _ _ todo _ _ _ _) as [g2 ms]. constructor; [|done].
  unfold gen_quote in E. by destruct d, (qk =? 0); simplify_eq.
Qed.

(** After the first trade every one is valid, so the window has a trade. *)
Lemma gen_trades_has todo s d k g w :
  1 <= k →
  let '(g', w', _) := gen_trades size_dist jitter n symbols todo s d k g w in
  g_size g' < n → has_trades w = true ∨ (0 < todo)%nat → has_trades w' = true.
Proof using.
  revert k g w. induction todo as [|todo IH]; intros k g w Hk; cbn [gen_trades]; [intros _ [?|?]; [done|lia]|].
  destruct (Z.ltb_spec (g_size g) n); [|lia].
  destruct (gen_trade _ _ _ _ _ _ _ _) as [[g1 w1] m] eqn:E. specialize (IH (k + 1) g1 w1 ltac:(lia)).
  destruct (gen_trades _ _ _ _ todo _ _ _ _ _) as [[g2 w2] ms]. intros Hlt _. apply IH; [done|]. left.
  assert (Hk0 : (k =? 0) = false) by (apply Z.eqb_neq; lia).
  unfold gen_trade in E. rewrite Hk0 in E. injection E as _ <- _. by destruct d.
Qed.

Lemma gen_trades_two todo s d g w :
  let '(g', w', _) := gen_trades size_dist jitter n symbols (S (S todo)) s d 0 g w in
  g_size g' < n → has_trades w' = true.
Proof using.
  cbn [gen_trades]. destruct (Z.ltb_spec (g_size g) n); [|lia].
  destruct (gen_trade _ _ _ _ _ _ _ _) as [[g1 w1] m].
  pose proof (gen_trades_has (S todo) s d (0 + 1) g1 w1 ltac:(lia)) as H1. cbn [gen_trades] in H1.
  destruct (g_size g1 <? n).
  - destruct (gen_trade _ _ _ _ _ _ _ _) as [[g2 w2] m2].
    destruct (gen_trades _ _ _ _ todo _ _ _ _ _) as [[g3 w3] ms]. intros Hlt. apply H1; [done|right; lia].
  - intros Hlt. apply H1; [done|right; lia].
Qed.

Lemma gen_quotes_room todo s d qk g :
  g_size (gen_quotes size_dist n symbols todo s d qk g).1 < n → g_size g < n ∨ todo = 0%nat.
Proof using.
  destruct todo; [by right|]. cbn [gen_quotes]. destruct (Z.ltb_spec (g_size g) n); [by left|cbn; lia].
Qed.

(** ** A window *)

Lemma gen_window_recon s g g' ms st :
  (s < length (g_px g))%nat → all_clear st → 2 <= count_dist (g_draws g + 1) →
  gen_window pick count_dist size_dist jitter n symbols s g = (g', ms) → Forall msg_finite ms →
  Forall2 (recon_ok (defect_of (pick (g_draws g)))) ms (spec_check_all ms st).1 ∧
  length (g_px g') = length (g_px g) ∧ (g_size g' < n → all_clear (spec_check_all ms st).2).
Proof using Hsize.
  intros Hs Hst Hcd E Hf. unfold gen_window in E. set (d := defect_of (pick (g_draws g))) in *.
  destruct (Z.to_nat (count_dist (g_draws g + 1))) as [|[|todo]] eqn:Etodo; [lia..|].
  pose proof (gen_trades_two todo s d (drew 2 g) win_init) as Htwo.
  pose proof (gen_trades_not_bar (S (S todo)) s d 0 (drew 2 g) win_init) as Nts.
  destruct (gen_trades _ _ _ _ _ _ _ _ _ _) as [[g1 w] ts] eqn:Et.
  pose proof (gen_quotes_not_bar 2 s d 0 g1) as Nqs.
  pose proof (gen_quotes_room 2 s d 0 g1) as Hroom.
  destruct (gen_quotes _ _ _ _ _ _ _ _) as [g2 qs] eqn:Eq. cbn [snd fst] in *.
  assert (Hfts : Forall msg_finite ts).
  { destruct (n <=? g_size g2); [|destruct (gen_bar _ _ _ _ _)]; simplify_eq;
      by apply Forall_app in Hf as [? _]. }
  destruct (gen_trades_sim _ _ _ _ Hsize _ _ _ _ (drew 2 g) _ _ _ _ st Hs (window_opens _ _ Hst) Et Hfts)
    as (R1&W1&L1).
  destruct (gen_quotes_sim _ _ _ _ _ _ _ _ _ _ _ _ W1 Eq) as (R2&W2&L2). cbn [drew g_px] in L1.
  destruct (spec_check_all_app ts qs st) as [A1 A2].
  assert (Htq : Forall2 (recon_ok d) (ts ++ qs) (spec_check_all (ts ++ qs) st).1).
  { apply no_recon_not_bar; [rewrite A1; by apply Forall_app|by rewrite spec_check_all_length|by apply Forall_app]. }
  destruct (Z.leb_spec n (g_size g2)).
  { simplify_eq. split; [done|]. split; [congruence|lia]. }
  destruct (gen_bar symbols s d w g2) as [g3 b] eqn:Eb. simplify_eq. rewrite app_assoc in *.
  apply Forall_app in Hf as [_ [Hfb _]%Forall_cons].
  destruct (spec_check_all_app (ts ++ qs) [b] st) as [-> ->]. rewrite A2. destruct W2 as [Wo Wm].
  assert (Eb2 : b = (gen_bar symbols s d w g2).2) by by rewrite Eb.
  destruct Hroom as [Hroom|]; [lia| |done].
  pose proof (bar_recon_as symbols s d w g2 _ Wm (Htwo Hroom)) as Hbar. cbn zeta in Hbar.
  rewrite <- Eb2 in Hbar. specialize (Hbar Hfb).
  assert (Hb : ∃ b0, b = MBar b0 ∧ msg_key b = key_of symbols s) by (rewrite Eb2; cbn; eauto).
  destruct Hb as (b0&->&Hk). pose proof (bar_clears b0 _ _ Wm) as Hclear.
  cbn [spec_check_all]. unfold spec_check. rewrite Hk.
  destruct (check_slot (MBar b0) _) as [s' r]. cbn [fst snd] in *.
  split; [apply Forall2_app; [done|]; by constructor|]. split.
  - unfold gen_bar in Eb. injection Eb as <- _. cbn. congruence.
  - intros _. by apply clear_insert.
Qed.

End Windows.

(** ** The whole loop *)

Lemma gen_windows_recon pick count_dist size_dist jitter n count fuel s g st :
  (∀ i, 1 <= size_dist i) → (∀ i, 2 <= count_dist i) → 0 < count → length (g_px g) = Z.to_nat count →
  all_clear st →
  let ws := gen_windows pick count_dist size_dist jitter n count fuel s g in
  Forall msg_finite (concat ws.*2) →
  Forall2 (λ dm r, recon_ok dm.1 dm.2 r) (with_defects ws) (spec_check_all (concat ws.*2) st).1.
Proof.
  intros Hsize Hcd Hc. cbn zeta. revert s g st. induction fuel as [|f IH]; intros s g st Hl Hst; cbn [gen_windows].
  { by destruct (g_size g <? n); constructor. }
  destruct (g_size g <? n); [|by constructor].
  destruct (gen_window _ _ _ _ _ _ _ _) as [g1 ms] eqn:E. cbn [fmap list_fmap concat snd].
  intros [Hf1 Hf2]%Forall_app.
  assert (Hs : (Z.to_nat ((s + 1) mod count) < length (g_px g))%nat)
    by (pose proof (Z.mod_pos_bound (s + 1) count Hc); lia).
  destruct (gen_window_recon _ _ _ _ _ _ Hsize _ _ _ _ st Hs Hst (Hcd _) E Hf1) as (R1&L1&C1).
  destruct (spec_check_all_app ms (concat (gen_windows pick count_dist size_dist jitter n count f
    ((s + 1) mod count) g1).*2) st) as [-> _].
  unfold with_defects. cbn [fmap list_fmap concat fst snd].
  apply Forall2_app; [by apply Forall2_window|]. fold (with_defects (gen_windows pick count_dist size_dist jitter
    n count f ((s + 1) mod count) g1)).
  destruct (Z.lt_ge_cases (g_size g1) n) as [Hlt|Hge].
  - apply IH; [congruence|by apply C1|done].
  - assert (Hnil : gen_windows pick count_dist size_dist jitter n count f ((s + 1) mod count) g1 = []).
    { destruct f; cbn [gen_windows]; destruct (Z.ltb_spec (g_size g1) n); (done || lia). }
    rewrite Hnil. constructor.
Qed.

(** Over a whole generated data set, whatever defects are drawn and in whatever
    order, the reconstruction flags are explained by them: a bar is flagged for its volume
    exactly when its window drew the volume defect, for its trade count exactly when it
    drew the count defect, for its vwap only if it drew the vwap defect and for its prices
    only if it drew one of the two price defects; no other record has a reconstruction
    flag.  In particular corrupt ticks, gaps, regressions, spikes and quote defects never
    make a bar fail to reconstruct.  The trades and bars must carry finite numbers. *)
Theorem gen_reconstruction_exact pick count_dist size_dist jitter n sym_count :
  (∀ i, 2 <= count_dist i) → (∀ i, 1 <= size_dist i) → 0 <= n <= 10 ^ 13 → sym_count <= max_symbols →
  let ws := dataset_windows pick count_dist size_dist jitter n (Z.max 1 sym_count) in
  Forall msg_finite (concat ws.*2) →
  gen_main pick count_dist size_dist jitter n sym_count = Some (with_defects ws).*2 ∧
  Forall2 (λ dm r, recon_ok dm.1 dm.2 r) (with_defects ws) (check_all (with_defects ws).*2 validator_init).1.
Proof.
  intros Hcd Hsize Hn Hsym ws Hf.
  destruct (dataset_windows_spec pick count_dist size_dist jitter n sym_count) as (H1&H2&_); [done..|].
  cbn zeta in H1, H2. fold ws in H1, H2. rewrite with_defects_records, H2. split; [done|].
  apply gen_windows_recon; [done|done|lia| | |exact Hf].
  - cbn [gen_init g_px]. by rewrite length_fmap, length_seqZ.
  - intros k s H. by rewrite lookup_empty in H.
Qed.

(** Windows with a volume defect and a corrupt tick, over two symbols. *)
Lemma gen_reconstruction_exact_witness :
  let ws := dataset_windows (λ i, ((i / 12) mod 2) * 3) (λ _, 3) (λ _, 5) (λ _, fzero) 24 2 in
  gen_main (λ i, ((i / 12) mod 2) * 3) (λ _, 3) (λ _, 5) (λ _, fzero) 24 2 = Some (with_defects ws).*2 ∧
  DReconVolume ∈ ws.*1 ∧ DCorruptTrade ∈ ws.*1 ∧
  Forall2 (λ dm r, recon_ok dm.1 dm.2 r) (with_defects ws) (check_all (with_defects ws).*2 validator_init).1.
Proof.
  destruct (gen_reconstruction_exact (λ i, ((i / 12) mod 2) * 3) (λ _, 3) (λ _, 5) (λ _, fzero) 24 2) as [H1 H2];
    [lia|lia|lia|by vm_compute| |].
  - apply Forall_forall. intros m Hm. revert m Hm. apply Forall_forall. vm_compute.
    repeat (apply Forall_cons_2; [by repeat split|]). constructor.
  - split; [exact H1|]. split; [|split; [|exact H2]].
    + apply list_elem_of_In. vm_compute. tauto.
    + apply list_elem_of_In. vm_compute. tauto.
Defined.
