(* ===== verification/GenPrices.v ===== *)
(** * gen_dataset: the prices stay in range

    From the ranges of the two distributions that feed the prices, with every addition,
    product and quotient rounded: the running price of a symbol stays between one and a
    bound that grows by one half per record, the aggregate of a window stays finite, its
    low, open, close and high are in order, and its vwap is at least one.  So every number
    of the data set is finite. *)

From stdpp Require Import base numbers list list_numbers strings.
From Stdlib Require Import ZArith Lia.
From S2P Require Import Prelude Float64 Wire Validator GenDataset FloatRound PriceTolerance.

Local Open Scope Z_scope.

(** One half, in units. *)
Definition half : Z := 2 ^ 1073.

Lemma half_unit : 2 * half = unit.
Proof. by vm_compute. Qed.

(** A price of the data set: from one to [2^20]. *)
Definition priced (p : double) : Prop := number p ∧ unit <= fz p <= 2 ^ 20 * unit.

(** The running prices. *)
Definition px_ok (g : Gen) : Prop :=
  ∀ s, (s < length (g_px g))%nat → number (px_of s g) ∧ unit <= fz (px_of s g) <= (1180 + g_size g) * half.

Lemma rep_half k : Z.abs k <= 2 ^ 53 → rep (k * half).
Proof. intros. by apply rep_intro. Qed.

Lemma px_priced s g : px_ok g → (s < length (g_px g))%nat → g_size g <= 10 ^ 6 → priced (px_of s g).
Proof. intros Hg Hs Hz. destruct (Hg s Hs) as [H1 H2]. pose proof half_unit. pose proof unit_pos. split; [done|nia]. Qed.

Lemma gen_init_px count : px_ok (gen_init count).
Proof.
  intros s Hs. cbn [gen_init g_px] in Hs. rewrite length_fmap, length_seqZ in Hs.
  unfold px_of, gen_init. cbn [g_px g_size]. rewrite list_lookup_fmap, lookup_seqZ_lt by lia.
  cbn [fmap option_fmap option_map default id]. set (k := (0 + Z.of_nat s) mod 50).
  assert (Hk : 0 <= k < 50) by (apply Z.mod_pos_bound; lia). clearbody k.
  destruct (double_of_Z_exact k) as [N1 E1]; [lia|]. destruct (double_of_Z_exact 10) as [N2 E2]; [lia|].
  destruct (double_of_Z_exact 100) as [N3 E3]; [lia|]. pose proof unit_pos. pose proof half_unit.
  destruct (fmul_between (double_of_Z k) (double_of_Z 10) (0 * unit) (490 * unit)) as [N4 E4];
    [done|done|apply rep_unit; lia|apply rep_unit; lia|rewrite E1, E2; nia|].
  destruct (fadd_between (double_of_Z 100) (fmul (double_of_Z k) (double_of_Z 10)) (1 * unit) (590 * unit)) as [N5 E5];
    [done|done|apply rep_unit; lia|apply rep_unit; lia|lia|]. split; [done|lia].
Qed.

Section Prices.
Context (size_dist : Z → Z) (jitter : Z → double) (n : Z) (symbols : list (list byte)).
Hypothesis Hsize : ∀ i, 1 <= size_dist i <= 100.
Hypothesis Hjit : ∀ i, number (jitter i) ∧ 2 * Z.abs (fz (jitter i)) <= unit.
Hypothesis Hn : 0 <= n <= 10 ^ 6.

(** ** The running price *)

Lemma step_price_bounds s g :
  px_ok g → (s < length (g_px g))%nat → 0 <= g_size g < n →
  let p := px_of s (step_price jitter s (tick_clock s g)) in
  number p ∧ unit <= fz p <= (1181 + g_size g) * half.
Proof using Hjit Hn.
  intros Hg Hs Hz. unfold step_price. cbn [tick_clock g_draws g_px]. change (px_of s (tick_clock s g)) with (px_of s g).
  destruct (Hg s Hs) as [Np Ep]. destruct (Hjit (g_draws g)) as [Nj Ej]. pose proof half_unit. pose proof unit_pos.
  destruct (fadd_between (px_of s g) (jitter (g_draws g)) (1 * half) ((1181 + g_size g) * half)) as [N1 E1];
    [done|done|apply rep_half; lia|apply rep_half; lia|lia|].
  set (q := fadd _ _) in *. unfold px_of. cbn [g_px]. rewrite list_lookup_insert_eq by done. cbn [default id].
  rewrite flt_fz by (done || apply number_fone). rewrite fz_fone. destruct (Z.ltb_spec (fz q) unit).
  - split; [apply number_fone|]. rewrite fz_fone. lia.
  - split; [done|lia].
Qed.

(** It moves by the jitter, up to a rounding. *)
Lemma step_price_moves s g :
  px_ok g → (s < length (g_px g))%nat → 0 <= g_size g < n →
  Z.abs (fz (px_of s (step_price jitter s (tick_clock s g))) - fz (px_of s g)) <= half + 2 ^ 1050.
Proof using Hjit Hn.
  intros Hg Hs Hz. pose proof (px_priced s g Hg Hs ltac:(lia)) as [Np Ep].
  unfold step_price. cbn [tick_clock g_draws g_px]. change (px_of s (tick_clock s g)) with (px_of s g).
  destruct (Hjit (g_draws g)) as [Nj Ej]. pose proof half_unit. pose proof unit_pos.
  assert (Htop : 2 ^ 21 * unit < top) by (apply Z.ltb_lt; by vm_compute).
  assert (He : 2 ^ 21 * unit <= 2 ^ 1050 * 2 ^ 52) by (apply Z.leb_le; by vm_compute).
  generalize dependent (2 ^ 1050). intros e He.
  destruct (rounds_near_unit (fz (px_of s g) + fz (jitter (g_draws g))) (fadd (px_of s g) (jitter (g_draws g)))) as [Nq Eq];
    [lia|by apply fadd_rounds|].
  set (q := fadd _ _) in *. unfold px_of at 1. cbn [g_px]. rewrite list_lookup_insert_eq by done. cbn [default id].
  rewrite flt_fz by (done || apply number_fone). rewrite fz_fone, Z.mul_1_r in *.
  destruct (Z.ltb_spec (fz q) unit); rewrite ?fz_fone; lia.
Qed.

(** ** The aggregate of a window *)

Record win_ok (size : Z) (w : Acc) : Prop := {
  wo_count : 0 <= acc_count w <= size;
  wo_volume : acc_count w <= acc_volume w <= 100 * acc_count w;
  wo_pv : number (acc_pv w) ∧ acc_volume w * unit <= fz (acc_pv w) <= acc_volume w * (2 ^ 20 * unit);
  wo_prices : has_trades w = true →
    1 <= acc_count w ∧ priced (acc_open w) ∧ priced (acc_high w) ∧ priced (acc_low w) ∧ priced (acc_close w) ∧
    fz (acc_low w) <= fz (acc_open w) <= fz (acc_high w) ∧
    fz (acc_low w) <= fz (acc_close w) <= fz (acc_high w)
}.

Lemma win_ok_init size : 0 <= size → win_ok size win_init.
Proof using. intros. split; cbn; (done || lia). Qed.

Lemma win_ok_le size size' w : size <= size' → win_ok size w → win_ok size' w.
Proof using. intros Hle [H1 H2 H3 H4]. split; (done || lia). Qed.

Lemma win_ok_add size p z w :
  0 <= size < 10 ^ 6 → win_ok size w → priced p → 1 <= z <= 100 → win_ok (size + 1) (win_add p z w).
Proof using.
  intros Hsz [Hc Hv [Np Ep] Hpx] [Nq Eq] Hz. pose proof unit_pos. unfold win_add.
  assert (Ec : acc_count w +u 1 = acc_count w + 1) by (apply u64_add_small; lia).
  assert (Ev : acc_volume w +u z = acc_volume w + z) by (apply u64_add_small; lia).
  destruct (double_of_Z_exact z) as [Nz Ez]; [lia|].
  destruct (fmul_between p (double_of_Z z) (z * unit) (z * 2 ^ 20 * unit)) as [N1 E1];
    [done|done|apply rep_unit; lia|apply rep_unit; lia|rewrite Ez; nia|].
  destruct (fadd_between (acc_pv w) (fmul p (double_of_Z z)) ((acc_volume w + z) * unit)
    ((acc_volume w + z) * 2 ^ 20 * unit)) as [N2 E2]; [done|done|apply rep_unit; lia|apply rep_unit; lia|lia|].
  split; cbn [acc_count acc_volume acc_pv has_trades acc_open acc_high acc_low acc_close]; rewrite ?Ec, ?Ev.
  - lia.
  - lia.
  - split; [done|lia].
  - intros _. destruct (has_trades w) eqn:Eh; cbn [negb].
    + destruct (Hpx eq_refl) as (_&[No Eo]&[Nh Eh']&[Nl El]&[_ _]&Ho&_). unfold fgt.
      fold (flt (acc_high w) p). rewrite !flt_fz by done.
      destruct (Z.ltb_spec (fz (acc_high w)) (fz p)), (Z.ltb_spec (fz p) (fz (acc_low w)));
        (split; [lia|]); repeat (split; [by split|]); lia.
    + split; [lia|]. repeat (split; [by split|]). lia.
Qed.

(** The vwap of a window with a trade. *)
Lemma win_vwap size w :
  size <= 10 ^ 6 → win_ok size w → has_trades w = true →
  acc_volume w ≠ 0 ∧ priced (fdiv (acc_pv w) (double_of_Z (acc_volume w))).
Proof using.
  intros Hsz [Hc Hv [Np Ep] Hpx] Hh. destruct (Hpx Hh) as [H1 _]. pose proof unit_pos. split; [lia|].
  destruct (double_of_Z_exact (acc_volume w)) as [Nz Ez]; [lia|].
  destruct (fdiv_between (acc_pv w) (double_of_Z (acc_volume w)) (1 * unit) (2 ^ 20 * unit)) as [N1 E1];
    [done|done|nia|apply rep_unit; lia|apply rep_unit; lia|rewrite Ez; nia|]. split; [done|lia].
Qed.

(** ** The records of a window *)

Lemma number_spike : number (lit 16 10) ∧ unit <= fz (lit 16 10) <= 2 * unit.
Proof using. split; [by vm_compute|]. vm_compute. split; discriminate. Qed.

(** Only the first trade of a window that drew the corrupt tick has no price. *)
Definition corrupt (d : Defect) (k : Z) : bool := match d with DCorruptTrade => k =? 0 | _ => false end.

Lemma gen_trade_facts s d k g w g' w' m :
  px_ok g → (s < length (g_px g))%nat → 0 <= g_size g < n → win_ok (g_size g) w →
  gen_trade size_dist jitter symbols s d k g w = (g', w', m) →
  px_ok g' ∧ length (g_px g') = length (g_px g) ∧ g_size g' = g_size g + 1 ∧ win_ok (g_size g') w' ∧
  ∃ t, m = MTrade t ∧ 1 <= wt_size t ∧
    if corrupt d k then wt_price t = double_of_Z (-1) else priced (wt_price t).
Proof using Hsize Hjit Hn.
  intros Hg Hs Hz Hw E. unfold gen_trade in E. cbn zeta in E.
  pose proof (step_price_bounds s g Hg Hs Hz) as Hp. cbn zeta in Hp.
  set (g1 := step_price jitter s (tick_clock s g)) in *. destruct Hp as [Np Ep]. pose proof half_unit. pose proof unit_pos.
  change (px_of s (drew 1 g1)) with (px_of s g1) in E. change (g_draws g1) with (g_draws g + 1) in E.
  assert (Hpr : priced (px_of s g1)) by (split; [done|nia]).
  assert (Hsp : priced (fmul (px_of s g1) (lit 16 10))).
  { destruct number_spike as [Ns Es].
    apply (fmul_between _ _ (1 * unit) (2 ^ 20 * unit)); [done|done|apply rep_unit; lia|apply rep_unit; lia|].
    split; [nia|]. transitivity ((1181 + g_size g) * half * (2 * unit)); [apply Z.mul_le_mono_nonneg; lia|nia]. }
  pose proof (Hsize (g_draws g + 1)) as Hsz. injection E as <- <- <-.
  split; [|split; [|split; [|split]]].
  - assert (Hgx : px_ok (pushed_one g1)).
    { intros s' Hs'. cbn [pushed_one g_px g_size]. change (px_of s' (pushed_one g1)) with (px_of s' g1).
      change (g_size g1) with (g_size g). rewrite u64_add_small by lia.
      destruct (decide (s' = s)) as [->|Hne]; [split; [done|lia]|].
      replace (px_of s' g1) with (px_of s' g).
      - destruct (Hg s') as [? ?]; [|split; [done|nia]].
        revert Hs'. unfold g1, step_price. cbn [pushed_one g_px]. by rewrite length_insert.
      - unfold g1, step_price, px_of. cbn [g_px]. by rewrite list_lookup_insert_ne. }
    destruct d; try destruct (k =? 0); exact Hgx.
  - destruct d; try destruct (k =? 0); cbn; by rewrite length_insert.
  - transitivity (g_size g +u 1); [by destruct d; try destruct (k =? 0)|]. apply u64_add_small. lia.
  - assert (Esz : ∀ gx, g_size gx = g_size g → g_size (pushed_one gx) = g_size g + 1)
      by (intros gx Ex; cbn; rewrite Ex; apply u64_add_small; lia).
    rewrite Esz by (by destruct d; try destruct (k =? 0)).
    destruct d; try destruct (k =? 0); cbn [negb];
      first [apply win_ok_add; [lia|done|done|done] | apply (win_ok_le (g_size g)); [lia|done]].
  - eexists. split; [done|]. cbn [wt_size wt_price]. split; [lia|].
    by destruct d; cbn [corrupt]; try destruct (k =? 0).
Qed.

Lemma number_tick : number (lit 5 100) ∧ 19 * fz (lit 5 100) <= unit <= 21 * fz (lit 5 100).
Proof using. split; [by vm_compute|]. vm_compute. split; discriminate. Qed.

(** Half a dollar below the price, the price, and above it, strictly. *)
Lemma quote_prices p :
  priced p →
  let below := fsub p (lit 5 100) in let above := fadd p (lit 5 100) in
  number below ∧ number above ∧ half <= fz below ∧ fz below <= fz p < fz above.
Proof using.
  intros [Np Ep] below above. destruct number_tick as [Nt Et]. pose proof half_unit. pose proof unit_pos.
  destruct unit_large as [U1 U2].
  destruct (fsub_between p (lit 5 100) (1 * half) (fz p)) as [N1 E1];
    [done|done|apply rep_half; lia|by apply rep_fz|lia|].
  destruct (rep_around (fz p)) as (lo&st&_&R2&Hx&Hst); [lia|].
  assert (Hhi : rep (2 ^ 21 * unit)) by (apply rep_unit; lia).
  destruct (fadd_between p (lit 5 100) (lo + st) (2 ^ 21 * unit)) as [N2 E2]; [done|done|done|done|lia|].
  split; [done|]. split; [done|]. split; [unfold below; lia|unfold below, above; lia].
Qed.

(** ** The bar *)

Lemma number_five : number (double_of_Z 5) ∧ fz (double_of_Z 5) = 5 * unit.
Proof using. apply double_of_Z_exact. lia. Qed.

Lemma number_bump : number (lit 1001 1000) ∧ 1025 * unit <= 1024 * fz (lit 1001 1000) <= 2048 * unit.
Proof using. split; [by vm_compute|]. vm_compute. split; discriminate. Qed.

(** Five above a price is told from that price and from every lower one. *)
Lemma five_above p q :
  priced p → priced q → fz q <= fz p →
  let r := fadd p (double_of_Z 5) in
  number r ∧ fz p < fz r <= 2 ^ 21 * unit ∧ approx_equal q r = false.
Proof using.
  intros [Np Ep] [Nq Eq] Hle r. destruct number_five as [N5 E5]. pose proof unit_pos. destruct unit_large as [U1 U2].
  pose proof top_quarters.
  destruct (rounds_near_unit (fz p + fz (double_of_Z 5)) _ ltac:(lia) (fadd_rounds p (double_of_Z 5) Np N5)) as [Nr Er].
  fold r in Nr, Er. rewrite Z.mul_1_r, E5 in Er. split; [done|]. split; [lia|].
  apply approx_apart; [done|done|lia| |lia]. generalize dependent (top / 4). intros; lia.
Qed.

(** A thousandth above a price is told from it. *)
Lemma bump_apart p :
  priced p → let r := fmul p (lit 1001 1000) in number r ∧ approx_equal p r = false.
Proof using.
  intros [Np Ep] r. destruct number_bump as [Nb Eb]. pose proof unit_pos as Hu. destruct unit_large as [U1 U2].
  pose proof top_quarters.
  assert (Hprod : 1025 * unit * fz p <= 1024 * (fz p * fz (lit 1001 1000)) <= 2048 * unit * fz p) by nia.
  destruct (rounds_near (fz p * fz (lit 1001 1000)) unit r Hu) as [Nr Er].
  { split; [nia|]. apply Z.le_lt_trans with (2 * unit * fz p); nia. }
  { by apply fmul_rounds. }
  assert (Hr : 2049 * unit * fz p <= 2048 * (fz r * unit) /\ fz r * unit <= 4 * unit * fz p) by lia.
  assert (Hr1 : 2049 * fz p <= 2048 * fz r) by (apply (Z.mul_le_mono_pos_r _ _ unit Hu); lia).
  assert (Hr2 : fz r <= 4 * fz p) by (apply (Z.mul_le_mono_pos_r _ _ unit Hu); lia).
  split; [done|]. apply approx_apart; [done|done|lia| |lia]. generalize dependent (top / 4). intros; lia.
Qed.

End Prices.
