(* ===== verification/GenDetection.v ===== *)
(** * gen_dataset: the validator's verdict on a whole data set, predicted

    The flags of every record of a generated data set, from the defects its windows drew
    alone: what the validator reports is computed without looking at a price.  Two flags
    are left out, the price band, whose reference follows the random walk, and the range
    of the vwap, which the rounding of the average can leave. *)

From stdpp Require Import base numbers list list_numbers gmap strings.
From Stdlib Require Import ZArith Lia.
From S2P Require Import Prelude Float64 Runtime Wire Replay Validator ValidatorTable ValidatorProps.
From S2P Require Import ValidatorChecks Timestamp Ingest LiveIngest.
From S2P Require Import Arbitrator ArbitratorProofs ArbitratorSessions Util Harness HarnessProofs.
From S2P Require Import ParserProofs LiveIngestProofs LiveIngestProps GenDataset GenDatasetProofs GenSequencing GenRecon.
From S2P Require Import FloatRound PriceTolerance GenPrices.

Local Open Scope Z_scope.

Global Instance Stream_eq_dec : EqDecision Stream.
Proof. solve_decision. Defined.

Global Instance Defect_eq_dec : EqDecision Defect.
Proof. solve_decision. Defined.

(** ** The prediction *)

(** The flags a record of a window with defect [d] has for its own content; [first] says
    that it is the first of its type in the window. *)
Definition content_flags (d : Defect) (first : bool) (m : Msg) : Z :=
  match m, d with
  | MTrade _, DCorruptTrade => bit_if first kTradeNonPositivePrice
  | MQuote _, DQuoteCrossed => bit_if first kQuoteCrossed
  | MQuote _, DQuoteLocked => bit_if first kQuoteLocked
  | MBar _, DReconVolume => kBarVolumeReconstructMismatch
  | MBar _, DReconCount => kBarTradeCountReconstructMismatch
  | MBar _, DReconVwap => kBarVwapReconstructMismatch
  | MBar _, DReconOhlc => kBarOhlcReconstructMismatch
  | MBar _, DBand =>
      Z.lor kBarLowAboveHigh (Z.lor kBarOpenOutOfRange (Z.lor kBarCloseOutOfRange kBarOhlcReconstructMismatch))
  | _, _ => 0
  end.

(** The records of a window come in runs: trades, quotes, bar. *)
Fixpoint content_words (d : Defect) (prev : option Stream) (ms : list Msg) : list Z :=
  match ms with
  | [] => []
  | m :: ms' =>
      content_flags d (bool_decide (prev ≠ Some (msg_stream m))) m :: content_words d (Some (msg_stream m)) ms'
  end.

(** The sequencing flags, from the gap and the regression expected. *)
Definition seq_word (e : Z * bool) : Z :=
  Z.lor (bit_if (0 <? e.1) kSequenceGap) (bit_if e.2 kTimestampRegression).

(** Flags and gap of every record. *)
Definition predicted (count : Z) (ws : list (Defect * list Msg)) : list (Z * Z) :=
  zip_with (λ e c, (Z.lor (seq_word e) c, e.1)) (expected_flags count 0 ws)
    (concat ((λ w : Defect * list Msg, content_words w.1 None w.2) <$> ws)).

(** The flags that are not predicted. *)
Definition unpredicted : Z := Z.lor kPriceBandBreach kBarVwapOutOfRange.
Definition verdict (r : Result) : Z * Z := (Z.ldiff (r_flags r) unpredicted, r_gap r).

(** ** The content flags of one record *)

Definition sequencing : Z := Z.lor kSequenceGap kTimestampRegression.
Definition content (r : Result) : Z := Z.ldiff (r_flags r) (Z.lor unpredicted sequencing).

Lemma not_fgt_zero p : number p → fgt p fzero = (0 <? fz p).
Proof. intros Hp. unfold fgt. fold (flt fzero p). by rewrite flt_fz. Qed.

Lemma fle_zero p : number p → fle p fzero = (fz p <=? 0).
Proof. intros Hp. by rewrite fle_fz. Qed.

Lemma fgt_fz a b : number a → number b → fgt a b = (fz b <? fz a).
Proof. intros Ha Hb. unfold fgt. fold (flt b a). by rewrite flt_fz. Qed.

(** The undetermined conditions do not matter. *)
Ltac masked :=
  repeat match goal with
    | |- context [flags_of ?l] =>
        match l with context [(?c, _)] =>
          lazymatch c with true => fail | false => fail | _ => let x := fresh "x" in generalize c; intros x; destruct x end
        end
    end; by vm_compute.

Lemma trade_content t s (bad : bool) :
  1 <= wt_size t → (if bad then wt_price t = double_of_Z (-1) else priced (wt_price t)) →
  content (check_slot (MTrade t) s).2 = bit_if bad kTradeNonPositivePrice.
Proof.
  intros Hz Hp. unfold content. rewrite trade_flags_exact'. unfold trade_conditions.
  replace (wt_size t =? 0) with false by (symmetry; apply Z.eqb_neq; lia).
  replace (negb (fgt (wt_price t) fzero)) with bad; [destruct bad; masked|].
  destruct bad; [by rewrite Hp|]. destruct Hp as [Hn Hp]. pose proof unit_pos.
  rewrite not_fgt_zero by done. destruct (Z.ltb_spec 0 (fz (wt_price t))); [done|lia].
Qed.

Lemma quote_content q s :
  number (wq_bid_price q) → number (wq_ask_price q) → 0 < fz (wq_bid_price q) → 0 < fz (wq_ask_price q) →
  1 <= wq_bid_size q → 1 <= wq_ask_size q →
  content (check_slot (MQuote q) s).2 =
    if fz (wq_ask_price q) <? fz (wq_bid_price q) then kQuoteCrossed
    else bit_if (fz (wq_bid_price q) =? fz (wq_ask_price q)) kQuoteLocked.
Proof.
  intros Nb Na Pb Pa Hb Ha. unfold content. destruct (quote_flags_exact' q s) as [-> _]. unfold quote_conditions.
  rewrite !fle_zero, fgt_fz, feq_fz by done.
  replace (wq_bid_size q =? 0) with false by (symmetry; apply Z.eqb_neq; lia).
  replace (wq_ask_size q =? 0) with false by (symmetry; apply Z.eqb_neq; lia).
  destruct (Z.leb_spec (fz (wq_bid_price q)) 0), (Z.leb_spec (fz (wq_ask_price q)) 0); try lia.
  destruct (fz (wq_ask_price q) <? fz (wq_bid_price q)), (fz (wq_bid_price q) =? fz (wq_ask_price q));
    cbn [orb negb andb]; masked.
Qed.

(** What a bar says of its window, and what the validator finds when it compares. *)
Lemma bar_flags_content b s (inverted odd_volume odd_count odd_vwap odd_prices : bool) :
  has_trades (acc s) = true →
  fgt (wb_low b) (wb_high b) = inverted →
  flt (wb_open b) (wb_low b) || fgt (wb_open b) (wb_high b) = inverted →
  flt (wb_close b) (wb_low b) || fgt (wb_close b) (wb_high b) = inverted →
  fle (wb_open b) fzero || fle (wb_high b) fzero || fle (wb_low b) fzero || fle (wb_close b) fzero = false →
  xorb (wb_trade_count b =? 0) (wb_volume b =? 0) = false →
  negb (acc_volume (acc s) =? wb_volume b) = odd_volume →
  negb (acc_count (acc s) =? wb_trade_count b) = odd_count →
  vwap_mismatch (acc s) b = odd_vwap → ohlc_mismatch (acc s) b = odd_prices →
  content (check_slot (MBar b) s).2 = flags_of
    [(inverted, kBarLowAboveHigh); (inverted, kBarOpenOutOfRange); (inverted, kBarCloseOutOfRange);
     (odd_volume, kBarVolumeReconstructMismatch); (odd_count, kBarTradeCountReconstructMismatch);
     (odd_vwap, kBarVwapReconstructMismatch); (odd_prices, kBarOhlcReconstructMismatch)].
Proof.
  intros Hh H1 H2 H3 H4 H5 H6 H7 H8 H9. unfold content. destruct (bar_flags_exact' b s) as [-> _].
  unfold bar_conditions. rewrite Hh, H1, H2, H3, H4, H5, H6, H7, H8, H9. cbn [andb]. clear.
  destruct inverted, odd_volume, odd_count, odd_vwap, odd_prices; masked.
Qed.

Lemma approx_same a : number a → approx_equal a a = true.
Proof. intros Ha. apply approx_refl, Ha. Qed.

(** ** Every record is well-formed *)

Lemma inserted_u64 (l : list Z) s x : is_u64 x → is_u64 (default 0 (<[s := x]> l !! s)).
Proof.
  intros Hx. destruct (decide (s < length l)%nat).
  - by rewrite list_lookup_insert_eq.
  - by rewrite lookup_ge_None_2 by (rewrite length_insert; lia).
Qed.

Lemma tick_u64 s g : is_u64 (seq_at s (tick_clock s g)) ∧ is_u64 (ts_at s (tick_clock s g)).
Proof. split; apply inserted_u64, u64_add_is. Qed.

(** Replaces the bar by the record [gen_bar] builds, its constants kept folded. *)
Ltac open_bar Hb b :=
  apply (f_equal (λ m, match m with MBar x => x | _ => b end)) in Hb;
  unfold gen_bar in Hb; cbn [snd] in Hb; subst b.

Section Bar.
Context (symbols : list (list byte)) (s : nat) (d : Defect) (w : Acc) (g : Gen) (size : Z).
Hypothesis Hsz : size <= 10 ^ 6.
Hypothesis Hw : win_ok size w.
Hypothesis Hh : has_trades w = true.

Context (b : WireBar).
Hypothesis Hb : (gen_bar symbols s d w g).2 = MBar b.

Lemma gen_bar_counts :
  negb (acc_volume w =? wb_volume b) = (match d with DReconVolume => true | _ => false end) ∧
  negb (acc_count w =? wb_trade_count b) = (match d with DReconCount => true | _ => false end) ∧
  xorb (wb_trade_count b =? 0) (wb_volume b =? 0) = false.
Proof using Hsz Hw Hh Hb.
  destruct Hw as [Hc Hv _ Hpx]. destruct (Hpx Hh) as [H1 _].
  assert (Ev : acc_volume w +u 100 = acc_volume w + 100) by (apply u64_add_small; lia).
  assert (Ec : acc_count w +u 1 = acc_count w + 1) by (apply u64_add_small; lia).
  open_bar Hb b. cbn [wb_volume wb_trade_count]. rewrite Ev, Ec.
  destruct d; (split; [|split]); zbool; cbn [negb xorb]; (done || lia).
Qed.
(** The prices of the bar, in order unless the defect inverts them. *)
Lemma gen_bar_prices :
  bar_finite b ∧ fgt (wb_low b) (wb_high b) = (match d with DBand => true | _ => false end) ∧
  flt (wb_open b) (wb_low b) || fgt (wb_open b) (wb_high b) = (match d with DBand => true | _ => false end) ∧
  flt (wb_close b) (wb_low b) || fgt (wb_close b) (wb_high b) = (match d with DBand => true | _ => false end) ∧
  fle (wb_open b) fzero || fle (wb_high b) fzero || fle (wb_low b) fzero || fle (wb_close b) fzero = false.
Proof using Hsz Hw Hh Hb.
  destruct (win_vwap size w Hsz Hw Hh) as [Hv Hvw]. destruct (bump_apart _ Hvw) as [Nb _].
  destruct (wo_prices _ _ Hw Hh) as (_&Po&Ph&Pl&Pc&Ho&Hc).
  destruct (five_above _ _ Ph Ph (Z.le_refl _)) as (N5&E5&_). pose proof unit_pos.
  destruct Po as [No Eo], Ph as [Nh Eh], Pl as [Nl El], Pc as [Nc Ec], Hvw as [Nv Ev].
  open_bar Hb b. unfold bar_finite.
  cbn [wb_open wb_high wb_low wb_close wb_vwap].
  replace (acc_volume w =? 0) with false by (symmetry; by apply Z.eqb_neq). cbn [negb].
  assert (Hf : ∀ x, number x → is_finite x = true) by (by intros x [_ ?]).
  split; [repeat (split; [destruct d; by apply Hf|]); destruct d; by apply Hf|].
  rewrite !fgt_fz, !flt_fz, !fle_zero by (by destruct d).
  destruct d; repeat split; zbool; cbn [orb]; (done || lia).
Qed.

(** The comparison with the accumulated trades. *)
Lemma gen_bar_recon sl :
  acc_matches (acc sl) w →
  vwap_mismatch (acc sl) b = (match d with DReconVwap => true | _ => false end) ∧
  ohlc_mismatch (acc sl) b = (match d with DReconOhlc | DBand => true | _ => false end).
Proof using Hsz Hw Hh Hb.
  intros (_&_&Mv&Mp&_&Mo). destruct (Mo Hh) as (Eo&Eh&El&Ec).
  destruct (win_vwap size w Hsz Hw Hh) as [Hv Hvw]. destruct (bump_apart _ Hvw) as [_ Bb].
  destruct (wo_prices _ _ Hw Hh) as (_&Po&Ph&Pl&Pc&Ho&Hc).
  destruct (five_above _ _ Ph Ph (Z.le_refl _)) as (_&_&A1).
  destruct (five_above _ _ Ph Pl ltac:(lia)) as (_&_&A2).
  open_bar Hb b. unfold vwap_mismatch, ohlc_mismatch.
  rewrite Mv, Mp, Eo, Eh, El, Ec. cbn [wb_open wb_high wb_low wb_close wb_vwap].
  replace (acc_volume w =? 0) with false by (symmetry; by apply Z.eqb_neq). cbn [negb andb].
  rewrite (approx_same (acc_open w)), (approx_same (acc_close w)) by (apply Po || apply Pc).
  destruct Ph as [Nh _], Pl as [Nl _], Hvw as [Nv _].
  destruct d; rewrite ?Bb, ?A1, ?A2, ?(approx_same (acc_high w)), ?(approx_same (acc_low w)),
    ?(approx_same (fdiv _ _)) by done; done.
Qed.

Lemma gen_bar_wf : msg_wf (MBar b).
Proof using Hsz Hw Hh Hb.
  destruct (win_vwap size w Hsz Hw Hh) as [Hv Hvw]. destruct (bump_apart _ Hvw) as [Nb _].
  destruct (wo_prices _ _ Hw Hh) as (_&Po&Ph&Pl&Pc&_). destruct (five_above _ _ Ph Ph (Z.le_refl _)) as (N5&_&_).
  pose proof (wo_count _ _ Hw). pose proof (wo_volume _ _ Hw). destruct (tick_u64 s g) as [Hq Ht].
  assert (Hu : is_u64 (acc_volume w) ∧ is_u64 (acc_count w)) by (unfold is_u64; lia).
  assert (Vp : ∀ x, priced x → valid x) by (by intros x [[? _] _]). apply Vp in Po, Ph, Pl, Pc, Hvw.
  destruct Nb as [Vb _], N5 as [V5 _]. open_bar Hb b. destruct Hu.
  replace (acc_volume w =? 0) with false by (symmetry; by apply Z.eqb_neq). cbn [negb].
  split; cbn [wb_symbol wb_start_ns wb_seq wb_open wb_high wb_low wb_close wb_vwap wb_volume wb_trade_count];
    first [apply length_set_symbol|done|by destruct d|by destruct d; try apply u64_add_is].
Qed.

Lemma bar_content sl : acc_matches (acc sl) w → content (check_slot (MBar b) sl).2 = content_flags d true (MBar b).
Proof using Hsz Hw Hh Hb.
  intros Hm. pose proof gen_bar_counts as (C1&C2&C3). pose proof gen_bar_prices as (_&P1&P2&P3&P4).
  destruct (gen_bar_recon sl Hm) as [R1 R2]. destruct Hm as (Mh&Mc&Mv&_).
  rewrite <- Mv in C1. rewrite <- Mc in C2.
  rewrite (bar_flags_content b sl _ _ _ _ _ (eq_trans Mh Hh) P1 P2 P3 P4 C3 C1 C2 R1 R2).
  by destruct d; vm_compute.
Qed.

End Bar.

(** ** The records of a window *)

Lemma priced_finite p : priced p → is_finite p = true.
Proof. by intros [[_ ?] _]. Qed.

(** The stream of the last record. *)
Definition last_stream (prev : option Stream) (ms : list Msg) : option Stream :=
  foldl (λ _ m, Some (msg_stream m)) prev ms.

Lemma content_words_app d ms1 : ∀ prev ms2,
  content_words d prev (ms1 ++ ms2) = content_words d prev ms1 ++ content_words d (last_stream prev ms1) ms2.
Proof. induction ms1 as [|m ms1 IH]; intros prev ms2; [done|]. cbn. by rewrite IH. Qed.

Lemma content_bar d prev b : content_words d prev [MBar b] = [content_flags d true (MBar b)].
Proof. by destruct d. Qed.

Lemma last_stream_run st ms : ∀ prev, ms ≠ [] → Forall (λ m, msg_stream m = st) ms → last_stream prev ms = Some st.
Proof.
  induction ms as [|m ms IH]; [done|]. intros prev _ [Hm Hms]%Forall_cons. cbn. rewrite Hm.
  destruct ms as [|m' ms]; [done|]. by apply IH.
Qed.

Lemma spec_check_all_step m ms st :
  (spec_check_all (m :: ms) st).1 = (spec_check m st).1 :: (spec_check_all ms (spec_check m st).2).1 ∧
  (spec_check_all (m :: ms) st).2 = (spec_check_all ms (spec_check m st).2).2.
Proof.
  split; [apply spec_check_all_cons|].
  cbn [spec_check_all]. destruct (spec_check m st) as [r st1]. cbn. by destruct (spec_check_all ms st1).
Qed.

Section Detect.
Context (pick count_dist size_dist : Z → Z) (jitter : Z → double) (n : Z) (symbols : list (list byte)).
Hypothesis Hsize : ∀ i, 1 <= size_dist i <= 100.
Hypothesis Hjit : ∀ i, number (jitter i) ∧ 2 * Z.abs (fz (jitter i)) <= unit.
Hypothesis Hn : 0 <= n <= 10 ^ 6.

Lemma gen_trade_wf s d k g w g' w' m :
  px_ok g → (s < length (g_px g))%nat → 0 <= g_size g < n → win_ok (g_size g) w →
  gen_trade size_dist jitter symbols s d k g w = (g', w', m) → msg_wf m.
Proof using Hsize Hjit Hn.
  intros Hg Hs Hz Hw E.
  destruct (gen_trade_facts size_dist jitter n symbols Hsize Hjit Hn _ _ _ _ _ _ _ _ Hg Hs Hz Hw E)
    as (_&_&_&_&t&->&Hsz&Hp).
  assert (Hv : valid (wt_price t)) by (destruct (corrupt d k); [by rewrite Hp|apply Hp]).
  unfold gen_trade in E. apply (f_equal snd) in E. cbn [snd] in E.
  apply (f_equal (λ m, match m with MTrade x => x | _ => t end)) in E. cbn zeta in E.
  destruct (tick_u64 s g) as [Hq Ht].
  split; [rewrite <- E; apply length_set_symbol| | | |done| |by rewrite <- E].
  - rewrite <- E. destruct d; try destruct (k =? 0); try exact Ht. apply u64_is.
  - rewrite <- E. destruct d; try destruct (k =? 0); try exact Hq. apply inserted_u64, u64_add_is.
  - rewrite <- E. unfold is_u64. cbn [wt_trade_id]. lia.
  - rewrite <- E. unfold is_u64. cbn [wt_size]. specialize (Hsize (g_draws (step_price jitter s (tick_clock s g)))). lia.
Qed.
Lemma gen_trades_content todo s d k prev g w g' w' ms st :
  0 <= k → bool_decide (prev ≠ Some kTradeStream) = (k =? 0) →
  px_ok g → (s < length (g_px g))%nat → 0 <= g_size g <= n → win_ok (g_size g) w →
  in_window (key_of symbols s) w st → gen_trades size_dist jitter n symbols todo s d k g w = (g', w', ms) →
  content <$> (spec_check_all ms st).1 = content_words d prev ms ∧
  in_window (key_of symbols s) w' (spec_check_all ms st).2 ∧
  px_ok g' ∧ length (g_px g') = length (g_px g) ∧ 0 <= g_size g' <= n ∧ win_ok (g_size g') w' ∧ Forall msg_wf ms.
Proof using Hsize Hjit Hn.
  revert k prev g w ms st. induction todo as [|todo IH];
    intros k prev g w ms st Hk Hprev Hg Hs Hz Hw Hin E; cbn [gen_trades] in E; [by simplify_eq|].
  destruct (Z.ltb_spec (g_size g) n); [|by simplify_eq].
  destruct (gen_trade _ _ _ _ _ _ _ _) as [[g1 w1] m] eqn:E1.
  destruct (gen_trades _ _ _ _ todo _ _ _ _ _) as [[g2 w2] ms2] eqn:E2. simplify_eq.
  destruct (gen_trade_facts size_dist jitter n symbols Hsize Hjit Hn _ _ _ _ _ _ _ _ Hg Hs ltac:(lia) Hw E1)
    as (Hg1&Hl1&Hz1&Hw1&t&->&Ht&Hp).
  pose proof (gen_trade_wf _ _ _ _ _ _ _ _ Hg Hs ltac:(lia) Hw E1) as Hwf.
  assert (Hf : msg_finite (MTrade t)).
  { cbn. destruct (corrupt d k); [by rewrite Hp|by apply priced_finite]. }
  destruct (gen_trade_step size_dist jitter symbols ltac:(intros i; specialize (Hsize i); lia)
    _ _ _ _ _ _ _ _ Hs E1 Hf) as (Hkey&_&Hstep).
  destruct (window_step (λ r, content r = bit_if (corrupt d k) kTradeNonPositivePrice) _ _ w w1 st Hkey Hin)
    as [Hr Hin1].
  { intros sl Hm. destruct (Hstep sl Hm) as [_ Hm']. split; [by apply trade_content|done]. }
  destruct (IH (k + 1) (Some kTradeStream) g1 w1 ms2 (spec_check (MTrade t) st).2) as (R1&R2&R3&R4&R5&R6&R7);
    [lia|symmetry; apply Z.eqb_neq; lia|done|lia|lia|done|done|done|].
  destruct (spec_check_all_step (MTrade t) ms2 st) as [-> ->].
  split; [|split; [done|split; [done|split; [lia|split; [done|split; [done|by constructor]]]]]].
  cbn [fmap list_fmap content_words msg_stream]. rewrite Hprev, Hr, R1. f_equal.
  by destruct d.
Qed.

(** The two prices of a quote around the running price [p]. *)
Definition quote_sides (d : Defect) (qk : Z) (p : double) : double * double :=
  match d with
  | DQuoteCrossed => if qk =? 0 then (fadd p (lit 5 100), fsub p (lit 5 100)) else (fsub p (lit 5 100), fadd p (lit 5 100))
  | DQuoteLocked => if qk =? 0 then (p, p) else (fsub p (lit 5 100), fadd p (lit 5 100))
  | _ => (fsub p (lit 5 100), fadd p (lit 5 100))
  end.

Lemma gen_quote_fields s d qk g g' m :
  gen_quote size_dist symbols s d qk g = (g', m) →
  ∃ q, m = MQuote q ∧ g_px g' = g_px g ∧ msg_key m = key_of symbols s ∧
    1 <= wq_bid_size q ∧ 1 <= wq_ask_size q ∧ (wq_bid_price q, wq_ask_price q) = quote_sides d qk (px_of s g).
Proof using.
  intros E. assert (Hsz : ∀ z, 1 <= 1 +u (z mod 20)).
  { intros z. pose proof (Z.mod_pos_bound z 20 ltac:(lia)). rewrite u64_add_small by lia. lia. }
  unfold gen_quote in E. change (px_of s (tick_clock s g)) with (px_of s g) in E. unfold quote_sides.
  destruct d; try destruct (qk =? 0); injection E as <- <-; eexists; (split; [done|]); (split; [done|]);
    (split; [done|]); cbn [wq_bid_size wq_ask_size wq_bid_price wq_ask_price]; by split.
Qed.

Lemma gen_quote_content s d qk prev g g' m sl :
  0 <= qk → bool_decide (prev ≠ Some kQuoteStream) = (qk =? 0) → priced (px_of s g) →
  gen_quote size_dist symbols s d qk g = (g', m) →
  msg_stream m = kQuoteStream ∧ msg_key m = key_of symbols s ∧ g_px g' = g_px g ∧
  content (check_slot m sl).2 = content_flags d (bool_decide (prev ≠ Some (msg_stream m))) m ∧
  acc (check_slot m sl).1 = acc sl.
Proof using Hsize.
  intros Hqk Hprev Hp E. destruct (quote_prices _ Hp) as (N1&N2&P1&P2&P3). destruct Hp as [Np Ep].
  destruct (gen_quote_fields _ _ _ _ _ _ E) as (q&->&Hpx&Hkey&Hb&Ha&Hpr). split; [done|]. split; [done|]. split; [done|].
  split; [|by destruct (quote_flags_exact' q sl) as (_&_&?)].
  cbn [msg_stream]. rewrite Hprev. pose proof half_unit. pose proof unit_pos. unfold quote_sides in Hpr.
  pose proof (f_equal fst Hpr) as Eb. pose proof (f_equal snd Hpr) as Ea. cbn [fst snd] in Ea, Eb. clear Hpr E.
  rewrite quote_content by (done || (rewrite ?Ea, ?Eb; destruct d; try destruct (qk =? 0); cbn [fst snd]; (done || lia))).
  rewrite Ea, Eb. destruct d; try destruct (qk =? 0); cbn [fst snd content_flags bit_if]; zbool; (done || lia).
Qed.

Lemma gen_quote_wf s d qk g g' m :
  priced (px_of s g) → gen_quote size_dist symbols s d qk g = (g', m) → msg_wf m.
Proof using.
  intros Hp E. destruct (quote_prices _ Hp) as ([V1 _]&[V2 _]&_). destruct Hp as [[V3 _] _].
  destruct (gen_quote_fields _ _ _ _ _ _ E) as (q&->&_&_&_&_&Hs).
  pose proof (f_equal fst Hs) as Eb. pose proof (f_equal snd Hs) as Ea. cbn [fst snd] in Ea, Eb. clear Hs.
  destruct (tick_u64 s g) as [Hq Ht].
  assert (Hv : valid (wq_bid_price q) ∧ valid (wq_ask_price q)).
  { rewrite Ea, Eb. unfold quote_sides. clear Ea Eb E. by destruct d; try destruct (qk =? 0). }
  clear Ea Eb. destruct Hv as [Vb Va]. unfold gen_quote in E.
  destruct d; try destruct (qk =? 0); apply (f_equal snd) in E; cbn [snd] in E; injection E as <-; split;
    try done; try apply u64_add_is; apply length_set_symbol.
Qed.

Lemma gen_quotes_content todo s d qk prev g w g' ms st :
  0 <= qk → bool_decide (prev ≠ Some kQuoteStream) = (qk =? 0) → priced (px_of s g) →
  in_window (key_of symbols s) w st → gen_quotes size_dist n symbols todo s d qk g = (g', ms) →
  content <$> (spec_check_all ms st).1 = content_words d prev ms ∧
  in_window (key_of symbols s) w (spec_check_all ms st).2 ∧ g_px g' = g_px g ∧
  Forall msg_wf ms ∧ Forall (λ m, msg_stream m = kQuoteStream) ms.
Proof using Hsize.
  revert qk prev g ms st. induction todo as [|todo IH]; intros qk prev g ms st Hqk Hprev Hp Hin E;
    cbn [gen_quotes] in E; [by simplify_eq|].
  destruct (g_size g <? n); [|by simplify_eq].
  destruct (gen_quote _ _ _ _ _ _) as [g1 m] eqn:E1.
  destruct (gen_quotes _ _ _ todo _ _ _ _) as [g2 ms2] eqn:E2. simplify_eq.
  destruct (gen_quote_content _ _ _ prev _ _ _ (fresh_slot 0) Hqk Hprev Hp E1) as (Hm&Hkey&Hpx&_&_).
  pose proof (gen_quote_wf _ _ _ _ _ _ Hp E1) as Hwf.
  destruct (window_step (λ r, content r = content_flags d (bool_decide (prev ≠ Some (msg_stream m))) m)
    _ m w w st Hkey Hin) as [Hr Hin1].
  { intros sl Ha. destruct (gen_quote_content _ _ _ prev _ _ _ sl Hqk Hprev Hp E1) as (_&_&_&Hc&->). done. }
  destruct (IH (qk + 1) (Some kQuoteStream) g1 ms2 (spec_check m st).2) as (R1&R2&R3&R4&R5);
    [lia|symmetry; apply Z.eqb_neq; lia|by unfold px_of in *; rewrite Hpx|done|done|].
  destruct (spec_check_all_step m ms2 st) as [-> ->].
  split; [|split; [done|split; [congruence|split; by constructor]]]. cbn [fmap list_fmap content_words].
  by rewrite Hr, R1, Hm.
Qed.

Lemma px_ok_same g g' : g_px g' = g_px g → g_size g <= g_size g' → px_ok g → px_ok g'.
Proof using.
  intros Hpx Hz Hg s Hs. unfold px_of. rewrite Hpx in *. destruct (Hg s Hs) as [H1 H2]. split; [done|].
  pose proof half_unit. pose proof unit_pos. unfold px_of in *. nia.
Qed.

Lemma gen_trades_trades todo s d k g w :
  Forall (λ m, msg_stream m = kTradeStream) (gen_trades size_dist jitter n symbols todo s d k g w).2 ∧
  ((0 < todo)%nat → g_size g < n → (gen_trades size_dist jitter n symbols todo s d k g w).2 ≠ []).
Proof using.
  revert k g w. induction todo as [|todo IH]; intros k g w; cbn [gen_trades]; [split; [constructor|lia]|].
  destruct (Z.ltb_spec (g_size g) n); [|split; [constructor|lia]].
  destruct (gen_trade _ _ _ _ _ _ _ _) as [[g1 w1] m] eqn:E. destruct (IH (k + 1) g1 w1) as [IH1 _].
  destruct (gen_trades _ _ _ _ todo _ _ _ _ _) as [[g2 w2] ms]. split; [|done]. constructor; [|done].
  apply (f_equal snd) in E. cbn [snd] in E. by subst m.
Qed.

(** ** A window *)

(** Trades, at least one, then quotes, then the bar unless the data set is complete. *)
Definition window_shape (ms : list Msg) : Prop :=
  ∃ ts qs bs, ms = ts ++ qs ++ bs ∧ ts ≠ [] ∧ Forall (λ m, msg_stream m = kTradeStream) ts ∧
    Forall (λ m, msg_stream m = kQuoteStream) qs ∧ (bs = [] ∨ ∃ b, bs = [MBar b]).

Lemma gen_window_content s g g' ms st :
  (s < length (g_px g))%nat → px_ok g → 0 <= g_size g < n → all_clear st → 2 <= count_dist (g_draws g + 1) →
  gen_window pick count_dist size_dist jitter n symbols s g = (g', ms) →
  content <$> (spec_check_all ms st).1 = content_words (defect_of (pick (g_draws g))) None ms ∧
  px_ok g' ∧ length (g_px g') = length (g_px g) ∧ 0 <= g_size g' <= n ∧
  (g_size g' < n → all_clear (spec_check_all ms st).2) ∧ Forall msg_wf ms ∧ window_shape ms.
Proof using Hsize Hjit Hn.
  intros Hs Hg Hz Hst Hcd E. unfold gen_window in E. set (d := defect_of (pick (g_draws g))) in *.
  destruct (Z.to_nat (count_dist (g_draws g + 1))) as [|[|todo]] eqn:Etodo; [lia..|].
  pose proof (gen_trades_two size_dist jitter n symbols todo s d (drew 2 g) win_init) as Htwo.
  destruct (gen_trades_trades (S (S todo)) s d 0 (drew 2 g) win_init) as [Tall Tne].
  destruct (gen_trades _ _ _ _ _ _ _ _ _ _) as [[g1 w] ts] eqn:Et. cbn [snd] in *.
  pose proof (gen_quotes_room size_dist n symbols 2 s d 0 g1) as Hroom.
  destruct (gen_quotes _ _ _ _ _ _ _ _) as [g2 qs] eqn:Eq. cbn [fst] in Hroom.
  destruct (gen_trades_content (S (S todo)) s d 0 None (drew 2 g) win_init g1 w ts st (Z.le_refl 0) eq_refl Hg Hs
    ltac:(cbn; lia) (win_ok_init (g_size g) ltac:(lia)) (window_opens _ _ Hst) Et) as (R1&W1&Hg1&L1&Z1&Hw1&Wt).
  cbn [drew g_px] in L1. specialize (Tne ltac:(lia) ltac:(cbn; lia)).
  assert (Hlast : last_stream None ts = Some kTradeStream) by by apply last_stream_run.
  assert (Hp1 : priced (px_of s g1)) by (apply px_priced; [done|lia|lia]).
  destruct (gen_quotes_content _ _ _ _ (Some kTradeStream) _ _ _ _ _ (Z.le_refl 0) eq_refl Hp1 W1 Eq) as (R2&W2&Px2&Wq&Qall).
  destruct (gen_quotes_size size_dist n symbols ltac:(lia) _ _ _ _ _ _ _ Eq Z1) as [Z2 Z2'].
  assert (Hg2 : px_ok g2) by (by apply (px_ok_same g1); [|lia|]).
  destruct (spec_check_all_app ts qs st) as [A1 A2].
  assert (Htq : content <$> (spec_check_all (ts ++ qs) st).1 = content_words d None (ts ++ qs)).
  { rewrite A1, fmap_app, R1, R2, content_words_app. by rewrite Hlast. }
  destruct (Z.leb_spec n (g_size g2)).
  { simplify_eq. split; [done|]. split; [done|]. rewrite Px2. split; [done|]. split; [lia|]. split; [lia|].
    split; [by apply Forall_app|]. exists ts, qs, []. rewrite app_nil_r. repeat (split; [done|]). by left. }
  destruct (gen_bar symbols s d w g2) as [g3 b] eqn:Eb. simplify_eq. rewrite app_assoc.
  destruct (spec_check_all_app (ts ++ qs) [b] st) as [B1 B2].
  destruct Hroom as [Hroom|]; [lia| |done]. specialize (Htwo Hroom).
  assert (Hb : ∃ b0, b = MBar b0 ∧ msg_key b = key_of symbols s) 
    by (apply (f_equal snd) in Eb; cbn [snd] in Eb; subst b; unfold gen_bar; eauto).
  destruct Hb as (b0&->&Hk).
  assert (Eb2 : (gen_bar symbols s d w g2).2 = MBar b0) by by rewrite Eb.
  pose proof (bar_content symbols s d w g2 (g_size g1) ltac:(lia) Hw1 Htwo b0 Eb2) as Hbar.
  rewrite A2 in B1, B2. destruct W2 as [Wo Wm]. specialize (Hbar _ Wm). pose proof (bar_clears b0 _ _ Wm) as Hclear.
  destruct (spec_check_all_step (MBar b0) [] (spec_check_all qs (spec_check_all ts st).2).2) as [C1 C2].
  rewrite C1 in B1. rewrite C2 in B2. cbn [spec_check_all fst snd] in B1, B2. unfold spec_check in B1, B2.
  rewrite Hk in B1, B2. destruct (check_slot (MBar b0) _) as [sl r]. cbn [fst snd] in *.
  assert (Eg : g_px g' = g_px g2 ∧ g_size g' = g_size g2 +u 1) 
    by (apply (f_equal fst) in Eb; cbn [fst] in Eb; by subst g').
  destruct Eg as [Eg1 Eg2]. rewrite u64_add_small in Eg2 by lia.
  split; [|split; [|split; [|split; [|split; [|split]]]]].
  - rewrite B1, fmap_app, Htq, (content_words_app d (ts ++ qs)), content_bar. cbn [fmap list_fmap]. by rewrite Hbar.
  - apply (px_ok_same g2); [done|lia|done].
  - congruence.
  - lia.
  - intros _. rewrite B2. by apply clear_insert.
  - apply Forall_app. split; [by apply Forall_app|]. apply Forall_singleton.
    by apply (gen_bar_wf symbols s d w g2 (g_size g1) ltac:(lia) Hw1 Htwo b0 Eb2).
  - exists ts, qs, [MBar b0]. rewrite app_assoc. split; [done|]. repeat (split; [done|]). eauto.
Qed.

End Detect.

(** ** The whole data set *)

Lemma land_bit f k : 0 <= k → Z.land f (Z.shiftl 1 k) = bit_if (negb (Z.land f (Z.shiftl 1 k) =? 0)) (Z.shiftl 1 k).
Proof.
  intros Hk. rewrite Z.shiftl_1_l. assert (Hb : Z.land f (2 ^ k) = bit_if (Z.testbit f k) (2 ^ k)).
  { apply Z.bits_inj. intros i. rewrite Z.land_spec, Z.pow2_bits_eqb by done.
    destruct (Z.eqb_spec k i) as [->|Hne]; [|destruct (Z.testbit f k); cbn [bit_if]];
      rewrite ?andb_true_r, ?andb_false_r, ?Z.pow2_bits_eqb, ?Z.bits_0 by done; zbool; try done; try lia.
    destruct (Z.testbit f i); cbn [bit_if]; [by rewrite Z.pow2_bits_eqb, Z.eqb_refl|by rewrite Z.bits_0]. }
  rewrite Hb. pose proof (pow2_pos k Hk). destruct (Z.testbit f k); cbn [bit_if]; [|done].
  by destruct (Z.eqb_spec (2 ^ k) 0); [lia|].
Qed.

(** The predicted flags are the sequencing ones and those of the content. *)
Lemma verdict_split e r : seq_flags e r → verdict r = (Z.lor (seq_word e) (content r), e.1).
Proof.
  intros (Hgap&Hg&Ht). unfold has in Hg, Ht. unfold verdict, seq_word, content. rewrite Hgap. f_equal.
  rewrite <- Hg, <- Ht.
  unfold kSequenceGap at 1 2, kTimestampRegression at 1 2. rewrite <- !land_bit by lia. generalize (r_flags r). intros f.
  fold kSequenceGap kTimestampRegression. rewrite <- Z.land_lor_distr_r. fold sequencing.
  set (W := Z.lor unpredicted sequencing). replace unpredicted with (Z.ldiff W sequencing) by done.
  apply Z.bits_inj. intros i. rewrite Z.lor_spec, Z.land_spec, !Z.ldiff_spec.
  by destruct (Z.testbit f i), (Z.testbit W i), (Z.testbit sequencing i).
Qed.

Lemma gen_windows_content pick count_dist size_dist jitter n count fuel s g st :
  (∀ i, 1 <= size_dist i <= 100) → (∀ i, number (jitter i) ∧ 2 * Z.abs (fz (jitter i)) <= unit) →
  0 <= n <= 10 ^ 6 → (∀ i, 2 <= count_dist i) → 0 < count → length (g_px g) = Z.to_nat count →
  px_ok g → 0 <= g_size g → all_clear st →
  let ws := gen_windows pick count_dist size_dist jitter n count fuel s g in
  content <$> (spec_check_all (concat ws.*2) st).1 =
    concat ((λ w : Defect * list Msg, content_words w.1 None w.2) <$> ws) ∧
  Forall msg_wf (concat ws.*2) ∧ Forall window_shape ws.*2.
Proof.
  intros Hsize Hjit Hn Hcd Hc. cbn zeta. revert s g st.
  induction fuel as [|f IH]; intros s g st Hl Hg Hz Hst; cbn [gen_windows].
  { destruct (g_size g <? n); by split; [|split; constructor]. }
  destruct (Z.ltb_spec (g_size g) n); [|by split; [|split; constructor]].
  destruct (gen_window _ _ _ _ _ _ _ _) as [g1 ms] eqn:E. cbn [fmap list_fmap concat fst snd].
  assert (Hs : (Z.to_nat ((s + 1) mod count) < length (g_px g))%nat)
    by (pose proof (Z.mod_pos_bound (s + 1) count Hc); lia).
  destruct (gen_window_content _ _ _ _ _ _ Hsize Hjit Hn _ _ _ _ st Hs Hg (conj Hz H) Hst (Hcd _) E)
    as (R1&Hg1&L1&Z1&C1&Wf1&Sh1).
  specialize (IH ((s + 1) mod count) g1 (spec_check_all ms st).2).
  assert (Hnil : n <= g_size g1 → gen_windows pick count_dist size_dist jitter n count f ((s + 1) mod count) g1 = []).
  { intros Hge. destruct f; cbn [gen_windows]; destruct (Z.ltb_spec (g_size g1) n); (done || lia). }
  set (ws := gen_windows pick count_dist size_dist jitter n count f ((s + 1) mod count) g1) in *.
  destruct (spec_check_all_app ms (concat ws.*2) st) as [-> _].
  assert (Hrest : content <$> (spec_check_all (concat ws.*2) (spec_check_all ms st).2).1 =
      concat ((λ w : Defect * list Msg, content_words w.1 None w.2) <$> ws) ∧
    Forall msg_wf (concat ws.*2) ∧ Forall window_shape ws.*2).
  { destruct (Z.lt_ge_cases (g_size g1) n) as [Hlt|Hge]; [apply IH; [congruence|done|lia|by apply C1]|].
    rewrite Hnil by lia. by split; [|split; constructor]. }
  destruct Hrest as (H1&H2&H3). rewrite fmap_app, R1, H1. split; [done|]. split; [by apply Forall_app|by constructor].
Qed.

Lemma verdicts es rs ws :
  Forall2 seq_flags es rs → content <$> rs = ws → 
  verdict <$> rs = zip_with (λ e c, (Z.lor (seq_word e) c, e.1)) es ws.
Proof.
  intros Hf <-. induction Hf as [|e r es rs He _ IH]; [done|]. cbn. by rewrite (verdict_split e r He), <- IH.
Qed.

Lemma dataset_verdicts pick count_dist size_dist jitter n sym_count :
  (∀ i, 2 <= count_dist i) → (∀ i, 1 <= size_dist i <= 100) →
  (∀ i, number (jitter i) ∧ 2 * Z.abs (fz (jitter i)) <= unit) → 0 <= n <= 10 ^ 6 → sym_count <= max_symbols →
  let count := Z.max 1 sym_count in
  let ws := dataset_windows pick count_dist size_dist jitter n count in
  gen_main pick count_dist size_dist jitter n sym_count = Some (concat ws.*2) ∧
  verdict <$> (check_all (concat ws.*2) validator_init).1 = predicted count ws ∧
  Forall msg_wf (concat ws.*2) ∧ Forall window_shape ws.*2.
Proof.
  intros Hcd Hsize Hjit Hn Hsym count ws.
  destruct (dataset_windows_spec pick count_dist size_dist jitter n sym_count) as (H1&H2&H3); [done|lia|done|].
  cbn zeta in H1, H2, H3. fold count ws in H1, H2, H3. split; [done|].
  destruct (gen_windows_content pick count_dist size_dist jitter n count (Z.to_nat n) (count - 1) (gen_init count) ∅
    Hsize Hjit Hn Hcd) as (C1&C2&C3); [lia| |apply gen_init_px|done| |].
  - cbn [gen_init g_px]. by rewrite length_fmap, length_seqZ.
  - intros k s H. by rewrite lookup_empty in H.
  - split; [|done]. apply verdicts; [exact H3|]. rewrite H2. exact C1.
Qed.

(** C20: The verdict on a whole generated data set is known from the defects drawn, without
    looking at a price: of every record, each flag but two is set exactly as predicted.
    A corrupt tick flags its price, a gap (with its length) and a regression the first
    trade of their window (but for the first window of a symbol, where there is nothing to
    compare with), a crossed or locked quote the first quote, each of the four reconstruction
    defects its own comparison on the bar, an inverted band its order, its open, its close
    and its prices; no other record has any of these flags, and no price, size, volume or
    quote of the generator is ever reported as not positive or empty.  This holds for every
    random engine within the ranges of the program's distributions and up to its default
    of a million records, the rounding of every price, product and average included. *)
Theorem gen_detection_exact pick count_dist size_dist jitter n sym_count :
  (∀ i, 2 <= count_dist i) → (∀ i, 1 <= size_dist i <= 100) →
  (∀ i, number (jitter i) ∧ 2 * Z.abs (fz (jitter i)) <= unit) → 0 <= n <= 10 ^ 6 → sym_count <= max_symbols →
  let count := Z.max 1 sym_count in
  let ws := dataset_windows pick count_dist size_dist jitter n count in
  gen_main pick count_dist size_dist jitter n sym_count = Some (concat ws.*2) ∧
  verdict <$> (check_all (concat ws.*2) validator_init).1 = predicted count ws.
Proof.
  intros Hcd Hsize Hjit Hn Hsym. destruct (dataset_verdicts pick count_dist size_dist jitter n sym_count) as (H1&H2&_); done.
Qed.

(** Every defect in turn over two symbols, with prices that move by a quarter. *)
Lemma gen_detection_exact_witness :
  let ws := dataset_windows (λ i, (i / 12) mod 12) (λ _, 3) (λ i, 1 + i mod 100) (λ _, lit 1 4) 80 2 in
  gen_main (λ i, (i / 12) mod 12) (λ _, 3) (λ i, 1 + i mod 100) (λ _, lit 1 4) 80 2 = Some (concat ws.*2) ∧
  verdict <$> (check_all (concat ws.*2) validator_init).1 = predicted 2 ws ∧
  length (remove_dups ws.*1) = 12%nat.
Proof.
  destruct (gen_detection_exact (λ i, (i / 12) mod 12) (λ _, 3) (λ i, 1 + i mod 100) (λ _, lit 1 4) 80 2) as [H1 H2];
    [lia|intros i; pose proof (Z.mod_pos_bound i 100); lia|intros _; split; [by vm_compute|by apply Z.leb_le; vm_compute]
    |lia|by vm_compute|].
  split; [exact H1|]. split; [exact H2|]. by vm_compute.
Defined.
