(* ===== verification/GenBand.v ===== *)
(** * gen_dataset: the price spikes are found, and nothing else is

    The price band over a generated data set: as long as the random walk of the prices
    stays above eighty dollars, a spike is reported on its trade and nowhere else.  The one
    exception is a spike in a symbol's first window, which becomes the reference itself:
    there the three trades after it are reported, until the reference is replaced. *)

From stdpp Require Import base numbers list list_numbers gmap strings.
From Stdlib Require Import ZArith Lia.
From S2P Require Import Prelude Float64 Runtime Wire Replay Validator ValidatorTable ValidatorProps.
From S2P Require Import ValidatorChecks Timestamp Ingest LiveIngest.
From S2P Require Import Arbitrator ArbitratorProofs ArbitratorSessions Util Harness HarnessProofs.
From S2P Require Import ParserProofs LiveIngestProofs LiveIngestProps GenDataset GenDatasetProofs GenSequencing GenRecon.
From S2P Require Import FloatRound PriceTolerance PriceBand GenPrices GenDetection.

Local Open Scope Z_scope.

(** The running price moves by at most one half, and a rounding. *)
Definition jstep : Z := half + 2 ^ 1050.

Lemma jstep_ok : 2 ^ 100 <= jstep ∧ 2 ^ 39 * jstep <= top / 16.
Proof. split; apply Z.leb_le; by vm_compute. Qed.

Lemma jstep_half : half <= jstep ∧ 158 * jstep <= 160 * half ∧ 100 * jstep <= 101 * half.
Proof. repeat split; apply Z.leb_le; by vm_compute. Qed.

Lemma follows_weaken t t' p b : t <= t' → follows jstep t p b → follows jstep t' p b.
Proof. intros Ht (H1&H2&H3). destruct jstep_ok. split; [done|]. split; [done|]. nia. Qed.

(** ** What is reported *)

(** Whether the [k]-th record of a window is reported, in the first window of its symbol
    or in a later one. *)
Definition breach_at (first : bool) (d : Defect) (k : Z) : bool :=
  match d with DPriceSpike => if first then (1 <=? k) && (k <=? 3) else k =? 0 | _ => false end.

Fixpoint band_words (first : bool) (d : Defect) (k : Z) (ms : list Msg) : list bool :=
  match ms with [] => [] | _ :: ms' => breach_at first d k :: band_words first d (k + 1) ms' end.

Lemma band_words_app first d ms1 : ∀ k ms2,
  band_words first d k (ms1 ++ ms2) = band_words first d k ms1 ++ band_words first d (k + Z.of_nat (length ms1)) ms2.
Proof.
  induction ms1 as [|m ms1 IH]; intros k ms2; cbn [app band_words length]; [by rewrite Z.add_0_r|].
  rewrite IH. do 2 f_equal. f_equal. lia.
Qed.

(** ** The band within a window *)

(** How far the reference may be behind after [k] trades, in tenths of a step. *)
Definition lag (k : Z) : Z := if k =? 1 then 63 else if k =? 2 then 59 else if k =? 3 then 56 else 53.

(** A reference that a spike has set, [k] trades ago. *)
Definition spiked (k : Z) (p : double) (b : Band) : Prop :=
  ref_init b = true ∧ number (ref_price b) ∧ breach_run b = k - 1 ∧
  16 * fz p - (16 * (k - 1) + 1) * jstep <= 10 * fz (ref_price b) ∧ unit <= fz (ref_price b) <= 2 ^ 20 * unit.

(** The band before the [k]-th trade of a window, [p] being the running price. *)
Definition window_band (first : bool) (d : Defect) (k : Z) (p : double) (b : Band) : Prop :=
  match first, d with
  | true, DPriceSpike =>
      if k =? 0 then ref_init b = false ∧ breach_run b = 0
      else if k <=? 3 then spiked k p b else follows jstep (lag k) p b ∧ breach_run b = 0
  | true, DCorruptTrade =>
      if k <=? 1 then ref_init b = false ∧ breach_run b = 0 else follows jstep (lag k) p b ∧ breach_run b = 0
  | true, _ =>
      if k =? 0 then ref_init b = false ∧ breach_run b = 0 else follows jstep (lag k) p b ∧ breach_run b = 0
  | false, _ => follows jstep (lag k) p b ∧ (k ≠ 1 → breach_run b = 0)
  end.

Lemma number_price_range p : number p → unit <= fz p <= 2 ^ 20 * unit → 158 * jstep <= fz p → market jstep 158 p.
Proof. intros Np Bp Hp. destruct jstep_half. pose proof half_unit. split; [done|]. lia. Qed.

(** An ordinary trade while the reference follows. *)
Lemma follows_trade k p p' b :
  0 <= k → Z.abs (fz p' - fz p) <= jstep → market jstep 158 p' → follows jstep (lag k) p b →
  breaches p' b = false ∧ follows jstep (lag (k + 1)) p' (band_next p' b) ∧ breach_run (band_next p' b) = 0.
Proof.
  intros Hk Hd Hm Hf.
  assert (Hl : 0 <= lag k ∧ lag k + 10 <= 73 ∧ (1 <= k → 20 * (lag k + 10) + 1 <= 25 * lag (k + 1)) ∧
    (k = 0 → lag k = 53 ∧ lag (k + 1) = 63)) by (unfold lag; zbool; lia).
  destruct Hl as (L0&L1&L2&L3).
  pose proof (follows_step _ jstep_ok (lag k) (lag k + 10) p p' b Hd (Z.le_refl _) Hf) as H10.
  split; [apply (follows_quiet _ jstep_ok 158 (lag k + 10)); (done || lia)|].
  apply (follows_next _ jstep_ok 158 (lag k + 10)); (done || lia).
Qed.

(** The first valid trade of a symbol. *)
Lemma anchor_trade k p b :
  number p → ref_init b = false → breach_run b = 0 →
  breaches p b = false ∧ follows jstep (lag k) p (band_next p b) ∧ breach_run (band_next p b) = 0.
Proof.
  intros Np Hi Hr. destruct (follows_first _ jstep_ok p b Np Hi) as [Hf Hb]. split; [done|]. split.
  - apply (follows_weaken 0); [unfold lag; zbool; lia|done].
  - unfold band_next. by rewrite Hi.
Qed.

(** The spiked price is 1.6 times the running one. *)
Lemma spike_value p :
  number p → unit <= fz p <= 2 ^ 19 * unit →
  number (fmul p (lit 16 10)) ∧ Z.abs (10 * fz (fmul p (lit 16 10)) - 16 * fz p) <= 2 ^ 1050 ∧
  unit <= fz (fmul p (lit 16 10)) <= 2 ^ 20 * unit.
Proof.
  intros Np Bp. destruct number_spike as [Ns Es]. pose proof unit_pos as Hu. destruct unit_large as [U1 U2].
  assert (Hc : Z.abs (10 * fz (lit 16 10) - 16 * unit) * 2 ^ 50 <= 16 * unit) by (apply Z.leb_le; by vm_compute).
  assert (Hb : unit * 2 ^ 25 <= 2 ^ 1050 * 2 ^ 49) by (apply Z.leb_le; by vm_compute).
  generalize dependent (2 ^ 1050). intros E Hb. set (f := fz (lit 16 10)) in *.
  assert (Hpf1 : fz p * unit <= fz p * f) by (apply Z.mul_le_mono_nonneg_l; lia).
  assert (Hpf2 : fz p * f <= fz p * (2 * unit)) by (apply Z.mul_le_mono_nonneg_l; lia).
  assert (Hpu : unit * unit <= fz p * unit <= 2 ^ 19 * unit * unit) by (split; apply Z.mul_le_mono_nonneg_r; lia).
  assert (Hbig : 2 ^ 52 * unit <= unit * unit) by (apply Z.mul_le_mono_nonneg_r; lia).
  assert (Htop : 2 ^ 20 * unit * unit < top * unit).
  { apply Z.mul_lt_mono_pos_r; [done|]. eapply Z.le_lt_trans; [|exact U2]. apply Z.mul_le_mono_nonneg_r; [lia|].
    apply Z.leb_le. by vm_compute. }
  destruct (rounds_near (fz p * f) unit (fmul p (lit 16 10)) Hu) as [Nm Em]; [lia|by apply fmul_rounds|].
  destruct (fmul_between p (lit 16 10) (1 * unit) (2 ^ 20 * unit)) as [_ Bq];
    [done|done|apply rep_unit; lia|apply rep_unit; lia|fold f; lia|].
  split; [done|]. split; [|lia]. rewrite (Z.abs_eq (fz p * f)) in Em by lia.
  set (q := fz (fmul p (lit 16 10))) in *. clearbody f q.
  assert (H1 : Z.abs (10 * (fz p * f) - 16 * (fz p * unit)) * 2 ^ 50 <= 16 * (fz p * unit)).
  { replace (10 * (fz p * f) - 16 * (fz p * unit)) with (fz p * (10 * f - 16 * unit)) by lia.
    rewrite Z.abs_mul, (Z.abs_eq (fz p)), <- Z.mul_assoc by lia.
    transitivity (fz p * (16 * unit)); [apply Z.mul_le_mono_nonneg_l; lia|lia]. }
  assert (H2 : unit * unit * 2 ^ 25 <= E * 2 ^ 49 * unit) by (rewrite <- Z.mul_assoc, (Z.mul_comm unit (2 ^ 25)), Z.mul_assoc;
    apply Z.mul_le_mono_nonneg_r; lia).
  apply (Z.mul_le_mono_pos_r _ _ unit Hu).
  replace (Z.abs (10 * q - 16 * fz p) * unit) with (Z.abs (10 * (q * unit) - 16 * (fz p * unit))).
  2:{ replace (10 * (q * unit) - 16 * (fz p * unit)) with ((10 * q - 16 * fz p) * unit) by lia.
      by rewrite Z.abs_mul, (Z.abs_eq unit) by lia. }
  clear Hb Hc Es U1 U2 Htop Hbig Bq Bp. lia.
Qed.

Lemma jstep_vals : half + 2 ^ 1050 = jstep ∧ 0 < 2 ^ 1050 ∧ 2 * half = unit ∧ 0 < unit ∧ 16 * 2 ^ 1050 <= half.
Proof. split; [done|]. split; [done|]. split; [apply half_unit|]. split; [apply unit_pos|]. apply Z.leb_le. by vm_compute. Qed.

(** A spike that becomes the reference. *)
Lemma spike_first p b :
  number p → unit <= fz p <= 2 ^ 19 * unit → ref_init b = false → breach_run b = 0 →
  breaches (fmul p (lit 16 10)) b = false ∧ spiked 1 p (band_next (fmul p (lit 16 10)) b).
Proof.
  intros Np Bp Hi Hr. destruct (spike_value p Np Bp) as (Nq&Eq&Bq). destruct jstep_vals as (J1&J2&J3&J4&J5).
  generalize dependent (2 ^ 1050). intros E. intros.
  unfold breaches, band_next, spiked. rewrite Hi. cbn [negb andb ref_init ref_price breach_run].
  split; [done|]. split; [done|]. split; [done|]. split; [done|]. lia.
Qed.

Lemma price_below_top p : fz p <= 2 ^ 21 * unit → fz p <= top / 4.
Proof.
  intros Hp. etrans; [exact Hp|]. apply Z.leb_le. by vm_compute.
Qed.

(** A spike against an established reference is reported and leaves it alone. *)
Lemma spike_later p p' b :
  number p' → unit <= fz p' <= 2 ^ 19 * unit → 160 * half <= fz (fmul p' (lit 16 10)) →
  Z.abs (fz p' - fz p) <= jstep → follows jstep 53 p b → breach_run b = 0 →
  breaches (fmul p' (lit 16 10)) b = true ∧ follows jstep 63 p' (band_next (fmul p' (lit 16 10)) b).
Proof.
  intros Np Bp Hq Hd Hf Hr. destruct (spike_value p' Np Bp) as (Nq&Eq&Bq). destruct jstep_vals as (J1&J2&J3&J4&J5).
  pose proof (follows_step _ jstep_ok 53 63 p p' b Hd ltac:(lia) Hf) as (Hi&Nr&H63).
  destruct unit_large as [U1 _].
  assert (Hout : out_of_band (fmul p' (lit 16 10)) (ref_price b) = true).
  { generalize dependent (2 ^ 1050). intros E. intros.
    apply out_band; [done|done|apply price_below_top; lia|lia|split; [lia|apply price_below_top; lia]|lia]. }
  unfold breaches, band_next. rewrite Hi, Hout, Hr. cbn [negb andb]. split; [done|].
  change (kBandReanchorRun <=? u32 (0 + 1)) with false. cbn. by split.
Qed.

(** A trade against a reference that a spike has set: the third one replaces it. *)
Lemma spiked_trade k p p' b :
  1 <= k <= 3 → number p' → unit <= fz p' <= 2 ^ 19 * unit → 160 * half <= fz p' →
  Z.abs (fz p' - fz p) <= jstep → spiked k p b →
  breaches p' b = true ∧
  (if k =? 3 then follows jstep (lag 4) p' (band_next p' b) ∧ breach_run (band_next p' b) = 0
   else spiked (k + 1) p' (band_next p' b)).
Proof.
  intros Hk Np Bp Hp Hd (Hi&Nr&Hrun&Hs&Br). destruct jstep_vals as (J1&J2&J3&J4&J5). destruct unit_large as [U1 _].
  assert (Hs' : 16 * fz p' - (16 * k + 1) * jstep <= 10 * fz (ref_price b)) by lia.
  assert (Hout : out_of_band p' (ref_price b) = true).
  { clear Hs. generalize dependent (2 ^ 1050). intros E. intros. assert ((16 * k + 1) * jstep <= 49 * jstep) by nia.
    apply out_band; [done|done|apply price_below_top; lia|lia|split; [lia|apply price_below_top; lia]|lia]. }
  unfold breaches, band_next. rewrite Hi, Hout, Hrun. cbn [negb andb]. split; [done|].
  unfold kBandReanchorRun, u32. rewrite Z.mod_small by lia.
  destruct (Z.eqb_spec k 3) as [->|Hne]; [|destruct (Z.leb_spec 3 (k - 1 + 1)); [lia|]].
  - change (3 <=? 3 - 1 + 1) with true. cbn. split; [|done]. split; [done|]. split; [done|]. cbn. lia.
  - unfold spiked. cbn [ref_init ref_price breach_run]. replace (k + 1 - 1) with k by lia.
    split; [done|]. split; [done|]. split; [lia|]. by split.
Qed.

(** The price of the [k]-th trade, the running price being [p]. *)
Definition trade_price (d : Defect) (k : Z) (p : double) : double :=
  match d with
  | DCorruptTrade => if k =? 0 then double_of_Z (-1) else p
  | DPriceSpike => if k =? 0 then fmul p (lit 16 10) else p
  | _ => p
  end.

(** Valid trades are at eighty dollars at least. *)
Definition above_floor (m : Msg) : Prop :=
  match m with MTrade t => fgt (wt_price t) fzero = true → 160 * half <= fz (wt_price t) | _ => True end.

Lemma valid_priced t : 1 <= wt_size t → priced (wt_price t) → valid_trade t = true ∧ fgt (wt_price t) fzero = true.
Proof.
  intros Hz [Np Bp]. pose proof unit_pos. assert (Hp : fgt (wt_price t) fzero = true) by (rewrite not_fgt_zero by done; lia).
  split; [|done]. unfold valid_trade. rewrite Hp. destruct (Z.eqb_spec (wt_size t) 0); [lia|done].
Qed.

Section Trade.
Context (first : bool) (d : Defect) (k : Z) (p p' : double) (t : WireTrade) (b : Band).
Hypothesis Hk : 0 <= k.
Hypothesis Np : number p'.
Hypothesis Bp : unit <= fz p' <= 2 ^ 19 * unit.
Hypothesis Hd : Z.abs (fz p' - fz p) <= jstep.
Hypothesis Hz : 1 <= wt_size t.
Hypothesis Ht : wt_price t = trade_price d k p'.
Hypothesis Hfl : above_floor (MTrade t).

(** A trade at the running price. *)
Lemma plain_trade : trade_price d k p' = p' → valid_trade t = true ∧ wt_price t = p' ∧ 160 * half <= fz p' ∧ market jstep 158 p'.
Proof using All.
  intros E. rewrite E in Ht. destruct (valid_priced t Hz) as [Hv Hg].
  { rewrite Ht. split; [done|]. pose proof unit_pos. lia. }
  specialize (Hfl Hg). rewrite Ht in Hfl. destruct jstep_half as (_&J&_).
  split; [done|]. split; [done|]. split; [done|]. apply number_price_range; [done|pose proof unit_pos; lia|lia].
Qed.

Lemma plain_follow :
  trade_price d k p' = p' → breach_at first d k = false → follows jstep (lag k) p b →
  valid_trade t && breaches (wt_price t) b = breach_at first d k ∧
  follows jstep (lag (k + 1)) p' (if valid_trade t then band_next (wt_price t) b else b) ∧
  breach_run (if valid_trade t then band_next (wt_price t) b else b) = 0.
Proof using All.
  intros E Hb Hf. destruct (plain_trade E) as (Hv&Ep&_&Hm). rewrite Hv, Ep, Hb. cbn [andb]. by apply (follows_trade k p).
Qed.

Lemma plain_anchor :
  trade_price d k p' = p' → breach_at first d k = false → ref_init b = false → breach_run b = 0 →
  valid_trade t && breaches (wt_price t) b = breach_at first d k ∧
  follows jstep (lag (k + 1)) p' (if valid_trade t then band_next (wt_price t) b else b) ∧
  breach_run (if valid_trade t then band_next (wt_price t) b else b) = 0.
Proof using All.
  intros E Hb Hi Hr. destruct (plain_trade E) as (Hv&Ep&_&Hm). rewrite Hv, Ep, Hb. cbn [andb]. by apply anchor_trade.
Qed.

Lemma corrupt_trade :
  d = DCorruptTrade → k = 0 → window_band first d k p b →
  valid_trade t && breaches (wt_price t) b = breach_at first d k ∧
  window_band first d (k + 1) p' (if valid_trade t then band_next (wt_price t) b else b).
Proof using All.
  intros -> -> Hw. assert (Hv : valid_trade t = false) by (unfold valid_trade; by rewrite Ht).
  rewrite Hv. split; [done|]. destruct first; [exact Hw|]. destruct Hw as [Hf _]. split; [|done].
  by apply (follows_step _ jstep_ok 53 63 p).
Qed.

Lemma spike_trade :
  d = DPriceSpike → k = 0 → window_band first d k p b →
  valid_trade t && breaches (wt_price t) b = breach_at first d k ∧
  window_band first d (k + 1) p' (if valid_trade t then band_next (wt_price t) b else b).
Proof using All.
  intros -> -> Hw. cbn [trade_price Z.eqb] in Ht. destruct (spike_value p' Np Bp) as (Nq&_&Bq).
  destruct (valid_priced t Hz) as [Hv Hg]; [by rewrite Ht|]. specialize (Hfl Hg). rewrite Hv, Ht in *. cbn [andb].
  destruct first; cbn [window_band] in *.
  - destruct (spike_first p' b Np Bp) as [H1 H2]; [apply Hw|apply Hw|]. split; [by rewrite H1|exact H2].
  - destruct Hw as [Hf Hr]. destruct (spike_later p p' b) as [H1 H2]; [done..|by apply Hr|].
    split; [by rewrite H1|]. split; [exact H2|done].
Qed.

Lemma after_spike_trade :
  first = true → d = DPriceSpike → 1 <= k <= 3 → spiked k p b →
  valid_trade t && breaches (wt_price t) b = breach_at first d k ∧
  window_band first d (k + 1) p' (if valid_trade t then band_next (wt_price t) b else b).
Proof using All.
  intros Ef Ed Hk3 Hs. destruct plain_trade as (Hv&Ep&Hp&_); [rewrite Ed; unfold trade_price; zbool; (done || lia)|].
  rewrite Hv, Ep, Ef, Ed. cbn [andb]. destruct (spiked_trade k p p' b) as [H1 H2]; [done..|]. rewrite H1.
  split; [unfold breach_at; zbool; (done || lia)|]. cbn [window_band].
  destruct (Z.eqb_spec k 3) as [Ek|]; [rewrite Ek; exact H2|].
  destruct (Z.eqb_spec (k + 1) 0); [lia|]. destruct (Z.leb_spec (k + 1) 3); [done|lia].
Qed.

Lemma window_band_trade :
  window_band first d k p b →
  valid_trade t && breaches (wt_price t) b = breach_at first d k ∧
  window_band first d (k + 1) p' (if valid_trade t then band_next (wt_price t) b else b).
Proof using All.
  intros Hw. destruct (decide (d = DCorruptTrade ∧ k = 0)) as [[? ?]|Hc]; [by apply corrupt_trade|].
  destruct (decide (d = DPriceSpike ∧ k = 0)) as [[? ?]|Hs]; [by apply spike_trade|].
  destruct (decide (first = true ∧ d = DPriceSpike ∧ 1 <= k <= 3)) as [(E1&E2&E3)|Ha].
  { apply after_spike_trade; [done..|]. rewrite E1, E2 in Hw. cbn [window_band] in Hw.
    destruct (Z.eqb_spec k 0); [lia|]. by destruct (Z.leb_spec k 3); [|lia]. }
  assert (Et : trade_price d k p' = p') by (unfold trade_price; destruct d; zbool; naive_solver).
  assert (Eb : breach_at first d k = false).
  { unfold breach_at. destruct d; try done. destruct first; zbool; try done; naive_solver lia. }
  assert (Hn : window_band first d (k + 1) p' (if valid_trade t then band_next (wt_price t) b else b) ↔
    follows jstep (lag (k + 1)) p' (if valid_trade t then band_next (wt_price t) b else b) ∧
    (first = true ∨ k ≠ 0 → breach_run (if valid_trade t then band_next (wt_price t) b else b) = 0)).
  { set (b' := if valid_trade t then _ else _). clearbody b'. unfold window_band. destruct first.
    - destruct d; zbool; naive_solver lia.
    - split; intros [H1 H2]; (split; [done|]); intros; apply H2; lia || naive_solver. }
  rewrite Hn. clear Hn.
  assert (Hor : follows jstep (lag k) p b ∨ (ref_init b = false ∧ breach_run b = 0)).
  { unfold window_band in Hw. clear -Hw Ha Hk. destruct first; [|left; apply Hw].
    destruct d; zbool; try (left; apply Hw); try (right; exact Hw).
    exfalso. apply Ha. split; [done|]. split; [done|lia]. }
  destruct Hor as [Hf|[Hi Hr]].
  - destruct (plain_follow Et Eb Hf) as (?&?&?). by split.
  - destruct (plain_anchor Et Eb Hi Hr) as (?&?&?). by split.
Qed.

End Trade.

(** ** The records of a window *)

Lemma spec_check_slot m st :
  let sl := default (fresh_slot (msg_key m)) (st !! msg_key m) in
  (spec_check m st).1 = (check_slot m sl).2 ∧ (spec_check m st).2 = <[msg_key m := (check_slot m sl).1]> st.
Proof. cbn zeta. unfold spec_check. by destruct (check_slot m _). Qed.

(** The band of a symbol. *)
Definition band_at (k : Z) (st : gmap Z Slot) : Band := band (default (fresh_slot k) (st !! k)).

Lemma spec_check_band m st :
  has (spec_check m st).1 kPriceBandBreach =
    (match m with
     | MTrade t => valid_trade t && breaches (wt_price t) (band_at (msg_key m) st)
     | MQuote q => two_sided q && breaches (quote_mid q) (band_at (msg_key m) st)
     | MBar _ => false
     end) ∧
  band_at (msg_key m) (spec_check m st).2 =
    (match m with
     | MTrade t => if valid_trade t then band_next (wt_price t) (band_at (msg_key m) st) else band_at (msg_key m) st
     | _ => band_at (msg_key m) st
     end) ∧
  ∀ k, k ≠ msg_key m → (spec_check m st).2 !! k = st !! k.
Proof.
  destruct (spec_check_slot m st) as [-> ->]. unfold band_at at 3. rewrite lookup_insert_eq. cbn [default id].
  split; [apply band_flag|]. split; [apply band_after|]. intros k Hk. by apply lookup_insert_ne.
Qed.

Lemma quote_mid_near p q :
  priced p → number (wq_bid_price q) → number (wq_ask_price q) →
  Z.abs (fz (wq_bid_price q) + fz (wq_ask_price q) - 2 * fz p) * 2 ^ 10 <= unit →
  number (quote_mid q) ∧ Z.abs (fz (quote_mid q) - fz p) <= half.
Proof.
  intros [Np Bp] Nb Na Hs. pose proof unit_pos as Hu. pose proof half_unit as Hh. destruct unit_large as [U1 U2].
  assert (Htop : 2 ^ 30 * unit < top).
  { eapply Z.le_lt_trans; [|exact U2]. apply Z.mul_le_mono_nonneg_r; [lia|]. apply Z.leb_le. by vm_compute. }
  assert (Hl : number (lit 1 2) ∧ fz (lit 1 2) = half) by (by split; vm_compute). destruct Hl as [Nl El].
  destruct (rounds_near_unit (fz (wq_bid_price q) + fz (wq_ask_price q))
    (fadd (wq_bid_price q) (wq_ask_price q))) as [Nx Ex]; [lia|by apply fadd_rounds|].
  unfold quote_mid. set (x := fadd _ _) in *. rewrite Z.mul_1_r in Ex.
  assert (Bx : unit <= fz x <= 2 ^ 22 * unit) by lia.
  assert (H1 : unit * half <= fz x * half <= 2 ^ 22 * unit * half) by (split; apply Z.mul_le_mono_nonneg_r; lia).
  assert (H2 : 2 ^ 53 * half <= unit * half) by (apply Z.mul_le_mono_nonneg_r; lia).
  assert (H3 : 2 ^ 30 * unit * half < top * half) by (apply Z.mul_lt_mono_pos_r; lia).
  assert (H4 : 2 * (fz x * half) = fz x * unit) by lia.
  destruct (rounds_near (fz x * half) unit (fmul x (lit 1 2)) Hu) as [Nm Em].
  { rewrite <- Hh at 2. lia. }
  { rewrite <- El. by apply fmul_rounds. }
  split; [done|]. set (m := fz (fmul x (lit 1 2))) in *. rewrite (Z.abs_eq (fz x * half)) in Em by lia.
  assert (H5 : Z.abs (2 * m - fz x) * 2 ^ 52 <= fz x).
  { apply (Z.mul_le_mono_pos_r _ _ unit Hu).
    replace (Z.abs (2 * m - fz x) * 2 ^ 52 * unit) with (Z.abs (2 * (m * unit) - fz x * unit) * 2 ^ 52); [lia|].
    replace (2 * (m * unit) - fz x * unit) with ((2 * m - fz x) * unit) by lia.
    rewrite Z.abs_mul, (Z.abs_eq unit) by lia. lia. }
  clear Em H1 H2 H3 H4. lia.
Qed.

(** The two sides of a quote average to the running price. *)
Lemma quote_sides_mid d qk p q :
  priced p → (wq_bid_price q, wq_ask_price q) = quote_sides d qk p →
  two_sided q = true ∧ number (quote_mid q) ∧ Z.abs (fz (quote_mid q) - fz p) <= half.
Proof.
  intros Hp Hq. destruct (quote_prices _ Hp) as (N1&N2&P1&P2&P3). pose proof half_unit. pose proof unit_pos.
  destruct number_tick as [Nt Et]. pose proof Hp as [Np Ep].
  assert (Htop : 2 ^ 21 * unit < top) by (apply Z.ltb_lt; by vm_compute).
  destruct (rounds_near_unit (fz p - fz (lit 5 100)) (fsub p (lit 5 100))) as [_ E1]; [lia|by apply fsub_rounds|].
  destruct (rounds_near_unit (fz p + fz (lit 5 100)) (fadd p (lit 5 100))) as [_ E2]; [lia|by apply fadd_rounds|].
  rewrite Z.mul_1_r in E1, E2. set (lo := fsub p (lit 5 100)) in *. set (hi := fadd p (lit 5 100)) in *.
  assert (Hsides : number (wq_bid_price q) ∧ number (wq_ask_price q) ∧ 0 < fz (wq_bid_price q) ∧ 0 < fz (wq_ask_price q) ∧
    Z.abs (fz (wq_bid_price q) + fz (wq_ask_price q) - 2 * fz p) * 2 ^ 10 <= unit).
  { pose proof (f_equal fst Hq) as Eb. pose proof (f_equal snd Hq) as Ea. cbn [fst snd] in Ea, Eb. rewrite Ea, Eb.
    unfold quote_sides. fold lo hi. clear Hq Ea Eb.
    destruct d; try destruct (qk =? 0); cbn [fst snd]; (split; [done|]); (split; [done|]); lia. }
  destruct Hsides as (Nb&Na&Pb&Pa&Hs). split; [unfold two_sided; rewrite !not_fgt_zero by done; lia|].
  by apply quote_mid_near.
Qed.

Section Windows.
Context (pick count_dist size_dist : Z → Z) (jitter : Z → double) (n : Z) (symbols : list (list byte)).
Hypothesis Hsize : ∀ i, 1 <= size_dist i <= 100.
Hypothesis Hjit : ∀ i, number (jitter i) ∧ 2 * Z.abs (fz (jitter i)) <= unit.
Hypothesis Hn : 0 <= n <= 10 ^ 6.

Lemma gen_trade_moves s d k g w g' w' m :
  px_ok g → (s < length (g_px g))%nat → 0 <= g_size g < n →
  gen_trade size_dist jitter symbols s d k g w = (g', w', m) →
  ∃ t, m = MTrade t ∧ msg_key m = key_of symbols s ∧ 1 <= wt_size t ∧ wt_price t = trade_price d k (px_of s g') ∧
    number (px_of s g') ∧ unit <= fz (px_of s g') <= 2 ^ 19 * unit ∧ Z.abs (fz (px_of s g') - fz (px_of s g)) <= jstep ∧
    ∀ s', s' ≠ s → px_of s' g' = px_of s' g.
Proof using Hsize Hjit Hn.
  intros Hg Hs Hz E. pose proof (step_price_bounds jitter n Hjit Hn s g Hg Hs Hz) as [Np Ep].
  pose proof (step_price_moves jitter n Hjit Hn s g Hg Hs Hz) as Hd. unfold gen_trade in E. cbn zeta in E.
  set (g1 := step_price jitter s (tick_clock s g)) in *.
  change (px_of s (drew 1 g1)) with (px_of s g1) in E. change (g_draws g1) with (g_draws g + 1) in E.
  assert (Epx : g_px g' = g_px g1) by (injection E as <- _ _; by destruct d; try destruct (k =? 0)).
  assert (Ep' : px_of s g' = px_of s g1) by (unfold px_of; by rewrite Epx). rewrite Ep'.
  apply (f_equal snd) in E. cbn [snd] in E. subst m.
  eexists. split; [done|]. split; [done|]. split; [apply Hsize|]. split; [by destruct d|]. split; [done|].
  pose proof half_unit. split; [nia|]. split; [done|]. intros s' Hne. unfold px_of. rewrite Epx. unfold g1, step_price.
  cbn [g_px tick_clock]. by rewrite list_lookup_insert_ne.
Qed.

Lemma gen_trades_band first todo s d k g w g' w' ms st :
  0 <= k → px_ok g → (s < length (g_px g))%nat → 0 <= g_size g <= n → win_ok (g_size g) w →
  window_band first d k (px_of s g) (band_at (key_of symbols s) st) → (2 <= k → market jstep 158 (px_of s g)) →
  gen_trades size_dist jitter n symbols todo s d k g w = (g', w', ms) → Forall above_floor ms →
  (λ r, has r kPriceBandBreach) <$> (spec_check_all ms st).1 = band_words first d k ms ∧
  window_band first d (k + Z.of_nat (length ms)) (px_of s g') (band_at (key_of symbols s) (spec_check_all ms st).2) ∧
  (2 <= k + Z.of_nat (length ms) → market jstep 158 (px_of s g')) ∧
  px_ok g' ∧ length (g_px g') = length (g_px g) ∧ 0 <= g_size g' <= n ∧ win_ok (g_size g') w' ∧
  (∀ k', k' ≠ key_of symbols s → (spec_check_all ms st).2 !! k' = st !! k') ∧ (∀ s', s' ≠ s → px_of s' g' = px_of s' g).
Proof using Hsize Hjit Hn.
  revert k g w ms st. induction todo as [|todo IH]; intros k g w ms st Hk Hg Hs Hz Hw Hb Hm E Hf; cbn [gen_trades] in E.
  { simplify_eq. cbn [length Z.of_nat]. by rewrite Z.add_0_r. }
  destruct (Z.ltb_spec (g_size g) n); [|simplify_eq; cbn [length Z.of_nat]; by rewrite Z.add_0_r].
  destruct (gen_trade _ _ _ _ _ _ _ _) as [[g1 w1] m] eqn:E1.
  destruct (gen_trades _ _ _ _ todo _ _ _ _ _) as [[g2 w2] ms2] eqn:E2. simplify_eq. apply Forall_cons in Hf as [Hfm Hf].
  destruct (gen_trade_facts size_dist jitter n symbols Hsize Hjit Hn _ _ _ _ _ _ _ _ Hg Hs ltac:(lia) Hw E1)
    as (Hg1&Hl1&Hz1&Hw1&_).
  destruct (gen_trade_moves s d k g w g1 w1 m Hg Hs ltac:(lia) E1) as (t&->&Hkey&Ht&Hp&Np&Bp&Hd&Ho).
  destruct (spec_check_band (MTrade t) st) as (F1&F2&F3). rewrite Hkey in F1, F2, F3.
  destruct (window_band_trade first d k (px_of s g) (px_of s g1) t (band_at (key_of symbols s) st)) as [W1 W2]; [done..|].
  rewrite <- F2 in W2. rewrite W1 in F1.
  destruct (IH (k + 1) g1 w1 ms2 (spec_check (MTrade t) st).2) as (R1&R2&R3&R4&R5&R6&R7&R8&R9); try done; try lia.
  { intros Hk2. assert (Et : trade_price d k (px_of s g1) = px_of s g1).
    { unfold trade_price. destruct d; try done; destruct (Z.eqb_spec k 0); (done || lia). }
    by apply (plain_trade first d k (px_of s g) (px_of s g1) t (band_at (key_of symbols s) st)). }
  destruct (spec_check_all_step (MTrade t) ms2 st) as [-> ->]. cbn [length].
  replace (k + Z.of_nat (S (length ms2))) with (k + 1 + Z.of_nat (length ms2)) by lia.
  split; [cbn [fmap list_fmap band_words]; by rewrite F1, R1|]. split; [done|]. split; [done|]. split; [done|].
  split; [lia|]. split; [done|]. split; [done|]. split.
  - intros k' Hk'. rewrite R8, F3 by done. done.
  - intros s' Hs'. by rewrite R9, Ho.
Qed.

Lemma window_band_end first d k p b :
  4 <= k → window_band first d k p b → follows jstep 53 p b ∧ breach_run b = 0.
Proof using.
  intros Hk. assert (El : lag k = 53) by (unfold lag; zbool; lia). unfold window_band. rewrite El.
  destruct first, d; zbool; try lia; intros [H1 H2]; (split; [done|]); first [done | apply H2; lia].
Qed.

Lemma breach_at_late first d k : 4 <= k → breach_at first d k = false.
Proof using. intros Hk. unfold breach_at. destruct d, first; zbool; (done || lia). Qed.

Lemma gen_quotes_band first todo s d qk k g g' ms st :
  4 <= k → priced (px_of s g) → market jstep 158 (px_of s g) →
  follows jstep 53 (px_of s g) (band_at (key_of symbols s) st) →
  gen_quotes size_dist n symbols todo s d qk g = (g', ms) →
  (λ r, has r kPriceBandBreach) <$> (spec_check_all ms st).1 = band_words first d k ms ∧
  band_at (key_of symbols s) (spec_check_all ms st).2 = band_at (key_of symbols s) st ∧ g_px g' = g_px g ∧
  ∀ k', k' ≠ key_of symbols s → (spec_check_all ms st).2 !! k' = st !! k'.
Proof using.
  revert qk k g ms st. induction todo as [|todo IH]; intros qk k g ms st Hk Hp Hm Hf E; cbn [gen_quotes] in E;
    [by simplify_eq|].
  destruct (g_size g <? n); [|by simplify_eq].
  destruct (gen_quote _ _ _ _ _ _) as [g1 m] eqn:E1.
  destruct (gen_quotes _ _ _ todo _ _ _ _) as [g2 ms2] eqn:E2. simplify_eq.
  destruct (gen_quote_fields size_dist symbols _ _ _ _ _ _ E1) as (q&->&Hpx&Hkey&_&_&Hs).
  destruct (quote_sides_mid _ _ _ _ Hp Hs) as (Ht&Nm&Hd).
  destruct (spec_check_band (MQuote q) st) as (F1&F2&F3). rewrite Hkey in F1, F2, F3.
  destruct jstep_half as (J1&J2&J3).
  assert (Hq : breaches (quote_mid q) (band_at (key_of symbols s) st) = false).
  { apply (follows_quiet _ jstep_ok 157 63); [|lia..|].
    - destruct Hm as [_ Bm], Hp as [_ Bp]. pose proof half_unit. split; [done|]. lia.
    - apply (follows_step _ jstep_ok 53 63 (px_of s g)); [lia|lia|done]. }
  rewrite Hq, andb_false_r in F1.
  destruct (IH (qk + 1) (k + 1) g1 ms2 (spec_check (MQuote q) st).2) as (R1&R2&R3&R4);
    [lia|by unfold px_of in *; rewrite Hpx|by unfold px_of in *; rewrite Hpx|by rewrite F2; unfold px_of in *; rewrite Hpx|done|].
  destruct (spec_check_all_step (MQuote q) ms2 st) as [-> ->].
  split; [cbn [fmap list_fmap band_words]; by rewrite F1, R1, breach_at_late by lia|].
  split; [by rewrite R2, F2|]. split; [congruence|]. intros k' Hk'. by rewrite R4, F3.
Qed.

Lemma gen_trades_full todo s d k g w g' w' ms :
  gen_trades size_dist jitter n symbols todo s d k g w = (g', w', ms) → g_size g' < n → length ms = todo.
Proof using.
  revert k g w ms. induction todo as [|todo IH]; intros k g w ms E Hlt; cbn [gen_trades] in E; [by simplify_eq|].
  destruct (Z.ltb_spec (g_size g) n); [|simplify_eq; lia].
  destruct (gen_trade _ _ _ _ _ _ _ _) as [[g1 w1] m].
  destruct (gen_trades _ _ _ _ todo _ _ _ _ _) as [[g2 w2] ms2] eqn:E2. simplify_eq. cbn [length]. f_equal. by eapply IH.
Qed.

(** ** A window *)

Lemma gen_window_band first s g g' ms st :
  (s < length (g_px g))%nat → px_ok g → 0 <= g_size g < n → 4 <= count_dist (g_draws g + 1) →
  window_band first (defect_of (pick (g_draws g))) 0 (px_of s g) (band_at (key_of symbols s) st) →
  gen_window pick count_dist size_dist jitter n symbols s g = (g', ms) → Forall above_floor ms →
  (λ r, has r kPriceBandBreach) <$> (spec_check_all ms st).1 = band_words first (defect_of (pick (g_draws g))) 0 ms ∧
  (g_size g' < n → follows jstep 53 (px_of s g') (band_at (key_of symbols s) (spec_check_all ms st).2) ∧
     breach_run (band_at (key_of symbols s) (spec_check_all ms st).2) = 0) ∧
  (∀ k', k' ≠ key_of symbols s → (spec_check_all ms st).2 !! k' = st !! k') ∧ (∀ s', s' ≠ s → px_of s' g' = px_of s' g) ∧
  px_ok g' ∧ length (g_px g') = length (g_px g) ∧ 0 <= g_size g'.
Proof using Hsize Hjit Hn.
  intros Hs Hg Hz Hcd Hb E Hf. unfold gen_window in E. set (d := defect_of (pick (g_draws g))) in *.
  destruct (gen_trades _ _ _ _ _ _ _ _ _ _) as [[g1 w] ts] eqn:Et.
  destruct (gen_quotes _ _ _ _ _ _ _ _) as [g2 qs] eqn:Eq.
  assert (Hfts : Forall above_floor ts).
  { destruct (n <=? g_size g2); [|destruct (gen_bar _ _ _ _ _)]; simplify_eq; by apply Forall_app in Hf as [? _]. }
  destruct (gen_trades_band first _ s d 0 (drew 2 g) win_init g1 w ts st (Z.le_refl 0) Hg Hs ltac:(cbn; lia)
    (win_ok_init (g_size g) ltac:(lia)) Hb ltac:(lia) Et Hfts) as (R1&R2&R3&R4&R5&R6&_&R8&R9). cbn [drew g_px] in R5.
  destruct (Z.le_gt_cases n (g_size g1)) as [Hfull|Hroom].
  { assert (Eqs : g2 = g1 ∧ qs = []).
    { cbn [gen_quotes] in Eq. destruct (Z.ltb_spec (g_size g1) n); [lia|]. by simplify_eq. }
    destruct Eqs as [-> ->]. destruct (Z.leb_spec n (g_size g1)); [|lia]. simplify_eq. rewrite app_nil_r in *.
    split; [done|]. split; [lia|]. split; [done|].
    split; [intros s' Hs'; by rewrite R9|]. split; [done|]. split; [done|lia]. }
  assert (Hlen : 4 <= 0 + Z.of_nat (length ts)) by (rewrite (gen_trades_full _ _ _ _ _ _ _ _ _ Et Hroom); lia).
  destruct (window_band_end _ _ _ _ _ Hlen R2) as [Hfo Hrun].
  assert (Hp1 : priced (px_of s g1)) by (apply px_priced; [done|lia|lia]).
  destruct (gen_quotes_band first _ _ _ _ _ _ _ _ _ Hlen Hp1 (R3 ltac:(lia)) Hfo Eq) as (Q1&Q2&Q3&Q4).
  destruct (spec_check_all_app ts qs st) as [A1 A2].
  assert (Htq : (λ r, has r kPriceBandBreach) <$> (spec_check_all (ts ++ qs) st).1 = band_words first d 0 (ts ++ qs))
    by (rewrite A1, fmap_app, R1, Q1, band_words_app; done).
  destruct (gen_quotes_size size_dist n symbols ltac:(lia) _ _ _ _ _ _ _ Eq R6) as [Z2 Z2'].
  assert (Hg2 : px_ok g2) by (by apply (px_ok_same g1); [|lia|]).
  assert (Hpx : ∀ s', px_of s' g2 = px_of s' g1) by (intros; unfold px_of; by rewrite Q3).
  destruct (Z.leb_spec n (g_size g2)).
  { simplify_eq. split; [done|]. split; [lia|]. split.
    - intros k' Hk'. by rewrite A2, Q4, R8.
    - split; [intros s' Hs'; by rewrite Hpx, R9|]. split; [done|]. split; [congruence|lia]. }
  destruct (gen_bar symbols s d w g2) as [g3 b] eqn:Eb. simplify_eq. rewrite app_assoc.
  assert (Hbar : ∃ b0, b = MBar b0 ∧ msg_key b = key_of symbols s ∧ g_px g' = g_px g2 ∧ g_size g' = g_size g2 +u 1).
  { pose proof (f_equal fst Eb) as E1. pose proof (f_equal snd Eb) as E2. cbn [fst snd] in E1, E2.
    subst b g'. unfold gen_bar. eauto. }
  destruct Hbar as (b0&->&Hkey&Epx&Esz). rewrite u64_add_small in Esz by lia.
  destruct (spec_check_all_app (ts ++ qs) [MBar b0] st) as [-> ->]. rewrite A2.
  destruct (spec_check_all_step (MBar b0) [] (spec_check_all qs (spec_check_all ts st).2).2) as [-> ->].
  destruct (spec_check_band (MBar b0) (spec_check_all qs (spec_check_all ts st).2).2) as (F1&F2&F3).
  rewrite Hkey in F2, F3. cbn [spec_check_all fst snd].
  split; [|split; [|split; [|split; [|split; [|split]]]]].
  - rewrite fmap_app, Htq, (band_words_app first d (ts ++ qs)). cbn [fmap list_fmap band_words].
    by rewrite F1, breach_at_late by (rewrite length_app; lia).
  - intros _. rewrite F2, Q2. unfold px_of in *. by rewrite Epx, Q3.
  - intros k' Hk'. by rewrite F3, Q4, R8.
  - intros s' Hs'. etrans; [|exact (R9 s' Hs')]. rewrite <- Hpx. unfold px_of. by rewrite Epx.
  - apply (px_ok_same g2); [done|lia|done].
  - congruence.
  - lia.
Qed.

End Windows.

(** ** The whole data set *)

(** The symbols take turns, so the first [count] windows are the first of their symbols. *)
Fixpoint expected_breaches (count j : Z) (ws : list (Defect * list Msg)) : list bool :=
  match ws with
  | [] => []
  | w :: ws' => band_words (j <? count) w.1 0 w.2 ++ expected_breaches count (j + 1) ws'
  end.

Section Loop.
Context (pick count_dist size_dist : Z → Z) (jitter : Z → double) (n count : Z).
Hypothesis Hsize : ∀ i, 1 <= size_dist i <= 100.
Hypothesis Hjit : ∀ i, number (jitter i) ∧ 2 * Z.abs (fz (jitter i)) <= unit.
Hypothesis Hn : 0 <= n <= 10 ^ 6.
Hypothesis Hcd : ∀ i, 4 <= count_dist i.
Hypothesis Hcount : 1 <= count <= max_symbols.

(** The references of the symbols seen follow their running prices. *)
Definition bands_follow (g : Gen) (st : gmap Z Slot) : Prop :=
  ∀ i sl, 0 <= i < count → st !! gen_key i = Some sl → g_size g < n →
    follows jstep 53 (px_of (Z.to_nat i) g) (band sl) ∧ breach_run (band sl) = 0.

(** Before window [j]: a new symbol has no reference, the others follow. *)
Lemma window_starts j d g st :
  loop_inv n count j g st → bands_follow g st → 0 <= j → g_size g < n →
  let s := Z.to_nat (j mod count) in
  window_band (j <? count) d 0 (px_of s g) (band_at (gen_key (j mod count)) st).
Proof using Hcount.
  intros Hinv Hb Hj Hlt s. pose proof (Z.mod_pos_bound j count ltac:(lia)) as Hm.
  pose proof (li_slots _ _ _ _ _ Hinv (j mod count) Hm) as Hsl. specialize (Hb (j mod count)).
  unfold band_at. destruct (st !! gen_key (j mod count)) as [sl|]; cbn [default id].
  - destruct Hsl as [Hlt' _]. assert (Hc : count <= j).
    { destruct (Z_lt_le_dec j count) as [Hc|]; [|done]. rewrite Z.mod_small in Hlt' by lia. lia. }
    replace (j <? count) with false by lia. destruct (Hb sl Hm eq_refl Hlt) as [Hf Hr]. by split.
  - pose proof (Z.mod_le j count Hj ltac:(lia)). replace (j <? count) with true by lia. by destruct d.
Qed.

Lemma gen_windows_band fuel j s g st :
  loop_inv n count j g st → bands_follow g st → px_ok g → length (g_px g) = Z.to_nat count → 0 <= g_size g →
  0 <= j → (s + 1) mod count = j mod count →
  let ws := gen_windows pick count_dist size_dist jitter n count fuel s g in
  Forall above_floor (concat ws.*2) →
  (λ r, has r kPriceBandBreach) <$> (spec_check_all (concat ws.*2) st).1 = expected_breaches count j ws.
Proof using Hsize Hjit Hn Hcd Hcount.
  cbn zeta. revert j s g st. induction fuel as [|f IH]; intros j s g st Hinv Hb Hg Hl Hz Hj Hs; cbn [gen_windows].
  { by destruct (g_size g <? n). }
  destruct (Z.ltb_spec (g_size g) n) as [Hlt|]; [|done]. rewrite Hs.
  pose proof (loop_inv_step pick count_dist size_dist jitter n count Hcount ltac:(lia) j g st Hinv Hj Hlt
    ltac:(specialize (Hcd (g_draws g + 1)); lia)) as Hstep. cbn zeta in Hstep.
  pose proof (window_starts j (defect_of (pick (g_draws g))) g st Hinv Hb Hj Hlt) as Hw. cbn zeta in Hw.
  pose proof (Z.mod_pos_bound j count ltac:(lia)) as Hm. set (i := Z.to_nat (j mod count)) in *.
  assert (Hkey : key_of (symbol_list count) i = gen_key (j mod count)).
  { unfold key_of. rewrite symbol_at_key by (done || lia). f_equal. lia. }
  rewrite <- Hkey in Hw.
  destruct (gen_window _ _ _ _ _ _ _ _) as [g1 ms] eqn:E. destruct Hstep as [_ Hinv1].
  cbn [fmap list_fmap concat fst snd expected_breaches]. intros [Hf1 Hf2]%Forall_app.
  destruct (gen_window_band _ _ _ _ _ _ Hsize Hjit Hn _ i g g1 ms st ltac:(lia) Hg (conj Hz Hlt) (Hcd _) Hw E Hf1)
    as (R1&R2&R3&R4&R5&R6&R7).
  destruct (spec_check_all_app ms (concat (gen_windows pick count_dist size_dist jitter n count f (j mod count) g1).*2) st)
    as [-> _]. rewrite fmap_app, R1. f_equal.
  apply IH; [done| |done|congruence|done|lia|by rewrite Zplus_mod_idemp_l|done].
  intros i' sl Hi' Hsl Hlt1. destruct (decide (i' = j mod count)) as [->|Hne].
  - specialize (R2 Hlt1). unfold band_at in R2. rewrite Hkey, Hsl in R2. exact R2.
  - rewrite R3 in Hsl by (rewrite Hkey; intros Ek; apply gen_key_inj in Ek; lia).
    rewrite R4 by lia. by apply Hb.
Qed.

End Loop.

Lemma dataset_breaches pick count_dist size_dist jitter n sym_count :
  (∀ i, 4 <= count_dist i) → (∀ i, 1 <= size_dist i <= 100) →
  (∀ i, number (jitter i) ∧ 2 * Z.abs (fz (jitter i)) <= unit) → 0 <= n <= 10 ^ 6 → sym_count <= max_symbols →
  let count := Z.max 1 sym_count in
  let ws := dataset_windows pick count_dist size_dist jitter n count in
  Forall above_floor (concat ws.*2) →
  gen_main pick count_dist size_dist jitter n sym_count = Some (concat ws.*2) ∧
  (λ r, has r kPriceBandBreach) <$> (check_all (concat ws.*2) validator_init).1 = expected_breaches count 0 ws.
Proof.
  intros Hcd Hsize Hjit Hn Hsym count ws Hf.
  assert (Hcount : 1 <= count <= max_symbols) by (unfold max_symbols in *; lia).
  destruct (dataset_windows_spec pick count_dist size_dist jitter n sym_count) as (H1&H2&_);
    [intros i; specialize (Hcd i); lia|lia|done|].
  cbn zeta in H1, H2. fold count ws in H1, H2. split; [done|]. rewrite H2.
  apply (gen_windows_band _ _ _ _ _ _ Hsize Hjit Hn Hcd Hcount); [by apply loop_inv_init| |apply gen_init_px| |done|lia| |exact Hf].
  - intros i sl _ Hsl. by rewrite lookup_empty in Hsl.
  - cbn [gen_init g_px]. by rewrite length_fmap, length_seqZ.
  - rewrite Z.sub_add, Z.mod_same, Z.mod_0_l by lia. done.
Qed.

(** C21: Price spikes are found and nothing is mistaken for one: over a whole generated data
    set whose valid trades stay at or above eighty dollars, the price band reports exactly
    the first trade of every window that drew a spike.  Only the first window of a symbol
    differs: a spike there becomes the reference, and the three trades after it are
    reported until the reference is replaced.  Corrupt ticks, gaps, quote and bar defects
    and the random walk itself are never reported, for every random engine within the
    ranges of the program's distributions, all roundings included. *)
Theorem gen_spikes_exact pick count_dist size_dist jitter n sym_count :
  (∀ i, 4 <= count_dist i) → (∀ i, 1 <= size_dist i <= 100) →
  (∀ i, number (jitter i) ∧ 2 * Z.abs (fz (jitter i)) <= unit) → 0 <= n <= 10 ^ 6 → sym_count <= max_symbols →
  let count := Z.max 1 sym_count in
  let ws := dataset_windows pick count_dist size_dist jitter n count in
  Forall above_floor (concat ws.*2) →
  gen_main pick count_dist size_dist jitter n sym_count = Some (concat ws.*2) ∧
  (λ r, has r kPriceBandBreach) <$> (check_all (concat ws.*2) validator_init).1 = expected_breaches count 0 ws.
Proof. apply dataset_breaches. Qed.

Definition above_floorb (m : Msg) : bool :=
  match m with MTrade t => negb (fgt (wt_price t) fzero) || (160 * half <=? fz (wt_price t)) | _ => true end.

Lemma above_floor_check ms : forallb above_floorb ms = true → Forall above_floor ms.
Proof.
  rewrite forallb_forall, Forall_forall. intros H m Hm%list_elem_of_In%H. destruct m as [t|b|q]; try done.
  cbn in *. intros Hg. rewrite Hg in Hm. cbn in Hm. by apply Z.leb_le.
Qed.

(** Two symbols, every window a spike: three trades reported in each first window, one in
    each later one. *)
Lemma gen_spikes_exact_witness :
  let ws := dataset_windows (λ _, 10) (λ _, 5) (λ i, 1 + i mod 100) (λ _, lit 1 4) 28 2 in
  gen_main (λ _, 10) (λ _, 5) (λ i, 1 + i mod 100) (λ _, lit 1 4) 28 2 = Some (concat ws.*2) ∧
  (λ r, has r kPriceBandBreach) <$> (check_all (concat ws.*2) validator_init).1 = expected_breaches 2 0 ws ∧
  length (filter (λ c, c = true) (expected_breaches 2 0 ws)) = 8%nat.
Proof.
  destruct (gen_spikes_exact (λ _, 10) (λ _, 5) (λ i, 1 + i mod 100) (λ _, lit 1 4) 28 2) as [H1 H2];
    [lia|intros i; pose proof (Z.mod_pos_bound i 100); lia|intros _; split; [by vm_compute|by apply Z.leb_le; vm_compute]
    |lia|by vm_compute| |].
  - apply above_floor_check. by vm_compute.
  - split; [exact H1|]. split; [exact H2|]. by vm_compute.
Defined.
