(* ===== verification/PyReplay.v ===== *)
(** * The Python side of the replay format

    Models [src/ml/replay_reader.py] and [src/ml/replay_writer.py]: the structured dtypes
    with the offsets they transcribe from the C++ structs, [read_replay] with its checks
    in order, [make_bars] and [write_replay].  A structured array is the list of its rows,
    each the bytes of one record; reading a field decodes the bytes at the dtype's offset.
    The parallel arrays [make_bars] takes are given as the list of their rows.

    The theorems compare it with the C++ reader of [Wire.v] and with the validator. *)

From stdpp Require Import base numbers list strings.
From Stdlib Require Import ZArith Lia.
From S2P Require Import Prelude Float64 Runtime Wire Replay.

Local Open Scope Z_scope.

(** ** NumPy dtypes *)

Inductive np_format := U1 | U8 | F8 | S_ (n : nat).

Definition fmt_size (f : np_format) : nat := match f with U1 => 1 | U8 | F8 => 8 | S_ n => n end.

Inductive np_value := NU (z : Z) | NF (d : double) | NS (s : list byte).

(** A byte string is stored padded with NUL and read without the padding. *)
Fixpoint drop_nul (s : list byte) : list byte :=
  match s with
  | [] => []
  | b :: s' => if decide (b = Init.Byte.x00) then drop_nul s' else s
  end.
Definition rstrip_nul (s : list byte) : list byte := reverse (drop_nul (reverse s)).

Definition np_item (f : np_format) (raw : list byte) : np_value :=
  match f with
  | U1 | U8 => NU (le_val raw)
  | F8 => NF (double_of_bits (le_val raw))
  | S_ _ => NS (rstrip_nul raw)
  end.

Definition np_bytes (f : np_format) (v : np_value) : list byte :=
  match v with
  | NU z => le_bytes (fmt_size f) z
  | NF d => encf d
  | NS s => take (fmt_size f) (s ++ replicate (fmt_size f) Init.Byte.x00)
  end.

Record dtype := mkDtype {
  dt_names : list string;
  dt_formats : list np_format;
  dt_offsets : list nat;
  dt_itemsize : nat
}.

(** The format and offset of a field. *)
Definition dt_slot (dt : dtype) (name : string) : option (np_format * nat) :=
  i ← fst <$> list_find (name =.) (dt_names dt); f ← dt_formats dt !! i; off ← dt_offsets dt !! i;
  Some (f, off).

(** [row["name"]] and [row["name"] = v]. *)
Definition np_get (dt : dtype) (name : string) (row : list byte) : option np_value :=
  '(f, off) ← dt_slot dt name; Some (np_item f (field off (fmt_size f) row)).

Definition np_set (dt : dtype) (name : string) (v : np_value) (row : list byte) : option (list byte) :=
  '(f, off) ← dt_slot dt name; Some (write_at off (np_bytes f v) row).

(** ** replay_reader.py *)

Definition HEADER_SIZE : nat := 16.
Definition RECORD_STRIDE : nat := 88.
Definition MAGIC : Z := 0x564C484F.
Definition VERSION : Z := 2.
Definition TYPE_TRADE : Z := 0.
Definition TYPE_BAR : Z := 1.
Definition TYPE_QUOTE : Z := 2.

Definition DT_TRADE : dtype := mkDtype
  ["type"; "symbol"; "ts_ns"; "seq"; "trade_id"; "price"; "size"; "exchange"; "tape"]%string
  [U1; S_ 8; U8; U8; U8; F8; U8; S_ 1; S_ 1]
  [0; 8; 16; 24; 32; 40; 48; 56; 57]%nat RECORD_STRIDE.

Definition DT_BAR : dtype := mkDtype
  ["type"; "symbol"; "start_ns"; "seq"; "open"; "high"; "low"; "close"; "vwap"; "volume"; "trade_count"]%string
  [U1; S_ 8; U8; U8; F8; F8; F8; F8; F8; U8; U8]
  [0; 8; 16; 24; 32; 40; 48; 56; 64; 72; 80]%nat RECORD_STRIDE.

Definition DT_QUOTE : dtype := mkDtype
  ["type"; "symbol"; "ts_ns"; "seq"; "bid_price"; "ask_price"; "bid_size"; "ask_size"; "bid_exchange";
   "ask_exchange"; "tape"]%string
  [U1; S_ 8; U8; U8; F8; F8; U8; U8; S_ 1; S_ 1; S_ 1]
  [0; 8; 16; 24; 32; 40; 48; 56; 64; 65; 66]%nat RECORD_STRIDE.

Record ReplayData := mkReplayData {
  rd_trades : list (list byte);
  rd_bars : list (list byte);
  rd_quotes : list (list byte);
  rd_record_count : Z
}.

(** The [ValueError]s of [read_replay], with the numbers their messages carry. *)
Inductive ReadError :=
  | TruncatedHeader (bytes : Z)
  | BadMagic (magic : Z)
  | BadVersion (version : Z)
  | BadBody (bytes expected count : Z).

(** [np.frombuffer(body, dtype)]: the rows of a buffer of whole items. *)
Definition frombuffer (dt : dtype) (body : list byte) : list (list byte) :=
  (λ i, field (dt_itemsize dt * i) (dt_itemsize dt) body) <$> seq 0 (length body / dt_itemsize dt).

(** [types = frombuffer(uint8).reshape(count, RECORD_STRIDE)[:, 0]] *)
Definition types_of (body : list byte) : list Z :=
  (λ i, Z_of_byte (get8 (RECORD_STRIDE * i) body)) <$> seq 0 (length body / RECORD_STRIDE).

(** [rows[types == t]] *)
Definition masked (t : Z) (types : list Z) (rows : list (list byte)) : list (list byte) :=
  snd <$> filter (λ tr, tr.1 = t) (zip types rows).

Definition read_replay (file : list byte) : ReadError + ReplayData :=
  let header := take HEADER_SIZE file in
  if (length header <? HEADER_SIZE)%nat then inl (TruncatedHeader (Z.of_nat (length header)))
  else
    let magic := le_val (field 0 4 header) in
    let version := le_val (field 4 4 header) in
    let count := le_val (field 8 8 header) in
    let body := drop HEADER_SIZE file in
    if negb (magic =? MAGIC) then inl (BadMagic magic)
    else if negb (version =? VERSION) then inl (BadVersion version)
    else
      let expected := count * Z.of_nat RECORD_STRIDE in
      if negb (Z.of_nat (length body) =? expected) then
        inl (BadBody (Z.of_nat (length body)) expected count)
      else
        let types := types_of body in
        inr (mkReplayData (masked TYPE_TRADE types (frombuffer DT_TRADE body))
               (masked TYPE_BAR types (frombuffer DT_BAR body))
               (masked TYPE_QUOTE types (frombuffer DT_QUOTE body)) count).

(** ** replay_writer.py *)

Record BarRow := mkBarRow {
  br_start_ns : Z;
  br_open : double;
  br_high : double;
  br_low : double;
  br_close : double;
  br_vwap : double;
  br_volume : Z;
  br_trade_count : Z
}.

(** The assignments to one row of [np.zeros(n, dtype=DT_BAR)]. *)
Definition make_bar (symbol : list byte) (seq : Z) (r : BarRow) : option (list byte) :=
  row ← np_set DT_BAR "type" (NU TYPE_BAR) (replicate RECORD_STRIDE Init.Byte.x00);
  row ← np_set DT_BAR "symbol" (NS (take 8 symbol)) row;
  row ← np_set DT_BAR "start_ns" (NU (br_start_ns r)) row;
  row ← np_set DT_BAR "seq" (NU seq) row;
  row ← np_set DT_BAR "open" (NF (br_open r)) row;
  row ← np_set DT_BAR "high" (NF (br_high r)) row;
  row ← np_set DT_BAR "low" (NF (br_low r)) row;
  row ← np_set DT_BAR "close" (NF (br_close r)) row;
  row ← np_set DT_BAR "vwap" (NF (br_vwap r)) row;
  row ← np_set DT_BAR "volume" (NU (br_volume r)) row;
  np_set DT_BAR "trade_count" (NU (br_trade_count r)) row.

Fixpoint make_bars (symbol : list byte) (rows : list BarRow) (seq_start : Z) : option (list (list byte)) :=
  match rows with
  | [] => Some []
  | r :: rows' =>
      row ← make_bar symbol seq_start r;
      rest ← make_bars symbol rows' (seq_start + 1);
      Some (row :: rest)
  end.

(** The file [write_replay] leaves; the dtype of [make_bars] has the right item size. *)
Definition write_replay (rows : list (list byte)) : list byte :=
  le_bytes 4 MAGIC ++ le_bytes 4 VERSION ++ le_bytes 8 (Z.of_nat (length rows)) ++ concat rows.

(** ** The dtypes agree with the C++ structs *)

(** The fields of a record as C++ reads them. *)
Definition trade_fields (r : WireRecord) : list (string * np_value) :=
  let t := body_trade r in
  [("type", NU (wr_type r)); ("symbol", NS (rstrip_nul (wt_symbol t))); ("ts_ns", NU (wt_ts_ns t));
   ("seq", NU (wt_seq t)); ("trade_id", NU (wt_trade_id t)); ("price", NF (wt_price t));
   ("size", NU (wt_size t)); ("exchange", NS (rstrip_nul [wt_exchange t]));
   ("tape", NS (rstrip_nul [wt_tape t]))]%string.

Definition bar_fields (r : WireRecord) : list (string * np_value) :=
  let b := body_bar r in
  [("type", NU (wr_type r)); ("symbol", NS (rstrip_nul (wb_symbol b))); ("start_ns", NU (wb_start_ns b));
   ("seq", NU (wb_seq b)); ("open", NF (wb_open b)); ("high", NF (wb_high b)); ("low", NF (wb_low b));
   ("close", NF (wb_close b)); ("vwap", NF (wb_vwap b)); ("volume", NU (wb_volume b));
   ("trade_count", NU (wb_trade_count b))]%string.

Definition quote_fields (r : WireRecord) : list (string * np_value) :=
  let q := body_quote r in
  [("type", NU (wr_type r)); ("symbol", NS (rstrip_nul (wq_symbol q))); ("ts_ns", NU (wq_ts_ns q));
   ("seq", NU (wq_seq q)); ("bid_price", NF (wq_bid_price q)); ("ask_price", NF (wq_ask_price q));
   ("bid_size", NU (wq_bid_size q)); ("ask_size", NU (wq_ask_size q));
   ("bid_exchange", NS (rstrip_nul [wq_bid_exchange q]));
   ("ask_exchange", NS (rstrip_nul [wq_ask_exchange q])); ("tape", NS (rstrip_nul [wq_tape q]))]%string.

(** The row has these fields under the dtype, and no others. *)
Definition shows (dt : dtype) (row : list byte) (fs : list (string * np_value)) : Prop :=
  fs.*1 = dt_names dt ∧ Forall (λ nv, np_get dt nv.1 row = Some nv.2) fs.

Lemma record_field off n (r : WireRecord) :
  wf r → field (8 + off) n (encode r) = field off n (wr_body r).
Proof.
  intros [_ Hp _]. cbn [encode WireRecord_struct]. unfold encode_record. rewrite app_assoc.
  assert (Hl : length ([byte_of_Z (wr_type r)] ++ wr_pad r) = 8%nat) by (rewrite length_app, Hp; done).
  rewrite field_skip by lia. rewrite Hl. f_equal. lia.
Qed.

Lemma record_type (r : WireRecord) : wf r → le_val (field 0 1 (encode r)) = wr_type r.
Proof.
  intros [Ht _ _]. cbn [encode WireRecord_struct]. unfold encode_record. rewrite field_here by done.
  cbn [le_val]. rewrite Z_of_byte_of_Z, Z.mod_small by done. lia.
Qed.

Lemma field_one off (bs : list byte) : (off < length bs)%nat → field off 1 bs = [get8 off bs].
Proof.
  revert off. induction bs as [|b bs IH]; intros [|off] H; cbn in H; try lia; [done|].
  unfold field, get8 in *. cbn. apply IH. lia.
Qed.

(** Look a field up in its dtype. *)
Ltac find_slot :=
  match goal with
  | |- context [dt_slot ?dt ?name] =>
      let v := eval vm_compute in (dt_slot dt name) in change (dt_slot dt name) with v;
      cbn [mbind option_bind]
  end.

(** Read a field of a record's row. *)
Ltac row_field :=
  cbn [fst snd]; unfold np_get; find_slot; cbn [np_item fmt_size];
  first
    [ by rewrite record_type
    | match goal with
      | |- context [field ?k ?n (encode ?r)] =>
          let off := eval cbv in (k - 8)%nat in
          change (field k n (encode r)) with (field (8 + off) n (encode r)); rewrite (record_field off n r) by done;
          first [done | rewrite field_one by lia; done]
      end ].

Lemma trade_row_shows (r : WireRecord) : wf r → shows DT_TRADE (encode r) (trade_fields r).
Proof.
  intros Hr. split; [done|]. pose proof (wfr_body _ Hr) as Hb. unfold trade_fields.
  repeat apply Forall_cons_2; [row_field..|done].
Qed.

Lemma bar_row_shows (r : WireRecord) : wf r → shows DT_BAR (encode r) (bar_fields r).
Proof.
  intros Hr. split; [done|]. pose proof (wfr_body _ Hr) as Hb. unfold bar_fields.
  repeat apply Forall_cons_2; [row_field..|done].
Qed.

Lemma quote_row_shows (r : WireRecord) : wf r → shows DT_QUOTE (encode r) (quote_fields r).
Proof.
  intros Hr. split; [done|]. pose proof (wfr_body _ Hr) as Hb. unfold quote_fields.
  repeat apply Forall_cons_2; [row_field..|done].
Qed.

(** ** The reader against [view_replay] *)

Definition of_type (t : Z) (recs : list WireRecord) : list WireRecord := filter (λ r, wr_type r = t) recs.

(** The split of a list of records by their type byte. *)
Definition split_records (recs : list WireRecord) (d : ReplayData) : Prop :=
  rd_trades d = encode <$> of_type TYPE_TRADE recs ∧ rd_bars d = encode <$> of_type TYPE_BAR recs ∧
  rd_quotes d = encode <$> of_type TYPE_QUOTE recs ∧ rd_record_count d = Z.of_nat (length recs).

Lemma encode_decode_record (bs : list byte) : length bs = 88%nat → encode (decode bs : WireRecord) = bs.
Proof.
  intros Hl. cbn [encode decode WireRecord_struct]. unfold encode_record, decode_record. cbn [wr_type wr_pad wr_body].
  rewrite byte_of_Z_of_byte. rewrite <- (field_one 0 bs) by lia. unfold field.
  rewrite drop_0, (take_ge (drop 8 bs)) by (rewrite length_drop; lia).
  replace (drop 8 bs) with (drop 7 (drop 1 bs)) by by rewrite drop_drop.
  by rewrite !take_drop.
Qed.

Section Rows.
Context (body : list byte).
Hypothesis Hbody : (length body = RECORD_STRIDE * (length body / RECORD_STRIDE))%nat.

(** The records of a body, as C++ decodes them. *)
Definition body_records : list WireRecord :=
  (λ i, decode (field (RECORD_STRIDE * i) RECORD_STRIDE body)) <$> seq 0 (length body / RECORD_STRIDE).

Lemma row_length i : (i < length body / RECORD_STRIDE)%nat → length (field (RECORD_STRIDE * i) RECORD_STRIDE body) = 88%nat.
Proof using Hbody. intros Hi. rewrite length_field; unfold RECORD_STRIDE in *; lia. Qed.

Lemma body_records_wf : Forall wf body_records.
Proof using Hbody.
  apply Forall_fmap, Forall_forall. intros i [_ Hi]%elem_of_seq.
  apply (decode_wf (A := WireRecord)). rewrite row_length by lia. done.
Qed.

Lemma frombuffer_records dt : dt_itemsize dt = RECORD_STRIDE → frombuffer dt body = encode <$> body_records.
Proof using Hbody.
  intros Hdt. unfold frombuffer, body_records. rewrite Hdt, <- list_fmap_compose.
  apply list_fmap_ext. intros j i Hi. apply lookup_seq in Hi as [-> Hi]. cbn [compose].
  rewrite encode_decode_record; [done|]. by apply row_length.
Qed.

Lemma get8_field k n : (0 < n)%nat → get8 0 (field k n body) = get8 k body.
Proof using.
  clear Hbody. intros Hn. unfold get8, field. rewrite nth_firstn, nth_skipn, Nat.add_0_r.
  by destruct (Nat.ltb_spec 0 n); [|lia].
Qed.

Lemma types_records : types_of body = wr_type <$> body_records.
Proof using Hbody.
  unfold types_of, body_records. rewrite <- list_fmap_compose.
  apply list_fmap_ext. intros j i Hi. cbn [compose].
  change (wr_type (decode ?bs)) with (Z_of_byte (get8 0 bs)). rewrite get8_field by (unfold RECORD_STRIDE; lia). done.
Qed.

Lemma masked_records t (recs : list WireRecord) :
  masked t (wr_type <$> recs) (encode <$> recs) = encode <$> of_type t recs.
Proof using.
  unfold masked, of_type. induction recs as [|r recs IH]; [done|]. cbn [fmap list_fmap zip_with].
  destruct (decide (wr_type r = t)) as [He|He].
  - rewrite !filter_cons_True by done. cbn [fmap list_fmap snd]. by f_equal.
  - by rewrite !filter_cons_False by done.
Qed.

End Rows.

Lemma header_fields file :
  (16 <= length file)%nat →
  field 0 4 (take 16 file) = field 0 4 file ∧ field 4 4 (take 16 file) = field 4 4 file ∧
  field 8 8 (take 16 file) = field 8 8 file.
Proof.
  intros Hl. unfold field. rewrite !skipn_firstn_comm, !take_take. done.
Qed.

(** What [read_replay] accepts, and what it returns. *)
Lemma read_replay_cases file :
  let h : FileHeader := decode file in
  match read_replay file with
  | inr d =>
      (16 <= length file)%nat ∧ fh_magic h = kMagic ∧ fh_version h = kVersion ∧
      Z.of_nat (length file) = 16 + 88 * fh_record_count h ∧ split_records (body_records (drop 16 file)) d ∧
      rd_record_count d = fh_record_count h
  | inl e =>
      (length file < 16)%nat ∨ fh_magic h ≠ kMagic ∨ fh_version h ≠ kVersion ∨
      ((16 <= length file)%nat ∧ Z.of_nat (length file) ≠ 16 + 88 * fh_record_count h)
  end.
Proof.
  intros h. unfold read_replay, HEADER_SIZE. rewrite length_take.
  destruct (Nat.ltb_spec (16 `min` length file) 16) as [Hs|Hs]; [left; lia|].
  destruct (header_fields file ltac:(lia)) as (F1&F2&F3). rewrite F1, F2, F3.
  change (le_val (field 0 4 file)) with (fh_magic h). change (le_val (field 4 4 file)) with (fh_version h).
  change (le_val (field 8 8 file)) with (fh_record_count h).
  destruct (Z.eqb_spec (fh_magic h) MAGIC) as [Hm|Hm]; cbn [negb]; [|by right; left].
  destruct (Z.eqb_spec (fh_version h) VERSION) as [Hv|Hv]; cbn [negb]; [|by right; right; left].
  rewrite length_drop. change (Z.of_nat RECORD_STRIDE) with 88.
  destruct (Z.eqb_spec (Z.of_nat (length file - 16)) (fh_record_count h * 88)) as [Hc|Hc]; cbn [negb].
  2: { right; right; right. split; [lia|]. intros He. apply Hc. lia. }
  split; [lia|]. split; [done|]. split; [done|]. split; [lia|].
  set (body := drop 16 file).
  assert (Hb : (length body = RECORD_STRIDE * (length body / RECORD_STRIDE))%nat).
  { unfold body. rewrite length_drop. assert (H0 : 0 <= fh_record_count h) by lia.
    replace (length file - 16)%nat with (Z.to_nat (fh_record_count h) * RECORD_STRIDE)%nat
      by (unfold RECORD_STRIDE; lia).
    rewrite Nat.div_mul by done. lia. }
  rewrite types_records, !frombuffer_records, !masked_records by done.
  split; [|done]. split; [done|]. split; [done|]. split; [done|].
  cbn [rd_record_count]. unfold body_records. rewrite length_fmap, length_seq.
  unfold body in *. rewrite length_drop in *. unfold RECORD_STRIDE in *. lia.
Qed.

(** The records of the body are the loads of the C++ reader. *)
Lemma body_records_loads file i :
  Z.of_nat (length file) = 16 + 88 * Z.of_nat (length (body_records (drop 16 file))) →
  0 <= i < Z.of_nat (length (body_records (drop 16 file))) →
  load_record file 16 i = body_records (drop 16 file) !! Z.to_nat i.
Proof.
  intros Hl Hi. rewrite load_record_inside by lia. unfold body_records in *. rewrite length_fmap, length_seq in *.
  rewrite list_lookup_fmap, lookup_seq_lt by lia. cbn [fmap option_fmap option_map]. do 2 f_equal.
  unfold field. by rewrite drop_drop.
Qed.

(** ** The writer *)

Definition zeros (n : nat) : list byte := replicate n Init.Byte.x00.

Lemma write_at_fill (p b : list byte) k :
  (length b <= k)%nat → write_at (length p) b (p ++ zeros k) = (p ++ b) ++ zeros (k - length b).
Proof.
  intros Hk. unfold write_at, zeros. rewrite take_app_length, <- app_assoc. f_equal. f_equal.
  rewrite drop_app_ge by lia. replace (length p + length b - length p)%nat with (length b) by lia.
  by rewrite drop_replicate.
Qed.

(** The bar of a row, as a C++ value. *)
Definition row_bar (symbol : list byte) (seq : Z) (r : BarRow) : WireBar :=
  mkWireBar (take 8 (take 8 symbol ++ zeros 8)) (br_start_ns r) seq (br_open r) (br_high r) (br_low r)
    (br_close r) (br_vwap r) (br_volume r) (br_trade_count r).

Definition bar_record (b : WireBar) : WireRecord := mkWireRecord TYPE_BAR (zeros 7) (encode b).

(** Filling the next field of a row whose rest is zero. *)
Lemma fill8 off (p b : list byte) k :
  length p = off → length b = 8%nat → write_at off b (p ++ zeros (8 + k)) = (p ++ b) ++ zeros k.
Proof.
  intros Hp Hb. subst off. rewrite write_at_fill by lia. f_equal. f_equal. lia.
Qed.

Lemma length_symbol_field (symbol : list byte) : length (take 8 (symbol ++ zeros 8)) = 8%nat.
Proof. rewrite length_take, length_app. unfold zeros. rewrite length_replicate. lia. Qed.

Lemma make_bar_row symbol seq r : make_bar symbol seq r = Some (encode (bar_record (row_bar symbol seq r))).
Proof.
  unfold make_bar, np_set. repeat find_slot.
  set (p0 := [byte_of_Z TYPE_BAR] ++ zeros 7).
  assert (E0 : write_at 0 (np_bytes U1 (NU TYPE_BAR)) (replicate RECORD_STRIDE Init.Byte.x00) = p0 ++ zeros 80)
    by (vm_compute; reflexivity).
  rewrite E0. clear E0. assert (H0 : length p0 = 8%nat) by done.
  cbn [np_bytes fmt_size]. fold (zeros 8).
  set (sym := take 8 (take 8 symbol ++ zeros 8)).
  assert (Hsym : length sym = 8%nat) by apply length_symbol_field.
  change (zeros 80) with (zeros (8 + 72)). rewrite (fill8 8) by done.
  change (zeros 72) with (zeros (8 + 64)). rewrite (fill8 16) by len.
  change (zeros 64) with (zeros (8 + 56)). rewrite (fill8 24) by len.
  change (zeros 56) with (zeros (8 + 48)). rewrite (fill8 32) by len.
  change (zeros 48) with (zeros (8 + 40)). rewrite (fill8 40) by len.
  change (zeros 40) with (zeros (8 + 32)). rewrite (fill8 48) by len.
  change (zeros 32) with (zeros (8 + 24)). rewrite (fill8 56) by len.
  change (zeros 24) with (zeros (8 + 16)). rewrite (fill8 64) by len.
  change (zeros 16) with (zeros (8 + 8)). rewrite (fill8 72) by len.
  change (zeros 8) with (zeros (8 + 0)). rewrite (fill8 80) by len.
  f_equal. cbn [encode WireRecord_struct WireBar_struct]. unfold encode_record, bar_record.
  cbn [wr_type wr_pad wr_body encode WireBar_struct]. unfold encode_bar, row_bar, enc64. struct_proj.
  unfold zeros at 1. cbn [replicate]. rewrite app_nil_r, <- !app_assoc. done.
Qed.

(** The bars of a call of [make_bars], numbered from [seq]. *)
Fixpoint bars_of (symbol : list byte) (rows : list BarRow) (seq : Z) : list WireBar :=
  match rows with
  | [] => []
  | r :: rows' => row_bar symbol seq r :: bars_of symbol rows' (seq + 1)
  end.

Lemma make_bars_rows symbol rows seq :
  make_bars symbol rows seq = Some (encode <$> (bar_record <$> bars_of symbol rows seq)).
Proof.
  revert seq. induction rows as [|r rows IH]; intros seq; [done|].
  cbn [make_bars bars_of]. rewrite make_bar_row. cbn [mbind option_bind]. rewrite IH. done.
Qed.

Lemma bars_of_length symbol rows seq : length (bars_of symbol rows seq) = length rows.
Proof. revert seq. induction rows as [|r rows IH]; intros seq; [done|]. cbn. by rewrite IH. Qed.

Lemma write_replay_image recs :
  write_replay (encode <$> recs) = encode (header_with (Z.of_nat (length recs))) ++ records_image recs.
Proof.
  unfold write_replay. rewrite length_fmap. cbn [encode FileHeader_struct]. unfold encode_header.
  cbn [header_with fh_magic fh_version fh_record_count]. rewrite <- !app_assoc. done.
Qed.

(** The row values fit their fields. *)
Record row_fits (r : BarRow) : Prop := {
  rf_start : is_u64 (br_start_ns r);
  rf_open : valid (br_open r);
  rf_high : valid (br_high r);
  rf_low : valid (br_low r);
  rf_close : valid (br_close r);
  rf_vwap : valid (br_vwap r);
  rf_volume : is_u64 (br_volume r);
  rf_count : is_u64 (br_trade_count r)
}.

Lemma row_bar_wf symbol seq r : row_fits r → is_u64 seq → wf (row_bar symbol seq r).
Proof. intros [] Hs. split; try done. apply length_symbol_field. Qed.

Lemma bar_record_wf b : wf b → wf (bar_record b).
Proof.
  intros Hb. split; cbn [wr_type wr_pad wr_body bar_record]; [done|done|].
  rewrite (length_encode b Hb). done.
Qed.

Lemma bar_record_body b : wf b → body_bar (bar_record b) = b.
Proof.
  intros Hb. unfold body_bar. cbn [wr_body bar_record]. rewrite <- (app_nil_r (encode b)).
  by apply decode_encode_app.
Qed.

Lemma bars_of_wf symbol rows seq :
  Forall row_fits rows → 0 <= seq → seq + Z.of_nat (length rows) <= 2 ^ 64 → Forall wf (bars_of symbol rows seq).
Proof.
  intros Hr. revert seq. induction Hr as [|r rows Hr _ IH]; intros seq H0 Hm; cbn [bars_of]; [done|].
  cbn [length] in Hm. constructor; [apply row_bar_wf; [done|unfold is_u64; lia]|]. apply IH; lia.
Qed.

(** ** Reading what was written *)

Lemma read_image recs :
  Forall wf recs → 88 * Z.of_nat (length recs) + 16 < 2 ^ 64 →
  ∃ d, read_replay (encode (header_with (Z.of_nat (length recs))) ++ records_image recs) = inr d ∧
    split_records recs d.
Proof.
  intros Hwf Hlt. set (file := _ ++ _).
  assert (Hn : is_u64 (Z.of_nat (length recs))) by (unfold is_u64; lia).
  assert (Hd : (decode file : FileHeader) = header_with (Z.of_nat (length recs)))
    by (apply decode_encode_app, wf_header_with, Hn).
  pose proof (length_records_image recs Hwf) as Hl.
  assert (Hf : length file = (16 + 88 * length recs)%nat) by (unfold file; rewrite length_app, length_header; lia).
  pose proof (read_replay_cases file) as Hc. cbn zeta in Hc. rewrite Hd in Hc.
  cbn [header_with fh_magic fh_version fh_record_count] in Hc.
  destruct (read_replay file) as [e|d]; [destruct Hc as [?|[?|[?|[? ?]]]]; (done || lia)|].
  destruct Hc as (_&_&_&_&Hs&Hcount). exists d. split; [done|].
  assert (Hlen : length (body_records (drop 16 file)) = length recs).
  { destruct Hs as (_&_&_&Hs). rewrite Hs in Hcount. lia. }
  assert (He : body_records (drop 16 file) = recs); [|by rewrite He in Hs].
  apply list_eq. intros i. destruct (decide (i < length recs)%nat) as [Hi|Hi].
  - pose proof (body_records_loads file (Z.of_nat i) ltac:(lia) ltac:(lia)) as H1. rewrite Nat2Z.id in H1.
    rewrite <- H1. unfold file. rewrite <- (app_nil_r (records_image recs)).
    rewrite load_record_image by (apply length_header || done || lia). by rewrite Nat2Z.id.
  - rewrite !lookup_ge_None_2 by lia. done.
Qed.
