(* ===== verification/PyReplayProps.v ===== *)
(** * The Python side of the replay format: properties

    The Python reader sees the records and the fields the C++ readers see and refuses
    more files than they do, so a broken capture never reaches it in part; and a stream of
    sound bars built by the Python writer passes every rule of the validator. *)

From stdpp Require Import base numbers list gmap strings.
From Stdlib Require Import ZArith Lia.
From S2P Require Import Prelude Float64 Runtime Wire Replay Validator ValidatorTable ValidatorProps.
From S2P Require Import ValidatorChecks Util Harness PyReplay.

Local Open Scope Z_scope.

(** ** Sound bars *)

(** Open, close and vwap between a positive low and the high; volume and trade count
    not zero. *)
Record sound_row (r : BarRow) : Prop := {
  sr_low : flt fzero (br_low r) = true;
  sr_open : fle (br_low r) (br_open r) = true ∧ fle (br_open r) (br_high r) = true;
  sr_close : fle (br_low r) (br_close r) = true ∧ fle (br_close r) (br_high r) = true;
  sr_vwap : fle (br_low r) (br_vwap r) = true ∧ fle (br_vwap r) (br_high r) = true;
  sr_volume : br_volume r ≠ 0;
  sr_count : br_trade_count r ≠ 0
}.

Lemma fle_not_flt a b : fle a b = true → flt b a = false.
Proof.
  intros [H|H]%fle_iff; [by apply flt_asym|]. rewrite feq_sym in H. rewrite (feq_flt_l _ _ a H). apply flt_irrefl.
Qed.

Lemma flt_fle_trans a b c : flt a b = true → fle b c = true → flt a c = true.
Proof.
  intros H [H'|H']%fle_iff; [by eapply flt_trans|]. by rewrite <- (feq_flt_r _ _ a H').
Qed.

Lemma flt_not_fle a b : flt a b = true → fle b a = false.
Proof.
  intros H. destruct (fle b a) eqn:E; [|done]. apply fle_not_flt in E. congruence.
Qed.

Lemma fgt_flt a b : fgt a b = flt b a.
Proof. done. Qed.

Lemma sound_row_flags symbol seq r : sound_row r → bar_flags (row_bar symbol seq r) = result_init.
Proof.
  intros [Hl [O1 O2] [C1 C2] [V1 V2] Hv Hc]. unfold bar_flags, row_bar. struct_proj. rewrite !fgt_flt.
  assert (Hlh : fle (br_low r) (br_high r) = true).
  { apply fle_iff. apply fle_iff in O1 as [O1|O1]; [left; by eapply flt_fle_trans|].
    apply fle_iff in O2 as [O2|O2]; [left; by rewrite (feq_flt_l _ _ _ O1)|right; by eapply feq_trans]. }
  rewrite (fle_not_flt _ _ Hlh), !(fle_not_flt _ _ O1), !(fle_not_flt _ _ O2), !(fle_not_flt _ _ C1),
    !(fle_not_flt _ _ C2), !(fle_not_flt _ _ V1), !(fle_not_flt _ _ V2).
  rewrite (flt_not_fle _ _ Hl), (flt_not_fle fzero (br_open r)), (flt_not_fle fzero (br_high r)),
    (flt_not_fle fzero (br_close r)) by (by eapply flt_fle_trans).
  destruct (Z.eqb_spec (br_volume r) 0), (Z.eqb_spec (br_trade_count r) 0); done.
Qed.

(** ** A stream of sound bars of one symbol *)

(** What the slot of the symbol knows before the bar with number [seq]. *)
Definition bar_slot (seq ts : Z) (s : Slot) : Prop :=
  has_trades (acc s) = false ∧ (seen s = true → last_seq s +u 1 = seq) ∧ ts_bar (last_ts s) <= ts.

Lemma check_sound_bar symbol seq r s ts :
  sound_row r → bar_slot seq ts s → ts <= br_start_ns r → is_u64 (seq + 1) → 0 <= seq →
  (check_slot (MBar (row_bar symbol seq r)) s).2 = result_init ∧
  bar_slot (seq + 1) (br_start_ns r) (check_slot (MBar (row_bar symbol seq r)) s).1.
Proof.
  intros Hr (Ha&Hs&Ht) Hts Hu H0. unfold check_slot. cbn [msg_stateful msg_flags].
  rewrite sound_row_flags by done. unfold bar_stateful, check_sequencing, reconcile. cbn [acc].
  rewrite Ha. cbn [negb last_ts_get wb_start_ns wb_seq row_bar].
  assert (Hg : (seen s && (last_seq s +u 1 <? seq)) = false).
  { destruct (seen s); [|done]. rewrite (Hs eq_refl). apply Z.ltb_irrefl. }
  assert (Hb : (br_start_ns r <? ts_bar (last_ts s)) = false) by (apply Z.ltb_ge; lia).
  rewrite Hg, Hb, andb_false_r. split; [done|]. split; [done|]. split; cbn; [|lia].
  intros _. unfold u64_add, u64. rewrite Z.mod_small; unfold is_u64 in Hu; lia.
Qed.

(** The start times do not decrease from [ts] on. *)
Fixpoint nondecreasing (ts : Z) (rows : list BarRow) : Prop :=
  match rows with
  | [] => True
  | r :: rows' => ts <= br_start_ns r ∧ nondecreasing (br_start_ns r) rows'
  end.

Definition bar_key (symbol : list byte) : Z := symbol_key (take 8 (take 8 symbol ++ zeros 8)).

Lemma sound_bars_pass symbol rows seq ts st :
  Forall sound_row rows → nondecreasing ts rows → 0 <= seq → seq + Z.of_nat (length rows) < 2 ^ 64 →
  bar_slot seq ts (default (fresh_slot (bar_key symbol)) (st !! bar_key symbol)) →
  Forall (λ r, r = result_init) (spec_check_all (MBar <$> bars_of symbol rows seq) st).1.
Proof.
  intros Hr. revert seq ts st. induction Hr as [|r rows Hr _ IH]; intros seq ts st Hts H0 Hm Hs; [by constructor|].
  destruct Hts as [Ht Hts]. cbn [length] in Hm. cbn [bars_of fmap list_fmap]. rewrite spec_check_all_cons.
  unfold spec_check. change (msg_key (MBar (row_bar symbol seq r))) with (bar_key symbol).
  destruct (check_sound_bar symbol seq r _ ts Hr Hs Ht ltac:(unfold is_u64; lia) H0) as [Hres Hs'].
  destruct (check_slot _ _) as [s' res]. cbn [fst snd] in *. constructor; [done|].
  eapply IH; [exact Hts|lia|lia|]. by rewrite lookup_insert_eq.
Qed.

Lemma sound_bars_check symbol rows seq :
  Forall sound_row rows → nondecreasing 0 rows → 0 <= seq → seq + Z.of_nat (length rows) < 2 ^ 64 →
  Forall (λ r, r = result_init) (check_all (MBar <$> bars_of symbol rows seq) validator_init).1.
Proof.
  intros Hr Hts H0 Hm. destruct (check_all_spec (MBar <$> bars_of symbol rows seq)) as [-> _].
  - transitivity 1%nat; [|by vm_compute; lia]. apply (keys_single (bar_key symbol)). apply Forall_fmap.
    clear. revert seq. induction rows as [|r rows IH]; intros seq; cbn [bars_of]; [done|]. by constructor.
  - eapply sound_bars_pass; [done|exact Hts|done|done|]. rewrite lookup_empty. by split.
Qed.

Lemma dispatch_bars bars :
  Forall wf bars → dispatch_replay <$> (bar_record <$> bars) = MBar <$> bars.
Proof.
  induction 1 as [|b bars Hb _ IH]; [done|]. cbn [fmap list_fmap]. f_equal; [|exact IH].
  unfold dispatch_replay. cbn [wr_type bar_record]. change (TYPE_BAR =? RecordType_u8 Trade) with false.
  change (TYPE_BAR =? RecordType_u8 Bar) with true. by rewrite bar_record_body.
Qed.

Lemma of_type_bars bars : of_type TYPE_BAR (bar_record <$> bars) = bar_record <$> bars.
Proof.
  unfold of_type. induction bars as [|b bars IH]; [done|]. cbn [fmap list_fmap].
  rewrite filter_cons_True by done. f_equal. exact IH.
Qed.

(** ** The properties *)

(** C30: The Python reader agrees with the C++ readers on every file.  If it accepts the
    file, then so does [view_replay], with the same count, and its three arrays are the
    records C++ loads, split by the type byte, every field of every dtype holding the
    value of the C++ member.  If it refuses, then [view_replay] refuses too or the file
    has bytes beyond the announced records. *)
Theorem py_reader_agrees (file : list byte) :
  Z.of_nat (length file) < 2 ^ 64 →
  let v := view_replay (Some file) (Z.of_nat (length file)) in
  match read_replay file with
  | inr d => rv_error v = None ∧ rd_record_count d = rv_count v ∧
      ∃ recs, Z.of_nat (length recs) = rv_count v ∧ split_records recs d ∧
        (∀ i, 0 <= i < rv_count v → load_record file 16 i = recs !! Z.to_nat i) ∧
        Forall (λ r, shows DT_TRADE (encode r) (trade_fields r) ∧ shows DT_BAR (encode r) (bar_fields r) ∧
                     shows DT_QUOTE (encode r) (quote_fields r)) recs
  | inl _ => rv_error v ≠ None ∨ 16 + 88 * rv_count v < Z.of_nat (length file)
  end.
Proof.
  intros Hlt v. pose proof (read_replay_cases file) as Hc. cbn zeta in Hc.
  pose proof (view_replay_usable file (Z.of_nat (length file)) ltac:(lia)) as Hu. cbn zeta in Hu. fold v in Hu.
  destruct (read_replay file) as [e|d].
  - destruct (rv_error v) as [s|] eqn:Ev; [by left|]. right.
    destruct (view_replay_records file _ Ev) as [_ Hn]. fold v in Hn.
    destruct (proj1 Hu eq_refl) as (H1&H2&H3&H4).
    destruct Hc as [?|[?|[?|[? ?]]]]; try done; lia.
  - destruct Hc as (H1&H2&H3&H4&Hs&Hcount). assert (Ev : rv_error v = None) by (apply Hu; repeat split; try done; lia).
    destruct (view_replay_records file _ Ev) as [_ Hn]. fold v in Hn. split; [done|]. split; [congruence|].
    exists (body_records (drop 16 file)). pose proof Hs as (_&_&_&Hlen).
    split; [congruence|]. split; [done|]. split.
    + intros i Hi. apply body_records_loads; rewrite <- ?Hlen, ?Hcount; [lia|]. by rewrite Hn in Hi.
    + eapply Forall_impl; [apply body_records_wf|].
      * rewrite length_drop. assert (H0 : 0 <= fh_record_count (decode file : FileHeader)) by lia.
        replace (length file - 16)%nat with (Z.to_nat (fh_record_count (decode file : FileHeader)) * RECORD_STRIDE)%nat
          by (unfold RECORD_STRIDE; lia).
        rewrite Nat.div_mul by done. lia.
      * intros r Hr. split; [by apply trade_row_shows|]. split; [by apply bar_row_shows|by apply quote_row_shows].
Qed.

(** C35: Whatever write of a live capture fails (constructor, record or header patch, torn
    at any byte), the Python reader sees all of it or nothing: if it accepts the file
    left behind, then it returns every record of the session, or no record at all. *)
Theorem py_capture_all_or_nothing (opened : bool) (o1 : io) (ws : list (io * WireRecord)) (o2 o3 : io) d :
  Forall wf ws.*2 → 88 * Z.of_nat (length ws) + 16 < 2 ^ 64 →
  read_replay (capture_session opened o1 ws o2 o3) = inr d →
  split_records ws.*2 d ∨ split_records [] d.
Proof.
  intros Hwf Hlt Hr. pose proof (length_records_image _ Hwf) as Hl. rewrite length_fmap in Hl.
  destruct (capture_session_image opened o1 ws o2 o3 ltac:(lia)) as [Hs|[[tl Ht]|(n&Hn&He)]].
  - pose proof (read_replay_cases (capture_session opened o1 ws o2 o3)) as Hc. cbn zeta in Hc.
    rewrite Hr in Hc. destruct Hc as (?&_). lia.
  - right. pose proof (read_replay_cases (capture_session opened o1 ws o2 o3)) as Hc. cbn zeta in Hc.
    rewrite Hr in Hc. rewrite Ht in Hc, Hr.
    assert (Hd : (decode (header0 ++ tl) : FileHeader) = header_with 0)
      by (apply decode_encode_app, wf_header_with; unfold is_u64; lia).
    rewrite Hd in Hc. destruct Hc as (_&_&_&Hlen&_&_). cbn [header_with fh_record_count] in Hlen.
    rewrite length_app in Hlen. unfold header0 in Hlen. rewrite length_header in Hlen.
    assert (tl = []) as -> by (apply nil_length_inv; lia).
    destruct (read_image [] ltac:(done) ltac:(cbn; lia)) as (d'&Hd'&Hs'). cbn [length] in Hd'.
    unfold header0 in Hr. change (Z.of_nat 0) with 0 in Hd'. change (records_image []) with (@nil byte) in Hd'.
    rewrite Hr in Hd'. by injection Hd' as <-.
  - left. rewrite He in Hr.
    assert (Hd : (decode (encode (header_with n) ++ records_image ws.*2) : FileHeader) = header_with n)
      by (apply decode_encode_app, wf_header_with; unfold is_u64; lia).
    pose proof (read_replay_cases (encode (header_with n) ++ records_image ws.*2)) as Hc. cbn zeta in Hc.
    rewrite Hr, Hd in Hc. destruct Hc as (_&_&_&Hlen&_&_). cbn [header_with fh_record_count] in Hlen.
    rewrite length_app, length_header in Hlen. assert (n = Z.of_nat (length ws)) as -> by lia.
    destruct (read_image ws.*2 Hwf ltac:(rewrite length_fmap; lia)) as (d'&Hd'&Hs').
    rewrite length_fmap in Hd'. rewrite Hr in Hd'. by injection Hd' as <-.
Qed.

(** C31: A stream of sound bars built in Python passes every rule of the C++ validator:
    the file [write_replay] writes of the rows of [make_bars] is accepted by
    [view_replay], its records are the bars, and checking them with a fresh validator
    flags nothing; reading the file back in Python gives the rows. *)
Theorem py_sound_bars_pass symbol rows seq_start :
  Forall row_fits rows → Forall sound_row rows → nondecreasing 0 rows →
  0 <= seq_start → seq_start + Z.of_nat (length rows) < 2 ^ 64 → 88 * Z.of_nat (length rows) + 16 < 2 ^ 64 →
  ∃ rws recs d, make_bars symbol rows seq_start = Some rws ∧
    view_replay (Some (write_replay rws)) (Z.of_nat (length (write_replay rws))) =
      mkReplayView (Some 16%nat) (Z.of_nat (length rows)) None ∧
    length recs = length rows ∧
    (∀ i, 0 <= i < Z.of_nat (length rows) → load_record (write_replay rws) 16 i = recs !! Z.to_nat i) ∧
    Forall (λ r, r = result_init) (check_all (dispatch_replay <$> recs) validator_init).1 ∧
    read_replay (write_replay rws) = inr d ∧ rd_bars d = rws.
Proof.
  intros Hf Hs Hts H0 Hm Hlt. set (bars := bars_of symbol rows seq_start).
  assert (Hwb : Forall wf bars) by (apply bars_of_wf; [done|done|lia]).
  set (recs := bar_record <$> bars).
  assert (Hwf : Forall wf recs) by (apply Forall_fmap; eapply Forall_impl; [exact Hwb|apply bar_record_wf]).
  assert (Hlen : length recs = length rows) by (unfold recs; rewrite length_fmap; apply bars_of_length).
  destruct (read_image recs Hwf ltac:(lia)) as (d&Hd&Hsp).
  exists (encode <$> recs), recs, d. rewrite make_bars_rows, write_replay_image. fold bars. fold recs.
  split; [done|]. pose proof (length_records_image recs Hwf) as Hl. split.
  { rewrite view_replay_image by (unfold is_u64; lia). by rewrite Hlen. }
  split; [done|]. split.
  { intros i Hi. rewrite <- (app_nil_r (records_image recs)).
    apply load_record_image; [apply length_header|done|lia]. }
  split; [unfold recs; rewrite dispatch_bars by done; by apply sound_bars_check|].
  split; [done|]. destruct Hsp as (_&->&_). unfold recs. by rewrite of_type_bars.
Qed.

(** ** Witnesses *)

Definition demo_row (ts : Z) : BarRow :=
  mkBarRow ts (double_of_Z 10) (double_of_Z 12) (double_of_Z 9) (double_of_Z 11) (double_of_Z 10) 100 7.

Lemma py_reader_agrees_witness :
  ∃ d, read_replay one_record_file = inr d ∧
    rd_record_count d = rv_count (view_replay (Some one_record_file) (Z.of_nat (length one_record_file))).
Proof.
  pose proof (py_reader_agrees one_record_file ltac:(vm_compute; done)) as H. cbn zeta in H.
  destruct (read_replay one_record_file) as [e|d] eqn:E; [by vm_compute in E|].
  exists d. split; [done|]. by destruct H as (_&H&_).
Defined.

(** The header patch fails before its first byte: the records are on disk, the reader
    refuses the file; with a complete patch it returns both. *)
Lemma py_capture_all_or_nothing_witness :
  let ws := [(None, zero_record); (None, zero_record)] in
  read_replay (capture_session true None ws (Some 0%nat) None) = inl (BadBody 176 0 0) ∧
  ∃ d, read_replay (capture_session true None ws None None) = inr d ∧
    (split_records ws.*2 d ∨ split_records [] d).
Proof.
  split; [vm_compute; reflexivity|].
  destruct (read_replay (capture_session true None [(None, zero_record); (None, zero_record)] None None))
    as [e|d] eqn:E; [by vm_compute in E|].
  exists d. split; [done|].
  apply (py_capture_all_or_nothing true None [(None, zero_record); (None, zero_record)] None None d);
    [repeat constructor; vm_compute; done|vm_compute; done|exact E].
Defined.

Lemma py_sound_bars_pass_witness :
  ∃ rws recs d, make_bars (bs "AAPL") [demo_row 5; demo_row 9] 1 = Some rws ∧
    view_replay (Some (write_replay rws)) (Z.of_nat (length (write_replay rws))) =
      mkReplayView (Some 16%nat) 2 None ∧
    length recs = 2%nat ∧
    (∀ i, 0 <= i < 2 → load_record (write_replay rws) 16 i = recs !! Z.to_nat i) ∧
    Forall (λ r, r = result_init) (check_all (dispatch_replay <$> recs) validator_init).1 ∧
    read_replay (write_replay rws) = inr d ∧ rd_bars d = rws.
Proof.
  apply (py_sound_bars_pass (bs "AAPL") [demo_row 5; demo_row 9] 1).
  - repeat constructor; vm_compute; done.
  - repeat constructor; vm_compute; done.
  - cbn. lia.
  - lia.
  - vm_compute. done.
  - vm_compute. done.
Defined.
