(* ===== verification/ReplayMainProofs.v ===== *)
(** * replay_bench and replay_bench_rdtsc: what a run does

    Every outcome of the two programs, whatever the file holds: the error messages,
    the reports, the one undefined case, and that the mapping is released.  The data
    set generator and the benchmark compose. *)

From stdpp Require Import base numbers list list_numbers gmap strings.
From Stdlib Require Import ZArith Lia.
From S2P Require Import Prelude Float64 Runtime Clock Wire Replay Validator ValidatorTable ValidatorProps.
From S2P Require Import Util UtilProofs Arbitrator ArbitratorProofs ArbitratorSessions.
From S2P Require Import Harness HarnessProofs Pipeline ReplayMain.
From S2P Require Import Ingest LiveIngest LiveIngestProofs ParserProofs LiveIngestProps GenDataset GenDatasetProofs.

Local Open Scope Z_scope.

(** [mmap] maps the number of bytes it is asked for. *)
Definition mmap_exact (sys : Replay.Sys) : Prop :=
  ∀ size fd mem, sys_mmap sys size fd = Some mem → Z.of_nat (length mem) = size.

(** The file at [path] can be mapped and holds [data]. *)
Definition holds_file (sys : Replay.Sys) (path : list byte) (data : list byte) : Prop :=
  let fd := sys_open sys (path_string path) in
  0 <= fd ∧ sys_fstat sys fd = Some (Z.of_nat (length data)) ∧
  sys_mmap sys (Z.of_nat (length data)) fd = Some data ∧ Z.of_nat (length data) < 2 ^ 64.

Lemma record_all_count samples h :
  is_u64 (count_ h) → count_ (record_all samples h) = u64 (count_ h + Z.of_nat (length samples)).
Proof.
  revert h. induction samples as [|x samples IH]; intros h Hh.
  { cbn. by rewrite Z.add_0_r, u64_small. }
  cbn [record_all foldl length]. fold (record_all samples (hist_record x h)).
  assert (Hc : count_ (hist_record x h) = count_ h +u 1) by (unfold hist_record; by case_match).
  rewrite IH, Hc; [|rewrite Hc; auto with u64]. unfold u64_add. rewrite u64_add_u64_l. f_equal. lia.
Qed.

Lemma length_concat_const {A} (ls : list (list A)) k :
  Forall (λ l, length l = k) ls → Z.of_nat (length (concat ls)) = Z.of_nat (length ls) * Z.of_nat k.
Proof.
  induction 1 as [|l ls Hl _ IH]; [done|]. cbn [concat length]. rewrite length_app. lia.
Qed.

(** ** Reading through the view *)

Lemma read_view_in_bounds mem :
  Z.of_nat (length mem) < 2 ^ 64 →
  let v := view_replay (Some mem) (Z.of_nat (length mem)) in
  rv_error v = None →
  ∃ recs, read_view mem v = Some recs ∧ Z.of_nat (length recs) = rv_count v.
Proof.
  intros Hlt v Hok. destruct (view_replay_records mem _ Hok) as [Hr Hc]. fold v in Hr, Hc.
  apply view_replay_usable in Hok as (_&_&_&Hb); [|lia]. fold v in Hc.
  unfold read_view. rewrite Hr. cbn [mbind option_bind].
  assert (H0 : 0 <= rv_count v).
  { rewrite Hc. cbn [decode FileHeader_struct decode_header fh_record_count]. unfold get64.
    apply le_val_range. }
  destruct (mapM (load_record mem 16) (seqZ 0 (rv_count v))) as [recs|] eqn:E.
  - exists recs. split; [done|]. apply mapM_Some in E. apply Forall2_length in E.
    rewrite length_seqZ in E. lia.
  - exfalso. apply mapM_None, Exists_exists in E as (i&Hi&Hn). apply elem_of_seqZ in Hi.
    rewrite load_record_inside in Hn; [done|lia|lia].
Qed.

Lemma mapM_load_image h rs rest :
  length h = 16%nat → Forall wf rs →
  mapM (load_record (h ++ records_image rs ++ rest) 16) (seqZ 0 (Z.of_nat (length rs))) = Some rs.
Proof.
  intros Hh Hwf. apply mapM_Some. apply Forall2_same_length_lookup. split.
  { rewrite length_seqZ. lia. }
  intros i k r Hk Hr. apply lookup_seqZ in Hk as [-> Hi].
  rewrite load_record_image by (try done; lia). by rewrite Z.add_0_l, Nat2Z.id.
Qed.

Lemma open_view_image path rs :
  Forall wf rs → 88 * Z.of_nat (length rs) + 16 < 2 ^ 64 →
  let data := encode (header_with (Z.of_nat (length rs))) ++ records_image rs in
  open_view path (Some data) (Z.of_nat (length data)) = inr (Some rs).
Proof.
  intros Hwf Hlt data. pose proof (length_records_image rs Hwf) as Hl.
  unfold open_view, data. rewrite view_replay_image; [|unfold is_u64; lia..].
  cbn [rv_error]. unfold read_view. cbn [rv_records rv_count mbind option_bind]. f_equal.
  rewrite <- (app_nil_r (records_image rs)). apply mapM_load_image; [apply length_header|done].
Qed.

(** The view of any mapped file is an error or records that can all be loaded. *)
Lemma open_view_cases path base size :
  (∀ mem, base = Some mem → Z.of_nat (length mem) = size) → size < 2 ^ 64 →
  (∃ p, open_view path base size = inl p) ∨ ∃ recs, open_view path base size = inr (Some recs).
Proof.
  intros Hb Hs. unfold open_view. destruct base as [mem|]; [|by eauto].
  destruct (rv_error _) eqn:E; [by eauto|]. right. specialize (Hb mem eq_refl). subst size.
  destruct (read_view_in_bounds mem Hs E) as (recs&->&_). by eauto.
Qed.

(** ** Mapping *)

Lemma mapped_ctor_exact sys path w :
  mmap_exact sys → let m := (MappedFile_ctor sys path w).1 in
  (∀ mem, mf_base m = Some mem → Z.of_nat (length mem) = mf_size m) ∧ mf_size m < 2 ^ 64.
Proof.
  intros He. unfold MappedFile_ctor. destruct (_ <? 0); [done|].
  destruct (sys_fstat sys _) as [sz|]; [|done].
  pose proof (u64_is sz) as Hu. unfold is_u64 in Hu.
  destruct (sys_mmap sys _ _) as [mem|] eqn:E; cbn; split; try lia; try done.
  intros ? [= <-]. by eapply He.
Qed.

(** [map_file] is the constructor of [MappedFile] without the class. *)
Lemma map_file_ctor sys path w :
  let '(m, w1) := map_file sys path w in
  let '(m', w1') := MappedFile_ctor sys path w in
  m_base m = mf_base m' ∧ m_size m = mf_size m' ∧ w1 = w1' ∧
  (is_Some (m_base m) → unmap_file m w1 = MappedFile_dtor m' w1').
Proof.
  unfold map_file, MappedFile_ctor. destruct (Z.ltb_spec (sys_open sys path) 0).
  { cbn. split; [done|]. split; [done|]. split; [done|]. by intros []. }
  destruct (sys_fstat sys _) as [sz|]; [destruct (sys_mmap sys _ _) as [mem|]|];
    (split; [done|]); (split; [done|]); (split; [done|]); cbn; try (by intros []).
  intros _. unfold unmap_file, MappedFile_dtor. cbn [mf_base mf_fd m_fd].
  destruct (Z.leb_spec 0 (sys_open sys path)); [done|lia].
Qed.

Lemma holds_file_ctor sys path data w :
  holds_file sys path data →
  let m := (MappedFile_ctor sys (path_string path) w).1 in
  mf_base m = Some data ∧ mf_size m = Z.of_nat (length data).
Proof.
  intros (Hfd&Hst&Hmm&Hlt). unfold MappedFile_ctor. rewrite Hst.
  destruct (Z.ltb_spec (sys_open sys (path_string path)) 0); [lia|].
  rewrite u64_small by (unfold is_u64; lia). by rewrite Hmm.
Qed.

Lemma with_mapped_file_spec sys path k w :
  ~ In (sys_open sys (path_string path)) (open_fds w) →
  with_mapped_file sys path k w =
    (let m := (MappedFile_ctor sys (path_string path) w).1 in
     finish (open_view path (mf_base m) (mf_size m)) k, w).
Proof.
  intros Hf. pose proof (mapped_file_no_leak sys (path_string path) w Hf) as Hd.
  unfold with_mapped_file. destruct (MappedFile_ctor _ _ w) as [m w1]. cbn. by destruct Hd as [-> _].
Qed.

(** ** replay_bench *)

Lemma pass_clocks_length steady passes : 0 <= passes → Z.of_nat (length (pass_clocks steady passes)) = passes.
Proof. intros. unfold pass_clocks. rewrite length_fmap, length_seq. lia. Qed.

Definition pass_samples (steady : nat → Z) (passes : Z) (recs : list WireRecord) : list Z :=
  (λ c, (c.2 -u c.1) / Z.of_nat (length recs)) <$> pass_clocks steady passes.

Lemma replay_bench_run_spec steady path passes recs :
  0 <= passes →
  replay_bench_run steady path passes recs =
    if decide (recs = [] ∧ passes ≠ 0) then Undefined
    else Returns 0 (replay_report path (Z.of_nat (length recs)) passes
           (warm_pass recs validator_init zero_counts) (u64 (passes * pass_sum recs))
           (record_all (pass_samples steady passes recs) (hist_init kDefaultMaxNs))).
Proof.
  intros Hp. pose proof (pass_clocks_length steady passes Hp) as Hl. unfold replay_bench_run.
  destruct (decide (recs = [])) as [->|Hne].
  - destruct (decide (passes = 0)) as [->|Hne].
    + rewrite decide_False by naive_solver. reflexivity.
    + rewrite decide_True by done. destruct (pass_clocks steady passes) as [|[t0 t1] cs]; [cbn in Hl; lia|].
      reflexivity.
  - rewrite decide_False by naive_solver. rewrite timed_passes_run by done. rewrite Hl. by rewrite Z.add_0_l.
Qed.

Lemma strtoull_arg argv i d : 0 <= d → 0 <= arg argv i strtoull d.
Proof. intros. unfold arg. case_match; [apply strtoull_is|done]. Qed.

(** What [replay_bench] does with the file it finds. *)
Definition bench_outcome (steady : nat → Z) (path : list byte) (passes : Z)
    (opened : Print + option (list WireRecord)) : ProgResult :=
  match opened with
  | inl p => Returns 1 [p]
  | inr (Some recs) =>
      if decide (recs = [] ∧ passes ≠ 0) then Undefined
      else Returns 0 (replay_report path (Z.of_nat (length recs)) passes
             (warm_pass recs validator_init zero_counts) (u64 (passes * pass_sum recs))
             (record_all (pass_samples steady passes recs) (hist_init kDefaultMaxNs)))
  | inr None => Undefined
  end.

Lemma replay_bench_main_spec sys steady argv w :
  ~ In (sys_open sys (path_string (arg argv 1 id default_path))) (open_fds w) →
  let path := arg argv 1 id default_path in
  let m := (MappedFile_ctor sys (path_string path) w).1 in
  let opened := open_view path (mf_base m) (mf_size m) in
  let '(res, w') := replay_bench_main sys steady argv w in
  res = bench_outcome steady path (arg argv 2 strtoull 200) opened ∧
  (∀ recs, opened = inr (Some recs) → w' = w).
Proof.
  intros Hf path m opened. unfold replay_bench_main. fold path.
  pose proof (map_file_ctor sys (path_string path) w) as Hm.
  pose proof (mapped_file_no_leak sys (path_string path) w Hf) as Hd.
  subst opened m. destruct (map_file sys (path_string path) w) as [m w1].
  destruct (MappedFile_ctor sys (path_string path) w) as [m' w1']. cbn [fst].
  destruct Hm as (Hb&Hs&->&Hu), Hd as [Hd _]. rewrite Hb, Hs.
  destruct (open_view path (mf_base m') (mf_size m')) as [p|[recs|]] eqn:E; cbn [bench_outcome].
  - done.
  - rewrite replay_bench_run_spec by (apply strtoull_arg; lia). split; [done|]. intros _ _.
    rewrite Hu; [done|]. rewrite Hb. unfold open_view in E. by destruct (mf_base m').
  - done.
Qed.

(** ** replay_bench_rdtsc *)

Section Rdtsc.
Context (cast_undefined : double → Z) (have_rdtsc : bool).

Lemma rdtsc_passes_spec tpns ovh recs readings sum h :
  is_u64 sum → Forall (λ rs, length rs = length recs) readings →
  rdtsc_passes cast_undefined tpns ovh recs readings sum h =
    (u64 (sum + Z.of_nat (length readings) * pass_sum recs),
     record_all ((λ se, ticks_to_ns cast_undefined (net_ticks ovh se.1 se.2) tpns) <$> concat readings) h).
Proof.
  intros Hs Hl. revert sum h Hs. induction Hl as [|rs readings Hrs _ IH]; intros sum h Hs.
  { cbn. by rewrite Z.add_0_r, u64_small. }
  cbn [rdtsc_passes concat].
  pose proof (rdtsc_pass_checksum cast_undefined tpns ovh (zip recs rs) validator_init sum h) as H1.
  pose proof (rdtsc_pass_hist cast_undefined tpns ovh (zip recs rs) validator_init sum h) as H2.
  destruct (rdtsc_pass cast_undefined tpns ovh (zip recs rs) validator_init sum h) as [sum' h'].
  cbn [fst snd] in H1, H2. rewrite fst_zip in H1 by lia. rewrite checksum_pass_sum in H1 by done.
  fold (pass_sum recs) in H1. subst sum' h'. rewrite IH by apply u64_is.
  rewrite u64_add_u64_l. f_equal; [f_equal; cbn [length]; lia|].
  rewrite fmap_app. unfold record_all. rewrite foldl_app. f_equal. f_equal.
  rewrite <- (snd_zip recs rs) at 2 by lia. by rewrite <- list_fmap_compose.
Qed.

End Rdtsc.

Lemma with_mapped_file_holds sys path data k w :
  ~ In (sys_open sys (path_string path)) (open_fds w) → holds_file sys path data →
  with_mapped_file sys path k w = (finish (open_view path (Some data) (Z.of_nat (length data))) k, w).
Proof.
  intros Hf Hd. rewrite with_mapped_file_spec by done.
  destruct (holds_file_ctor sys path data w Hd) as [Hb Hs]. cbn zeta. by rewrite Hb, Hs.
Qed.

Lemma replay_bench_main_holds sys steady argv w data :
  let path := arg argv 1 id default_path in
  ~ In (sys_open sys (path_string path)) (open_fds w) → holds_file sys path data →
  (replay_bench_main sys steady argv w).1 =
    bench_outcome steady path (arg argv 2 strtoull 200)
      (open_view path (Some data) (Z.of_nat (length data))).
Proof.
  intros path Hf Hd. pose proof (replay_bench_main_spec sys steady argv w Hf) as H. cbn zeta in H.
  destruct (replay_bench_main sys steady argv w) as [res w']. destruct H as [-> _].
  destruct (holds_file_ctor sys path data w Hd) as [Hb Hs]. fold path. by rewrite Hb, Hs.
Qed.

(** ** The generated data set *)

Lemma dataset_file_image ms :
  dataset_file ms = encode (header_with (Z.of_nat (length (wrap_msg <$> ms)))) ++ records_image (wrap_msg <$> ms).
Proof. by rewrite length_fmap. Qed.

Lemma msgs_wrapped ms : Forall msg_wf ms → msgs (wrap_msg <$> ms) = ms.
Proof.
  induction 1 as [|m ms Hm _ IH]; [done|]. unfold msgs in *. rewrite !fmap_cons, IH. f_equal.
  by apply wrap_msg_ok.
Qed.

Lemma tally_none recs p :
  Forall (λ r, ∀ m, p m r = false) (check_all (msgs recs) validator_init).1 → tally recs p = 0.
Proof.
  intros H. unfold tally. assert (countb (λ mr, p mr.1 mr.2)
    (zip (msgs recs) (check_all (msgs recs) validator_init).1) = 0) as ->; [|done].
  apply countb_none. intros i [m r] Hi. apply lookup_zip_with_Some in Hi as (m'&r'&[= -> ->]&_&Hr).
  rewrite Forall_forall in H. apply H. by eapply list_elem_of_lookup_2.
Qed.

Lemma no_recon_counts recs :
  Forall no_recon (check_all (msgs recs) validator_init).1 →
  let c := warm_pass recs validator_init zero_counts in
  recon_vol c = 0 ∧ recon_cnt c = 0 ∧ recon_vwap c = 0 ∧ recon_ohlc c = 0.
Proof.
  intros H. cbn zeta.
  assert (Hz : ∀ (F : BenchCounts → Z) b,
    (∀ r, no_recon r → has r b = false) →
    (∀ m r c, F (count_result m r c) = incr_if (is_bar m && has r b) (F c)) → F zero_counts = 0 →
    F (warm_pass recs validator_init zero_counts) = 0).
  { intros F b Hb HF H0. rewrite (warm_pass_tally F (λ m r, is_bar m && has r b)) by done.
    apply tally_none. eapply Forall_impl; [exact H|]. intros r Hr m.
    rewrite (Hb r Hr). apply andb_false_r. }
  split; [|split; [|split]].
  - apply (Hz recon_vol kBarVolumeReconstructMismatch); [by intros r (?&?&?&?)|by intros []|done].
  - apply (Hz recon_cnt kBarTradeCountReconstructMismatch); [by intros r (?&?&?&?)|by intros []|done].
  - apply (Hz recon_vwap kBarVwapReconstructMismatch); [by intros r (?&?&?&?)|by intros []|done].
  - apply (Hz recon_ohlc kBarOhlcReconstructMismatch); [by intros r (?&?&?&?)|by intros []|done].
Qed.

(** ** The properties *)

(** C18: Every outcome of [replay_bench], whatever bytes the file holds: the program
    never loads a record outside the mapping; it fails with a message and status 1 when
    the file cannot be mapped or is refused; it is undefined exactly when the file
    announces no record and at least one pass is asked for (the pass time is divided by
    the record count); otherwise it returns 0, prints the report of the validator's
    results over the records, and has released the mapping and the descriptor. *)
Theorem replay_bench_outcomes sys steady argv w :
  mmap_exact sys → ~ In (sys_open sys (path_string (arg argv 1 id default_path))) (open_fds w) →
  let path := arg argv 1 id default_path in
  let passes := arg argv 2 strtoull 200 in
  let m := (MappedFile_ctor sys (path_string path) w).1 in
  let opened := open_view path (mf_base m) (mf_size m) in
  let '(res, w') := replay_bench_main sys steady argv w in
  (∃ p, opened = inl p ∧ res = Returns 1 [p]) ∨
  (opened = inr (Some []) ∧ passes ≠ 0 ∧ res = Undefined) ∨
  (∃ recs, opened = inr (Some recs) ∧ (recs ≠ [] ∨ passes = 0) ∧ w' = w ∧
    res = Returns 0 (replay_report path (Z.of_nat (length recs)) passes
      (warm_pass recs validator_init zero_counts) (u64 (passes * pass_sum recs))
      (record_all (pass_samples steady passes recs) (hist_init kDefaultMaxNs)))).
Proof.
  intros He Hf. pose proof (replay_bench_main_spec sys steady argv w Hf) as H. cbn zeta in H |- *.
  destruct (mapped_ctor_exact sys (path_string (arg argv 1 id default_path)) w He) as [Hb Hs].
  destruct (replay_bench_main sys steady argv w) as [res w']. destruct H as [-> Hw].
  destruct (open_view_cases (arg argv 1 id default_path) _ _ Hb Hs) as [[p Hp]|[recs Hr]].
  - left. exists p. rewrite Hp. done.
  - right. rewrite Hr. cbn [bench_outcome]. destruct (decide _) as [[-> Hp]|Hn].
    + by left.
    + right. exists recs. split; [done|]. split; [|split; [by eapply Hw|done]].
      destruct (decide (recs = [])); [|by left]. right.
      destruct (decide (arg argv 2 strtoull 200 = 0)); [done|]. exfalso. by apply Hn.
Qed.

(** Generator and benchmark compose: [replay_bench] on a file that [gen_dataset]
    wrote (at least one record) returns 0 and reports exactly [n] records per pass,
    with the counters of the validator over the generated messages; and when no window
    drew a bar-level defect or a price spike, it reports no reconstruction mismatch,
    whatever corrupt ticks, gaps and regressions were injected. *)
Theorem generated_dataset_benchmarks pick count_dist size_dist jitter n sym_count sys steady argv w :
  (∀ i, 0 < count_dist i) → (∀ i, 1 <= size_dist i) → 0 < n → 88 * n + 16 < 2 ^ 64 →
  let path := arg argv 1 id default_path in
  let passes := arg argv 2 strtoull 200 in
  ~ In (sys_open sys (path_string path)) (open_fds w) →
  ∃ ms, gen_main pick count_dist size_dist jitter n sym_count = Some ms ∧
    (Forall msg_wf ms → holds_file sys path (dataset_file ms) →
     ∃ c checksum hist,
       (replay_bench_main sys steady argv w).1 =
         Returns 0 (replay_report path n passes c checksum hist) ∧
       c = warm_pass (wrap_msg <$> ms) validator_init zero_counts ∧
       checksum = u64 (passes * flag_sum (check_all ms validator_init).1) ∧
       ((∀ i, reconciles (defect_of (pick i))) → Forall msg_finite ms →
        (size (keys ms) <= Z.to_nat kCapacity)%nat →
        recon_vol c = 0 ∧ recon_cnt c = 0 ∧ recon_vwap c = 0 ∧ recon_ohlc c = 0)).
Proof.
  intros Hcd Hsd Hn Hmax path passes Hf.
  destruct (gen_complete pick count_dist size_dist jitter n sym_count Hcd ltac:(lia) Hmax)
    as (ms&Hms&Hlen&_&_).
  exists ms. split; [done|]. intros Hwf Hh.
  assert (Hwr : Forall wf (wrap_msg <$> ms)).
  { apply Forall_fmap. eapply Forall_impl; [exact Hwf|]. intros m Hm. by apply wrap_msg_ok. }
  rewrite (replay_bench_main_holds sys steady argv w (dataset_file ms)) by done. fold path passes.
  rewrite dataset_file_image, open_view_image; [|done|rewrite length_fmap; lia].
  cbn [bench_outcome]. rewrite decide_False.
  2:{ intros [He _]. apply fmap_nil_inv in He. subst ms. cbn in Hlen. lia. }
  rewrite length_fmap, Hlen. eexists _, _, _. split; [done|]. split; [done|]. split.
  - unfold pass_sum. by rewrite msgs_wrapped.
  - intros Hrec Hfin Hsize. apply no_recon_counts. rewrite msgs_wrapped by done.
    by eapply gen_reconcile.
Qed.

(** C17: The two single-threaded benchmarks agree: on the same file with at least one
    record and the same number of passes, both return 0 and print the same checksum
    line, whatever the clocks and cycle counters read; and the latency histogram holds
    exactly one sample for every record of every pass. *)
Theorem benchmarks_agree cast have sys steady t0 t1 c0 c1 ovh readings argv w recs :
  let path := arg argv 1 id default_path in
  let passes := arg argv 2 strtoull 5 in
  (1 < length argv)%nat → (2 < length argv)%nat →
  ~ In (sys_open sys (path_string path)) (open_fds w) →
  recs ≠ [] → Forall wf recs → 88 * Z.of_nat (length recs) + 16 < 2 ^ 64 →
  holds_file sys path (encode (header_with (Z.of_nat (length recs))) ++ records_image recs) →
  let rs := readings passes (length recs) in
  Z.of_nat (length rs) = passes → Forall (λ p, length p = length recs) rs →
  ∃ out1 out2 hist,
    (replay_bench_main sys steady argv w).1 = Returns 0 out1 ∧
    rdtsc_main cast have sys t0 t1 c0 c1 ovh readings argv w = (Returns 0 out2, w) ∧
    last out1 = last out2 ∧
    last out1 = Some (printf "\n[checksum %llu]\n" [AU (u64 (passes * pass_sum recs))]) ∧
    out2 = (if tsc_available have then [] else [fallback_warning]) ++
      rdtsc_report cast have path (Z.of_nat (length recs)) passes
        (calibrate_ticks_per_ns have t0 t1 c0 c1) (timer_overhead ovh)
        (u64 (passes * pass_sum recs)) hist ∧
    count_ hist = u64 (passes * Z.of_nat (length recs)).
Proof.
  intros path passes Ha1 Ha2 Hf Hne Hwf Hmax Hh rs Hp Hl.
  assert (Hpp : arg argv 2 strtoull 200 = passes).
  { unfold passes, arg. destruct (lookup_lt_is_Some_2 argv 2 Ha2) as [s ->]. done. }
  set (tpns := calibrate_ticks_per_ns have t0 t1 c0 c1).
  set (hist := record_all ((λ se, ticks_to_ns cast (net_ticks (timer_overhead ovh) se.1 se.2) tpns) <$> concat rs)
    (hist_init 1000000)).
  pose proof (replay_bench_main_holds sys steady argv w _ Hf Hh) as H1. fold path in H1.
  rewrite open_view_image in H1 by done. cbn [bench_outcome] in H1. rewrite Hpp, decide_False in H1 by naive_solver.
  set (out2 := (if tsc_available have then [] else [fallback_warning]) ++
    rdtsc_report cast have path (Z.of_nat (length recs)) passes tpns (timer_overhead ovh)
      (u64 (passes * pass_sum recs)) hist).
  eexists _, out2, hist. split; [exact H1|]. split.
  { unfold rdtsc_main. fold path passes. rewrite (with_mapped_file_holds sys path _ _ _ Hf Hh), open_view_image by done.
    cbn [finish]. unfold rdtsc_run. fold rs tpns. rewrite rdtsc_passes_spec by done. rewrite Hp, Z.add_0_l. done. }
  assert (Hlast : last out2 = Some (printf "\n[checksum %llu]\n" [AU (u64 (passes * pass_sum recs))])).
  { subst out2. by destruct (tsc_available have). }
  split; [by rewrite Hlast|]. split; [done|]. split; [done|].
  unfold hist. rewrite record_all_count by done. cbn [hist_init count_]. rewrite length_fmap, Z.add_0_l.
  by rewrite (length_concat_const _ _ Hl), Hp.
Qed.

(** ** Witnesses: a one-record file, two passes *)

Definition demo_path : list byte := bs "f".
Definition demo_argv : list (list byte) := [bs "replay_bench"; demo_path; bs "2"].
Definition demo_file_sys (data : list byte) : Replay.Sys :=
  Replay.mkSys (λ _, 7) (λ _, Some (Z.of_nat (length data)))
    (λ size _, if size =? Z.of_nat (length data) then Some data else None).

Lemma demo_file_exact data : mmap_exact (demo_file_sys data).
Proof.
  intros size fd mem. cbn. destruct (Z.eqb_spec size (Z.of_nat (length data))); [|done].
  by intros [= <-].
Qed.

Lemma demo_file_holds data path : Z.of_nat (length data) < 2 ^ 64 → holds_file (demo_file_sys data) path data.
Proof.
  intros Hl. unfold holds_file. cbn. split; [lia|]. split; [done|]. by rewrite Z.eqb_refl.
Qed.

(** An accepted file without records: the undefined case. *)
Lemma replay_bench_outcomes_witness :
  let res := (replay_bench_main (demo_file_sys (encode (header_with 0))) (λ _, 0) demo_argv (mkOS [] 0)).1 in
  res = Undefined ∧
  ((∃ p, res = Returns 1 [p]) ∨ res = Undefined ∨ ∃ out, res = Returns 0 out).
Proof.
  split; [vm_compute; reflexivity|].
  pose proof (replay_bench_outcomes (demo_file_sys (encode (header_with 0))) (λ _, 0) demo_argv (mkOS [] 0)
    (demo_file_exact _) (λ H, H)) as H. cbn zeta in H |- *.
  destruct (replay_bench_main _ _ _ _) as [res w']. cbn [fst].
  destruct H as [(p&_&->)|[(_&_&->)|(recs&_&_&_&->)]]; eauto.
Defined.

Definition demo_ms : list Msg := default [] (gen_main (λ _, 0) (λ _, 2) (λ _, 5) (λ _, fzero) 10 2).

Lemma demo_ms_wf : Forall msg_wf demo_ms.
Proof.
  let l := eval vm_compute in demo_ms in change demo_ms with l || (replace demo_ms with l by (vm_compute; reflexivity)).
  repeat (apply Forall_cons_2; [split; vm_compute; first [done|split; done]|]). constructor.
Qed.

(** Two windows of a corrupt tick each, benchmarked with two passes. *)
Lemma generated_dataset_benchmarks_witness :
  ∃ c checksum hist,
    (replay_bench_main (demo_file_sys (dataset_file demo_ms)) (λ _, 0) demo_argv (mkOS [] 0)).1 =
      Returns 0 (replay_report demo_path 10 2 c checksum hist) ∧
    recon_vol c = 0 ∧ recon_cnt c = 0 ∧ recon_vwap c = 0 ∧ recon_ohlc c = 0.
Proof.
  destruct (generated_dataset_benchmarks (λ _, 0) (λ _, 2) (λ _, 5) (λ _, fzero) 10 2
    (demo_file_sys (dataset_file demo_ms)) (λ _, 0) demo_argv (mkOS [] 0)) as (ms&Hms&H);
    [lia|lia|lia|lia|exact (λ H, H)|].
  assert (ms = demo_ms) as -> by (unfold demo_ms; by rewrite Hms).
  destruct H as (c&cs&h&Hr&_&_&Hz).
  - apply demo_ms_wf.
  - apply demo_file_holds. vm_compute. reflexivity.
  - exists c, cs, h. split; [exact Hr|]. apply Hz.
    + intros i. exact I.
    + let l := eval vm_compute in demo_ms in replace demo_ms with l by (vm_compute; reflexivity).
      repeat (apply Forall_cons_2; [by repeat split|]). constructor.
    + apply Nat.leb_le. vm_compute. reflexivity.
Defined.

Lemma benchmarks_agree_witness :
  ∃ out1 out2 hist,
    (replay_bench_main (demo_file_sys (encode (header_with 1) ++ records_image [published 10])) (λ _, 0)
       demo_argv (mkOS [] 0)).1 = Returns 0 out1 ∧
    rdtsc_main (λ _, 0) true (demo_file_sys (encode (header_with 1) ++ records_image [published 10]))
      (mkTimespec 1 0) (mkTimespec 1 200000000) 0 600000000 [(3, 30)] (λ _ _, [[(5, 90)]; [(7, 99)]])
      demo_argv (mkOS [] 0) = (Returns 0 out2, mkOS [] 0) ∧
    last out1 = last out2 ∧
    last out1 = Some (printf "\n[checksum %llu]\n" [AU (u64 (2 * pass_sum [published 10]))]) ∧
    out2 = [] ++
      rdtsc_report (λ _, 0) true demo_path 1 2
        (calibrate_ticks_per_ns true (mkTimespec 1 0) (mkTimespec 1 200000000) 0 600000000)
        (timer_overhead [(3, 30)]) (u64 (2 * pass_sum [published 10])) hist ∧
    count_ hist = u64 (2 * 1).
Proof.
  apply (benchmarks_agree (λ _, 0) true (demo_file_sys (encode (header_with 1) ++ records_image [published 10]))
    (λ _, 0) (mkTimespec 1 0) (mkTimespec 1 200000000) 0 600000000 [(3, 30)] (λ _ _, [[(5, 90)]; [(7, 99)]])
    demo_argv (mkOS [] 0) [published 10]).
  - cbn. lia.
  - cbn. lia.
  - exact (λ H, H).
  - discriminate.
  - apply Forall_cons_2; [|constructor]. split; vm_compute; first [done|split; done].
  - cbn. lia.
  - apply demo_file_holds. vm_compute. reflexivity.
  - reflexivity.
  - repeat (apply Forall_cons_2; [reflexivity|]). constructor.
Defined.
