(* ===== verification/GenReport.v ===== *)
(** * gen_dataset and replay_bench: the report counts the defects

    From the generator to the printed report: the benchmark run on a generated data set
    prints counters that are determined, one by one, by the defects drawn. *)

From stdpp Require Import base numbers list list_numbers gmap strings.
From Stdlib Require Import ZArith Lia.
From S2P Require Import Prelude Float64 Runtime Wire Replay Validator ValidatorTable ValidatorProps.
From S2P Require Import ValidatorChecks Timestamp Ingest LiveIngest.
From S2P Require Import Util UtilProofs Arbitrator ArbitratorProofs ArbitratorSessions Harness HarnessProofs.
From S2P Require Import ParserProofs LiveIngestProofs LiveIngestProps GenDataset GenDatasetProofs GenSequencing GenRecon.
From S2P Require Import Pipeline ReplayMain ReplayMainProofs FloatRound PriceTolerance PriceBand GenPrices GenDetection GenBand.

Local Open Scope Z_scope.

(** ** The words of a window *)

Definition bit_of (word v : Z) : bool := negb (Z.land word v =? 0).

Definition window_words (count j : Z) (w : Defect * list Msg) : list Z :=
  zip_with (λ e c, Z.lor (seq_word e) c) (window_flags count j w) (content_words w.1 None w.2).

Fixpoint all_words (count j : Z) (ws : list (Defect * list Msg)) : list Z :=
  match ws with [] => [] | w :: ws' => window_words count j w ++ all_words count (j + 1) ws' end.

Lemma length_content_words d ms : ∀ prev, length (content_words d prev ms) = length ms.
Proof. induction ms as [|m ms IH]; intros prev; cbn; [done|]. by rewrite IH. Qed.

Lemma shape_nonempty ms : window_shape ms → ms ≠ [].
Proof. intros (ts&qs&bs&->&Hne&_). by destruct ts. Qed.

Lemma length_window_flags count j d ms : ms ≠ [] → length (window_flags count j (d, ms)) = length ms.
Proof. destruct ms; [done|]. intros _. unfold window_flags. cbn. by rewrite length_replicate, Nat.sub_0_r. Qed.

Lemma length_window_words count j w : window_shape w.2 → length (window_words count j w) = length w.2.
Proof.
  intros Hs%shape_nonempty. destruct w as [d ms]. unfold window_words.
  rewrite length_zip_with, length_window_flags, length_content_words by done. cbn. lia.
Qed.

Lemma predicted_words count ws : ∀ j,
  Forall window_shape ws.*2 →
  fst <$> zip_with (λ e c, (Z.lor (seq_word e) c, e.1)) (expected_flags count j ws)
    (concat ((λ w : Defect * list Msg, content_words w.1 None w.2) <$> ws)) = all_words count j ws.
Proof.
  induction ws as [|[d ms] ws IH]; intros j Hs; [done|]. cbn [fmap list_fmap concat expected_flags all_words fst snd] in *.
  apply Forall_cons in Hs as [Hs Hws]. rewrite zip_with_app, fmap_app, IH by
    (done || (rewrite length_window_flags, length_content_words by (by apply shape_nonempty); done)).
  f_equal. unfold window_words. cbn [fst snd]. generalize (window_flags count j (d, ms)), (content_words d None ms).
  intros l. induction l as [|e l IHl]; intros [|c k]; cbn; [done..|]. by rewrite IHl.
Qed.

(** A run of trades or quotes after its first record has no content flags. *)
Lemma content_rest d st ms : st ≠ kBarStream → Forall (λ m, msg_stream m = st) ms →
  content_words d (Some st) ms = replicate (length ms) 0.
Proof.
  intros Hst. induction 1 as [|m ms Hm _ IH]; [done|]. cbn [content_words length replicate]. rewrite Hm, IH.
  f_equal. rewrite bool_decide_eq_false_2 by naive_solver. destruct m, d; done.
Qed.

Lemma content_run d prev st m ms :
  prev ≠ Some st → st ≠ kBarStream → Forall (λ m, msg_stream m = st) (m :: ms) →
  content_words d prev (m :: ms) = content_flags d true m :: replicate (length ms) 0.
Proof.
  intros Hp Hst [Hm Hms]%Forall_cons. cbn [content_words]. rewrite Hm, content_rest by done.
  by rewrite bool_decide_eq_true_2.
Qed.

(** ** Counting *)

Lemma seq_word_none : seq_word (0, false) = 0.
Proof. done. Qed.

Lemma window_words_cons count j d m ms :
  window_words count j (d, m :: ms) =
    Z.lor (seq_word (first_flags count j d)) (content_flags d (bool_decide (None ≠ Some (msg_stream m))) m) ::
    content_words d (Some (msg_stream m)) ms.
Proof.
  unfold window_words, window_flags. cbn [fst snd content_words length zip_with]. rewrite Nat.sub_succ, Nat.sub_0_r.
  f_equal. rewrite <- (length_content_words d ms (Some (msg_stream m))).
  generalize (content_words d (Some (msg_stream m)) ms). intros l. induction l as [|c l IH]; [done|].
  cbn [length replicate zip_with]. by rewrite IH, seq_word_none, Z.lor_0_l.
Qed.

(** The records of a window that satisfy [P], which ignores unflagged records. *)
Section Count.
Context (P : Msg → Z → bool).
Hypothesis HP : ∀ m, P m 0 = false.

Let count_in (ms : list Msg) (ws : list Z) : Z := countb (λ mw, P mw.1 mw.2) (zip ms ws).

Lemma count_zeros ms : count_in ms (replicate (length ms) 0) = 0.
Proof using HP.
  unfold count_in. induction ms as [|m ms IH]; [done|]. cbn [length replicate zip_with].
  rewrite countb_cons. cbn [fst snd]. by rewrite HP, IH.
Qed.

Lemma count_app ms1 ms2 ws1 ws2 :
  length ms1 = length ws1 → count_in (ms1 ++ ms2) (ws1 ++ ws2) = count_in ms1 ws1 + count_in ms2 ws2.
Proof using. intros Hl. unfold count_in. by rewrite zip_with_app, countb_app by done. Qed.

Definition hit (m : Msg) (w : Z) : Z := if P m w then 1 else 0.

Lemma count_run d prev st m ms :
  prev ≠ Some st → st ≠ kBarStream → Forall (λ m, msg_stream m = st) (m :: ms) →
  count_in (m :: ms) (content_words d prev (m :: ms)) = hit m (content_flags d true m).
Proof using HP.
  intros Hp Hst Hms. rewrite (content_run d prev st) by done. unfold count_in. cbn [zip_with].
  rewrite countb_cons. cbn [fst snd]. pose proof (count_zeros ms) as Hz. unfold count_in in Hz. rewrite Hz.
  unfold hit. lia.
Qed.

(** One hit at most for the trades, the quotes and the bar. *)
Lemma window_count count j d t ts qs bs :
  Forall (λ m, msg_stream m = kTradeStream) (t :: ts) → Forall (λ m, msg_stream m = kQuoteStream) qs →
  (bs = [] ∨ ∃ b, bs = [MBar b]) →
  count_in ((t :: ts) ++ qs ++ bs) (window_words count j (d, (t :: ts) ++ qs ++ bs)) =
    hit t (Z.lor (seq_word (first_flags count j d)) (content_flags d true t)) +
    (match qs with [] => 0 | q :: _ => hit q (content_flags d true q) end) +
    (match bs with [] => 0 | b :: _ => hit b (content_flags d true b) end).
Proof using HP.
  intros Ht Hq Hb. cbn [app]. rewrite window_words_cons. unfold count_in. cbn [zip_with]. rewrite countb_cons. cbn [fst snd].
  apply Forall_cons in Ht as [Ht Hts]. rewrite bool_decide_eq_true_2 by done. rewrite Ht.
  rewrite content_words_app. fold (count_in (ts ++ qs ++ bs)
    (content_words d (Some kTradeStream) ts ++ content_words d (last_stream (Some kTradeStream) ts) (qs ++ bs))).
  rewrite count_app by (by rewrite length_content_words).
  rewrite content_rest, count_zeros by done.
  assert (Hl : last_stream (Some kTradeStream) ts = Some kTradeStream).
  { destruct ts; [done|]. by apply last_stream_run. }
  rewrite Hl, content_words_app, count_app by (by rewrite length_content_words).
  assert (Hqs : count_in qs (content_words d (Some kTradeStream) qs) =
    match qs with [] => 0 | q :: _ => hit q (content_flags d true q) end).
  { destruct qs as [|q qs]; [done|]. by apply (count_run d _ kQuoteStream). }
  rewrite Hqs. clear Hqs. unfold hit.
  destruct Hb as [->|[b ->]]; [cbn [content_words]; change (count_in [] []) with 0; lia|]. rewrite content_bar. unfold count_in. cbn [zip_with].
  rewrite countb_cons. cbn [fst snd]. change (countb _ []) with 0. lia.
Qed.

(** Summed over the windows. *)
Fixpoint count_from (f : Z → Defect * list Msg → bool) (j : Z) (ws : list (Defect * list Msg)) : Z :=
  match ws with [] => 0 | w :: ws' => (if f j w then 1 else 0) + count_from f (j + 1) ws' end.

Lemma count_windows count (f : Z → Defect * list Msg → bool) (ws : list (Defect * list Msg)) : ∀ j,
  Forall window_shape ws.*2 →
  (∀ j d ms, window_shape ms → count_in ms (window_words count j (d, ms)) = if f j (d, ms) then 1 else 0) →
  count_in (concat ws.*2) (all_words count j ws) = count_from f j ws.
Proof using HP.
  induction ws as [|[d ms] ws IH]; intros j Hs Hw; [done|]. cbn [fmap list_fmap concat all_words count_from snd] in *.
  apply Forall_cons in Hs as [Hs Hws]. rewrite count_app by (by rewrite length_window_words).
  by rewrite Hw, IH.
Qed.

End Count.

(** How many windows drew the defect [d] and got as far as [got] asks. *)
Definition drawn (d : Defect) (got : list Msg → bool) (ws : list (Defect * list Msg)) : Z :=
  countb (λ w, bool_decide (w.1 = d) && got w.2) ws.

Definition got_quote (ms : list Msg) : bool := existsb is_quote ms.
Definition got_bar (ms : list Msg) : bool := existsb is_bar ms.
Definition got_trade (ms : list Msg) : bool := true.

Lemma count_from_drawn d got ws : ∀ j, count_from (λ _ w, bool_decide (w.1 = d) && got w.2) j ws = drawn d got ws.
Proof. induction ws as [|w ws IH]; intros j; [done|]. unfold drawn in *. rewrite countb_cons. cbn [count_from]. by rewrite IH. Qed.

(** The windows after the first round over the symbols. *)
Lemma count_from_later d count ws : ∀ j,
  count_from (λ j w, (count <=? j) && bool_decide (w.1 = d)) j ws = drawn d got_trade (drop (Z.to_nat (count - j)) ws).
Proof.
  induction ws as [|w ws IH]; intros j; [by rewrite drop_nil|]. cbn [count_from]. rewrite IH.
  destruct (Z.leb_spec count j); cbn [andb].
  - replace (Z.to_nat (count - j)) with 0%nat by lia. replace (Z.to_nat (count - (j + 1))) with 0%nat by lia.
    unfold drawn. cbn [drop]. rewrite countb_cons. unfold got_trade. by rewrite andb_true_r.
  - replace (Z.to_nat (count - j)) with (S (Z.to_nat (count - (j + 1)))) by lia. cbn [drop]. lia.
Qed.

Lemma count_from_none ws : ∀ j, count_from (λ _ _, false) j ws = 0.
Proof. induction ws as [|w ws IH]; intros j; [done|]. cbn [count_from]. by rewrite IH. Qed.

Lemma count_from_either d1 d2 got ws : d1 ≠ d2 → ∀ j,
  count_from (λ _ w, (bool_decide (w.1 = d1) || bool_decide (w.1 = d2)) && got w.2) j ws = drawn d1 got ws + drawn d2 got ws.
Proof.
  intros Hne. unfold drawn. induction ws as [|w ws IH]; intros j; [done|]. cbn [count_from]. rewrite !countb_cons, IH.
  destruct (got w.2); rewrite ?andb_true_r, ?andb_false_r; [|lia].
  destruct (bool_decide_reflect (w.1 = d1)), (bool_decide_reflect (w.1 = d2)); cbn [orb]; (congruence || lia).
Qed.

(** ** From the results to the words *)

Lemma has_verdict r v : Z.ldiff v unpredicted = v → has r v = bit_of (verdict r).1 v.
Proof.
  intros Hv. unfold has, bit_of, verdict. cbn [fst]. do 2 f_equal. rewrite <- Hv at 1 2. apply Z.bits_inj. intros i.
  rewrite !Z.land_spec, !Z.ldiff_spec. by destruct (Z.testbit (r_flags r) i), (Z.testbit v i), (Z.testbit unpredicted i).
Qed.

Lemma countb_words (p : Msg → Result → bool) (P : Msg → Z → bool) ms : ∀ rs,
  (∀ m r, p m r = P m (verdict r).1) →
  countb (λ mr, p mr.1 mr.2) (zip ms rs) = countb (λ mw, P mw.1 mw.2) (zip ms (fst <$> (verdict <$> rs))).
Proof.
  induction ms as [|m ms IH]; intros [|r rs] Hp; try done. cbn [fmap list_fmap zip_with]. rewrite !countb_cons.
  cbn [fst snd]. by rewrite Hp, IH.
Qed.

Section Tally.
Context (n count : Z) (ws : list (Defect * list Msg)).
Hypothesis Hn : n <= 10 ^ 6.
Hypothesis Hlen : Z.of_nat (length (concat ws.*2)) = n.
Hypothesis Hwf : Forall msg_wf (concat ws.*2).
Hypothesis Hshape : Forall window_shape ws.*2.
Hypothesis Hverdict : verdict <$> (check_all (concat ws.*2) validator_init).1 = predicted count ws.

Let recs := wrap_msg <$> concat ws.*2.

Lemma tally_count p : tally recs p =
  countb (λ mr, p mr.1 mr.2) (zip (concat ws.*2) (check_all (concat ws.*2) validator_init).1).
Proof using Hn Hlen Hwf.
  unfold tally, recs. rewrite msgs_wrapped by done. apply u64_small. unfold is_u64.
  pose proof (countb_le (λ mr : Msg * Result, p mr.1 mr.2)
    (zip (concat ws.*2) (check_all (concat ws.*2) validator_init).1)) as Hc.
  rewrite length_zip_with in Hc. lia.
Qed.

Lemma tally_words (p : Msg → Result → bool) (P : Msg → Z → bool) (f : Z → Defect * list Msg → bool) :
  (∀ m r, p m r = P m (verdict r).1) → (∀ m, P m 0 = false) →
  (∀ j d ms, window_shape ms →
     countb (λ mw, P mw.1 mw.2) (zip ms (window_words count j (d, ms))) = if f j (d, ms) then 1 else 0) →
  tally recs p = count_from f 0 ws.
Proof using Hn Hlen Hwf Hshape Hverdict.
  intros Hp HP Hf. rewrite tally_count, (countb_words p P) by done. rewrite Hverdict. unfold predicted.
  rewrite predicted_words by done. by apply (count_windows P HP).
Qed.
End Tally.

(** What a window contains, from its shape. *)
Lemma got_shape t ts qs bs :
  Forall (λ m, msg_stream m = kTradeStream) (t :: ts) → Forall (λ m, msg_stream m = kQuoteStream) qs →
  (bs = [] ∨ ∃ b, bs = [MBar b]) →
  got_quote ((t :: ts) ++ qs ++ bs) = (match qs with [] => false | _ => true end) ∧
  got_bar ((t :: ts) ++ qs ++ bs) = (match bs with [] => false | _ => true end).
Proof.
  intros Ht Hq Hb. unfold got_quote, got_bar. rewrite !existsb_app.
  assert (Hnone : ∀ (f : Msg → bool) st ms, (∀ m, msg_stream m = st → f m = false) →
    Forall (λ m, msg_stream m = st) ms → existsb f ms = false).
  { clear. intros f st ms Hf. induction 1 as [|m ms Hm _ IH]; [done|]. cbn. by rewrite IH, (Hf m Hm). }
  rewrite !(Hnone _ kTradeStream (t :: ts)) by (done || by intros []). cbn [orb].
  rewrite (Hnone is_bar kQuoteStream qs) by (done || by intros []). cbn [orb].
  destruct Hb as [->|[b ->]]; (split; [|done]); destruct qs as [|q qs]; try done;
    apply Forall_cons in Hq as [Hq _]; by destruct q.
Qed.

(** Counts a window of known shape by evaluation. *)
Ltac count_window P :=
  let j := fresh "j" in let d := fresh "d" in let ms := fresh "ms" in
  let t := fresh "t" in let ts := fresh "ts" in let qs := fresh "qs" in let bs := fresh "bs" in
  let Hne := fresh "Hne" in let Hts := fresh "Hts" in let Hqs := fresh "Hqs" in let Hbs := fresh "Hbs" in
  let Gq := fresh "Gq" in let Gb := fresh "Gb" in
  intros j d ms (ts&qs&bs&->&Hne&Hts&Hqs&Hbs); destruct ts as [|t ts]; [done|];
  destruct (got_shape t ts qs bs Hts Hqs Hbs) as [Gq Gb];
  rewrite (window_count P ltac:(intros []; reflexivity)) by done; cbn [fst snd]; rewrite ?Gq, ?Gb; clear Gq Gb;
  apply Forall_cons in Hts as [Hts _]; destruct t; try discriminate Hts; clear Hts;
  destruct qs as [|[| |] qs]; try (apply Forall_cons in Hqs as [Hqs _]; discriminate Hqs); clear Hqs;
  destruct Hbs as [->|[? ->]]; unfold hit, first_flags;
  repeat match goal with |- context [?a <=? ?b] => destruct (a <=? b) end;
  destruct d; vm_compute; reflexivity.

(** The invariants of a bar but for the range of its vwap. *)
Definition other_invariants : Z := Z.ldiff bar_invariant_mask kBarVwapOutOfRange.

(** The vwap is out of range and no other invariant of the bar is broken. *)
Definition vwap_alone (r : Result) : bool := has r kBarVwapOutOfRange && negb (has r other_invariants).

Lemma has_lor r a b v : v = Z.lor a b → has r v = has r a || has r b.
Proof.
  intros ->. unfold has. rewrite Z.land_lor_distr_r.
  destruct (Z.eqb_spec (Z.land (r_flags r) a) 0) as [->|Ha]; [by rewrite Z.lor_0_l|].
  destruct (Z.eqb_spec (Z.lor (Z.land (r_flags r) a) (Z.land (r_flags r) b)) 0) as [[? _]%Z.lor_eq_0_iff|]; done.
Qed.

Lemma countb_either {A} (p q s : A → bool) l :
  (∀ x, p x = q x || s x ∧ q x && s x = false) → countb p l = countb q l + countb s l.
Proof.
  intros Hp. induction l as [|x l IH]; [done|]. rewrite !countb_cons, IH. destruct (Hp x) as [-> Hx].
  destruct (q x), (s x); try discriminate; cbn [orb]; lia.
Qed.

Section Counters.
Context (n count : Z) (ws : list (Defect * list Msg)).
Hypothesis Hn : n <= 10 ^ 6.
Hypothesis Hlen : Z.of_nat (length (concat ws.*2)) = n.
Hypothesis Hwf : Forall msg_wf (concat ws.*2).
Hypothesis Hshape : Forall window_shape ws.*2.
Hypothesis Hverdict : verdict <$> (check_all (concat ws.*2) validator_init).1 = predicted count ws.

Let recs := wrap_msg <$> concat ws.*2.

Ltac tally_by P f :=
  rewrite (tally_words n count ws Hn Hlen Hwf Hshape Hverdict _ P f);
  [|intros; rewrite ?has_verdict by done; reflexivity|by intros []|count_window P].

(** The counters of the report. *)
Lemma dataset_counters :
  let c := warm_pass recs validator_init zero_counts in
  let later := drop (Z.to_nat count) ws in
  bad_trades c = drawn DCorruptTrade got_trade ws ∧
  seq_gaps c = drawn DSeqGap got_trade later ∧ ts_regress c = drawn DTsRegress got_trade later ∧
  recon_vol c = drawn DReconVolume got_bar ws ∧ recon_cnt c = drawn DReconCount got_bar ws ∧
  recon_vwap c = drawn DReconVwap got_bar ws ∧
  recon_ohlc c = drawn DReconOhlc got_bar ws + drawn DBand got_bar ws ∧
  q_crossed c = drawn DQuoteCrossed got_quote ws ∧ q_locked c = drawn DQuoteLocked got_quote ws ∧
  q_nonpos c = 0 ∧ q_zerosize c = 0.
Proof using Hn Hlen Hwf Hshape Hverdict.
  cbn zeta. destruct (replay_counts_exact recs) as (->&_&->&->&->&->&->&->&->&->&->&->&_).
  assert (Hd : ∀ d, drawn d got_trade (drop (Z.to_nat count) ws) =
    count_from (λ j w, (count <=? j) && bool_decide (w.1 = d)) 0 ws)
    by (intros d; by rewrite count_from_later, Z.sub_0_r).
  rewrite !Hd, <- (count_from_either DReconOhlc DBand got_bar ws ltac:(done) 0).
  rewrite <- !(count_from_drawn _ _ ws 0). split; [|split; [|split; [|split; [|split; [|split; [|split; [|split; [|split; [|split]]]]]]]]].
  - tally_by (λ m w, is_trade m && (bit_of w kTradeNonPositivePrice || bit_of w kTradeNonPositiveSize))
      (λ (_ : Z) (w : Defect * list Msg), bool_decide (w.1 = DCorruptTrade) && got_trade w.2). done.
  - tally_by (λ (_ : Msg) w, bit_of w kSequenceGap) (λ j (w : Defect * list Msg), (count <=? j) && bool_decide (w.1 = DSeqGap)). done.
  - tally_by (λ (_ : Msg) w, bit_of w kTimestampRegression)
      (λ j (w : Defect * list Msg), (count <=? j) && bool_decide (w.1 = DTsRegress)). done.
  - tally_by (λ m w, is_bar m && bit_of w kBarVolumeReconstructMismatch)
      (λ (_ : Z) (w : Defect * list Msg), bool_decide (w.1 = DReconVolume) && got_bar w.2). done.
  - tally_by (λ m w, is_bar m && bit_of w kBarTradeCountReconstructMismatch)
      (λ (_ : Z) (w : Defect * list Msg), bool_decide (w.1 = DReconCount) && got_bar w.2). done.
  - tally_by (λ m w, is_bar m && bit_of w kBarVwapReconstructMismatch)
      (λ (_ : Z) (w : Defect * list Msg), bool_decide (w.1 = DReconVwap) && got_bar w.2). done.
  - tally_by (λ m w, is_bar m && bit_of w kBarOhlcReconstructMismatch)
      (λ (_ : Z) (w : Defect * list Msg), (bool_decide (w.1 = DReconOhlc) || bool_decide (w.1 = DBand)) && got_bar w.2). done.
  - tally_by (λ m w, is_quote m && bit_of w kQuoteCrossed)
      (λ (_ : Z) (w : Defect * list Msg), bool_decide (w.1 = DQuoteCrossed) && got_quote w.2). done.
  - tally_by (λ m w, is_quote m && bit_of w kQuoteLocked)
      (λ (_ : Z) (w : Defect * list Msg), bool_decide (w.1 = DQuoteLocked) && got_quote w.2). done.
  - tally_by (λ m w, is_quote m && bit_of w kQuoteNonPositive) (λ (_ : Z) (_ : Defect * list Msg), false).
    apply count_from_none.
  - tally_by (λ m w, is_quote m && bit_of w kQuoteZeroSize) (λ (_ : Z) (_ : Defect * list Msg), false).
    apply count_from_none.
Qed.

(** Bad bars are the inverted bands, and besides them only bars with their vwap alone out
    of range. *)
Lemma dataset_bad_bars :
  bad_bars (warm_pass recs validator_init zero_counts) =
    drawn DBand got_bar ws +
    countb (λ mr, is_bar mr.1 && vwap_alone mr.2) (zip (concat ws.*2) (check_all (concat ws.*2) validator_init).1).
Proof using Hn Hlen Hwf Hshape Hverdict.
  destruct (replay_counts_exact recs) as (_&->&_). rewrite (tally_count n ws) by done.
  rewrite (countb_either _ (λ mr : Msg * Result, is_bar mr.1 && has mr.2 other_invariants)
    (λ mr : Msg * Result, is_bar mr.1 && vwap_alone mr.2)).
  - f_equal. rewrite <- (tally_count n ws Hn Hlen Hwf (λ m r, is_bar m && has r other_invariants)), <- (count_from_drawn DBand got_bar ws 0).
    tally_by (λ m w, is_bar m && bit_of w other_invariants)
      (λ (_ : Z) (w : Defect * list Msg), bool_decide (w.1 = DBand) && got_bar w.2). done.
  - intros [m r]. cbn [fst snd]. unfold vwap_alone. rewrite (has_lor r other_invariants kBarVwapOutOfRange bar_invariant_mask eq_refl).
    by destruct (is_bar m), (has r other_invariants), (has r kBarVwapOutOfRange).
Qed.

End Counters.

(** Bars are never out of the price band, so the counter is the number of breaches. *)
Lemma breach_count ms : ∀ st,
  countb (λ mr, negb (is_bar mr.1) && has mr.2 kPriceBandBreach) (zip ms (spec_check_all ms st).1) =
  countb id ((λ r, has r kPriceBandBreach) <$> (spec_check_all ms st).1).
Proof.
  induction ms as [|m ms IH]; intros st; [done|]. rewrite spec_check_all_cons. cbn [fmap list_fmap zip_with].
  rewrite !countb_cons, IH. cbn [fst snd]. destruct (spec_check_band m st) as [Hb _].
  destruct m; cbn [is_bar negb andb]; [done| |done]. by rewrite Hb.
Qed.

(** ** The report *)

(** C16: From the generator to the printed report: [replay_bench] on the file of a generated
    data set returns 0, and what it counts over the [n] records is determined by the defects drawn.
    Bad trades are the corrupt ticks.  Gaps and regressions are those drawn after the first
    round over the symbols (in the first window of a symbol there is nothing to compare
    with, and they are not counted).  Volume, count, vwap and price mismatches are the windows
    that drew them and reached their bar, an inverted band being a price mismatch too; bad
    bars are the inverted bands and, besides, the bars whose vwap alone is out of range.
    Crossed and locked quotes are the windows that drew them and reached a quote; no quote
    is counted as not positive or empty.  With at least four trades per window and prices
    of eighty dollars or more, the price band counts each spike once, but in the first
    window of a symbol the three trades after it instead ([expected_breaches]).  This holds
    for every random engine within the ranges of the program's distributions, whatever the
    clock reads. *)
Theorem generated_dataset_report pick count_dist size_dist jitter n sym_count sys steady argv w :
  (∀ i, 2 <= count_dist i) → (∀ i, 1 <= size_dist i <= 100) →
  (∀ i, number (jitter i) ∧ 2 * Z.abs (fz (jitter i)) <= unit) → 0 < n <= 10 ^ 6 → sym_count <= max_symbols →
  let path := arg argv 1 id default_path in
  let passes := arg argv 2 strtoull 200 in
  let count := Z.max 1 sym_count in
  let ws := dataset_windows pick count_dist size_dist jitter n count in
  let later := drop (Z.to_nat count) ws in
  ~ In (sys_open sys (path_string path)) (open_fds w) → holds_file sys path (dataset_file (concat ws.*2)) →
  gen_main pick count_dist size_dist jitter n sym_count = Some (concat ws.*2) ∧
  ∃ c checksum hist,
    (replay_bench_main sys steady argv w).1 = Returns 0 (replay_report path n passes c checksum hist) ∧
    bad_trades c = drawn DCorruptTrade got_trade ws ∧
    bad_bars c = drawn DBand got_bar ws +
      countb (λ mr, is_bar mr.1 && vwap_alone mr.2) (zip (concat ws.*2) (check_all (concat ws.*2) validator_init).1) ∧
    seq_gaps c = drawn DSeqGap got_trade later ∧ ts_regress c = drawn DTsRegress got_trade later ∧
    recon_vol c = drawn DReconVolume got_bar ws ∧ recon_cnt c = drawn DReconCount got_bar ws ∧
    recon_vwap c = drawn DReconVwap got_bar ws ∧
    recon_ohlc c = drawn DReconOhlc got_bar ws + drawn DBand got_bar ws ∧
    q_crossed c = drawn DQuoteCrossed got_quote ws ∧ q_locked c = drawn DQuoteLocked got_quote ws ∧
    q_nonpos c = 0 ∧ q_zerosize c = 0 ∧
    ((∀ i, 4 <= count_dist i) → Forall above_floor (concat ws.*2) →
     band_breach c = countb id (expected_breaches count 0 ws)).
Proof.
  intros Hcd Hsize Hjit Hn Hsym path passes count ws later Hfd Hh.
  destruct (dataset_verdicts pick count_dist size_dist jitter n sym_count Hcd Hsize Hjit ltac:(lia) Hsym)
    as (Hms&Hv&Hwf&Hshape). fold count in Hms, Hv, Hwf, Hshape. fold ws in Hms, Hv, Hwf, Hshape.
  split; [done|].
  destruct (gen_complete pick count_dist size_dist jitter n sym_count ltac:(intros i; specialize (Hcd i); lia)
    ltac:(lia) ltac:(lia)) as (ms&Hms'&Hlen&_). rewrite Hms in Hms'. injection Hms' as <-.
  assert (Hwr : Forall wf (wrap_msg <$> concat ws.*2)).
  { apply Forall_fmap. eapply Forall_impl; [exact Hwf|]. intros m Hm. by apply wrap_msg_ok. }
  rewrite (replay_bench_main_holds sys steady argv w (dataset_file (concat ws.*2))) by done. fold path passes.
  rewrite dataset_file_image, open_view_image; [|done|rewrite length_fmap; lia].
  cbn [bench_outcome]. rewrite decide_False.
  2:{ intros [He _]. apply fmap_nil_inv in He. rewrite He in Hlen. cbn in Hlen. lia. }
  rewrite length_fmap, Hlen. eexists _, _, _. split; [done|].
  pose proof (dataset_counters n count ws ltac:(lia) Hlen Hwf Hshape Hv) as Hc. cbn zeta in Hc. fold later in Hc.
  pose proof (dataset_bad_bars n count ws ltac:(lia) Hlen Hwf Hshape Hv) as C0.
  destruct Hc as (C1&C2&C3&C4&C5&C6&C7&C8&C9&C10&C11). repeat (split; [done|]).
  intros Hcd4 Hfl. destruct (replay_counts_exact (wrap_msg <$> concat ws.*2)) as (_&_&_&_&_&_&_&_&_&_&_&_&->).
  rewrite (tally_count n ws) by (done || lia).
  destruct (dataset_windows_spec pick count_dist size_dist jitter n sym_count) as (_&Hspec&_); [done|lia|done|].
  cbn zeta in Hspec. fold count ws in Hspec. rewrite Hspec, breach_count, <- Hspec.
  destruct (dataset_breaches pick count_dist size_dist jitter n sym_count Hcd4 Hsize Hjit ltac:(lia) Hsym Hfl) as [_ Hb].
  fold count ws in Hb. by rewrite Hb.
Qed.

(** Two symbols, every defect twice, the last window cut short. *)
Definition demo_windows : list (Defect * list Msg) :=
  dataset_windows (λ i, (i / 16) mod 12) (λ _, 5) (λ i, 1 + i mod 100) (λ _, lit 1 4) 195 2.

Lemma generated_dataset_report_witness :
  ∃ c checksum hist,
    (replay_bench_main (demo_file_sys (dataset_file (concat demo_windows.*2))) (λ _, 0) demo_argv (mkOS [] 0)).1 =
      Returns 0 (replay_report demo_path 195 2 c checksum hist) ∧
    bad_trades c = 3 ∧ bad_bars c = 2 ∧ seq_gaps c = 1 ∧ ts_regress c = 2 ∧ recon_vol c = 2 ∧ recon_cnt c = 2 ∧ recon_vwap c = 2 ∧
    recon_ohlc c = 4 ∧ q_crossed c = 2 ∧ q_locked c = 2 ∧ q_nonpos c = 0 ∧ band_breach c = 2.
Proof.
  destruct (generated_dataset_report (λ i, (i / 16) mod 12) (λ _, 5) (λ i, 1 + i mod 100) (λ _, lit 1 4) 195 2
    (demo_file_sys (dataset_file (concat demo_windows.*2))) (λ _, 0) demo_argv (mkOS [] 0))
    as (_&c&cs&h&H0&H1&HB&H2&H3&H4&H5&H6&H7&H8&H9&H10&_&H12).
  - lia.
  - intros i. pose proof (Z.mod_pos_bound i 100). lia.
  - intros _. split; [by vm_compute|by apply Z.leb_le; vm_compute].
  - lia.
  - by vm_compute.
  - exact (λ H, H).
  - apply demo_file_holds. by vm_compute.
  - exists c, cs, h. split; [exact H0|]. rewrite H1, HB, H2, H3, H4, H5, H6, H7, H8, H9, H10, H12.
    + clear. vm_compute. repeat split.
    + clear. lia.
    + clear. apply above_floor_check. vm_compute. reflexivity.
Defined.
