(* ===== verification/GenMain.v ===== *)
(** * gen_dataset: the whole program

    Models the rest of [main] of [src/src/bin/gen_dataset.cpp]: the command line, the
    vectors that are allocated, the file that is opened, written and closed, and what is
    printed.  The results of
    [fwrite] and [fclose] are not looked at by the code, so any number of bytes may have
    reached the file. *)

From stdpp Require Import base numbers list list_numbers gmap strings.
From Stdlib Require Import ZArith Lia.
From S2P Require Import Prelude Float64 Runtime Clock Wire Replay Validator ValidatorTable ValidatorProps.
From S2P Require Import Util UtilProofs Arbitrator ArbitratorProofs ArbitratorSessions Harness HarnessProofs Pipeline.
From S2P Require Import Ingest LiveIngest LiveIngestProofs LiveIngestProps GenDataset GenDatasetProofs.
From S2P Require Import ReplayMain ReplayMainProofs PyReplay PyReplayProps.

Local Open Scope string_scope.
Local Open Scope Z_scope.

Definition cannot_write (path : list byte) : Print :=
  eprintf "cannot open %s for writing\n" [AS path].

Definition wrote (n sym_count : Z) (path : list byte) : Print :=
  printf "wrote %zu records (%zu bytes/record, %zu symbols) to %s\n"
    [AU n; AU (Z.of_nat (sizeof WireRecord)); AU sym_count; AS path].

(** What the program relies on of the C++ library's vectors: [sizeof(std::string)], the
    [max_size()] of a vector by the size of its elements, and which requests for memory are
    granted (by their number and their bytes). *)
Record Heap := mkHeap { string_size : Z; max_size : Z → Z; grants : nat → Z → bool }.

(** A vector is no larger than a [ptrdiff_t] can count. *)
Definition heap_ok (heap : Heap) : Prop := ∀ elem n, 0 < elem → n <= max_size heap elem → n * elem < 2 ^ 63.

(** [reserve(n)], or the constructor of a vector of [n] elements, as request [k]: the
    exception it throws. *)
Definition reserve (heap : Heap) (k : nat) (elem n : Z) : option string :=
  if n =? 0 then None
  else if max_size heap elem <? n then Some "std::length_error"
  else if grants heap k (n * elem) then None
  else Some "std::bad_alloc".

(** [make_symbols]; its strings are short enough to be held without a request. *)
Definition make_symbols (heap : Heap) (count : Z) : string + list (list byte) :=
  match reserve heap 0 (string_size heap) count with
  | Some what => inl what
  | None => inr (symbol_list count)
  end.

(** [seq], [ts], [px] and [records.reserve(n)], in this order. *)
Definition running_state (heap : Heap) (sym_count n : Z) : option string :=
  match reserve heap 1 8 sym_count with
  | Some what => Some what
  | None =>
      match reserve heap 2 8 sym_count with
      | Some what => Some what
      | None =>
          match reserve heap 3 8 sym_count with
          | Some what => Some what
          | None => reserve heap 4 (Z.of_nat (sizeof WireRecord)) n
          end
      end
  end.

(** [opened] says whether [fopen] succeeds, [stored] how many bytes reach the file;
    [None] is a loop that does not end.  Nobody catches the exception of a vector. *)
Definition gen_program (heap : Heap) (pick count_dist size_dist : Z → Z) (jitter : Z → double)
    (argv : list (list byte)) (opened : bool) (stored : nat) : option (ProgResult * option (list byte)) :=
  let path := arg argv 1 id default_path in
  let n := arg argv 2 strtoull 1000000 in
  let sym_count := Z.max 1 (arg argv 3 strtoull 8) in
  match make_symbols heap sym_count with
  | inl what => Some (Terminates what, None)
  | inr symbols =>
      match running_state heap sym_count n with
      | Some what => Some (Terminates what, None)
      | None =>
          ms ← gen_loop pick count_dist size_dist jitter n symbols (Z.to_nat n) sym_count (sym_count - 1)
                 (gen_init sym_count);
          Some (if opened
                then (Returns 0 [wrote (Z.of_nat (length ms)) sym_count path], Some (take stored (dataset_file ms)))
                else (Returns 1 [cannot_write path], None))
      end
  end.

(** The exception of the first vector that cannot be had. *)
Definition out_of_memory (heap : Heap) (sym_count n : Z) : option string :=
  match make_symbols heap sym_count with inl what => Some what | inr _ => running_state heap sym_count n end.

Lemma reserve_throws heap k elem n what :
  reserve heap k elem n = Some what → what = "std::length_error" ∨ what = "std::bad_alloc".
Proof. unfold reserve. intros H. repeat case_match; simplify_eq; auto. Qed.

Lemma reserve_fits heap k elem n : heap_ok heap → 0 < elem → 0 <= n → reserve heap k elem n = None → n * elem < 2 ^ 63.
Proof.
  intros Hh He Hn. unfold reserve. destruct (Z.eqb_spec n 0) as [->|_]; [done|].
  destruct (Z.ltb_spec (max_size heap elem) n); [done|]. intros _. by apply Hh.
Qed.

Lemma out_of_memory_throws heap sym_count n what :
  out_of_memory heap sym_count n = Some what → what = "std::length_error" ∨ what = "std::bad_alloc".
Proof.
  unfold out_of_memory, make_symbols, running_state. intros H.
  repeat case_match; simplify_eq; by eapply reserve_throws.
Qed.

Lemma memory_fits heap sym_count n :
  heap_ok heap → 0 <= n → out_of_memory heap sym_count n = None → 88 * n < 2 ^ 63.
Proof.
  intros Hh Hn H. unfold out_of_memory, make_symbols, running_state in H.
  repeat case_match; simplify_eq; [].
  pose proof (reserve_fits heap 4 (Z.of_nat (sizeof WireRecord)) n Hh eq_refl Hn H) as Hf.
  change (Z.of_nat (sizeof WireRecord)) with 88 in Hf. lia.
Qed.

(** A run that has its vectors; without them it ends in the exception. *)
Lemma gen_program_memory heap pick count_dist size_dist jitter argv opened stored :
  let path := arg argv 1 id default_path in
  let n := arg argv 2 strtoull 1000000 in
  let sym_count := Z.max 1 (arg argv 3 strtoull 8) in
  gen_program heap pick count_dist size_dist jitter argv opened stored =
    match out_of_memory heap sym_count n with
    | Some what => Some (Terminates what, None)
    | None =>
        ms ← gen_main pick count_dist size_dist jitter n sym_count;
        Some (if opened
              then (Returns 0 [wrote (Z.of_nat (length ms)) sym_count path], Some (take stored (dataset_file ms)))
              else (Returns 1 [cannot_write path], None))
    end.
Proof.
  intros path n sym_count. unfold gen_program, out_of_memory, gen_main. fold path n sym_count.
  replace (Z.max 1 sym_count) with sym_count by lia.
  destruct (make_symbols heap sym_count) as [what|symbols] eqn:E; [done|].
  unfold make_symbols in E. destruct (reserve heap 0 _ _); [done|]. injection E as <-. done.
Qed.

Lemma gen_main_wf pick count_dist size_dist jitter n sym_count ms :
  gen_main pick count_dist size_dist jitter n sym_count = Some ms → Forall wf (wrap_msg <$> ms).
Proof.
  intros Hms. apply Forall_fmap. eapply Forall_impl; [by eapply gen_loop_shape|]. apply wrap_msg_wf.
Qed.

(** A file cut short anywhere is refused. *)
Lemma torn_dataset_refused path ms stored :
  Forall wf (wrap_msg <$> ms) → 88 * Z.of_nat (length ms) + 16 < 2 ^ 64 →
  (stored < length (dataset_file ms))%nat →
  let file := take stored (dataset_file ms) in
  ∃ e, open_view path (Some file) (Z.of_nat (length file)) = inl (bad_file path e).
Proof.
  intros Hwf Hmax Hs file. rewrite dataset_file_image in Hs. cbn [open_view].
  destruct (rv_error (view_replay (Some file) (Z.of_nat (length file)))) as [e|] eqn:E; [by exists e|].
  exfalso. pose proof (length_records_image _ Hwf) as Hl. rewrite length_fmap in Hl.
  rewrite length_app, length_header in Hs.
  assert (Hlen : length file = stored).
  { unfold file. rewrite dataset_file_image. apply length_take_le. rewrite length_app, length_header. lia. }
  rewrite Hlen in E. apply view_replay_usable in E as (H16&_&_&Hb); [|lia].
  revert Hb. unfold file. rewrite dataset_file_image.
  rewrite take_app_ge by (rewrite length_header; lia).
  rewrite decode_encode_app by (apply wf_header_with; unfold is_u64; rewrite length_fmap; lia).
  cbn [header_with fh_record_count]. rewrite length_fmap. lia.
Qed.

(** The Python reader refuses it too. *)
Lemma torn_dataset_refused_python ms stored :
  Forall wf (wrap_msg <$> ms) → 88 * Z.of_nat (length ms) + 16 < 2 ^ 64 →
  (stored < length (dataset_file ms))%nat → ∃ e, read_replay (take stored (dataset_file ms)) = inl e.
Proof.
  intros Hwf Hmax Hs. rewrite dataset_file_image in Hs |- *. set (file := take stored _).
  pose proof (length_records_image _ Hwf) as Hl. rewrite length_fmap in Hl. rewrite length_app, length_header in Hs.
  assert (Hlen : length file = stored).
  { unfold file. apply length_take_le. rewrite length_app, length_header. lia. }
  pose proof (read_replay_cases file) as Hc. cbn zeta in Hc.
  destruct (read_replay file) as [e|d]; [by exists e|exfalso]. destruct Hc as (H16&_&_&Hb&_).
  revert Hb. rewrite Hlen. unfold file. rewrite take_app_ge by (rewrite length_header; lia).
  rewrite decode_encode_app by (apply wf_header_with; unfold is_u64; rewrite length_fmap; lia).
  cbn [header_with fh_record_count]. rewrite length_fmap. lia.
Qed.

(** C19: The generator as a program, for every command line.  If a vector it asks for is
    larger than the library allows or memory runs out, it ends in [std::length_error] or
    [std::bad_alloc], which nobody catches, before a file is touched.  Otherwise it
    generates exactly the requested records; it returns 1 and writes nothing when the file
    cannot be opened, and else returns 0.  If every byte reached the file, the C++ replay
    programs and the Python reader read back those records; if the file was cut anywhere
    both refuse it, so a torn data set is never replayed as a shorter one (although the
    generator, which does not look at its writes, has reported success). *)
Theorem gen_dataset_program heap pick count_dist size_dist jitter argv opened stored path' :
  heap_ok heap → (∀ i, 0 < count_dist i) →
  let path := arg argv 1 id default_path in
  let n := arg argv 2 strtoull 1000000 in
  let sym_count := Z.max 1 (arg argv 3 strtoull 8) in
  match out_of_memory heap sym_count n with
  | Some what =>
      (what = "std::length_error" ∨ what = "std::bad_alloc") ∧
      gen_program heap pick count_dist size_dist jitter argv opened stored = Some (Terminates what, None)
  | None =>
      ∃ ms, Z.of_nat (length ms) = n ∧
        let file := take stored (dataset_file ms) in
        gen_program heap pick count_dist size_dist jitter argv opened stored =
          Some (if opened then (Returns 0 [wrote n sym_count path], Some file)
                else (Returns 1 [cannot_write path], None)) ∧
        ((length (dataset_file ms) <= stored)%nat →
           open_view path' (Some file) (Z.of_nat (length file)) = inr (Some (wrap_msg <$> ms)) ∧
           ∃ d, read_replay file = inr d ∧ split_records (wrap_msg <$> ms) d) ∧
        ((stored < length (dataset_file ms))%nat →
           (∃ e, open_view path' (Some file) (Z.of_nat (length file)) = inl (bad_file path' e)) ∧
           ∃ e, read_replay file = inl e)
  end.
Proof.
  intros Hheap Hcd path n sym_count. pose proof (gen_program_memory heap pick count_dist size_dist jitter argv opened stored) as Hp.
  cbn zeta in Hp. fold path n sym_count in Hp. rewrite Hp. clear Hp.
  destruct (out_of_memory heap sym_count n) as [what|] eqn:Hmem; [split; [by eapply out_of_memory_throws|done]|].
  assert (H0 : 0 <= n) by (apply strtoull_arg; lia).
  assert (Hmax : 88 * n + 16 < 2 ^ 64) by (pose proof (memory_fits heap sym_count n Hheap H0 Hmem); lia).
  destruct (gen_complete pick count_dist size_dist jitter n sym_count Hcd H0 Hmax) as (ms&Hms&Hlen&_&_).
  pose proof (gen_main_wf _ _ _ _ _ _ _ Hms) as Hwf.
  exists ms. split; [done|]. rewrite Hms. cbn [mbind option_bind]. rewrite Hlen. split; [done|].
  split; intros Hs.
  - rewrite take_ge by done. rewrite dataset_file_image. split; [apply open_view_image; [done|rewrite length_fmap; lia]|].
    apply read_image; [done|]. rewrite length_fmap. lia.
  - split; [by apply torn_dataset_refused; [|lia|]|by apply torn_dataset_refused_python; [|lia|]].
Qed.

(** The limits of a 64-bit library, and a machine that has the memory. *)
Definition demo_heap : Heap := mkHeap 32 (λ elem, (2 ^ 63 - 1) / elem) (λ _ _, true).

Lemma demo_heap_ok : heap_ok demo_heap.
Proof.
  intros elem n He Hn. cbn [demo_heap max_size] in Hn.
  pose proof (Z.mul_div_le (2 ^ 63 - 1) elem He). nia.
Qed.

(** A cut file, and a symbol count no vector can hold. *)
Lemma gen_dataset_program_witness :
  (∃ ms, Z.of_nat (length ms) = 10 ∧
    let file := take 100 (dataset_file ms) in
    gen_program demo_heap (λ _, 0) (λ _, 2) (λ _, 5) (λ _, fzero) [bs "gen_dataset"; bs "f"; bs "10"; bs "0"] true 100 =
      Some (Returns 0 [wrote 10 1 (bs "f")], Some file) ∧
    ((length (dataset_file ms) <= 100)%nat →
       open_view (bs "f") (Some file) (Z.of_nat (length file)) = inr (Some (wrap_msg <$> ms)) ∧
       ∃ d, read_replay file = inr d ∧ split_records (wrap_msg <$> ms) d) ∧
    ((100 < length (dataset_file ms))%nat →
       (∃ e, open_view (bs "f") (Some file) (Z.of_nat (length file)) = inl (bad_file (bs "f") e)) ∧
       ∃ e, read_replay file = inl e)) ∧
  ((("std::length_error" : string) = "std::length_error" ∨ ("std::length_error" : string) = "std::bad_alloc") ∧
   gen_program demo_heap (λ _, 0) (λ _, 2) (λ _, 5) (λ _, fzero)
     [bs "gen_dataset"; bs "f"; bs "10"; bs "1000000000000000000"] true 100 =
     Some (Terminates "std::length_error", None)).
Proof.
  split.
  - apply (gen_dataset_program demo_heap (λ _, 0) (λ _, 2) (λ _, 5) (λ _, fzero)
      [bs "gen_dataset"; bs "f"; bs "10"; bs "0"] true 100 (bs "f") demo_heap_ok). lia.
  - apply (gen_dataset_program demo_heap (λ _, 0) (λ _, 2) (λ _, 5) (λ _, fzero)
      [bs "gen_dataset"; bs "f"; bs "10"; bs "1000000000000000000"] true 100 (bs "f") demo_heap_ok). lia.
Defined.
