(* ===== verification/MtRunProofs.v ===== *)
(** * replay_bench_mt: the start gate, termination and the sweep

    In every interleaving no worker validates before the clock is read and all workers
    are parked; every interleaving ends, without deadlock, with the checksums of the
    sequential workers; and the thread counts of the sweep are sound on every machine
    that reports its hardware threads. *)

From stdpp Require Import base numbers list list_numbers sorting gmap strings.
From Stdlib Require Import ZArith Lia.
From S2P Require Import Prelude Float64 Runtime Clock Wire Replay Validator ValidatorTable ValidatorProps.
From S2P Require Import Arbitrator ArbitratorProofs ArbitratorSessions Util Harness HarnessProofs.
From S2P Require Import Pipeline ReplayMain MtRun.

Local Open Scope Z_scope.

Section Gate.
Context (T : nat) (passes : nat) (recs : list WireRecord).
Hypothesis HT : Z.of_nat T < 2 ^ 32.

Notation buf := (buf_of T recs).

Definition is_new (w : WorkerPc) : bool := match w with WNew => true | _ => false end.
Definition started (w : WorkerPc) : bool := match w with WNew | WGate => false | _ => true end.
Definition gate_open (m : MainPc) : bool := match m with MJoin _ _ | MEnd _ _ => true | _ => false end.
Definition timing (m : MainPc) : bool := match m with MSpawn | MWait => false | _ => true end.

Definition worker_final (t : nat) : Z := worker passes (buf t) 0.

Definition worker_ok (ss : list Z) (t : nat) (w : WorkerPc) : Prop :=
  match w with
  | WNew | WGate => True
  | WPass p sum => worker p (buf t) sum = worker_final t
  | WRecs p todo v sum => worker p (buf t) (checksum_pass todo v sum) = worker_final t
  | WDone => ss !! t = Some (worker_final t)
  end.

Record gate_inv (g : Gate) : Prop := {
  gi_sums : length (g_sums g) = T;
  gi_len : (length (g_workers g) <= T)%nat;
  gi_spawned : g_main g ≠ MSpawn → length (g_workers g) = T;
  gi_ready : g_ready g = countb (λ w, negb (is_new w)) (g_workers g);
  gi_go : g_go g = gate_open (g_main g);
  gi_timing : timing (g_main g) = true → Forall (λ w, is_new w = false) (g_workers g);
  gi_closed : g_go g = false → Forall (λ w, started w = false) (g_workers g);
  gi_work : ∀ t w, g_workers g !! t = Some w → worker_ok (g_sums g) t w;
  gi_join : ∀ t0 k, g_main g = MJoin t0 k →
    (k <= T)%nat ∧ ∀ t, (t < k)%nat → g_workers g !! t = Some WDone;
  gi_end : ∀ t0 t1, g_main g = MEnd t0 t1 → ∀ t, (t < T)%nat → g_workers g !! t = Some WDone
}.

Lemma gate_init_inv : gate_inv (gate_init T).
Proof using.
  clear HT.
  split; cbn; try done.
  - apply length_replicate.
  - lia.
Qed.

(** ** What a step of one worker leaves alone *)

Lemma Forall_insert_one {A} (P : A → Prop) l t x : Forall P l → P x → Forall P (<[t := x]> l).
Proof using. intros. by apply Forall_insert. Qed.

Lemma work_insert ss ss' (ws : list WorkerPc) t w' :
  (∀ u w, ws !! u = Some w → worker_ok ss u w) →
  (∀ u w, u ≠ t → worker_ok ss u w → worker_ok ss' u w) → worker_ok ss' t w' →
  ∀ u w, <[t := w']> ws !! u = Some w → worker_ok ss' u w.
Proof using.
  clear HT.
  intros Hw Hne Ht u w. rewrite list_lookup_insert_Some. intros [(->&<-&_)|[Hn Hu]]; [done|].
  apply Hne; [done|]. by apply Hw.
Qed.

(** Replacing worker [t] by [w'] keeps the invariant when the replacement is sound. *)
Lemma worker_step_inv m r r' go ws ss ss' t w w' :
  gate_inv (mkGate m r go ws ss) → ws !! t = Some w →
  length ss' = T → is_new w' = false → r' = r + (if is_new w then 1 else 0) →
  (started w' = true → started w = true ∨ go = true) → w ≠ WDone →
  (∀ u v, u ≠ t → worker_ok ss u v → worker_ok ss' u v) → worker_ok ss' t w' →
  gate_inv (mkGate m r' go (<[t := w']> ws) ss').
Proof using HT.
  intros I Hw Hs Hn Hr Hst Hd Hne Hok. destruct I as [I1 I2 I3 I4 I5 I6 I7 I8 I9 I10]. cbn in *.
  split; cbn; rewrite ?length_insert; try done.
  - rewrite Hr, I4. rewrite (countb_insert _ ws t w w' Hw), Hn. destruct (is_new w); cbn; lia.
  - intros Hm. apply Forall_insert_one; [auto|done].
  - intros Hg. apply Forall_insert_one; [auto|]. destruct (started w') eqn:E; [|done].
    destruct Hst as [Hs'| ->]; [done| |congruence].
    pose proof (Forall_lookup_1 _ _ _ _ (I7 Hg) Hw) as Hf. cbn in Hf. congruence.
  - by eapply work_insert.
  - intros t0 k ->. destruct (I9 t0 k eq_refl) as [Hk Ha]. split; [done|]. intros u Hu.
    rewrite list_lookup_insert_ne; [auto|]. intros ->. specialize (Ha u Hu). congruence.
  - intros t0 t1 -> u Hu. rewrite list_lookup_insert_ne; [eauto|]. intros ->.
    specialize (I10 t0 t1 eq_refl u Hu). congruence.
Qed.

Lemma worker_local_ok ss t w w' :
  worker_ok ss t w → worker_local (buf t) w = Some w' →
  worker_ok ss t w' ∧ started w = true ∧ started w' = true ∧ is_new w = false ∧ is_new w' = false ∧ w ≠ WDone.
Proof using.
  clear HT.
  intros Hok. destruct w as [| |[|p] sum|p [|rec todo] v sum|]; cbn; try done.
  - intros [= <-]. done.
  - intros [= <-]. done.
  - destruct (check _ v) as [r v'] eqn:E. intros [= <-]. cbn in Hok. rewrite E in Hok. done.
Qed.

(** When as many have arrived as there are workers, none is new. *)
Lemma arrived_all ws t w :
  Z.of_nat (length ws) <= countb (λ w, negb (is_new w)) ws → ws !! t = Some w → is_new w = false.
Proof using.
  clear HT.
  intros Hge Hw. pose proof (countb_le (λ w, negb (is_new w)) ws).
  assert (He : countb (λ w, negb (is_new w)) ws = Z.of_nat (length ws)) by lia.
  pose proof (countb_full _ ws t w He Hw) as Hf. cbn in Hf. by destruct (is_new w).
Qed.

(** The counter of arrivals does not wrap while a worker has not arrived. *)
Lemma ready_room g t : gate_inv g → g_workers g !! t = Some WNew → u32 (g_ready g + 1) = g_ready g + 1.
Proof using HT.
  intros I Hw. pose proof (gi_ready _ I) as Hr. pose proof (gi_len _ I) as Hl.
  destruct (Z.lt_ge_cases (countb (λ w, negb (is_new w)) (g_workers g)) (Z.of_nat (length (g_workers g)))) as [Hlt|Hge];
    [|by pose proof (arrived_all _ t WNew Hge Hw)].
  pose proof (countb_le (λ w, negb (is_new w)) (g_workers g)).
  unfold u32. rewrite Z.mod_small; lia.
Qed.

Lemma gate_step_inv g g' : gate_inv g → gate_step T passes recs g g' → gate_inv g'.
Proof using HT.
  intros I Hs. destruct Hs as [r go ws ss Hl|r go ws ss Hl|m r go ws ss t Hw|r go ws ss t0 Hr|r go ws ss t0
    |m r ws ss t Hw|m r go ws ss t w w' Hw Hl|m r go ws ss t sum Hw|r go ws ss t0 k Hk Hw|r go ws ss t0 t1].
  - destruct I as [I1 I2 I3 I4 I5 I6 I7 I8 I9 I10]. cbn in *. split; cbn; try done.
    + rewrite length_app. cbn. lia.
    + rewrite countb_app, I4. change (countb _ [WNew]) with 0. lia.
    + intros Hg. apply Forall_app. split; [auto|by repeat constructor].
    + intros t w. rewrite lookup_app_Some. intros [Hu|[_ Hu]]; [by apply I8|].
      apply list_lookup_singleton_Some in Hu as [_ <-]. done.
  - destruct I as [I1 I2 I3 I4 I5 I6 I7 I8 I9 I10]. cbn in *. by split.
  - eapply worker_step_inv; [exact I|exact Hw|apply I|done|exact (ready_room _ t I Hw)|done|done|done|done].
  - pose proof (gi_ready _ I) as Hc. pose proof (gi_len _ I) as Hlen. cbn in Hc, Hlen.
    destruct I as [I1 I2 I3 I4 I5 I6 I7 I8 I9 I10]. cbn in *. split; cbn; try done.
    + intros _. by apply I3.
    + intros _. apply Forall_lookup. intros t w Hw. eapply arrived_all; [|exact Hw]. lia.
  - destruct I as [I1 I2 I3 I4 I5 I6 I7 I8 I9 I10]. cbn in *. split; cbn; try done.
    + intros _. by apply I3.
    + intros t1 k [= <- <-]. split; [lia|]. intros; lia.
  - eapply worker_step_inv; [exact I|exact Hw|apply I|done|cbn; lia|by right|done|done|done].
  - destruct (worker_local_ok ss t w w' (gi_work _ I t w Hw) Hl) as (Hok&Hs&Hs'&Hn&Hn'&Hd).
    eapply worker_step_inv; [exact I|exact Hw|apply I|done|rewrite Hn; lia|by left|done|done|done].
  - pose proof (gi_work _ I t _ Hw) as Hok. cbn in Hok. pose proof (gi_sums _ I) as Hls. cbn in Hls.
    pose proof (lookup_lt_Some _ _ _ Hw). pose proof (gi_len _ I) as Hlen. cbn in Hlen.
    eapply worker_step_inv; [exact I|exact Hw|by rewrite length_insert|done|cbn; lia|by left|done| |].
    + intros u [] Hu; cbn; try done. by rewrite list_lookup_insert_ne.
    + cbn. rewrite list_lookup_insert_eq by lia. by rewrite Hok.
  - destruct I as [I1 I2 I3 I4 I5 I6 I7 I8 I9 I10]. cbn in *. split; cbn; try done.
    + intros _. by apply I3.
    + intros t1 k' [= <- <-]. destruct (I9 t0 k eq_refl) as [_ Ha]. split; [lia|].
      intros u Hu. destruct (decide (u = k)) as [->|]; [done|]. apply Ha. lia.
  - destruct I as [I1 I2 I3 I4 I5 I6 I7 I8 I9 I10]. cbn in *. split; cbn; try done.
    + intros _. by apply I3.
    + intros t2 t3 [= <- <-] u Hu. destruct (I9 t0 T eq_refl) as [_ Ha]. by apply Ha.
Qed.

Lemma gate_reachable_inv g : gate_reachable T passes recs g → gate_inv g.
Proof using HT. induction 1; eauto using gate_init_inv, gate_step_inv. Qed.

(** ** Every interleaving ends *)

Definition full (t : nat) : nat := passes * (2 + length (buf t)).

Definition worker_cost (t : nat) (w : option WorkerPc) : nat :=
  match w with
  | None => 4 + full t
  | Some WNew => 3 + full t
  | Some WGate => 2 + full t
  | Some (WPass p _) => 1 + p * (2 + length (buf t))
  | Some (WRecs p todo _ _) => 2 + p * (2 + length (buf t)) + length todo
  | Some WDone => 0
  end.

Definition main_cost (m : MainPc) : nat :=
  match m with
  | MSpawn => 5 + T | MWait => 4 + T | MGo _ => 3 + T | MJoin _ k => 2 + T - k | MEnd _ _ => 0
  end.

(** The steps left in any interleaving are at most this many. *)
Definition gate_cost (g : Gate) : nat :=
  main_cost (g_main g) + sum_list ((λ t, worker_cost t (g_workers g !! t)) <$> seq 0 T).

Lemma sum_list_le (f f' : nat → nat) l :
  (∀ i, i ∈ l → f' i <= f i)%nat → (sum_list (f' <$> l) <= sum_list (f <$> l))%nat.
Proof using.
  clear HT.
  induction l as [|i l IH]; intros H; [done|]. cbn.
  pose proof (H i (list_elem_of_here _ _)). assert (sum_list (f' <$> l) <= sum_list (f <$> l))%nat; [|lia].
  apply IH. intros j Hj. apply H. by apply list_elem_of_further.
Qed.

Lemma sum_list_lt (f f' : nat → nat) l t :
  t ∈ l → (f' t < f t)%nat → (∀ i, i ∈ l → f' i <= f i)%nat →
  (sum_list (f' <$> l) < sum_list (f <$> l))%nat.
Proof using.
  clear HT.
  induction l as [|i l IH]; intros Ht Hlt H; [by apply not_elem_of_nil in Ht|]. cbn.
  pose proof (H i (list_elem_of_here _ _)) as Hi.
  assert (Hl : ∀ j, j ∈ l → (f' j <= f j)%nat) by (intros j Hj; apply H; by apply list_elem_of_further).
  apply elem_of_cons in Ht as [->|Ht].
  - pose proof (sum_list_le f f' l Hl). lia.
  - specialize (IH Ht Hlt Hl). lia.
Qed.

(** A worker's step: one summand shrinks. *)
Lemma worker_cost_lt m r r' go ws ss ss' t w w' :
  (length ws <= T)%nat → ws !! t = Some w → (worker_cost t (Some w') < worker_cost t (Some w))%nat →
  (gate_cost (mkGate m r' go (<[t := w']> ws) ss') < gate_cost (mkGate m r go ws ss))%nat.
Proof using.
  clear HT.
  intros Hl Hw Hlt. pose proof (lookup_lt_Some _ _ _ Hw) as Ht. unfold gate_cost. cbn [g_main g_workers].
  apply Nat.add_lt_mono_l, (sum_list_lt _ _ _ t).
  - apply elem_of_seq. lia.
  - by rewrite list_lookup_insert_eq, Hw.
  - intros i _. destruct (decide (i = t)) as [->|Hne].
    + rewrite list_lookup_insert_eq, Hw by done. lia.
    + by rewrite list_lookup_insert_ne.
Qed.

Lemma gate_step_cost g g' :
  gate_inv g → gate_step T passes recs g g' → (gate_cost g' < gate_cost g)%nat.
Proof using.
  clear HT.
  intros I Hs. pose proof (gi_len _ I) as Hlen. pose proof (gi_join _ I) as Hj.
  destruct Hs as [r go ws ss Hl|r go ws ss Hl|m r go ws ss t Hw|r go ws ss t0 Hr|r go ws ss t0
    |m r ws ss t Hw|m r go ws ss t w w' Hw Hl|m r go ws ss t sum Hw|r go ws ss t0 k Hk Hw|r go ws ss t0 t1];
    cbn in Hlen.
  - unfold gate_cost. cbn [g_main g_workers]. apply Nat.add_lt_mono_l, (sum_list_lt _ _ _ (length ws)).
    + apply elem_of_seq. lia.
    + rewrite lookup_app_r, Nat.sub_diag by lia. rewrite (lookup_ge_None_2 ws) by lia. cbn. lia.
    + intros i _. destruct (decide (i < length ws)%nat).
      * by rewrite lookup_app_l.
      * rewrite (lookup_ge_None_2 ws i) by lia. destruct (decide (i = length ws)) as [->|].
        { rewrite lookup_app_r, Nat.sub_diag by lia. cbn. lia. }
        rewrite lookup_ge_None_2; [done|]. rewrite length_app. cbn. lia.
  - unfold gate_cost. cbn. lia.
  - eapply worker_cost_lt; [done|done|]. cbn. lia.
  - unfold gate_cost. cbn. lia.
  - unfold gate_cost. cbn. lia.
  - eapply worker_cost_lt; [done|done|]. cbn. unfold full. lia.
  - eapply worker_cost_lt; [done|done|]. destruct w as [| |[|p] sum|p [|rec todo] v sum|]; cbn in Hl; try done.
    + injection Hl as <-. cbn. lia.
    + injection Hl as <-. cbn. lia.
    + destruct (check _ v) as [res v']. injection Hl as <-. cbn. lia.
  - eapply worker_cost_lt; [done|done|]. cbn. lia.
  - unfold gate_cost. cbn. lia.
  - unfold gate_cost. cbn. lia.
Qed.

(** No deadlock: until the second clock read some thread can take a step. *)
Lemma gate_progress g :
  gate_inv g → (∃ t0 t1, g_main g = MEnd t0 t1) ∨ ∃ g', gate_step T passes recs g g'.
Proof using.
  clear HT.
  intros I. destruct g as [m r go ws ss]. pose proof (gi_len _ I) as Hl. pose proof (gi_go _ I) as Hg.
  pose proof (gi_spawned _ I) as Hsp. cbn in Hl, Hg, Hsp. destruct m as [| |t0|t0 k|t0 t1].
  - right. destruct (decide (length ws < T)%nat); [eauto using gate_step|].
    eexists. apply gs_spawned. lia.
  - right. specialize (Hsp ltac:(done)). pose proof (gi_ready _ I) as Hr. cbn in Hr.
    destruct (Z.lt_ge_cases r (Z.of_nat T)) as [Hlt|]; [|eexists; by apply (gs_all_ready _ _ _ _ _ _ _ 0)].
    rewrite Hr, <- Hsp in Hlt. apply countb_lt_length in Hlt as (t&w&Hw&Hn).
    destruct w; try done. eauto using gate_step.
  - right. eauto using gate_step.
  - right. subst go. destruct (gi_join _ I t0 k eq_refl) as [Hk _]. cbn in Hk.
    destruct (decide (k = T)) as [->|Hne]; [eexists; apply (gs_joined _ _ _ _ _ _ _ _ 0)|].
    specialize (Hsp ltac:(done)). destruct (lookup_lt_is_Some_2 ws k) as [w Hw]; [lia|].
    destruct w as [| |[|p] sum|p [|rec todo] v sum|].
    + pose proof (Forall_lookup_1 _ _ _ _ (gi_timing _ I eq_refl) Hw) as Hn. done.
    + eauto using gate_step.
    + eauto using gate_step.
    + eexists. by eapply gs_local.
    + eexists. by eapply gs_local.
    + destruct (check (dispatch_replay rec) v) as [res v'] eqn:E. eexists. eapply gs_local; [done|].
      cbn. by rewrite E.
    + eexists. apply gs_join; [lia|done].
  - left. eauto.
Qed.

Lemma gate_final g t0 t1 :
  gate_inv g → g_main g = MEnd t0 t1 → g_sums g = checksums (Z.of_nat T) passes recs.
Proof using.
  clear HT.
  intros I Hm. unfold checksums. apply list_eq_same_length with T; [by rewrite length_fmap, length_seqZ, Nat2Z.id|apply I|].
  intros t x y Ht Hx. rewrite list_lookup_fmap, fmap_Some. intros (k&Hk&->).
  apply lookup_seqZ in Hk as [-> _]. pose proof (gi_work _ I t _ (gi_end _ I t0 t1 Hm t Ht)) as Hok.
  cbn in Hok. rewrite Hok in Hx. by injection Hx as <-.
Qed.

End Gate.

(** ** The sweep *)

Lemma sweep_fixed fixed hw : 0 < fixed < 2 ^ 31 → sweep fixed hw = [fixed].
Proof.
  intros Hf. unfold sweep. destruct (Z.ltb_spec 0 fixed); [|lia]. unfold u32. by rewrite Z.mod_small by lia.
Qed.

Lemma sweep_zero fixed : fixed <= 0 → sweep fixed 0 = [0].
Proof. intros Hf. unfold sweep. destruct (Z.ltb_spec 0 fixed); [lia|]. done. Qed.

Lemma sweep_auto fixed hw :
  fixed <= 0 → 0 < hw →
  StronglySorted Z.lt (sweep fixed hw) ∧ head (sweep fixed hw) = Some 1 ∧ last (sweep fixed hw) = Some hw.
Proof.
  intros Hf Hh. unfold sweep. destruct (Z.ltb_spec 0 fixed); [lia|]. clear H fixed Hf.
  assert (Hsort : ∀ l, StronglySorted Z.lt l ↔ Sorted Z.lt l).
  { intros l. split; [apply StronglySorted_Sorted|apply Sorted_StronglySorted]. intros ? ? ?. lia. }
  rewrite !filter_cons, filter_nil. rewrite Hsort. repeat (case_decide; try lia); cbn zeta.
  all: case_bool_decide as Hl; cbn in Hl; simplify_eq; cbn [app].
  all: try (match type of Hl with Some ?a ≠ Some ?b => assert (a ≠ b) by congruence end).
  all: split; [|by split].
  all: repeat (apply Sorted_cons; [|first [apply HdRel_nil|apply HdRel_cons; lia]]); apply Sorted_nil.
Qed.

Lemma sweep_positive fixed hw :
  0 <= hw → -2 ^ 31 <= fixed < 2 ^ 31 → ¬ (fixed <= 0 ∧ hw = 0) → Forall (λ t, 0 < t) (sweep fixed hw).
Proof.
  intros Hh Hf Hn. destruct (Z.lt_ge_cases 0 fixed).
  - rewrite sweep_fixed by lia. by repeat constructor.
  - destruct (sweep_auto fixed hw) as (Hs&Hd&_); [lia|lia|]. destruct (sweep fixed hw) as [|t ts]; [done|].
    injection Hd as ->. apply StronglySorted_inv in Hs as [_ Hs]. constructor; [lia|].
    eapply Forall_impl; [exact Hs|]. cbn. lia.
Qed.

Lemma sweep_rows_defined count passes front base Ts clocks :
  Forall (λ t, 0 < t) Ts ∨ count = 0 → length clocks = length Ts →
  ∃ rows, sweep_rows count passes front base Ts clocks = Some rows ∧ length rows = length Ts.
Proof.
  intros Hp Hl. revert base clocks Hl. induction Ts as [|T Ts IH]; intros base [|[t0 t1] clocks] Hl; try done.
  { by exists []. }
  cbn [sweep_rows]. assert (Hr : run count T passes t0 t1 = Some (run_rate count passes t0 t1)).
  { unfold run. destruct Hp as [Hp| ->]; [|by rewrite andb_false_r].
    apply Forall_cons in Hp as [Hp _]. by destruct (Z.eqb_spec T 0); [lia|]. }
  rewrite Hr. cbn [mbind option_bind]. cbn zeta.
  edestruct (IH ltac:(destruct Hp as [Hp|?]; [left; by apply Forall_cons in Hp as [_ ?]|by right])) as (rows&Hrows&Hlen);
    [|rewrite Hrows; cbn [mbind option_bind]; eexists; split; [done|cbn; by rewrite Hlen]].
  by injection Hl.
Qed.

(** ** The properties *)

(** The start gate works: in every interleaving of the main thread and its workers,
    as soon as one worker has passed the gate, the clock has been read and the gate
    opened, and all [T] workers had been spawned and were parked at it, so that neither
    the spawning nor the partition is inside the timed region. *)
Theorem mt_start_gate T passes recs g t w :
  Z.of_nat T < 2 ^ 32 → gate_reachable T passes recs g →
  g_workers g !! t = Some w → started w = true →
  gate_open (g_main g) = true ∧ g_go g = true ∧ length (g_workers g) = T ∧
  Forall (λ w, is_new w = false) (g_workers g).
Proof.
  intros HT Hr Hw Hs. pose proof (gate_reachable_inv T passes recs HT g Hr) as I.
  pose proof (gi_go _ _ _ _ I) as Hg. destruct (g_go g) eqn:E.
  - split; [done|]. split; [done|]. split.
    + apply (gi_spawned _ _ _ _ I). intros Hm. by rewrite Hm in Hg.
    + apply (gi_timing _ _ _ _ I). by destruct (g_main g).
  - pose proof (Forall_lookup_1 _ _ _ _ (gi_closed _ _ _ _ I E) Hw) as Hf. cbn in Hf. congruence.
Qed.

(** Every multi-threaded run ends and ends right: each step of any thread brings the
    run closer to its end, and until then some thread can take a step (no deadlock at
    the gate or in the joins); at the end every worker has finished and the vector of
    checksums is that of the sequential workers over their shards, whatever the
    interleaving was. *)
Theorem mt_run_terminates T passes recs :
  Z.of_nat T < 2 ^ 32 →
  (∀ g g', gate_reachable T passes recs g → gate_step T passes recs g g' →
     (gate_cost T passes recs g' < gate_cost T passes recs g)%nat) ∧
  (∀ g, gate_reachable T passes recs g →
     (∃ t0 t1, g_main g = MEnd t0 t1) ∨ ∃ g', gate_step T passes recs g g') ∧
  (∀ g t0 t1, gate_reachable T passes recs g → g_main g = MEnd t0 t1 →
     g_sums g = checksums (Z.of_nat T) passes recs).
Proof.
  intros HT. split; [|split].
  - intros g g' Hr. apply (gate_step_cost T passes recs). by apply gate_reachable_inv.
  - intros g Hr. apply (gate_progress T passes recs). by apply gate_reachable_inv.
  - intros g t0 t1 Hr. apply (gate_final T passes recs). by apply gate_reachable_inv.
Qed.

(** The thread sweep: on a machine that reports [hw] > 0 threads the sweep climbs
    strictly from 1 to exactly [hw]; the program prints one row per thread count; and it
    is undefined exactly when the sweep is asked for, the number of hardware threads is
    not known (0), and there is a record to partition modulo zero. *)
Theorem mt_sweep_outcomes fixed hw clocks passes recs :
  0 <= hw < 2 ^ 32 → -2 ^ 31 <= fixed < 2 ^ 31 → length clocks = length (sweep fixed hw) →
  (fixed <= 0 → 0 < hw → StronglySorted Z.lt (sweep fixed hw) ∧
     head (sweep fixed hw) = Some 1 ∧ last (sweep fixed hw) = Some hw) ∧
  (mt_run_main hw clocks passes fixed recs = Undefined ↔ fixed <= 0 ∧ hw = 0 ∧ recs ≠ []) ∧
  (mt_run_main hw clocks passes fixed recs ≠ Undefined →
     ∃ title rows, mt_run_main hw clocks passes fixed recs = Returns 0 (title ++ rows) ∧
       length title = 3%nat ∧ length rows = length (sweep fixed hw)).
Proof.
  intros Hh Hf Hl. split; [intros; by apply sweep_auto|].
  destruct (decide (fixed <= 0 ∧ hw = 0)) as [[Hf0 ->]|Hn].
  - rewrite sweep_zero in Hl |- * by done. unfold mt_run_main. rewrite sweep_zero by done.
    destruct clocks as [|[t0 t1] [|]]; try done. cbn [sweep_rows]. unfold run. cbn [Z.eqb andb].
    destruct recs as [|r recs]; [cbn|].
    + split; [by split; [done|naive_solver]|]. intros _. eexists [_; _; _], _. done.
    + destruct (Z.eqb_spec (Z.of_nat (length (r :: recs))) 0) as [E|_]; [cbn in E; lia|]. cbn. naive_solver.
  - destruct (sweep_rows_defined (Z.of_nat (length recs)) passes (default 0 (head (sweep fixed hw))) fzero
      (sweep fixed hw) clocks) as (rows&Hr&Hlen).
    { left. apply sweep_positive; [lia|lia|done]. }
    { done. }
    unfold mt_run_main. rewrite Hr. split; [split; [done|naive_solver]|]. intros _.
    eexists [_; _; _], rows. done.
Qed.

(** ** Witnesses: one worker past the gate *)

Definition demo_gate : Gate := mkGate (MJoin 5 0) 1 true [WPass 2 0] [0].

Lemma demo_gate_reachable : gate_reachable 1 2 [published 10] demo_gate.
Proof.
  eapply gate_next; [|exact (gs_enter 1 2 [published 10] (MJoin 5 0) 1 [WGate] [0] 0 eq_refl)].
  eapply gate_next; [|exact (gs_open 1 2 [published 10] 1 false [WGate] [0] 5)].
  eapply gate_next; [|refine (gs_all_ready 1 2 [published 10] 1 false [WGate] [0] 5 _); cbn; lia].
  eapply gate_next; [|exact (gs_arrive 1 2 [published 10] MWait 0 false [WNew] [0] 0 eq_refl)].
  eapply gate_next; [|exact (gs_spawned 1 2 [published 10] 0 false [WNew] [0] eq_refl)].
  eapply gate_next; [apply gate_start|]. refine (gs_spawn 1 2 [published 10] 0 false [] [0] _). cbn. lia.
Qed.

Lemma mt_start_gate_witness :
  gate_open (g_main demo_gate) = true ∧ g_go demo_gate = true ∧ length (g_workers demo_gate) = 1%nat ∧
  Forall (λ w, is_new w = false) (g_workers demo_gate).
Proof.
  apply (mt_start_gate 1 2 [published 10] demo_gate 0 (WPass 2 0));
    [cbn; lia|apply demo_gate_reachable|reflexivity|reflexivity].
Defined.

Lemma mt_run_terminates_witness :
  (∀ g g', gate_reachable 2 3 [published 10] g → gate_step 2 3 [published 10] g g' →
     (gate_cost 2 3 [published 10] g' < gate_cost 2 3 [published 10] g)%nat) ∧
  (∀ g, gate_reachable 2 3 [published 10] g →
     (∃ t0 t1, g_main g = MEnd t0 t1) ∨ ∃ g', gate_step 2 3 [published 10] g g') ∧
  (∀ g t0 t1, gate_reachable 2 3 [published 10] g → g_main g = MEnd t0 t1 →
     g_sums g = checksums 2 3 [published 10]).
Proof. apply (mt_run_terminates 2 3 [published 10]). cbn. lia. Defined.

(** Twelve hardware threads: 1, 2, 4, 8, 10, 12. *)
Lemma mt_sweep_outcomes_witness :
  sweep 0 12 = [1; 2; 4; 8; 10; 12] ∧
  (mt_run_main 12 (replicate 6 (0, 9)) 20 0 [published 10] = Undefined ↔
     0 <= 0 ∧ 12 = 0 ∧ [published 10] ≠ []).
Proof.
  split; [reflexivity|].
  apply (mt_sweep_outcomes 0 12 (replicate 6 (0, 9)) 20 [published 10]); [lia|lia|reflexivity].
Defined.
