(* ===== verification/MtWeakProofs.v ===== *)
(** * replay_bench_mt on the C++ memory model

    No execution has a data race, whatever the memory orders of the gate: the spawns
    and joins order every access to a shared vector.  Each execution is one of the
    interleaving model of [MtRun.v], and each can be completed. *)

From stdpp Require Import base numbers list list_numbers functions relations.
From Stdlib Require Import ZArith Lia.
From S2P Require Import Prelude Float64 Runtime Clock Wire Replay Validator ValidatorTable ValidatorProps.
From S2P Require Import Arbitrator ArbitratorProofs ArbitratorSessions Util Harness HarnessProofs.
From S2P Require Import Pipeline ReplayMain MtRun MtRunProofs WeakMemory MtWeak.

Local Open Scope Z_scope.

(** ** The interleaving state of a weak state *)

Definition abs_main (m : WMainPc) : MainPc :=
  match m with
  | WmSpawn => MSpawn
  | WmWait => MWait
  | WmGo t0 => MGo t0
  | WmJoin t0 k => MJoin t0 k
  | WmSum t0 t1 _ _ | WmEnd t0 t1 _ => MEnd t0 t1
  end.

Definition mt_abs (w : MtWeak) : Gate :=
  mkGate (abs_main (mw_main w)) (Z.of_nat (length (mw_ready w)) - 1)
    (bool_decide (2 ≤ length (mw_go w))%nat) (mw_workers w).*1 (c_val <$> mw_sums w).

(** The workers that have been joined. *)
Definition n_joined (T : nat) (m : WMainPc) : nat :=
  match m with WmJoin _ k => k | WmSum _ _ _ _ | WmEnd _ _ _ => T | _ => 0 end.

(** ** The invariant of the memory *)

Section Inv.
Context (T : nat) (passes : nat) (recs : list WireRecord).

(** The view knows the construction of the vectors, and no store that is not there. *)
Record view_ok (nr ng : nat) (v : GView) : Prop := {
  vo_ready : (v_at v LReady < nr)%nat;
  vo_go : (v_at v LGo < ng)%nat
}.

Definition knows (v : GView) : Prop := (1 ≤ v_clk v GMain)%nat.

Record ghist_ok (nr ng : nat) (h : GHist) : Prop := {
  ho_val : ∀ n s, h !! n = Some s → s_val s = Z.of_nat n;
  ho_view : Forall (λ s, view_ok nr ng (s_view s)) h
}.

Definition shard_ok (t : nat) (c : Cell GTid (list WireRecord)) : Prop :=
  c_val c = buf_of T recs t ∧ c_wt c = GMain ∧ c_wc c = 1%nat.

(** A slot: built and not read, or written by its worker before the worker ended. *)
Definition sum_ok (w : option (WorkerPc * GView)) (t : nat) (c : Cell GTid Z) : Prop :=
  (∀ u, u ≠ GMain → c_rc c u = 0%nat) ∧
  match w with
  | Some (WDone, v) => c_wt c = GWorker t ∧ (c_wc c ≤ v_clk v (GWorker t))%nat
  | _ => c_wt c = GMain ∧ c_wc c = 1%nat ∧ c_rc c GMain = 0%nat
  end.

Definition cs_ok (ss : list (Cell GTid Z)) (m : WMainPc) : Prop :=
  match m with
  | WmSum _ _ k cs => (k ≤ T)%nat ∧ cs = xor_sums (take k (c_val <$> ss))
  | WmEnd _ _ cs => cs = xor_sums (c_val <$> ss)
  | _ => True
  end.

Record mem_ok (rd go : GHist) (shs : list (Cell GTid (list WireRecord))) (ss : list (Cell GTid Z))
    (m : WMainPc) (mv : GView) (ws : list (WorkerPc * GView)) : Prop := {
  mo_ready : ghist_ok (length rd) (length go) rd;
  mo_go : ghist_ok (length rd) (length go) go;
  mo_main : view_ok (length rd) (length go) mv ∧ knows mv;
  mo_workers : ∀ t pc v, ws !! t = Some (pc, v) → view_ok (length rd) (length go) v ∧ knows v;
  mo_shards_len : length shs = T;
  mo_shards : ∀ t c, shs !! t = Some c → shard_ok t c;
  mo_sums : ∀ t c, ss !! t = Some c → sum_ok (ws !! t) t c;
  mo_joined : ∀ t c, (t < n_joined T m)%nat → ss !! t = Some c → (c_wc c ≤ v_clk mv (c_wt c))%nat;
  mo_cs : cs_ok ss m
}.

Record mt_sim (w : MtWeak) : Prop := {
  ms_reach : gate_reachable T passes recs (mt_abs w);
  ms_mem : mem_ok (mw_ready w) (mw_go w) (mw_shards w) (mw_sums w) (mw_main w) (mw_mv w) (mw_workers w)
}.

(** ** Views *)

Lemma gview_ok_mono nr ng nr' ng' v :
  view_ok nr ng v → (nr ≤ nr')%nat → (ng ≤ ng')%nat → view_ok nr' ng' v.
Proof. intros [H1 H2] ? ?. split; lia. Qed.

Lemma view_ok_join nr ng v v' : view_ok nr ng v → view_ok nr ng v' → view_ok nr ng (v ⊔ v').
Proof. intros [H1 H2] [H3 H4]. split; cbn; lia. Qed.

Lemma view_ok_ready nr ng n v : view_ok nr ng v → (n < nr)%nat → view_ok nr ng (aware LReady n v).
Proof.
  intros [H1 H2] Hn. split; [rewrite aware_at; lia|]. by rewrite aware_at_ne.
Qed.

Lemma view_ok_go nr ng n v : view_ok nr ng v → (n < ng)%nat → view_ok nr ng (aware LGo n v).
Proof.
  intros [H1 H2] Hn. split; [by rewrite aware_at_ne|]. rewrite aware_at. lia.
Qed.

Lemma view_ok_tick nr ng t v : view_ok nr ng v → view_ok nr ng (tick t v).
Proof. intros [H1 H2]. by split. Qed.

Lemma view_ok_bot nr ng : (0 < nr)%nat → (0 < ng)%nat → view_ok nr ng view_bot.
Proof. by split. Qed.

Lemma knows_mono (v v' : GView) : knows v → v ⊑ v' → knows v'.
Proof. unfold knows. intros H [_ Hc]. specialize (Hc GMain). lia. Qed.

Lemma ghist_ok_mono nr ng nr' ng' h :
  ghist_ok nr ng h → (nr ≤ nr')%nat → (ng ≤ ng')%nat → ghist_ok nr' ng' h.
Proof.
  intros [H1 H2] ? ?. split; [done|]. eapply Forall_impl; [exact H2|]. intros s Hs.
  eapply gview_ok_mono; [exact Hs|done|done].
Qed.

Lemma ghist_ok_snoc nr ng h s :
  ghist_ok nr ng h → s_val s = Z.of_nat (length h) → view_ok nr ng (s_view s) → ghist_ok nr ng (h ++ [s]).
Proof.
  intros [H1 H2] Hs Hv. split; [|apply Forall_app; split; [done|by apply Forall_singleton]].
  intros n s'. rewrite lookup_app_Some. intros [H|[Hle H]]; [by apply H1|].
  apply list_lookup_singleton_Some in H as [Hn <-]. rewrite Hs. lia.
Qed.

(** A load leaves a sound view. *)
Lemma load_ready_ok o n rd v v' x ng :
  load o LReady n rd v = Some (x, v') → ghist_ok (length rd) ng rd → view_ok (length rd) ng v →
  view_ok (length rd) ng v' ∧ x = Z.of_nat n ∧ (n < length rd)%nat.
Proof.
  intros (_&s&Hs&->&->)%load_Some [H1 H2] Hv. pose proof (lookup_lt_Some _ _ _ Hs) as Hlt.
  split; [|by rewrite (H1 n s Hs)]. apply view_ok_ready; [|done].
  destruct (acquires o); [|done]. apply view_ok_join; [done|]. by eapply (Forall_lookup_1 _ _ _ _ H2 Hs).
Qed.

Lemma load_go_ok o n go v v' x nr :
  load o LGo n go v = Some (x, v') → ghist_ok nr (length go) go → view_ok nr (length go) v →
  view_ok nr (length go) v' ∧ x = Z.of_nat n ∧ (n < length go)%nat.
Proof.
  intros (_&s&Hs&->&->)%load_Some [H1 H2] Hv. pose proof (lookup_lt_Some _ _ _ Hs) as Hlt.
  split; [|by rewrite (H1 n s Hs)]. apply view_ok_go; [|done].
  destruct (acquires o); [|done]. apply view_ok_join; [done|]. by eapply (Forall_lookup_1 _ _ _ _ H2 Hs).
Qed.

(** ** Updates that keep the memory sound *)

(** A worker that has not ended moves on. *)
Lemma mem_worker rd go shs ss m mv ws t pc v pc' v' :
  mem_ok rd go shs ss m mv ws → ws !! t = Some (pc, v) → pc ≠ WDone → pc' ≠ WDone →
  view_ok (length rd) (length go) v' → knows v' →
  mem_ok rd go shs ss m mv (<[t := (pc', v')]> ws).
Proof.
  intros M Ht Hd Hd' Hv Hk. destruct M as [M1 M2 M3 M4 M5 M6 M7 M8 M9]. split; try done.
  - intros u q x. rewrite list_lookup_insert_Some. intros [(<-&[= <- <-]&_)|[_ Hu]]; [done|by eapply M4].
  - intros u c Hc. specialize (M7 u c Hc). destruct (decide (t = u)) as [<-|Hne].
    + rewrite list_lookup_insert_eq by (by eapply lookup_lt_Some). rewrite Ht in M7.
      destruct M7 as [Hr H]. split; [done|]. by destruct pc, pc'.
    + by rewrite list_lookup_insert_ne.
Qed.

(** The main thread moves on, knowing at least as much. *)
Lemma mem_main rd go shs ss m mv ws m' mv' :
  mem_ok rd go shs ss m mv ws → mv ⊑ mv' → view_ok (length rd) (length go) mv' →
  (∀ t c, (t < n_joined T m')%nat → ss !! t = Some c → (c_wc c ≤ v_clk mv' (c_wt c))%nat) → cs_ok ss m' →
  mem_ok rd go shs ss m' mv' ws.
Proof.
  intros M Hle Hv Hj Hcs. destruct M as [M1 M2 [M3 M3'] M4 M5 M6 M7 M8 M9]. split; try done.
  split; [done|]. by eapply knows_mono.
Qed.

(** Another store to [ready] or to [go]. *)
Lemma mem_ready rd go shs ss m mv ws s :
  mem_ok rd go shs ss m mv ws → s_val s = Z.of_nat (length rd) →
  view_ok (S (length rd)) (length go) (s_view s) → mem_ok (rd ++ [s]) go shs ss m mv ws.
Proof.
  intros M Hs Hv. destruct M as [M1 M2 [M3 M3'] M4 M5 M6 M7 M8 M9].
  assert (Hl : length (rd ++ [s]) = S (length rd)) by (rewrite length_app; cbn; lia).
  split; rewrite ?Hl; try done.
  - apply ghist_ok_snoc; [|done|done]. eapply ghist_ok_mono; [done|lia|lia].
  - eapply ghist_ok_mono; [done|lia|lia].
  - split; [|done]. eapply gview_ok_mono; [done|lia|lia].
  - intros t pc v H. destruct (M4 t pc v H). split; [|done]. eapply gview_ok_mono; [done|lia|lia].
Qed.

Lemma mem_go rd go shs ss m mv ws s :
  mem_ok rd go shs ss m mv ws → s_val s = Z.of_nat (length go) →
  view_ok (length rd) (S (length go)) (s_view s) → mem_ok rd (go ++ [s]) shs ss m mv ws.
Proof.
  intros M Hs Hv. destruct M as [M1 M2 [M3 M3'] M4 M5 M6 M7 M8 M9].
  assert (Hl : length (go ++ [s]) = S (length go)) by (rewrite length_app; cbn; lia).
  split; rewrite ?Hl; try done.
  - eapply ghist_ok_mono; [done|lia|lia].
  - apply ghist_ok_snoc; [|done|done]. eapply ghist_ok_mono; [done|lia|lia].
  - split; [|done]. eapply gview_ok_mono; [done|lia|lia].
  - intros t pc v H. destruct (M4 t pc v H). split; [|done]. eapply gview_ok_mono; [done|lia|lia].
Qed.

(** ** The ordinary accesses do not race *)

Lemma read_shard_ok rd go shs ss m mv ws t pc v :
  mem_ok rd go shs ss m mv ws → ws !! t = Some (pc, v) → (t < T)%nat → pc ≠ WDone →
  ∃ shs', read_shard t shs v = Some (buf_of T recs t, shs', tick (GWorker t) v) ∧
    ∀ pc', pc' ≠ WDone →
      mem_ok rd go shs' ss m mv (<[t := (pc', tick (GWorker t) v)]> ws).
Proof.
  intros M Ht Hlt Hd. destruct (mo_workers _ _ _ _ _ _ _ M t pc v Ht) as [Hv Hk].
  destruct (lookup_lt_is_Some_2 shs t) as [c Hc]; [by rewrite (mo_shards_len _ _ _ _ _ _ _ M)|].
  pose proof (mo_shards _ _ _ _ _ _ _ M t c Hc) as (Hval&Hwt&Hwc).
  unfold read_shard. rewrite Hc. cbn [mbind option_bind]. unfold na_read, write_seen.
  rewrite bool_decide_true by (rewrite Hwt, Hwc; exact Hk). cbn [mbind option_bind]. rewrite Hval.
  eexists. split; [reflexivity|]. intros pc' Hd'.
  eapply (mem_worker _ _ _ _ _ _ _ t pc v); [|exact Ht|done|done|by apply view_ok_tick|
    eapply knows_mono; [exact Hk|apply tick_le]].
  destruct M as [M1 M2 M3 M4 M5 M6 M7 M8 M9]. split; try done.
  - by rewrite length_insert.
  - intros u c'. rewrite list_lookup_insert_Some. intros [(<-&<-&_)|[_ Hu]]; [|by apply M6]. done.
Qed.

Lemma write_sum_ok rd go shs ss m mv ws t pc v x :
  mem_ok rd go shs ss m mv ws → ws !! t = Some (pc, v) → (t < T)%nat → length ss = T → pc ≠ WDone →
  (n_joined T m ≤ t)%nat → (∀ ss', cs_ok ss' m) →
  ∃ ss', write_sum T t x ss v = Some (ss', tick (GWorker t) v) ∧ c_val <$> ss' = <[t := x]> (c_val <$> ss) ∧
    mem_ok rd go shs ss' m mv (<[t := (WDone, tick (GWorker t) v)]> ws).
Proof.
  intros M Ht Hlt Hl Hd Hj Hcs. destruct (mo_workers _ _ _ _ _ _ _ M t pc v Ht) as [Hv Hk].
  destruct (lookup_lt_is_Some_2 ss t) as [c Hc]; [by rewrite Hl|].
  pose proof (mo_sums _ _ _ _ _ _ _ M t c Hc) as [Hrc Hcell]. rewrite Ht in Hcell.
  assert (Hc' : c_wt c = GMain ∧ c_wc c = 1%nat ∧ c_rc c GMain = 0%nat) by (by destruct pc).
  destruct Hc' as (Hwt&Hwc&Hrm). clear Hcell.
  unfold write_sum. rewrite Hc. cbn [mbind option_bind]. unfold na_write.
  assert (write_seen c v = true) as -> by (unfold write_seen; rewrite bool_decide_true; [done|by rewrite Hwt, Hwc]).
  assert (reads_seen (gthreads T) c v = true) as ->.
  { apply forallb_forall. intros u _. apply bool_decide_eq_true.
    destruct (decide (u = GMain)) as [->|]; [rewrite Hrm|rewrite Hrc by done]; lia. }
  cbn [andb mbind option_bind]. eexists. split; [reflexivity|]. split; [by rewrite list_fmap_insert|].
  pose proof (lookup_lt_Some _ _ _ Ht) as Htl.
  destruct M as [M1 M2 M3 M4 M5 M6 M7 M8 M9]. split; try done.
  - intros u q y. rewrite list_lookup_insert_Some. intros [(<-&[= <- <-]&_)|[_ Hu]]; [|by eapply M4].
    split; [by apply view_ok_tick|]. eapply knows_mono; [exact Hk|apply tick_le].
  - intros u c'. rewrite list_lookup_insert_Some. intros [(<-&<-&_)|[Hne Hu]].
    + rewrite list_lookup_insert_eq by done. split; [done|]. cbn [c_wt c_wc]. by rewrite tick_clk.
    + rewrite list_lookup_insert_ne by done. by apply M7.
  - intros u c' Hu. rewrite list_lookup_insert_ne by lia. by apply M8.
Qed.

Lemma read_sum_ok rd go shs ss t0 t1 k cs mv ws :
  mem_ok rd go shs ss (WmSum t0 t1 k cs) mv ws → (k < T)%nat → length ss = T → is_Some (ws !! k) →
  (∀ pc v, ws !! k = Some (pc, v) → pc = WDone) →
  ∃ x ss', read_sum k ss mv = Some (x, ss', tick GMain mv) ∧ c_val <$> ss' = c_val <$> ss ∧
    mem_ok rd go shs ss' (WmSum t0 t1 (S k) (Z.lxor cs x)) (tick GMain mv) ws.
Proof.
  intros M Hk Hl [[pc v] Hw] Hdone. pose proof (Hdone pc v Hw) as ->.
  destruct (lookup_lt_is_Some_2 ss k) as [c Hc]; [by rewrite Hl|].
  pose proof (mo_joined _ _ _ _ _ _ _ M k c Hk Hc) as Hseen.
  unfold read_sum. rewrite Hc. cbn [mbind option_bind]. unfold na_read, write_seen.
  rewrite bool_decide_true by done. cbn [mbind option_bind].
  assert (Hval : c_val <$> <[k := mkCell (c_val c) (c_wt c) (c_wc c) (<[GMain := S (v_clk mv GMain)]> (c_rc c))]> ss
    = c_val <$> ss).
  { rewrite list_fmap_insert. cbn [c_val]. apply list_insert_id. by rewrite list_lookup_fmap, Hc. }
  eexists _, _. split; [reflexivity|]. split; [exact Hval|].
  destruct M as [M1 M2 [M3 M3'] M4 M5 M6 M7 M8 M9]. split; try done.
  - split; [by apply view_ok_tick|]. eapply knows_mono; [exact M3'|apply tick_le].
  - intros u c'. rewrite list_lookup_insert_Some. intros [(<-&<-&_)|[Hne Hu]]; [|by apply M7].
    specialize (M7 k c Hc). rewrite Hw in M7 |- *. destruct M7 as [Hr H7]. split; [|done].
    intros u Hu. cbn [c_rc]. rewrite fn_lookup_insert_ne by done. by apply Hr.
  - intros u c' Hu. rewrite list_lookup_insert_Some. destruct (tick_le GMain mv) as [_ Ht].
    intros [(<-&<-&_)|[Hne Hu']]; cbn [c_wc c_wt].
    + specialize (Ht (c_wt c)). lia.
    + specialize (Ht (c_wt c')). specialize (M8 u c' Hu Hu'). lia.
  - destruct M9 as [_ ->]. split; [lia|]. rewrite Hval.
    rewrite (take_S_r _ _ (c_val c)) by (by rewrite list_lookup_fmap, Hc).
    unfold xor_sums. by rewrite foldl_app.
Qed.

End Inv.

(** ** Every step is a step of the interleaving model, a spin, or a read of a checksum *)

Section Sim.
Context (T : nat) (passes : nat) (recs : list WireRecord) (ord : GateOrders).
Hypothesis HT : Z.of_nat T < 2 ^ 32.

Notation sim := (mt_sim T passes recs).
Notation mem := (mem_ok T recs).
Notation gstep := (gate_step T passes recs).

Definition sum_left (m : WMainPc) : nat :=
  match m with WmSum _ _ k _ => S (T - k) | WmEnd _ _ _ => 0 | _ => S (S T) end.

(** The steps left, spins not counted. *)
Definition mt_cost (w : MtWeak) : nat := gate_cost T passes recs (mt_abs w) + sum_left (mw_main w).

(** Nothing but a view has changed. *)
Definition mt_spin (w w' : MtWeak) : Prop :=
  mw_ready w' = mw_ready w ∧ mw_go w' = mw_go w ∧ mw_shards w' = mw_shards w ∧ mw_sums w' = mw_sums w ∧
  mw_main w' = mw_main w ∧ (mw_workers w').*1 = (mw_workers w).*1.

Lemma sim_inv w : sim w → gate_inv T passes recs (mt_abs w).
Proof using HT. intros S. apply gate_reachable_inv; [done|apply S]. Qed.

Lemma worker_view (ws : list (WorkerPc * GView)) t pc : ws.*1 !! t = Some pc → ∃ v, ws !! t = Some (pc, v).
Proof using.
  clear HT. rewrite list_lookup_fmap. intros ([pc' v]&Hw&->)%fmap_Some. by exists v.
Qed.

Lemma spin_abs w w' : mt_spin w w' → mt_abs w' = mt_abs w.
Proof using. clear HT. intros (H1&H2&_&H3&H4&H5). unfold mt_abs. by rewrite H1, H2, H3, H4, H5. Qed.

(** How a step is concluded: the memory is sound, and the abstract states agree. *)
Lemma sim_gate w w' :
  sim w → gstep (mt_abs w) (mt_abs w') → (sum_left (mw_main w') <= sum_left (mw_main w))%nat →
  mem (mw_ready w') (mw_go w') (mw_shards w') (mw_sums w') (mw_main w') (mw_mv w') (mw_workers w') →
  sim w' ∧ ((mt_cost w' < mt_cost w)%nat ∨ mt_spin w w').
Proof using HT.
  intros S Hs Hl M. split; [split; [|done]; eapply gate_next; [apply S|done]|]. left.
  pose proof (gate_step_cost T passes recs _ _ (sim_inv w S) Hs). unfold mt_cost. lia.
Qed.

Lemma sim_stutter w w' :
  sim w → mt_abs w' = mt_abs w → (sum_left (mw_main w') < sum_left (mw_main w))%nat ∨ mt_spin w w' →
  mem (mw_ready w') (mw_go w') (mw_shards w') (mw_sums w') (mw_main w') (mw_mv w') (mw_workers w') →
  sim w' ∧ ((mt_cost w' < mt_cost w)%nat ∨ mt_spin w w').
Proof using.
  clear HT. intros S Ha Hl M. split; [split; [|done]; rewrite Ha; apply S|].
  destruct Hl as [Hl|Hl]; [left|by right]. unfold mt_cost. rewrite Ha. lia.
Qed.

Lemma worker_bound w t pc v : sim w → mw_workers w !! t = Some (pc, v) →
  (t < T)%nat ∧ g_workers (mt_abs w) !! t = Some pc.
Proof using HT.
  intros S Ht. pose proof (gi_len _ _ _ _ (sim_inv w S)) as Hl. cbn in Hl. rewrite length_fmap in Hl.
  pose proof (lookup_lt_Some _ _ _ Ht). split; [lia|]. cbn. by rewrite list_lookup_fmap, Ht.
Qed.

Lemma sums_length w : sim w → length (mw_sums w) = T.
Proof using HT.
  intros S. pose proof (gi_sums _ _ _ _ (sim_inv w S)) as Hl. cbn in Hl. by rewrite length_fmap in Hl.
Qed.

Lemma worker_not_joined w t pc v : sim w → mw_workers w !! t = Some (pc, v) → pc ≠ WDone →
  (n_joined T (mw_main w) ≤ t)%nat ∧ ∀ ss, cs_ok T ss (mw_main w).
Proof using HT.
  intros S Ht Hd. destruct (worker_bound w t pc v S Ht) as [Hlt Hg]. pose proof (sim_inv w S) as I.
  pose proof (gi_join _ _ _ _ I) as Hj. pose proof (gi_end _ _ _ _ I) as He.
  cbn [mt_abs g_main g_workers] in Hj, He, Hg. destruct (mw_main w) as [| |t0|t0 k|t0 t1 k cs|t0 t1 cs]; cbn; try by (split; [lia|]).
  - split; [|done]. destruct (Hj t0 k eq_refl) as [_ Ha]. destruct (decide (t < k)%nat) as [Hk|]; [|lia].
    specialize (Ha t Hk). congruence.
  - specialize (He t0 t1 eq_refl t Hlt). congruence.
  - specialize (He t0 t1 eq_refl t Hlt). congruence.
Qed.

Lemma mem_init_ok : mem [mkStore 0 view_bot] [mkStore 0 view_bot] (built <$> (buf_of T recs <$> seq 0 T))
  (replicate T (built 0)) WmSpawn main_view [].
Proof using.
  clear HT. assert (Hb : view_ok 1 1 view_bot) by (apply view_ok_bot; lia).
  assert (Hh : ghist_ok 1 1 [mkStore 0 (view_bot : GView)]).
  { split; [|by apply Forall_singleton]. intros n s Hn. apply list_lookup_singleton_Some in Hn as [-> <-]. done. }
  split; cbn [length]; try done.
  - split; [by apply view_ok_tick|]. unfold knows, main_view. rewrite tick_clk. lia.
  - by rewrite !length_fmap, length_seq.
  - intros t c. rewrite !list_lookup_fmap. rewrite fmap_Some. intros (b&Hb'&->).
    apply fmap_Some in Hb' as (i&Hi&->). apply lookup_seq in Hi as [-> _]. done.
  - intros t c [-> _]%lookup_replicate. by split.
  - intros t c Ht. cbn in Ht. lia.
Qed.

Lemma mt_init_sim : sim (mt_weak_init T recs).
Proof using.
  clear HT. split; [|apply mem_init_ok].
  unfold mt_abs. cbn. rewrite fmap_replicate. apply gate_start.
Qed.

Definition good_step (w : MtWeak) (o : option MtWeak) : Prop :=
  ∃ w', o = Some w' ∧ sim w' ∧ ((mt_cost w' < mt_cost w)%nat ∨ mt_spin w w').

(** *** The main thread *)

Lemma spawn_good rd go shs ss mv ws :
  sim (mkMtWeak rd go shs ss WmSpawn mv ws) → (length ws < T)%nat →
  good_step (mkMtWeak rd go shs ss WmSpawn mv ws) (Some (mkMtWeak rd go shs ss WmSpawn mv (ws ++ [(WNew, mv)]))).
Proof using HT.
  intros S Hl. eexists. split; [reflexivity|]. apply sim_gate; [done| |done|].
  - unfold mt_abs. cbn. rewrite fmap_app. apply gs_spawn. by rewrite length_fmap.
  - destruct (ms_mem _ _ _ _ S) as [M1 M2 M3 M4 M5 M6 M7 M8 M9]. cbn in *. split; try done.
    + intros t pc v. rewrite lookup_app_Some. intros [Ht|[_ Ht]]; [by eapply M4|].
      apply list_lookup_singleton_Some in Ht as [_ [= <- <-]]. done.
    + intros t c Hc. specialize (M7 t c Hc). destruct (Nat.lt_trichotomy t (length ws)) as [Hlt|[->|Hgt]].
      * by rewrite lookup_app_l.
      * rewrite lookup_app_r, Nat.sub_diag by lia. by rewrite lookup_ge_None_2 in M7.
      * rewrite lookup_ge_None_2 in M7 by lia. rewrite lookup_ge_None_2; [done|]. rewrite length_app. cbn. lia.
Qed.

Lemma spawned_good rd go shs ss mv ws :
  sim (mkMtWeak rd go shs ss WmSpawn mv ws) → length ws = T →
  good_step (mkMtWeak rd go shs ss WmSpawn mv ws) (Some (mkMtWeak rd go shs ss WmWait mv ws)).
Proof using HT.
  intros S Hl. pose proof (ms_mem _ _ _ _ S) as M. eexists. split; [reflexivity|]. apply sim_gate; [done| |done|].
  - apply gs_spawned. by rewrite length_fmap.
  - eapply mem_main; [exact M|done|apply M|cbn; lia|done].
Qed.

Lemma wait_good rd go shs ss mv ws n r mv' t0 :
  sim (mkMtWeak rd go shs ss WmWait mv ws) → load (ready_load ord) LReady n rd mv = Some (r, mv') →
  good_step (mkMtWeak rd go shs ss WmWait mv ws)
    (Some (mkMtWeak rd go shs ss (if r <? Z.of_nat T then WmWait else WmGo t0) mv' ws)).
Proof using HT.
  intros S Hld. pose proof (ms_mem _ _ _ _ S) as M. cbn in M. destruct (mo_main _ _ _ _ _ _ _ _ _ M) as [Hv _].
  destruct (load_ready_ok _ _ _ _ _ _ _ Hld (mo_ready _ _ _ _ _ _ _ _ _ M) Hv) as (Hv'&->&Hn).
  assert (M' : ∀ m, n_joined T m = 0%nat → cs_ok T ss m → mem rd go shs ss m mv' ws).
  { intros m Hj Hcs. eapply mem_main; [exact M|by eapply load_le|done|rewrite Hj; lia|done]. }
  eexists. split; [reflexivity|]. destruct (Z.ltb_spec (Z.of_nat n) (Z.of_nat T)).
  - apply sim_stutter; [done|done|by right|by apply M'].
  - apply sim_gate; [done| |done|by apply M']. apply gs_all_ready. cbn. lia.
Qed.

Lemma go_length w : sim w → (1 ≤ length (mw_go w))%nat ∧
  (gate_open (abs_main (mw_main w)) = false → length (mw_go w) = 1%nat).
Proof using HT.
  intros S. destruct (mo_main _ _ _ _ _ _ _ _ _ (ms_mem _ _ _ _ S)) as [[_ Hg] _].
  pose proof (gi_go _ _ _ _ (sim_inv w S)) as H. cbn in H. split; [lia|].
  intros Ho. rewrite Ho in H. apply bool_decide_eq_false in H. lia.
Qed.

Lemma open_good rd go shs ss mv ws t0 go' mv' :
  sim (mkMtWeak rd go shs ss (WmGo t0) mv ws) → store (go_store ord) LGo 1 go mv = (go', mv') →
  good_step (mkMtWeak rd go shs ss (WmGo t0) mv ws) (Some (mkMtWeak rd go' shs ss (WmJoin t0 0) mv' ws)).
Proof using HT.
  intros S [= <- <-]. pose proof (ms_mem _ _ _ _ S) as M. cbn in M. destruct (mo_main _ _ _ _ _ _ _ _ _ M) as [Hv _].
  destruct (go_length _ S) as [_ Hg]. specialize (Hg eq_refl). cbn in Hg.
  assert (Hl : length (go ++ [mkStore 1 (if releases (go_store ord) then aware LGo (length go) mv
    else aware LGo (length go) view_bot)]) = 2%nat) by (rewrite length_app, Hg; done).
  assert (Hv2 : view_ok (length rd) 2 (aware LGo (length go) mv)).
  { apply view_ok_go; [|lia]. eapply gview_ok_mono; [exact Hv|done|lia]. }
  eexists. split; [reflexivity|]. apply sim_gate; [done| |done|].
  - unfold mt_abs. cbn [mw_main mw_ready mw_go mw_workers mw_sums abs_main]. rewrite Hl, Hg.
    rewrite bool_decide_false, bool_decide_true by lia. apply gs_open.
  - cbn [mw_ready mw_go mw_shards mw_sums mw_main mw_mv mw_workers].
    eapply (mem_main _ _ _ _ _ _ (WmGo t0) mv); [|apply aware_le|rewrite Hl; exact Hv2|cbn; lia|done].
    apply mem_go; [done|by rewrite Hg|]. rewrite Hg in *. cbn [s_view]. destruct (releases _); [done|].
    apply view_ok_go; [|lia]. apply view_ok_bot; [|lia]. destruct Hv. lia.
Qed.

Lemma join_good rd go shs ss mv ws t0 k v :
  sim (mkMtWeak rd go shs ss (WmJoin t0 k) mv ws) → (k < T)%nat → ws !! k = Some (WDone, v) →
  good_step (mkMtWeak rd go shs ss (WmJoin t0 k) mv ws) (Some (mkMtWeak rd go shs ss (WmJoin t0 (S k)) (mv ⊔ v) ws)).
Proof using HT.
  intros S Hk Hw. pose proof (ms_mem _ _ _ _ S) as M. cbn in M.
  eexists. split; [reflexivity|]. apply sim_gate; [done| |done|].
  - apply gs_join; [done|]. cbn [mw_workers]. by rewrite list_lookup_fmap, Hw.
  - eapply mem_main; [exact M|apply view_join_l| | |done].
    + apply view_ok_join; [apply M|]. by eapply (mo_workers _ _ _ _ _ _ _ _ _ M).
    + intros t c Ht Hc. cbn in Ht |- *. destruct (decide (t = k)) as [->|Hne].
      * pose proof (mo_sums _ _ _ _ _ _ _ _ _ M k c Hc) as [_ H]. rewrite Hw in H. destruct H as [-> H]. lia.
      * assert (c_wc c ≤ v_clk mv (c_wt c))%nat; [|lia]. apply (mo_joined _ _ _ _ _ _ _ _ _ M t c); [cbn; lia|done].
Qed.

Lemma joined_good rd go shs ss mv ws t0 t1 :
  sim (mkMtWeak rd go shs ss (WmJoin t0 T) mv ws) →
  good_step (mkMtWeak rd go shs ss (WmJoin t0 T) mv ws) (Some (mkMtWeak rd go shs ss (WmSum t0 t1 0 0) mv ws)).
Proof using HT.
  intros S. pose proof (ms_mem _ _ _ _ S) as M. cbn in M. eexists. split; [reflexivity|].
  apply sim_gate; [done|apply gs_joined|cbn; lia|].
  eapply mem_main; [exact M|done|apply M|apply M|]. cbn. split; [lia|done].
Qed.

Lemma sum_good rd go shs ss mv ws t0 t1 k cs :
  sim (mkMtWeak rd go shs ss (WmSum t0 t1 k cs) mv ws) → (k < T)%nat →
  good_step (mkMtWeak rd go shs ss (WmSum t0 t1 k cs) mv ws)
    ('(x, ss', mv') ← read_sum k ss mv; Some (mkMtWeak rd go shs ss' (WmSum t0 t1 (S k) (Z.lxor cs x)) mv' ws)).
Proof using HT.
  intros S Hk. pose proof (ms_mem _ _ _ _ S) as M. cbn in M.
  pose proof (gi_end _ _ _ _ (sim_inv _ S) t0 t1 eq_refl k Hk) as Hd. cbn in Hd.
  apply worker_view in Hd as [v Hw].
  destruct (read_sum_ok T recs _ _ _ _ _ _ _ _ _ _ M Hk (sums_length _ S)) as (x&ss'&->&Hval&M').
  { by rewrite Hw. }
  { intros pc v'. rewrite Hw. by intros [= <- _]. }
  cbn [mbind option_bind]. eexists. split; [reflexivity|].
  apply sim_stutter; [done| |left; cbn; lia|exact M']. unfold mt_abs. cbn. by rewrite Hval.
Qed.

Lemma end_good rd go shs ss mv ws t0 t1 cs :
  sim (mkMtWeak rd go shs ss (WmSum t0 t1 T cs) mv ws) →
  good_step (mkMtWeak rd go shs ss (WmSum t0 t1 T cs) mv ws) (Some (mkMtWeak rd go shs ss (WmEnd t0 t1 cs) mv ws)).
Proof using HT.
  intros S. pose proof (ms_mem _ _ _ _ S) as M. cbn in M. eexists. split; [reflexivity|].
  apply sim_stutter; [done|done|left; cbn; lia|].
  eapply mem_main; [exact M|done|apply M|apply M|]. cbn. destruct (mo_cs _ _ _ _ _ _ _ _ _ M) as [_ ->].
  rewrite take_ge; [done|]. rewrite length_fmap. pose proof (sums_length _ S) as Hl. cbn in Hl. lia.
Qed.

(** *** The workers *)

Ltac fields := cbn [mw_ready mw_go mw_shards mw_sums mw_main mw_mv mw_workers].

Lemma ready_last w : sim w →
  ∃ s, mw_ready w !! pred (length (mw_ready w)) = Some s ∧ s_val s = Z.of_nat (length (mw_ready w)) - 1 ∧
    view_ok (length (mw_ready w)) (length (mw_go w)) (s_view s).
Proof using.
  clear HT. intros S. pose proof (ms_mem _ _ _ _ S) as M.
  destruct (mo_main _ _ _ _ _ _ _ _ _ M) as [[Hr _] _]. destruct (mo_ready _ _ _ _ _ _ _ _ _ M) as [H1 H2].
  destruct (lookup_lt_is_Some_2 (mw_ready w) (pred (length (mw_ready w)))) as [s Hs]; [lia|].
  exists s. split; [done|]. split; [rewrite (H1 _ s Hs); lia|]. by eapply (Forall_lookup_1 _ _ _ _ H2 Hs).
Qed.

Lemma arrive_good rd go shs ss m mv ws t v old rd' v' :
  sim (mkMtWeak rd go shs ss m mv ws) → ws !! t = Some (WNew, v) →
  fetch_modify (ready_add ord) LReady (λ r, u32 (r + 1)) rd v = Some (old, rd', v') →
  good_step (mkMtWeak rd go shs ss m mv ws) (Some (mkMtWeak rd' go shs ss m mv (<[t := (WGate, v')]> ws))).
Proof using HT.
  intros Sm Ht Hf. pose proof (ms_mem _ _ _ _ Sm) as M. destruct (ready_last _ Sm) as (s&Hs&Hval&Hsv).
  destruct (worker_bound _ t WNew v Sm Ht) as [Hlt Hg]. pose proof (ready_room T passes recs HT _ t (sim_inv _ Sm) Hg) as Hr.
  cbn in M, Hs, Hval, Hsv, Hr. destruct (mo_workers _ _ _ _ _ _ _ _ _ M t _ _ Ht) as [Hv Hk].
  unfold fetch_modify in Hf. rewrite Hs in Hf. cbn [mbind option_bind] in Hf. injection Hf as <- <- <-.
  rewrite Hval, Hr. set (v' := aware LReady (length rd) (if acquires (ready_add ord) then v ⊔ s_view s else v)).
  assert (Hv' : view_ok (S (length rd)) (length go) v').
  { apply view_ok_ready; [|lia]. eapply gview_ok_mono; [|apply Nat.le_succ_diag_r|done].
    destruct (acquires _); [by apply view_ok_join|done]. }
  assert (Hle : v ⊑ v').
  { etrans; [|apply aware_le]. destruct (acquires _); [apply view_join_l|done]. }
  set (s' := mkStore _ _).
  assert (Hl : length (rd ++ [s']) = S (length rd)) by (rewrite length_app; cbn; lia).
  eexists. split; [reflexivity|]. apply sim_gate; [done| |done|fields].
  - unfold mt_abs. fields. rewrite list_fmap_insert, Hl. cbn [fst].
    replace (Z.of_nat (S (length rd)) - 1) with (u32 (Z.of_nat (length rd) - 1 + 1)) by lia.
    apply gs_arrive. by rewrite list_lookup_fmap, Ht.
  - eapply mem_worker; [|exact Ht|done|done|by rewrite Hl|by eapply knows_mono].
    apply mem_ready; [done|unfold s'; cbn [s_val]; lia|]. unfold s'. cbn [s_view]. apply view_ok_join.
    + destruct (releases _); [done|]. apply view_ok_ready; [|lia]. apply view_ok_bot; [lia|]. destruct Hv. lia.
    + eapply gview_ok_mono; [exact Hsv|lia|done].
Qed.

Lemma gate_good rd go shs ss m mv ws t v n x v' :
  sim (mkMtWeak rd go shs ss m mv ws) → ws !! t = Some (WGate, v) → load (go_load ord) LGo n go v = Some (x, v') →
  good_step (mkMtWeak rd go shs ss m mv ws)
    (Some (mkMtWeak rd go shs ss m mv (<[t := (if x =? 0 then WGate else WPass passes 0, v')]> ws))).
Proof using HT.
  intros S Ht Hld. pose proof (ms_mem _ _ _ _ S) as M. cbn in M.
  destruct (mo_workers _ _ _ _ _ _ _ _ _ M t _ _ Ht) as [Hv Hk].
  destruct (load_go_ok _ _ _ _ _ _ _ Hld (mo_go _ _ _ _ _ _ _ _ _ M) Hv) as (Hv'&->&Hn).
  assert (M' : ∀ pc, pc ≠ WDone → mem rd go shs ss m mv (<[t := (pc, v')]> ws)).
  { intros pc Hd. eapply mem_worker; [exact M|exact Ht|done|done|done|]. eapply knows_mono; [exact Hk|by eapply load_le]. }
  eexists. split; [reflexivity|]. destruct (Z.eqb_spec (Z.of_nat n) 0).
  - assert (Hpc : (<[t := (WGate, v')]> ws).*1 = ws.*1).
    { rewrite list_fmap_insert. cbn [fst]. apply list_insert_id. by rewrite list_lookup_fmap, Ht. }
    apply sim_stutter; [done| |by right|by apply M']. unfold mt_abs. fields. by rewrite Hpc.
  - apply sim_gate; [done| |done|by apply M']. unfold mt_abs. fields. rewrite list_fmap_insert. cbn [fst].
    rewrite bool_decide_true by lia. apply gs_enter. by rewrite list_lookup_fmap, Ht.
Qed.

Lemma worker_local_in_pass b w : in_pass w = true →
  ∃ w', worker_local b w = Some w' ∧ w ≠ WDone ∧ w' ≠ WDone.
Proof using.
  clear HT. destruct w as [| |[|p] sum|p [|rec todo] v sum|]; try done; intros _; cbn; [by eauto..|].
  destruct (check _ v) as [r v']. by eauto.
Qed.

Lemma local_good rd go shs ss m mv ws t pc v :
  sim (mkMtWeak rd go shs ss m mv ws) → ws !! t = Some (pc, v) → in_pass pc = true →
  good_step (mkMtWeak rd go shs ss m mv ws)
    ('(b, shs', v') ← read_shard t shs v; w' ← worker_local b pc;
     Some (mkMtWeak rd go shs' ss m mv (<[t := (w', v')]> ws))).
Proof using HT.
  intros S Ht Hp. pose proof (ms_mem _ _ _ _ S) as M. cbn in M. destruct (worker_bound _ t pc v S Ht) as [Hlt _].
  destruct (worker_local_in_pass (buf_of T recs t) pc Hp) as (w'&Hw&Hd&Hd').
  destruct (read_shard_ok T recs _ _ _ _ _ _ _ _ _ _ M Ht Hlt Hd) as (shs'&->&M').
  cbn [mbind option_bind]. rewrite Hw. cbn [mbind option_bind]. eexists. split; [reflexivity|].
  apply sim_gate; [done| |done|by apply M']. unfold mt_abs. fields. rewrite list_fmap_insert. cbn [fst].
  eapply gs_local; [by rewrite list_lookup_fmap, Ht|done].
Qed.

Lemma store_good rd go shs ss m mv ws t sum v :
  sim (mkMtWeak rd go shs ss m mv ws) → ws !! t = Some (WPass 0 sum, v) →
  good_step (mkMtWeak rd go shs ss m mv ws)
    ('(ss', v') ← write_sum T t sum ss v; Some (mkMtWeak rd go shs ss' m mv (<[t := (WDone, v')]> ws))).
Proof using HT.
  intros S Ht. pose proof (ms_mem _ _ _ _ S) as M. cbn in M. destruct (worker_bound _ t _ v S Ht) as [Hlt _].
  destruct (worker_not_joined _ t _ v S Ht ltac:(done)) as [Hj Hcs].
  destruct (write_sum_ok T recs _ _ _ _ _ _ _ _ _ _ sum M Ht Hlt (sums_length _ S) ltac:(done) Hj Hcs)
    as (ss'&->&Hval&M').
  cbn [mbind option_bind]. eexists. split; [reflexivity|]. apply sim_gate; [done| |done|exact M'].
  unfold mt_abs. fields. rewrite list_fmap_insert, Hval. cbn [fst]. apply gs_store. by rewrite list_lookup_fmap, Ht.
Qed.

(** *** All steps *)

Lemma mt_step_good w o : sim w → mt_wstep T passes ord w o → good_step w o.
Proof using HT.
  intros S H. destruct H; eauto using spawn_good, spawned_good, arrive_good, wait_good, open_good, gate_good,
    local_good, store_good, join_good, joined_good, sum_good, end_good.
Qed.

Lemma mt_wreach_sim o : mt_wreach T passes recs ord o → ∃ w, o = Some w ∧ sim w.
Proof using HT.
  induction 1 as [|w o _ (w'&[= <-]&S) Hs]; [eexists; split; [done|apply mt_init_sim]|].
  destruct (mt_step_good w o S Hs) as (w''&->&S'&_). eauto.
Qed.

(** ** Every execution can be completed *)

Lemma step_local rd go shs ss m mv ws t w w' v :
  sim (mkMtWeak rd go shs ss m mv ws) → ws !! t = Some (w, v) → worker_local (buf_of T recs t) w = Some w' →
  ∃ shs' v', mt_wstep T passes ord (mkMtWeak rd go shs ss m mv ws)
    (Some (mkMtWeak rd go shs' ss m mv (<[t := (w', v')]> ws))).
Proof using HT.
  intros Sm Hw Hl. assert (Hp : in_pass w = true) by (by destruct w as [| |[|p] sum|p [|rec todo] v' sum|]).
  destruct (worker_bound _ t w v Sm Hw) as [Hlt _]. pose proof (ms_mem _ _ _ _ Sm) as M. cbn in M.
  destruct (worker_local_in_pass (buf_of T recs t) w Hp) as (_&_&Hd&_).
  destruct (read_shard_ok T recs _ _ _ _ _ _ _ _ _ _ M Hw Hlt Hd) as (shs'&Hrd&_).
  pose proof (mw_local T passes ord rd go shs ss m mv ws t w v Hw Hp) as H.
  rewrite Hrd in H. cbn [mbind option_bind] in H. rewrite Hl in H. eauto.
Qed.

Lemma step_store rd go shs ss m mv ws t sum v :
  sim (mkMtWeak rd go shs ss m mv ws) → ws !! t = Some (WPass 0 sum, v) →
  ∃ ss' v', mt_wstep T passes ord (mkMtWeak rd go shs ss m mv ws)
    (Some (mkMtWeak rd go shs ss' m mv (<[t := (WDone, v')]> ws))) ∧ c_val <$> ss' = <[t := sum]> (c_val <$> ss).
Proof using HT.
  intros Sm Hw. destruct (worker_bound _ t _ v Sm Hw) as [Hlt _]. pose proof (ms_mem _ _ _ _ Sm) as M. cbn in M.
  destruct (worker_not_joined _ t _ v Sm Hw ltac:(done)) as [Hj Hcs].
  destruct (write_sum_ok T recs _ _ _ _ _ _ _ _ _ _ sum M Hw Hlt (sums_length _ Sm) ltac:(done) Hj Hcs)
    as (ss'&Hwr&Hval&_).
  pose proof (mw_store T passes ord rd go shs ss m mv ws t sum v Hw) as H. rewrite Hwr in H. eauto.
Qed.

(** Each step of the interleaving model is possible, the loads returning the latest store. *)
Lemma mt_lift w g' : sim w → gstep (mt_abs w) g' → ∃ w', mt_wstep T passes ord w (Some w') ∧ mt_abs w' = g'.
Proof using HT.
  intros Sm Hs. destruct w as [rd go shs ss m mv ws]. pose proof (ms_mem _ _ _ _ Sm) as M. cbn in M.
  pose proof (go_length _ Sm) as [_ Hgo]. cbn in Hgo. remember (mt_abs _) as g eqn:Hg.
  destruct Hs as [r go' ws' ss' Hl|r go' ws' ss' Hl|m' r go' ws' ss' t Hw|r go' ws' ss' t0 Hr|r go' ws' ss' t0
    |m' r ws' ss' t Hw|m' r go' ws' ss' t w w' Hw Hl|m' r go' ws' ss' t sum Hw|r go' ws' ss' t0 k Hk Hw|r go' ws' ss' t0 t1];
    unfold mt_abs in Hg; cbn in Hg; injection Hg as Hm Hr' Hgo' -> ->; subst r; try subst go'; try subst m'.
  - destruct m; try done. rewrite length_fmap in Hl. eexists. split; [by apply mw_spawn|].
    unfold mt_abs. fields. by rewrite fmap_app.
  - destruct m; try done. rewrite length_fmap in Hl. eexists. split; [by apply mw_spawned|done].
  - apply worker_view in Hw as [v Hw].
    destruct (ready_last _ Sm) as (s&Hs&Hval&_). cbn in Hs, Hval.
    eexists. split; [eapply mw_arrive; [exact Hw|]; unfold fetch_modify; rewrite Hs; reflexivity|].
    unfold mt_abs. fields. rewrite list_fmap_insert, length_app. cbn [fst length]. f_equal.
    pose proof (ready_room T passes recs HT _ t (sim_inv _ Sm)) as Hr. cbn in Hr. rewrite Hr; [lia|].
    by rewrite list_lookup_fmap, Hw.
  - destruct m; try done. destruct (mo_main _ _ _ _ _ _ _ _ _ M) as [[Hv _] _].
    destruct (load_latest (ready_load ord) LReady rd mv Hv) as (s&mv'&Hs&Hld).
    destruct (mo_ready _ _ _ _ _ _ _ _ _ M) as [Hval _]. rewrite (Hval _ s Hs) in Hld.
    eexists. split; [exact (mw_wait _ _ _ _ _ _ _ _ _ _ _ _ t0 Hld)|]. unfold mt_abs. fields.
    destruct (Z.ltb_spec (Z.of_nat (pred (length rd))) (Z.of_nat T)); [lia|done].
  - destruct m as [| |t0'|t0' k'|t0' t1' k' cs'|t0' t1' cs']; try done. injection Hm as <-.
    eexists. split; [apply mw_open; reflexivity|]. unfold mt_abs. fields. f_equal.
    rewrite length_app, (Hgo eq_refl). by apply bool_decide_eq_true.
  - apply worker_view in Hw as [v Hw].
    destruct (mo_workers _ _ _ _ _ _ _ _ _ M t _ _ Hw) as [[_ Hv] _].
    destruct (load_latest (go_load ord) LGo go v Hv) as (s&v'&Hs&Hld).
    destruct (mo_go _ _ _ _ _ _ _ _ _ M) as [Hval _]. rewrite (Hval _ s Hs) in Hld.
    eexists. split; [eapply mw_gate; [exact Hw|exact Hld]|]. symmetry in Hgo'. pose proof Hgo' as H2.
    apply bool_decide_eq_true in H2. unfold mt_abs. fields. rewrite list_fmap_insert, Hgo'. cbn [fst].
    destruct (Z.eqb_spec (Z.of_nat (pred (length go))) 0); [lia|done].
  - apply worker_view in Hw as [v Hw].
    destruct (step_local _ _ _ _ _ _ _ _ _ _ _ Sm Hw Hl) as (shs'&v'&H). eexists. split; [exact H|].
    unfold mt_abs. fields. by rewrite list_fmap_insert.
  - apply worker_view in Hw as [v Hw].
    destruct (step_store _ _ _ _ _ _ _ _ _ _ Sm Hw) as (ss'&v'&H&Hval). eexists. split; [exact H|].
    unfold mt_abs. fields. by rewrite list_fmap_insert, Hval.
  - destruct m as [| |t0'|t0' k'|t0' t1' k' cs'|t0' t1' cs']; try done. injection Hm as <- <-.
    apply worker_view in Hw as [v Hw].
    eexists. split; [by eapply mw_join|done].
  - destruct m as [| |t0'|t0' k'|t0' t1' k' cs'|t0' t1' cs']; try done. injection Hm as <- <-.
    eexists. split; [apply (mw_joined _ _ _ _ _ _ _ _ _ _ t1)|done].
Qed.

Definition mt_ended (w : MtWeak) : Prop := ∃ t0 t1 cs, mw_main w = WmEnd t0 t1 cs.

Lemma mt_advance w : sim w → mt_ended w ∨
  ∃ w', mt_wstep T passes ord w (Some w') ∧ sim w' ∧ (mt_cost w' < mt_cost w)%nat.
Proof using HT.
  intros Sm. destruct (gate_progress T passes recs _ (sim_inv w Sm)) as [(t0&t1&Hm)|[g' Hg]].
  - destruct w as [rd go shs ss m mv ws]. cbn in Hm.
    destruct m as [| | | |t0' t1' k cs|t0' t1' cs]; try done; [right|left; by repeat eexists].
    destruct (mo_cs _ _ _ _ _ _ _ _ _ (ms_mem _ _ _ _ Sm)) as [Hk _]. destruct (decide (k = T)) as [->|Hne].
    + destruct (end_good _ _ _ _ _ _ _ _ _ Sm) as (w'&[= <-]&S'&_). eexists. split; [apply mw_end|].
      split; [done|]. unfold mt_cost. cbn. lia.
    + assert (Hlt : (k < T)%nat) by lia. destruct (sum_good _ _ _ _ _ _ _ _ _ _ Sm Hlt) as (w'&E&S'&Hc).
      pose proof (mw_sum T passes ord rd go shs ss mv ws t0' t1' k cs Hlt) as H. rewrite E in H.
      exists w'. split; [done|]. split; [done|]. destruct Hc as [Hc|Hsp]; [done|exfalso].
      destruct (read_sum k ss mv) as [[[x ss'] mv']|]; [|done]. injection E as <-.
      destruct Hsp as (_&_&_&_&Hm'&_). cbn in Hm'. injection Hm' as Hk' _. lia.
  - right. destruct (mt_lift w g' Sm Hg) as (w'&Hs&<-). exists w'. split; [done|].
    destruct (mt_step_good w _ Sm Hs) as (w''&[= <-]&S'&[Hc|Hsp]); [done|exfalso].
    pose proof (gate_step_cost T passes recs _ _ (sim_inv w Sm) Hg) as Hlt. rewrite (spin_abs _ _ Hsp) in Hlt. lia.
Qed.

Lemma mt_complete w : sim w →
  ∃ w', rtc (λ a b, mt_wstep T passes ord a (Some b)) w w' ∧ sim w' ∧ mt_ended w'.
Proof using HT.
  remember (mt_cost w) as n eqn:Hn. revert w Hn. induction (lt_wf n) as [n _ IH]. intros w -> Sm.
  destruct (mt_advance w Sm) as [He|(w'&Hs&S'&Hc)]; [by exists w|].
  destruct (IH _ Hc w' eq_refl S') as (w''&Hr&S''&He). exists w''. split; [|done]. by eapply rtc_l.
Qed.

(** What the run ends with. *)
Lemma mt_result w t0 t1 cs : sim w → mw_main w = WmEnd t0 t1 cs →
  cs = xor_sums (checksums (Z.of_nat T) passes recs).
Proof using HT.
  intros Sm Hm. pose proof (mo_cs _ _ _ _ _ _ _ _ _ (ms_mem _ _ _ _ Sm)) as H. rewrite Hm in H. cbn in H.
  rewrite H. f_equal. apply (gate_final T passes recs (mt_abs w) t0 t1); [by apply sim_inv|]. cbn. by rewrite Hm.
Qed.

End Sim.

(** ** The properties *)

(** C15: The threads of [replay_bench_mt] under the C++ memory model, whatever the orders of
    the accesses to [ready] and [go]: no execution has a data race or leaves a vector,
    since thread creation and joining order all accesses to the shards and the checksums;
    every execution is one of the interleaving model; and the start gate works: as soon
    as one worker has passed it, the clock has been read and the gate opened, and all
    [T] workers had been spawned and had arrived, so that neither the spawning nor the
    partition is inside the timed region. *)
Theorem mt_weak_memory_safe T passes recs ord o :
  Z.of_nat T < 2 ^ 32 → mt_wreach T passes recs ord o →
  ∃ w, o = Some w ∧ gate_reachable T passes recs (mt_abs w) ∧
    ∀ t pc v, mw_workers w !! t = Some (pc, v) → started pc = true →
      gate_open (abs_main (mw_main w)) = true ∧ length (mw_workers w) = T ∧
      Forall (λ pv, is_new pv.1 = false) (mw_workers w).
Proof.
  intros HT Hr. destruct (mt_wreach_sim T passes recs ord HT o Hr) as (w&->&Sm). exists w. split; [done|].
  split; [apply Sm|]. intros t pc v Hw Hs.
  destruct (mt_start_gate T passes recs (mt_abs w) t pc HT (ms_reach _ _ _ _ Sm)) as (H1&_&H2&H3);
    [cbn; by rewrite list_lookup_fmap, Hw|done|].
  cbn in H1, H2, H3. rewrite length_fmap in H2. rewrite Forall_fmap in H3. done.
Qed.

(** C14: Every run of [replay_bench_mt] ends, and ends right, under the C++ memory model:
    from every state its threads can reach it can be completed, so no schedule and no
    stale load leads to a deadlock; every step uses up one of the finitely many steps
    left or is a spin of the gate that changes nothing but what the thread knows; and at
    the end the value the main thread has folded is that of the checksums of the
    sequential workers over their shards. *)
Theorem mt_weak_terminates T passes recs ord w :
  Z.of_nat T < 2 ^ 32 → mt_wreach T passes recs ord (Some w) →
  (∃ w', rtc (λ a b, mt_wstep T passes ord a (Some b)) w w' ∧ mt_ended w') ∧
  (∀ w', mt_wstep T passes ord w (Some w') →
     (mt_cost T passes recs w' < mt_cost T passes recs w)%nat ∨ mt_spin w w') ∧
  (∀ t0 t1 cs, mw_main w = WmEnd t0 t1 cs → cs = xor_sums (checksums (Z.of_nat T) passes recs)).
Proof.
  intros HT Hr. destruct (mt_wreach_sim T passes recs ord HT _ Hr) as (w0&[= <-]&Sm). split; [|split].
  - destruct (mt_complete T passes recs ord HT w Sm) as (w'&H&_&He). eauto.
  - intros w' Hs. by destruct (mt_step_good T passes recs ord HT w _ Sm Hs) as (w''&[= <-]&_&Hc).
  - intros t0 t1 cs. by apply mt_result.
Qed.

(** ** Witnesses: one worker past the gate *)

Lemma demo_weak_gate :
  ∃ w v, mt_wreach 1 2 [published 10] gate_orders (Some w) ∧ mw_workers w !! 0%nat = Some (WPass 2 0, v).
Proof.
  pose proof (mt_wreach_init 1 2 [published 10] gate_orders) as H. unfold mt_weak_init in H.
  eapply mt_wreach_step in H; [|apply mw_spawn; cbn; lia].
  eapply mt_wreach_step in H; [|apply mw_spawned; reflexivity].
  eapply mt_wreach_step in H; [|eapply (mw_arrive _ _ _ _ _ _ _ _ _ _ 0); reflexivity].
  eapply mt_wreach_step in H; [|eapply (mw_wait _ _ _ _ _ _ _ _ _ 1 _ _ 5); reflexivity].
  eapply mt_wreach_step in H; [|eapply mw_open; reflexivity].
  eapply mt_wreach_step in H; [|eapply (mw_gate _ _ _ _ _ _ _ _ _ _ 0 _ 1); reflexivity].
  eexists _, _. split; [exact H|reflexivity].
Qed.

Lemma mt_weak_memory_safe_witness :
  ∃ w v, mt_wreach 1 2 [published 10] gate_orders (Some w) ∧ mw_workers w !! 0%nat = Some (WPass 2 0, v) ∧
    gate_open (abs_main (mw_main w)) = true ∧ length (mw_workers w) = 1%nat.
Proof.
  destruct demo_weak_gate as (w&v&Hr&Hw). exists w, v. split; [exact Hr|]. split; [exact Hw|].
  destruct (mt_weak_memory_safe 1 2 [published 10] gate_orders (Some w) ltac:(lia) Hr) as (w'&E&_&H).
  injection E as <-. destruct (H 0%nat _ v Hw eq_refl) as (H1&H2&_). split; [exact H1|exact H2].
Defined.

Lemma mt_weak_terminates_witness :
  ∃ w', rtc (λ a b, mt_wstep 2 3 gate_orders a (Some b)) (mt_weak_init 2 [published 10]) w' ∧ mt_ended w'.
Proof.
  apply (mt_weak_terminates 2 3 [published 10] gate_orders); [lia|apply mt_wreach_init].
Defined.
