(* ===== verification/SpscBenchProofs.v ===== *)
(** * replay_bench_spsc: no deadlock, nothing lost, sound figures

    Every execution of the two threads can be completed and hands over every item
    once and in order; the validating pipeline computes what one thread would; the
    reported medians are medians. *)

From stdpp Require Import base numbers list list_numbers sorting gmap strings relations.
From Stdlib Require Import ZArith Lia.
From S2P Require Import Prelude Float64 Runtime Clock Wire Replay Validator ValidatorTable ValidatorProps.
From S2P Require Import Util UtilProofs Arbitrator ArbitratorProofs ArbitratorSessions.
From S2P Require Import Harness HarnessProofs Pipeline ReplayMain ReplayMainProofs SpscRing SpscRingProofs SpscProgram SpscBench.

Local Open Scope Z_scope.

(** ** The order of the rates *)

#[export] Instance dle_total : Total dle.
Proof.
  intros x y. unfold dle. destruct (is_nan x) eqn:Hx; [by right; left|].
  destruct (is_nan y) eqn:Hy; [by left; left|].
  destruct (flt_trichotomy x y Hx Hy) as [H|[H|H]]; rewrite !fle_iff; rewrite ?(feq_sym y x); tauto.
Qed.

#[export] Instance dle_trans : Transitive dle.
Proof.
  intros x y z. unfold dle. intros [Hy|Hxy] [Hz|Hyz]; [by left|..|right].
  - by destruct y.
  - by left.
  - rewrite fle_iff in Hxy, Hyz |- *. destruct Hxy as [Hxy|Hxy], Hyz as [Hyz|Hyz].
    + left. by eapply flt_trans.
    + left. by rewrite <- (feq_flt_r y z x).
    + left. by rewrite (feq_flt_l x y z).
    + right. by eapply feq_trans.
Qed.

Lemma throughput_sign total t0 t1 : is_u64 total → has_sign false (rate_of total t0 t1).
Proof.
  intros Ht. unfold rate_of. cbn zeta. destruct (fgt _ _) eqn:E; [|done]. by apply rate_sign.
Qed.

Lemma sign_not_nan x : has_sign false x → is_nan x = false.
Proof. by destruct x. Qed.

(** ** Regime 1 *)

Lemma process_sink {T} (image : T → list byte) k items sink :
  is_u64 sink →
  process (sink_body image) k items sink = u64 (sink + zsum ((λ xo, first_byte (image xo.1)) <$> items)).
Proof.
  revert k sink. induction items as [|[x occ] items IH]; intros k sink Hs.
  { cbn. by rewrite Z.add_0_r, u64_small. }
  cbn [process fmap list_fmap zsum foldr fst]. fold (zsum ((λ xo, first_byte (image xo.1)) <$> items)).
  unfold sink_body at 2. rewrite IH by auto with u64. unfold u64_add. rewrite u64_add_u64_l. f_equal. lia.
Qed.

(** ** Regime 2 *)

Lemma process_pipe cast tpns now k items c :
  process (pipe_body cast tpns now) k items c =
  consume cast tpns (imap (λ i xo, (xo.1, (now (k + i)%nat, xo.2))) items) c.
Proof.
  unfold consume. revert k c. induction items as [|[x occ] items IH]; intros k c; [done|].
  cbn [process]. rewrite imap_cons. cbn [foldl fst snd]. rewrite Nat.add_0_r, IH.
  unfold pipe_body. f_equal. apply imap_ext. intros i y _. cbn. do 3 f_equal. lia.
Qed.

Lemma consume_occupancy cast tpns items c :
  is_u64 (occupancy_sum c) →
  occupancy_sum (consume cast tpns items c) = u64 (occupancy_sum c + zsum ((λ it, it.2.2) <$> items)).
Proof.
  unfold consume. revert c. induction items as [|[s [now occ]] items IH]; intros c Hc.
  { cbn. by rewrite Z.add_0_r, u64_small. }
  cbn [foldl fst snd fmap list_fmap zsum foldr]. fold (zsum ((λ it : Stamped * (Z * Z), it.2.2) <$> items)).
  assert (Ho : occupancy_sum (consume_one cast tpns s now occ c) = occupancy_sum c +u occ).
  { unfold consume_one. destruct (if now <? _ then _ else _) as [a h]. by destruct (validate_one _ _). }
  rewrite IH, Ho; [|rewrite Ho; auto with u64]. unfold u64_add. rewrite u64_add_u64_l. f_equal. lia.
Qed.

Lemma zsum_bound l cap : Forall (λ o, 0 <= o <= cap) l → 0 <= zsum l <= Z.of_nat (length l) * cap.
Proof.
  induction 1 as [|o l Ho _ IH]; [done|]. unfold zsum in *. cbn [foldr length].
  rewrite Nat2Z.inj_succ. nia.
Qed.

Lemma stamped_items_recs passes recs tsc : st_rec <$> stamped_items passes recs tsc = produced passes recs.
Proof.
  unfold stamped_items. generalize (produced passes recs). intros l. revert tsc.
  induction l as [|r l IH]; intros tsc; [done|]. rewrite imap_cons. cbn [fmap list_fmap st_rec]. f_equal.
  apply (IH (λ i, tsc (S i))).
Qed.

Lemma stamped_items_length passes recs tsc : length (stamped_items passes recs tsc) = length (produced passes recs).
Proof. by rewrite <- (stamped_items_recs passes recs tsc), length_fmap. Qed.

(** What the pipeline's consumer holds after processing the items. *)
Lemma pipe_result cast tpns now passes recs tsc occs :
  let items := stamped_items passes recs tsc in
  length occs = length items → Forall (λ o, 0 <= o <= kRingCapacity) occs →
  let c := process (pipe_body cast tpns now) 0 (zip items occs) pipe_init in
  let run := check_all (msgs (produced passes recs)) validator_init in
  pc_validator c = run.2 ∧ pc_checksum c = u64 (flag_sum run.1) ∧
  u64 (tsc_anomalies c + count_ (pc_hist c)) = u64 (Z.of_nat (length items)) ∧
  (kRingCapacity * Z.of_nat (length items) < 2 ^ 64 →
   0 <= occupancy_sum c <= kRingCapacity * Z.of_nat (length items)).
Proof.
  intros items Hl Ho c run. subst c. rewrite process_pipe.
  set (l := imap _ (zip items occs)).
  assert (Hfst : l.*1 = items).
  { unfold l. rewrite <- (fst_zip items occs) at 2 by lia. clear. generalize (zip items occs). intros z.
    generalize 0%nat. induction z as [|x z IH]; intros k; [done|]. rewrite imap_cons, fmap_cons. cbn [fst].
    rewrite fmap_cons. f_equal. rewrite <- (IH (S k)) at 1. f_equal. apply imap_ext. intros; cbn. do 3 f_equal. lia. }
  assert (Hocc : (λ it, it.2.2) <$> l = occs).
  { unfold l. rewrite <- (snd_zip items occs) at 2 by lia. clear. generalize (zip items occs). intros z.
    generalize 0%nat. induction z as [|x z IH]; intros k; [done|]. rewrite imap_cons, fmap_cons. cbn [snd].
    rewrite fmap_cons. f_equal. rewrite <- (IH (S k)) at 1. f_equal. apply imap_ext. intros; cbn. do 3 f_equal. lia. }
  assert (Hlen : length l = length items) by (by rewrite <- (length_fmap fst l), Hfst).
  destruct (consume_checksum cast tpns l pipe_init) as [Hv Hs]; [done|].
  destruct (consume_samples cast tpns l pipe_init) as [Ha Hh]; [done|done|].
  cbn zeta in *. rewrite Hfst in Hv, Hs. unfold items in Hv, Hs. rewrite stamped_items_recs in Hv, Hs.
  fold run in Hv, Hs. split; [done|]. split; [by rewrite Hs|]. split.
  - rewrite Ha, Hh, u64_add_u64_l, u64_add_u64_r. f_equal.
    cbn [pipe_init tsc_anomalies pc_hist hist_init count_]. lia.
  - intros Hb. rewrite consume_occupancy by done. rewrite Hocc. cbn [pipe_init occupancy_sum]. rewrite Z.add_0_l.
    pose proof (zsum_bound occs kRingCapacity Ho) as Hz. rewrite Hl in Hz.
    rewrite u64_small by (unfold is_u64; lia). lia.
Qed.

(** The validating pipeline, once both loops have ended. *)
Lemma pipeline_sequential cast tpns now passes recs tsc p :
  let items := stamped_items passes recs tsc in
  let total := Z.of_nat (length items) in
  kRingCapacity * total < 2 ^ 64 →
  prog_reachable kRingCapacity false true (pipe_body cast tpns now) total items pipe_init (Some p) →
  finished total p →
  let run := check_all (msgs (produced passes recs)) validator_init in
  pc_validator (acc (p_client p)) = run.2 ∧ pc_checksum (acc (p_client p)) = u64 (flag_sum run.1) ∧
  u64 (tsc_anomalies (acc (p_client p)) + count_ (pc_hist (acc (p_client p)))) = u64 total ∧
  0 <= occupancy_sum (acc (p_client p)) <= kRingCapacity * total.
Proof.
  intros items total Hb Hr Hf run.
  destruct (finished_result kRingCapacity false true (pipe_body cast tpns now) total items pipe_init
    eq_refl ltac:(unfold kRingCapacity; lia) eq_refl ltac:(unfold kRingCapacity in Hb; lia) p Hr Hf)
    as (occs&Hl&Ho&->).
  destruct (pipe_result cast tpns now passes recs tsc occs Hl Ho) as (?&?&?&Hocc). by auto.
Qed.

(** The median of five rates is one of them, at least three of them are not above it
    and at least three not below it. *)
Definition is_median (rates : list double) (m : double) : Prop :=
  m ∈ rates ∧ 3 <= countb (λ r, fle r m) rates ∧ 3 <= countb (λ r, fle m r) rates.

Lemma median_rate_sound rates :
  length rates = kThroughputReps → Forall (λ r, is_nan r = false) rates →
  ∃ m, median_rate rates = Some m ∧ is_median rates m.
Proof.
  intros Hlr Hn. change kThroughputReps with 5%nat in Hlr.
  destruct (lookup_lt_is_Some_2 (merge_sort dle rates) (kThroughputReps / 2)) as [m Hm].
  { rewrite (Permutation_length (merge_sort_Permutation dle rates)), Hlr. cbn. lia. }
  destruct (order_statistic dle _ _ _ Hm) as (Hin&H1&H2). exists m. split; [exact Hm|]. unfold is_median. split; [done|].
  rewrite Hlr in H2. change (Z.of_nat (kThroughputReps / 2)) with 2 in H1, H2.
  assert (Hmn : is_nan m = false) by (rewrite Forall_forall in Hn; by apply Hn).
  assert (He : ∀ f g : double → bool, (∀ x, is_nan x = false → f x = g x) → countb f rates = countb g rates).
  { intros f g Hfg. unfold countb. f_equal. f_equal. clear -Hn Hfg.
    induction Hn as [|x l Hx _ IH]; [done|]. cbn. rewrite (Hfg x Hx), IH. done. }
  rewrite (He (λ r, fle r m) (λ r, bool_decide (dle r m))), (He (λ r, fle m r) (λ r, bool_decide (dle m r))).
  - lia.
  - intros x Hx. apply bool_iff. rewrite bool_decide_eq_true. unfold dle. naive_solver congruence.
  - intros x Hx. apply bool_iff. rewrite bool_decide_eq_true. unfold dle. naive_solver congruence.
Qed.

(** ** The runs *)

Lemma concat_replicate_length {A} n (l : list A) : length (concat (replicate n l)) = (n * length l)%nat.
Proof. induction n as [|n IH]; [done|]. cbn [replicate concat]. rewrite length_app, IH. lia. Qed.

Lemma length_made {T} count passes (make : Z → T) :
  0 <= count → 0 <= passes → Z.of_nat (length (made count (Z.to_nat passes) make)) = count * passes.
Proof.
  intros Hc Hp. unfold made. rewrite concat_replicate_length.
  rewrite length_fmap, length_seqZ. lia.
Qed.

Section Runs.
Context {T : Type} `{!Inhabited T} (cache : bool) (image : T → list byte) (count passes : Z) (make : Z → T).
Hypothesis Hcount : 0 <= count.
Hypothesis Hpasses : 0 <= passes.
Hypothesis Htotal : count * passes < 2 ^ 64.

Lemma once_exists t0 t1 : ring_throughput_once cache image count passes make t0 t1 (rate_of (count * passes) t0 t1).
Proof using Hcount Hpasses Htotal.
  unfold ring_throughput_once. unfold u64_mul. rewrite u64_small by (unfold is_u64; nia).
  rewrite <- (length_made count passes make) by done.
  destruct (finished_exists kRingCapacity cache false (sink_body image) _ (made count (Z.to_nat passes) make) 0
    eq_refl ltac:(unfold kRingCapacity; lia) eq_refl ltac:(by rewrite length_made)) as (p&Hr&Hf).
  exists p. by split.
Qed.

(** The rates the five pairs of readings give. *)
Definition timed_rates (total : Z) (clock : nat → Z * Z) : list double :=
  (λ i, rate_of total (clock i).1 (clock i).2) <$> seq 0 kThroughputReps.

Lemma timed_rates_sign total clock : is_u64 total → Forall (has_sign false) (timed_rates total clock).
Proof.
  intros Ht. apply Forall_fmap, Forall_forall. intros i _. by apply throughput_sign.
Qed.

(** A median of the runs is the median of the rates that were measured. *)
Lemma median_of_rates clock m :
  ring_throughput_median cache image count passes make clock m →
  is_median (timed_rates (count * passes) clock) m ∧ fle fzero m = true.
Proof using Hcount Hpasses Htotal.
  intros (rates&Hl&Hr&Hm).
  assert (Ht : is_u64 (count * passes)) by (unfold is_u64; nia).
  assert (rates = timed_rates (count * passes) clock) as ->.
  { apply list_eq. intros i. unfold timed_rates. rewrite list_lookup_fmap.
    destruct (decide (i < kThroughputReps)%nat) as [Hi|Hi].
    - destruct (lookup_lt_is_Some_2 rates i) as [x Hx]; [lia|]. rewrite lookup_seq_lt, Hx by done.
      destruct (Hr i x Hx) as (p&_&_&->). unfold u64_mul. by rewrite u64_small.
    - rewrite lookup_ge_None_2 by lia. by rewrite lookup_seq_ge by lia. }
  pose proof (timed_rates_sign (count * passes) clock Ht) as Hs.
  destruct (median_rate_sound (timed_rates (count * passes) clock) Hl) as (m'&Hm'&Hmed).
  { eapply Forall_impl; [exact Hs|apply sign_not_nan]. }
  rewrite Hm in Hm'. injection Hm' as <-. split; [done|]. destruct Hmed as [Hin _].
  rewrite Forall_forall in Hs. specialize (Hs m Hin). destruct m as [[]|[]| |[] ? ?]; done.
Qed.

Lemma median_exists clock : ∃ m, ring_throughput_median cache image count passes make clock m.
Proof using Hcount Hpasses Htotal.
  assert (Ht : is_u64 (count * passes)) by (unfold is_u64; nia).
  destruct (median_rate_sound (timed_rates (count * passes) clock)) as (m&Hm&_).
  { unfold timed_rates. by rewrite length_fmap, length_seq. }
  { eapply Forall_impl; [by apply timed_rates_sign|apply sign_not_nan]. }
  exists m, (timed_rates (count * passes) clock). split; [unfold timed_rates; by rewrite length_fmap, length_seq|].
  split; [|done]. intros i rate Hi. unfold timed_rates in Hi. rewrite list_lookup_fmap in Hi.
  apply fmap_Some in Hi as (k&[-> _]%lookup_seq&->). apply once_exists.
Qed.

End Runs.

(** ** The whole program *)

(** Each of the eight figures is the median of the five rates measured for it, and not
    negative. *)
Definition true_medians (total : Z) (clocks : nat → nat → Z * Z) (r : SpscRates) : Prop :=
  ∀ k m, [r_sep (rec_n r); r_pak (rec_n r); r_sep (u64_n r); r_pak (u64_n r);
          r_sep (rec_c r); r_pak (rec_c r); r_sep (u64_c r); r_pak (u64_c r)] !! k = Some m →
    is_median (timed_rates total (clocks k)) m ∧ fle fzero m = true.

(** The two threads, wherever they are, can be run to the end: no state they reach is a
    race or a dead end. *)
Definition threads_finish {T C} `{!Inhabited T} cache measures (body : nat → T → Z → C → C) items c0 : Prop :=
  let total := Z.of_nat (length items) in
  ∀ o, prog_reachable kRingCapacity cache measures body total items c0 o →
    ∃ p p', o = Some p ∧ rtc (pstep kRingCapacity cache measures body total) p p' ∧ finished total p'.

Lemma threads_finish_all {T C} `{!Inhabited T} cache measures (body : nat → T → Z → C → C) items c0 :
  Z.of_nat (length items) < 2 ^ 64 → threads_finish cache measures body items c0.
Proof.
  intros Hl. unfold threads_finish. cbn zeta. set (total := Z.of_nat (length items)). intros o Hr.
  destruct (prog_reachable_inv kRingCapacity cache measures body total items c0 eq_refl ltac:(unfold kRingCapacity; lia)
    eq_refl Hl o Hr) as (p&->&I).
  destruct (prog_completes kRingCapacity cache measures body total items c0 eq_refl ltac:(unfold kRingCapacity; lia)
    eq_refl Hl p I) as (p'&Hs&Hf).
  by exists p, p'.
Qed.

(** The threads of all runs of the program: records and words, both rings, the pipeline. *)
Definition all_threads_finish (cast : double → Z) (passes : Z) (recs : list WireRecord) : Prop :=
  let count := Z.of_nat (length recs) in
  (∀ cache, threads_finish cache false (sink_body encode_record) (made count (Z.to_nat passes) (rec_make recs)) 0) ∧
  (∀ cache, threads_finish cache false (sink_body (le_bytes 8)) (made count (Z.to_nat passes) u64_make) 0) ∧
  (∀ tpns now tsc, threads_finish false true (pipe_body cast tpns now) (stamped_items (Z.to_nat passes) recs tsc) pipe_init).

(** The consumer of the pipeline holds what one thread would compute. *)
Definition sequential_consumer (passes : Z) (recs : list WireRecord) (c : PipeConsumer) : Prop :=
  let total := Z.of_nat (length recs) * passes in
  let run := check_all (msgs (produced (Z.to_nat passes) recs)) validator_init in
  pc_validator c = run.2 ∧ pc_checksum c = u64 (flag_sum run.1) ∧
  u64 (tsc_anomalies c + count_ (pc_hist c)) = u64 total ∧
  0 <= occupancy_sum c <= kRingCapacity * total.

Section Main.
Context (cast : double → Z) (have_rdtsc : bool) (clocks : nat → nat → Z * Z).
Context (path : list byte) (pcore ccore passes : Z).
Context (recs : list WireRecord).
Hypothesis Hp : 0 <= passes.
Hypothesis Hfit : kRingCapacity * (Z.of_nat (length recs) * passes) < 2 ^ 64.

Lemma stamped_total tsc :
  Z.of_nat (length (stamped_items (Z.to_nat passes) recs tsc)) = Z.of_nat (length recs) * passes.
Proof using Hp.
  clear Hfit. rewrite stamped_items_length. unfold produced. rewrite concat_replicate_length. lia.
Qed.

Lemma total_fits : Z.of_nat (length recs) *u passes = Z.of_nat (length recs) * passes.
Proof using Hp Hfit. unfold u64_mul. unfold kRingCapacity in Hfit. apply u64_small. unfold is_u64. nia. Qed.

Lemma pipeline_exists tpns : ∃ c, pipeline_runs cast tpns recs passes c.
Proof using Hp Hfit.
  unfold pipeline_runs. rewrite total_fits. rewrite <- (stamped_total (λ _, 0)).
  destruct (finished_exists kRingCapacity false true (pipe_body cast tpns (λ _, 0)) _
    (stamped_items (Z.to_nat passes) recs (λ _, 0)) pipe_init
    eq_refl ltac:(unfold kRingCapacity; lia) eq_refl
    ltac:(rewrite stamped_total; unfold kRingCapacity in Hfit; lia)) as (p&Hr&Hf).
  exists (acc (p_client p)), (λ _, 0), (λ _, 0), p. split; [done|]. by split.
Qed.

Lemma runs_finish : all_threads_finish cast passes recs.
Proof using Hp Hfit.
  unfold kRingCapacity in Hfit. split; [|split].
  - intros cache. apply threads_finish_all. rewrite length_made; lia.
  - intros cache. apply threads_finish_all. rewrite length_made; lia.
  - intros tpns now tsc. apply threads_finish_all. rewrite stamped_total. lia.
Qed.

Lemma spsc_run_exists : ∃ res, spsc_run cast have_rdtsc clocks path pcore ccore passes recs res.
Proof using Hp Hfit.
  assert (Hm : ∀ T (H : Inhabited T) cache (image : T → list byte) make k,
    ∃ m, ring_throughput_median cache image (Z.of_nat (length recs)) passes make (clocks k) m).
  { intros. apply median_exists; [lia|done|]. unfold kRingCapacity in Hfit. lia. }
  destruct (Hm _ _ false encode_record (rec_make recs) 0%nat) as [a0 A0], (Hm _ _ false encode_record (rec_make recs) 1%nat) as [a1 A1].
  destruct (Hm _ _ false (le_bytes 8) u64_make 2%nat) as [a2 A2], (Hm _ _ false (le_bytes 8) u64_make 3%nat) as [a3 A3].
  destruct (Hm _ _ true encode_record (rec_make recs) 4%nat) as [a4 A4], (Hm _ _ true encode_record (rec_make recs) 5%nat) as [a5 A5].
  destruct (Hm _ _ true (le_bytes 8) u64_make 6%nat) as [a6 A6], (Hm _ _ true (le_bytes 8) u64_make 7%nat) as [a7 A7].
  pose (ts := mkTimespec 0 0). destruct (pipeline_exists (calibrate_ticks_per_ns have_rdtsc ts ts 0 0)) as [pc Hpc].
  eexists _, (mkSpscRates (mkRates a0 a1) (mkRates a2 a3) (mkRates a4 a5) (mkRates a6 a7)), ts, ts, 0, 0, pc, 0, 0.
  split; [by repeat split|]. split; [exact Hpc|]. split; [lia|reflexivity].
Qed.

Lemma regime1_medians rates : regime1_runs clocks recs passes rates → true_medians (Z.of_nat (length recs) * passes) clocks rates.
Proof using Hp Hfit.
  unfold kRingCapacity in Hfit. intros ((?&?)&(?&?)&(?&?)&(?&?)) k m Hk.
  do 8 (destruct k as [|k]; [injection Hk as <-; eapply median_of_rates; [..|eassumption]; (done || lia)|]). done.
Qed.

Lemma spsc_run_sound res :
  spsc_run cast have_rdtsc clocks path pcore ccore passes recs res →
  ∃ rates c p0 p1, true_medians (Z.of_nat (length recs) * passes) clocks rates ∧ sequential_consumer passes recs c ∧
    p0 <= p1 ∧
    res = Returns 0 (spsc_title have_rdtsc path pcore ccore (Z.of_nat (length recs)) passes ++ spsc_regime1 rates ++
            spsc_regime2 cast have_rdtsc c (Z.of_nat (length recs) * passes) p0 p1).
Proof using Hp Hfit.
  intros (rates&t0&t1&c0&c1&c&p0&p1&H1&(tsc&now&p&_&Hr&Hf&->)&Hle&->). rewrite total_fits in *.
  exists rates, (acc (p_client p)), p0, p1. split; [by apply regime1_medians|]. split; [|done].
  unfold sequential_consumer. cbn zeta. rewrite <- (stamped_total tsc) in Hr, Hf, Hfit |- *.
  by apply (pipeline_sequential cast (calibrate_ticks_per_ns have_rdtsc t0 t1 c0 c1) now (Z.to_nat passes) recs tsc p).
Qed.

End Main.

(** ** The properties *)

(** C10: Neither loop can hang, and nothing is lost: on the C++ memory model, with either
    variant of the ring and any loop body, no execution of the producer and the consumer
    races; from every state they can reach the run can be completed (so no schedule and no
    stale load leads to a deadlock), every step uses up one of the finitely many steps left
    or is a spin that changes nothing but what a thread knows, and once both loops have
    ended the consumer has processed every item exactly once, in the producer's order,
    each time with an occupancy between 0 and [Capacity]. *)
Theorem spsc_program_completes {T C} `{!Inhabited T} cap cache measures (body : nat → T → Z → C → C) items c0 o :
  pow2_assert cap = true → cap <= 2 ^ 63 → Z.of_nat (length items) < 2 ^ 64 →
  let total := Z.of_nat (length items) in
  prog_reachable cap cache measures body total items c0 o →
  ∃ p, o = Some p ∧
    (∃ p', rtc (pstep cap cache measures body total) p p' ∧ finished total p') ∧
    (∀ p', pstep cap cache measures body total p p' →
       (steps_left items p' < steps_left items p)%nat ∨ same_progress p p') ∧
    (finished total p →
     ∃ occs, length occs = length items ∧ Forall (λ occ, 0 <= occ <= cap) occs ∧
       acc (p_client p) = process body 0 (zip items occs) c0).
Proof.
  intros Hc Hm Hl total Hr.
  destruct (prog_reachable_inv cap cache measures body total items c0 Hc Hm eq_refl Hl o Hr) as (p&->&I).
  exists p. split; [done|]. split; [|split].
  - by apply (prog_completes cap cache measures body total items c0).
  - intros p'. by apply (step_or_spin cap cache measures body total items c0).
  - by apply (finished_result cap cache measures).
Qed.

(** C11: [replay_bench_spsc] as a program, over whatever file it is given, as long as the
    occupancy sum of [count * passes] items fits 64 bits, and for whatever readings of the
    clock [clocks] around its forty throughput runs.  No interleaving of a producer and a
    consumer leads to a data race or a dead end: from every state they reach the run can be
    completed, in each configuration of the first regime and in the pipeline; and a completed
    run of the program exists.  Every completed run releases the mapping and has one of
    these outcomes: a core number outside [int] is undefined; an unusable file is refused
    with one message and status 1; otherwise it returns 0 with a report in which each of the
    eight figures is the median of the five rates measured for it (one of them, with at least
    three of them not above and at least three not below it) and not negative, and whose
    consumer has validated exactly the records of all passes in order, with every item one
    sample or one counted anomaly, and an occupancy of at most the ring's capacity per item. *)
Theorem spsc_main_outcomes cast have_rdtsc clocks sys argv w :
  mmap_exact sys → ~ In (sys_open sys (path_string (arg argv 1 id default_path))) (open_fds w) →
  let path := arg argv 1 id default_path in
  let passes := arg argv 2 strtoull 5 in
  let m := (MappedFile_ctor sys (path_string path) w).1 in
  let opened := open_view path (mf_base m) (mf_size m) in
  (∀ recs, opened = inr (Some recs) → kRingCapacity * (Z.of_nat (length recs) * passes) < 2 ^ 64) →
  (∀ recs, opened = inr (Some recs) → all_threads_finish cast passes recs) ∧
  (∃ out, spsc_main cast have_rdtsc clocks sys argv w out) ∧
  ∀ res w', spsc_main cast have_rdtsc clocks sys argv w (res, w') → w' = w ∧
    (((arg argv 3 atoi (Some 2) = None ∨ arg argv 4 atoi (Some 4) = None) ∧ res = Undefined) ∨
     (∃ p, opened = inl p ∧ res = Returns 1 [p]) ∨
     ∃ recs pcore ccore rates c p0 p1,
       let count := Z.of_nat (length recs) in
       opened = inr (Some recs) ∧ true_medians (count * passes) clocks rates ∧ sequential_consumer passes recs c ∧
       p0 <= p1 ∧
       res = Returns 0 (spsc_title have_rdtsc path pcore ccore count passes ++ spsc_regime1 rates ++
               spsc_regime2 cast have_rdtsc c (count * passes) p0 p1)).
Proof.
  intros He Hf path passes m opened Hfit.
  destruct (mapped_ctor_exact sys (path_string path) w He) as [Hb Hs]. fold m in Hb, Hs.
  assert (Hp : 0 <= passes) by (apply strtoull_arg; lia).
  pose proof (open_view_cases path _ _ Hb Hs) as Hcases. fold opened in Hcases.
  split; [intros recs Hr; apply runs_finish; [done|by apply Hfit]|]. split.
  - destruct (arg argv 3 atoi (Some 2)) as [pcore|] eqn:E3; [|eexists; apply spsc_bad_core; by left].
    destruct (arg argv 4 atoi (Some 4)) as [ccore|] eqn:E4; [|eexists; apply spsc_bad_core; by right].
    destruct Hcases as [[q Hq]|[recs Hr]].
    + eexists. apply (spsc_ran _ _ _ _ _ _ pcore ccore (λ _, Undefined)); [done..|]. fold path m opened. congruence.
    + destruct (spsc_run_exists cast have_rdtsc clocks path pcore ccore passes recs) as [res Hres]; [done|by apply Hfit|].
      eexists. apply (spsc_ran _ _ _ _ _ _ pcore ccore (λ _, res)); [done..|]. fold path m opened passes. congruence.
  - intros res w' Hm. inversion Hm as [H E|pcore ccore k E3 E4 path' m' Hk E]; subst; [by split; [|left]|].
    subst m' path'. fold path m opened passes in Hk, E. rewrite with_mapped_file_spec in E by done.
    fold m opened in E. injection E as <- <-. clear Hm.
    split; [done|]. right. fold opened.
    destruct Hcases as [[q Hq]|[recs Hr]]; [left; exists q; by rewrite Hq|right].
    destruct (spsc_run_sound cast have_rdtsc clocks path pcore ccore passes recs Hp (Hfit _ Hr) (k recs) (Hk _ Hr))
      as (rates&c&p0&p1&H1&H2&H3).
    exists recs, pcore, ccore, rates, c, p0, p1. by rewrite Hr.
Qed.

(** ** Witnesses *)

Definition int_body (_ : nat) (x occ sum : Z) : Z := sum + x + occ.

Lemma spsc_program_completes_witness :
  ∃ p p' : Prog Z Z, prog_reachable 2 false true int_body 3 [7; 8; 9] 10 (Some p) ∧
    rtc (pstep 2 false true int_body 3) p p' ∧ finished 3 p'.
Proof.
  destruct (spsc_program_completes 2 false true int_body [7; 8; 9] 10 (Some (prog_init 2 [7; 8; 9] 10))
    eq_refl ltac:(lia) eq_refl (prog_start _ _ _ _ _ _ _)) as (p&E&(p'&Hr&Hf)&_).
  injection E as <-. eexists _, p'. split; [apply prog_start|]. split; [exact Hr|exact Hf].
Defined.

Lemma spsc_main_outcomes_witness :
  let sys := demo_file_sys (encode (header_with 1) ++ encode (published 10)) in
  let clocks (k i : nat) := (0, Z.of_nat (k + i) * 1000) in
  ∃ res, spsc_main (λ _, 0) true clocks sys demo_argv (mkOS [] 0) (res, mkOS [] 0) ∧
    ∃ out, res = Returns 0 out.
Proof.
  intros sys clocks.
  pose proof (spsc_main_outcomes (λ _, 0) true clocks sys demo_argv (mkOS [] 0) (demo_file_exact _) (λ H, H)) as H.
  cbn zeta in H. destruct H as (_&[[res w'] Hm]&Hall).
  { intros recs Hr. vm_compute in Hr. injection Hr as <-. vm_compute. done. }
  exists res. destruct (Hall res w' Hm) as [-> [[[H|H] _]|[(p&Hp&_)|(recs&?&?&?&?&?&?&_&_&_&_&->)]]].
  - vm_compute in H. discriminate.
  - vm_compute in H. discriminate.
  - vm_compute in Hp. discriminate.
  - split; [exact Hm|]. eauto.
Defined.

(** The second regime keeps one validator over all passes: replaying two good records
    flags the first on the second pass, which the other harnesses, with a fresh validator per
    pass, do not. *)
Example pipeline_flags_second_pass :
  flag_sum (check_all (msgs (produced 2 [published 10; published 11])) validator_init).1 ≠ 0 ∧
  worker 2 [published 10; published 11] 0 = 0.
Proof. split; by vm_compute. Qed.
